(* ===== verification/_CoqProject ===== *)
-Q . S2P
Prelude.v
SipHash.v
Membership.v
Cluster.v
Partitioner.v
Net.v
Topology.v
Process.v
Parts.v
Ending.v
ClusterSteps.v
ClusterRaces.v
NetSteps.v
Storage.v
StorageNet.v
StorageSpec.v
Queue.v
QueueNet.v
Sync.v
Service.v
StorageSteps.v
StorageRaces.v
QueueSteps.v
QueueRaces.v
Executor.v
Text.v
Documents.v
Search.v
Indexing.v
Ingestion.v
Routes.v
Bootstrap.v
Wildcard.v
Deploy.v
Background.v
SiteSteps.v
SiteRaces.v
WaitFree.v
Node.v
Ui.v
Tests.v
