(* ===== verification/Prelude.v ===== *)
(** * Verification of the distributed search cluster

    The program under src/src/ is one Rust server that is run on every node of a cluster.  Nodes
    find each other by gossip over UDP, derive from their own view of the membership who owns which
    of 256 partitions, keep a replicated map and a replicated task queue over HTTP, and run workers
    that execute the tasks.  This library models those parts as they are written and proves what
    they guarantee, and, where the code falls short of its own comments, what happens instead.

    ** Files and what they model

    - Prelude.v (this file): fixed-width integers, [anyhow::Result], state-passing computations
      with the [?] operator, loops, tactics and list lemmas.
    - SipHash.v: [DefaultHasher] (SipHash-1-3 with zero keys) as the Rust standard library defines
      it, which storage/partitioner.rs uses to place keys.
    - Membership.v: membership/types.rs and membership/service.rs.  [MembershipService] is the
      record of that name; [handle_ping], [handle_ack], [merge_member], [handle_suspect],
      [handle_alive], [handle_join], [gossip_tick] and [failure_detection_tick] are the handlers
      and one iteration of each loop, taking the current instant and returning the new state and
      the datagrams sent.
    - Cluster.v: many such services over a network that duplicates, reorders and loses datagrams.
      [act] is one delivery or one tick, [execute] a run of the system.  A datagram carries the address
      of the socket it leaves and reaches the node whose socket has the address it is sent to; what
      address a socket gets from the one it is bound to, with wildcard hosts and port 0, is
      [binds].
    - Partitioner.v: storage/partitioner.rs.  [get_partition], [get_owners] and the lists of own
      partitions; [agree] says when two nodes see the same placement.
    - Net.v: [post_with_retry] and [get_with_retry] of storage/memory.rs and executor/queue.rs, over
      a [World] that holds one component per address and a script of network faults.
    - Topology.v: the interface [Hosted] of a component that sits on a partitioner, and [cluster],
      the assumption that views agree and that addresses lead where the records say.
    - Storage.v, StorageNet.v: storage/memory.rs, storage/protocol.rs and storage/handlers.rs, first
      the shard of one node, then the operations that span nodes with the handlers serving them.
    - Queue.v, QueueNet.v: executor/types.rs, executor/queue.rs, executor/protocol.rs and
      executor/handlers.rs, split in the same way; Queue.v has the life cycle of a task.
    - Sync.v: the anti-entropy loops of main.rs, once for every component of class [Syncable], of
      which the map and the queue are instances.
    - Process.v: computations cut into actions, of which any number run interleaved, and two ways to
      reason about them: what every action keeps within, and what cannot happen before an event.
    - Parts.v, Ending.v: processes of one component in a system of several, and why every pool of
      processes comes to an end.
    - NetSteps.v, StorageSteps.v: the requests of Net.v, the operations and handlers of StorageNet.v
      and the anti-entropy of Sync.v, once more, action by action.  An action is one access to a
      shared table or to the network; [Activity] is anything that a node does with the map.
    - ClusterSteps.v, ClusterRaces.v: the loops of the membership services of Cluster.v in the same
      way, an action being one access to an entry of the table of members or one datagram.
    - Service.v: the map while the anti-entropy loops run beside its clients.
    - StorageRaces.v: any activities of any nodes with the map in any interleaving.
    - QueueSteps.v, QueueRaces.v: the same for the task queue.
    - Executor.v: executor/registry.rs and executor/executor.rs, a worker as a function and the pool
      of workers with their heartbeats as a step relation.
    - StorageSpec.v: what a client of the map may assume.  [represents] relates the shards of a
      cluster to one finite map, which [get] and [put] look up and extend; the components above are
      verified against it.
    - Text.v, Documents.v: strings as Unicode scalar values, with the interfaces to the Unicode tables
      and to the regular expressions; search/types.rs, ingestion/types.rs and the [Site], the
      components that the handlers of a node are given.
    - Search.v: search/tokenizer.rs, search/engine.rs, search/handlers.rs.
    - Indexing.v: the handler of [index_document] tasks in main.rs, whole and in the two steps per
      word in which workers interleave.
    - Ingestion.v: ingestion/handlers.rs, from splitting a text to the response.
    - Routes.v: the table of routes of main.rs, the paths that nodes request from each other, what
      URL parsing and percent decoding make of them ([HttpStack]), and the list that
      [/health/routes] advertises.
    - Bootstrap.v, Wildcard.v: how the nodes of Cluster.v get to know each other, and how they do not
      when they are started as README.md says.
    - Deploy.v: what main.rs puts on a membership service, on every node of a cluster, and the way of
      a book through all the parts.
    - Background.v: the other half of main.rs: the registered handler, workers that share the site of
      their node, and the background tasks of all nodes taking turns.
    - SiteSteps.v, SiteRaces.v: the handlers of Search.v and Ingestion.v, the index task of Indexing.v
      and the workers of Background.v once more as processes, made of those of StorageSteps.v and
      QueueSteps.v; and all of them in any interleaving.
    - WaitFree.v: how many actions of its own a request takes at most in such an interleaving.
    - Node.v: command line, environment, the wrappers of the generic handlers in main.rs and requests
      to them, the statistics endpoint.
    - Ui.v: the dashboard server, src/ui/src/main.rs.
    - Tests.v: the unit tests of the repository, computed on these definitions.

    The gossip layer (Membership, Cluster, Bootstrap) gives the views that placement (Partitioner)
    reads; [Topology.cluster] is what the stores (StorageNet, QueueNet, Sync) assume of them, and
    Deploy.v shows that a converged cluster provides it.  [StorageSpec.represents] is what Search,
    Indexing and Ingestion assume of the stores, and Deploy.v shows that fresh nodes provide that.

    ** What the theorems show

    Membership: every reachable view is well formed, members are never forgotten, [Dead] is final,
    merging two records commutes, a silent member goes through [Suspect] to [Dead] at stated times
    ([view_well_formed], [member_evolution], [merge_order_irrelevant], [silent_member_timeline]).
    Over whole executions of the cluster: incarnations keep their initial value, so that suspicions
    sent to others are ignored, the self-defence that [refutation_exchange] describes is never
    triggered, and a suspicion is never taken back ([incarnations_frozen], [suspicions_are_ignored],
    [suspicion_is_final]); a node always believes in itself ([self_always_alive]). Incarnations stay
    and suspicions stand also when the loops of every node interleave in the middle of a datagram or
    a tick, which Cluster.v treats as one step ([incarnations_stay], [suspicions_stand],
    [uninterrupted_membership]). If every node is bound to an address of its own, records
    always carry the addresses their members really have ([records_are_right]) and the start with
    seeds can bring all nodes to agree on who is alive ([bootstrap_converges]); with [0.0.0.0], as in
    README.md, a node tells others that very address, and nodes on several hosts never come together
    ([wildcard_starts_stay_alone]). Numbers stay within their machine types ([machine_types]).

    Placement: owners are distinct live nodes, as many as the replication factor allows
    ([get_owners_spec]); nodes with the same live set agree on owners, have exactly one primary per
    partition and even shares ([placement_agreement], [exactly_one_primary],
    [primary_load_balanced]); after a failure the owners may be nodes that never held the data
    ([failover_moves_to_strangers]).

    Storage: an acknowledged write is at the primary whatever the network did ([put_durable]), is
    possible from every node and reaches the owners when there are no faults ([put_available]),
    touches nothing else ([put_frame]); reads return stored values only, and the written one
    ([get_sound], [read_after_write], [client_roundtrip]); replays are ignored within a bound
    ([replay_window]).  Three ways in which a write goes wrong: [forwarding_backup_skipped],
    [retried_write_lost], [lost_reply_skips_replicas].  Waiting between retries is bounded
    ([backoff_bounded]).

    Queue: at most one successful claim per task on a node, forward-only life cycle, leases that
    protect their holder, for any sequence of operations on one table ([claimed_at_most_once],
    [task_lifecycle], [lease_protects]); an accepted
    task is on every owner and can be found from everywhere ([submit_replicated],
    [submit_available], [submit_frame], [task_found]).  Expired tasks are never claimed again and
    outcomes stay on one node ([abandoned_never_reclaimed], [completed_task_runs_again]).

    Anti-entropy: the exact effect of any number of passes ([sync_restores]) and the repair of a
    write that its own backup skipped ([sync_heals_forwarder]). Workers: they drain the queue,
    exclude each other, and a panic strands the task ([worker_drains], [workers_exclusive],
    [panicked_task_stranded]).

    The map under concurrency: the operations of StorageNet.v and Sync.v are the processes of
    StorageSteps.v that nothing interrupts ([uninterrupted_activity]).  In every interleaving and on
    every network, an acknowledged write is stored at its owners when everything has ended, unless
    another write replaced it ([acknowledged_is_stored]), reads return what somebody wrote
    ([reads_have_sources]), and one pass of anti-entropy brings a backup to the value of its primary
    ([replicas_converge]).  A value is read under the key that was asked for or, from another
    node, under what the HTTP stack makes of this key ([read_as]).  What does not hold: replicas agree by themselves
    ([replicas_diverge]), an acknowledgement means that the value is stored by now
    ([acknowledged_before_stored]), and a stored value stays until it is replaced by a later write
    ([recovery_undoes_write]).

    The queue under concurrency: in every interleaving and on every network, an accepted task is with
    all its owners from then on, with its own payload ([accepted_is_stored]), tables only grow and
    tasks only move forward ([tasks_survive]), of the claims of a task on a node one succeeds
    ([claimed_by_one]), lookups return what was submitted ([found_tasks_were_submitted]).  Which
    submission draws which id depends on the interleaving; [foresee] of Process.v chooses it after the
    run and proves about the whole run with the choice in hand.  Again the
    coarse operations are the processes without interruption ([uninterrupted_queue_activity]).

    The site under concurrency: requests, index tasks, workers with their heartbeats and anti-entropy
    of all four components in any interleaving, on every network, while the nodes change their minds
    about each other in any way.  Each result of a search is the
    metadata of a registered book, and the points it has are tokens of the query that its text
    contains ([hits_are_real]); what ingestion and its status report is true and no ingestion panics
    ([ingestion_is_truthful]); no shard loses a key and no table a task ([nothing_is_lost]), but one
    suspicion makes data unreachable that live nodes hold ([suspicion_hides_data]); no run goes on for
    ever, and when it is over everybody has an answer ([requests_end]); requests come back after a
    number of actions of their own that depends on the replication factor only, apart from the polls
    of a download, which has no time limit, whatever the others do
    ([requests_are_wait_free]), and a status request may need all of its 29; the coarse handlers and workers are the processes without interruption
    ([uninterrupted_request]).  That a search finds every book cannot be shown: workers lose books,
    as [concurrent_indexing_loses_book] says.

    The map as a map: without faults, and if no mere backup writes, sequences of reads and writes
    answer as one shared map ([map_refinement]), also while anti-entropy runs between them
    ([service_refinement]); so they do on the nodes that main.rs deploys on a converged cluster
    ([deployed_map]).

    Search and indexing: exact results and ranking of a query ([search_ranking]), pages
    ([pages_of_search], [pages_may_overlap]), what queries can match ([document_words_are_queries],
    [query_tokens_not_indexed]); indexing adds a book to the posting lists of exactly its words
    ([index_document_adds]) so that every word finds it ([indexed_document_is_found]); concurrent
    workers, and workers on backups, lose books ([concurrent_indexing_loses_book],
    [backup_indexer_forgets]); books created by hand are never indexed
    ([created_book_is_not_indexed]).

    Ingestion: splitting is safe and exact ([split_gutenberg_spec]), years are bounded
    ([extract_year_bound]), every outcome of the handler with its effects, on any network
    ([ingest_outcome]).  From
    the download to the answer of a search, on a converged cluster: [way_of_a_book], and with the
    workers and the anti-entropy loops of all nodes taking turns in any order:
    [book_indexed_in_background].

    HTTP: every request between nodes, and every one of the dashboard, fits exactly the route of the
    handler it is meant for, which receives plain arguments as they were sent
    ([requests_reach_handlers], [ui_requests_reach]); keys with a slash are written and never read
    remotely ([slash_keys_are_lost]), and for a key with a question mark the value of another key
    is returned ([query_keys_confused]); the advertised routes
    ([advertised_routes]); a PUT and a GET through the table, the wrappers and the stores
    ([store_roundtrip]).  The node: its command line ([command_line_roundtrip]) and statistics, whose
    parts are read at different moments ([stats_are_true]); the dashboard's choice of a node ([resolve_node_url_spec]).

    ** Modelling decisions and bounds

    Release builds wrap integers: [u64], [u32] and [u16] arithmetic is written with [wrap]. The
    errors of [anyhow::Result] are messages without their arguments. Maps ([DashMap], [HashMap]) are
    [gmap]s; where the iteration order of a [HashSet] matters it is an argument. Random numbers,
    UUIDs, the clock and the faults of the network are read from the [Env] of the world, so that a
    theorem for all environments is a theorem for all of them. In most files a request is served in
    one go by the handler of its destination, so that two requests interleave as a whole. For
    membership, map, queue and the site as a whole ClusterSteps.v, StorageSteps.v, QueueSteps.v and
    SiteSteps.v go down to the single accesses to shared tables, between which any other task may
    run, and say when the coarse operations are right; the workers of a node and workers that index
    interleave as well (Executor.v, Indexing.v). JSON and the URL handling of the HTTP stack are not in the repository:
    they are the class [Serde] with its law [SerdeLaws], the parameter [path_segment], of which nothing
    is assumed but where a theorem says so of the keys it is about, and the class [HttpStack], whose
    laws are those of unreserved characters and of the question mark. A JSON value is an index payload
    or something that [from_value] refuses ([Documents.Value]). Other
    parameters, each for code outside the repository: the Unicode tables and regular expressions
    (classes [Unicode] and [Regexes] with their laws), the iteration orders of hash maps and sets
    ([hash_order], [set_order]), the download ([reqwest_get]) and how many actions it takes
    ([download_polls]), percent encoding, the HTTP client of
    the dashboard, the text form of socket addresses, processor and memory readings. The components
    of a [Site] have a script of faults, ids and clock readings each. The replication messages of
    one write are sent one after the other, as in the source. The only fuel is the number of
    attempts of a retried request (three everywhere in the source) and the number of iterations in
    [worker_run], which [worker_drains] bounds by the number of tasks; in SiteSteps.v the heartbeat of a
    task, which the source aborts at some time, makes any given number of rounds.

    ** Not modelled

    Sockets, timers and the runtime that schedules the tasks (their bodies are modelled, as steps
    that can happen at any time); logging; the embedded page of the dashboard; deployment files; the
    unit tests of serialisation and of random ids. [BookResult] of search/types.rs is used nowhere.
    The membership of a node is modelled action by action by itself.  The theorems on the map and the
    queue are about views that stay as they are; those on the site let every view change at any time
    to any table of members, rather than to the one that its loops would produce. *)

From Stdlib Require Import ZArith Lia.
From stdpp Require Export base tactics option list gmap strings sorting.
From stdpp Require Import relations.

#[global] Open Scope Z_scope.

(** ** Machine integers

    An unsigned [w]-bit integer is a [Z] in [[0, 2^w)]; the arithmetic of a release build wraps
    around (Cargo.toml sets no [overflow-checks]), which [wrap w] writes out. *)

Definition wrap (w x : Z) : Z := x mod 2 ^ w.

Definition in_range (w x : Z) : Prop := 0 <= x < 2 ^ w.

Lemma wrap_in_range w x : 0 <= w -> in_range w (wrap w x).
Proof. intros Hw. apply Z.mod_pos_bound. by apply Z.pow_pos_nonneg. Qed.

Lemma wrap_small w x : in_range w x -> wrap w x = x.
Proof. apply Z.mod_small. Qed.

Lemma wrap_wrap w x : wrap w (wrap w x) = wrap w x.
Proof. apply Zmod_mod. Qed.

(** ** [Result]: the error values of [anyhow::Result] are their messages. *)

Inductive result (A : Type) : Type :=
  | Ok (a : A)
  | Err (e : string).
Arguments Ok {A} a.
Arguments Err {A} e.

#[export] Instance result_ret : MRet result := @Ok.
#[export] Instance result_bind : MBind result := fun A B f r =>
  match r with Ok a => f a | Err e => Err e end.
#[export] Instance result_fmap : FMap result := fun A B f r =>
  match r with Ok a => Ok (f a) | Err e => Err e end.
#[export] Instance result_eq_dec `{EqDecision A} : EqDecision (result A).
Proof. solve_decision. Defined.

Definition is_ok {A} (r : result A) : bool :=
  match r with Ok _ => true | Err _ => false end.

(** [Result::ok]: forget the error. *)
Definition result_ok {A} (r : result A) : option A :=
  match r with Ok a => Some a | Err _ => None end.

(** [Option::ok_or_else]. *)
Definition ok_or {A} (o : option A) (e : string) : result A :=
  match o with Some a => Ok a | None => Err e end.

(** ** Effects

    A computation that reads and writes a state [W] is a state-passing function; Rust's [?]
    operator is [x <-? m ;; k], which leaves the computation at the first [Err]. *)

Definition ST (W A : Type) : Type := W -> A * W.

Definition st_ret {W A} (a : A) : ST W A := fun w => (a, w).

Definition st_bind {W A B} (m : ST W A) (k : A -> ST W B) : ST W B := fun w =>
  let '(a, w1) := m w in k a w1.

Definition st_try {W A B} (m : ST W (result A)) (k : A -> ST W (result B)) : ST W (result B) :=
  st_bind m (fun r => match r with Ok a => k a | Err e => st_ret (Err e) end).

Definition st_get {W A} (f : W -> A) : ST W A := fun w => (f w, w).

Declare Scope effect_scope.
Delimit Scope effect_scope with effect.
#[global] Open Scope effect_scope.

Notation "x <- m ;; k" := (st_bind m (fun x => k))
  (at level 80, m at next level, right associativity) : effect_scope.
Notation "x <-? m ;; k" := (st_try m (fun x => k))
  (at level 80, m at next level, right associativity) : effect_scope.
Notation "m ;;; k" := (st_bind m (fun _ => k))
  (at level 80, right associativity) : effect_scope.

(** [for x in l { f(x)?; }]. *)
Fixpoint for_each_try {W A} (f : A -> ST W (result unit)) (l : list A) : ST W (result unit) :=
  match l with
  | [] => st_ret (Ok tt)
  | x :: l' => _ <-? f x ;; for_each_try f l'
  end.

(** [for x in l { f(x); }]. *)
Fixpoint for_each {W A} (f : A -> ST W unit) (l : list A) : ST W unit :=
  match l with
  | [] => st_ret tt
  | x :: l' => f x ;;; for_each f l'
  end.

Section st_lemmas.
Context {W : Type}.

Lemma st_bind_inv {A B} (m : ST W A) (k : A -> ST W B) w r w' :
  st_bind m k w = (r, w') -> exists a w1, m w = (a, w1) /\ k a w1 = (r, w').
Proof. unfold st_bind. destruct (m w) as [a w1] eqn:E. eauto. Qed.

Lemma st_bind_eq {A B} (m : ST W A) (k : A -> ST W B) w a w1 :
  m w = (a, w1) -> st_bind m k w = k a w1.
Proof. unfold st_bind. by intros ->. Qed.

Lemma st_try_inv {A B} (m : ST W (result A)) (k : A -> ST W (result B)) w r w' :
  st_try m k w = (r, w') ->
  (exists a w1, m w = (Ok a, w1) /\ k a w1 = (r, w')) \/
  (exists e, m w = (Err e, w') /\ r = Err e).
Proof.
  unfold st_try. intros (o & w1 & Hm & Hk)%st_bind_inv.
  destruct o as [a|e]; [left; eauto|]. right. exists e. by injection Hk as <- <-.
Qed.

Lemma st_try_ok {A B} (m : ST W (result A)) (k : A -> ST W (result B)) w a w1 :
  m w = (Ok a, w1) -> st_try m k w = k a w1.
Proof. unfold st_try, st_bind. by intros ->. Qed.

Lemma st_try_err {A B} (m : ST W (result A)) (k : A -> ST W (result B)) w e w1 :
  m w = (Err e, w1) -> st_try m k w = (Err e, w1).
Proof. unfold st_try, st_bind. by intros ->. Qed.

(** A relation between the state before and after that every step of a loop keeps is kept by
    the loop. *)
Lemma for_each_try_rel {A} (R : relation W) `{!PreOrder R} (f : A -> ST W (result unit)) l w :
  (forall x w1, x ∈ l -> R w1 (f x w1).2) -> R w (for_each_try f l w).2.
Proof.
  revert w. induction l as [|x l IH]; intros w Hf; simpl; [done|].
  pose proof (Hf x w ltac:(left)) as Hx. unfold st_try, st_bind.
  destruct (f x w) as [[u|e] w1]; simpl in *; [|done].
  etrans; [exact Hx|]. apply IH. intros y w2 Hy. apply Hf. by right.
Qed.

(** A loop that ends well went well at every element. *)
Lemma for_each_try_ok {A} (R : relation W) `{!PreOrder R} (f : A -> ST W (result unit)) l w w' :
  (forall x w1, x ∈ l -> R w w1 -> R w1 (f x w1).2) ->
  for_each_try f l w = (Ok tt, w') ->
  forall x, x ∈ l -> exists w1 w2, R w w1 /\ f x w1 = (Ok tt, w2) /\ R w2 w'.
Proof.
  intros Hf Hrun.
  assert (forall l0 w0, (forall x, x ∈ l0 -> x ∈ l) -> R w w0 ->
    for_each_try f l0 w0 = (Ok tt, w') -> R w0 w' /\
    forall x, x ∈ l0 -> exists w1 w2, R w w1 /\ f x w1 = (Ok tt, w2) /\ R w2 w') as Hgen.
  { induction l0 as [|y l0 IH]; intros w0 Hin HR Hr; simpl in Hr.
    - injection Hr as <-. split; [reflexivity|]. by intros x ?%elem_of_nil.
    - apply st_try_inv in Hr as [([] & w1 & Hy & Hr)|(e & _ & [=])].
      pose proof (Hf y w0 (Hin y ltac:(left)) HR) as HRy. rewrite Hy in HRy. simpl in HRy.
      destruct (IH w1) as [HR1 Hall]; [intros x Hx; apply Hin; by right|by etrans|done|].
      split; [by etrans|]. intros x [->|Hx]%elem_of_cons; [|by apply Hall].
      by exists w0, w1. }
  apply (Hgen l w); [auto|reflexivity|done].
Qed.

(** A loop all of whose steps succeed in a state with an invariant succeeds. *)
Lemma for_each_try_total {A} (P : W -> Prop) (f : A -> ST W (result unit)) l w :
  (forall x w1, x ∈ l -> P w1 -> exists w2, f x w1 = (Ok tt, w2) /\ P w2) ->
  P w -> exists w', for_each_try f l w = (Ok tt, w') /\ P w'.
Proof.
  intros Hf. revert w. induction l as [|x l IH]; intros w HP; simpl; [by exists w|].
  destruct (Hf x w ltac:(left) HP) as (w1 & Hx & HP1). rewrite (st_try_ok _ _ _ _ _ Hx).
  apply IH; [|done]. intros y w2 Hy. apply Hf. by right.
Qed.

Lemma for_each_rel {A} (R : relation W) `{!PreOrder R} (f : A -> ST W unit) l w :
  (forall x w1, x ∈ l -> R w1 (f x w1).2) -> R w (for_each f l w).2.
Proof.
  revert w. induction l as [|x l IH]; intros w Hf; simpl; [done|].
  pose proof (Hf x w ltac:(left)) as Hx. unfold st_bind.
  destruct (f x w) as [u w1]; simpl in *.
  etrans; [exact Hx|]. apply IH. intros y w2 Hy. apply Hf. by right.
Qed.

Lemma for_each_inv {A} (P : W -> Prop) (f : A -> ST W unit) l w :
  P w -> (forall x w1, x ∈ l -> P w1 -> P (f x w1).2) -> P (for_each f l w).2.
Proof.
  revert w. induction l as [|x l IH]; intros w Hw Hf; simpl; [done|].
  pose proof (Hf x w ltac:(left) Hw) as Hx. unfold st_bind.
  destruct (f x w) as [u w1]; simpl in *.
  apply IH; [done|]. intros y w2 Hy. apply Hf. by right.
Qed.
Lemma for_each_inv_try {A} (P : W -> Prop) (f : A -> ST W (result unit)) l w :
  P w -> (forall x w1, x ∈ l -> P w1 -> P (f x w1).2) -> P (for_each_try f l w).2.
Proof.
  revert w. induction l as [|x l IH]; intros w Hw Hf; simpl; [done|].
  pose proof (Hf x w ltac:(left) Hw) as Hx. unfold st_try, st_bind.
  destruct (f x w) as [[u|e] w1]; simpl in *; [|done].
  apply IH; [done|]. intros y w2 Hy. apply Hf. by right.
Qed.
End st_lemmas.

(** ** Tactics and hints of the development *)

(** Take one run of an effectful computation apart, branch by branch. *)
Ltac inv_run_step :=
  match goal with
  | H : st_bind _ _ _ = (_, _) |- _ =>
      let a := fresh "a" in let w := fresh "w" in let Hm := fresh "Hrun" in
      apply st_bind_inv in H as (a & w & Hm & H)
  | H : st_try _ _ _ = (_, _) |- _ =>
      let a := fresh "a" in let w := fresh "w" in let Hm := fresh "Hrun" in
      let e := fresh "e" in
      apply st_try_inv in H as [(a & w & Hm & H)|(e & Hm & H)]
  | H : st_ret _ _ = (_, _) |- _ => unfold st_ret in H; simplify_eq
  | H : st_get _ _ = (_, _) |- _ => unfold st_get in H; simplify_eq
  end.
Ltac inv_run := repeat (inv_run_step; simplify_eq/=).

Create HintDb cluster discriminated.
Create HintDb wrapping discriminated.
#[export] Hint Resolve wrap_in_range : wrapping.

(** ** Lists *)

Lemma lookup_nth_mod {A} (l : list A) (i : nat) :
  l <> [] -> is_Some (l !! (i mod length l)%nat).
Proof.
  intros Hl. apply lookup_lt_is_Some. apply Nat.mod_upper_bound.
  by destruct l.
Qed.

Lemma head_Some_nonempty {A} (l : list A) x : head l = Some x -> l <> [].
Proof. by destruct l. Qed.

Lemma add_mod_inj (n q x y : nat) :
  (x < n)%nat -> (y < n)%nat -> ((q + x) `mod` n = (q + y) `mod` n)%nat -> x = y.
Proof.
  intros Hx Hy Hm.
  pose proof (Nat.div_mod_eq (q + x) n) as H1. pose proof (Nat.div_mod_eq (q + y) n) as H2.
  rewrite Hm in H1. set (a := ((q + x) / n)%nat) in *. set (b := ((q + y) / n)%nat) in *.
  destruct (Nat.lt_trichotomy a b) as [Hab|[Hab|Hab]]; [|subst a; rewrite Hab in H1; lia|].
  - assert (n * S a <= n * b)%nat by (apply Nat.mul_le_mono_l; lia). lia.
  - assert (n * S b <= n * a)%nat by (apply Nat.mul_le_mono_l; lia). lia.
Qed.

(** How many numbers below [N] have residue [k] modulo [n]. *)
Lemma count_residue (n k N : nat) :
  (k < n)%nat ->
  length (filter (fun x => (x `mod` n)%nat = k) (seq 0 N)) =
    (N / n + if decide (k < N `mod` n)%nat then 1 else 0)%nat.
Proof.
  intros Hk. induction N as [|N IH].
  - simpl. rewrite Nat.Div0.div_0_l, Nat.Div0.mod_0_l. case_decide; lia.
  - rewrite seq_S, filter_app, length_app, IH, filter_cons. simpl.
    pose proof (Nat.div_mod_eq N n) as H1. pose proof (Nat.div_mod_eq (S N) n) as H2.
    pose proof (Nat.mod_upper_bound N n). pose proof (Nat.mod_upper_bound (S N) n).
    assert ((S N / n = N / n /\ S N `mod` n = S (N `mod` n)) \/
            (S N / n = S (N / n) /\ S N `mod` n = 0 /\ S (N `mod` n) = n))%nat as Hstep.
    { destruct (Nat.eq_dec (S (N `mod` n)) n) as [He|He].
      - right. assert (S N = n * S (N / n) + 0)%nat as Hn by lia.
        split_and!; [symmetry; eapply Nat.div_unique; [|exact Hn]
                    |symmetry; eapply Nat.mod_unique; [|exact Hn]|done]; lia.
      - left. assert (S N = n * (N / n) + S (N `mod` n))%nat as Hn by lia.
        split; [symmetry; eapply Nat.div_unique; [|exact Hn]
               |symmetry; eapply Nat.mod_unique; [|exact Hn]]; lia. }
    repeat case_decide; simpl; lia.
Qed.

Lemma length_filter_fmap {A B} (f : A -> B) (P : B -> Prop) (Q : A -> Prop)
    `{!forall x, Decision (P x), !forall x, Decision (Q x)} l :
  (forall x, P (f x) <-> Q x) -> length (filter P (f <$> l)) = length (filter Q l).
Proof.
  intros HPQ. induction l as [|x l IH]; simpl; [done|].
  rewrite !filter_cons. repeat case_decide; simpl; naive_solver.
Qed.
