(* ===== verification/SipHash.v ===== *)
(** * [std::hash]: the hasher behind [PartitionManager::get_partition]

    src/storage/partitioner.rs hashes keys with [DefaultHasher::new()], which is SipHash-1-3 with
    both key words zero; [str::hash] feeds the bytes of the string and then the byte [0xff].
    Everything is computed on 64-bit words held as [Z]. *)

From S2P Require Import Prelude.
From Stdlib Require Import Ascii.
From Stdlib Require Strings.String.

Definition add64 (a b : Z) : Z := wrap 64 (a + b).
Definition rotl64 (x r : Z) : Z :=
  Z.lor (wrap 64 (Z.shiftl x r)) (Z.shiftr x (64 - r)).

(** The four state words. *)
Record SipState := mkSip { v0 : Z; v1 : Z; v2 : Z; v3 : Z }.

(** One SipHash round. *)
Definition sip_round (s : SipState) : SipState :=
  let a0 := add64 (v0 s) (v1 s) in
  let a1 := Z.lxor (rotl64 (v1 s) 13) a0 in
  let a0' := rotl64 a0 32 in
  let a2 := add64 (v2 s) (v3 s) in
  let a3 := Z.lxor (rotl64 (v3 s) 16) a2 in
  let b0 := add64 a0' a3 in
  let b3 := Z.lxor (rotl64 a3 21) b0 in
  let b2 := add64 a2 a1 in
  let b1 := Z.lxor (rotl64 a1 17) b2 in
  mkSip b0 b1 (rotl64 b2 32) b3.

(** A little-endian word of bytes. *)
Fixpoint le_word (bs : list Z) : Z :=
  match bs with
  | [] => 0
  | b :: bs' => Z.lor b (Z.shiftl (le_word bs') 8)
  end.

(** [DefaultHasher]: state words, the bytes not yet absorbed (fewer than eight) and the number
    of bytes written. *)
Record DefaultHasher := mkHasher { sip : SipState; pending : list Z; written : Z }.

Definition hasher_new : DefaultHasher :=
  mkHasher (mkSip 0x736f6d6570736575 0x646f72616e646f6d 0x6c7967656e657261 0x7465646279746573)
           [] 0.

Definition absorb (m : Z) (s : SipState) : SipState :=
  let s' := sip_round (mkSip (v0 s) (v1 s) (v2 s) (Z.lxor (v3 s) m)) in
  mkSip (Z.lxor (v0 s') m) (v1 s') (v2 s') (v3 s').

Definition write_u8 (h : DefaultHasher) (b : Z) : DefaultHasher :=
  let t := pending h ++ [b] in
  if decide (length t = 8%nat)
  then mkHasher (absorb (le_word t) (sip h)) [] (written h + 1)
  else mkHasher (sip h) t (written h + 1).

Definition write (h : DefaultHasher) (bs : list Z) : DefaultHasher := foldl write_u8 h bs.

Definition finish (h : DefaultHasher) : Z :=
  let b := Z.lor (Z.shiftl (Z.land (written h) 0xff) 56) (le_word (pending h)) in
  let s := absorb b (sip h) in
  let s := mkSip (v0 s) (v1 s) (Z.lxor (v2 s) 0xff) (v3 s) in
  let s := sip_round (sip_round (sip_round s)) in
  Z.lxor (Z.lxor (v0 s) (v1 s)) (Z.lxor (v2 s) (v3 s)).

(** The bytes of a Rust string: a Rocq [string] is read as its UTF-8 encoding. *)
Definition str_bytes (s : string) : list Z :=
  (fun c => Z.of_N (N_of_ascii c)) <$> Strings.String.list_ascii_of_string s.

(** [str::hash]: the terminator byte makes the encoding prefix-free. *)
Definition hash_str (h : DefaultHasher) (s : string) : DefaultHasher :=
  write_u8 (write h (str_bytes s)) 0xff.

(** ** Lemmas *)

(** Writing in pieces is writing the concatenation. *)
Lemma write_app h a b : write h (a ++ b) = write (write h a) b.
Proof. apply foldl_app. Qed.

Lemma write_pending_short h bs :
  (length (pending h) < 8)%nat -> (length (pending (write h bs)) < 8)%nat.
Proof.
  revert h. induction bs as [|b bs IH]; intros h Hh; simpl; [done|].
  apply IH. unfold write_u8. case_decide as Hd; simpl; [lia|].
  rewrite length_app in Hd |- *. simpl in *. lia.
Qed.

Lemma hash_str_write h s : hash_str h s = write h (str_bytes s ++ [0xff]).
Proof. by rewrite write_app. Qed.

(** SipHash-1-3 with a zero key, checked against an independent implementation. *)
Example sip13_abc : finish (write hasher_new [97; 98; 99]) = 13851880170939887858.
Proof. vm_compute. reflexivity. Qed.

Example sip13_book_100 : finish (hash_str hasher_new "book_100") = 494346570834763825.
Proof. vm_compute. reflexivity. Qed.
