(* ===== verification/Membership.v ===== *)
(** * Membership: src/membership/types.rs and src/membership/service.rs

    The local state of one node's [MembershipService] and one function per message handler and
    per background loop iteration.  A handler takes the instant at which it runs and returns the
    new state with the datagrams it hands to the UDP socket; the multi-node system those
    datagrams connect is in Cluster.v. *)

From S2P Require Import Prelude.
From stdpp Require Import relations.

#[local] Open Scope Z_scope.

(** ** src/membership/types.rs *)

(** A socket address; the IP part is only compared. *)
Record SocketAddr := mkAddr { ip : string; port : Z }.

#[export] Instance SocketAddr_eq_dec : EqDecision SocketAddr.
Proof. solve_decision. Defined.
#[export] Instance SocketAddr_countable : Countable SocketAddr.
Proof.
  refine (inj_countable' (fun a => (ip a, port a)) (fun p => mkAddr p.1 p.2) _).
  by intros [].
Defined.

Record NodeId := mkId { id_str : string }.

#[export] Instance NodeId_eq_dec : EqDecision NodeId.
Proof. solve_decision. Defined.
#[export] Instance NodeId_countable : Countable NodeId.
Proof. by refine (inj_countable' id_str mkId _); intros []. Defined.

Inductive NodeState := Alive | Suspect | Dead.

#[export] Instance NodeState_eq_dec : EqDecision NodeState.
Proof. solve_decision. Defined.

(** Instants and durations are nanoseconds. *)
Record Node := mkNode {
  id : NodeId;
  gossip_addr : SocketAddr;
  http_addr : SocketAddr;
  state : NodeState;
  incarnation : Z;
  last_seen : option Z;
}.

Inductive GossipMessage :=
  | MPing (from : NodeId) (inc : Z)
  | MAck (from : NodeId) (inc : Z) (members : list Node)
  | MJoin (node : Node)
  | MSuspect (node_id : NodeId) (inc : Z)
  | MAlive (node_id : NodeId) (inc : Z).

#[export] Instance Node_eq_dec : EqDecision Node.
Proof. solve_decision. Defined.
#[export] Instance GossipMessage_eq_dec : EqDecision GossipMessage.
Proof. solve_decision. Defined.

(** Field updates of a [Node]. *)
Definition set_state (x : NodeState) (n : Node) : Node :=
  mkNode (id n) (gossip_addr n) (http_addr n) x (incarnation n) (last_seen n).
Definition set_incarnation (x : Z) (n : Node) : Node :=
  mkNode (id n) (gossip_addr n) (http_addr n) (state n) x (last_seen n).
Definition set_last_seen (x : option Z) (n : Node) : Node :=
  mkNode (id n) (gossip_addr n) (http_addr n) (state n) (incarnation n) x.

(** [#[serde(skip)] last_seen]: what the receiver of an encoded node gets. *)
Definition wire_node (n : Node) : Node := set_last_seen None n.
Definition wire (m : GossipMessage) : GossipMessage :=
  match m with
  | MAck f i ms => MAck f i (wire_node <$> ms)
  | MJoin n => MJoin (wire_node n)
  | _ => m
  end.

(** ** src/membership/service.rs *)

Definition secs (n : Z) : Z := n * 1000000000.

Definition GOSSIP_INTERVAL : Z := 500 * 1000000.
Definition FAILURE_DETECTION_INTERVAL : Z := secs 2.
Definition SUSPECT_TIMEOUT : Z := secs 5.
Definition DEAD_TIMEOUT : Z := secs 10.

Record MembershipService := mkService {
  local_node : Node;
  members : gmap NodeId Node;
  my_incarnation : Z;
}.

(** A datagram handed to the socket: destination and message. *)
Definition Datagram : Type := SocketAddr * GossipMessage.

Definition set_members (m : gmap NodeId Node) (s : MembershipService) : MembershipService :=
  mkService (local_node s) m (my_incarnation s).

(** [SocketAddr::new(a.ip(), a.port() + 1000)], on a [u16] port. *)
Definition http_of (a : SocketAddr) : SocketAddr := mkAddr (ip a) (wrap 16 (port a + 1000)).

(** [MembershipService::new]; the fresh [NodeId] and the clock are arguments. *)
Definition new (bind_addr : SocketAddr) (seeds : list SocketAddr) (fresh : NodeId) (now : Z)
    : MembershipService * list Datagram :=
  let local := mkNode fresh bind_addr (http_of bind_addr) Alive 1 (Some now) in
  (mkService local {[ fresh := local ]} 1,
   (fun seed => (seed, MJoin local)) <$> seeds).

Definition get_member (s : MembershipService) (i : NodeId) : option Node := members s !! i.

(** [self.members.iter()]: the entries in the map's iteration order. *)
Definition all_members (s : MembershipService) : list Node := (map_to_list (members s)).*2.

Definition get_alive_members (s : MembershipService) : list Node :=
  filter (fun n => state n = Alive) (all_members s).

(** [broadcast_message]. *)
Definition broadcast_message (msg : GossipMessage) (s : MembershipService) : list Datagram :=
  (fun n => (gossip_addr n, msg)) <$>
    filter (fun n => id n <> id (local_node s) /\ state n = Alive) (all_members s).

(** [handle_ping]: refresh or discover the sender, answer with the whole view. *)
Definition handle_ping (from : NodeId) (from_inc : Z) (src : SocketAddr) (now : Z)
    (s : MembershipService) : MembershipService * list Datagram :=
  let member := match members s !! from with
    | Some m =>
        let m := set_last_seen (Some now) m in
        if bool_decide (incarnation m < from_inc) then set_incarnation from_inc m else m
    | None => mkNode from src (http_of src) Alive from_inc (Some now)
    end in
  let s := set_members (<[from := member]> (members s)) s in
  (s, [(src, MAck (id (local_node s)) (my_incarnation s) (all_members s))]).

(** [merge_member]. *)
Definition merge_member (new_member : Node) (now : Z) (s : MembershipService)
    : MembershipService :=
  match members s !! id new_member with
  | Some existing =>
      if decide (state existing = Dead) then s else
      if bool_decide (incarnation existing < incarnation new_member) then
        set_members (<[id new_member :=
          set_last_seen (Some now) (set_incarnation (incarnation new_member)
            (set_state (state new_member) existing))]> (members s)) s
      else s
  | None =>
      if decide (state new_member = Dead) then s else
      set_members (<[id new_member := set_last_seen (Some now) new_member]> (members s)) s
  end.

(** [handle_ack]: refresh the sender (nothing at all for a dead one), then merge its view. *)
Definition handle_ack (from : NodeId) (from_inc : Z) (view : list Node) (now : Z)
    (s : MembershipService) : MembershipService :=
  let merge_all := foldl (fun s n => merge_member n now s) in
  match members s !! from with
  | Some m =>
      if decide (state m = Dead) then s else
      let m := set_last_seen (Some now) m in
      let m := if bool_decide (incarnation m < from_inc)
               then set_incarnation from_inc m else m in
      merge_all (set_members (<[from := m]> (members s)) s) view
  | None => merge_all s view
  end.

(** [handle_suspect], with the self-defense broadcast. *)
Definition handle_suspect (node_id : NodeId) (inc : Z) (now : Z) (s : MembershipService)
    : MembershipService * list Datagram :=
  match members s !! node_id with
  | Some existing =>
      if decide (state existing = Dead) then (s, []) else
      if bool_decide (incarnation existing < inc) then
        if decide (id existing = id (local_node s)) then
          let mine := wrap 64 (my_incarnation s + 1) in
          let existing := set_last_seen (Some now) (set_state Alive
                            (set_incarnation mine existing)) in
          let s := mkService (local_node s) (<[node_id := existing]> (members s)) mine in
          (s, broadcast_message (MAlive node_id mine) s)
        else
          let existing := set_last_seen (Some now) (set_incarnation inc
                            (set_state Suspect existing)) in
          (set_members (<[node_id := existing]> (members s)) s, [])
      else (s, [])
  | None => (s, [])
  end.

(** [handle_alive]. *)
Definition handle_alive (node_id : NodeId) (inc : Z) (now : Z) (s : MembershipService)
    : MembershipService :=
  match members s !! node_id with
  | Some existing =>
      let revived := set_last_seen (Some now) (set_incarnation inc
                       (set_state Alive existing)) in
      if decide (state existing = Dead) then s else
      if bool_decide (incarnation existing < inc) then
        set_members (<[node_id := revived]> (members s)) s
      else if decide (inc = incarnation existing /\ state existing = Suspect) then
        set_members (<[node_id := revived]> (members s)) s
      else s
  | None => s
  end.

(** [handle_join]: the announced node replaces whatever was known under its id. *)
Definition handle_join (node : Node) (now : Z) (s : MembershipService) : MembershipService :=
  set_members (<[id node := set_last_seen (Some now) node]> (members s)) s.

(** [handle_message]. *)
Definition handle_message (msg : GossipMessage) (src : SocketAddr) (now : Z)
    (s : MembershipService) : MembershipService * list Datagram :=
  match msg with
  | MPing from inc => handle_ping from inc src now s
  | MAck from inc view => (handle_ack from inc view now s, [])
  | MJoin node => (handle_join node now s, [])
  | MSuspect i inc => handle_suspect i inc now s
  | MAlive i inc => (handle_alive i inc now s, [])
  end.

(** [Instant::duration_since] saturates at zero. *)
Definition elapsed_since (now t : Z) : Z := Z.max 0 (now - t).

(** The body of the failure detector's loop over the members, for one member. *)
Definition fd_member (local : NodeId) (now : Z) (m : Node) : Node :=
  if decide (id m = local) then m else
  if decide (state m = Dead) then m else
  match last_seen m with
  | Some t =>
      match state m with
      | Alive => if bool_decide (SUSPECT_TIMEOUT < elapsed_since now t)
                 then set_state Suspect m else m
      | Suspect => if bool_decide (DEAD_TIMEOUT < elapsed_since now t)
                   then set_state Dead m else m
      | Dead => m
      end
  | None => set_last_seen (Some now) m
  end.

(** The suspicion that the same iteration queues for broadcast. *)
Definition fd_message (local : NodeId) (now : Z) (m : Node) : option GossipMessage :=
  if decide (id m = local) then None else
  match state m, last_seen m with
  | Alive, Some t => if bool_decide (SUSPECT_TIMEOUT < elapsed_since now t)
                     then Some (MSuspect (id m) (incarnation m)) else None
  | _, _ => None
  end.

(** One tick of [failure_detection_loop]. *)
Definition failure_detection_tick (now : Z) (s : MembershipService)
    : MembershipService * list Datagram :=
  let local := id (local_node s) in
  let msgs := omap (fd_message local now) (all_members s) in
  let s := set_members (fd_member local now <$> members s) s in
  (s, msgs ≫= fun m => broadcast_message m s).

(** One tick of [gossip_loop]; [idx] is the random choice. *)
Definition gossip_targets (s : MembershipService) : list Node :=
  filter (fun n => id n <> id (local_node s) /\ state n = Alive) (all_members s).
Definition gossip_tick (idx : nat) (s : MembershipService) : list Datagram :=
  match gossip_targets s !! idx with
  | Some target => [(gossip_addr target, MPing (id (local_node s)) (my_incarnation s))]
  | None => []
  end.

(** ** Events of one node and runs *)

(** What can change a node's view: a received datagram or a failure-detector tick (the gossip
    loop only reads). *)
Inductive event :=
  | Recv (msg : GossipMessage) (src : SocketAddr) (now : Z)
  | Tick (now : Z).

Definition apply (e : event) (s : MembershipService) : MembershipService * list Datagram :=
  match e with
  | Recv msg src now => handle_message msg src now s
  | Tick now => failure_detection_tick now s
  end.

Definition run (evs : list event) (s : MembershipService) : MembershipService :=
  foldl (fun s e => (apply e s).1) s evs.

(** The event is the [Join] of node [i]. *)
Definition joins (i : NodeId) (e : event) : Prop :=
  match e with Recv (MJoin n) _ _ => id n = i | _ => False end.

#[export] Instance joins_dec i e : Decision (joins i e).
Proof. destruct e as [[]|]; simpl; apply _. Defined.

(** ** Well-formed views *)

Record wf (s : MembershipService) : Prop := {
  wf_key : forall i n, members s !! i = Some n -> id n = i;
  wf_local : is_Some (members s !! id (local_node s));
  wf_seen : forall i n, members s !! i = Some n -> is_Some (last_seen n);
}.

(** [tracks R i s s']: the local node is the same, and what is known about member [i] has moved
    along [R]. *)
Definition tracks (R : relation Node) (i : NodeId) (s s' : MembershipService) : Prop :=
  local_node s' = local_node s /\
  forall n, members s !! i = Some n -> exists n', members s' !! i = Some n' /\ R n n'.

#[export] Instance tracks_preorder R i `{!PreOrder R} : PreOrder (tracks R i).
Proof.
  split.
  - intros s. split; [done|]. intros n Hn. exists n. split; [done|reflexivity].
  - intros s1 s2 s3 [Hl1 H1] [Hl2 H2]. split; [congruence|].
    intros n Hn. destruct (H1 n Hn) as (n2 & Hn2 & HR2).
    destruct (H2 n2 Hn2) as (n3 & Hn3 & HR3). exists n3. split; [done|by etrans].
Qed.

Lemma tracks_insert R i k n' inc s `{!PreOrder R} :
  (forall n, k = i -> members s !! i = Some n -> R n n') ->
  tracks R i s (mkService (local_node s) (<[k:=n']> (members s)) inc).
Proof.
  intros HR. split; [done|]. intros n Hn. simpl.
  destruct (decide (k = i)) as [<-|Hne].
  - exists n'. rewrite lookup_insert_eq. auto.
  - exists n. rewrite lookup_insert_ne by done. split; [done|reflexivity].
Qed.

Lemma wf_insert k n inc s :
  wf s -> id n = k -> is_Some (last_seen n) ->
  wf (mkService (local_node s) (<[k:=n]> (members s)) inc).
Proof.
  intros [Hk Hl Hs] Hid Hn. split; simpl.
  - intros i n' [[<- <-]|[_ Hi]]%lookup_insert_Some; eauto.
  - rewrite lookup_insert_is_Some'. auto.
  - intros i n' [[<- <-]|[_ Hi]]%lookup_insert_Some; eauto.
Qed.

#[export] Hint Resolve wf_insert : cluster.

(** Case analysis of a handler: every branch is either no change or one insertion. *)
Ltac handler_cases :=
  repeat first
    [ match goal with
      | |- context [bool_decide ?P] => destruct (bool_decide_reflect P)
      | |- context [match members ?s !! ?i with _ => _ end] =>
          let E := fresh "E" in destruct (members s !! i) eqn:E
      end
    | case_decide ]; simpl.

Section wf_preservation.
Lemma merge_member_wf n now s : wf s -> wf (merge_member n now s).
Proof.
  intros Hs. unfold merge_member, set_members. handler_cases; auto.
  - apply wf_insert; simpl; eauto. by eapply wf_key.
  - apply wf_insert; simpl; eauto.
Qed.

Lemma merge_all_wf view now s : wf s -> wf (foldl (fun s n => merge_member n now s) s view).
Proof.
  revert s. induction view as [|n view IH]; intros s Hs; simpl; [done|].
  by apply IH, merge_member_wf.
Qed.

Lemma handle_ack_wf from inc view now s : wf s -> wf (handle_ack from inc view now s).
Proof.
  intros Hs. unfold handle_ack, set_members.
  handler_cases; try done; apply merge_all_wf; try done;
    apply wf_insert; simpl; eauto; by eapply wf_key.
Qed.

Lemma handle_ping_wf from inc src now s : wf s -> wf (handle_ping from inc src now s).1.
Proof.
  intros Hs. unfold handle_ping, set_members.
  handler_cases; apply wf_insert; simpl; eauto; by eapply wf_key.
Qed.

Lemma handle_suspect_wf i inc now s : wf s -> wf (handle_suspect i inc now s).1.
Proof.
  intros Hs. unfold handle_suspect, set_members.
  handler_cases; auto; apply wf_insert; simpl; eauto; by eapply wf_key.
Qed.

Lemma handle_alive_wf i inc now s : wf s -> wf (handle_alive i inc now s).
Proof.
  intros Hs. unfold handle_alive, set_members.
  handler_cases; auto; apply wf_insert; simpl; eauto; by eapply wf_key.
Qed.

Lemma fd_member_id l now n : id (fd_member l now n) = id n.
Proof. unfold fd_member. repeat case_match; done. Qed.

Lemma fd_member_seen l now n : is_Some (last_seen n) -> last_seen (fd_member l now n) = last_seen n.
Proof. intros [t Ht]. unfold fd_member. rewrite Ht. repeat case_match; done. Qed.

Lemma tick_wf now s : wf s -> wf (failure_detection_tick now s).1.
Proof.
  intros [Hk Hl Hs]. split; simpl.
  - intros i n. rewrite lookup_fmap_Some. intros (m & <- & Hm).
    rewrite fd_member_id. eauto.
  - by rewrite lookup_fmap, fmap_is_Some.
  - intros i n. rewrite lookup_fmap_Some. intros (m & <- & Hm).
    rewrite fd_member_seen by eauto. eauto.
Qed.

Lemma apply_wf e s : wf s -> wf (apply e s).1.
Proof.
  intros Hs. destruct e as [[]|]; simpl.
  - by apply handle_ping_wf.
  - by apply handle_ack_wf.
  - unfold handle_join, set_members. by apply wf_insert.
  - by apply handle_suspect_wf.
  - by apply handle_alive_wf.
  - by apply tick_wf.
Qed.

Lemma run_wf evs s : wf s -> wf (run evs s).
Proof.
  revert s. induction evs as [|e evs IH]; intros s Hs; simpl; [done|].
  by apply IH, apply_wf.
Qed.

Lemma new_wf bind seeds fresh now : wf (new bind seeds fresh now).1.
Proof.
  split; simpl.
  - intros i n. rewrite lookup_singleton_Some. by intros [<- <-].
  - rewrite lookup_singleton_eq. eauto.
  - intros i n. rewrite lookup_singleton_Some. intros [<- <-]. simpl. eauto.
Qed.
End wf_preservation.

#[export] Hint Resolve new_wf apply_wf run_wf : cluster.

(** ** How the view of one member evolves *)

(** Identity and addresses never change, [Dead] is final, and for members other than the local
    node the incarnation never decreases. *)
Record evolves (is_local : bool) (n n' : Node) : Prop := {
  ev_id : id n' = id n;
  ev_gossip : gossip_addr n' = gossip_addr n;
  ev_http : http_addr n' = http_addr n;
  ev_dead : state n = Dead -> state n' = Dead;
  ev_inc : is_local = false -> incarnation n <= incarnation n';
}.

#[export] Instance evolves_preorder b : PreOrder (evolves b).
Proof.
  split.
  - intros n. by split.
  - intros n1 n2 n3 [] []. split; [congruence..|auto|]. intros Hb. etrans; eauto.
Qed.

Lemma merge_all_local view now s :
  local_node (foldl (fun s n => merge_member n now s) s view) = local_node s.
Proof.
  revert s. induction view as [|n view IH]; intros s; simpl; [done|]. rewrite IH.
  unfold merge_member, set_members. handler_cases; done.
Qed.

Lemma apply_local e s : local_node (apply e s).1 = local_node s.
Proof.
  destruct e as [[]|]; simpl; [..|done].
  - done.
  - unfold handle_ack, set_members. handler_cases; try done; by rewrite merge_all_local.
  - done.
  - unfold handle_suspect, set_members. handler_cases; done.
  - unfold handle_alive, set_members. handler_cases; done.
Qed.

Lemma run_local evs s : local_node (run evs s) = local_node s.
Proof.
  revert s. induction evs as [|e evs IH]; intros s; simpl; [done|]. by rewrite IH, apply_local.
Qed.

Section evolution.
Context (i : NodeId).

Definition local_flag (s : MembershipService) : bool := bool_decide (i = id (local_node s)).
Abbreviation grows s := (tracks (evolves (local_flag s)) i s).

(** One branch of a handler: at most one insertion, of a node that evolved. *)
Local Ltac branch := first
  [ reflexivity
  | apply tracks_insert; [apply _|]; intros m Hi Hm; simplify_map_eq; split; simpl; intros; solve [congruence | lia]
  | idtac ].

Lemma merge_member_grows b n now s : tracks (evolves b) i s (merge_member n now s).
Proof. unfold merge_member, set_members. handler_cases; branch. Qed.

Lemma merge_all_grows b view now s :
  tracks (evolves b) i s (foldl (fun s n => merge_member n now s) s view).
Proof.
  revert s. induction view as [|n view IH]; intros s; simpl; [reflexivity|].
  etrans; [apply merge_member_grows|apply IH].
Qed.

Lemma handle_ack_grows b from inc view now s :
  tracks (evolves b) i s (handle_ack from inc view now s).
Proof.
  unfold handle_ack, set_members.
  handler_cases; try reflexivity; (etrans; [|apply merge_all_grows]); branch.
Qed.

Lemma handle_ping_grows b from inc src now s :
  tracks (evolves b) i s (handle_ping from inc src now s).1.
Proof. unfold handle_ping, set_members. handler_cases; branch. Qed.

Lemma handle_suspect_grows j inc now s : wf s -> grows s (handle_suspect j inc now s).1.
Proof.
  intros Hs. unfold handle_suspect, set_members. handler_cases; branch.
  apply tracks_insert; [apply _|]. intros m -> Hm.
  pose proof (wf_key s Hs i _ Hm). split; simplify_eq/=; try done.
  unfold local_flag. rewrite bool_decide_eq_false. congruence.
Qed.

Lemma handle_alive_grows b j inc now s : tracks (evolves b) i s (handle_alive j inc now s).
Proof. unfold handle_alive, set_members. handler_cases; branch. Qed.

Lemma fd_member_evolves b l now n : evolves b n (fd_member l now n).
Proof. unfold fd_member. repeat case_match; split; simpl; auto; congruence || lia. Qed.

Lemma tick_grows b now s : tracks (evolves b) i s (failure_detection_tick now s).1.
Proof.
  split; [done|]. intros n Hn. exists (fd_member (id (local_node s)) now n). simpl.
  rewrite lookup_fmap, Hn. split; [done|apply fd_member_evolves].
Qed.

Lemma apply_grows e s : wf s -> ~ joins i e -> grows s (apply e s).1.
Proof.
  intros Hs He. destruct e as [[]|]; simpl in *.
  - apply handle_ping_grows.
  - apply handle_ack_grows.
  - unfold handle_join, set_members. by apply tracks_insert; [apply _|].
  - by apply handle_suspect_grows.
  - apply handle_alive_grows.
  - apply tick_grows.
Qed.

Lemma run_grows evs s :
  wf s -> Forall (fun e => ~ joins i e) evs -> grows s (run evs s).
Proof.
  intros Hs Hevs. revert s Hs. induction Hevs as [|e evs He Hevs IH]; intros s Hs; simpl.
  - reflexivity.
  - pose proof (apply_grows e s Hs He) as H1.
    etrans; [exact H1|]. pose proof (IH _ (apply_wf e s Hs)) as H2.
    destruct H1 as [Hl _]. unfold local_flag in *. by rewrite Hl in H2.
Qed.
End evolution.

(** ** Timing of the failure detector *)

(** [n] ticks of [failure_detection_loop], the first at [start]. *)
Definition tick_times (start : Z) (n : nat) : list Z :=
  (fun k => start + Z.of_nat k * FAILURE_DETECTION_INTERVAL) <$> seq 0 n.

(** The state that the timeouts prescribe for a member last heard from [e] ago. *)
Definition phase (e : Z) : NodeState :=
  if bool_decide (e <= SUSPECT_TIMEOUT) then Alive
  else if bool_decide (e <= DEAD_TIMEOUT) then Suspect else Dead.

Lemma run_app evs1 evs2 s : run (evs1 ++ evs2) s = run evs2 (run evs1 s).
Proof. apply foldl_app. Qed.

Lemma tick_times_S start n :
  tick_times start (S n) =
    tick_times start n ++ [start + Z.of_nat n * FAILURE_DETECTION_INTERVAL].
Proof. unfold tick_times. by rewrite seq_S, fmap_app. Qed.

Lemma run_ticks_local ts s : local_node (run (Tick <$> ts) s) = local_node s.
Proof. revert s. induction ts as [|t ts IH]; intros s; simpl; [done|]. by rewrite IH. Qed.

Lemma tick_lookup now s i :
  members (failure_detection_tick now s).1 !! i =
    fd_member (id (local_node s)) now <$> members s !! i.
Proof. simpl. apply lookup_fmap. Qed.

Lemma elapsed_since_eq now t : t <= now -> elapsed_since now t = now - t.
Proof. unfold elapsed_since. lia. Qed.

(** Between consecutive ticks at most one timeout is crossed. *)
Lemma fd_member_phase l n t e now :
  id n <> l -> last_seen n = Some t -> t <= now ->
  e <= now - t <= e + FAILURE_DETECTION_INTERVAL ->
  fd_member l now (set_state (phase e) n) = set_state (phase (now - t)) n.
Proof.
  intros Hl Ht Hnow He. unfold fd_member, phase. simpl. rewrite Ht.
  rewrite decide_False by done. rewrite elapsed_since_eq by done.
  unfold SUSPECT_TIMEOUT, DEAD_TIMEOUT, FAILURE_DETECTION_INTERVAL, secs in *.
  repeat (case_bool_decide; simpl); try lia; try done.
Qed.

Lemma set_state_id n : set_state (state n) n = n.
Proof. by destruct n. Qed.

Section silent_member.
Context (s : MembershipService) (i : NodeId) (n : Node) (t start : Z).
Hypothesis Hmem : members s !! i = Some n.
Hypothesis Hid : id n = i.
Hypothesis Hremote : i <> id (local_node s).
Hypothesis Halive : state n = Alive.
Hypothesis Hseen : last_seen n = Some t.
Hypothesis Hstart : t <= start <= t + FAILURE_DETECTION_INTERVAL.

Lemma silent_after k :
  members (run (Tick <$> tick_times start (S k)) s) !! i =
    Some (set_state (phase (start + Z.of_nat k * FAILURE_DETECTION_INTERVAL - t)) n).
Proof.
  assert (0 <= FAILURE_DETECTION_INTERVAL) as HF by done.
  induction k as [|k IH].
  - simpl. unfold run. simpl. rewrite lookup_fmap, Hmem. simpl. f_equal.
    rewrite Z.add_0_r. rewrite <- (set_state_id n) at 1. rewrite Halive.
    change Alive with (phase 0). apply fd_member_phase; [congruence|done|lia..].
  - rewrite tick_times_S, fmap_app, run_app.
    change (run (Tick <$> [?x]) ?z) with (failure_detection_tick x z).1.
    rewrite tick_lookup, run_ticks_local, IH. cbn [fmap option_fmap option_map]. f_equal.
    apply fd_member_phase; [congruence|done|nia..].
Qed.
End silent_member.

(** ** Conflict resolution *)

(** What merging an update does to the record of a known member. *)
Definition merge_record (new_member : Node) (now : Z) (existing : Node) : Node :=
  if decide (state existing = Dead) then existing else
  if bool_decide (incarnation existing < incarnation new_member) then
    set_last_seen (Some now) (set_incarnation (incarnation new_member)
      (set_state (state new_member) existing))
  else existing.

(** What merging an update does to the entry of its member, known or not. *)
Definition merge_entry (new_member : Node) (now : Z) (o : option Node) : option Node :=
  match o with
  | Some existing => Some (merge_record new_member now existing)
  | None => if decide (state new_member = Dead) then None
            else Some (set_last_seen (Some now) new_member)
  end.

Lemma merge_member_lookup x now s i :
  members (merge_member x now s) !! i =
    if decide (i = id x) then merge_entry x now (members s !! i) else members s !! i.
Proof.
  unfold merge_member, merge_entry, merge_record, set_members.
  destruct (decide (i = id x)) as [->|Hi]; handler_cases; simplify_map_eq; done.
Qed.

Lemma merge_member_frame x now s :
  local_node (merge_member x now s) = local_node s /\
  my_incarnation (merge_member x now s) = my_incarnation s.
Proof. unfold merge_member, set_members. handler_cases; done. Qed.

Lemma service_eq s s' :
  local_node s = local_node s' -> my_incarnation s = my_incarnation s' ->
  (forall i, members s !! i = members s' !! i) -> s = s'.
Proof.
  intros Hl Hi Hm. apply map_eq in Hm. destruct s, s'. simpl in *. by subst.
Qed.

Lemma merge_entry_comm a b now o :
  state a <> Dead -> state b <> Dead -> incarnation a <> incarnation b ->
  id a = id b -> gossip_addr a = gossip_addr b -> http_addr a = http_addr b ->
  merge_entry b now (merge_entry a now o) = merge_entry a now (merge_entry b now o).
Proof.
  intros Ha Hb Hne Hid Hg Hh. destruct a, b, o; simpl in *;
    unfold merge_entry, merge_record, set_last_seen, set_incarnation, set_state; simplify_eq/=;
    repeat (case_decide || case_bool_decide; simplify_eq/=); (lia || done).
Qed.

(** Who gets a broadcast. *)
Lemma broadcast_message_elem msg s d :
  d ∈ broadcast_message msg s <->
    exists j n, members s !! j = Some n /\ id n <> id (local_node s) /\ state n = Alive /\
                d = (gossip_addr n, msg).
Proof.
  unfold broadcast_message, all_members. rewrite list_elem_of_fmap.
  setoid_rewrite list_elem_of_filter. setoid_rewrite list_elem_of_fmap. split.
  - intros (n & -> & [Hid Ha] & ([j m] & -> & Hn)). apply elem_of_map_to_list in Hn. eauto 7.
  - intros (j & n & Hn%elem_of_map_to_list & Hid & Ha & ->). exists n.
    split_and!; try done. by exists (j, n).
Qed.

(** A peer that accepted a suspicion with incarnation [inc] and then hears [Alive] with [mine]. *)
Lemma peer_refutation peer i inc mine now p :
  members peer !! i = Some p -> id p <> id (local_node peer) ->
  state p <> Dead -> incarnation p < inc ->
  exists p', members (handle_alive i mine now (handle_suspect i inc now peer).1) !! i = Some p' /\
             (state p' = Alive <-> inc <= mine) /\ (state p' = Suspect <-> mine < inc).
Proof.
  intros Hp Hid Hd Hinc. unfold handle_suspect.
  rewrite Hp, decide_False, bool_decide_eq_true_2, decide_False by done.
  unfold handle_alive, set_members. simpl. rewrite lookup_insert_eq. simpl.
  destruct (Z.lt_trichotomy inc mine) as [Hlt|[->|Hgt]].
  - rewrite bool_decide_eq_true_2 by done. simpl. rewrite lookup_insert_eq. eexists.
    split; [done|]. simpl. split; split; done || lia.
  - rewrite bool_decide_eq_false_2 by lia. rewrite decide_True by done. simpl.
    rewrite lookup_insert_eq. eexists. split; [done|]. simpl. split; split; done || lia.
  - rewrite bool_decide_eq_false_2 by lia. rewrite decide_False by (intros []; lia). simpl.
    rewrite lookup_insert_eq. eexists. split; [done|]. simpl. split; split; done || lia.
Qed.

(** ** Properties *)

Section properties.
Implicit Types (bind src : SocketAddr) (seeds : list SocketAddr) (s : MembershipService).

(** In every view a node can reach from [MembershipService::new] by receiving arbitrary
    messages and ticking its failure detector, the map key of a member is its id, the local
    node is present, and every member has a [last_seen] timestamp (so the detector's branch
    that fills in a missing timestamp is dead code). *)
Theorem view_well_formed bind seeds fresh now evs : wf (run evs (new bind seeds fresh now).1).
Proof. apply run_wf, new_wf. Qed.

(** Whatever happens after a member is first seen, short of a [Join] under its id: it is
    never forgotten, its addresses never change, [Dead] is final, and the incarnation a node
    holds for another node never goes back. *)
Theorem member_evolution bind seeds fresh now evs evs' i n :
  members (run evs (new bind seeds fresh now).1) !! i = Some n ->
  Forall (fun e => ~ joins i e) evs' ->
  exists n', members (run (evs ++ evs') (new bind seeds fresh now).1) !! i = Some n' /\
    id n' = id n /\ gossip_addr n' = gossip_addr n /\ http_addr n' = http_addr n /\
    (state n = Dead -> state n' = Dead) /\ (i <> fresh -> incarnation n <= incarnation n').
Proof.
  intros Hn Hevs. rewrite run_app.
  destruct (run_grows i evs' _ (run_wf evs _ (new_wf bind seeds fresh now)) Hevs)
    as [_ Hg].
  destruct (Hg n Hn) as (n' & Hn' & Hev). exists n'. destruct Hev. repeat split; auto.
  intros Hi. apply ev_inc0. unfold local_flag. apply bool_decide_eq_false.
  by rewrite run_local.
Qed.

(** Merging two gossiped records is independent of the order in which they arrive, when
    neither reports [Dead] and two records of one member differ in incarnation (and agree on its
    addresses). *)
Theorem merge_order_irrelevant a b now s :
  state a <> Dead -> state b <> Dead ->
  (id a = id b -> incarnation a <> incarnation b /\
                  gossip_addr a = gossip_addr b /\ http_addr a = http_addr b) ->
  merge_member b now (merge_member a now s) = merge_member a now (merge_member b now s).
Proof.
  intros Ha Hb Hab. apply service_eq.
  - by rewrite !(proj1 (merge_member_frame _ _ _)).
  - by rewrite !(proj2 (merge_member_frame _ _ _)).
  - intros i. rewrite !merge_member_lookup.
    destruct (decide (i = id a)) as [Hia|], (decide (i = id b)) as [Hib|]; try done.
    destruct Hab as (? & ? & ?); [congruence|]. apply merge_entry_comm; congruence.
Qed.

(** C30: precise timing of failure detection.  A remote member last heard from at [t] and
    silent since is, after the tick at time [tau] of a detector that ticks every 2 s, [Alive]
    when [tau - t <= 5 s], [Suspect] when [5 s < tau - t <= 10 s] and [Dead] beyond that: it is
    never declared dead without having been suspected first, and is dead at the latest 12 s
    after the last contact. *)
Theorem silent_member_timeline s i n t start k :
  wf s -> members s !! i = Some n -> i <> id (local_node s) ->
  state n = Alive -> last_seen n = Some t -> t <= start <= t + FAILURE_DETECTION_INTERVAL ->
  members (run (Tick <$> tick_times start (S k)) s) !! i =
    Some (set_state (phase (start + Z.of_nat k * FAILURE_DETECTION_INTERVAL - t)) n).
Proof. intros Hs Hi. intros. apply silent_after; eauto using wf_key. Qed.

(** The refutation protocol, run between the suspected node and a peer.  A node that hears
    a suspicion about itself with an incarnation above the one it holds for itself bumps its
    counter, stays [Alive] in its own view and sends [Alive] to every other live member; a peer
    that had accepted the same suspicion goes back to [Alive] on that message exactly when the
    bumped counter reaches the incarnation of the suspicion, and otherwise keeps suspecting. *)
Theorem refutation_exchange self peer i inc now m p :
  wf self -> wf peer -> i = id (local_node self) -> i <> id (local_node peer) ->
  members self !! i = Some m -> state m <> Dead -> incarnation m < inc ->
  members peer !! i = Some p -> state p <> Dead -> incarnation p < inc ->
  let '(self', out) := handle_suspect i inc now self in
  let mine := wrap 64 (my_incarnation self + 1) in
  (exists m', members self' !! i = Some m' /\ state m' = Alive /\ incarnation m' = mine) /\
  my_incarnation self' = mine /\
  (forall d, d ∈ out <-> exists j n, members self !! j = Some n /\ j <> i /\ state n = Alive /\
                                  d = (gossip_addr n, MAlive i mine)) /\
  let peer' := handle_alive i mine now (handle_suspect i inc now peer).1 in
  exists p', members peer' !! i = Some p' /\
             (state p' = Alive <-> inc <= mine) /\ (state p' = Suspect <-> mine < inc).
Proof.
  intros Hself Hpeer Hi Hip Hm Hmd Hminc Hp Hpd Hpinc.
  pose proof (wf_key self Hself i m Hm) as Hmid.
  pose proof (wf_key peer Hpeer i p Hp) as Hpid.
  unfold handle_suspect at 1. rewrite Hm, decide_False, bool_decide_eq_true_2,
    decide_True by congruence.
  split_and!; [simpl; rewrite lookup_insert_eq; eauto|done|..].
  - intros d. rewrite broadcast_message_elem. simpl. split.
    + intros (j & n & Hn & Hj & Ha & ->). exists j, n. rewrite <- Hi in Hj.
      destruct (decide (j = i)) as [->|Hji]; [by simplify_map_eq|].
      simplify_map_eq. eauto.
    + intros (j & n & Hn & Hj & Ha & ->). exists j, n. simplify_map_eq.
      pose proof (wf_key self Hself j n Hn). split_and!; congruence.
  - apply peer_refutation with p; congruence.
Qed.
End properties.

(** ** Witnesses: the theorems at concrete inputs *)

Section witnesses.
Let addr (p : Z) : SocketAddr := mkAddr "10.0.0.1" p.
Let a : NodeId := mkId "a".
Let b : NodeId := mkId "b".
Let node_b (st : NodeState) (inc : Z) : Node :=
  mkNode b (addr 5001) (addr 6001) st inc (Some 7).
Let start_a : MembershipService := (new (addr 5000) [] a 0).1.
Let knows_b : MembershipService := run [Recv (MPing b 1) (addr 5001) 7] start_a.

Lemma member_evolution_witness :
  exists n', members (run ([Recv (MPing b 1) (addr 5001) 7] ++
                           [Tick (secs 20); Recv (MAlive b 4) (addr 5002) (secs 21)])
                          start_a) !! b = Some n' /\
    id n' = b /\ gossip_addr n' = addr 5001 /\ http_addr n' = addr 6001 /\
    (Alive = Dead -> state n' = Dead) /\ (b <> a -> 1 <= incarnation n').
Proof.
  apply (member_evolution (addr 5000) [] a 0 [Recv (MPing b 1) (addr 5001) 7]
           [Tick (secs 20); Recv (MAlive b 4) (addr 5002) (secs 21)] b (node_b Alive 1)).
  - vm_compute. reflexivity.
  - repeat constructor; simpl; auto.
Defined.

Lemma merge_order_irrelevant_witness :
  merge_member (node_b Suspect 3) 9 (merge_member (node_b Alive 2) 9 knows_b) =
  merge_member (node_b Alive 2) 9 (merge_member (node_b Suspect 3) 9 knows_b).
Proof. by apply merge_order_irrelevant. Defined.

Lemma silent_member_timeline_witness :
  members (run (Tick <$> tick_times (secs 1) 6) knows_b) !! b = Some (node_b Dead 1) /\
  members (run (Tick <$> tick_times (secs 1) 4) knows_b) !! b = Some (node_b Suspect 1).
Proof.
  split.
  - rewrite (silent_member_timeline knows_b b (node_b Alive 1) 7 (secs 1) 5);
      [reflexivity|apply run_wf, new_wf|reflexivity|done|done|done|].
    unfold FAILURE_DETECTION_INTERVAL, secs. lia.
  - rewrite (silent_member_timeline knows_b b (node_b Alive 1) 7 (secs 1) 3);
      [reflexivity|apply run_wf, new_wf|reflexivity|done|done|done|].
    unfold FAILURE_DETECTION_INTERVAL, secs. lia.
Defined.

(** Node [b] refutes a suspicion with incarnation 2 towards [a]; one with incarnation 5 it
    cannot refute. *)
Let self_b : MembershipService := (new (addr 5001) [] b 0).1.

Lemma refutation_exchange_witness :
  exists out, handle_suspect b 5 9 self_b = (mkService (local_node self_b)
    {[ b := mkNode b (addr 5001) (addr 6001) Alive 2 (Some 9) ]} 2, out) /\
  exists p', members (handle_alive b 2 9 (handle_suspect b 5 9 knows_b).1) !! b = Some p' /\
    (state p' = Alive <-> 5 <= 2) /\ (state p' = Suspect <-> 2 < 5).
Proof.
  pose proof (refutation_exchange self_b knows_b b 5 9
    (mkNode b (addr 5001) (addr 6001) Alive 1 (Some 0)) (node_b Alive 1)
    (new_wf _ _ _ _) (run_wf _ _ (new_wf _ _ _ _)) eq_refl ltac:(done)
    eq_refl ltac:(done) ltac:(done) eq_refl ltac:(done) ltac:(done)) as H.
  eexists. split; [vm_compute; reflexivity|].
  destruct (handle_suspect b 5 9 self_b) as [self' out]. apply H.
Defined.
End witnesses.
