(* ===== verification/Cluster.v ===== *)
(** * Cluster: the gossip protocol of many nodes over UDP

    Several [MembershipService]s (src/membership/service.rs) connected by an unreliable datagram
    network.  A datagram, once sent, may be delivered any number of times, in any order, or
    never; nodes can be started at any time; nothing is forged.  The address that a node is told to
    bind, and that it advertises, need not be the one its socket has: [0.0.0.0] stands for whatever
    address the host has, port 0 for any free port ([binds]).  What the protocol then
    guarantees about incarnations, suspicions and the local node's own entry is proved by
    induction over executions. *)

From S2P Require Import Prelude Membership.

#[local] Open Scope Z_scope.

(** A datagram in the network: sender's address, destination, decoded message. *)
Record Packet := mkPacket { src : SocketAddr; dst : SocketAddr; payload : GossipMessage }.

(** The nodes by id, the addresses of their sockets, and every datagram ever sent. *)
Record Cluster := mkCluster {
  services : gmap NodeId MembershipService;
  sockets : gmap NodeId SocketAddr;
  soup : list Packet }.

Definition empty_cluster : Cluster := mkCluster ∅ ∅ [].

(** *** Addresses of sockets *)

Definition unspecified (host : string) : bool := String.eqb host "0.0.0.0" || String.eqb host "::".

(** An address that a socket can have. *)
Definition concrete (a : SocketAddr) : bool :=
  negb (unspecified (ip a)) && (0 <? port a) && (port a <? 2 ^ 16).

(** [UdpSocket::bind]: the address of the socket is the one that is asked for, where that is
    concrete; the host of an unspecified one is the machine's, and port 0 is replaced by a free
    port. *)
Definition binds (bind real : SocketAddr) : bool :=
  concrete real &&
  (unspecified (ip bind) || String.eqb (ip real) (ip bind)) &&
  ((port bind =? 0) || (port real =? port bind)).

Lemma binds_concrete bind real : concrete bind = true -> binds bind real = true -> real = bind.
Proof.
  unfold concrete, binds. destruct bind as [h p], real as [h' p']. simpl.
  destruct (unspecified h); [done|]. simpl. intros [Hp _]%andb_true_iff.
  intros [[_ ->%String.eqb_eq]%andb_true_iff Hq]%andb_true_iff. f_equal.
  apply Z.ltb_lt in Hp. apply orb_true_iff in Hq as [?%Z.eqb_eq|?%Z.eqb_eq]; lia.
Qed.

Lemma binds_itself a : concrete a = true -> binds a a = true.
Proof. intros Ha. unfold binds. rewrite Ha, String.eqb_refl, Z.eqb_refl, !orb_true_r. done. Qed.

(** What is sent to an unspecified host stays on the machine. *)
Definition destination (p : Packet) : SocketAddr :=
  if unspecified (ip (dst p)) then mkAddr (ip (src p)) (port (dst p)) else dst p.

Lemma destination_concrete p : concrete (dst p) = true -> destination p = dst p.
Proof. unfold concrete, destination. by destruct (unspecified (ip (dst p))). Qed.

(** The address of the socket of node [i]; every node has one. *)
Definition address (c : Cluster) (i : NodeId) : SocketAddr := default (mkAddr "" 0) (sockets c !! i).

(** What a node sends from the socket at [from]: [bincode::serialize] of the message, without the
    skipped field. *)
Definition send_all (from : SocketAddr) (out : list Datagram) : list Packet :=
  (fun d => mkPacket from d.1 (wire d.2)) <$> out.

Inductive action :=
  | Start (bind real : SocketAddr) (seeds : list SocketAddr) (fresh : NodeId) (now : Z)
  | Deliver (k : nat) (at_node : NodeId) (now : Z)
  | TickAt (at_node : NodeId) (now : Z)
  | GossipAt (at_node : NodeId) (idx : nat).

Definition update (c : Cluster) (i : NodeId) (r : MembershipService * list Datagram) : Cluster :=
  mkCluster (<[i := r.1]> (services c)) (sockets c) (soup c ++ send_all (address c i) r.2).

Definition open_socket (i : NodeId) (real : SocketAddr) (c : Cluster) : Cluster :=
  mkCluster (services c) (<[i := real]> (sockets c)) (soup c).

(** One action; an action that is not enabled does nothing.  [Start] runs
    [MembershipService::new] under an id no running node has, with a socket at [real]; [Deliver]
    runs [receive_loop] on the [k]-th datagram at a node whose socket it reaches. *)
Definition act (x : action) (c : Cluster) : Cluster :=
  match x with
  | Start bind real seeds fresh now =>
      match services c !! fresh with
      | Some _ => c
      | None =>
          if binds bind real
          then update (open_socket fresh real c) fresh (new bind seeds fresh now) else c
      end
  | Deliver k i now =>
      match soup c !! k, services c !! i with
      | Some p, Some s =>
          if decide (sockets c !! i = Some (destination p))
          then update c i (handle_message (payload p) (src p) now s) else c
      | _, _ => c
      end
  | TickAt i now =>
      match services c !! i with
      | Some s => update c i (failure_detection_tick now s)
      | None => c
      end
  | GossipAt i idx =>
      match services c !! i with
      | Some s => update c i (s, gossip_tick idx s)
      | None => c
      end
  end.

Definition execute (xs : list action) (c : Cluster) : Cluster := foldl (fun c x => act x c) c xs.

(** Node [a]'s record of member [i]. *)
Definition view (c : Cluster) (a i : NodeId) : option Node :=
  s ← services c !! a; members s !! i.

(** ** The invariant: incarnations never leave their initial value *)

Definition message_ok (m : GossipMessage) : Prop :=
  match m with
  | MPing _ inc => inc = 1
  | MAck _ inc ms => inc = 1 /\ Forall (fun n => incarnation n = 1) ms
  | MJoin n => incarnation n = 1 /\ state n = Alive
  | MSuspect _ inc => inc = 1
  | MAlive _ _ => False
  end.

Record service_ok (s : MembershipService) : Prop := {
  ok_wf : wf s;
  ok_counter : my_incarnation s = 1;
  ok_members : forall i n, members s !! i = Some n -> incarnation n = 1;
  ok_self : exists n, members s !! id (local_node s) = Some n /\ state n = Alive;
}.

Record cluster_ok (c : Cluster) : Prop := {
  ok_services : forall i s, services c !! i = Some s -> service_ok s /\ id (local_node s) = i;
  ok_soup : forall p, p ∈ soup c -> message_ok (payload p);
}.

Lemma wire_ok m : message_ok m -> message_ok (wire m).
Proof.
  destruct m; simpl; try done. intros [-> H]. split; [done|].
  apply Forall_fmap. by eapply Forall_impl.
Qed.

(** Inserting a record of incarnation 1 keeps a service well; [Alive] where it is the local
    node's. *)
Lemma service_ok_insert s k n :
  service_ok s -> id n = k -> is_Some (last_seen n) -> incarnation n = 1 ->
  (k = id (local_node s) -> state n = Alive) ->
  service_ok (set_members (<[k:=n]> (members s)) s).
Proof.
  intros [Hwf Hc Hm (m & Hself & Ha)] Hid Hseen Hinc Hlocal.
  split; simpl; [by apply wf_insert|done|..].
  - intros i x [[<- <-]|[_ Hx]]%lookup_insert_Some; eauto.
  - destruct (decide (k = id (local_node s))) as [->|Hk].
    + exists n. rewrite lookup_insert_eq. auto.
    + exists m. rewrite lookup_insert_ne by done. auto.
Qed.

Lemma self_state s n :
  service_ok s -> members s !! id (local_node s) = Some n -> state n = Alive.
Proof. intros [_ _ _ (m & Hm & Ha)] Hn. congruence. Qed.

Lemma merge_member_ok n now s :
  service_ok s -> incarnation n = 1 -> service_ok (merge_member n now s).
Proof.
  intros Hs Hn. unfold merge_member. handler_cases; auto.
  - pose proof (ok_members s Hs _ _ E). lia.
  - apply service_ok_insert; simpl; eauto. intros Hl.
    destruct (ok_self s Hs) as (m & Hm & _). congruence.
Qed.

Lemma merge_all_ok ms now s :
  service_ok s -> Forall (fun n => incarnation n = 1) ms ->
  service_ok (foldl (fun s n => merge_member n now s) s ms).
Proof.
  intros Hs Hms. revert s Hs. induction Hms as [|n ms Hn Hms IH]; intros s Hs; simpl; [done|].
  by apply IH, merge_member_ok.
Qed.

Lemma all_members_ok s : service_ok s -> Forall (fun n => incarnation n = 1) (all_members s).
Proof.
  intros Hs. apply Forall_forall. intros n. unfold all_members. rewrite list_elem_of_fmap.
  intros ([i m] & -> & Hm). apply elem_of_map_to_list in Hm. by eapply ok_members.
Qed.

Lemma handle_message_ok m a now s :
  service_ok s -> message_ok m ->
  service_ok (handle_message m a now s).1 /\
  Forall (fun d => message_ok d.2) (handle_message m a now s).2.
Proof.
  intros Hs Hm. destruct m as [from inc|from inc ms|node|i inc|]; simpl in *; try done.
  - unfold handle_ping. subst inc.
    match goal with |- context [<[from:=?n]> _] => set (new := n) end.
    assert (service_ok (set_members (<[from:=new]> (members s)) s)) as Hok.
    { apply service_ok_insert; [done|..]; subst new; handler_cases; eauto using ok_members.
      - by eapply (wf_key s (ok_wf s Hs)).
      - by eapply (wf_key s (ok_wf s Hs)).
      - intros ->. eapply self_state; eauto.
      - intros ->. eapply self_state; eauto. }
    split; [done|]. repeat constructor; simpl; [apply (ok_counter _ Hok)|by apply all_members_ok].
  - destruct Hm as [-> Hms]. split; [|done]. unfold handle_ack.
    handler_cases; try (by auto); apply merge_all_ok; auto; apply service_ok_insert; simpl; auto;
      try (by eapply (wf_key s (ok_wf s Hs))); try (intros ->; eapply self_state; eauto);
      eauto using ok_members.
  - destruct Hm as [Hinc Ha]. split; [|done]. by apply service_ok_insert.
  - subst inc. unfold handle_suspect. handler_cases; auto;
      pose proof (ok_members s Hs _ _ E); lia.
Qed.

Lemma broadcast_ok msg s :
  message_ok msg -> Forall (fun d => message_ok d.2) (broadcast_message msg s).
Proof. intros Hm. unfold broadcast_message. apply Forall_fmap, Forall_true. done. Qed.

Lemma fd_member_incarnation l now n : incarnation (fd_member l now n) = incarnation n.
Proof. unfold fd_member. repeat case_match; done. Qed.

Lemma fd_message_ok l now n m :
  incarnation n = 1 -> fd_message l now n = Some m -> message_ok m.
Proof. unfold fd_message. intros. by repeat case_match; simplify_eq/=. Qed.

Lemma tick_ok now s :
  service_ok s ->
  service_ok (failure_detection_tick now s).1 /\
  Forall (fun d => message_ok d.2) (failure_detection_tick now s).2.
Proof.
  intros Hs. split.
  - split; [by apply tick_wf, ok_wf|exact (ok_counter s Hs)|..].
    + intros i n. rewrite tick_lookup. intros (m & Hm & ->)%fmap_Some.
      rewrite fd_member_incarnation. by eapply ok_members.
    + destruct (ok_self s Hs) as (n & Hn & Ha). exists n. simpl.
      rewrite lookup_fmap, Hn. simpl. split; [|done]. f_equal.
      unfold fd_member. by rewrite (wf_key s (ok_wf s Hs) _ _ Hn), decide_True by done.
  - simpl. apply Forall_bind. apply Forall_forall. intros m Hm. apply broadcast_ok.
    apply list_elem_of_omap in Hm as (n & Hn & Hmsg). eapply fd_message_ok; [|done].
    pose proof (all_members_ok s Hs) as Hall. rewrite Forall_forall in Hall. auto.
Qed.

Lemma gossip_ok idx s : service_ok s -> Forall (fun d => message_ok d.2) (gossip_tick idx s).
Proof.
  intros Hs. unfold gossip_tick. case_match; repeat constructor. apply (ok_counter s Hs).
Qed.

Lemma new_ok bind seeds fresh now :
  service_ok (new bind seeds fresh now).1 /\
  Forall (fun d => message_ok d.2) (new bind seeds fresh now).2.
Proof.
  split; [split; simpl|].
  - apply (new_wf bind seeds fresh now).
  - done.
  - intros i n. rewrite lookup_singleton_Some. by intros [<- <-].
  - eexists. rewrite lookup_singleton_eq. done.
  - apply Forall_fmap, Forall_true. done.
Qed.

Lemma update_ok c i r :
  cluster_ok c -> service_ok r.1 -> id (local_node r.1) = i ->
  Forall (fun d => message_ok d.2) r.2 -> cluster_ok (update c i r).
Proof.
  intros [Hs Hp] Hr Hi Hout. split; simpl.
  - intros j s [[<- <-]|[_ Hj]]%lookup_insert_Some; auto.
  - intros p [Hin|Hin]%elem_of_app; [auto|].
    apply list_elem_of_fmap in Hin as (d & -> & Hd). simpl. apply wire_ok.
    rewrite Forall_forall in Hout. auto.
Qed.

Lemma act_ok x c : cluster_ok c -> cluster_ok (act x c).
Proof.
  intros Hc. destruct x as [bind real seeds fresh now|k i now|i now|i idx]; simpl.
  - destruct (services c !! fresh); [done|]. destruct (binds bind real); [|done].
    destruct (new_ok bind seeds fresh now). apply update_ok; try done. by destruct Hc.
  - destruct (soup c !! k) as [p|] eqn:Ek; [|done].
    destruct (services c !! i) as [s|] eqn:Ei; [|done]. case_decide; [|done].
    destruct (ok_services c Hc i s Ei) as [Hs Hid].
    destruct (handle_message_ok (payload p) (src p) now s Hs) as [Hs' Hout].
    { apply (ok_soup c Hc). by eapply list_elem_of_lookup_2. }
    apply update_ok; try done. rewrite <- Hid. f_equal. apply (apply_local (Recv _ _ _)).
  - destruct (services c !! i) as [s|] eqn:Ei; [|done].
    destruct (ok_services c Hc i s Ei) as [Hs Hid].
    destruct (tick_ok now s Hs) as [Hs' Hout]. by apply update_ok.
  - destruct (services c !! i) as [s|] eqn:Ei; [|done].
    destruct (ok_services c Hc i s Ei) as [Hs Hid].
    apply update_ok; try done. by apply gossip_ok.
Qed.

Lemma execute_ok xs c : cluster_ok c -> cluster_ok (execute xs c).
Proof.
  revert c. induction xs as [|x xs IH]; intros c Hc; simpl; [done|]. by apply IH, act_ok.
Qed.

Lemma empty_ok : cluster_ok empty_cluster.
Proof.
  split; simpl; [|by intros p ?%elem_of_nil].
  intros i s. by rewrite lookup_empty.
Qed.

Lemma reachable_ok xs : cluster_ok (execute xs empty_cluster).
Proof. apply execute_ok, empty_ok. Qed.

#[export] Hint Resolve reachable_ok act_ok execute_ok : cluster.

(** ** Suspicions only grow

    [worse n n']: a member that is not [Alive] does not become [Alive] again, and [Dead] is
    final. *)
Definition worse (n n' : Node) : Prop :=
  (state n <> Alive -> state n' <> Alive) /\ (state n = Dead -> state n' = Dead).

#[export] Instance worse_preorder : PreOrder worse.
Proof. split; [by intros n|]. intros n1 n2 n3 [] []. split; auto. Qed.

(** The action delivers the [Join] of [i] to [a]. *)
Definition delivers_join (a i : NodeId) (x : action) (c : Cluster) : Prop :=
  match x with
  | Deliver k b _ => b = a /\ exists p n, soup c !! k = Some p /\ payload p = MJoin n /\ id n = i
  | _ => False
  end.

(** No action of the execution does. *)
Fixpoint no_join (a i : NodeId) (xs : list action) (c : Cluster) : Prop :=
  match xs with
  | [] => True
  | x :: xs => ~ delivers_join a i x c /\ no_join a i xs (act x c)
  end.

Lemma fd_member_worse l now n : worse n (fd_member l now n).
Proof. unfold fd_member. repeat case_match; split; simpl; congruence. Qed.

Lemma merge_member_worse i n now s :
  service_ok s -> incarnation n = 1 -> tracks worse i s (merge_member n now s).
Proof.
  intros Hs Hn. unfold merge_member, set_members. handler_cases; try reflexivity.
  - pose proof (ok_members s Hs _ _ E). lia.
  - apply tracks_insert; [apply _|]. intros m <- Hm. congruence.
Qed.

Lemma merge_all_worse i ms now s :
  service_ok s -> Forall (fun n => incarnation n = 1) ms ->
  tracks worse i s (foldl (fun s n => merge_member n now s) s ms).
Proof.
  intros Hs Hms. revert s Hs. induction Hms as [|n ms Hn Hms IH]; intros s Hs; simpl.
  - reflexivity.
  - etrans; [by apply merge_member_worse|]. by apply IH, merge_member_ok.
Qed.

Lemma tracks_refresh i k n n' s :
  members s !! k = Some n -> state n' = state n ->
  tracks worse i s (set_members (<[k:=n']> (members s)) s).
Proof.
  intros Hk Hst. apply tracks_insert; [apply _|]. intros m <- Hm. simplify_eq.
  split; congruence.
Qed.

Lemma handle_message_worse i m a now s :
  service_ok s -> message_ok m -> (forall n, m = MJoin n -> id n <> i) ->
  tracks worse i s (handle_message m a now s).1.
Proof.
  intros Hs Hm Hj. destruct m as [from inc|from inc ms|node|j inc|]; simpl in *; try done.
  - unfold handle_ping. simpl. handler_cases; try (by eapply tracks_refresh).
    apply tracks_insert; [apply _|]. intros m <- Hk. congruence.
  - destruct Hm as [-> Hms]. unfold handle_ack. handler_cases; try reflexivity;
      try (by apply merge_all_worse);
      (etrans; [|apply merge_all_worse; [|done]]); try (by eapply tracks_refresh);
      apply service_ok_insert; simpl; eauto using ok_members;
      try (by eapply (wf_key s (ok_wf s Hs))); intros ->; eapply self_state; eauto.
  - apply tracks_insert; [apply _|]. intros m Hk. by destruct (Hj node eq_refl).
  - subst inc. unfold handle_suspect. handler_cases; try reflexivity;
      pose proof (ok_members s Hs _ _ E); lia.
Qed.

(** [views_worse a i c c']: what node [a] thinks of [i] has only got worse. *)
Definition views_worse (a i : NodeId) (c c' : Cluster) : Prop :=
  forall n, view c a i = Some n -> exists n', view c' a i = Some n' /\ worse n n'.

#[export] Instance views_worse_preorder a i : PreOrder (views_worse a i).
Proof.
  split.
  - intros c n Hn. by exists n.
  - intros c1 c2 c3 H1 H2 n Hn. destruct (H1 n Hn) as (n2 & Hn2 & HR2).
    destruct (H2 n2 Hn2) as (n3 & Hn3 & HR3). exists n3. split; [done|by etrans].
Qed.

Lemma update_worse a i j s r c :
  services c !! j = Some s -> (j = a -> tracks worse i s r.1) ->
  views_worse a i c (update c j r).
Proof.
  intros Hj Ht n. unfold view. simpl. destruct (decide (j = a)) as [->|Hne].
  - rewrite Hj, lookup_insert_eq. simpl. intros Hn. by apply Ht.
  - rewrite lookup_insert_ne by done. intros Hn. by exists n.
Qed.

Lemma act_worse a i x c :
  cluster_ok c -> ~ delivers_join a i x c -> views_worse a i c (act x c).
Proof.
  intros Hc Hx. destruct x as [bind real seeds fresh now|k j now|j now|j idx]; simpl.
  - destruct (services c !! fresh) as [s|] eqn:Ef; [reflexivity|].
    destruct (binds bind real); [|reflexivity].
    intros n. unfold view. simpl. destruct (decide (fresh = a)) as [->|Hne].
    + by rewrite Ef.
    + rewrite lookup_insert_ne by done. intros Hn. by exists n.
  - destruct (soup c !! k) as [p|] eqn:Ek; [|reflexivity].
    destruct (services c !! j) as [s|] eqn:Ej; [|reflexivity]. case_decide; [|reflexivity].
    eapply update_worse; [done|]. intros ->.
    apply handle_message_worse; [by eapply ok_services|..].
    + apply (ok_soup c Hc). by eapply list_elem_of_lookup_2.
    + intros n Hn Hi. apply Hx. simpl. eauto 6.
  - destruct (services c !! j) as [s|] eqn:Ej; [|reflexivity].
    eapply update_worse; [done|]. intros _. split; [done|]. intros n Hn.
    exists (fd_member (id (local_node s)) now n). rewrite tick_lookup, Hn.
    split; [done|apply fd_member_worse].
  - destruct (services c !! j) as [s|] eqn:Ej; [|reflexivity].
    by eapply update_worse.
Qed.

Lemma execute_worse a i xs c :
  cluster_ok c -> no_join a i xs c -> views_worse a i c (execute xs c).
Proof.
  revert c. induction xs as [|x xs IH]; intros c Hc Hno; simpl; [reflexivity|].
  destruct Hno as [Hx Hno]. etrans; [by apply act_worse|]. by apply IH; [apply act_ok|].
Qed.

(** ** Properties *)

(** Incarnation numbers are inert.  In every execution of the cluster each node's counter and
    every record a node holds stay at the initial incarnation 1, suspicions in the network carry
    incarnation 1, and no [Alive] refutation is ever sent: the self-defense of [handle_suspect]
    needs a suspicion above the incarnation the node has for itself, which no node can send. *)
Theorem incarnations_frozen xs :
  let c := execute xs empty_cluster in
  (forall a s, services c !! a = Some s ->
    my_incarnation s = 1 /\ forall i n, members s !! i = Some n -> incarnation n = 1) /\
  (forall p, p ∈ soup c ->
    (forall i inc, payload p <> MAlive i inc) /\ (forall i inc, payload p = MSuspect i inc -> inc = 1)).
Proof.
  intros c. destruct (reachable_ok xs) as [Hs Hp]. split.
  - intros a s Ha. destruct (Hs a s Ha) as [Hok _]. split; [apply (ok_counter s Hok)|].
    intros i n. apply (ok_members s Hok).
  - intros p Hin. apply Hp in Hin. split; intros i inc Heq; by rewrite Heq in Hin.
Qed.

(** Receiving a suspicion never changes anything.  Every [Suspect] datagram the detector of
    some node broadcasts is ignored by every receiver, the suspected node included: suspicions are
    not disseminated, each node only has its own detector's. *)
Theorem suspicions_are_ignored xs k a now p j inc :
  let c := execute xs empty_cluster in
  soup c !! k = Some p -> payload p = MSuspect j inc ->
  services (act (Deliver k a now) c) = services c /\ soup (act (Deliver k a now) c) = soup c.
Proof.
  intros c Hk Hp. pose proof (reachable_ok xs) as Hc. fold c in Hc. simpl. rewrite Hk.
  destruct (services c !! a) as [s|] eqn:Ea; [|done]. case_decide; [|done].
  destruct (ok_services c Hc a s Ea) as [Hs _].
  assert (message_ok (payload p)) as Hm
    by (apply (ok_soup c Hc); by eapply list_elem_of_lookup_2).
  rewrite Hp in Hm |- *. simpl in Hm. subst inc. simpl.
  assert (handle_suspect j 1 now s = (s, [])) as ->.
  { unfold handle_suspect. handler_cases; try done; pose proof (ok_members s Hs _ _ E); lia. }
  simpl. rewrite app_nil_r. split; [by apply insert_id|done].
Qed.

(** A suspicion is never taken back.  Once node [a] has [i] as [Suspect] or [Dead], no
    sequence of messages and ticks makes [i] [Alive] for [a] again (and [Dead] stays [Dead]),
    unless a copy of the [Join] that [i] sent when it started is delivered to [a]; pings and acks
    from [i] do not help. *)
Theorem suspicion_is_final xs ys a i n :
  let c := execute xs empty_cluster in
  view c a i = Some n -> state n <> Alive -> no_join a i ys c ->
  exists n', view (execute ys c) a i = Some n' /\ state n' <> Alive /\
             (state n = Dead -> state n' = Dead).
Proof.
  intros c Hn Hst Hno.
  destruct (execute_worse a i ys c (reachable_ok xs) Hno n Hn) as (n' & Hn' & H1 & H2).
  eauto.
Qed.

(** A node never doubts itself.  In every execution each node has itself as [Alive], so the
    local node is always among [get_alive_members] and the placement of partitions never finds
    the cluster empty. *)
Theorem self_always_alive xs a s :
  services (execute xs empty_cluster) !! a = Some s ->
  exists n, n ∈ get_alive_members s /\ id n = a /\ id (local_node s) = a.
Proof.
  intros Ha. destruct (ok_services _ (reachable_ok xs) a s Ha) as [Hok Hid].
  destruct (ok_self s Hok) as (n & Hn & Hal). exists n. split_and!; [|..|done].
  - unfold get_alive_members, all_members. apply list_elem_of_filter. split; [done|].
    apply list_elem_of_fmap. exists (id (local_node s), n). split; [done|].
    by apply elem_of_map_to_list.
  - rewrite <- Hid. by apply (wf_key s (ok_wf s Hok)).
Qed.

(** ** Witnesses *)

Section witnesses.
Let addr (p : Z) : SocketAddr := mkAddr "10.0.0.1" p.
Let a : NodeId := mkId "a".
Let b : NodeId := mkId "b".

(** [b] joins through [a]; they ping each other; then [b] is silent for seven seconds. *)
Let setup : list action :=
  [Start (addr 5000) (addr 5000) [] a 0; Start (addr 5001) (addr 5001) [addr 5000] b 0; Deliver 0 a 1;
   GossipAt a 0; Deliver 1 b 2; GossipAt b 0; TickAt a (secs 7); TickAt b (secs 7)].
(** Afterwards [b] keeps pinging [a] and [a] keeps answering. *)
Let chatter : list action :=
  [GossipAt b 0; Deliver 3 a (secs 8); Deliver 2 a (secs 8); Deliver 3 a (secs 9);
   TickAt a (secs 10)].

Lemma suspicions_are_ignored_witness :
  let c := execute (take 6 setup ++ [TickAt b (secs 2); TickAt a (secs 1);
             Start (addr 5002) (addr 5002) [addr 5000] (mkId "d") (secs 5); Deliver 4 a (secs 5);
             TickAt a (secs 6)]) empty_cluster in
  soup c !! 5%nat = Some (mkPacket (addr 5000) (addr 5002) (MSuspect b 1)) /\
  services (act (Deliver 5 (mkId "d") (secs 6)) c) = services c /\
  soup (act (Deliver 5 (mkId "d") (secs 6)) c) = soup c.
Proof.
  split; [vm_compute; reflexivity|].
  eapply suspicions_are_ignored; [vm_compute; reflexivity|reflexivity].
Defined.

Lemma suspicion_is_final_witness :
  let c := execute setup empty_cluster in
  view c a b = Some (mkNode b (addr 5001) (addr 6001) Suspect 1 (Some 1)) /\
  exists n', view (execute chatter c) a b = Some n' /\ state n' <> Alive /\
             (Suspect = Dead -> state n' = Dead).
Proof.
  split; [vm_compute; reflexivity|].
  eapply (suspicion_is_final setup chatter a b
            (mkNode b (addr 5001) (addr 6001) Suspect 1 (Some 1))).
  - vm_compute. reflexivity.
  - done.
  - unfold chatter. cbn [no_join delivers_join]. split_and!; try solve [done | by intros []];
      intros (_ & p & n & Hp & Hj & _); vm_compute in Hp; injection Hp as <-; discriminate Hj.
Defined.

Lemma self_always_alive_witness :
  exists s n, services (execute setup empty_cluster) !! b = Some s /\
              n ∈ get_alive_members s /\ id n = b /\ id (local_node s) = b.
Proof.
  destruct (services (execute setup empty_cluster) !! b) as [s|] eqn:E; [|discriminate E].
  destruct (self_always_alive setup b s E) as (n & Hn). by exists s, n.
Defined.
End witnesses.
