(* ===== verification/Partitioner.v ===== *)
(** * Placement of partitions: src/storage/partitioner.rs

    Keys are hashed to one of 256 partitions, and every node computes from its own membership
    view which nodes own a partition.  The properties say that the placement depends on the set
    of live nodes only, and what each node's share is. *)

From S2P Require Import Prelude SipHash Membership.

#[local] Open Scope Z_scope.

Record PartitionManager := mkPartitioner {
  num_partitions : Z;
  replication_factor : nat;
  membership : MembershipService;
}.

(** [PartitionManager::new_with_replication] and [new]. *)
Definition new_with_replication (m : MembershipService) (rf : nat) : PartitionManager :=
  mkPartitioner 256 (rf `max` 1) m.
Definition partitioner_new (m : MembershipService) : PartitionManager :=
  new_with_replication m 2.

(** [get_partition]: the low 32 bits of the hash, modulo the number of partitions. *)
Definition get_partition (pm : PartitionManager) (key : string) : Z :=
  wrap 32 (finish (hash_str hasher_new key)) mod num_partitions pm.

#[global] Arguments get_partition : simpl never.

(** [a.0.cmp(&b.0)]: byte-wise comparison of the id strings. *)
Definition id_le (a b : NodeId) : Prop := (id_str a ≤ id_str b)%string.

#[export] Instance id_le_dec : RelDecision id_le.
Proof. intros a b. unfold id_le. apply _. Defined.
#[export] Instance id_le_total : Total id_le.
Proof. intros a b. unfold id_le. apply (total (String.le)). Qed.
#[export] Instance id_le_trans : Transitive id_le.
Proof. intros a b c. unfold id_le. apply transitivity. Qed.
#[export] Instance id_le_antisym : AntiSymm (=) id_le.
Proof.
  intros [a] [b]. unfold id_le. simpl. intros H1 H2. f_equal. by apply (anti_symm String.le).
Qed.
#[export] Instance NodeId_inhabited : Inhabited NodeId := populate (mkId "").

(** The computation of [get_owners] on the ids in the iteration order of the member map.  The
    index is reduced modulo the length, so that the indexing cannot panic. *)
Definition owners_of (ids : list NodeId) (rf : nat) (partition : Z) : list NodeId :=
  match ids with
  | [] => []
  | _ =>
      let node_ids := merge_sort id_le ids in
      let primary_idx := (Z.to_nat partition `mod` length node_ids)%nat in
      let replica_count := (rf `min` length node_ids)%nat in
      (fun offset => node_ids !!! ((primary_idx + offset) `mod` length node_ids)%nat)
        <$> seq 0 replica_count
  end.

Definition get_owners (pm : PartitionManager) (partition : Z) : list NodeId :=
  owners_of (id <$> get_alive_members (membership pm)) (replication_factor pm) partition.

Definition my_primary_partitions (pm : PartitionManager) : list Z :=
  let my_id := id (local_node (membership pm)) in
  filter (fun p => head (get_owners pm p) = Some my_id) (seqZ 0 (num_partitions pm)).

Definition my_backup_partitions (pm : PartitionManager) : list Z :=
  let my_id := id (local_node (membership pm)) in
  filter (fun p => my_id ∈ tail (get_owners pm p)) (seqZ 0 (num_partitions pm)).

(** ** Lemmas *)

Lemma get_partition_range pm key :
  0 < num_partitions pm -> 0 <= get_partition pm key < num_partitions pm.
Proof. apply Z.mod_pos_bound. Qed.

(** The partition depends on the number of partitions only. *)
Lemma get_partition_ext pm pm' key :
  num_partitions pm = num_partitions pm' -> get_partition pm key = get_partition pm' key.
Proof. unfold get_partition. by intros ->. Qed.

Lemma merge_sort_Permutation_eq (l l' : list NodeId) :
  l ≡ₚ l' -> merge_sort id_le l = merge_sort id_le l'.
Proof.
  intros Hp. apply (StronglySorted_unique id_le).
  - apply (StronglySorted_merge_sort id_le).
  - apply (StronglySorted_merge_sort id_le).
  - by rewrite !merge_sort_Permutation.
Qed.

#[export] Instance owners_of_proper : Proper ((≡ₚ) ==> (=) ==> (=) ==> (=)) owners_of.
Proof.
  intros ids ids' Hp rf ? <- p ? <-. unfold owners_of.
  destruct ids as [|i ids], ids' as [|i' ids']; try done.
  - by apply Permutation_nil_l in Hp.
  - by apply Permutation_nil_r in Hp.
  - by rewrite (merge_sort_Permutation_eq _ _ Hp).
Qed.

Section owners.
Context (ids : list NodeId) (rf : nat) (p : Z).
Hypothesis Hne : ids <> [].
Let sorted := merge_sort id_le ids.
Let n := length ids.

Lemma sorted_length : length sorted = n.
Proof. unfold sorted. by rewrite merge_sort_Permutation. Qed.

Lemma n_pos : (0 < n)%nat.
Proof. unfold n. destruct ids; [done|simpl; lia]. Qed.

Lemma owners_of_eq :
  owners_of ids rf p =
    (fun offset => sorted !!! ((Z.to_nat p `mod` n + offset) `mod` n)%nat)
      <$> seq 0 (rf `min` n)%nat.
Proof.
  pose proof sorted_length as Hs. unfold owners_of. fold sorted.
  destruct ids as [|i l] eqn:E; [done|]. by rewrite Hs.
Qed.

Lemma owners_of_length : length (owners_of ids rf p) = (rf `min` n)%nat.
Proof. by rewrite owners_of_eq, length_fmap, length_seq. Qed.

Lemma sorted_lookup k : (k < n)%nat -> sorted !! k = Some (sorted !!! k).
Proof. intros Hk. apply list_lookup_lookup_total_lt. by rewrite sorted_length. Qed.

Lemma owners_of_lookup k :
  (k < rf `min` n)%nat ->
  owners_of ids rf p !! k = sorted !! ((Z.to_nat p `mod` n + k) `mod` n)%nat.
Proof.
  pose proof n_pos. intros Hk. rewrite owners_of_eq, list_lookup_fmap, lookup_seq_lt by done.
  simpl. symmetry. apply sorted_lookup. apply Nat.mod_upper_bound. lia.
Qed.

Lemma owners_of_subset i : i ∈ owners_of ids rf p -> i ∈ ids.
Proof.
  pose proof n_pos. rewrite owners_of_eq, list_elem_of_fmap. intros (k & -> & _).
  rewrite <- (merge_sort_Permutation id_le ids). fold sorted.
  eapply list_elem_of_lookup_2, sorted_lookup, Nat.mod_upper_bound. lia.
Qed.

Lemma owners_of_head :
  (0 < rf)%nat -> head (owners_of ids rf p) = sorted !! (Z.to_nat p `mod` n)%nat.
Proof.
  pose proof n_pos. intros Hrf. rewrite head_lookup, owners_of_lookup by lia.
  by rewrite Nat.add_0_r, Nat.Div0.mod_mod.
Qed.

Lemma owners_of_NoDup : NoDup ids -> NoDup (owners_of ids rf p).
Proof.
  pose proof n_pos as Hn. intros Hnd. rewrite owners_of_eq. apply NoDup_fmap_2_strong.
  - intros x y [_ Hx]%elem_of_seq [_ Hy]%elem_of_seq Heq.
    assert (NoDup sorted) as Hs by (unfold sorted; by rewrite merge_sort_Permutation).
    set (q := (Z.to_nat p `mod` n)%nat) in *.
    assert ((q + x) `mod` n = (q + y) `mod` n)%nat as Hm.
    { eapply NoDup_lookup; [exact Hs|apply sorted_lookup, Nat.mod_upper_bound; lia|].
      rewrite Heq. apply sorted_lookup, Nat.mod_upper_bound. lia. }
    apply (add_mod_inj n q); lia.
  - apply NoDup_seq.
Qed.
End owners.

(** ** The ids of the live members *)

Lemma NoDup_ids_alive m : wf m -> NoDup (id <$> get_alive_members m).
Proof.
  intros Hwf. unfold get_alive_members, all_members.
  assert (NoDup (id <$> (map_to_list (members m)).*2)) as Hnd.
  { assert (id <$> (map_to_list (members m)).*2 = (map_to_list (members m)).*1) as ->.
    { rewrite <- list_fmap_compose. apply list_fmap_ext. intros k [i n] Hk. simpl.
      eapply (wf_key m Hwf), elem_of_map_to_list, list_elem_of_lookup_2, Hk. }
    apply NoDup_fst_map_to_list. }
  eapply sublist_NoDup; [exact Hnd|]. apply fmap_sublist, sublist_filter.
Qed.

(** Node [i] is alive for [m]. *)
Definition alive (m : MembershipService) (i : NodeId) : Prop :=
  exists n, members m !! i = Some n /\ state n = Alive.

Lemma elem_of_alive_ids m i : wf m -> i ∈ id <$> get_alive_members m <-> alive m i.
Proof.
  intros Hwf. unfold alive, get_alive_members, all_members. rewrite list_elem_of_fmap.
  setoid_rewrite list_elem_of_filter. setoid_rewrite list_elem_of_fmap. split.
  - intros (n & -> & Ha & ([j m'] & -> & Hj)). apply elem_of_map_to_list in Hj. simpl in *.
    rewrite (wf_key m Hwf j m' Hj). eauto.
  - intros (n & Hn & Ha). exists n. rewrite (wf_key m Hwf i n Hn). split_and!; try done.
    exists (i, n). split; [done|]. by apply elem_of_map_to_list.
Qed.

(** Two managers agree when they are configured alike and see the same nodes alive. *)
Definition agree (pm pm' : PartitionManager) : Prop :=
  num_partitions pm = num_partitions pm' /\
  replication_factor pm = replication_factor pm' /\
  forall i, alive (membership pm) i <-> alive (membership pm') i.

#[export] Instance agree_equivalence : Equivalence agree.
Proof.
  split.
  - intros x. by split; [|split].
  - intros x y (? & ? & H). split_and!; [done|done|]. intros i. by rewrite H.
  - intros x y z (? & ? & H1) (? & ? & H2). split_and!; try congruence.
    intros i. by rewrite H1, H2.
Qed.

Lemma agree_ids pm pm' :
  wf (membership pm) -> wf (membership pm') -> agree pm pm' ->
  id <$> get_alive_members (membership pm) ≡ₚ id <$> get_alive_members (membership pm').
Proof.
  intros H1 H2 (_ & _ & Ha). apply NoDup_Permutation; [by apply NoDup_ids_alive..|].
  intros i. by rewrite !elem_of_alive_ids.
Qed.

Lemma get_owners_agree pm pm' p :
  wf (membership pm) -> wf (membership pm') -> agree pm pm' ->
  get_owners pm p = get_owners pm' p.
Proof.
  intros H1 H2 Ha. unfold get_owners.
  rewrite (agree_ids pm pm' H1 H2 Ha). by destruct Ha as (_ & -> & _).
Qed.

Lemma owners_of_nil rf p ids : owners_of ids rf p = [] -> (0 < rf)%nat -> ids = [].
Proof.
  intros Ho Hrf. destruct ids as [|i l]; [done|].
  pose proof (owners_of_length (i :: l) rf p ltac:(done)) as Hl. rewrite Ho in Hl. simpl in Hl.
  lia.
Qed.

(** ** Properties *)

Section properties.
Implicit Types pm : PartitionManager.

Lemma elem_of_my_primary pm p :
  p ∈ my_primary_partitions pm <->
    0 <= p < num_partitions pm /\
    head (get_owners pm p) = Some (id (local_node (membership pm))).
Proof.
  unfold my_primary_partitions. rewrite list_elem_of_filter, elem_of_seqZ, Z.add_0_l. tauto.
Qed.

Lemma elem_of_my_backup pm p :
  p ∈ my_backup_partitions pm <->
    0 <= p < num_partitions pm /\
    id (local_node (membership pm)) ∈ tail (get_owners pm p).
Proof.
  unfold my_backup_partitions. rewrite list_elem_of_filter, elem_of_seqZ, Z.add_0_l. tauto.
Qed.

Lemma alive_ids_nonempty pm i :
  wf (membership pm) -> alive (membership pm) i ->
  id <$> get_alive_members (membership pm) <> [].
Proof.
  intros Hwf Hi Hnil. apply (elem_of_alive_ids _ _ Hwf) in Hi. rewrite Hnil in Hi.
  by apply elem_of_nil in Hi.
Qed.

Lemma get_owners_NoDup pm p : wf (membership pm) -> NoDup (get_owners pm p).
Proof.
  intros Hwf. pose proof (NoDup_ids_alive _ Hwf) as Hnd. unfold get_owners.
  destruct (decide (id <$> get_alive_members (membership pm) = [])) as [->|Hne].
  - apply NoDup_nil_2.
  - by apply owners_of_NoDup.
Qed.

Lemma get_owners_alive pm p i :
  wf (membership pm) -> i ∈ get_owners pm p -> alive (membership pm) i.
Proof.
  intros Hwf. unfold get_owners.
  destruct (decide (id <$> get_alive_members (membership pm) = [])) as [->|Hne].
  - by intros ?%elem_of_nil.
  - intros Hi. apply (elem_of_alive_ids _ _ Hwf). by eapply owners_of_subset.
Qed.

(** C18: what [get_owners] returns.  The owners of a partition are pairwise distinct live
    nodes, as many as the replication factor or as there are live nodes, and the primary is
    the live node at position [partition mod n] in the order of ids. *)
Theorem get_owners_spec pm p :
  wf (membership pm) -> (0 < replication_factor pm)%nat ->
  let ids := id <$> get_alive_members (membership pm) in
  let owners := get_owners pm p in
  NoDup owners /\
  length owners = (replication_factor pm `min` length ids)%nat /\
  (forall i, i ∈ owners -> alive (membership pm) i) /\
  head owners = merge_sort id_le ids !! (Z.to_nat p `mod` length ids)%nat.
Proof.
  intros Hwf Hrf ids owners. split_and!.
  - by apply get_owners_NoDup.
  - unfold owners, get_owners. fold ids. destruct (decide (ids = [])) as [->|Hne].
    + simpl. lia.
    + by apply owners_of_length.
  - intros i. by apply get_owners_alive.
  - unfold owners, get_owners. fold ids. destruct (decide (ids = [])) as [->|Hne]; [done|].
    by apply owners_of_head.
Qed.

(** C29: shared-nothing agreement.  Two nodes with the same configuration that see the same
    nodes alive, whatever else differs in their membership views and whatever the order in which
    they discovered the nodes, compute the same owners for every partition and the same
    partition for every key. *)
Theorem placement_agreement pm pm' p key :
  wf (membership pm) -> wf (membership pm') -> agree pm pm' ->
  get_owners pm p = get_owners pm' p /\ get_partition pm key = get_partition pm' key.
Proof.
  intros H1 H2 Ha. split; [by apply get_owners_agree|].
  by apply get_partition_ext, Ha.
Qed.

(** Exactly one primary.  In a cluster whose nodes agree, every partition has one live
    node that is responsible for it: a node claims the partition in [my_primary_partitions]
    exactly when it is that node, and no node is both primary and backup of a partition. *)
Theorem exactly_one_primary pm p i0 :
  wf (membership pm) -> (0 < replication_factor pm)%nat -> alive (membership pm) i0 ->
  0 <= p < num_partitions pm ->
  exists i, alive (membership pm) i /\
    forall pm', wf (membership pm') -> agree pm pm' ->
      (p ∈ my_primary_partitions pm' <-> id (local_node (membership pm')) = i) /\
      (p ∈ my_primary_partitions pm' -> p ∉ my_backup_partitions pm').
Proof.
  intros Hwf Hrf Hi0 Hp. pose proof (alive_ids_nonempty pm i0 Hwf Hi0) as Hne.
  destruct (get_owners pm p) as [|i os] eqn:Eo.
  { apply owners_of_nil in Eo; done. }
  exists i. split; [apply (get_owners_alive pm p); [done|rewrite Eo; by left]|].
  intros pm' Hwf' Ha. rewrite elem_of_my_primary, elem_of_my_backup.
  rewrite <- (get_owners_agree pm pm' p Hwf Hwf' Ha), Eo. simpl.
  destruct Ha as (Hnum & _). split.
  { split; [by intros [_ [= ->]]|]. intros <-. split; [lia|done]. }
  intros [_ [= <-]] [_ Hin].
  pose proof (get_owners_NoDup pm p Hwf) as Hnd. rewrite Eo in Hnd.
  by apply NoDup_cons_1_1 in Hnd.
Qed.

(** Balance.  With [n] live nodes, a live node is the primary of [256 / n] partitions,
    rounded down or up. *)
Theorem primary_load_balanced pm i :
  wf (membership pm) -> (0 < replication_factor pm)%nat -> 0 <= num_partitions pm ->
  alive (membership pm) i ->
  let n := length (get_alive_members (membership pm)) in
  let load := length (filter (fun p => head (get_owners pm p) = Some i)
                             (seqZ 0 (num_partitions pm))) in
  (Z.to_nat (num_partitions pm) / n <= load <= S (Z.to_nat (num_partitions pm) / n))%nat.
Proof.
  intros Hwf Hrf Hnum Hi n load.
  pose proof (alive_ids_nonempty pm i Hwf Hi) as Hne.
  pose proof (NoDup_ids_alive _ Hwf) as Hnd.
  apply (elem_of_alive_ids _ _ Hwf) in Hi.
  set (ids := id <$> get_alive_members (membership pm)) in *.
  assert (length ids = n) as Hlen by (unfold ids; by rewrite length_fmap).
  rewrite <- (merge_sort_Permutation id_le ids) in Hi.
  apply list_elem_of_lookup_1 in Hi as [k Hk].
  assert (k < n)%nat as Hkn.
  { apply lookup_lt_Some in Hk. by rewrite merge_sort_Permutation, Hlen in Hk. }
  assert (load = length (filter (fun x => (x `mod` n)%nat = k)
                                (seq 0 (Z.to_nat (num_partitions pm))))) as ->.
  { unfold load, seqZ. apply length_filter_fmap. intros x. unfold get_owners. fold ids.
    rewrite (owners_of_head ids _ _ Hne Hrf), Hlen, Z.add_0_r, Nat2Z.id. split.
    - intros Hx. eapply NoDup_lookup; [|exact Hx|exact Hk].
      by rewrite merge_sort_Permutation.
    - by intros ->. }
  rewrite count_residue by done. case_decide; lia.
Qed.
End properties.

(** ** Failover

    The comment of [get_owners] says that when a node fails the next node in the sorted list takes
    over.  Owners are indexed modulo the number of live nodes, so one failure moves almost every
    partition: with nodes a, b, c, d and two copies, partition 4 is owned by a and b; when a dies
    its owners become c and d, neither of which held a copy, while b, which does, is no owner. *)

Definition example_view (states : list (string * NodeState)) (me : string) : MembershipService :=
  let node x := mkNode (mkId x.1) (mkAddr x.1 5000) (mkAddr x.1 6000) x.2 1 (Some 0) in
  mkService (node (me, Alive))
    (list_to_map ((fun x => (mkId x.1, node x)) <$> states)) 1.

(** One node failure leaves a partition with owners that never held it.  With replication
    factor 2 and four nodes, [get_owners] before and after the failure of a primary have no node in
    common, although a backup survives. *)
Theorem failover_moves_to_strangers :
  let before := new_with_replication
    (example_view [("a", Alive); ("b", Alive); ("c", Alive); ("d", Alive)] "b") 2 in
  let after := new_with_replication
    (example_view [("a", Dead); ("b", Alive); ("c", Alive); ("d", Alive)] "b") 2 in
  get_owners before 4 = [mkId "a"; mkId "b"] /\
  get_owners after 4 = [mkId "c"; mkId "d"] /\
  alive (membership after) (mkId "b").
Proof.
  split_and!; [vm_compute; reflexivity..|].
  eexists. split; [vm_compute; reflexivity|done].
Qed.

(** ** Witnesses *)

Section witnesses.
Lemma example_view_wf states me :
  me ∈ states.*1 -> wf (example_view states me).
Proof.
  intros Hme. unfold example_view.
  set (node := fun x : string * NodeState => mkNode (mkId x.1) (mkAddr x.1 5000)
    (mkAddr x.1 6000) x.2 1 (Some 0)).
  assert (forall i n, (list_to_map ((fun x => (mkId x.1, node x)) <$> states)
            : gmap NodeId Node) !! i = Some n -> exists x, i = mkId x.1 /\ n = node x) as Hlk.
  { intros i n Hn. apply elem_of_list_to_map_2 in Hn.
    apply list_elem_of_fmap in Hn as (x & [= -> ->] & _). eauto. }
  split; simpl.
  - intros i n Hn. destruct (Hlk i n Hn) as (x & -> & ->). done.
  - apply list_elem_of_fmap in Hme as (x & -> & Hx).
    destruct (list_to_map _ !! mkId x.1) as [n|] eqn:E; [eauto|].
    exfalso. apply not_elem_of_list_to_map_2 in E. apply E.
    rewrite <- list_fmap_compose. apply list_elem_of_fmap. by exists x.
  - intros i n Hn. destruct (Hlk i n Hn) as (x & -> & ->). eauto.
Qed.

Let here : PartitionManager := partitioner_new
  (example_view [("b", Alive); ("a", Alive); ("c", Suspect)] "b").
(** The same cluster seen by [a], which knows one node more but not as alive. *)
Let there : PartitionManager := partitioner_new
  (example_view [("a", Alive); ("d", Dead); ("c", Suspect); ("b", Alive)] "a").

Lemma here_alive i : alive (membership here) i <-> i = mkId "a" \/ i = mkId "b".
Proof.
  rewrite <- elem_of_alive_ids by (by apply example_view_wf; set_solver).
  assert (id <$> get_alive_members (membership here) = [mkId "a"; mkId "b"]) as ->
    by (vm_compute; reflexivity). set_solver.
Qed.

Lemma there_alive i : alive (membership there) i <-> i = mkId "a" \/ i = mkId "b".
Proof.
  rewrite <- elem_of_alive_ids by (by apply example_view_wf; set_solver).
  assert (id <$> get_alive_members (membership there) = [mkId "a"; mkId "b"]) as ->
    by (vm_compute; reflexivity). set_solver.
Qed.

Lemma here_there : agree here there.
Proof. split_and!; try done. intros i. by rewrite here_alive, there_alive. Qed.

Lemma get_owners_spec_witness :
  NoDup (get_owners here 3) /\ length (get_owners here 3) = 2%nat /\
  (forall i, i ∈ get_owners here 3 -> alive (membership here) i) /\
  head (get_owners here 3) = Some (mkId "b").
Proof. apply (get_owners_spec here 3); [by apply example_view_wf; set_solver|simpl; lia]. Defined.

Lemma placement_agreement_witness :
  get_owners here 77 = get_owners there 77 /\
  get_partition here "book_100" = get_partition there "book_100".
Proof.
  apply placement_agreement; [by apply example_view_wf; set_solver..|apply here_there].
Defined.

Lemma exactly_one_primary_witness :
  exists i, alive (membership here) i /\
    forall pm', wf (membership pm') -> agree here pm' ->
      (77 ∈ my_primary_partitions pm' <-> id (local_node (membership pm')) = i) /\
      (77 ∈ my_primary_partitions pm' -> 77 ∉ my_backup_partitions pm').
Proof.
  apply (exactly_one_primary here 77 (mkId "a")).
  - by apply example_view_wf; set_solver.
  - simpl. lia.
  - apply here_alive. by left.
  - simpl. lia.
Defined.

Lemma primary_load_balanced_witness :
  (128 <= length (filter (fun p => head (get_owners here p) = Some (mkId "a"))
                         (seqZ 0 256)) <= 129)%nat.
Proof.
  apply (primary_load_balanced here (mkId "a")).
  - by apply example_view_wf; set_solver.
  - simpl. lia.
  - simpl. lia.
  - apply here_alive. by left.
Defined.
End witnesses.
