(* ===== verification/Net.v ===== *)
(** * Requests between nodes: the retry helpers of storage/memory.rs and executor/queue.rs

    The nodes of the cluster live in one [World], keyed by the address their HTTP server listens
    on.  A request runs the handler of the destination in that world; what the network does to it
    is decided by a script, so that a statement about every script is a statement about every
    network.  Time advances when a client sleeps between attempts. *)

From S2P Require Import Prelude Membership.

#[local] Open Scope Z_scope.

(** What happens to one HTTP exchange: the reply arrives; the request is processed but the caller
    sees an error (timeout, connection reset); the request never gets there. *)
Inductive Fate := Delivered | ReplyLost | Unreachable.

(** The environment: fates of the next exchanges ([Delivered] once the script is used up), random
    numbers, fresh UUIDs, and the wall clock in milliseconds. *)
Record Env := mkEnv { fates : list Fate; rng : list Z; uuids : list string; clock : Z }.

Record World (S : Type) := mkWorld { nodes : gmap SocketAddr S; env : Env }.
Arguments mkWorld {S}.
Arguments nodes {S}.
Arguments env {S}.

(** An HTTP response: status code and decoded body. *)
Record Response (B : Type) := mkResponse { status : Z; body : B }.
Arguments mkResponse {B}.
Arguments status {B}.
Arguments body {B}.

Definition OK : Z := 200.
Definition CREATED : Z := 201.
Definition ACCEPTED : Z := 202.
Definition BAD_REQUEST : Z := 400.
Definition NOT_FOUND : Z := 404.
Definition UNPROCESSABLE_ENTITY : Z := 422.
Definition INTERNAL_SERVER_ERROR : Z := 500.
Definition BAD_GATEWAY : Z := 502.

(** [StatusCode::is_success]. *)
Definition is_success {B} (r : Response B) : bool := bool_decide (200 <= status r < 300).

Section net.
Context {S : Type}.

Definition set_env (e : Env) (w : World S) : World S := mkWorld (nodes w) e.
Definition set_node (a : SocketAddr) (s : S) (w : World S) : World S :=
  mkWorld (<[a := s]> (nodes w)) (env w).

Definition next_fate : ST (World S) Fate := fun w =>
  match fates (env w) with
  | [] => (Delivered, w)
  | f :: fs => (f, set_env (mkEnv fs (rng (env w)) (uuids (env w)) (clock (env w))) w)
  end.

(** [rand::random::<u64>()]. *)
Definition random_u64 : ST (World S) Z := fun w =>
  match rng (env w) with
  | [] => (0, w)
  | x :: xs => (wrap 64 x, set_env (mkEnv (fates (env w)) xs (uuids (env w)) (clock (env w))) w)
  end.

(** [Uuid::new_v4().to_string()]. *)
Definition new_v4 : ST (World S) string := fun w =>
  match uuids (env w) with
  | [] => (""%string, w)
  | u :: us => (u, set_env (mkEnv (fates (env w)) (rng (env w)) us (clock (env w))) w)
  end.

(** [now_ms]. *)
Definition now_ms : ST (World S) Z := st_get (fun w => clock (env w)).

(** [tokio::time::sleep]. *)
Definition sleep (ms : Z) : ST (World S) unit := fun w =>
  (tt, set_env (mkEnv (fates (env w)) (rng (env w)) (uuids (env w)) (clock (env w) + ms)) w).

(** One exchange with the server at [dest], whose handler of the request is [serve]. *)
Definition http_send {Resp} (dest : SocketAddr) (serve : ST (World S) Resp)
    : ST (World S) (result Resp) :=
  fate <- next_fate ;;
  up <- st_get (fun w => bool_decide (is_Some (nodes w !! dest))) ;;
  match fate, up with
  | Unreachable, _ | _, false => st_ret (Err "connection failed")
  | Delivered, true => r <- serve ;; st_ret (Ok r)
  | ReplyLost, true => serve ;;; st_ret (Err "timed out")
  end.

(** The loop of [post_with_retry] and [get_with_retry], from the point where [remaining] of the
    attempts are left and the next delay is [delay_ms]. *)
Fixpoint retry_loop {Resp} (send : ST (World S) (result Resp)) (remaining : nat) (delay_ms : Z)
    : ST (World S) (result Resp) :=
  match remaining with
  | O => st_ret (Err "Retry attempts exhausted")
  | Datatypes.S remaining' =>
      response <- send ;;
      match response with
      | Ok resp => st_ret (Ok resp)
      | Err e =>
          if decide (remaining' = O) then st_ret (Err e) else
          jitter <- random_u64 ;;
          sleep (delay_ms + jitter mod 50) ;;;
          retry_loop send remaining' (Z.min (delay_ms * 2) 1200)
      end
  end.

Definition post_with_retry {Resp} (dest : SocketAddr) (serve : ST (World S) Resp)
    (attempts : nat) : ST (World S) (result Resp) :=
  retry_loop (http_send dest serve) attempts 150.

Definition get_with_retry {Resp} (dest : SocketAddr) (serve : ST (World S) Resp)
    (attempts : nat) : ST (World S) (result Resp) :=
  retry_loop (http_send dest serve) attempts 150.

(** ** Lemmas *)

(** No fault is scripted. *)
Definition quiet (w : World S) : Prop := fates (env w) = [].

Definition same_nodes (w w' : World S) : Prop := nodes w' = nodes w.

#[export] Instance same_nodes_preorder : PreOrder same_nodes.
Proof. split; unfold same_nodes; [by intros ?|congruence]. Qed.

Lemma next_fate_nodes w : same_nodes w (next_fate w).2.
Proof. unfold next_fate. by destruct (fates (env w)). Qed.
Lemma random_nodes w : same_nodes w (random_u64 w).2.
Proof. unfold random_u64. by destruct (rng (env w)). Qed.
Lemma new_v4_nodes w : same_nodes w (new_v4 w).2.
Proof. unfold new_v4. by destruct (uuids (env w)). Qed.

Section retry.
Context {Resp : Type} (dest : SocketAddr) (serve : ST (World S) Resp).
(** [R]: a relation between worlds that looks at the nodes only and that serving the request
    respects. *)
Context (R : relation (World S)) `{!PreOrder R}.
Hypothesis Hnodes : forall w w', same_nodes w w' -> R w w'.
Hypothesis Hserve : forall w, is_Some (nodes w !! dest) -> R w (serve w).2.

Lemma http_send_spec w :
  let '(r, w') := http_send dest serve w in
  R w w' /\
  (forall resp, r = Ok resp -> exists w0, same_nodes w w0 /\ is_Some (nodes w0 !! dest) /\
                                          serve w0 = (resp, w')).
Proof.
  unfold http_send, st_bind, st_get. pose proof (next_fate_nodes w) as Hf.
  destruct (next_fate w) as [f w1]. simpl in Hf.
  case_bool_decide as Hup; destruct f; simpl.
  - destruct (serve w1) as [r w2] eqn:Es. simpl. split.
    + etrans; [apply Hnodes, Hf|]. pose proof (Hserve w1 Hup) as H. by rewrite Es in H.
    + intros resp [= <-]. exists w1. auto.
  - destruct (serve w1) as [r w2] eqn:Es. simpl. split; [|done].
    etrans; [apply Hnodes, Hf|]. pose proof (Hserve w1 Hup) as H. by rewrite Es in H.
  - split; [by apply Hnodes|done].
  - split; [by apply Hnodes|done].
  - split; [by apply Hnodes|done].
  - split; [by apply Hnodes|done].
Qed.

(** A retried request moves the world along [R], and the answer it returns, if any, is what the
    handler computed in some world on the way, nothing having touched the nodes since. *)
Lemma retry_loop_spec n d w :
  let '(r, w') := retry_loop (http_send dest serve) n d w in
  R w w' /\
  (forall resp, r = Ok resp -> exists w0, R w w0 /\ is_Some (nodes w0 !! dest) /\
                                          serve w0 = (resp, w')).
Proof.
  revert d w. induction n as [|n IH]; intros d w; simpl.
  { split; [reflexivity|done]. }
  unfold st_bind at 1. pose proof (http_send_spec w) as Hs.
  destruct (http_send dest serve w) as [r w1]. destruct Hs as [HR Hok].
  destruct r as [resp|e]; simpl.
  { split; [done|]. intros ? [= <-]. destruct (Hok resp eq_refl) as (w0 & H1 & H2 & H3).
    exists w0. auto. }
  case_decide; simpl; [done|].
  unfold st_bind. pose proof (random_nodes w1) as Hr.
  destruct (random_u64 w1) as [j w2]. simpl in *.
  set (w3 := set_env _ w2). assert (R w w3) as H3.
  { etrans; [exact HR|]. apply Hnodes. exact Hr. }
  specialize (IH (Z.min (d * 2) 1200) w3).
  destruct (retry_loop _ n _ w3) as [r w4]. destruct IH as [H4 Hok'].
  split; [by etrans|]. intros resp Hresp. destruct (Hok' resp Hresp) as (w0 & ? & ? & ?).
  exists w0. split; [by etrans|done].
Qed.

Lemma post_with_retry_rel n w : R w (post_with_retry dest serve n w).2.
Proof.
  pose proof (retry_loop_spec n 150 w) as H. unfold post_with_retry.
  destruct (retry_loop _ _ _ _). by destruct H.
Qed.

Lemma post_with_retry_ok n w resp w' :
  post_with_retry dest serve n w = (Ok resp, w') ->
  exists w0, R w w0 /\ is_Some (nodes w0 !! dest) /\ serve w0 = (resp, w').
Proof.
  pose proof (retry_loop_spec n 150 w) as H. unfold post_with_retry. intros E.
  rewrite E in H. destruct H as [_ H]. eauto.
Qed.

Lemma get_with_retry_rel n w : R w (get_with_retry dest serve n w).2.
Proof. apply post_with_retry_rel. Qed.

Lemma get_with_retry_ok n w resp w' :
  get_with_retry dest serve n w = (Ok resp, w') ->
  exists w0, R w w0 /\ is_Some (nodes w0 !! dest) /\ serve w0 = (resp, w').
Proof. apply post_with_retry_ok. Qed.
End retry.

(** On a quiet network the first attempt succeeds. *)
Lemma post_with_retry_quiet {Resp} dest (serve : ST (World S) Resp) n w r w' :
  quiet w -> is_Some (nodes w !! dest) -> serve w = (r, w') ->
  post_with_retry dest serve (Datatypes.S n) w = (Ok r, w').
Proof.
  intros Hq Hup Hs. unfold post_with_retry. simpl.
  rewrite (st_bind_eq _ _ w (Ok r) w'); [done|].
  unfold http_send, st_bind, st_get, next_fate. rewrite Hq.
  rewrite bool_decide_eq_true_2 by done. by rewrite Hs.
Qed.

Lemma get_with_retry_quiet {Resp} dest (serve : ST (World S) Resp) n w r w' :
  quiet w -> is_Some (nodes w !! dest) -> serve w = (r, w') ->
  get_with_retry dest serve (Datatypes.S n) w = (Ok r, w').
Proof. apply post_with_retry_quiet. Qed.

(** A destination that stays unreachable makes the call fail, after which nothing has happened. *)
Lemma post_with_retry_unreachable {Resp} dest (serve : ST (World S) Resp) n w fs :
  fates (env w) = repeat Unreachable (Datatypes.S n) ++ fs ->
  exists e w', post_with_retry dest serve (Datatypes.S n) w = (Err e, w') /\
               same_nodes w w' /\ fates (env w') = fs.
Proof.
  unfold post_with_retry. generalize 150. revert w. induction n as [|n IH]; intros w d Hf;
    cbn [retry_loop];
    assert (http_send dest serve w = (Err "connection failed",
      set_env (mkEnv (tail (fates (env w))) (rng (env w)) (uuids (env w)) (clock (env w))) w))
      as Hs by (unfold http_send, st_bind, next_fate, st_get; by rewrite Hf);
    rewrite (st_bind_eq _ _ _ _ _ Hs); simpl in Hf.
  - eexists _, _. split; [reflexivity|]. simpl. by rewrite Hf.
  - rewrite decide_False by done. set (w1 := set_env _ w).
    pose proof (random_nodes w1) as Hr.
    assert (fates (env (random_u64 w1).2) = tail (fates (env w))) as Hfr
      by (unfold random_u64; by destruct (rng (env w1))).
    destruct (random_u64 w1) as [j w2] eqn:Ej.
    rewrite (st_bind_eq _ _ _ _ _ Ej), (st_bind_eq (sleep _) _ w2 tt _ eq_refl).
    set (w3 := set_env _ w2).
    destruct (IH w3 (Z.min (d * 2) 1200)) as (e & w' & Hrun & Hs' & Hf').
    { simpl in *. by rewrite Hfr, Hf. }
    exists e, w'. split_and!; [exact Hrun| |done]. unfold same_nodes in *. simpl in *. congruence.
Qed.

(** What only reads uses up faults and jitter, but no ids. *)
Definition only_reads (w w' : World S) : Prop :=
  nodes w' = nodes w /\ uuids (env w') = uuids (env w).

#[export] Instance only_reads_preorder : PreOrder only_reads.
Proof. split; [by split|]. intros w1 w2 w3 [] []. split; congruence. Qed.

Lemma get_with_retry_reads {Resp} dest (serve : ST (World S) Resp) n w :
  (forall w0, only_reads w0 (serve w0).2) -> only_reads w (get_with_retry dest serve n w).2.
Proof.
  intros Hs. unfold get_with_retry.
  assert (forall w0, only_reads w0 (http_send dest serve w0).2) as Hsend.
  { intros w0. unfold http_send, st_bind, st_get.
    assert (only_reads w0 (next_fate w0).2) as Hf by (unfold next_fate; by destruct (fates (env w0))).
    destruct (next_fate w0) as [f w1]; simpl in *. specialize (Hs w1).
    case_bool_decide; destruct f; simpl; try done; destruct (serve w1); by etrans. }
  generalize 150. revert w. induction n as [|n IH]; intros w d; cbn [retry_loop]; [done|].
  specialize (Hsend w). unfold st_bind at 1. destruct (http_send dest serve w) as [[r|e] w1]; [done|].
  case_decide; [done|].
  assert (only_reads w1 (random_u64 w1).2) as Hr by (unfold random_u64; by destruct (rng (env w1))).
  unfold st_bind at 1. destruct (random_u64 w1) as [j w2]. etrans; [exact Hsend|].
  etrans; [exact Hr|]. etrans; [|apply IH]. done.
Qed.

(** The longest total sleep of [n] retries after a first failure. *)
Fixpoint max_wait (n : nat) (delay_ms : Z) : Z :=
  match n with
  | O => 0
  | Datatypes.S n' => delay_ms + 49 + max_wait n' (Z.min (delay_ms * 2) 1200)
  end.

Section backoff.
Context {Resp : Type} (dest : SocketAddr) (serve : ST (World S) Resp).
Hypothesis Hclock : forall w, clock (env (serve w).2) = clock (env w).

Lemma http_send_clock w : clock (env (http_send dest serve w).2) = clock (env w).
Proof.
  unfold http_send, st_bind, st_get.
  assert (clock (env (next_fate w).2) = clock (env w)) as <-
    by (unfold next_fate; by destruct (fates (env w))).
  destruct (next_fate w) as [f w1]; simpl.
  case_bool_decide; destruct f; simpl; try done;
    specialize (Hclock w1); by destruct (serve w1).
Qed.

Lemma max_wait_nonneg n d : 0 <= d -> 0 <= max_wait n d.
Proof.
  revert d. induction n as [|n IH]; intros d Hd; simpl; [lia|].
  specialize (IH (Z.min (d * 2) 1200)). lia.
Qed.

Lemma retry_loop_clock n d w :
  0 <= d ->
  clock (env w) <= clock (env (retry_loop (http_send dest serve) (Datatypes.S n) d w).2)
    <= clock (env w) + max_wait n d.
Proof.
  revert d w. induction n as [|n IH]; intros d w Hd; pose proof (http_send_clock w) as Hs;
    cbn [retry_loop max_wait];
    destruct (http_send dest serve w) as [[r|e] w1] eqn:E; simpl in Hs;
    rewrite !(st_bind_eq _ _ _ _ _ E); simpl; try lia.
  - pose proof (max_wait_nonneg n (Z.min (d * 2) 1200)). lia.
  - assert (clock (env (random_u64 w1).2) = clock (env w1)) as Hr
      by (unfold random_u64; by destruct (rng (env w1))).
    destruct (random_u64 w1) as [j w2] eqn:Ej. simpl in Hr.
    rewrite !(st_bind_eq _ _ _ _ _ Ej), !(st_bind_eq (sleep _) _ w2 tt _ eq_refl).
    match goal with |- context [st_bind _ _ ?w'] =>
      specialize (IH (Z.min (d * 2) 1200) w') end.
    cbn [retry_loop] in IH. simpl in *. pose proof (Z.mod_pos_bound j 50). lia.
Qed.
End backoff.

(** Bounded backoff.  For requests that themselves take no time, a call with [n + 1] attempts
    sleeps for at most [max_wait n 150] milliseconds; the calls in the source make three attempts
    and so wait at most 548 ms. *)
Theorem backoff_bounded {Resp} dest (serve : ST (World S) Resp) n w :
  (forall w0, clock (env (serve w0).2) = clock (env w0)) ->
  clock (env w) <= clock (env (post_with_retry dest serve (Datatypes.S n) w).2)
    <= clock (env w) + max_wait n 150 /\
  max_wait 2 150 = 548.
Proof. intros Hclock. split; [|done]. by apply retry_loop_clock. Qed.
End net.

Arguments quiet {S} w /.

(** ** Witness *)

Lemma backoff_bounded_witness :
  let a := mkAddr "10.0.0.2" 6000 in
  let w := mkWorld {[ a := tt ]} (mkEnv [Unreachable; ReplyLost; Unreachable] [77; 130] [] 1000) in
  1000 <= clock (env (post_with_retry a (st_ret true) 3 w).2) <= 1548.
Proof.
  intros a w.
  apply (fun H => proj1 (backoff_bounded a (st_ret true) 2 w H)). intros w0. reflexivity.
Defined.
