(* ===== verification/Topology.v ===== *)
(** * What the distributed components share: a node, its peers, and the owners of a partition

    DistributedMap (storage/memory.rs) and DistributedQueue (executor/queue.rs) both sit on a
    partitioner and talk to the owners it names.  [Hosted] is the interface they present; the
    lemmas about reaching owners and about what a request may change are proved once, here. *)

From S2P Require Import Prelude Membership Partitioner Net.

#[local] Open Scope Z_scope.

(** A per-node component with its partitioner (which shares the membership service). *)
Class Hosted (S : Type) := {
  host : S -> PartitionManager;
  hosted_inhabited : Inhabited S;
}.
#[export] Existing Instance hosted_inhabited.

#[export] Instance PartitionManager_inhabited : Inhabited PartitionManager :=
  populate (partitioner_new
    (mkService (mkNode (mkId "") (mkAddr "" 0) (mkAddr "" 0) Alive 1 None) ∅ 1)).

Section topology.
Context {S : Type} `{Hosted S}.
Implicit Types w : World S.

Definition my_id (s : S) : NodeId := id (local_node (membership (host s))).
Definition view (s : S) : MembershipService := membership (host s).

(** The component of the node listening on [self]. *)
Definition my (self : SocketAddr) : ST (World S) S := st_get (fun w => nodes w !!! self).

(** An operation of that component that runs without awaiting. *)
Definition on_my {A} (self : SocketAddr) (f : S -> A * S) : ST (World S) A := fun w =>
  let '(a, s) := f (nodes w !!! self) in (a, set_node self s w).

Definition update (self : SocketAddr) (f : S -> S) : ST (World S) unit :=
  on_my self (fun s => (tt, f s)).

(** [self.membership.get_member(i).ok_or_else(..)]. *)
Definition resolve (self : SocketAddr) (i : NodeId) (e : string)
    : ST (World S) (result Node) :=
  st_get (fun w => ok_or (get_member (view (nodes w !!! self)) i) e).

(** ** Relations between worlds, node by node *)

Definition pointwise (R : relation S) : relation (World S) := fun w w' =>
  forall a, option_Forall2 R (nodes w !! a) (nodes w' !! a).

Section pointwise.
Context (R : relation S) `{!PreOrder R}.

#[export] Instance pointwise_preorder : PreOrder (pointwise R).
Proof.
  split.
  - intros w a. destruct (nodes w !! a); constructor. reflexivity.
  - intros w1 w2 w3 H1 H2 a. specialize (H1 a). specialize (H2 a).
    destruct H1; inversion H2; subst; constructor. by etrans.
Qed.

Lemma same_nodes_pointwise w w' : same_nodes w w' -> pointwise R w w'.
Proof. intros E a. rewrite E. destruct (nodes w !! a); constructor. reflexivity. Qed.

Lemma on_my_pointwise {A} self (f : S -> A * S) w s :
  nodes w !! self = Some s -> R s (f s).2 -> pointwise R w (on_my self f w).2.
Proof.
  intros Hs Hf a. unfold on_my. rewrite (lookup_total_correct _ _ _ Hs).
  destruct (f s) as [x s']. simpl. destruct (decide (a = self)) as [->|Hne].
  - rewrite Hs, lookup_insert_eq. by constructor.
  - rewrite lookup_insert_ne by done. destruct (nodes w !! a); constructor. reflexivity.
Qed.

Lemma pointwise_lookup w w' a s :
  pointwise R w w' -> nodes w !! a = Some s -> exists s', nodes w' !! a = Some s' /\ R s s'.
Proof.
  intros Hp Hs. specialize (Hp a). rewrite Hs in Hp. inversion Hp; subst. eauto.
Qed.

Lemma pointwise_lookup_inv w w' a s' :
  pointwise R w w' -> nodes w' !! a = Some s' -> exists s, nodes w !! a = Some s /\ R s s'.
Proof.
  intros Hp Hs. specialize (Hp a). rewrite Hs in Hp. inversion Hp; subst. eauto.
Qed.

Lemma pointwise_up w w' a :
  pointwise R w w' -> is_Some (nodes w !! a) <-> is_Some (nodes w' !! a).
Proof.
  intros Hp. specialize (Hp a). destruct Hp; split; intros [? [=]]; eauto.
Qed.
End pointwise.

Lemma pointwise_mono (R R' : relation S) w w' :
  (forall s s', R s s' -> R' s s') -> pointwise R w w' -> pointwise R' w w'.
Proof. intros HR Hp a. destruct (Hp a); constructor; auto. Qed.

Lemma on_my_eq {A} self (f : S -> A * S) w s :
  nodes w !! self = Some s -> on_my self f w = ((f s).1, set_node self (f s).2 w).
Proof. intros Hs. unfold on_my. rewrite (lookup_total_correct _ _ _ Hs). by destruct (f s). Qed.

Lemma update_eq self (f : S -> S) w s :
  nodes w !! self = Some s -> update self f w = (tt, set_node self (f s) w).
Proof. intros Hs. unfold update. by rewrite (on_my_eq self _ w s Hs). Qed.

(** Writing back what is there changes nothing. *)
Lemma set_node_id self w s : nodes w !! self = Some s -> set_node self s w = w.
Proof. intros Hs. unfold set_node. rewrite insert_id by done. by destruct w. Qed.

Lemma my_eq self w s : nodes w !! self = Some s -> my self w = (s, w).
Proof. intros Hs. unfold my, st_get. by rewrite (lookup_total_correct _ _ _ Hs). Qed.

(** ** A stable cluster

    Every node's view is well formed, all views agree on who is alive, every live member's record
    carries the address its node listens on, and the nodes are up.  [addr_of] is the directory of
    those addresses. *)
Record cluster (addr_of : NodeId -> SocketAddr) (w : World S) : Prop := {
  cl_wf a s : nodes w !! a = Some s -> wf (view s);
  cl_agree a s a' s' : nodes w !! a = Some s -> nodes w !! a' = Some s' ->
    agree (host s) (host s');
  cl_self a s : nodes w !! a = Some s -> addr_of (my_id s) = a;
  cl_parts a s : nodes w !! a = Some s -> 0 < num_partitions (host s) /\
    (0 < replication_factor (host s))%nat;
  cl_member a s i n : nodes w !! a = Some s -> get_member (view s) i = Some n ->
    state n = Alive ->
    http_addr n = addr_of i /\ exists s', nodes w !! addr_of i = Some s' /\ my_id s' = i;
}.

(** The partitioners stay where they are. *)
Definition same_host (s s' : S) : Prop := host s' = host s.

#[export] Instance same_host_preorder : PreOrder same_host.
Proof. split; unfold same_host; [by intros ?|congruence]. Qed.

Lemma cluster_keeps addr_of w w' :
  cluster addr_of w -> pointwise same_host w w' -> cluster addr_of w'.
Proof.
  intros Hc Hp.
  assert (forall a s', nodes w' !! a = Some s' ->
            exists s, nodes w !! a = Some s /\ host s' = host s) as Hinv.
  { intros a s' Hs'. by apply (pointwise_lookup_inv same_host w w'). }
  split; unfold view, my_id in *.
  - intros a s' (s & Hs & ->)%Hinv. by apply (cl_wf _ _ Hc a s).
  - intros a s' a1 s1' (s & Hs & ->)%Hinv (s1 & Hs1 & ->)%Hinv.
    by apply (cl_agree _ _ Hc a s a1 s1).
  - intros a s' (s & Hs & ->)%Hinv. by apply (cl_self _ _ Hc a s).
  - intros a s' (s & Hs & ->)%Hinv. by apply (cl_parts _ _ Hc a s).
  - intros a s' i n (s & Hs & ->)%Hinv Hn Ha.
    destruct (cl_member _ _ Hc a s i n Hs Hn Ha) as [Haddr (t & Ht & Hid)]. split; [done|].
    destruct (pointwise_lookup same_host w w' _ _ Hp Ht) as (t' & Ht' & Hh). exists t'.
    split; [done|]. unfold my_id, same_host in *. by rewrite Hh.
Qed.

Section cluster.
Context (addr_of : NodeId -> SocketAddr) (w : World S) (Hc : cluster addr_of w).

Lemma cluster_owners a s a' s' p :
  nodes w !! a = Some s -> nodes w !! a' = Some s' ->
  get_owners (host s) p = get_owners (host s') p.
Proof.
  intros Hs Hs'. apply get_owners_agree.
  - by apply (cl_wf _ _ Hc a).
  - by apply (cl_wf _ _ Hc a').
  - by apply (cl_agree _ _ Hc a s a').
Qed.

Lemma cluster_partition a s a' s' k :
  nodes w !! a = Some s -> nodes w !! a' = Some s' ->
  get_partition (host s) k = get_partition (host s') k.
Proof. intros Hs Hs'. apply get_partition_ext, (cl_agree _ _ Hc a s a' s' Hs Hs'). Qed.

(** An owner's record, and the node it leads to. *)
Lemma cluster_owner a s i p :
  nodes w !! a = Some s -> i ∈ get_owners (host s) p ->
  exists n s', get_member (view s) i = Some n /\ http_addr n = addr_of i /\
               nodes w !! addr_of i = Some s' /\ my_id s' = i.
Proof.
  intros Hs Hi. destruct (get_owners_alive (host s) p i) as (n & Hn & Ha).
  { by apply (cl_wf _ _ Hc a). }
  { done. }
  destruct (cl_member _ _ Hc a s i n Hs Hn Ha) as (Haddr & s' & Hs' & Hid). eauto 10.
Qed.

(** Distinct owners listen on distinct addresses. *)
Lemma cluster_owner_addr_inj a s i j p :
  nodes w !! a = Some s -> i ∈ get_owners (host s) p -> j ∈ get_owners (host s) p ->
  addr_of i = addr_of j -> i = j.
Proof.
  intros Hs Hi Hj Haddr.
  destruct (cluster_owner a s i p Hs Hi) as (_ & si & _ & _ & Hsi & <-).
  destruct (cluster_owner a s j p Hs Hj) as (_ & sj & _ & _ & Hsj & <-). congruence.
Qed.

Lemma cluster_owner_addr_self a s i p :
  nodes w !! a = Some s -> i ∈ get_owners (host s) p -> addr_of i = a <-> i = my_id s.
Proof.
  intros Hs Hi. destruct (cluster_owner a s i p Hs Hi) as (_ & si & _ & _ & Hsi & <-). split.
  - intros Haddr. congruence.
  - intros ->. by apply (cl_self _ _ Hc).
Qed.

Lemma cluster_owners_NoDup a s p : nodes w !! a = Some s -> NoDup (get_owners (host s) p).
Proof. intros Hs. apply get_owners_NoDup. by apply (cl_wf _ _ Hc a). Qed.
End cluster.
End topology.

(** ** Example topologies

    Nodes [a], [b], ... on hosts of those names, each listening on port 6000. *)
Definition example_addr (i : NodeId) : SocketAddr := mkAddr (id_str i) 6000.

Definition example_members (names : list string) (me : string) : MembershipService :=
  let node x := mkNode (mkId x) (mkAddr x 5000) (mkAddr x 6000) Alive 1 (Some 0) in
  mkService (node me) (list_to_map ((fun x => (mkId x, node x)) <$> names)) 1.

Definition example_pm (names : list string) (rf : nat) (me : string) : PartitionManager :=
  new_with_replication (example_members names me) rf.

Section example.
Context {S : Type} `{Hosted S} (names : list string) (rf : nat) (mk : string -> S).
Hypothesis Hhost : forall x, host (mk x) = example_pm names rf x.

Definition example_nodes : gmap SocketAddr S :=
  list_to_map ((fun x => (mkAddr x 6000, mk x)) <$> names).

Lemma example_nodes_inv a s : example_nodes !! a = Some s ->
  exists x, x ∈ names /\ a = mkAddr x 6000 /\ s = mk x.
Proof.
  intros Hs%elem_of_list_to_map_2. apply list_elem_of_fmap in Hs as (x & [= -> ->] & Hx).
  eauto.
Qed.

Lemma example_nodes_lookup x : NoDup names -> x ∈ names ->
  example_nodes !! mkAddr x 6000 = Some (mk x).
Proof.
  intros Hnd Hx. apply elem_of_list_to_map_1.
  - rewrite <- list_fmap_compose. apply NoDup_fmap_2; [|done]. intros ? ? [= ->]. done.
  - apply list_elem_of_fmap. eauto.
Qed.

Lemma example_members_lookup me i n :
  members (example_members names me) !! i = Some n ->
  exists x, x ∈ names /\ i = mkId x /\
            n = mkNode (mkId x) (mkAddr x 5000) (mkAddr x 6000) Alive 1 (Some 0).
Proof.
  intros Hn%elem_of_list_to_map_2. apply list_elem_of_fmap in Hn as (x & [= -> ->] & Hx).
  eauto.
Qed.

Lemma example_cluster e : NoDup names -> cluster example_addr (mkWorld example_nodes e).
Proof.
  intros Hnd.
  assert (forall me i, alive (example_members names me) i <-> exists x, x ∈ names /\ i = mkId x)
    as Halive.
  { intros me i. split.
    - intros (n & (x & Hx & -> & _)%example_members_lookup & _). eauto.
    - intros (x & Hx & ->). eexists. split.
      + apply elem_of_list_to_map_1; [|apply list_elem_of_fmap; eauto].
        rewrite <- list_fmap_compose. apply NoDup_fmap_2; [|done]. intros ? ? [= ->]. done.
      + done. }
  split; simpl; unfold view, my_id.
  - intros a s (x & Hx & -> & ->)%example_nodes_inv. rewrite Hhost. split.
    + intros i n (y & _ & -> & ->)%(example_members_lookup x). done.
    + assert (alive (example_members names x) (mkId x)) as (n & Hn & _)
        by (apply Halive; eauto).
      by exists n.
    + intros i n (y & _ & -> & ->)%(example_members_lookup x). by exists 0.
  - intros a s a' s' (x & Hx & -> & ->)%example_nodes_inv (y & Hy & -> & ->)%example_nodes_inv.
    rewrite !Hhost. split_and!; [done|done|]. intros i. simpl. by rewrite !Halive.
  - intros a s (x & Hx & -> & ->)%example_nodes_inv. by rewrite Hhost.
  - intros a s (x & Hx & -> & ->)%example_nodes_inv. rewrite Hhost. simpl. lia.
  - intros a s i n (x & Hx & -> & ->)%example_nodes_inv. rewrite Hhost.
    intros (y & Hy & -> & ->)%(example_members_lookup x) _. split; [done|].
    exists (mk y). split; [by apply example_nodes_lookup|]. by rewrite Hhost.
Qed.
End example.
