(* ===== verification/Process.v ===== *)
(** * Processes: what runs between the awaits of a request

    The files on storage and queue serve a request in one go.  Here a computation is a [proc], a
    sequence of atomic actions between which other tasks and threads may run; [Fork] leaves a task
    behind that goes on by itself, as the handler of a request does whose client has given up.
    [run] executes a process without interruption; [pool_step] is one action of any of the
    processes of a pool.  The logic at the end proves facts about all interleavings of a pool from
    one proof per process.  [foresee] allows a proof to use what a process is going to draw. *)

From S2P Require Import Prelude.
From stdpp Require Import relations.

#[local] Open Scope Z_scope.

Inductive proc (W A : Type) : Type :=
  | Done (a : A)
  | Act {B : Type} (f : ST W B) (k : B -> proc W A)
  | Fork (q : proc W unit) (p : proc W A).
Arguments Done {W A} a.
Arguments Act {W A B} f k.
Arguments Fork {W A} q p.

Section proc.
Context {W : Type}.

Fixpoint bind {A B : Type} (p : proc W A) (k : A -> proc W B) : proc W B :=
  match p with
  | Done a => k a
  | Act f p' => Act f (fun b => bind (p' b) k)
  | Fork q p' => Fork q (bind p' k)
  end.

(** One atomic action. *)
Definition atomic {A : Type} (f : ST W A) : proc W A := Act f Done.

(** The [?] operator. *)
Definition bind_ok {A B : Type} (p : proc W (result A)) (k : A -> proc W (result B))
    : proc W (result B) :=
  bind p (fun r => match r with Ok a => k a | Err e => Done (Err e) end).

(** [for x in l { f(x)?; }]. *)
Fixpoint each_try {X : Type} (f : X -> proc W (result unit)) (l : list X) : proc W (result unit) :=
  match l with
  | [] => Done (Ok tt)
  | x :: l' => bind_ok (f x) (fun _ => each_try f l')
  end.

(** [for x in l { f(x); }]. *)
Fixpoint each {X : Type} (f : X -> proc W unit) (l : list X) : proc W unit :=
  match l with
  | [] => Done tt
  | x :: l' => bind (f x) (fun _ => each f l')
  end.

(** Without interruption; a forked task runs first. *)
Fixpoint run {A : Type} (p : proc W A) : ST W A := fun w =>
  match p with
  | Done a => (a, w)
  | Act f k => let '(b, w1) := f w in run (k b) w1
  | Fork q p' => run p' (run q w).2
  end.

(** ** Pools *)

(** One action of a process: what is left of it, the tasks it leaves behind, and the new state. *)
Definition proc_step {A : Type} (p : proc W A) (w : W) : option (proc W A * list (proc W unit) * W) :=
  match p with
  | Done _ => None
  | Act f k => let '(b, w1) := f w in Some (k b, [], w1)
  | Fork q p' => Some (p', [q], w)
  end.

(** A client's process ends with its result, a task that was left behind with [None]. *)
Definition task {A : Type} (q : proc W unit) : proc W (option A) := bind q (fun _ => Done None).
Definition client {A : Type} (p : proc W A) : proc W (option A) := bind p (fun a => Done (Some a)).

Definition pool (A : Type) : Type := list (proc W (option A)) * W.

(** The scheduler lets the process at position [i] make one action. *)
Definition step_at {A : Type} (i : nat) (c : pool A) : option (pool A) :=
  p ← c.1 !! i;
  '(p', tasks, w') ← proc_step p c.2;
  Some (<[i := p']> c.1 ++ (task <$> tasks), w').

Definition pool_step {A : Type} (c c' : pool A) : Prop := exists i, step_at i c = Some c'.

(** The pool after a schedule; the turn of a process that has ended is skipped. *)
Definition schedule {A : Type} (turns : list nat) (c : pool A) : pool A :=
  foldl (fun c i => default c (step_at i c)) c turns.

(** Process [i] has ended with result [r]. *)
Definition ended {A : Type} (c : pool A) (i : nat) (r : A) : Prop := c.1 !! i = Some (Done (Some r)).

(** All processes have ended. *)
Definition is_done {A : Type} (p : proc W A) : Prop := match p with Done _ => True | _ => False end.
Definition quiescent {A : Type} (c : pool A) : Prop := Forall is_done c.1.
Definition all_done {A : Type} (c : pool A) : bool :=
  forallb (fun p => match p with Done _ => true | _ => false end) c.1.

(** ** Lemmas on runs *)

Lemma run_bind {A B : Type} (p : proc W A) (k : A -> proc W B) w :
  run (bind p k) w = st_bind (run p) (fun a => run (k a)) w.
Proof.
  revert w. induction p as [A a|A X f p' IH|A q _ p' IH]; intros w; simpl; [done| |].
  - unfold st_bind at 1. simpl. destruct (f w) as [x w1]. apply IH.
  - apply IH.
Qed.

Lemma run_atomic {A : Type} (f : ST W A) w : run (atomic f) w = f w.
Proof. simpl. by destruct (f w). Qed.

Lemma st_bind_ext {A B : Type} (m m' : ST W A) (k k' : A -> ST W B) w :
  m w = m' w -> (forall a w1, k a w1 = k' a w1) -> st_bind m k w = st_bind m' k' w.
Proof. intros Hm Hk. unfold st_bind. rewrite Hm. destruct (m' w). apply Hk. Qed.

Lemma run_bind_eq {A B : Type} (p : proc W A) (m : ST W A) (k : A -> proc W B) (k' : A -> ST W B) w :
  run p w = m w -> (forall a w1, run (k a) w1 = k' a w1) ->
  run (bind p k) w = st_bind m k' w.
Proof. intros Hp Hk. rewrite run_bind. by apply st_bind_ext. Qed.

Lemma run_bind_ok_eq {A B : Type} (p : proc W (result A)) (m : ST W (result A))
    (k : A -> proc W (result B)) (k' : A -> ST W (result B)) w :
  run p w = m w -> (forall a w1, run (k a) w1 = k' a w1) ->
  run (bind_ok p k) w = st_try m k' w.
Proof. intros Hp Hk. apply run_bind_eq; [done|]. intros [a|e] w1; [apply Hk|done]. Qed.

Lemma run_each_try {X : Type} (f : X -> proc W (result unit)) (f' : X -> ST W (result unit)) l w :
  (forall x w1, run (f x) w1 = f' x w1) ->
  run (each_try f l) w = for_each_try f' l w.
Proof.
  intros Hf. revert w. induction l as [|x l IH]; intros w; simpl; [done|].
  apply run_bind_ok_eq; [apply Hf|]. intros _ w1. apply IH.
Qed.

Lemma run_each {X : Type} (f : X -> proc W unit) (f' : X -> ST W unit) l w :
  (forall x w1, run (f x) w1 = f' x w1) ->
  run (each f l) w = for_each f' l w.
Proof.
  intros Hf. revert w. induction l as [|x l IH]; intros w; simpl; [done|].
  apply run_bind_eq; [apply Hf|]. intros _ w1. apply IH.
Qed.

(** ** Lemmas on pools *)

Lemma step_at_inv {A : Type} i (c c' : pool A) : step_at i c = Some c' ->
  exists p p' tasks w', c.1 !! i = Some p /\ proc_step p c.2 = Some (p', tasks, w') /\
    c' = (<[i := p']> c.1 ++ (task <$> tasks), w').
Proof.
  unfold step_at. destruct (c.1 !! i) as [p|] eqn:E; [|done]. simpl.
  destruct (proc_step p c.2) as [[[p' ts] w']|] eqn:E'; [|done]. intros [= <-]. eauto 10.
Qed.

Lemma all_done_quiescent {A : Type} (c : pool A) : all_done c = true -> quiescent c.
Proof.
  intros Hall. apply Forall_forall. intros p Hp. unfold all_done in Hall.
  rewrite forallb_forall in Hall. specialize (Hall p (proj1 (list_elem_of_In _ _) Hp)). by destruct p.
Qed.

Lemma schedule_steps {A : Type} turns (c : pool A) : rtc pool_step c (schedule turns c).
Proof.
  revert c. induction turns as [|i turns IH]; intros c; [apply rtc_refl|]. simpl.
  destruct (step_at i c) as [c'|] eqn:E; simpl; [|apply IH].
  eapply rtc_l; [by exists i|apply IH].
Qed.
End proc.

Arguments pool W A : clear implicits.

Declare Scope proc_scope.
Delimit Scope proc_scope with proc.
Notation "x <~ p ;; k" := (bind p (fun x => k))
  (at level 80, p at next level, right associativity) : proc_scope.
Notation "x <~? p ;; k" := (bind_ok p (fun x => k))
  (at level 80, p at next level, right associativity) : proc_scope.
Notation "p ;;~ k" := (bind p (fun _ => k))
  (at level 80, right associativity) : proc_scope.

(** ** Facts about all interleavings

    [R] bounds what any action may do to the state, [G], within [R], what the process at hand does.
    [wp p Q w]: from a state that [R] leads to from [w], every action of [p] is within [G], however
    the others interfere, and if [p] ends, its result satisfies [Q]. *)
Section logic.
Context {W : Type} (R G : relation W) `{!PreOrder R}.
Hypothesis HG : forall w w', G w w' -> R w w'.

Fixpoint wp {A : Type} (p : proc W A) (Q : A -> W -> Prop) (w : W) : Prop :=
  forall w', R w w' ->
  match p with
  | Done a => Q a w'
  | Act f k => G w' (f w').2 /\ wp (k (f w').1) Q (f w').2
  | Fork q p' => wp q (fun _ _ => True) w' /\ wp p' Q w'
  end.

(** Actions within [G], whatever the result. *)
Definition safe {A : Type} (p : proc W A) : W -> Prop := wp p (fun _ _ => True).

Lemma wp_interfere {A : Type} (p : proc W A) Q w w' : R w w' -> wp p Q w -> wp p Q w'.
Proof.
  intros Hr Hp. destruct p; intros w2 Hr2; specialize (Hp w2 ltac:(by etrans)); exact Hp.
Qed.

Lemma wp_mono {A : Type} (p : proc W A) (Q Q' : A -> W -> Prop) w :
  (forall a w', R w w' -> Q a w' -> Q' a w') -> wp p Q w -> wp p Q' w.
Proof.
  revert Q Q' w. induction p as [A a|A X f k IH|A q _ p IH]; intros Q Q' w HQ Hp w' Hr;
    specialize (Hp w' Hr).
  - by apply HQ.
  - destruct Hp as [H1 H2]. split; [done|]. apply (IH _ Q); [|done].
    intros a w2 H3. apply HQ. etrans; [exact Hr|]. etrans; [by apply HG|done].
  - destruct Hp as [H1 H2]. split; [done|]. apply (IH Q); [|done].
    intros a w2 H3. apply HQ. by etrans.
Qed.

Lemma wp_done {A : Type} (a : A) (Q : A -> W -> Prop) w :
  (forall w', R w w' -> Q a w') -> wp (Done a) Q w.
Proof. intros HQ w' Hr. by apply HQ. Qed.

Lemma wp_bind {A B : Type} (p : proc W A) (k : A -> proc W B) Q w :
  wp p (fun a => wp (k a) Q) w -> wp (bind p k) Q w.
Proof.
  revert w. induction p as [A a|A X f p IH|A q _ p IH]; intros w Hp; simpl.
  - assert (forall w', R w w' -> wp (k a) Q w') as Hk by exact Hp.
    apply Hk. reflexivity.
  - intros w' Hr. destruct (Hp w' Hr) as [H1 H2]. split; [done|]. by apply IH.
  - intros w' Hr. destruct (Hp w' Hr) as [H1 H2]. split; [done|]. by apply IH.
Qed.

(** Facts about the state go on to what follows if the others keep them. *)
Definition kept (P : W -> Prop) : Prop := forall w w', R w w' -> P w -> P w'.

Lemma wp_then {A B : Type} (p : proc W A) (k : A -> proc W B) P Q w :
  wp p P w -> (forall a w', R w w' -> P a w' -> wp (k a) Q w') -> wp (bind p k) Q w.
Proof. intros Hp Hk. apply wp_bind. eapply wp_mono; [|exact Hp]. intros a w'. apply Hk. Qed.

(** A loop in which every iteration that succeeds establishes a fact. *)
Lemma wp_each_try {X : Type} (f : X -> proc W (result unit)) (P : X -> W -> Prop) l w :
  (forall x, kept (P x)) ->
  (forall x w', R w w' -> x ∈ l -> wp (f x) (fun r w2 => r = Ok tt -> P x w2) w') ->
  wp (each_try f l) (fun r w' => r = Ok tt -> forall x, x ∈ l -> P x w') w.
Proof.
  intros Hk. revert w. induction l as [|x l IH]; intros w Hf; cbn [each_try].
  { apply wp_done. intros w' _ _ x Hx. by apply elem_of_nil in Hx. }
  eapply wp_then; [apply (Hf x w); [reflexivity|left]|]. intros [[]|e] w1 Hr Hx.
  2: { apply wp_done. intros w2 _. done. }
  eapply wp_mono; [|apply IH].
  - intros r w2 Hr2 Hl Hok y [->|Hy]%elem_of_cons; [|by apply Hl]. by apply (Hk x w1 w2 Hr2), Hx.
  - intros y w2 Hr2 Hy. apply Hf; [by etrans|by right].
Qed.

(** *** Results that are facts about values

    [yields p P w]: from [w] on, [p] keeps within [G], and its result, if any, satisfies [P]. *)
Definition yields {A : Type} (p : proc W A) (P : A -> Prop) : W -> Prop := wp p (fun a _ => P a).

Lemma yields_mono {A : Type} (p : proc W A) (P P' : A -> Prop) w :
  (forall a, P a -> P' a) -> yields p P w -> yields p P' w.
Proof. intros HP. apply wp_mono. intros a w' _. apply HP. Qed.

Lemma yields_safe {A : Type} (p : proc W A) (P : A -> Prop) w : yields p P w -> safe p w.
Proof. by apply yields_mono. Qed.

Lemma yields_done {A : Type} (a : A) (P : A -> Prop) w : P a -> yields (Done a) P w.
Proof. intros HP. by apply wp_done. Qed.

Lemma yields_act {A B : Type} (f : ST W B) (k : B -> proc W A) P w :
  (forall w', R w w' -> G w' (f w').2 /\ yields (k (f w').1) P w) -> yields (Act f k) P w.
Proof.
  intros Hf w' Hr. destruct (Hf w' Hr) as [H1 H2]. split; [done|].
  eapply wp_interfere; [|exact H2]. etrans; [exact Hr|by apply HG].
Qed.

Lemma yields_atomic {A : Type} (f : ST W A) (P : A -> Prop) w :
  (forall w', R w w' -> G w' (f w').2 /\ P (f w').1) -> yields (atomic f) P w.
Proof. intros Hf. apply yields_act. intros w' Hr. split; [by apply Hf|]. by apply yields_done, Hf. Qed.

Lemma yields_bind {A B : Type} (p : proc W A) (k : A -> proc W B) P P' w :
  yields p P w -> (forall a, P a -> yields (k a) P' w) -> yields (bind p k) P' w.
Proof.
  intros Hp Hk. apply wp_bind. eapply wp_mono; [|exact Hp]. intros a w' Hr HP.
  eapply wp_interfere; [exact Hr|]. by apply Hk.
Qed.

(** [P] of the value of an [Ok]. *)
Definition if_ok {A : Type} (P : A -> Prop) (r : result A) : Prop := forall a, r = Ok a -> P a.

Lemma yields_bind_ok {A B : Type} (p : proc W (result A)) (k : A -> proc W (result B)) P P' w :
  yields p (if_ok P) w -> (forall e, P' (Err e)) -> (forall a, P a -> yields (k a) P' w) ->
  yields (bind_ok p k) P' w.
Proof.
  intros Hp He Hk. eapply yields_bind; [exact Hp|]. intros [a|e] HP; [by apply Hk, HP|].
  by apply yields_done.
Qed.

Lemma yields_fork {A : Type} (q : proc W unit) (p : proc W A) P w :
  safe q w -> yields p P w -> yields (Fork q p) P w.
Proof.
  intros Hq Hp w' Hr. split; (eapply wp_interfere; [exact Hr|]); [exact Hq|exact Hp].
Qed.

Lemma safe_bind {A B : Type} (p : proc W A) (k : A -> proc W B) w :
  safe p w -> (forall a, safe (k a) w) -> safe (bind p k) w.
Proof. intros Hp Hk. eapply yields_bind; [exact Hp|]. intros a _. apply Hk. Qed.

Lemma safe_each_try {X : Type} (f : X -> proc W (result unit)) l w :
  (forall x, x ∈ l -> safe (f x) w) -> safe (each_try f l) w.
Proof.
  induction l as [|x l IH]; intros Hf; [by apply yields_done|].
  apply safe_bind; [apply Hf; left|]. intros [u|e]; [|by apply yields_done].
  apply IH. intros y Hy. apply Hf. by right.
Qed.

Lemma safe_each {X : Type} (f : X -> proc W unit) l w :
  (forall x, x ∈ l -> safe (f x) w) -> safe (each f l) w.
Proof.
  induction l as [|x l IH]; intros Hf; [by apply yields_done|].
  apply safe_bind; [apply Hf; left|]. intros _. apply IH. intros y Hy. apply Hf. by right.
Qed.

(** *** Pools

    [Q i] is what process [i] of the original [n] ensures; tasks that are left behind come after
    them. *)
Lemma wp_proc_step {A : Type} (p : proc W A) q w p' tasks w' :
  wp p q w -> proc_step p w = Some (p', tasks, w') ->
  R w w' /\ wp p' q w' /\ Forall (fun t => safe t w') tasks.
Proof.
  intros Hp Hs. pose proof (reflexivity w : R w w) as Hr. destruct p; simpl in Hs; [done| |].
  - destruct (Hp w Hr) as [H1 H2]. destruct (f w) as [b w1]. injection Hs as <- <- <-. auto.
  - destruct (Hp w Hr) as [H1 H2]. injection Hs as <- <- <-. auto.
Qed.
End logic.

Lemma lookup_after_step {B : Type} (l : list B) i j p p' ts q :
  l !! i = Some p -> (<[i := p']> l ++ ts) !! j = Some q ->
  (j = i /\ q = p') \/ (j <> i /\ l !! j = Some q) \/ ((length l <= j)%nat /\ q ∈ ts).
Proof.
  intros Hp Hj. apply lookup_app_Some in Hj as [Hj|[Hl Hj]].
  - apply list_lookup_insert_Some in Hj as [(-> & -> & _)|[Hne Hj]]; [by left|].
    right. left. by split.
  - rewrite length_insert in Hl. right. right. split; [done|]. by apply list_elem_of_lookup_2 in Hj.
Qed.

Section pools.
Context {W : Type} (R : relation W) `{!PreOrder R}.
Context {A : Type} (n : nat) (Q : nat -> option A -> W -> Prop).
Hypothesis Hrest : forall i, (n <= i)%nat -> Q i = fun _ _ => True.

#[local] Notation wp := (wp R R).

Definition all_wp (c : pool W A) : Prop :=
  (n <= length c.1)%nat /\ forall i p, c.1 !! i = Some p -> wp p (Q i) c.2.

Lemma all_wp_step c c' : all_wp c -> pool_step c c' -> R c.2 c'.2 /\ all_wp c'.
Proof.
  intros [Hn Hall] (i & (p & p' & ts & w' & Hp & Hs & ->)%step_at_inv).
  destruct (wp_proc_step R R ltac:(done) p (Q i) _ _ _ _ (Hall i p Hp) Hs) as (H1 & H2 & H3).
  split; [done|]. split; simpl; [rewrite length_app, length_insert; lia|].
  intros j q Hq.
  destruct (lookup_after_step _ _ _ _ _ _ _ Hp Hq) as [(-> & ->)|[[Hne Hj]|[Hl Hq']]]; [done| |].
  - eapply wp_interfere; [done|exact H1|]. by apply Hall.
  - rewrite Hrest by lia. apply list_elem_of_fmap in Hq' as (t & -> & Ht).
    apply wp_bind; [done|]. rewrite Forall_forall in H3. eapply (wp_mono R R); [done| |by apply H3].
    intros u w2 _ _. by apply wp_done.
Qed.

Lemma all_wp_steps c c' : all_wp c -> rtc pool_step c c' -> R c.2 c'.2 /\ all_wp c'.
Proof.
  intros Hall Hrtc. induction Hrtc as [c|c c1 c2 Hs _ IH]; [by split|].
  destruct (all_wp_step c c1 Hall Hs) as [H1 H2]. destruct (IH H2) as [H3 H4].
  split; [by etrans|done].
Qed.

(** Whatever the interleaving, a process that has ended has the result it was proved to have. *)
Theorem pool_sound c c' i a :
  all_wp c -> rtc pool_step c c' -> ended c' i a -> Q i (Some a) c'.2.
Proof.
  intros Hall Hrtc He. destruct (all_wp_steps c c' Hall Hrtc) as [_ [_ H2]].
  apply (H2 i _ He). reflexivity.
Qed.
End pools.

(** ** Until an event

    An event that one process works towards, and after which [F] holds in the end.  [N] bounds what
    anybody does before the event, [L], within [N], what anybody but that process does.
    [ends_in p w]: [F] holds once [p] has ended.  [before p Q w]: as long as the others keep within
    [X], [p] keeps within [Y], except for an action after which it ends in [F], and ends with [Q].
    [X], [Y] are [L], [N] for the process in question and [N], [L] for all others. *)
Section event.
Context {W : Type} (R N L : relation W) (F : W -> Prop).
Context `{!PreOrder R, !PreOrder N, !PreOrder L}.
Hypothesis HNR : forall w w', N w w' -> R w w'.
Hypothesis HLN : forall w w', L w w' -> N w w'.
Hypothesis HF : forall w w', R w w' -> F w -> F w'.

Fixpoint ends_in {A : Type} (p : proc W A) (w : W) : Prop :=
  forall w', R w w' ->
  match p with
  | Done _ => F w'
  | Act f k => R w' (f w').2 -> ends_in (k (f w').1) (f w').2
  | Fork _ p' => ends_in p' w'
  end.

Fixpoint before (X Y : relation W) {A : Type} (p : proc W A) (Q : A -> W -> Prop) (w : W) : Prop :=
  forall w', X w w' ->
  match p with
  | Done a => Q a w'
  | Act f k => R w' (f w').2 ->
      (Y w' (f w').2 /\ before X Y (k (f w').1) Q (f w').2) \/ ends_in (k (f w').1) (f w').2
  | Fork q p' => before N L q (fun _ _ => True) w' /\ before X Y p' Q w'
  end.

(** Once [F] holds, everything ends in [F]. *)
Lemma ends_in_now {A : Type} (p : proc W A) w : F w -> ends_in p w.
Proof.
  revert w. induction p as [A a|A B f k IH|A q _ p IH]; intros w Hw w' Hr;
    pose proof (HF _ _ Hr Hw) as Hw'; [done| |by apply IH].
  intros Hs. apply IH. by apply (HF w').
Qed.

Lemma ends_in_bind {A B : Type} (p : proc W A) (k : A -> proc W B) w :
  ends_in p w -> ends_in (bind p k) w.
Proof.
  revert w. induction p as [A a|A C f p IH|A q _ p IH]; intros w Hp; simpl.
  - apply ends_in_now. apply (Hp w). reflexivity.
  - intros w' Hr Hs. apply IH. by apply (Hp w').
  - intros w' Hr. apply IH. by apply (Hp w').
Qed.

Lemma ends_in_interfere {A : Type} (p : proc W A) w w' : R w w' -> ends_in p w -> ends_in p w'.
Proof.
  intros Hr Hp. destruct p; intros w2 Hr2; specialize (Hp w2 ltac:(by etrans)); exact Hp.
Qed.

Section one.
Context (X Y : relation W) `{!PreOrder X}.
Hypothesis HX : forall w w', X w w' -> N w w'.
Hypothesis HY : forall w w', Y w w' -> N w w'.

Lemma before_interfere {A : Type} (p : proc W A) Q w w' :
  X w w' -> before X Y p Q w -> before X Y p Q w'.
Proof.
  intros Hr Hp. destruct p; intros w2 Hr2; specialize (Hp w2 ltac:(by etrans)); exact Hp.
Qed.

Lemma before_mono {A : Type} (p : proc W A) (Q Q' : A -> W -> Prop) w :
  (forall a w', N w w' -> Q a w' -> Q' a w') -> before X Y p Q w -> before X Y p Q' w.
Proof.
  revert w. induction p as [A a|A B f k IH|A q _ p IH]; intros w HQ Hp w' Hr;
    specialize (Hp w' Hr).
  - apply HQ; [by apply HX|done].
  - intros Hs. destruct (Hp Hs) as [[H1 H2]|H1]; [left|by right]. split; [done|].
    apply (IH _ Q); [|done]. intros a w2 H3. apply HQ.
    etrans; [by apply HX|]. etrans; [by apply HY|done].
  - destruct Hp as [H1 H2]. split; [done|]. apply (IH Q); [|done]. intros a w2 H3. apply HQ.
    etrans; [by apply HX|done].
Qed.

Lemma before_bind {A B : Type} (p : proc W A) (k : A -> proc W B) Q w :
  before X Y p (fun a => before X Y (k a) Q) w -> before X Y (bind p k) Q w.
Proof.
  revert w. induction p as [A a|A C f p IH|A q _ p IH]; intros w Hp; simpl.
  - assert (forall w', X w w' -> before X Y (k a) Q w') as Hk by exact Hp.
    apply Hk. reflexivity.
  - intros w' Hr Hs. destruct (Hp w' Hr Hs) as [[H1 H2]|H1]; [left; split; [done|]; by apply IH|].
    right. by apply ends_in_bind.
  - intros w' Hr. destruct (Hp w' Hr) as [H1 H2]. split; [done|]. by apply IH.
Qed.

(** [until p P w]: the same for facts about values, in every state that can come up from [w] on
    before the event. *)
Definition until {A : Type} (p : proc W A) (P : A -> Prop) (w : W) : Prop :=
  forall w', N w w' -> before X Y p (fun a _ => P a) w'.

Lemma until_done {A : Type} (a : A) (P : A -> Prop) w : P a -> until (Done a) P w.
Proof. by intros HP w' _ w2 _. Qed.

Lemma until_mono {A : Type} (p : proc W A) (P P' : A -> Prop) w :
  (forall a, P a -> P' a) -> until p P w -> until p P' w.
Proof. intros HP Hp w' Hw. eapply before_mono; [|by apply Hp]. intros a w2 _. apply HP. Qed.

Lemma until_act {A B : Type} (f : ST W B) (k : B -> proc W A) P w :
  (forall w', N w w' ->
     (Y w' (f w').2 /\ until (k (f w').1) P w) \/ ends_in (k (f w').1) (f w').2) ->
  until (Act f k) P w.
Proof.
  intros Hf w1 Hw1 w' Hr _. assert (N w w') as Hw by (etrans; [exact Hw1|by apply HX]).
  destruct (Hf w' Hw) as [[H1 H2]|H1]; [left|by right]. split; [done|]. apply H2.
  etrans; [exact Hw|by apply HY].
Qed.

Lemma until_bind {A B : Type} (p : proc W A) (k : A -> proc W B) P P' w :
  until p P w -> (forall a, P a -> until (k a) P' w) -> until (bind p k) P' w.
Proof.
  intros Hp Hk w1 Hw1. apply before_bind. eapply before_mono; [|by apply Hp].
  intros a w' Hr HP. apply Hk; [done|by etrans].
Qed.

Lemma until_bind_ok {A B : Type} (p : proc W (result A)) (k : A -> proc W (result B)) P P' w :
  until p (if_ok P) w -> (forall e, P' (Err e)) -> (forall a, P a -> until (k a) P' w) ->
  until (bind_ok p k) P' w.
Proof.
  intros Hp He Hk. eapply until_bind; [exact Hp|]. intros [a|e] HP; [by apply Hk, HP|].
  by apply until_done.
Qed.

(** A loop with a body that does not succeed before the event. *)
Lemma until_each_try {Z : Type} (f : Z -> proc W (result unit)) l x w :
  x ∈ l -> (forall y, y ∈ l -> until (f y) (fun _ => True) w) ->
  until (f x) (fun r => is_ok r = false) w ->
  until (each_try f l) (fun r => is_ok r = false) w.
Proof.
  intros Hx Hall Hf. induction l as [|y l IH]; [by apply elem_of_nil in Hx|].
  apply elem_of_cons in Hx as [->|Hx]; simpl.
  - eapply until_bind; [exact Hf|]. intros [u|e] He; [done|by apply until_done].
  - eapply until_bind; [apply Hall; left|]. intros [u|e] _; [|by apply until_done].
    apply IH; [done|]. intros z Hz. apply Hall. by right.
Qed.
End one.

Lemma until_fork (X Y : relation W) {A : Type} (q : proc W unit) (p : proc W A) P w :
  (forall w w', X w w' -> N w w') ->
  until N L q (fun _ => True) w -> until X Y p P w -> until X Y (Fork q p) P w.
Proof.
  intros HX Hq Hp w1 Hw1 w' Hr. assert (N w w') as Hw by (etrans; [exact Hw1|by apply HX]).
  split; [by apply Hq|by apply Hp].
Qed.

(** What keeps within [L] does not bring about the event. *)
Lemma yields_until (X Y : relation W) {A : Type} (p : proc W A) (P : A -> Prop) w :
  (forall w w', X w w' -> N w w') -> (forall w w', L w w' -> Y w w') ->
  yields R L p P w -> until X Y p P w.
Proof.
  intros HX HY Hp w1 Hw1. eapply (wp_interfere R L _ _ w w1 ltac:(by apply HNR)) in Hp.
  revert Hp. clear w Hw1. rename w1 into w. unfold yields.
  generalize (fun (a : A) (_ : W) => P a) as Q. intros Q. clear P.
  revert X Y HX HY Q w. induction p as [A a|A B f k IH|A q IHq p IH];
    intros X Y HX HY Q w Hp w' Hr; specialize (Hp w' ltac:(by apply HNR, HX)); [done| |].
  - intros _. left. destruct Hp as [H1 H2]. split; [by apply HY|]. by apply IH.
  - destruct Hp as [H1 H2]. split; [by apply IHq|by apply IH].
Qed.

(** *** Pools: process [0] works towards the event *)
Section pools.
Context {A : Type} (n : nat) (Q : nat -> option A -> W -> Prop).
Hypothesis Hrest : forall i, (n <= i)%nat -> Q i = fun _ _ => True.
Hypothesis Hn0 : (0 < n)%nat.

Definition rely (i : nat) : relation W := if decide (i = 0%nat) then L else N.
Definition guarantee (i : nat) : relation W := if decide (i = 0%nat) then N else L.

#[local] Instance rely_preorder i : PreOrder (rely i).
Proof. unfold rely. by case_decide. Qed.

Lemma rely_N i w w' : rely i w w' -> N w w'.
Proof. unfold rely. case_decide; [apply HLN|done]. Qed.
Lemma guarantee_N i w w' : guarantee i w w' -> N w w'.
Proof. unfold guarantee. case_decide; [done|apply HLN]. Qed.
Lemma guarantee_rely i j w w' : j <> i -> guarantee i w w' -> rely j w w'.
Proof.
  unfold guarantee, rely. intros Hne. do 2 case_decide; try done; [by subst|apply HLN].
Qed.

Definition all_before (c : pool W A) : Prop :=
  forall i p, c.1 !! i = Some p -> before (rely i) (guarantee i) p (Q i) c.2.

Lemma before_proc_step X Y `{!PreOrder X} (p : proc W (option A)) q w p' tasks w' :
  before X Y p q w -> R w w' -> proc_step p w = Some (p', tasks, w') ->
  ((Y w w' \/ w' = w) /\ before X Y p' q w' /\
    Forall (fun t => before N L t (fun _ _ => True) w') tasks) \/
  ends_in p' w'.
Proof.
  intros Hp HR Hs. pose proof (reflexivity w : X w w) as Hr. destruct p; simpl in Hs; [done| |].
  - specialize (Hp w Hr). simpl in Hp. destruct (f w) as [b w1]. injection Hs as <- <- <-.
    destruct (Hp HR) as [[H1 H2]|H1]; [left; auto|by right].
  - destruct (Hp w Hr) as [H1 H2]. injection Hs as <- <- <-. left. auto.
Qed.

(** The event has not happened and all processes are as before, or one is bound to end in [F]. *)
Definition progress (w0 : W) (c : pool W A) : Prop :=
  (N w0 c.2 /\ all_before c) \/ exists i p, c.1 !! i = Some p /\ ends_in p c.2.

Lemma progress_before w0 c i p p' ts w' :
  N w0 c.2 -> all_before c -> c.1 !! i = Some p -> (n <= length c.1)%nat ->
  R c.2 w' -> proc_step p c.2 = Some (p', ts, w') ->
  (N w0 w' /\ all_before (<[i := p']> c.1 ++ (task <$> ts), w')) \/ ends_in p' w'.
Proof.
  intros HN Hall Hp Hn HR Hs.
  destruct (before_proc_step _ _ p (Q i) _ _ _ _ (Hall i p Hp) HR Hs) as [(H1 & H2 & H3)|H1];
    [left|by right].
  assert (N c.2 w') as HN' by (destruct H1 as [H1| ->]; [by eapply guarantee_N|done]).
  split; simpl; [by etrans|]. intros j q Hq. simpl in Hq |- *.
  destruct (lookup_after_step _ _ _ _ _ _ _ Hp Hq) as [(-> & ->)|[[Hne Hj]|[Hl Hq']]]; [done| |].
  - eapply before_interfere; [apply _| |by apply Hall].
    destruct H1 as [H1| ->]; [by eapply guarantee_rely|reflexivity].
  - rewrite Hrest by lia. apply list_elem_of_fmap in Hq' as (t & -> & Ht).
    assert (j <> 0%nat) as Hj0 by lia. unfold rely, guarantee. rewrite !decide_False by done.
    apply before_bind; [done|]. rewrite Forall_forall in H3.
    eapply (before_mono N L); [done|done| |by apply H3]. by intros u w2 _ _ w3 _.
Qed.

Lemma progress_step w0 c c' : R c.2 c'.2 -> pool_step c c' ->
  (n <= length c.1)%nat -> progress w0 c -> progress w0 c'.
Proof.
  intros HR (i & (p & p' & ts & w' & Hp & Hs & ->)%step_at_inv) Hn Hprog. simpl in *.
  assert (forall j q, <[i := p']> c.1 !! j = Some q ->
            (<[i := p']> c.1 ++ (task <$> ts)) !! j = Some q) as Happ.
  { intros j q Hj. by apply lookup_app_l_Some. }
  assert (<[i := p']> c.1 !! i = Some p') as Hi
    by (apply list_lookup_insert_eq; by eapply lookup_lt_Some).
  destruct Hprog as [[HN Hall]|(j & q & Hj & Hq)].
  - destruct (progress_before w0 c i p p' ts w' HN Hall Hp Hn HR Hs); [by left|].
    right. exists i, p'. auto.
  - right. destruct (decide (j = i)) as [->|Hne].
    + rewrite Hp in Hj. injection Hj as <-. exists i, p'. split; [auto|]. simpl.
      pose proof (reflexivity c.2 : R c.2 c.2) as Hr.
      destruct p as [a|B f k|t p]; simpl in Hs; [done| |]; specialize (Hq c.2 Hr); simpl in Hq.
      * destruct (f c.2) as [b w1]. injection Hs as <- <- <-. by apply Hq.
      * by injection Hs as <- <- <-.
    + exists j, q. split; [apply Happ; by rewrite list_lookup_insert_ne|].
      by eapply ends_in_interfere.
Qed.
End pools.

(** Either the event never happened, and every ended process has its result of before, or it did,
    and [F] holds once everything has ended. *)
Theorem pool_progress {A : Type} n (Q : nat -> option A -> W -> Prop) c c' :
  (forall i, (n <= i)%nat -> Q i = fun _ _ => True) -> (0 < n <= length c.1)%nat ->
  (forall i p, c.1 !! i = Some p -> safe R R p c.2) ->
  all_before Q c ->
  rtc pool_step c c' -> quiescent c' ->
  F c'.2 \/ forall i a, ended c' i a -> Q i (Some a) c'.2.
Proof.
  intros Hrest [Hn0 Hn] Hsafe Hbef Hrtc Hq.
  assert (all_wp R n (fun _ _ _ => True) c) as Hw by (split; [done|exact Hsafe]).
  assert (progress Q c.2 c) as Hp by (left; split; [done|exact Hbef]).
  assert (progress Q c.2 c') as [[HN Hall]|(i & p & Hi & He)].
  { revert Hp. generalize (snd c) at 1 2 as w0. clear Hsafe Hbef Hn Hq. intros w0 Hp.
    induction Hrtc as [c|c c1 c2 Hs _ IH]; [done|].
    destruct (all_wp_step R n (fun _ _ _ => True) (fun _ _ => eq_refl) c c1 Hw Hs) as [HR Hw1].
    apply (IH Hw1). eapply (progress_step n Q Hrest Hn0); eauto. apply Hw. }
  - right. intros i a Hi. specialize (Hall i _ Hi). apply (Hall c'.2). unfold rely. by case_decide.
  - left. unfold quiescent in Hq. rewrite Forall_lookup in Hq. specialize (Hq i p Hi).
    destruct p; [|done..]. apply He. reflexivity.
Qed.
End event.

(** ** Foresight

    What a process is going to draw depends on the interleaving.  In hindsight it is known: every run
    of a pool is also a run of the pool in which the processes that draw at their start ([U]) throw
    away what they draw and go on with what it is going to be ([own]). *)
Section foresight.
Context {W A B : Type} (draw : ST W A).

#[local] Abbreviation Pool := (pool W B).

Definition without (U : nat -> bool) (k : nat) : nat -> bool := fun j => if decide (j = k) then false else U j.

Record foreseen (U : nat -> bool) (own : nat -> A) (c s : Pool) : Prop := {
  fo_world : s.2 = c.2;
  fo_length : length s.1 = length c.1;
  fo_draws j p : U j = true -> c.1 !! j = Some p ->
    exists k, p = Act draw k /\ s.1 !! j = Some (Act draw (fun _ => k (own j)));
  fo_others j : U j = false -> s.1 !! j = c.1 !! j;
  fo_bound j : U j = true -> (j < length c.1)%nat;
}.

Lemma foreseen_step U own c s c1 k :
  foreseen U own c s -> step_at k c = Some c1 -> (U k = true -> own k = (draw c.2).1) ->
  exists s1, step_at k s = Some s1 /\ foreseen (without U k) own c1 s1.
Proof.
  intros [Hw Hl Hd Ho Hb] (p & p' & ts & w' & Hk & Hst & ->)%step_at_inv Hown.
  assert (exists q, s.1 !! k = Some q /\ proc_step q c.2 = Some (p', ts, w')) as (q & Hq & Hqs).
  { destruct (U k) eqn:Eu; [|by exists p; rewrite Ho].
    destruct (Hd k p Eu Hk) as (f & -> & Hs). eexists. split; [exact Hs|].
    simpl in Hst |- *. rewrite (Hown eq_refl). by destruct (draw c.2). }
  exists (<[k:=p']> s.1 ++ (task <$> ts), w'). split.
  { unfold step_at. rewrite Hq, Hw. simpl. by rewrite Hqs. }
  pose proof (lookup_lt_Some _ _ _ Hk) as Hlt.
  split; simpl; [done|by rewrite !length_app, !length_insert, Hl| | |].
  - intros j x Hj Hx. unfold without in Hj. case_decide as Hjk; [done|].
    pose proof (Hb j Hj) as Hlj. rewrite lookup_app_l, list_lookup_insert_ne in Hx by (by rewrite ?length_insert).
    rewrite lookup_app_l, list_lookup_insert_ne by (rewrite ?length_insert; congruence). by apply Hd.
  - intros j Hj. unfold without in Hj. destruct (decide (j < length c.1)%nat) as [Hlj|Hlj].
    + rewrite !lookup_app_l by (rewrite length_insert; lia).
      case_decide as Hjk; [by subst; rewrite !list_lookup_insert_eq by lia|].
      rewrite !list_lookup_insert_ne by done. by apply Ho.
    + rewrite !lookup_app_r, !length_insert, Hl by (rewrite length_insert; lia). done.
  - intros j Hj. unfold without in Hj. case_decide; [done|].
    rewrite length_app, length_insert. specialize (Hb j Hj). lia.
Qed.

(** What is left to draw; [none] is drawn when nothing is left. *)
Context (left : W -> list A) (none : A).
Hypothesis Hdraw : forall w, (draw w).1 = none \/ left w = (draw w).1 :: left (draw w).2.

Definition uses_up (c c1 : Pool) : Prop := pool_step c c1 /\ left c1.2 `suffix_of` left c.2.

(** The draws of a run; who draws nothing may be given any [d]. *)
Lemma foresee U d c c' :
  rtc uses_up c c' ->
  (forall j, U j = true -> exists k, c.1 !! j = Some (Act draw k)) ->
  exists own,
    (forall s, foreseen U own c s -> exists s', rtc pool_step s s' /\ s'.2 = c'.2 /\
       forall j r, ended c' j r -> ended s' j r) /\
    (forall j, U j = true -> own j = d \/ own j = none \/ own j ∈ left c.2) /\
    (NoDup (left c.2) -> forall j j', U j = true -> U j' = true -> own j = own j' ->
       own j <> d -> own j <> none -> j = j').
Proof.
  intros Hrtc. revert U. induction Hrtc as [c|c c1 c' [[k Hk] Hsuf] Hrest IH]; intros U HU.
  { exists (fun _ => d). split_and!; [|by left|done]. intros s [Hw Hl Hd Ho Hb]. exists s.
    split_and!; [done|done|]. intros j r He. unfold ended in *. destruct (U j) eqn:Eu; [|by rewrite Ho].
    destruct (HU j Eu) as [f Hf]. congruence. }
  pose proof Hk as (p & p' & ts & w' & Hp & Hst & ->)%step_at_inv. simpl in Hsuf.
  destruct (IH (without U k)) as (own & Hsim & Hfrom & Hinj).
  { intros j Hj. unfold without in Hj. case_decide as Hjk; [done|]. destruct (HU j Hj) as [f Hf].
    exists f. simpl. rewrite lookup_app_l by (rewrite length_insert; by eapply lookup_lt_Some).
    by rewrite list_lookup_insert_ne. }
  assert (U k = true -> w' = (draw c.2).2) as Hw'.
  { intros Eu. destruct (HU k Eu) as [f Hf]. rewrite Hp in Hf. injection Hf as ->. simpl in Hst.
    destruct (draw c.2). by injection Hst as _ _ ->. }
  set (own' := fun j => if decide (j = k) then (draw c.2).1 else own j).
  exists own'. split_and!.
  - intros s Hs. destruct (foreseen_step U own' c s _ k Hs Hk) as (s1 & Hs1 & [H1 H2 H3 H4 H5]).
    { intros _. unfold own'. by rewrite decide_True. }
    destruct (Hsim s1) as (s' & Hr & Hend).
    { split; [done|done| |done|done]. intros j x Hj Hx. destruct (H3 j x Hj Hx) as (f & -> & Hf).
      exists f. split; [done|]. unfold own' in Hf. unfold without in Hj. case_decide; [done|exact Hf]. }
    exists s'. split; [|done]. eapply rtc_l; [by exists k|done].
  - intros j Hj. unfold own'. case_decide as Hjk.
    + subst j. right. destruct (Hdraw c.2) as [?|Hl]; [by left|right]. rewrite Hl. left.
    + destruct (Hfrom j) as [?|[?|Hin]]; [unfold without; by rewrite decide_False|by left|by right; left|].
      right. right. simpl in Hin. destruct Hsuf as [pre ->]. apply elem_of_app. by right.
  - intros Hnd.
    assert (NoDup (left w')) as Hnd' by (destruct Hsuf as [pre Hs]; rewrite Hs in Hnd; by apply NoDup_app in Hnd as (_ & _ & ?)).
    assert (forall j, U k = true -> U j = true -> j <> k -> own j = (draw c.2).1 -> own j <> d ->
              own j <> none -> False) as Hcross.
    { intros j Huk Huj Hne Heq Hd' Hn. destruct (Hdraw c.2) as [?|Hl]; [congruence|].
      destruct (Hfrom j) as [?|[?|Hin]]; [unfold without; by rewrite decide_False|by destruct Hd'|by destruct Hn|].
      rewrite Hl in Hnd. apply NoDup_cons in Hnd as [Hni _]. apply Hni. rewrite <- Heq.
      simpl in Hin. by rewrite <- (Hw' Huk). }
    intros j j' Hj Hj'. unfold own'. repeat case_decide; subst; intros Heq Hd' Hn; try done.
    + exfalso. apply (Hcross j'); congruence.
    + exfalso. by apply (Hcross j).
    + apply Hinj; auto; unfold without; by rewrite decide_False.
Qed.
End foresight.
