(* ===== verification/Parts.v ===== *)
(** * Processes of one component in a system of several

    A handler of src/main.rs works on several components: three maps and a queue.  [Part] is the
    interface of a component inside such a system; [lift] lets a process of the component run on the
    system, where it does the same ([run_lift]) and where everything that was proved about all
    interleavings on the component holds again ([wp_lift]). *)

From S2P Require Import Prelude Process.
From stdpp Require Import relations.

#[local] Open Scope Z_scope.

(** A component of type [W] of a system of type [U]. *)
Class Part (U W : Type) := {
  part : U -> W;
  set_part : W -> U -> U;
}.

Class PartLaws (U W : Type) `{!Part U W} : Prop := {
  part_set w (u : U) : part (set_part w u) = w;
  set_part_id (u : U) : set_part (part u) u = u;
  set_part_twice w w' (u : U) : set_part w' (set_part w u) = set_part w' u;
}.

Section lift.
Context {U W : Type} `{!Part U W}.

(** An action on the component. *)
Definition lift_action {A : Type} (f : ST W A) : ST U A := fun u =>
  let '(a, w) := f (part u) in (a, set_part w u).

Fixpoint lift {A : Type} (p : proc W A) : proc U A :=
  match p with
  | Done a => Done a
  | Act f k => Act (lift_action f) (fun b => lift (k b))
  | Fork q p' => Fork (lift q) (lift p')
  end.

Context `{!PartLaws U W}.

Lemma run_lift {A : Type} (p : proc W A) u : run (lift p) u = lift_action (run p) u.
Proof.
  revert u. unfold lift_action. induction p as [A a|A B f k IH|A q IHq p IH]; intros u; simpl.
  - by rewrite set_part_id.
  - unfold lift_action. destruct (f (part u)) as [b w]. rewrite IH, part_set.
    destruct (run (k b) w). by rewrite set_part_twice.
  - rewrite IH, IHq. destruct (run q (part u)) as [[] w]. simpl. rewrite part_set.
    destruct (run p w). by rewrite set_part_twice.
Qed.

(** The same, for an operation that the process is without interruption. *)
Lemma run_lift_eq {A : Type} (p : proc W A) (m : ST W A) u :
  (forall w, run p w = m w) -> run (lift p) u = lift_action m u.
Proof. intros Hp. rewrite run_lift. unfold lift_action. by rewrite Hp. Qed.

(** ** Interleaved *)

Context (R G : relation U) (R1 G1 : relation W).
Hypothesis HR : forall u u', R u u' -> R1 (part u) (part u').
Hypothesis HG : forall u w, G1 (part u) w -> G u (set_part w u).

(** Whatever interferes on the system interferes on the component within [R1], and what the process
    does there, within [G1], is within [G] on the system. *)
Lemma wp_lift {A : Type} (p : proc W A) (Q : A -> W -> Prop) u :
  wp R1 G1 p Q (part u) -> wp R G (lift p) (fun a u' => Q a (part u')) u.
Proof.
  revert Q u. induction p as [A a|A B f k IH|A q IHq p IH]; intros Q u Hp u' Hr;
    specialize (Hp (part u') (HR u u' Hr)); simpl in Hp |- *.
  - exact Hp.
  - unfold lift_action. destruct (f (part u')) as [b w]. simpl. destruct Hp as [H1 H2].
    split; [by apply HG|]. apply IH. by rewrite part_set.
  - destruct Hp as [H1 H2]. split; [by apply (IHq (fun _ _ => True))|by apply IH].
Qed.

Lemma yields_lift {A : Type} (p : proc W A) (P : A -> Prop) u :
  yields R1 G1 p P (part u) -> yields R G (lift p) P u.
Proof. apply (wp_lift p (fun a _ => P a)). Qed.
End lift.
