(* ===== verification/Ending.v ===== *)
(** * Every interleaving ends

    A process is a finite tree of actions, however many values an action may return; so a pool of
    processes that leave tasks behind, which leave tasks behind themselves, comes to an end under
    every scheduler ([pool_ends]).  A pool that cannot go on is quiescent ([goes_on]), and then every
    client has its answer ([clients_answered]). *)

From S2P Require Import Prelude Process.
From stdpp Require Import relations.

#[local] Open Scope Z_scope.

Section ending.
Context {W A : Type}.
Implicit Types l : list (proc W (option A)).

(** One action of any process, whatever the state is and becomes. *)
Definition list_step l l' : Prop := exists w w', pool_step (l, w) (l', w').

(** A process that may join any list without giving it an infinite run. *)
Definition harmless (p : proc W (option A)) : Prop :=
  forall l1 l2, sn list_step (l1 ++ l2) -> sn list_step (l1 ++ p :: l2).

Lemma list_step_inv l l' : list_step l l' ->
  exists i p w p' ts w', l !! i = Some p /\ proc_step p w = Some (p', ts, w') /\
    l' = <[i := p']> l ++ (task <$> ts).
Proof.
  intros (w & w' & i & (p & p' & ts & w2 & Hp & Hs & [= -> ->])%step_at_inv). simpl in *.
  by exists i, p, w, p', ts, w2.
Qed.

Lemma list_step_at l i p w p' ts w' :
  l !! i = Some p -> proc_step p w = Some (p', ts, w') ->
  list_step l (<[i := p']> l ++ (task <$> ts)).
Proof.
  intros Hp Hs. exists w, w', i. unfold step_at. simpl. rewrite Hp. simpl. by rewrite Hs.
Qed.

(** Either the process in the middle makes the action or one of the others. *)
Lemma list_step_middle l1 l2 p l' : list_step (l1 ++ p :: l2) l' ->
  (exists w p' ts w', proc_step p w = Some (p', ts, w') /\ l' = l1 ++ p' :: l2 ++ (task <$> ts)) \/
  (exists l1' l2', l' = l1' ++ p :: l2' /\ list_step (l1 ++ l2) (l1' ++ l2')).
Proof.
  intros (i & q & w & q' & ts & w' & Hq & Hs & ->)%list_step_inv.
  destruct (decide (i < length l1)%nat) as [Hi|Hi].
  - right. rewrite lookup_app_l in Hq by done. exists (<[i := q']> l1), (l2 ++ (task <$> ts)).
    rewrite insert_app_l by done. split; [by rewrite <- app_assoc|].
    rewrite app_assoc, <- insert_app_l by done. apply (list_step_at _ _ q w _ _ w'); [|done].
    by rewrite lookup_app_l.
  - assert (exists j, i = (length l1 + j)%nat) as [j ->] by (exists (i - length l1)%nat; lia).
    rewrite lookup_app_r in Hq by lia. replace (length l1 + j - length l1)%nat with j in Hq by lia.
    rewrite insert_app_r. destruct j as [|j]; simpl in Hq.
    + injection Hq as ->. left. exists w, q', ts, w'. split; [done|]. by rewrite <- app_assoc.
    + right. exists l1, (<[j := q']> l2 ++ (task <$> ts)). split; [by rewrite <- app_assoc|].
      rewrite app_assoc, <- insert_app_r. apply (list_step_at _ _ q w _ _ w'); [|done].
      rewrite lookup_app_r by lia. by replace (length l1 + j - length l1)%nat with j by lia.
Qed.

Lemma harmless_all (ts : list (proc W unit)) l :
  Forall (fun t => harmless (task t)) ts -> sn list_step l -> sn list_step (l ++ (task <$> ts)).
Proof.
  intros Hts. revert l. induction Hts as [|t ts Ht _ IH]; intros l Hsn; simpl; [by rewrite app_nil_r|].
  rewrite cons_middle, app_assoc. apply IH, Ht. by rewrite app_nil_r.
Qed.

(** A process is harmless if it goes on as one and leaves only harmless tasks behind. *)
Lemma harmless_intro p :
  (forall w p' ts w', proc_step p w = Some (p', ts, w') ->
     harmless p' /\ Forall (fun t => harmless (task t)) ts) ->
  harmless p.
Proof.
  intros Hp l1 l2 Hsn. remember (l1 ++ l2) as l eqn:El. revert l1 l2 El.
  induction Hsn as [l Hacc IH]. intros l1 l2 ->. constructor. intros l'.
  intros [(w & p' & ts & w' & Hs & ->)|(l1' & l2' & -> & Hs)]%list_step_middle.
  - destruct (Hp w p' ts w' Hs) as [Hp' Hts]. apply Hp'. rewrite app_assoc.
    apply harmless_all; [done|]. constructor. exact Hacc.
  - exact (IH _ Hs l1' l2' eq_refl).
Qed.

Lemma harmless_bind {X : Type} (p : proc W X) (k : X -> proc W (option A)) :
  (forall x, harmless (k x)) -> harmless (bind p k).
Proof.
  revert k. induction p as [X x|X B f p IH|X q IHq p IH]; intros k Hk; [apply Hk| |];
    apply harmless_intro; intros w p' ts w'; simpl.
  - destruct (f w) as [b w1]. intros [= <- <- <-]. by split; [apply IH|].
  - intros [= <- <- <-]. split; [by apply IH|]. apply Forall_singleton. apply IHq.
    intros []. by apply harmless_intro.
Qed.

Lemma harmless_any p : harmless p.
Proof.
  assert (forall q : proc W unit, harmless (task q)) as Htask.
  { intros q. apply harmless_bind. intros []. by apply harmless_intro. }
  revert p. fix IH 1. intros [a|B f k|q p]; apply harmless_intro; intros w p' ts w'; simpl; [done| |].
  - destruct (f w) as [b w1]. intros [= <- <- <-]. split; [exact (IH (k b))|done].
  - intros [= <- <- <-]. split; [exact (IH p)|]. by apply Forall_singleton.
Qed.

Lemma lists_end l : sn list_step l.
Proof.
  induction l as [|p l IH]; [|by apply (harmless_any p [] l)].
  constructor. intros l' (i & q & w & q' & ts & w' & Hq & _)%list_step_inv. done.
Qed.

(** Any pool, whatever its actions return and however they are scheduled. *)
Lemma pool_ends (c : pool W A) : sn pool_step c.
Proof.
  destruct c as [l w]. revert w. induction (lists_end l) as [l _ IH]. intros w. constructor.
  intros [l' w'] Hs. apply (IH l'). by exists w, w'.
Qed.

(** Whoever has not ended can go on. *)
Lemma goes_on (c : pool W A) : (exists c', pool_step c c') \/ quiescent c.
Proof.
  destruct (all_done c) eqn:Ed; [right; by apply all_done_quiescent|left].
  unfold all_done in Ed. apply not_true_iff_false in Ed. rewrite forallb_forall in Ed.
  destruct (Exists_dec (fun p => match p with Done _ => false | _ => true end = true) c.1)
    as [He|Hno].
  - apply Exists_exists in He as (p & (i & Hi)%list_elem_of_lookup & Hp).
    assert (exists r, proc_step p c.2 = Some r) as [[[p' ts] w'] Hs].
    { destruct p as [a|B f k|q p]; [done| |by eexists]. simpl. destruct (f c.2). by eexists. }
    exists (<[i := p']> c.1 ++ (task <$> ts), w'), i. unfold step_at. rewrite Hi. simpl. by rewrite Hs.
  - destruct Ed. intros p Hp%list_elem_of_In. destruct p eqn:E; [done|exfalso..];
      apply Hno, Exists_exists; by eexists.
Qed.

(** *** Clients *)

(** Anything may happen to the state. *)
#[local] Abbreviation any := (fun _ _ : W => True).
#[local] Instance any_preorder : PreOrder any.
Proof. by split. Qed.

Lemma anything_goes {X : Type} (p : proc W X) w : safe any any p w.
Proof.
  unfold safe. revert w. induction p as [X x|X B f p IH|X q IHq p IH]; intros w w' _; [done| |].
  - split; [done|apply IH].
  - split; [apply IHq|apply IH].
Qed.

Lemma client_ends (p : proc W A) w : wp any any (client p) (fun o _ => exists a, o = Some a) w.
Proof.
  eapply (wp_then any any); [done|apply anything_goes|]. intros a w1 _ _ w2 _. by exists a.
Qed.

(** Once nothing can go on, every client has its answer. *)
Lemma clients_answered (ps : list (proc W A)) w c' i :
  rtc pool_step (client <$> ps, w) c' -> quiescent c' -> (i < length ps)%nat ->
  exists a, ended c' i a.
Proof.
  intros Hrtc Hq Hi.
  pose (Q j := if decide (j < length ps)%nat then fun (o : option A) (_ : W) => exists a, o = Some a
               else fun _ _ => True).
  assert (forall j, (length ps <= j)%nat -> Q j = fun _ _ => True) as Hrest.
  { intros j Hj. unfold Q. by rewrite decide_False by lia. }
  assert (all_wp any (length ps) Q (client <$> ps, w)) as Hstart.
  { split; simpl; [by rewrite length_fmap|]. intros j p Hp.
    apply list_lookup_fmap_Some in Hp as (p0 & -> & Hp0). unfold Q.
    rewrite decide_True by by eapply lookup_lt_Some. apply client_ends. }
  destruct (all_wp_steps any (length ps) Q Hrest _ _ Hstart Hrtc) as [_ [Hlen Hall]].
  assert (exists p, c'.1 !! i = Some p) as [p Hp] by (apply lookup_lt_is_Some; lia).
  specialize (Hall i p Hp). unfold quiescent in Hq. rewrite Forall_lookup in Hq.
  specialize (Hq i p Hp). destruct p as [o| |]; [|done..].
  specialize (Hall c'.2 I). unfold Q in Hall. rewrite decide_True in Hall by done.
  destruct Hall as [a ->]. by exists a.
Qed.
End ending.
