(* ===== verification/ClusterSteps.v ===== *)
(** * The loops of the membership service, action by action: src/membership/service.rs

    [MembershipService::start] spawns three loops that share the table of members: one receives
    datagrams, one detects failures, one pings.  In Cluster.v one datagram or one tick is one step;
    here an action is one access to one entry of the table or one datagram sent, and the loops of all
    nodes run interleaved.  An entry that is absent is added in the action that misses it, since only
    the receiving loop adds entries, one after the other. *)

From S2P Require Import Prelude Membership Cluster Process.

#[local] Open Scope Z_scope.
#[local] Open Scope proc_scope.

#[export] Instance service_inhabited : Inhabited MembershipService :=
  populate (new (mkAddr "" 0) [] (mkId "") 0).1.

(** ** Accesses of node [a] *)

Definition on_service {A : Type} (a : NodeId) (f : MembershipService -> A * MembershipService)
    : ST Cluster A := fun c =>
  let '(x, s) := f (services c !!! a) in (x, mkCluster (<[a := s]> (services c)) (sockets c) (soup c)).

Definition look {A : Type} (a : NodeId) (f : MembershipService -> A) : ST Cluster A :=
  st_get (fun c => f (services c !!! a)).

(** [socket.send_to]. *)
Definition send (a : NodeId) (d : Datagram) : ST Cluster unit := fun c =>
  (tt, mkCluster (services c) (sockets c) (soup c ++ send_all (address c a) [d])).

(** A loop that collects its results. *)
Fixpoint collect {X A : Type} (f : X -> proc Cluster A) (l : list X) : proc Cluster (list A) :=
  match l with
  | [] => Done []
  | x :: l' => r <~ f x ;; rs <~ collect f l' ;; Done (r :: rs)
  end.

(** [self.members.iter()] goes from entry to entry. *)
Definition keys (s : MembershipService) : list NodeId := (map_to_list (members s)).*1.

Definition snapshot (a : NodeId) : proc Cluster (list Node) :=
  ks <~ atomic (look a keys) ;;
  ns <~ collect (fun k => atomic (look a (fun s => members s !! k))) ks ;;
  Done (omap (fun n => n) ns).

(** The id and the incarnation that a node puts into its messages. *)
Definition identity (s : MembershipService) : NodeId * Z :=
  (Membership.id (local_node s), my_incarnation s).

(** [broadcast_message]. *)
Definition recipient (k : NodeId) (s : MembershipService) : option SocketAddr :=
  m ← members s !! k;
  if decide (Membership.id m <> Membership.id (local_node s) /\ state m = Alive)
  then Some (gossip_addr m) else None.

Definition broadcast_message (a : NodeId) (msg : GossipMessage) : proc Cluster unit :=
  ks <~ atomic (look a keys) ;;
  each (fun k =>
    to <~ atomic (look a (recipient k)) ;;
    match to with Some addr => atomic (send a (addr, msg)) | None => Done tt end) ks.

(** [handle_ping]: the sender's entry, then the reply. *)
Definition note_sender (from : NodeId) (inc : Z) (src : SocketAddr) (now : Z) (s : MembershipService)
    : MembershipService :=
  let member := match members s !! from with
    | Some m =>
        let m := set_last_seen (Some now) m in
        if bool_decide (incarnation m < inc) then set_incarnation inc m else m
    | None => mkNode from src (http_of src) Alive inc (Some now)
    end in
  set_members (<[from := member]> (members s)) s.

Definition handle_ping (a from : NodeId) (inc : Z) (src : SocketAddr) (now : Z) : proc Cluster unit :=
  atomic (on_service a (fun s => (tt, note_sender from inc src now s))) ;;~
  all_members <~ snapshot a ;;
  me <~ atomic (look a identity) ;;
  atomic (send a (src, MAck me.1 me.2 all_members)).

(** [handle_ack]: the sender's entry, unless it is dead, then one entry after the other. *)
Definition note_ack (from : NodeId) (inc now : Z) (s : MembershipService) : bool * MembershipService :=
  match members s !! from with
  | Some m =>
      if decide (state m = Dead) then (false, s) else
      let m := set_last_seen (Some now) m in
      let m := if bool_decide (incarnation m < inc) then set_incarnation inc m else m in
      (true, set_members (<[from := m]> (members s)) s)
  | None => (true, s)
  end.

Definition handle_ack (a from : NodeId) (inc : Z) (view : list Node) (now : Z) : proc Cluster unit :=
  go <~ atomic (on_service a (note_ack from inc now)) ;;
  if go : bool then
    each (fun n => atomic (on_service a (fun s => (tt, merge_member n now s)))) view
  else Done tt.

(** [handle_suspect]: the entry, with the own counter if it is the node itself, then the refutation. *)
Definition note_suspicion (i : NodeId) (inc now : Z) (s : MembershipService)
    : option Z * MembershipService :=
  match members s !! i with
  | Some existing =>
      if decide (state existing = Dead) then (None, s) else
      if bool_decide (incarnation existing < inc) then
        if decide (Membership.id existing = Membership.id (local_node s)) then
          let mine := wrap 64 (my_incarnation s + 1) in
          let existing := set_last_seen (Some now) (set_state Alive
                            (set_incarnation mine existing)) in
          (Some mine, mkService (local_node s) (<[i := existing]> (members s)) mine)
        else
          let existing := set_last_seen (Some now) (set_incarnation inc
                            (set_state Suspect existing)) in
          (None, set_members (<[i := existing]> (members s)) s)
      else (None, s)
  | None => (None, s)
  end.

Definition handle_suspect (a i : NodeId) (inc now : Z) : proc Cluster unit :=
  refuted <~ atomic (on_service a (note_suspicion i inc now)) ;;
  match refuted with Some mine => broadcast_message a (MAlive i mine) | None => Done tt end.

(** [handle_alive] and [handle_join] touch one entry. *)
Definition handle_alive (a i : NodeId) (inc now : Z) : proc Cluster unit :=
  atomic (on_service a (fun s => (tt, Membership.handle_alive i inc now s))).
Definition handle_join (a : NodeId) (node : Node) (now : Z) : proc Cluster unit :=
  atomic (on_service a (fun s => (tt, Membership.handle_join node now s))).

(** [handle_message]. *)
Definition handle_message (a : NodeId) (msg : GossipMessage) (src : SocketAddr) (now : Z)
    : proc Cluster unit :=
  match msg with
  | MPing from inc => handle_ping a from inc src now
  | MAck from inc view => handle_ack a from inc view now
  | MJoin node => handle_join a node now
  | MSuspect i inc => handle_suspect a i inc now
  | MAlive i inc => handle_alive a i inc now
  end.

(** ** The loops *)

(** One iteration of [receive_loop]: the [k]-th datagram, if it reaches the socket of this node. *)
Definition arrived (a : NodeId) (k : nat) (c : Cluster) : option Packet :=
  p ← soup c !! k;
  if decide (sockets c !! a = Some (destination p)) then Some p else None.

Definition receive (a : NodeId) (k : nat) (now : Z) : proc Cluster unit :=
  p <~ atomic (st_get (arrived a k)) ;;
  match p with Some p => handle_message a (payload p) (src p) now | None => Done tt end.

(** One iteration of [failure_detection_loop]: every entry, then the suspicions. *)
Definition examine (now : Z) (k : NodeId) (s : MembershipService)
    : option GossipMessage * MembershipService :=
  let local := Membership.id (local_node s) in
  match members s !! k with
  | Some m => (fd_message local now m, set_members (<[k := fd_member local now m]> (members s)) s)
  | None => (None, s)
  end.

Definition failure_detection_tick (a : NodeId) (now : Z) : proc Cluster unit :=
  ks <~ atomic (look a keys) ;;
  msgs <~ collect (fun k => atomic (on_service a (examine now k))) ks ;;
  each (broadcast_message a) (omap (fun m => m) msgs).

(** One iteration of [gossip_loop]. *)
Definition gossip_tick (a : NodeId) (idx : nat) : proc Cluster unit :=
  all_members <~ snapshot a ;;
  me <~ atomic (look a identity) ;;
  match filter (fun n => Membership.id n <> me.1 /\ state n = Alive) all_members !! idx with
  | Some target => atomic (send a (gossip_addr target, MPing me.1 me.2))
  | None => Done tt
  end.

(** [MembershipService::new], and [start], which spawns the loops: the datagrams that will be
    received, the instants of the ticks and the random choices are arguments, and so is the address
    that the socket gets. *)
Record Life := mkLife {
  bind_addr : SocketAddr; real_addr : SocketAddr; seed_nodes : list SocketAddr; node_id : NodeId; born : Z;
  receptions : list (nat * Z); ticks : list Z; choices : list nat }.

Definition launch (l : Life) : ST Cluster bool := fun c =>
  match services c !! node_id l with
  | Some _ => (false, c)
  | None =>
      if binds (bind_addr l) (real_addr l) then
        let s := (new (bind_addr l) (seed_nodes l) (node_id l) (born l)).1 in
        (true, mkCluster (<[node_id l := s]> (services c)) (<[node_id l := real_addr l]> (sockets c)) (soup c))
      else (false, c)
  end.

Definition start (l : Life) : proc Cluster unit :=
  let a := node_id l in
  Fork (each (gossip_tick a) (choices l))
    (Fork (each (fun r => receive a r.1 r.2) (receptions l))
      (each (failure_detection_tick a) (ticks l))).

Definition live (l : Life) : proc Cluster unit :=
  ok <~ atomic (launch l) ;;
  if ok : bool then
    each (fun d => atomic (send (node_id l) d))
      (new (bind_addr l) (seed_nodes l) (node_id l) (born l)).2 ;;~
    start l
  else Done tt.

(** The nodes of a cluster, none of them started. *)
Definition nodes_of (ls : list Life) : pool Cluster unit := ((fun l => client (live l)) <$> ls, empty_cluster).

(** ** Without interruption: the steps of Cluster.v

    [update c a (s, out)] is [c] after [a] got to [s] and sent [out]. *)
Section uninterrupted.
Context (c : Cluster) (a : NodeId).

#[local] Abbreviation at_ s out := (update c a (s, out)).

Lemma at_lookup s out : services (at_ s out) !!! a = s.
Proof. apply lookup_total_insert_eq. Qed.

Lemma run_on {A} (f : MembershipService -> A * MembershipService) s out :
  run (atomic (on_service a f)) (at_ s out) = ((f s).1, at_ (f s).2 out).
Proof.
  rewrite run_atomic. unfold on_service. rewrite at_lookup.
  destruct (f s) as [x s'] eqn:E. simpl in *. unfold update. simpl. by rewrite insert_insert_eq.
Qed.

Lemma run_modify (g : MembershipService -> MembershipService) s out :
  run (atomic (on_service a (fun s => (tt, g s)))) (at_ s out) = (tt, at_ (g s) out).
Proof. apply (run_on (fun s => (tt, g s))). Qed.

Lemma run_look {A} (f : MembershipService -> A) s out :
  run (atomic (look a f)) (at_ s out) = (f s, at_ s out).
Proof. rewrite run_atomic. unfold look, st_get. by rewrite at_lookup. Qed.

Lemma run_send d s out : run (atomic (send a d)) (at_ s out) = (tt, at_ s (out ++ [d])).
Proof.
  rewrite run_atomic. unfold send, update. simpl. unfold send_all. by rewrite fmap_app, app_assoc.
Qed.

Lemma run_then {A B : Type} (p : proc Cluster A) (k : A -> proc Cluster B) c1 x c2 :
  run p c1 = (x, c2) -> run (bind p k) c1 = run (k x) c2.
Proof. intros Hp. rewrite run_bind. unfold st_bind. by rewrite Hp. Qed.

(** Loops that read, and loops that send. *)
Lemma run_collect_look {X A} (f : X -> MembershipService -> A) l s out :
  run (collect (fun x => atomic (look a (f x))) l) (at_ s out) = ((fun x => f x s) <$> l, at_ s out).
Proof.
  induction l as [|x l IH]; [done|]. cbn [collect]. rewrite (run_then _ _ _ _ _ (run_look (f x) s out)).
  by rewrite (run_then _ _ _ _ _ IH).
Qed.

Lemma run_each_send {X} (f : X -> proc Cluster unit) (ds : X -> list Datagram) l s out :
  (forall x out', x ∈ l -> run (f x) (at_ s out') = (tt, at_ s (out' ++ ds x))) ->
  run (each f l) (at_ s out) = (tt, at_ s (out ++ (l ≫= ds))).
Proof.
  revert out. induction l as [|x l IH]; intros out Hf; cbn [each]; [by rewrite app_nil_r|].
  rewrite (run_then _ _ _ _ _ (Hf x out ltac:(left))), IH by (intros; apply Hf; by right).
  by rewrite <- app_assoc.
Qed.

(** Going over the keys is going over the entries. *)
Lemma keys_lookup {B} (g : Node -> option B) s :
  omap (fun k => n ← members s !! k; g n) (keys s) = omap g (all_members s).
Proof.
  unfold keys, all_members.
  assert (forall x, x ∈ map_to_list (members s) -> members s !! x.1 = Some x.2) as Hl
    by (intros [k n]; apply elem_of_map_to_list).
  induction (map_to_list (members s)) as [|[k n] l IH]; [done|]. cbn.
  pose proof (Hl (k, n) ltac:(left)) as Hk. simpl in Hk. rewrite Hk. simpl.
  rewrite IH by (intros; apply Hl; by right). done.
Qed.

Lemma omap_fmap {X Y Z} (f : X -> Y) (g : Y -> option Z) (l : list X) : omap g (f <$> l) = omap (fun x => g (f x)) l.
Proof. induction l as [|x l IH]; [done|]. cbn. by rewrite IH. Qed.

Lemma omap_bind {X Y} (f : X -> option Y) (l : list X) : omap f l = l ≫= (fun x => option_list (f x)).
Proof. induction l as [|x l IH]; [done|]. cbn. destruct (f x); by rewrite IH. Qed.

Lemma omap_filter {X Y} (Q : X -> Prop) `{!forall x, Decision (Q x)} (f : X -> Y) (l : list X) :
  omap (fun x => if decide (Q x) then Some (f x) else None) l = f <$> filter Q l.
Proof. induction l as [|x l IH]; [done|]. rewrite filter_cons.
  case_decide as Hq; [rewrite fmap_cons|]; rewrite <- IH; cbn; [by rewrite decide_True|by rewrite decide_False]. Qed.

Lemma run_snapshot s out : run (snapshot a) (at_ s out) = (all_members s, at_ s out).
Proof.
  unfold snapshot. rewrite (run_then _ _ _ _ _ (run_look keys s out)).
  rewrite (run_then _ _ _ _ _ (run_collect_look (fun k s => members s !! k) _ s out)). simpl.
  rewrite omap_fmap.
  assert (forall l, omap (fun k => members s !! k) l = omap (fun k => n ← members s !! k; Some n) l) as ->.
  { intros l. apply list_omap_ext, Forall_Forall2_diag, Forall_forall. intros k _.
    by destruct (members s !! k). }
  rewrite keys_lookup. f_equal. induction (all_members s) as [|n l IH]; [done|]. cbn. by rewrite IH.
Qed.

Lemma run_broadcast msg s out :
  run (broadcast_message a msg) (at_ s out) = (tt, at_ s (out ++ Membership.broadcast_message msg s)).
Proof.
  unfold broadcast_message. rewrite (run_then _ _ _ _ _ (run_look keys s out)).
  rewrite (run_each_send _ (fun k => option_list ((fun to => (to, msg)) <$> recipient k s))).
  - rewrite <- omap_bind. do 2 f_equal. unfold Membership.broadcast_message, recipient.
    assert (forall l, omap (fun k => (fun to => (to, msg)) <$> (m ← members s !! k;
       if decide (id m <> id (local_node s) /\ state m = Alive) then Some (gossip_addr m) else None)) l =
       omap (fun k => m ← members s !! k; if decide (id m <> id (local_node s) /\ state m = Alive)
         then Some (gossip_addr m, msg) else None) l) as ->.
    { intros l. apply list_omap_ext, Forall_Forall2_diag, Forall_forall. intros k _.
      destruct (members s !! k); [|done]. simpl. by case_decide. }
    rewrite keys_lookup. by rewrite <- omap_filter.
  - intros k out' _. rewrite (run_then _ _ _ _ _ (run_look (recipient k) s out')).
    destruct (recipient k s); [apply run_send|]. simpl. by rewrite app_nil_r.
Qed.

Lemma run_handle_ping from inc src now s :
  run (handle_ping a from inc src now) (at_ s []) =
    (tt, update c a (Membership.handle_ping from inc src now s)).
Proof.
  unfold handle_ping.
  rewrite (run_then _ _ _ _ _ (run_modify (note_sender from inc src now) s [])). cbn [fst snd].
  rewrite (run_then _ _ _ _ _ (run_snapshot _ _)).
  rewrite (run_then _ _ _ _ _ (run_look identity _ _)). by rewrite run_send.
Qed.

Lemma merge_member_local n now s : local_node (merge_member n now s) = local_node s.
Proof. unfold merge_member, set_members. handler_cases; done. Qed.

Lemma run_merge_all view now s out :
  run (each (fun n => atomic (on_service a (fun s => (tt, merge_member n now s)))) view) (at_ s out) =
    (tt, at_ (foldl (fun s n => merge_member n now s) s view) out).
Proof.
  revert s. induction view as [|n view IH]; intros s; [done|]. cbn [each].
  rewrite (run_then _ _ _ _ _ (run_modify (merge_member n now) s out)). apply IH.
Qed.

Lemma run_handle_ack from inc view now s :
  run (handle_ack a from inc view now) (at_ s []) =
    (tt, update c a (Membership.handle_ack from inc view now s, [])).
Proof.
  unfold handle_ack. rewrite (run_then _ _ _ _ _ (run_on (note_ack from inc now) s [])).
  unfold note_ack, Membership.handle_ack. destruct (members s !! from) as [m|]; [|apply run_merge_all].
  case_decide; [done|apply run_merge_all].
Qed.

Lemma run_handle_suspect i inc now s :
  run (handle_suspect a i inc now) (at_ s []) =
    (tt, update c a (Membership.handle_suspect i inc now s)).
Proof.
  unfold handle_suspect. rewrite (run_then _ _ _ _ _ (run_on (note_suspicion i inc now) s [])).
  unfold note_suspicion, Membership.handle_suspect. destruct (members s !! i) as [m|]; [|done].
  case_decide; [done|]. case_bool_decide; [|done]. case_decide; [|done]. cbn [fst snd].
  by rewrite run_broadcast.
Qed.

Lemma run_handle_message msg src now s :
  run (handle_message a msg src now) (at_ s []) =
    (tt, update c a (Membership.handle_message msg src now s)).
Proof.
  destruct msg as [from inc|from inc view|node|i inc|i inc]; cbn [handle_message Membership.handle_message].
  - apply run_handle_ping.
  - apply run_handle_ack.
  - apply (run_modify (Membership.handle_join node now)).
  - apply run_handle_suspect.
  - apply (run_modify (Membership.handle_alive i inc now)).
Qed.

(** The failure detector touches every entry once. *)
Lemma examine_spec now k s k' :
  local_node (examine now k s).2 = local_node s /\
  my_incarnation (examine now k s).2 = my_incarnation s /\
  members (examine now k s).2 !! k' =
    if decide (k' = k) then fd_member (id (local_node s)) now <$> members s !! k' else members s !! k'.
Proof.
  unfold examine. destruct (members s !! k) as [m|] eqn:E; simpl; (split; [done|split; [done|]]).
  - case_decide as Hk; [by rewrite Hk, lookup_insert_eq, E|by rewrite lookup_insert_ne].
  - case_decide as Hk; [by rewrite Hk, E|done].
Qed.

Lemma run_examine now l s out : NoDup l ->
  exists s', run (collect (fun k => atomic (on_service a (examine now k))) l) (at_ s out) =
    ((fun k => m ← members s !! k; fd_message (id (local_node s)) now m) <$> l, at_ s' out) /\
    local_node s' = local_node s /\ my_incarnation s' = my_incarnation s /\
    forall k, members s' !! k =
      if decide (k ∈ l) then fd_member (id (local_node s)) now <$> members s !! k else members s !! k.
Proof.
  intros Hnd. revert s. induction Hnd as [|k l Hk Hnd IH]; intros s.
  { exists s. split_and!; [done..|]. intros k. by rewrite decide_False by apply not_elem_of_nil. }
  destruct (examine_spec now k s k) as (Hl & Hi & _).
  destruct (IH (examine now k s).2) as (s' & Hrun & Hl' & Hi' & Hm'). exists s'. cbn [collect].
  rewrite (run_then _ _ _ _ _ (run_on (examine now k) s out)), (run_then _ _ _ _ _ Hrun), Hl', Hi', Hl, Hi. simpl.
  split_and!; [|done..|].
  - f_equal. f_equal.
    + unfold examine. by destruct (members s !! k).
    + apply list_fmap_ext. intros n k' Hk'%list_elem_of_lookup_2. simpl.
      destruct (examine_spec now k s k') as (_ & _ & ->). by rewrite decide_False by (by intros ->).
  - intros k'. rewrite Hm', Hl. destruct (examine_spec now k s k') as (_ & _ & ->).
    destruct (decide (k' = k)) as [->|Hne].
    + by rewrite decide_False, decide_True by (done || left).
    + by destruct (decide (k' ∈ l)); [rewrite decide_True by (by right)|
        rewrite decide_False by (by intros [->|?]%elem_of_cons)].
Qed.

Lemma keys_NoDup s : NoDup (keys s).
Proof. apply NoDup_fst_map_to_list. Qed.

Lemma elem_of_keys s k : k ∈ keys s <-> is_Some (members s !! k).
Proof.
  unfold keys. rewrite list_elem_of_fmap. split.
  - intros ([k' n] & -> & Hn%elem_of_map_to_list). by exists n.
  - intros [n Hn]. exists (k, n). split; [done|by apply elem_of_map_to_list].
Qed.

Lemma run_failure_detection now s :
  run (failure_detection_tick a now) (at_ s []) =
    (tt, update c a (Membership.failure_detection_tick now s)).
Proof.
  unfold failure_detection_tick. rewrite (run_then _ _ _ _ _ (run_look keys s [])).
  destruct (run_examine now (keys s) s [] (keys_NoDup s)) as (s' & Hrun & Hl & Hi & Hm).
  rewrite (run_then _ _ _ _ _ Hrun), omap_fmap.
  rewrite (keys_lookup (fd_message (id (local_node s)) now) s).
  assert (s' = set_members (fd_member (id (local_node s)) now <$> members s) s) as ->.
  { destruct s' as [l' m' i'], s as [l m i]. simpl in *. subst. unfold set_members. simpl. f_equal.
    apply map_eq. intros k. rewrite Hm, lookup_fmap. case_decide as Hk; [done|].
    rewrite elem_of_keys in Hk. simpl in Hk. by apply eq_None_not_Some in Hk as ->. }
  set (s' := set_members _ s). rewrite (run_each_send _ (fun m => Membership.broadcast_message m s')); [done|].
  intros m out _. apply run_broadcast.
Qed.

Lemma run_gossip idx s :
  run (gossip_tick a idx) (at_ s []) = (tt, update c a (s, Membership.gossip_tick idx s)).
Proof.
  unfold gossip_tick. rewrite (run_then _ _ _ _ _ (run_snapshot _ _)).
  rewrite (run_then _ _ _ _ _ (run_look identity _ _)). unfold Membership.gossip_tick, gossip_targets.
  simpl. destruct (filter _ _ !! idx); [by rewrite run_send|done].
Qed.
End uninterrupted.

(** What a service does in one step of Cluster.v is what its loops do without interruption. *)
Theorem uninterrupted_membership c a s : services c !! a = Some s ->
  (forall k now, run (receive a k now) c = (tt, act (Deliver k a now) c)) /\
  (forall now, run (failure_detection_tick a now) c = (tt, act (TickAt a now) c)) /\
  (forall idx, run (gossip_tick a idx) c = (tt, act (GossipAt a idx) c)).
Proof.
  intros Ha. assert (c = update c a (s, [])) as Hc.
  { unfold update. simpl. rewrite insert_id, app_nil_r by done. by destruct c. }
  split_and!.
  - intros k now. unfold receive. rewrite (run_then _ _ _ _ _ (run_atomic (st_get (arrived a k)) c)).
    unfold arrived, act. rewrite Ha. destruct (soup c !! k) as [p|]; [|done]. simpl.
    case_decide; [|done]. rewrite Hc at 1. apply run_handle_message.
  - intros now. unfold act. rewrite Ha. rewrite Hc at 1. apply run_failure_detection.
  - intros idx. unfold act. rewrite Ha. rewrite Hc at 1. apply run_gossip.
Qed.
