(* ===== verification/ClusterRaces.v ===== *)
(** * The gossip protocol under concurrency

    Any number of nodes, started at any time, each with its three loops, interleaved action by action
    over the network of Cluster.v.  That the views of a loop are taken entry by entry, and that the
    failure detector may come in between the entries that a message merges, changes nothing about
    what Cluster.v shows: incarnations stay at 1, and a suspicion is not taken back. *)

From S2P Require Import Prelude Membership Cluster Process ClusterSteps.

#[local] Open Scope Z_scope.
#[local] Open Scope proc_scope.

(** A [Join] of [i] has been sent that reaches the socket of [a]. *)
Definition join_sent (a i : NodeId) (c : Cluster) : Prop :=
  exists p n, p ∈ soup c /\ sockets c !! a = Some (destination p) /\ payload p = MJoin n /\ id n = i.

(** The cluster, later. *)
Record advances (c c' : Cluster) : Prop := {
  av_soup : soup c `prefix_of` soup c';
  av_up a s : services c !! a = Some s ->
    exists s', services c' !! a = Some s' /\ local_node s' = local_node s;
  av_socket a : is_Some (services c !! a) -> sockets c' !! a = sockets c !! a;
  av_ok : cluster_ok c -> cluster_ok c' /\
    forall a s s' i, services c !! a = Some s -> services c' !! a = Some s' ->
      ~ join_sent a i c' -> tracks worse i s s';
}.

Lemma join_sent_mono a i c c' :
  soup c `prefix_of` soup c' -> sockets c' !! a = sockets c !! a -> join_sent a i c -> join_sent a i c'.
Proof.
  intros [r Hr] Hs (p & n & Hp & Hrest). exists p, n. rewrite Hs. split; [|done].
  rewrite Hr. apply elem_of_app. by left.
Qed.

Lemma join_sent_advances a i c c' :
  advances c c' -> is_Some (services c !! a) -> join_sent a i c -> join_sent a i c'.
Proof. intros Hr Ha. apply join_sent_mono; [apply (av_soup _ _ Hr)|by apply (av_socket _ _ Hr)]. Qed.

#[export] Instance advances_preorder : PreOrder advances.
Proof.
  split.
  - intros c. split; [done|by eauto|done|]. intros Hc. split; [done|]. intros a s s' i Hs Hs' _.
    rewrite Hs in Hs'. injection Hs' as <-. reflexivity.
  - intros c1 c2 c3 H12 H23. pose proof H12 as [S1 U1 K1 O1]. pose proof H23 as [S2 U2 K2 O2].
    split; [by etrans| | |].
    + intros a s Hs. destruct (U1 a s Hs) as (s2 & Hs2 & Hl2). destruct (U2 a s2 Hs2) as (s3 & Hs3 & Hl3).
      exists s3. split; [done|congruence].
    + intros a [s Hs]. destruct (U1 a s Hs) as (s2 & Hs2 & _).
      rewrite (K2 a (mk_is_Some _ _ Hs2)). apply K1. by exists s.
    + intros Hc. destruct (O1 Hc) as [Hc2 T1]. destruct (O2 Hc2) as [Hc3 T2]. split; [done|].
      intros a s s3 i Hs Hs3 Hj. destruct (U1 a s Hs) as (s2 & Hs2 & Hl2).
      etrans; [apply (T1 a s s2 i Hs Hs2)|by apply (T2 a s2 s3 i Hs2 Hs3)].
      intros Hj2. apply Hj. apply (join_sent_advances _ _ c2); [done|by exists s2|done].
Qed.

(** ** Actions *)

(** Service [s] of node [a] may become [s']. *)
Definition permitted (a : NodeId) (c : Cluster) (s s' : MembershipService) : Prop :=
  local_node s' = local_node s /\
  (service_ok s -> service_ok s' /\
    forall i, ~ join_sent a i c -> tracks worse i s s').

Lemma advances_on {A} a (f : MembershipService -> A * MembershipService) c s :
  services c !! a = Some s -> permitted a c s (f s).2 -> advances c (on_service a f c).2.
Proof.
  intros Ha [Hl Hok]. unfold on_service. rewrite (lookup_total_correct _ _ _ Ha).
  destruct (f s) as [x s1]. simpl in *. split; simpl; [done| |done|].
  - intros b t Hb. destruct (decide (b = a)) as [->|Hne].
    + exists s1. rewrite lookup_insert_eq. rewrite Ha in Hb. injection Hb as <-. done.
    + exists t. by rewrite lookup_insert_ne.
  - intros Hc. destruct (ok_services c Hc a s Ha) as [Hs Hid]. destruct (Hok Hs) as [Hs1 Ht].
    split; [split; simpl|].
    + intros b t [[<- <-]|[_ Hb]]%lookup_insert_Some; [split; [done|congruence]|].
      by apply (ok_services c Hc).
    + apply (ok_soup c Hc).
    + intros b t t' i Hb [[<- <-]|[_ Hb']]%lookup_insert_Some Hj; [|rewrite Hb in Hb'; by injection Hb' as <-].
      rewrite Ha in Hb. injection Hb as <-. by apply Ht.
Qed.

Lemma advances_send a d c : message_ok d.2 -> advances c (send a d c).2.
Proof.
  intros Hd. unfold send. split; simpl.
  - by eexists.
  - eauto.
  - done.
  - intros Hc. split; [split; simpl; [apply (ok_services c Hc)|]|].
    + intros p [Hp|Hp]%elem_of_app; [by apply (ok_soup c Hc)|].
      apply list_elem_of_singleton in Hp as ->. by apply wire_ok.
    + intros b t t' i Hb Hb' _. rewrite Hb in Hb'. injection Hb' as <-. reflexivity.
Qed.

Section actions.
Context (a : NodeId).

#[local] Abbreviation R := advances.
#[local] Abbreviation same := (fun c1 c2 (H : R c1 c2) => H).
#[local] Abbreviation yields := (yields R R).
#[local] Abbreviation safe := (safe R R).

(** The node is there and all is well. *)
Definition running (c : Cluster) : Prop := cluster_ok c /\ is_Some (services c !! a).

Lemma running_kept c c' : R c c' -> running c -> running c'.
Proof.
  intros Hr [Hc [s Hs]]. split; [by apply (av_ok _ _ Hr)|].
  destruct (av_up _ _ Hr a s Hs) as (s' & Hs' & _). by exists s'.
Qed.

Context (c : Cluster) (Hrun : running c).

Lemma yields_on {A} (f : MembershipService -> A * MembershipService) (P : A -> Prop) :
  (forall c1 s, R c c1 -> services c1 !! a = Some s -> service_ok s ->
     permitted a c1 s (f s).2 /\ P (f s).1) ->
  yields (atomic (on_service a f)) P c.
Proof.
  intros Hf. apply (yields_atomic R R same). intros c1 Hr.
  destruct (running_kept _ _ Hr Hrun) as [Hc1 [s Hs]].
  destruct (Hf c1 s Hr Hs) as [Hp HP]; [by apply (ok_services c1 Hc1 a s)|].
  split; [by apply (advances_on a f c1 s)|]. unfold on_service.
  rewrite (lookup_total_correct _ _ _ Hs). by destruct (f s).
Qed.

Lemma yields_look {A} (f : MembershipService -> A) (P : A -> Prop) :
  (forall s, service_ok s -> P (f s)) -> yields (atomic (look a f)) P c.
Proof.
  intros Hf. apply (yields_atomic R R same). intros c1 Hr. split; [reflexivity|].
  destruct (running_kept _ _ Hr Hrun) as [Hc1 [s Hs]]. unfold look, st_get. simpl.
  rewrite (lookup_total_correct _ _ _ Hs). apply Hf. by apply (ok_services c1 Hc1 a s).
Qed.

Lemma safe_send d : message_ok d.2 -> safe (atomic (send a d)) c.
Proof.
  intros Hd. apply (yields_atomic R R same). intros c1 Hr. split; [|done]. by apply (advances_send a d c1).
Qed.

Lemma yields_collect {X A} (f : X -> proc Cluster A) (P : A -> Prop) l :
  (forall x, x ∈ l -> yields (f x) P c) -> yields (collect f l) (Forall P) c.
Proof.
  induction l as [|x l IH]; intros Hf; [by apply yields_done|].
  eapply (yields_bind R R same); [apply Hf; left|]. intros r Hp.
  eapply (yields_bind R R same); [apply IH; intros y Hy; apply Hf; by right|]. intros rs Hrs.
  apply yields_done. by constructor.
Qed.

(** What is read from the table of a node has incarnation 1. *)
Lemma yields_snapshot : yields (snapshot a) (Forall (fun n => incarnation n = 1)) c.
Proof.
  eapply (yields_bind R R same); [by apply (yields_look keys (fun _ => True))|]. intros ks _.
  eapply (yields_bind R R same); [apply (yields_collect _ (fun o => forall n, o = Some n -> incarnation n = 1))|].
  - intros k _. apply yields_look. intros s Hs n. by apply (ok_members s Hs).
  - intros ns Hns. apply yields_done. apply Forall_forall. intros n (o & Ho & Heq)%list_elem_of_omap.
    rewrite Forall_forall in Hns. by apply (Hns o Ho).
Qed.

Lemma yields_identity : yields (atomic (look a identity)) (fun me => me.2 = 1) c.
Proof. apply yields_look. intros s Hs. apply (ok_counter s Hs). Qed.

Lemma safe_broadcast msg : message_ok msg -> safe (broadcast_message a msg) c.
Proof.
  intros Hm. eapply (yields_bind R R same); [by apply (yields_look keys (fun _ => True))|]. intros ks _.
  apply (safe_each R R same). intros k _.
  eapply (yields_bind R R same); [by apply (yields_look (recipient k) (fun _ => True))|].
  intros [to|] _; [by apply safe_send|by apply yields_done].
Qed.
End actions.

(** ** What the pieces of the handlers do to a table in order *)

Lemma permitted_message a c s msg src now :
  message_ok msg ->
  (forall n, msg = MJoin n -> join_sent a (id n) c) ->
  permitted a c s (Membership.handle_message msg src now s).1.
Proof.
  intros Hm Hj. split; [apply (apply_local (Recv msg src now))|]. intros Hs.
  split; [by apply handle_message_ok|]. intros i Hi. apply handle_message_worse; [done..|].
  intros n Hn Hid. apply Hi. rewrite <- Hid. by apply Hj.
Qed.

Lemma note_ack_eq from inc now s : (note_ack from inc now s).2 = Membership.handle_ack from inc [] now s.
Proof. unfold note_ack, Membership.handle_ack. destruct (members s !! from); [by case_decide|done]. Qed.

Lemma note_suspicion_eq i inc now s :
  (note_suspicion i inc now s).2 = (Membership.handle_suspect i inc now s).1.
Proof. unfold note_suspicion, Membership.handle_suspect. handler_cases; done. Qed.

Lemma note_suspicion_none i now s : service_ok s -> (note_suspicion i 1 now s).1 = None.
Proof.
  intros Hs. unfold note_suspicion. handler_cases; try done; pose proof (ok_members s Hs _ _ E); lia.
Qed.

Lemma permitted_merge a c s n now : incarnation n = 1 -> permitted a c s (merge_member n now s).
Proof.
  intros Hn. split; [apply merge_member_local|]. intros Hs. split; [by apply merge_member_ok|].
  intros i _. by apply merge_member_worse.
Qed.

Lemma examine_ok a c now k s : service_ok s ->
  permitted a c s (examine now k s).2 /\ forall m, (examine now k s).1 = Some m -> message_ok m.
Proof.
  intros Hs. unfold examine. destruct (members s !! k) as [m|] eqn:E; simpl.
  2: { split; [|done]. split; [done|]. intros _. split; [done|]. intros i _. reflexivity. }
  pose proof (wf_key s (ok_wf s Hs) k m E) as Hk. pose proof (ok_members s Hs k m E) as Hi.
  split; [|intros msg; by apply fd_message_ok]. split; [done|]. intros _. split.
  - apply service_ok_insert; [done|by rewrite fd_member_id| |by rewrite fd_member_incarnation|].
    + pose proof (wf_seen s (ok_wf s Hs) k m E) as Hseen. by rewrite fd_member_seen.
    + intros Hl. unfold fd_member. rewrite decide_True by congruence. subst k.
      rewrite Hl in E. by apply (self_state s m Hs).
  - intros i _. apply tracks_insert; [apply _|]. intros m' -> Hm'. rewrite E in Hm'. injection Hm' as <-.
    apply fd_member_worse.
Qed.

(** ** Handlers and loops *)
Section loops.
Context (a : NodeId).

#[local] Abbreviation R := advances.
#[local] Abbreviation same := (fun c1 c2 (H : R c1 c2) => H).
#[local] Abbreviation safe := (safe R R).
#[local] Abbreviation running := (running a).

Lemma safe_modify (g : MembershipService -> MembershipService) c :
  running c -> (forall c1 s, R c c1 -> services c1 !! a = Some s -> permitted a c1 s (g s)) ->
  safe (atomic (on_service a (fun s => (tt, g s)))) c.
Proof. intros Hr Hg. apply yields_on; [done|]. intros c1 s Hr1 Hs _. split; [by apply Hg|done]. Qed.

Lemma safe_handle_message msg src now c : running c -> message_ok msg ->
  (forall n, msg = MJoin n -> join_sent a (id n) c) ->
  safe (handle_message a msg src now) c.
Proof.
  intros Hr Hm Hj. destruct msg as [from inc|from inc view|node|i inc|i inc]; simpl in Hm; [..|done].
  - subst inc. apply (safe_bind R R same).
    { apply safe_modify; [done|]. intros c1 s _ _.
      by apply (permitted_message a c1 s (MPing from 1) src now). }
    intros _. eapply (yields_bind R R same); [by apply yields_snapshot|]. intros view Hview.
    eapply (yields_bind R R same); [by apply yields_identity|]. intros me Hme. by apply safe_send.
  - destruct Hm as [-> Hview]. apply (safe_bind R R same).
    { apply yields_on; [done|]. intros c1 s _ _ _. split; [|done]. rewrite note_ack_eq.
      by apply (permitted_message a c1 s (MAck from 1 []) src now). }
    intros []; [|by apply yields_done]. apply (safe_each R R same). intros n Hn.
    apply safe_modify; [done|]. intros c1 s _ _. apply permitted_merge.
    rewrite Forall_forall in Hview. by apply Hview.
  - apply safe_modify; [done|]. intros c1 s1 Hr1 Hs1.
    apply (permitted_message a c1 s1 (MJoin node) src now); [done|]. intros n [= <-].
    apply (join_sent_advances _ _ c); [done|apply Hr|by apply Hj].
  - subst inc. eapply (yields_bind R R same); [apply (yields_on a c Hr _ (fun r => r = None))|].
    + intros c1 s _ _ Hs. split; [|by apply note_suspicion_none]. rewrite note_suspicion_eq.
      by apply (permitted_message a c1 s (MSuspect i 1) src now).
    + intros r ->. by apply yields_done.
Qed.

Lemma safe_receive k now c : running c -> safe (receive a k now) c.
Proof.
  intros Hr. eapply (wp_then R R same) with (P := fun o c1 => forall p, o = Some p ->
    p ∈ soup c1 /\ sockets c1 !! a = Some (destination p)).
  - intros c1 Hr1. split; [reflexivity|]. apply (wp_done R R). intros c2 Hr2 p Hp. simpl in Hp.
    unfold arrived in Hp. destruct (soup c1 !! k) as [q|] eqn:Eq; [|done]. simpl in Hp.
    destruct (decide (sockets c1 !! a = Some (destination q))) as [Hd|]; [|done]. injection Hp as <-.
    rewrite (av_socket _ _ Hr2 a) by apply (running_kept a c c1 Hr1 Hr). split; [|done].
    destruct (av_soup _ _ Hr2) as [rest ->]. apply elem_of_app. left. by eapply list_elem_of_lookup_2.
  - intros [p|] c1 Hr1 Hp; [|by apply (wp_done R R)]. destruct (Hp p eq_refl) as (Hin & Hd).
    pose proof (running_kept a c c1 Hr1 Hr) as Hrun1. apply safe_handle_message; [done| |].
    + by apply (ok_soup c1 (proj1 Hrun1)).
    + intros n Hn. by exists p, n.
Qed.

Lemma safe_failure_detection now c : running c -> safe (failure_detection_tick a now) c.
Proof.
  intros Hr. eapply (yields_bind R R same); [by apply (yields_look a c Hr keys (fun _ => True))|]. intros ks _.
  eapply (yields_bind R R same).
  { apply (yields_collect c _ (fun o => forall m, o = Some m -> message_ok m)). intros k _.
    apply yields_on; [done|]. intros c1 s _ _ Hs. by apply examine_ok. }
  intros msgs Hmsgs. apply (safe_each R R same). intros msg (o & Ho & Heq)%list_elem_of_omap.
  apply safe_broadcast; [done|]. rewrite Forall_forall in Hmsgs. by apply (Hmsgs o Ho).
Qed.

Lemma safe_gossip idx c : running c -> safe (gossip_tick a idx) c.
Proof.
  intros Hr. eapply (yields_bind R R same); [by apply yields_snapshot|]. intros view _.
  eapply (yields_bind R R same); [by apply yields_identity|]. intros me Hme.
  destruct (filter _ view !! idx); [by apply safe_send|by apply yields_done].
Qed.
End loops.

(** A node starts under an id that nobody has, and nothing else changes. *)
Lemma launch_ok l c : cluster_ok c -> advances c (launch l c).2 /\
  ((launch l c).1 = true -> running (node_id l) (launch l c).2).
Proof.
  intros Hc. destruct (new_ok (bind_addr l) (seed_nodes l) (node_id l) (born l)) as [Hs _].
  unfold launch. destruct (services c !! node_id l) as [s|] eqn:Es; simpl; [by split|].
  destruct (binds (bind_addr l) (real_addr l)); simpl; [|by split].
  assert (forall b t, services c !! b = Some t -> node_id l <> b) as Hne by (intros b t Hb Heq; congruence).
  match goal with |- advances _ ?c1 /\ _ => assert (cluster_ok c1) as Hok end.
  { split; simpl; [|apply (ok_soup c Hc)].
    intros b t [[<- <-]|[_ Hb]]%lookup_insert_Some; [done|by apply (ok_services c Hc)]. }
  split.
  - split; simpl; [done| | |].
    + intros b t Hb. exists t. rewrite lookup_insert_ne by eauto. done.
    + intros b [t Hb]. by rewrite lookup_insert_ne by eauto.
    + intros _. split; [done|]. intros b t t' i Hb Hb' _. rewrite lookup_insert_ne in Hb' by eauto.
      rewrite Hb in Hb'. injection Hb' as <-. reflexivity.
  - intros _. split; [done|]. eexists. apply lookup_insert_eq.
Qed.

Lemma safe_live l c : cluster_ok c -> safe advances advances (live l) c.
Proof.
  intros Hc. destruct (new_ok (bind_addr l) (seed_nodes l) (node_id l) (born l)) as [_ Hout].
  eapply (wp_then advances advances ltac:(done)) with (P := fun ok c1 => ok = true -> running (node_id l) c1).
  - intros c1 Hr1. destruct (av_ok _ _ Hr1 Hc) as [Hc1 _]. destruct (launch_ok l c1 Hc1) as [Hadv Hrun].
    split; [done|]. intros c2 Hr2 Heq. apply (running_kept _ _ _ Hr2), Hrun, Heq.
  - intros [] c1 Hr1 Hrun; [|by apply (wp_done advances advances)]. specialize (Hrun eq_refl).
    apply (safe_bind advances advances ltac:(done)).
    { apply (safe_each advances advances ltac:(done)). intros d Hd. apply safe_send.
      rewrite Forall_forall in Hout. by apply Hout. }
    intros _. apply (yields_fork advances advances).
    { apply (safe_each advances advances ltac:(done)). intros idx _. by apply safe_gossip. }
    apply (yields_fork advances advances); apply (safe_each advances advances ltac:(done)).
    + intros r _. by apply safe_receive.
    + intros t _. by apply safe_failure_detection.
Qed.

(** ** All interleavings *)

Lemma nodes_all_wp ls : all_wp advances 0 (fun _ _ _ => True) (nodes_of ls).
Proof.
  split; [simpl; lia|]. intros i p Hp. apply list_lookup_fmap_Some in Hp as (l & -> & Hl).
  apply (safe_bind advances advances ltac:(done)); [apply safe_live, empty_ok|].
  intros u. by apply yields_done.
Qed.

Lemma nodes_sound ls c c' : rtc pool_step (nodes_of ls) c -> rtc pool_step c c' ->
  cluster_ok c.2 /\ advances c.2 c'.2.
Proof.
  intros H1 H2. destruct (all_wp_steps advances 0 (fun _ _ _ => True) (fun _ _ => eq_refl) _ c
    (nodes_all_wp ls) H1) as [Hr Hall].
  split; [by apply (av_ok _ _ Hr), empty_ok|].
  by apply (all_wp_steps advances 0 (fun _ _ _ => True) (fun _ _ => eq_refl) c c').
Qed.

(** C33: incarnation numbers are inert, under concurrency.  However the loops of any number of nodes
    are interleaved, entry by entry and datagram by datagram, and whatever the network loses,
    duplicates or delays, every counter and every record stays at incarnation 1, and no [Alive] is
    ever sent. *)
Theorem incarnations_stay ls c a s :
  rtc pool_step (nodes_of ls) c ->
  (services c.2 !! a = Some s -> my_incarnation s = 1 /\ id (local_node s) = a /\
     (exists n, members s !! a = Some n /\ state n = Alive) /\
     forall i n, members s !! i = Some n -> incarnation n = 1) /\
  (forall p, p ∈ soup c.2 ->
    (forall i inc, payload p <> MAlive i inc) /\ (forall i inc, payload p = MSuspect i inc -> inc = 1)).
Proof.
  intros Hrtc. destruct (nodes_sound ls c c Hrtc (rtc_refl _ _)) as [[Hs Hp] _]. split.
  - intros Ha. destruct (Hs a s Ha) as [Hok Hid]. split_and!; [apply (ok_counter s Hok)|done| |apply (ok_members s Hok)].
    rewrite <- Hid. apply (ok_self s Hok).
  - intros p Hin. apply Hp in Hin. split; intros i inc Heq; by rewrite Heq in Hin.
Qed.

(** C16: a suspicion is never taken back, under concurrency.  From any moment of such a run to any
    later one: what [a] has as [Suspect] or [Dead] does not become [Alive] again, and [Dead] stays
    [Dead], unless a [Join] of the member reaches [a]; pings, acks and the views of others do not
    help. *)
Theorem suspicions_stand ls c c' a s i n :
  rtc pool_step (nodes_of ls) c -> rtc pool_step c c' ->
  services c.2 !! a = Some s -> members s !! i = Some n -> state n <> Alive ->
  ~ join_sent a i c'.2 ->
  exists s' n', services c'.2 !! a = Some s' /\ members s' !! i = Some n' /\
    state n' <> Alive /\ (state n = Dead -> state n' = Dead).
Proof.
  intros H1 H2 Hs Hn Hst Hj. destruct (nodes_sound ls c c' H1 H2) as [Hc Hr].
  destruct (av_up _ _ Hr a s Hs) as (s' & Hs' & _).
  destruct (av_ok _ _ Hr Hc) as [_ Ht]. destruct (Ht a s s' i Hs Hs' Hj) as [_ Htr].
  destruct (Htr n Hn) as (n' & Hn' & Hw & Hd). exists s', n'. auto.
Qed.

(** ** A schedule

    [a] joins through [b], which is the founder and pings [a] twice; between the pings the detector
    of [a] finds that it has not heard of [b] for eight seconds. *)
Module Example.
Definition addr (p : Z) : SocketAddr := mkAddr "10.0.0.1" p.
Definition a : NodeId := mkId "a".
Definition b : NodeId := mkId "b".

Definition lives : list Life :=
  [mkLife (addr 5000) (addr 5000) [] b 0 [(0%nat, 1)] [] [0%nat; 0%nat];
   mkLife (addr 5001) (addr 5001) [addr 5000] a 0 [(1%nat, 2); (3%nat, secs 9)] [secs 8] []].

(** The loops are processes 2 (pings of [b]), 3 (receptions of [b]), 5 (receptions of [a]) and 1
    (detector of [a]).  The second ping is received while the detector is going over the entries. *)
Definition until_suspicion : list nat :=
  repeat 0%nat 3 ++ repeat 1%nat 4 ++ repeat 3%nat 2 ++ repeat 2%nat 5 ++ repeat 5%nat 7 ++
  repeat 2%nat 5 ++ [1%nat; 5%nat; 1%nat; 1%nat].
Definition afterwards : list nat := repeat 5%nat 7 ++ repeat 1%nat 10.

Definition suspected : pool Cluster unit := schedule until_suspicion (nodes_of lives).
Definition in_the_end : pool Cluster unit := schedule afterwards suspected.

(** What [a] thinks of [b]. *)
Definition opinion (c : pool Cluster unit) : option NodeState :=
  s ← services c.2 !! a; n ← members s !! b; Some (state n).

Lemma opinion_inv c x : opinion c = Some x ->
  exists s n, services c.2 !! a = Some s /\ members s !! b = Some n /\ state n = x.
Proof.
  unfold opinion. destruct (services c.2 !! a) as [s|]; [|done]. simpl.
  destruct (members s !! b) as [n|] eqn:E; [|done]. intros [= <-]. eauto.
Qed.

(** Nobody has sent a [Join] of [b]: it has no seeds. *)
Lemma no_join_of_b ad : ~ join_sent ad b in_the_end.2.
Proof.
  intros (p & n & Hp & _ & Hn & Hid).
  assert (Forall (fun p => forall n, payload p = MJoin n -> id n <> b) (soup in_the_end.2)) as Hall.
  { vm_compute. repeat constructor; intros m; try discriminate; intros [= <-]; discriminate. }
  rewrite Forall_forall in Hall. by apply (Hall p Hp n Hn).
Qed.

(** [a] has received a ping of [b] in between. *)
Lemma suspicions_stand_witness :
  opinion suspected = Some Suspect /\
  exists s' n', services in_the_end.2 !! a = Some s' /\ members s' !! b = Some n' /\ state n' <> Alive.
Proof.
  assert (opinion suspected = Some Suspect) as Hop by (vm_compute; reflexivity).
  split; [exact Hop|]. destruct (opinion_inv _ _ Hop) as (s & n & Hs & Hn & Hst).
  destruct (suspicions_stand lives suspected in_the_end a s b n (schedule_steps _ _) (schedule_steps _ _)
    Hs Hn) as (s' & n' & Hs' & Hn' & Hst' & _).
  - rewrite Hst. discriminate.
  - apply no_join_of_b.
  - exists s', n'. split_and!; assumption.
Defined.

Lemma incarnations_stay_witness :
  exists s, services in_the_end.2 !! a = Some s /\ my_incarnation s = 1.
Proof.
  assert (opinion in_the_end = Some Suspect) as Hop by (vm_compute; reflexivity).
  destruct (opinion_inv _ _ Hop) as (s & n & Hs & _). exists s. split; [exact Hs|].
  destruct (incarnations_stay lives in_the_end a s) as [Hok _].
  - unfold in_the_end, suspected. etrans; apply schedule_steps.
  - destruct (Hok Hs) as [Hone _]. exact Hone.
Defined.
End Example.
