(* ===== verification/NetSteps.v ===== *)
(** * Requests between nodes, action by action

    The exchange of Net.v as a process.  The handler runs as part of the process that awaits the
    reply; a client that gives up leaves the handler behind as a task of its own, which may be
    anywhere in its work while the client already tries again. *)

From S2P Require Import Prelude Membership Partitioner Net Topology Process.

#[local] Open Scope Z_scope.
#[local] Open Scope proc_scope.

Section net.
Context {S : Type}.

Definition http_send {Resp : Type} (dest : SocketAddr) (serve : proc (World S) Resp)
    : proc (World S) (result Resp) :=
  fate <~ atomic next_fate ;;
  up <~ atomic (st_get (fun w => bool_decide (is_Some (nodes w !! dest)))) ;;
  match fate, up with
  | Unreachable, _ | _, false => Done (Err "connection failed")
  | Delivered, true => r <~ serve ;; Done (Ok r)
  | ReplyLost, true => Fork (serve ;;~ Done tt) (Done (Err "timed out"))
  end.

Fixpoint retry_loop {Resp : Type} (send : proc (World S) (result Resp)) (remaining : nat)
    (delay_ms : Z) : proc (World S) (result Resp) :=
  match remaining with
  | O => Done (Err "Retry attempts exhausted")
  | Datatypes.S remaining' =>
      response <~ send ;;
      match response with
      | Ok resp => Done (Ok resp)
      | Err e =>
          if decide (remaining' = O) then Done (Err e) else
          jitter <~ atomic random_u64 ;;
          atomic (sleep (delay_ms + jitter mod 50)) ;;~
          retry_loop send remaining' (Z.min (delay_ms * 2) 1200)
      end
  end.

Definition post_with_retry {Resp : Type} (dest : SocketAddr) (serve : proc (World S) Resp)
    (attempts : nat) : proc (World S) (result Resp) :=
  retry_loop (http_send dest serve) attempts 150.

Definition get_with_retry {Resp : Type} (dest : SocketAddr) (serve : proc (World S) Resp)
    (attempts : nat) : proc (World S) (result Resp) :=
  retry_loop (http_send dest serve) attempts 150.

(** ** Without interruption: the exchange of Net.v *)

Lemma run_http_send {Resp : Type} dest (serve : proc (World S) Resp) serve' w :
  (forall w1, run serve w1 = serve' w1) ->
  run (http_send dest serve) w = Net.http_send dest serve' w.
Proof.
  intros Hs. apply run_bind_eq; [apply run_atomic|]. intros fate w1.
  apply run_bind_eq; [apply run_atomic|]. intros up w2.
  destruct fate, up; simpl; try done.
  - apply run_bind_eq; [done|]. done.
  - rewrite run_bind. unfold st_bind. rewrite Hs. by destruct (serve' w2).
Qed.

Lemma run_retry_loop {Resp : Type} (send : proc (World S) (result Resp)) send' n d w :
  (forall w1, run send w1 = send' w1) ->
  run (retry_loop send n d) w = Net.retry_loop send' n d w.
Proof.
  intros Hs. revert d w. induction n as [|n IH]; intros d w; simpl; [done|].
  apply run_bind_eq; [done|]. intros [r|e] w1; [done|].
  case_decide; [done|].
  apply (run_bind_eq (atomic random_u64) random_u64); [apply run_atomic|]. intros j w2.
  apply (run_bind_eq (atomic (sleep _)) (sleep _)); [apply run_atomic|]. intros _ w3. apply IH.
Qed.

Lemma run_post_with_retry {Resp : Type} dest (serve : proc (World S) Resp) serve' n w :
  (forall w1, run serve w1 = serve' w1) ->
  run (post_with_retry dest serve n) w = Net.post_with_retry dest serve' n w.
Proof. intros Hs. apply run_retry_loop. intros w1. by apply run_http_send. Qed.

Lemma run_get_with_retry {Resp : Type} dest (serve : proc (World S) Resp) serve' n w :
  (forall w1, run serve w1 = serve' w1) ->
  run (get_with_retry dest serve n) w = Net.get_with_retry dest serve' n w.
Proof. apply run_post_with_retry. Qed.

(** ** Interleaved *)

(** What the network and the clock do: no node changes, and UUIDs are only used up. *)
Definition env_step (w w' : World S) : Prop :=
  same_nodes w w' /\ uuids (env w') `suffix_of` uuids (env w).

Lemma next_fate_env w : env_step w (next_fate w).2.
Proof. unfold next_fate, env_step, same_nodes. destruct (fates (env w)); split; reflexivity. Qed.
Lemma random_env w : env_step w (random_u64 w).2.
Proof. unfold random_u64, env_step, same_nodes. destruct (rng (env w)); split; reflexivity. Qed.
Lemma sleep_env ms w : env_step w (sleep ms w).2.
Proof. split; reflexivity. Qed.
Lemma new_v4_env w : env_step w (new_v4 w).2.
Proof.
  unfold new_v4, env_step, same_nodes. destruct (uuids (env w)) eqn:E; simpl; (split; [done|]); simpl; rewrite ?E; [done|].
  by apply suffix_cons_r.
Qed.
Lemma id_env w : env_step w w.
Proof. split; reflexivity. Qed.
#[local] Hint Resolve next_fate_env random_env sleep_env new_v4_env id_env : core.

Section rules.
Context (R G : relation (World S)) `{!PreOrder R} (w : World S).
Hypothesis HG : forall w1 w2, G w1 w2 -> R w1 w2.

(** What the network and the clock do is within [G], and no server appears. *)
Hypothesis Henv : forall w1 w2, env_step w1 w2 -> G w1 w2.
Hypothesis Hup : forall w1 dest, R w w1 -> is_Some (nodes w1 !! dest) -> is_Some (nodes w !! dest).

#[local] Notation yields := (yields R G).

Lemma yields_env {A : Type} (f : ST (World S) A) :
  (forall w1, env_step w1 (f w1).2) -> yields (atomic f) (fun _ => True) w.
Proof. intros Hf. apply (yields_atomic R G HG). intros w1 Hr. split; [auto|done]. Qed.

Lemma yields_http_send {Resp : Type} dest (serve : proc (World S) Resp) P :
  (is_Some (nodes w !! dest) -> yields serve P w) ->
  yields (http_send dest serve) (if_ok P) w.
Proof.
  intros Hs. eapply (yields_bind R G HG); [apply yields_env, next_fate_env|]. intros fate _.
  eapply (yields_bind R G HG _ _ (fun up => up = true -> is_Some (nodes w !! dest))).
  - apply (yields_atomic R G HG). intros w1 Hr. split; [apply Henv, id_env|].
    intros Hb%bool_decide_eq_true. by apply (Hup w1).
  - intros [] Hd; [specialize (Hs (Hd eq_refl))|]; destruct fate; try by apply yields_done.
    + eapply (yields_bind R G HG); [exact Hs|]. intros r HP. apply yields_done. by intros ? [= <-].
    + apply (yields_fork R G); [|by apply yields_done]. apply (safe_bind R G HG).
      * by apply (yields_safe R G HG _ P).
      * intros _. by apply yields_done.
Qed.

Lemma yields_retry_loop {Resp : Type} (send : proc (World S) (result Resp)) P n d :
  yields send (if_ok P) w -> yields (retry_loop send n d) (if_ok P) w.
Proof.
  intros Hs. revert d. induction n as [|n IH]; intros d; cbn [retry_loop]; [by apply yields_done|].
  eapply (yields_bind R G HG); [exact Hs|]. intros [r|e] HP; [by apply yields_done|].
  case_decide; [by apply yields_done|].
  eapply (yields_bind R G HG); [apply yields_env, random_env|]. intros j _.
  eapply (yields_bind R G HG); [apply yields_env, sleep_env|]. intros _ _. apply IH.
Qed.

(** A retried request: what the handler answers, if it can be reached. *)
Lemma yields_post {Resp : Type} dest (serve : proc (World S) Resp) P n :
  (is_Some (nodes w !! dest) -> yields serve P w) ->
  yields (post_with_retry dest serve n) (if_ok P) w.
Proof. intros Hs. by apply yields_retry_loop, yields_http_send. Qed.
End rules.

(** The same for what a handler leaves behind in the state, if the others keep it. *)
Section state.
Context (R : relation (World S)) `{!PreOrder R} (w : World S).
Hypothesis Henv : forall w1 w2, env_step w1 w2 -> R w1 w2.
Hypothesis Hup : forall w1 dest, R w w1 -> is_Some (nodes w1 !! dest) -> is_Some (nodes w !! dest).

#[local] Abbreviation wp := (wp R R).

Lemma wp_http_send {Resp : Type} dest (serve : proc (World S) Resp) (P : Resp -> World S -> Prop) :
  (forall r, kept R (P r)) -> (is_Some (nodes w !! dest) -> wp serve P w) ->
  wp (http_send dest serve) (fun r w' => if_ok (fun a => P a w') r) w.
Proof.
  intros Hk Hs.
  eapply (wp_then R R ltac:(done)); [apply (yields_env R R w ltac:(done) Henv), next_fate_env|].
  intros fate w1 Hr1 _.
  eapply (wp_then R R ltac:(done) _ _ (fun up _ => up = true -> is_Some (nodes w !! dest))).
  - apply (yields_atomic R R ltac:(done)). intros w2 Hr2. split; [reflexivity|].
    intros Hb%bool_decide_eq_true. by apply (Hup w2); [etrans|].
  - intros up w2 Hr2 Hd. assert (R w w2) as Hr by (by etrans).
    destruct fate, up; try (apply (wp_done R R); intros w3 _ a; done).
    + eapply (wp_then R R ltac:(done)); [eapply (wp_interfere R R); [exact Hr|by apply Hs, Hd]|].
      intros r w3 _ HP. apply (wp_done R R). intros w4 Hr4 a [= <-]. by apply (Hk r w3 w4).
    + intros w3 Hr3. split; [|by apply (wp_done R R)].
      eapply (wp_then R R ltac:(done)); [eapply (wp_interfere R R); [|by apply Hs, Hd]; by etrans|].
      intros r w4 _ _. by apply (wp_done R R).
Qed.

Lemma wp_post {Resp : Type} dest (serve : proc (World S) Resp) (P : Resp -> World S -> Prop) n :
  (forall r, kept R (P r)) -> (is_Some (nodes w !! dest) -> wp serve P w) ->
  wp (post_with_retry dest serve n) (fun r w' => if_ok (fun a => P a w') r) w.
Proof.
  intros Hk Hs. unfold post_with_retry. pose proof (wp_http_send dest serve P Hk Hs) as Hsend.
  assert (forall w1 d, R w w1 ->
    wp (retry_loop (http_send dest serve) n d) (fun r w' => if_ok (fun a => P a w') r) w1) as Hl;
    [|apply Hl; reflexivity].
  induction n as [|n IH]; intros w1 d Hr; cbn [retry_loop].
  { apply (wp_done R R). by intros w2 _ a. }
  eapply (wp_then R R ltac:(done)); [eapply (wp_interfere R R); [exact Hr|exact Hsend]|].
  intros [r|e] w2 Hr2 HP.
  { apply (wp_done R R). intros w3 Hr3 a [= <-]. apply (Hk r w2 w3 Hr3). by apply HP. }
  case_decide; [apply (wp_done R R); by intros w3 _ a|].
  eapply (wp_then R R ltac:(done)); [apply (yields_env R R w2 ltac:(done) Henv), random_env|].
  intros j w3 Hr3 _.
  eapply (wp_then R R ltac:(done)); [apply (yields_env R R w3 ltac:(done) Henv), sleep_env|].
  intros _ w4 Hr4 _. apply IH. do 3 (etrans; [done|]). done.
Qed.
End state.

Section event.
Context (R N L : relation (World S)) (F : World S -> Prop).
Context `{!PreOrder R, !PreOrder N, !PreOrder L}.
Hypothesis HNR : forall w w', N w w' -> R w w'.
Hypothesis HLN : forall w w', L w w' -> N w w'.
Hypothesis HF : forall w w', R w w' -> F w -> F w'.
Hypothesis Henv : forall w1 w2, env_step w1 w2 -> L w1 w2.

Section one.
Context (X Y : relation (World S)) `{!PreOrder X} (w : World S).
Hypothesis HX : forall w w', X w w' -> N w w'.
Hypothesis HLY : forall w w', L w w' -> Y w w'.
Hypothesis HY : forall w w', Y w w' -> N w w'.

#[local] Notation until := (until R N L F X Y).

Lemma until_env {A : Type} (f : ST (World S) A) :
  (forall w1, env_step w1 (f w1).2) -> until (atomic f) (fun _ => True) w.
Proof.
  intros Hf. apply (yields_until R N L F); [done..|]. apply (yields_env R L w); auto.
Qed.

(** A request whose handler cannot end before the event is never answered before it. *)
Lemma until_post {Resp : Type} dest (serve : proc (World S) Resp) n :
  until serve (fun _ => False) w -> Process.until R N L F N L serve (fun _ => False) w ->
  until (post_with_retry dest serve n) (fun r => is_ok r = false) w.
Proof.
  intros Hs Hs'. unfold post_with_retry.
  assert (until (http_send dest serve) (fun r => is_ok r = false) w) as Hsend.
  { eapply (until_bind R N L F HF X Y HX HY); [apply until_env, next_fate_env|]. intros fate _.
    eapply (until_bind R N L F HF X Y HX HY); [apply (until_env (st_get _)); intros; apply id_env|].
    intros up _. destruct fate, up; try by apply until_done.
    + eapply (until_bind R N L F HF X Y HX HY); [exact Hs|]. by intros r [].
    + apply (until_fork R N L F); [done| |by apply until_done].
      eapply (until_bind R N L F HF N L); [done|done|exact Hs'|]. by intros r []. }
  generalize 150. induction n as [|n IH]; intros d; cbn [retry_loop]; [by apply until_done|].
  eapply (until_bind R N L F HF X Y HX HY); [exact Hsend|]. intros [r|e] HP; [done|].
  case_decide; [by apply until_done|].
  eapply (until_bind R N L F HF X Y HX HY); [apply until_env, random_env|]. intros j _.
  eapply (until_bind R N L F HF X Y HX HY); [apply until_env, sleep_env|]. intros _ _. apply IH.
Qed.
End one.
End event.
End net.

#[export] Hint Resolve next_fate_env random_env sleep_env new_v4_env id_env : core.
