(* ===== verification/Storage.v ===== *)
(** * The local side of DistributedMap: src/storage/memory.rs and src/storage/protocol.rs

    One node's shard of a distributed map and the operations that touch only that shard.  The
    type parameters of the source are Rocq parameters; their trait bounds are the classes
    [RustKey] and [Serde]. *)

From S2P Require Import Prelude Membership Partitioner.
From Stdlib Require Import Ascii.

#[local] Open Scope Z_scope.

(** ** Trait bounds *)

(** [K: ToString + FromStr]. *)
Class RustKey (K : Type) := {
  key_to_string : K -> string;
  key_from_str : string -> result K;
}.

(** Keys are read back from the string they are sent as. *)
Class RustKeyLaws (K : Type) `{RustKey K} : Prop :=
  key_roundtrip : forall k, key_from_str (key_to_string k) = Ok k.

(** [V: Serialize + DeserializeOwned], through serde_json. *)
Class Serde (V : Type) := {
  to_json : V -> result string;
  from_json : string -> result V;
}.

(** Values are read back from the JSON they are sent as. *)
Class SerdeLaws (V : Type) `{Serde V} : Prop :=
  serde_roundtrip : forall v, exists j, to_json v = Ok j /\ from_json j = Ok v.

(** [String]: the key type of every map the program creates. *)
#[export] Instance string_key : RustKey string :=
  { key_to_string s := s; key_from_str s := Ok s }.
#[export] Instance string_key_laws : RustKeyLaws string.
Proof. by intros k. Qed.

(** A lawful encoding of every countable type, with which the classes can be instantiated. *)
Fixpoint bits (p : positive) : string :=
  match p with
  | xH => ""
  | xO p' => String "0" (bits p')
  | xI p' => String "1" (bits p')
  end.
Fixpoint unbits (s : string) : positive :=
  match s with
  | EmptyString => xH
  | String a s' => if Ascii.eqb a "1" then xI (unbits s') else xO (unbits s')
  end.
Lemma unbits_bits p : unbits (bits p) = p.
Proof. induction p as [p IH|p IH|]; simpl; congruence. Qed.

Definition countable_serde (V : Type) `{Countable V} : Serde V :=
  {| to_json v := Ok (bits (encode v));
     from_json j := ok_or (decode (unbits j)) "invalid JSON" |}.
Lemma countable_serde_laws V `{Countable V} : @SerdeLaws V (countable_serde V).
Proof.
  intros v. eexists. split; [done|]. simpl. by rewrite unbits_bits, decode_encode.
Qed.

(** ** Strings *)

(** [str::trim_end_matches] for one character. *)
Fixpoint trim_end_matches (c : ascii) (s : string) : string :=
  match s with
  | EmptyString => EmptyString
  | String a s' =>
      match trim_end_matches c s' with
      | EmptyString => if Ascii.eqb a c then EmptyString else String a EmptyString
      | r => String a r
      end
  end.

Definition starts_with_char (c : ascii) (s : string) : bool :=
  match s with String a _ => Ascii.eqb a c | EmptyString => false end.

(** ** src/storage/protocol.rs *)

Record ReplicateRequest := mkReplicate {
  rr_partition : Z; rr_op_id : string; rr_key : string; rr_value_json : string }.
Record ForwardPutRequest := mkForwardPut {
  fp_partition : Z; fp_op_id : string; fp_key : string; fp_value_json : string }.
Record PutRequest := mkPut { pr_op_id : string; pr_key : string; pr_value_json : string }.
Record GetResponse := mkGetResponse { value_json : option string }.
Record PutResponse := mkPutResponse { success : bool }.
Record KeyValueJson := mkKeyValue { kv_key : string; kv_value_json : string }.
Record PartitionDumpResponse := mkDump { pd_partition : Z; pd_entries : list KeyValueJson }.

(** ** src/storage/memory.rs *)

(** The membership service is reached through the partitioner, which shares it. *)
Record DistributedMap (K V : Type) `{Countable K} := mkMap {
  local_data : gmap Z (gmap K V);
  processed_ops : gmap string Z;
  partitioner : PartitionManager;
  base_path : string;
}.
Arguments mkMap {K V _ _}.
Arguments local_data {K V _ _}.
Arguments processed_ops {K V _ _}.
Arguments partitioner {K V _ _}.
Arguments base_path {K V _ _}.

Definition clean_base_path (base : string) : string :=
  let cleaned := trim_end_matches "/" base in
  match cleaned with
  | EmptyString => EmptyString
  | _ => if starts_with_char "/" cleaned then cleaned else String "/" cleaned
  end.

Section local.
Context {K V : Type} `{Countable K, RustKey K}.
Implicit Types m : DistributedMap K V.

Definition new_with_base (pm : PartitionManager) (base : string) : DistributedMap K V :=
  mkMap ∅ ∅ pm (clean_base_path base).

(** [DistributedMap::new]. *)
Definition map_new (pm : PartitionManager) : DistributedMap K V := new_with_base pm "".

Definition local_id m : NodeId := id (local_node (membership (partitioner m))).

Definition set_data (d : gmap Z (gmap K V)) m : DistributedMap K V :=
  mkMap d (processed_ops m) (partitioner m) (base_path m).
Definition set_ops (ops : gmap string Z) m : DistributedMap K V :=
  mkMap (local_data m) ops (partitioner m) (base_path m).

(** [should_process], at time [now]: the verdict and the map after it. *)
Definition should_process (op_id : string) (now : Z) m : bool * DistributedMap K V :=
  if decide (is_Some (processed_ops m !! op_id)) then (false, m) else
  let ops := if bool_decide (10000 < Z.of_nat (size (processed_ops m)))
             then ∅ else processed_ops m in
  (true, set_ops (<[op_id := now]> ops) m).

(** [store_local]. *)
Definition store_local (partition : Z) (key : K) (value : V) m : DistributedMap K V :=
  let partition_map := default ∅ (local_data m !! partition) in
  set_data (<[partition := <[key := value]> partition_map]> (local_data m)) m.

(** [dump_partition], in the iteration order of the map. *)
Definition dump_partition (partition : Z) m : list (K * V) :=
  match local_data m !! partition with
  | Some partition_map => map_to_list partition_map
  | None => []
  end.

(** [has_partition]. *)
Definition has_partition (partition : Z) m : bool :=
  match local_data m !! partition with
  | Some partition_map => bool_decide (partition_map <> ∅)
  | None => false
  end.

(** [apply_partition_entries]. *)
Definition apply_partition_entries (partition : Z) (entries : list (K * V)) m
    : DistributedMap K V :=
  foldl (fun m e => store_local partition e.1 e.2 m) m entries.

(** Statistics. *)
Definition local_partition_count m : nat := size (local_data m).
Definition local_entry_count m : nat :=
  sum_list ((fun e => size e.2) <$> map_to_list (local_data m)).

(** [store_replica]. *)
Definition store_replica (partition : Z) (op_id : string) (key : K) (value : V) (now : Z) m
    : result unit * DistributedMap K V :=
  let '(fresh, m) := should_process op_id now m in
  if fresh then (Ok tt, store_local partition key value m) else (Ok tt, m).

(** What the shard holds for a key of a partition. *)
Definition lookup_in (partition : Z) (key : K) m : option V :=
  partition_map ← local_data m !! partition; partition_map !! key.

(** [get_local]. *)
Definition get_local (key : K) m : option V :=
  lookup_in (get_partition (partitioner m) (key_to_string key)) key m.

(** ** Lemmas *)

Lemma lookup_in_store p k v m p' k' :
  lookup_in p' k' (store_local p k v m) =
    if decide (p' = p /\ k' = k) then Some v else lookup_in p' k' m.
Proof.
  unfold lookup_in, store_local. simpl. destruct (decide (p' = p)) as [->|Hp].
  - rewrite lookup_insert_eq. simpl. destruct (decide (k' = k)) as [->|Hk].
    + by rewrite lookup_insert_eq, decide_True.
    + rewrite lookup_insert_ne, decide_False by naive_solver.
      by destruct (local_data m !! p).
  - by rewrite lookup_insert_ne, decide_False by naive_solver.
Qed.

Lemma lookup_in_store_eq p k v m : lookup_in p k (store_local p k v m) = Some v.
Proof. by rewrite lookup_in_store, decide_True. Qed.

Lemma lookup_in_dump p k v m : lookup_in p k m = Some v <-> (k, v) ∈ dump_partition p m.
Proof.
  unfold lookup_in, dump_partition. destruct (local_data m !! p) as [pm|]; simpl.
  - by rewrite elem_of_map_to_list.
  - split; [done|by intros ?%elem_of_nil].
Qed.

Lemma dump_partition_NoDup p m : NoDup (dump_partition p m).*1.
Proof.
  unfold dump_partition. destruct (local_data m !! p); [apply NoDup_fst_map_to_list|].
  apply NoDup_nil_2.
Qed.

(** Applying a list of entries overlays it on the partition, the last entry of a key winning. *)
Lemma lookup_in_apply p entries m p' k :
  NoDup entries.*1 ->
  lookup_in p' k (apply_partition_entries p entries m) =
    if decide (p' = p)
    then match (list_to_map entries : gmap K V) !! k with
         | Some v => Some v | None => lookup_in p' k m end
    else lookup_in p' k m.
Proof.
  revert m. induction entries as [|[k0 v0] entries IH]; intros m Hnd; simpl.
  { rewrite lookup_empty. by case_decide. }
  apply NoDup_cons in Hnd as [Hk0 Hnd]. unfold apply_partition_entries in *. simpl.
  rewrite (IH _ Hnd), lookup_in_store. simpl. destruct (decide (p' = p)) as [->|Hp].
  - destruct (decide (k = k0)) as [->|Hk].
    + rewrite lookup_insert_eq, decide_True by done.
      by rewrite (not_elem_of_list_to_map_1 _ _ Hk0).
    + rewrite lookup_insert_ne, decide_False by naive_solver. done.
  - by rewrite decide_False by naive_solver.
Qed.

Lemma should_process_data op now m :
  local_data (should_process op now m).2 = local_data m /\
  partitioner (should_process op now m).2 = partitioner m /\
  base_path (should_process op now m).2 = base_path m.
Proof. unfold should_process. by case_decide. Qed.

Lemma should_process_fresh op now m :
  (should_process op now m).1 = bool_decide (processed_ops m !! op = None).
Proof.
  unfold should_process. case_decide as Hd; simpl; symmetry.
  - apply bool_decide_eq_false. by destruct Hd as [x ->].
  - apply bool_decide_eq_true. by apply eq_None_not_Some.
Qed.

Lemma should_process_recorded op now m :
  is_Some (processed_ops (should_process op now m).2 !! op).
Proof.
  unfold should_process. case_decide; [done|]. simpl. rewrite lookup_insert_eq. eauto.
Qed.

(** Other operation ids: remembered, or all forgotten at once when the table was full. *)
Lemma should_process_other op op' now m :
  op' <> op ->
  processed_ops (should_process op now m).2 !! op' = processed_ops m !! op' \/
  processed_ops (should_process op now m).2 !! op' = None.
Proof.
  intros Hne. unfold should_process. case_decide; [by left|]. simpl.
  rewrite lookup_insert_ne by done. case_bool_decide; [right|by left]. apply lookup_empty.
Qed.

(** The table never exceeds 10001 entries once it is within that bound. *)
Lemma should_process_bounded op now m :
  Z.of_nat (size (processed_ops m)) <= 10001 ->
  Z.of_nat (size (processed_ops (should_process op now m).2)) <= 10001.
Proof.
  intros Hb. unfold should_process. case_decide as Hd; [done|]. simpl.
  case_bool_decide as Hfull.
  - rewrite map_size_insert_None by apply lookup_empty. rewrite map_size_empty. lia.
  - rewrite map_size_insert_None by (by apply eq_None_not_Some). lia.
Qed.
End local.
