(* ===== verification/StorageNet.v ===== *)
(** * DistributedMap across the cluster: src/storage/memory.rs and src/storage/handlers.rs

    The operations that talk to other nodes and the HTTP handlers that serve them, over one shard per
    node.  A handler runs at the address it is sent to.  The lemmas describe every operation under
    an arbitrary network and under one without faults.  The properties: durability, availability
    and confinement of writes, and three ways in which a write goes wrong; soundness of reads and
    read after write; the HTTP interface end to end; the deduplication window. *)

From S2P Require Import Prelude Membership Partitioner Net Topology Storage.

#[local] Open Scope Z_scope.

#[export] Instance DistributedMap_hosted {K V} `{Countable K} : Hosted (DistributedMap K V) :=
  { host := partitioner; hosted_inhabited := populate (new_with_base inhabitant "") }.

Section ops.
Context {K V : Type} `{Countable K, RustKey K, Serde V}.
(** What the HTTP stack makes of the last segment of a request path: the string the handler
    receives, or nothing if the request is not routed to it. *)
Context (path_segment : string -> option string).

#[local] Notation Shards := (World (DistributedMap K V)).

(** [handle_replicate], on the node listening on [self]. *)
Definition handle_replicate (self : SocketAddr) (req : ReplicateRequest)
    : ST Shards (Response PutResponse) :=
  match key_from_str (rr_key req) with
  | Err _ => st_ret (mkResponse BAD_REQUEST (mkPutResponse false))
  | Ok key =>
      match from_json (rr_value_json req) with
      | Err _ => st_ret (mkResponse BAD_REQUEST (mkPutResponse false))
      | Ok value =>
          now <- now_ms ;;
          r <- on_my self (store_replica (rr_partition req) (rr_op_id req) key value now) ;;
          st_ret (match r with
                  | Ok _ => mkResponse OK (mkPutResponse true)
                  | Err _ => mkResponse INTERNAL_SERVER_ERROR (mkPutResponse false)
                  end)
      end
  end.

(** [replicate_to_backup]. *)
Definition replicate_to_backup (self : SocketAddr) (backup_node_id : NodeId) (partition : Z)
    (op_id : string) (key : K) (value : V) : ST Shards (result unit) :=
  node <-? resolve self backup_node_id "Backup node not found" ;;
  value_json <-? st_ret (to_json value) ;;
  let payload := mkReplicate partition op_id (key_to_string key) value_json in
  response <-? post_with_retry (http_addr node) (handle_replicate (http_addr node) payload) 3 ;;
  st_ret (if is_success response then Ok tt else Err "Replication failed").

(** The loop over [owners.iter().skip(1)] of every write on a primary. *)
Definition replicate_to_backups (self : SocketAddr) (owners : list NodeId) (partition : Z)
    (op_id : string) (key : K) (value : V) : ST Shards (result unit) :=
  for_each_try (fun backup => replicate_to_backup self backup partition op_id key value)
    (tail owners).

(** [store_as_primary]. *)
Definition store_as_primary (self : SocketAddr) (partition : Z) (op_id : string) (key : K)
    (value : V) : ST Shards (result unit) :=
  now <- now_ms ;;
  fresh <- on_my self (should_process op_id now) ;;
  if negb fresh then st_ret (Ok tt) else
  update self (store_local partition key value) ;;;
  me <- my self ;;
  replicate_to_backups self (get_owners (partitioner me) partition) partition op_id key value.

(** [handle_forward_put]. *)
Definition handle_forward_put (self : SocketAddr) (req : ForwardPutRequest)
    : ST Shards (Response PutResponse) :=
  match key_from_str (fp_key req) with
  | Err _ => st_ret (mkResponse BAD_REQUEST (mkPutResponse false))
  | Ok key =>
      match from_json (fp_value_json req) with
      | Err _ => st_ret (mkResponse BAD_REQUEST (mkPutResponse false))
      | Ok value =>
          r <- store_as_primary self (fp_partition req) (fp_op_id req) key value ;;
          st_ret (match r with
                  | Ok _ => mkResponse OK (mkPutResponse true)
                  | Err _ => mkResponse INTERNAL_SERVER_ERROR (mkPutResponse false)
                  end)
      end
  end.

(** [forward_put]. *)
Definition forward_put (self : SocketAddr) (primary_node_id : NodeId) (partition : Z)
    (op_id : string) (key : K) (value : V) : ST Shards (result unit) :=
  node <-? resolve self primary_node_id "Primary node not found" ;;
  value_json <-? st_ret (to_json value) ;;
  let payload := mkForwardPut partition op_id (key_to_string key) value_json in
  response <-? post_with_retry (http_addr node) (handle_forward_put (http_addr node) payload) 3 ;;
  st_ret (if is_success response then Ok tt else Err "ForwardPut failed").

(** [put_with_op]. *)
Definition put_with_op (self : SocketAddr) (key : K) (value : V) (op_id : string)
    : ST Shards (result unit) :=
  now <- now_ms ;;
  fresh <- on_my self (should_process op_id now) ;;
  if negb fresh then st_ret (Ok tt) else
  me <- my self ;;
  let partition := get_partition (partitioner me) (key_to_string key) in
  let owners := get_owners (partitioner me) partition in
  match owners with
  | [] => update self (store_local partition key value) ;;; st_ret (Ok tt)
  | primary :: _ =>
      if decide (local_id me <> primary) then
        _ <-? forward_put self primary partition op_id key value ;;
        st_ret (Ok tt)
      else
        update self (store_local partition key value) ;;;
        if bool_decide (1 < length owners)%nat
        then replicate_to_backups self owners partition op_id key value
        else st_ret (Ok tt)
  end.

(** [put]. *)
Definition put (self : SocketAddr) (key : K) (value : V) : ST Shards (result unit) :=
  op_id <- new_v4 ;;
  put_with_op self key value op_id.

(** [put_local]. *)
Definition put_local (self : SocketAddr) (key : K) (value : V) : ST Shards (result unit) :=
  me <- my self ;;
  let partition := get_partition (partitioner me) (key_to_string key) in
  update self (store_local partition key value) ;;;
  let owners := get_owners (partitioner me) partition in
  if bool_decide (1 < length owners)%nat then
    op_id <- new_v4 ;;
    replicate_to_backups self owners partition op_id key value
  else st_ret (Ok tt).

(** [handle_put]. *)
Definition handle_put (self : SocketAddr) (req : PutRequest) : ST Shards (Response PutResponse) :=
  match key_from_str (pr_key req) with
  | Err _ => st_ret (mkResponse BAD_REQUEST (mkPutResponse false))
  | Ok key =>
      match from_json (pr_value_json req) with
      | Err _ => st_ret (mkResponse BAD_REQUEST (mkPutResponse false))
      | Ok value =>
          r <- put_with_op self key value (pr_op_id req) ;;
          st_ret (match r with
                  | Ok _ => mkResponse OK (mkPutResponse true)
                  | Err _ => mkResponse INTERNAL_SERVER_ERROR (mkPutResponse false)
                  end)
      end
  end.

(** [handle_get_internal]. *)
Definition handle_get_internal (self : SocketAddr) (key_str : string)
    : ST Shards (Response GetResponse) :=
  match key_from_str key_str with
  | Err _ => st_ret (mkResponse BAD_REQUEST (mkGetResponse None))
  | Ok k =>
      me <- my self ;;
      st_ret (match get_local k me with
              | Some value =>
                  match to_json value with
                  | Ok value_json => mkResponse OK (mkGetResponse (Some value_json))
                  | Err _ => mkResponse INTERNAL_SERVER_ERROR (mkGetResponse None)
                  end
              | None => mkResponse NOT_FOUND (mkGetResponse None)
              end)
  end.

(** The route [/internal/get/:key]; a path that does not match it is answered 404. *)
Definition route_get_internal (self : SocketAddr) (segment : string)
    : ST Shards (Response GetResponse) :=
  match path_segment segment with
  | Some key_str => handle_get_internal self key_str
  | None => st_ret (mkResponse NOT_FOUND (mkGetResponse None))
  end.

(** [fetch_remote]. *)
Definition fetch_remote (self : SocketAddr) (owner_id : NodeId) (key : K)
    : ST Shards (result (option V)) :=
  node <-? resolve self owner_id "Owner node not found" ;;
  response <-? get_with_retry (http_addr node)
                 (route_get_internal (http_addr node) (key_to_string key)) 3 ;;
  st_ret (if decide (status response = NOT_FOUND) then Ok None else
          if negb (is_success response) then Err "GET request failed" else
          match value_json (body response) with
          | Some json_str => Some <$> (from_json json_str : result V)
          | None => Ok None
          end).

(** The fallback loops of [get]. *)
Fixpoint fetch_first (self : SocketAddr) (owners : list NodeId) (key : K)
    : ST Shards (option V) :=
  match owners with
  | [] => st_ret None
  | owner :: rest =>
      r <- fetch_remote self owner key ;;
      match r with
      | Ok (Some value) => st_ret (Some value)
      | _ => fetch_first self rest key
      end
  end.

(** [get]. *)
Definition get (self : SocketAddr) (key : K) : ST Shards (option V) :=
  me <- my self ;;
  let partition := get_partition (partitioner me) (key_to_string key) in
  match lookup_in partition key me with
  | Some value => st_ret (Some value)
  | None =>
      match get_owners (partitioner me) partition with
      | [] => st_ret None
      | primary_owner :: backups =>
          if decide (primary_owner = local_id me) then fetch_first self backups key else
          r <- fetch_remote self primary_owner key ;;
          match r with
          | Ok (Some value) => st_ret (Some value)
          | _ => fetch_first self backups key
          end
      end
  end.

(** [handle_get]. *)
Definition handle_get (self : SocketAddr) (key_str : string) : ST Shards (Response GetResponse) :=
  match key_from_str key_str with
  | Err _ => st_ret (mkResponse BAD_REQUEST (mkGetResponse None))
  | Ok key =>
      r <- get self key ;;
      st_ret (match r with
              | Some value =>
                  match to_json value with
                  | Ok value_json => mkResponse OK (mkGetResponse (Some value_json))
                  | Err _ => mkResponse INTERNAL_SERVER_ERROR (mkGetResponse None)
                  end
              | None => mkResponse NOT_FOUND (mkGetResponse None)
              end)
  end.

(** [handle_partition_dump]. *)
Definition handle_partition_dump (self : SocketAddr) (partition : Z)
    : ST Shards (Response PartitionDumpResponse) :=
  me <- my self ;;
  let entries := omap (fun e => (fun value_json => mkKeyValue (key_to_string e.1) value_json)
                                  <$> result_ok (to_json e.2))
                   (dump_partition partition me) in
  st_ret (mkResponse OK (mkDump partition entries)).

(** The decoding loop of [fetch_partition]. *)
Fixpoint parse_entries (items : list KeyValueJson) : result (list (K * V)) :=
  match items with
  | [] => Ok []
  | item :: rest =>
      key ← key_from_str (kv_key item);
      value ← from_json (kv_value_json item);
      entries ← parse_entries rest;
      Ok ((key, value) :: entries)
  end.

(** [fetch_partition]. *)
Definition fetch_partition (self : SocketAddr) (owner_id : NodeId) (partition : Z)
    : ST Shards (result (list (K * V))) :=
  node <-? resolve self owner_id "Owner node not found" ;;
  response <-? get_with_retry (http_addr node)
                 (handle_partition_dump (http_addr node) partition) 3 ;;
  st_ret (if decide (status response = NOT_FOUND) then Ok [] else
          if negb (is_success response) then Err "Partition dump failed" else
          parse_entries (pd_entries (body response))).
End ops.

(** ** What one write may change

    [wrote p k v op]: from one shard state to a later one during the write of [v] under key [k] of
    partition [p] with operation id [op]. *)
Section spec.
Context {K V : Type} `{Countable K, !RustKey K, !RustKeyLaws K, !Serde V, !SerdeLaws V}.
Implicit Types m : DistributedMap K V.
Implicit Types w : World (DistributedMap K V).

Record wrote (p : Z) (k : K) (v : V) (op : string) m m' : Prop := {
  wr_host : partitioner m' = partitioner m;
  wr_base : base_path m' = base_path m;
  wr_lookup p' k' : lookup_in p' k' m' = lookup_in p' k' m \/
                    (p' = p /\ k' = k /\ lookup_in p' k' m' = Some v);
  wr_other op' : op' <> op -> is_Some (processed_ops m' !! op') ->
                 is_Some (processed_ops m !! op');
  wr_keep : is_Some (processed_ops m !! op) -> is_Some (processed_ops m' !! op);
  wr_new : is_Some (processed_ops m' !! op) ->
           is_Some (processed_ops m !! op) \/ lookup_in p k m' = Some v;
  wr_frozen : is_Some (processed_ops m !! op) -> local_data m' = local_data m;
}.

Section one_write.
Context (p : Z) (k : K) (v : V) (op : string).

#[export] Instance wrote_preorder : PreOrder (wrote p k v op).
Proof.
  split.
  - intros m. split; auto.
  - intros m1 m2 m3 [] []. split; [congruence|congruence| |eauto|eauto| |].
    + intros p' k'. destruct (wr_lookup1 p' k') as [->|?]; [|by right].
      destruct (wr_lookup0 p' k') as [->|(-> & -> & ?)]; [by left|]. right.
      split_and!; done.
    + intros Hr. destruct (wr_new1 Hr) as [Hr2|]; [|by right].
      destruct (wr_new0 Hr2) as [|Hv]; [by left|]. right.
      by destruct (wr_lookup1 p k) as [->|(_ & _ & ->)].
    + intros Hr. rewrite wr_frozen1, wr_frozen0; auto.
Qed.

Lemma wrote_holds m m' : wrote p k v op m m' -> lookup_in p k m = Some v ->
  lookup_in p k m' = Some v.
Proof. intros [] Hv. by destruct (wr_lookup0 p k) as [->|(_ & _ & ->)]. Qed.

(** A primary or a replica recording the operation and storing the value. *)
Lemma wrote_process_store now m :
  wrote p k v op m (if (should_process op now m).1
                    then store_local p k v (should_process op now m).2
                    else (should_process op now m).2).
Proof.
  pose proof (should_process_data op now m) as (Hd & Hp & Hb).
  pose proof (should_process_fresh op now m) as Hf.
  destruct (should_process op now m).1 eqn:E.
  - symmetry in Hf. apply bool_decide_eq_true in Hf. split; simpl; [done|done| | | | |].
    + intros p' k'. rewrite lookup_in_store. case_decide as Hc.
      * right. by destruct Hc.
      * left. unfold lookup_in. by rewrite Hd.
    + intros op' Hne Hs. by destruct (should_process_other op op' now m Hne) as [E'|E'];
        rewrite E' in Hs; [|destruct Hs as [x [=]]].
    + intros [x Hx]. by rewrite Hf in Hx.
    + intros _. right. apply lookup_in_store_eq.
    + intros [x Hx]. by rewrite Hf in Hx.
  - assert ((should_process op now m).2 = m) as ->.
    { unfold should_process in *. case_decide; done. }
    reflexivity.
Qed.

(** What holds of the shard at [a] once it has processed the operation. *)
Definition recorded (a : SocketAddr) w : Prop :=
  exists m, nodes w !! a = Some m /\ is_Some (processed_ops m !! op).
Definition holds (a : SocketAddr) w : Prop :=
  exists m, nodes w !! a = Some m /\ lookup_in p k m = Some v.
(** No node has seen the operation before. *)
Definition fresh_op w : Prop :=
  forall a m, nodes w !! a = Some m -> processed_ops m !! op = None.

#[local] Notation step := (pointwise (wrote p k v op)).

Lemma step_recorded a w w' : step w w' -> recorded a w -> recorded a w'.
Proof.
  intros Hs (m & Hm & Hr). destruct (pointwise_lookup _ _ _ _ _ Hs Hm) as (m' & Hm' & Hw).
  exists m'. split; [done|]. by apply (wr_keep _ _ _ _ _ _ Hw).
Qed.

Lemma step_holds a w w' : step w w' -> holds a w -> holds a w'.
Proof.
  intros Hs (m & Hm & Hv). destruct (pointwise_lookup _ _ _ _ _ Hs Hm) as (m' & Hm' & Hw).
  exists m'. split; [done|]. by apply (wrote_holds _ _ Hw).
Qed.

Lemma step_new a w w' : step w w' -> recorded a w' -> recorded a w \/ holds a w'.
Proof.
  intros Hs (m' & Hm' & Hr). destruct (pointwise_lookup_inv _ _ _ _ _ Hs Hm') as (m & Hm & Hw).
  destruct (wr_new _ _ _ _ _ _ Hw Hr); [left|right]; by eexists.
Qed.

Lemma step_host w w' : step w w' -> pointwise same_host w w'.
Proof. apply pointwise_mono. intros m m' Hw. apply (wr_host _ _ _ _ _ _ Hw). Qed.

Lemma fresh_not_recorded a w : fresh_op w -> ~ recorded a w.
Proof. intros Hf (m & Hm & Hr). rewrite (Hf _ _ Hm) in Hr. by destruct Hr. Qed.

(** ** The handlers and helpers under any network *)

Lemma handle_replicate_eq self json w m :
  nodes w !! self = Some m -> from_json json = Ok v ->
  handle_replicate self (mkReplicate p op (key_to_string k) json) w =
    (mkResponse OK (mkPutResponse true),
     set_node self (store_replica p op k v (clock (env w)) m).2 w).
Proof.
  intros Hm Hj. unfold handle_replicate. simpl. rewrite key_roundtrip, Hj.
  rewrite (st_bind_eq now_ms _ w _ w eq_refl).
  rewrite (st_bind_eq _ _ w _ _ (on_my_eq self _ w m Hm)).
  unfold store_replica. by destruct (should_process op (clock (env w)) m) as [[] m'].
Qed.

Lemma store_replica_state now m :
  (store_replica p op k v now m).2 =
    if (should_process op now m).1 then store_local p k v (should_process op now m).2
    else (should_process op now m).2.
Proof. unfold store_replica. by destruct (should_process op now m) as [[] m']. Qed.

Lemma processed_store_local op' m :
  processed_ops (store_local p k v m) !! op' = processed_ops m !! op'.
Proof. done. Qed.

Lemma handle_replicate_step self json w :
  is_Some (nodes w !! self) -> from_json json = Ok v ->
  let w' := (handle_replicate self (mkReplicate p op (key_to_string k) json) w).2 in
  step w w' /\ recorded self w'.
Proof.
  intros [m Hm] Hj. rewrite (handle_replicate_eq self json w m Hm Hj). simpl.
  rewrite store_replica_state. split.
  - intros a. simpl. destruct (decide (a = self)) as [->|Hne].
    + rewrite lookup_insert_eq, Hm. constructor. apply wrote_process_store.
    + rewrite lookup_insert_ne by done. destruct (nodes w !! a); constructor. reflexivity.
  - eexists. split; [apply lookup_insert_eq|].
    pose proof (should_process_recorded op (clock (env w)) m).
    by destruct (should_process op (clock (env w)) m).1.
Qed.

Lemma wrote_view m m' : wrote p k v op m m' -> view m' = view m.
Proof. intros Hw. unfold view. simpl. by rewrite (wr_host _ _ _ _ _ _ Hw). Qed.

(** [replicate_to_backup]. *)
Lemma replicate_to_backup_inv self b w :
  exists json, to_json v = Ok json /\ from_json json = Ok v /\
  replicate_to_backup self b p op k v w =
    match get_member (view (nodes w !!! self : DistributedMap K V)) b with
    | None => (Err "Backup node not found", w)
    | Some n =>
        (response <-? post_with_retry (http_addr n)
           (handle_replicate (http_addr n) (mkReplicate p op (key_to_string k) json)) 3 ;;
         st_ret (if is_success response then Ok tt else Err "Replication failed")) w
    end.
Proof.
  destruct (serde_roundtrip v) as (json & Hto & Hfrom). exists json. split_and!; [done..|].
  unfold replicate_to_backup, resolve, st_try, st_get, st_bind. rewrite Hto. simpl.
  by destruct (get_member _ b).
Qed.

Lemma replicate_to_backup_step self b w :
  step w (replicate_to_backup self b p op k v w).2.
Proof.
  destruct (replicate_to_backup_inv self b w) as (json & Hto & Hfrom & ->).
  destruct (get_member _ b) as [n|]; [|reflexivity].
  pose proof (post_with_retry_rel (http_addr n)
    (handle_replicate (http_addr n) (mkReplicate p op (key_to_string k) json))
    step (same_nodes_pointwise _)
    (fun w0 Hup => proj1 (handle_replicate_step _ json w0 Hup Hfrom)) 3 w) as Hs.
  unfold st_try, st_bind. by destruct (post_with_retry _ _ _ w) as [[] ?].
Qed.

Lemma replicate_to_backup_ok self b w w' m :
  nodes w !! self = Some m -> replicate_to_backup self b p op k v w = (Ok tt, w') ->
  exists n, get_member (view m) b = Some n /\ recorded (http_addr n) w'.
Proof.
  intros Hm. destruct (replicate_to_backup_inv self b w) as (json & Hto & Hfrom & ->).
  rewrite (lookup_total_correct _ _ _ Hm).
  destruct (get_member _ b) as [n|]; [|done]. intros Hrun. exists n. split; [done|].
  inv_run.
  apply (post_with_retry_ok _ _ step (same_nodes_pointwise _)
    (fun w0 Hup => proj1 (handle_replicate_step _ json w0 Hup Hfrom))) in Hrun0
    as (w0 & _ & Hup & Hserve).
  pose proof (proj2 (handle_replicate_step _ json w0 Hup Hfrom)) as Hr.
  by rewrite Hserve in Hr.
Qed.

Lemma replicate_to_backups_step self owners w :
  step w (replicate_to_backups self owners p op k v w).2.
Proof.
  unfold replicate_to_backups. apply (for_each_try_rel step). intros b w1 _.
  apply replicate_to_backup_step.
Qed.

Lemma replicate_to_backups_ok self owners w w' m :
  nodes w !! self = Some m -> replicate_to_backups self owners p op k v w = (Ok tt, w') ->
  forall b, b ∈ tail owners ->
  exists n, get_member (view m) b = Some n /\ recorded (http_addr n) w'.
Proof.
  intros Hm Hrun b Hb.
  destruct (for_each_try_ok step _ _ w w'
    (fun x w1 _ _ => replicate_to_backup_step self x w1) Hrun b Hb)
    as (w1 & w2 & H1 & Hb1 & H2).
  destruct (pointwise_lookup _ _ _ _ _ H1 Hm) as (m1 & Hm1 & Hw1).
  destruct (replicate_to_backup_ok self b w1 w2 m1 Hm1 Hb1) as (n & Hn & Hr).
  exists n. split; [|by eapply step_recorded].
  by rewrite (wrote_view _ _ Hw1) in Hn.
Qed.

(** What a primary does once the operation turned out to be new. *)
Lemma primary_write_spec self owners now w m :
  nodes w !! self = Some m -> processed_ops m !! op = None ->
  let '(r, w') := (update self (store_local p k v) ;;;
                   replicate_to_backups self owners p op k v)
                    (set_node self (should_process op now m).2 w) in
  step w w' /\ holds self w' /\ recorded self w' /\
  (r = Ok tt -> forall b, b ∈ tail owners ->
     exists n, get_member (view m) b = Some n /\ recorded (http_addr n) w').
Proof.
  intros Hm Hfresh. set (m1 := (should_process op now m).2).
  assert (nodes (set_node self m1 w) !! self = Some m1) as Hm1 by apply lookup_insert_eq.
  rewrite (st_bind_eq _ _ _ _ _ (update_eq self _ _ m1 Hm1)). simpl.
  set (m2 := store_local p k v m1). set (w2 := set_node self m2 _).
  assert (nodes w2 !! self = Some m2) as Hm2 by apply lookup_insert_eq.
  pose proof (wrote_process_store now m) as Hw.
  rewrite should_process_fresh, bool_decide_eq_true_2 in Hw by done. fold m1 m2 in Hw.
  assert (step w w2) as H2.
  { intros a. unfold w2, set_node. simpl. rewrite insert_insert_eq.
    destruct (decide (a = self)) as [->|Hne].
    - rewrite lookup_insert_eq, Hm. by constructor.
    - rewrite lookup_insert_ne by done. destruct (nodes w !! a); constructor. reflexivity. }
  pose proof (replicate_to_backups_step self owners w2) as H3.
  destruct (replicate_to_backups self owners p op k v w2) as [r w'] eqn:Er. simpl in H3.
  split_and!.
  - by etrans.
  - apply (step_holds self w2 w' H3). exists m2. split; [done|]. apply lookup_in_store_eq.
  - apply (step_recorded self w2 w' H3). exists m2. split; [done|]. unfold m2.
    rewrite processed_store_local. apply should_process_recorded.
  - intros -> b Hb.
    destruct (replicate_to_backups_ok self owners w2 w' m2 Hm2 Er b Hb) as (n & Hn & Hr).
    exists n. split; [|done]. by rewrite (wrote_view _ _ Hw) in Hn.
Qed.

Lemma should_process_old now m :
  is_Some (processed_ops m !! op) -> should_process op now m = (false, m).
Proof. intros Hs. unfold should_process. by rewrite decide_True. Qed.

Lemma store_as_primary_spec self w m :
  nodes w !! self = Some m ->
  let '(r, w') := store_as_primary self p op k v w in
  step w w' /\ recorded self w' /\
  (r = Ok tt -> processed_ops m !! op = None ->
   forall b, b ∈ tail (get_owners (partitioner m) p) ->
   exists n, get_member (view m) b = Some n /\ recorded (http_addr n) w').
Proof.
  intros Hm. unfold store_as_primary.
  rewrite (st_bind_eq now_ms _ w _ w eq_refl).
  rewrite (st_bind_eq _ _ w _ _ (on_my_eq self _ w m Hm)).
  rewrite should_process_fresh.
  destruct (decide (processed_ops m !! op = None)) as [Hf|Hf].
  - rewrite bool_decide_eq_true_2 by done. simpl.
    pose proof (primary_write_spec self (get_owners (partitioner m) p) (clock (env w)) w m Hm Hf)
      as Hspec.
    set (w1 := set_node self _ w) in *.
    assert (nodes w1 !! self = Some (should_process op (clock (env w)) m).2) as Hm1
      by apply lookup_insert_eq.
    rewrite !(st_bind_eq _ _ _ _ _ (update_eq self _ _ _ Hm1)) in *. simpl in *.
    set (m2 := store_local p k v _) in *. set (w2 := set_node self m2 w1) in *.
    assert (nodes w2 !! self = Some m2) as Hm2 by apply lookup_insert_eq.
    rewrite (st_bind_eq _ _ _ _ _ (my_eq self w2 m2 Hm2)).
    assert (partitioner m2 = partitioner m) as -> by apply (should_process_data op).
    destruct (replicate_to_backups _ _ _ _ _ _ w2) as [r w'].
    destruct Hspec as (? & ? & ? & ?). auto.
  - rewrite bool_decide_eq_false_2 by done. simpl.
    apply not_eq_None_Some in Hf. rewrite should_process_old by done. simpl.
    rewrite set_node_id by done. split_and!; [reflexivity|by exists m|].
    intros _ HN. rewrite HN in Hf. by destruct Hf.
Qed.

Lemma handle_forward_put_eq self json w :
  from_json json = Ok v ->
  handle_forward_put self (mkForwardPut p op (key_to_string k) json) w =
    (let '(r, w') := store_as_primary self p op k v w in
     (match r with
      | Ok _ => mkResponse OK (mkPutResponse true)
      | Err _ => mkResponse INTERNAL_SERVER_ERROR (mkPutResponse false)
      end, w')).
Proof.
  intros Hj. unfold handle_forward_put. simpl. rewrite key_roundtrip, Hj.
  unfold st_bind. by destruct (store_as_primary _ _ _ _ _ w).
Qed.

Lemma handle_forward_put_step self json w :
  is_Some (nodes w !! self) -> from_json json = Ok v ->
  let w' := (handle_forward_put self (mkForwardPut p op (key_to_string k) json) w).2 in
  step w w' /\ recorded self w'.
Proof.
  intros [m Hm] Hj. rewrite handle_forward_put_eq by done.
  pose proof (store_as_primary_spec self w m Hm) as Hs.
  destruct (store_as_primary self p op k v w) as [r w']. simpl. tauto.
Qed.

Lemma forward_put_inv self b w :
  exists json, to_json v = Ok json /\ from_json json = Ok v /\
  forward_put self b p op k v w =
    match get_member (view (nodes w !!! self : DistributedMap K V)) b with
    | None => (Err "Primary node not found", w)
    | Some n =>
        (response <-? post_with_retry (http_addr n)
           (handle_forward_put (http_addr n) (mkForwardPut p op (key_to_string k) json)) 3 ;;
         st_ret (if is_success response then Ok tt else Err "ForwardPut failed")) w
    end.
Proof.
  destruct (serde_roundtrip v) as (json & Hto & Hfrom). exists json. split_and!; [done..|].
  unfold forward_put, resolve, st_try, st_get, st_bind. rewrite Hto. simpl.
  by destruct (get_member _ b).
Qed.

Lemma forward_put_spec self b w m :
  nodes w !! self = Some m ->
  let '(r, w') := forward_put self b p op k v w in
  step w w' /\
  (r = Ok tt -> exists n, get_member (view m) b = Some n /\ recorded (http_addr n) w').
Proof.
  intros Hm. destruct (forward_put_inv self b w) as (json & Hto & Hfrom & ->).
  rewrite (lookup_total_correct _ _ _ Hm).
  destruct (get_member _ b) as [n|]; [|by split].
  set (serve := handle_forward_put _ _).
  pose proof (fun w0 Hup => proj1 (handle_forward_put_step (http_addr n) json w0 Hup Hfrom))
    as Hserve.
  pose proof (post_with_retry_rel _ serve step (same_nodes_pointwise _) Hserve 3 w) as Hs.
  unfold st_try, st_bind. destruct (post_with_retry _ serve 3 w) as [[resp|e] w'] eqn:E;
    simpl in *; [|by split].
  split; [done|]. intros _. exists n. split; [done|].
  apply (post_with_retry_ok _ serve step (same_nodes_pointwise _) Hserve) in E
    as (w0 & _ & Hup & Hrun).
  pose proof (proj2 (handle_forward_put_step _ json w0 Hup Hfrom)) as Hr. fold serve in Hr.
  by rewrite Hrun in Hr.
Qed.

(** [put_with_op] on a new operation, by case of who the primary is. *)
Inductive put_case self w m (r : result unit) w' : Prop :=
  | put_nobody :
      get_owners (partitioner m) p = [] -> r = Ok tt -> step w w' -> holds self w' ->
      put_case self w m r w'
  | put_primary rest :
      get_owners (partitioner m) p = local_id m :: rest -> step w w' -> holds self w' ->
      (r = Ok tt -> forall b, b ∈ rest ->
         exists n, get_member (view m) b = Some n /\ recorded (http_addr n) w') ->
      put_case self w m r w'
  | put_forwarded primary rest :
      get_owners (partitioner m) p = primary :: rest -> primary <> local_id m ->
      step (set_node self (should_process op (clock (env w)) m).2 w) w' ->
      (r = Ok tt -> exists n, get_member (view m) primary = Some n /\
                              recorded (http_addr n) w') ->
      put_case self w m r w'.

Lemma replicate_to_backups_short self owners w :
  (length owners <= 1)%nat -> replicate_to_backups self owners p op k v w = (Ok tt, w).
Proof. intros Hl. by destruct owners as [|? [|? ?]]; simpl in *; [| |lia]. Qed.

Lemma put_with_op_eq self w m :
  nodes w !! self = Some m -> processed_ops m !! op = None ->
  get_partition (partitioner m) (key_to_string k) = p ->
  put_with_op self k v op w =
    match get_owners (partitioner m) p with
    | [] => update self (store_local p k v) ;;; st_ret (Ok tt)
    | primary :: rest =>
        if decide (local_id m <> primary)
        then _ <-? forward_put self primary p op k v ;; st_ret (Ok tt)
        else update self (store_local p k v) ;;;
             replicate_to_backups self (primary :: rest) p op k v
    end (set_node self (should_process op (clock (env w)) m).2 w).
Proof.
  intros Hm Hf Hp. unfold put_with_op.
  rewrite (st_bind_eq now_ms _ w _ w eq_refl).
  rewrite (st_bind_eq _ _ w _ _ (on_my_eq self _ w m Hm)).
  rewrite should_process_fresh, bool_decide_eq_true_2 by done. cbn [negb].
  set (m1 := (should_process op _ m).2). set (w1 := set_node self m1 w).
  assert (nodes w1 !! self = Some m1) as Hm1 by apply lookup_insert_eq.
  assert (partitioner m1 = partitioner m) as Hpm by apply (should_process_data op).
  rewrite (st_bind_eq _ _ _ _ _ (my_eq self w1 m1 Hm1)).
  assert (local_id m1 = local_id m) as Hid by (unfold local_id; by rewrite Hpm).
  rewrite Hid, Hpm, Hp.
  destruct (get_owners (partitioner m) p) as [|primary rest]; [done|].
  case_decide; [done|]. unfold st_bind. destruct (update self _ w1) as [u w2].
  case_bool_decide; [done|]. by rewrite replicate_to_backups_short by lia.
Qed.

Lemma put_with_op_cases self w m r w' :
  nodes w !! self = Some m -> processed_ops m !! op = None ->
  get_partition (partitioner m) (key_to_string k) = p ->
  put_with_op self k v op w = (r, w') -> put_case self w m r w'.
Proof.
  intros Hm Hf Hp. rewrite (put_with_op_eq self w m) by done.
  pose proof (primary_write_spec self (get_owners (partitioner m) p) (clock (env w)) w m Hm Hf)
    as Hs.
  destruct (get_owners (partitioner m) p) as [|primary rest] eqn:Eo.
  - unfold st_bind in Hs |- *.
    destruct (update self _ _) as [u w2]. simpl in Hs. intros [= <- <-].
    destruct Hs as (? & ? & ? & ?). by apply put_nobody.
  - case_decide as Hd.
    + set (m1 := (should_process op _ m).2). set (w1 := set_node self m1 w). intros Hrun.
      assert (nodes w1 !! self = Some m1) as Hm1 by apply lookup_insert_eq.
      pose proof (forward_put_spec self primary w1 m1 Hm1) as Hfw.
      unfold st_try, st_bind in Hrun. destruct (forward_put _ _ _ _ _ _ w1) as [rf wf].
      destruct Hfw as [H1 H2].
      assert (view m1 = view m) as Hv.
      { unfold view. simpl. f_equal. apply (should_process_data op). }
      rewrite Hv in H2.
      destruct rf as [[]|e]; injection Hrun as <- <-;
        eapply put_forwarded; eauto; done.
    + assert (primary = local_id m) as -> by (by destruct (decide (local_id m = primary))).
      intros Hr. rewrite Hr in Hs. destruct Hs as (? & ? & ? & ?). by eapply put_primary.
Qed.

(** *** Which nodes a write may touch

    [touched w]: on the way from [w0], the nodes have made steps of the write, those outside [A]
    none at all. *)
Section touched.
Context (addr_of : NodeId -> SocketAddr) (w0 : World (DistributedMap K V)) (A : SocketAddr -> Prop).
Hypothesis Hc : cluster addr_of w0.
Hypothesis HA : forall a m i, nodes w0 !! a = Some m -> i ∈ get_owners (partitioner m) p ->
  A (addr_of i).

Definition touched w : Prop :=
  step w0 w /\ forall a, ~ A a -> nodes w !! a = nodes w0 !! a.

#[local] Notation keeps_touched := (fun w w' => touched w -> touched w').

#[local] Instance keeps_touched_preorder : PreOrder keeps_touched.
Proof. split; [by intros w|by intros w1 w2 w3 H1 H2 Ht; apply H2, H1]. Qed.

Lemma same_nodes_touched w w' : same_nodes w w' -> touched w -> touched w'.
Proof.
  intros Hs [H1 H2]. split.
  - etrans; [exact H1|]. by apply same_nodes_pointwise; [apply _|].
  - intros a Ha. rewrite Hs. by apply H2.
Qed.

Lemma set_node_touched a m m' w :
  A a -> nodes w !! a = Some m -> wrote p k v op m m' -> touched w -> touched (set_node a m' w).
Proof.
  intros HAa Hm Hw [H1 H2]. split.
  - etrans; [exact H1|]. intros a'. simpl. destruct (decide (a' = a)) as [->|Hne].
    + rewrite lookup_insert_eq, Hm. by constructor.
    + rewrite lookup_insert_ne by done. destruct (nodes w !! a'); constructor. reflexivity.
  - intros a' Ha'. simpl. rewrite lookup_insert_ne by naive_solver. by apply H2.
Qed.

Lemma touched_owner self w m b :
  touched w -> nodes w !! self = Some m -> b ∈ get_owners (partitioner m) p ->
  A (addr_of b) /\ exists n, get_member (view m) b = Some n /\ http_addr n = addr_of b.
Proof.
  intros [Hs _] Hm Hb. destruct (pointwise_lookup_inv _ _ _ _ _ Hs Hm) as (m0 & Hm0 & Hw).
  rewrite (wr_host _ _ _ _ _ _ Hw) in Hb. split; [by apply (HA self m0)|].
  destruct (cluster_owner addr_of w0 Hc self m0 b p Hm0 Hb) as (n & _ & Hn & Ha & _).
  exists n. rewrite (wrote_view m0 m Hw). by split.
Qed.

Lemma replicate_to_backup_touched self b w m :
  nodes w !! self = Some m -> b ∈ get_owners (partitioner m) p -> touched w ->
  touched (replicate_to_backup self b p op k v w).2.
Proof.
  intros Hm Hb Ht. destruct (touched_owner self w m b Ht Hm Hb) as (HAb & n & Hn & Ha).
  destruct (replicate_to_backup_inv self b w) as (json & Hto & Hfrom & ->).
  rewrite (lookup_total_correct _ _ _ Hm), Hn, Ha.
  assert (touched (post_with_retry (addr_of b)
    (handle_replicate (addr_of b) (mkReplicate p op (key_to_string k) json)) 3 w).2) as Hr.
  { apply (post_with_retry_rel _ _ keeps_touched same_nodes_touched); [|done].
    intros w1 [m1 Hm1]. rewrite (handle_replicate_eq _ json w1 m1 Hm1 Hfrom). simpl.
    rewrite store_replica_state. apply (set_node_touched _ m1); [done..|].
    apply wrote_process_store. }
  unfold st_try, st_bind. by destruct (post_with_retry _ _ 3 w) as [[] ?].
Qed.

Lemma replicate_to_backups_touched self w m :
  nodes w !! self = Some m -> touched w ->
  touched (replicate_to_backups self (get_owners (partitioner m) p) p op k v w).2.
Proof.
  intros Hm Ht. unfold replicate_to_backups.
  set (P w1 := touched w1 /\ step w w1).
  enough (P (for_each_try (fun b => replicate_to_backup self b p op k v)
    (tail (get_owners (partitioner m) p)) w).2) as [? _] by done.
  apply for_each_inv_try; [by split|]. intros b w1 Hb [Ht1 Hs1].
  destruct (pointwise_lookup _ _ _ _ _ Hs1 Hm) as (m1 & Hm1 & Hw).
  split; [|etrans; [exact Hs1|apply replicate_to_backup_step]].
  apply (replicate_to_backup_touched self b w1 m1 Hm1); [|done].
  rewrite (wr_host _ _ _ _ _ _ Hw). destruct (get_owners (partitioner m) p); [done|by right].
Qed.

Lemma store_as_primary_touched self w m :
  nodes w !! self = Some m -> A self -> touched w -> touched (store_as_primary self p op k v w).2.
Proof.
  intros Hm HAs Ht. unfold store_as_primary.
  rewrite (st_bind_eq now_ms _ w _ w eq_refl).
  rewrite (st_bind_eq _ _ w _ _ (on_my_eq self _ w m Hm)).
  pose proof (wrote_process_store (clock (env w)) m) as Hw.
  destruct (should_process op (clock (env w)) m) as [[] m1] eqn:Ep; cbn [fst snd negb] in *.
  - assert (nodes (set_node self m1 w) !! self = Some m1) as Hm1 by apply lookup_insert_eq.
    rewrite (st_bind_eq _ _ _ _ _ (update_eq self _ _ m1 Hm1)).
    set (m2 := store_local p k v m1) in *. set (w2 := set_node self m2 _).
    assert (w2 = set_node self m2 w) as Hw2.
    { unfold w2, set_node. simpl. by rewrite insert_insert_eq. }
    assert (nodes w2 !! self = Some m2) as Hm2 by apply lookup_insert_eq.
    rewrite (st_bind_eq _ _ _ _ _ (my_eq self w2 m2 Hm2)).
    apply replicate_to_backups_touched; [done|]. rewrite Hw2. by apply (set_node_touched self m).
  - by apply (set_node_touched self m).
Qed.

Lemma forward_put_touched self b w m :
  nodes w !! self = Some m -> b ∈ get_owners (partitioner m) p -> touched w ->
  touched (forward_put self b p op k v w).2.
Proof.
  intros Hm Hb Ht. destruct (touched_owner self w m b Ht Hm Hb) as (HAb & n & Hn & Ha).
  destruct (forward_put_inv self b w) as (json & Hto & Hfrom & ->).
  rewrite (lookup_total_correct _ _ _ Hm), Hn, Ha.
  assert (touched (post_with_retry (addr_of b)
    (handle_forward_put (addr_of b) (mkForwardPut p op (key_to_string k) json)) 3 w).2) as Hr.
  { apply (post_with_retry_rel _ _ keeps_touched same_nodes_touched); [|done].
    intros w1 [m1 Hm1] Ht1. rewrite (handle_forward_put_eq _ json w1 Hfrom).
    pose proof (store_as_primary_touched (addr_of b) w1 m1 Hm1 HAb Ht1) as Hs.
    by destruct (store_as_primary _ _ _ _ _ w1). }
  unfold st_try, st_bind. by destruct (post_with_retry _ _ 3 w) as [[] ?].
Qed.
End touched.

(** ** The same under a quiet network *)

Section quiet.
Context (addr_of : NodeId -> SocketAddr).

Lemma cluster_step w w' : cluster addr_of w -> step w w' -> cluster addr_of w'.
Proof. intros Hc Hs. eapply cluster_keeps; [exact Hc|by apply step_host]. Qed.

Lemma replicate_to_backup_quiet self b w m :
  cluster addr_of w -> quiet w -> nodes w !! self = Some m ->
  b ∈ get_owners (partitioner m) p ->
  exists w', replicate_to_backup self b p op k v w = (Ok tt, w') /\ env w' = env w.
Proof.
  intros Hc Hq Hm Hb. destruct (replicate_to_backup_inv self b w) as (json & Hto & Hfrom & ->).
  rewrite (lookup_total_correct _ _ _ Hm).
  destruct (cluster_owner addr_of w Hc self m b p Hm Hb) as (n & mb & -> & -> & Hmb & _).
  rewrite (st_try_ok _ _ w _ _ (post_with_retry_quiet _ _ 2 w _ _ Hq (mk_is_Some _ _ Hmb)
             (handle_replicate_eq _ json w mb Hmb Hfrom))).
  eexists. split; [reflexivity|done].
Qed.

Lemma replicate_to_backups_quiet self w m :
  cluster addr_of w -> quiet w -> nodes w !! self = Some m ->
  exists w', replicate_to_backups self (get_owners (partitioner m) p) p op k v w = (Ok tt, w') /\
             env w' = env w.
Proof.
  intros Hc Hq Hm. unfold replicate_to_backups.
  set (owners := get_owners (partitioner m) p).
  destruct (for_each_try_total (fun w1 => env w1 = env w /\ step w w1)
    (fun backup => replicate_to_backup self backup p op k v) (tail owners) w)
    as (w' & Hrun & Hq' & _); [|by split|by exists w'].
  intros b w1 Hb [He1 Hs1]. assert (quiet w1) as Hq1 by (unfold quiet; by rewrite He1).
  destruct (pointwise_lookup _ _ _ _ _ Hs1 Hm) as (m1 & Hm1 & Hw).
  destruct (replicate_to_backup_quiet self b w1 m1) as (w2 & Hr & Hq2); try done.
  - by eapply cluster_step.
  - rewrite (wr_host _ _ _ _ _ _ Hw). fold owners. destruct owners; [done|]. by right.
  - exists w2. split_and!; [done|by rewrite Hq2|]. etrans; [exact Hs1|].
    pose proof (replicate_to_backup_step self b w1) as H2. by rewrite Hr in H2.
Qed.

(** The write on a primary that finds the operation new. *)
Lemma primary_write_quiet self now w m :
  cluster addr_of w -> quiet w -> nodes w !! self = Some m -> processed_ops m !! op = None ->
  exists w', (update self (store_local p k v) ;;;
              replicate_to_backups self (get_owners (partitioner m) p) p op k v)
               (set_node self (should_process op now m).2 w) = (Ok tt, w') /\ env w' = env w.
Proof.
  intros Hc Hq Hm Hf. set (w1 := set_node self _ w).
  assert (nodes w1 !! self = Some (should_process op now m).2) as Hm1
    by apply lookup_insert_eq.
  rewrite (st_bind_eq _ _ _ _ _ (update_eq self _ _ _ Hm1)).
  set (m2 := store_local p k v _). set (w2 := set_node self m2 w1).
  assert (partitioner m2 = partitioner m) as Hpm by apply (should_process_data op).
  rewrite <- Hpm. change (env w) with (env w2).
  apply replicate_to_backups_quiet; [|done|apply lookup_insert_eq].
  apply (cluster_keeps addr_of w); [done|]. intros a. unfold w2, w1, set_node. simpl.
  rewrite insert_insert_eq. destruct (decide (a = self)) as [->|Hne].
  - rewrite lookup_insert_eq, Hm. by constructor.
  - rewrite lookup_insert_ne by done. destruct (nodes w !! a); by constructor.
Qed.

Lemma store_as_primary_quiet self w m :
  cluster addr_of w -> quiet w -> nodes w !! self = Some m -> processed_ops m !! op = None ->
  exists w', store_as_primary self p op k v w = (Ok tt, w') /\ env w' = env w.
Proof.
  intros Hc Hq Hm Hf.
  destruct (primary_write_quiet self (clock (env w)) w m Hc Hq Hm Hf) as (w' & Hrun & Hq').
  exists w'. split; [|done]. rewrite <- Hrun. unfold store_as_primary.
  rewrite (st_bind_eq now_ms _ w _ w eq_refl).
  rewrite (st_bind_eq _ _ w _ _ (on_my_eq self _ w m Hm)).
  rewrite should_process_fresh, bool_decide_eq_true_2 by done. cbn [negb].
  set (m1 := (should_process _ _ _).2). set (w1 := set_node self _ w).
  assert (nodes w1 !! self = Some m1) as Hm1 by apply lookup_insert_eq.
  rewrite !(st_bind_eq _ _ _ _ _ (update_eq self _ _ m1 Hm1)).
  rewrite (st_bind_eq _ _ _ _ _ (my_eq self (set_node self _ w1) _ (lookup_insert_eq _ _ _))).
  assert (partitioner (store_local p k v m1) = partitioner m) as -> by
    apply (should_process_data op).
  done.
Qed.

(** Where the forwarded write went, it was carried out in full. *)
Lemma forward_put_quiet self b w m mb :
  cluster addr_of w -> quiet w -> nodes w !! self = Some m ->
  b ∈ get_owners (partitioner m) p ->
  nodes w !! addr_of b = Some mb -> processed_ops mb !! op = None ->
  exists w', forward_put self b p op k v w = (Ok tt, w') /\ env w' = env w /\
    forall i, i ∈ tail (get_owners (partitioner m) p) -> recorded (addr_of i) w'.
Proof.
  intros Hc Hq Hm Hb Hmb Hf. destruct (forward_put_inv self b w) as (json & Hto & Hfrom & ->).
  rewrite (lookup_total_correct _ _ _ Hm).
  destruct (cluster_owner addr_of w Hc self m b p Hm Hb) as (n & _ & -> & -> & _ & _).
  destruct (store_as_primary_quiet (addr_of b) w mb Hc Hq Hmb Hf) as (w' & Hrun & Hq').
  rewrite (st_try_ok _ _ w (mkResponse OK (mkPutResponse true)) w').
  - exists w'. split_and!; [done..|]. intros i Hi.
    pose proof (store_as_primary_spec (addr_of b) w mb Hmb) as Hs. rewrite Hrun in Hs.
    destruct Hs as (_ & _ & Hall).
    assert (get_owners (partitioner m) p = get_owners (partitioner mb) p) as Ho.
    { apply (cluster_owners addr_of w Hc self m (addr_of b) mb p Hm Hmb). }
    rewrite Ho in Hi. destruct (Hall eq_refl Hf i Hi) as (ni & Hni & Hr).
    destruct (cluster_owner addr_of w Hc (addr_of b) mb i p Hmb) as (n' & _ & Hn' & Ha & _ & _).
    { simpl. destruct (get_owners (partitioner mb) p); [done|]. by right. }
    rewrite Hn' in Hni. injection Hni as <-. by rewrite Ha in Hr.
  - apply post_with_retry_quiet; [done|by eexists|]. by rewrite handle_forward_put_eq, Hrun.
Qed.
End quiet.
End one_write.

(** ** Properties of writes *)

(** An owner's address is another node's unless the owner is the node itself. *)
Lemma recorded_new addr_of op now self w m i p :
  cluster addr_of w -> fresh_op op w -> nodes w !! self = Some m ->
  i ∈ get_owners (partitioner m) p -> i <> local_id m ->
  ~ recorded op (addr_of i) (set_node self (should_process op now m).2 w).
Proof.
  intros Hc Hf Hm Hi Hne (m' & Hm' & Hr). simpl in Hm'.
  rewrite lookup_insert_ne in Hm'.
  - rewrite (Hf _ _ Hm') in Hr. by destruct Hr.
  - intros Heq. apply Hne. by apply (cluster_owner_addr_self addr_of w Hc self m i p Hm Hi).
Qed.

(** The record an owner list leads to. *)
Lemma owner_recorded addr_of op self w w' m b p :
  cluster addr_of w -> nodes w !! self = Some m -> b ∈ get_owners (partitioner m) p ->
  (exists n, get_member (view m) b = Some n /\ recorded op (http_addr n) w') ->
  recorded op (addr_of b) w'.
Proof.
  intros Hc Hm Hb (n & Hn & Hr).
  destruct (cluster_owner addr_of w Hc self m b p Hm Hb) as (n' & _ & Hn' & Ha & _ & _).
  rewrite Hn' in Hn. injection Hn as <-. by rewrite Ha in Hr.
Qed.

Lemma put_ok_holds addr_of self k v op w w' m :
  cluster addr_of w -> fresh_op op w -> nodes w !! self = Some m ->
  put_with_op self k v op w = (Ok tt, w') ->
  let p := get_partition (partitioner m) (key_to_string k) in
  let owners := get_owners (partitioner m) p in
  (owners = [] -> holds p k v self w') /\
  (forall i, head owners = Some i -> holds p k v (addr_of i) w') /\
  (head owners = Some (local_id m) -> forall i, i ∈ owners -> holds p k v (addr_of i) w').
Proof.
  intros Hc Hf Hm Hrun p owners.
  pose proof (cl_self _ _ Hc self m Hm : addr_of (local_id m) = self) as Hself.
  destruct (put_with_op_cases p k v op self w m _ w' Hm (Hf _ _ Hm) eq_refl Hrun)
    as [Ho _ Hs Hh|rest Ho Hs Hh Hrest|primary rest Ho Hne Hs Hfwd];
    unfold owners; rewrite Ho; simpl.
  - split_and!; [done|done|done].
  - assert (forall i, i ∈ local_id m :: rest -> holds p k v (addr_of i) w') as Hall.
    { intros i [->|Hi]%elem_of_cons; [by rewrite Hself|].
      assert (recorded op (addr_of i) w') as Hr.
      { eapply (owner_recorded addr_of op self w w' m i p Hc Hm); [rewrite Ho; by right|].
        by apply Hrest. }
      apply (step_new p k v op _ _ _ Hs) in Hr as [Hr|]; [|done].
      by apply (fresh_not_recorded op _ _ Hf) in Hr. }
    split_and!; [done| |done]. intros i [= <-]. apply Hall. left.
  - split_and!; [done| |by intros [= ->]]. intros i [= <-].
    assert (primary ∈ get_owners (partitioner m) p) as Hin by (rewrite Ho; left).
    pose proof (owner_recorded addr_of op self w w' m primary p Hc Hm Hin (Hfwd eq_refl)) as Hr.
    apply (step_new p k v op _ _ _ Hs) in Hr as [Hr|]; [|done].
    by apply (recorded_new addr_of op _ self w m primary p Hc Hf Hm Hin Hne) in Hr.
Qed.

(** C4: an acknowledged write is stored.  Whatever the network did, when [put_with_op] on a new
    operation id returns [Ok], the primary of the key's partition holds the value; if the writing
    node is itself the primary, so does every backup; with no owner at all the writer keeps it. *)
Theorem put_durable addr_of self k v op w w' m :
  cluster addr_of w -> fresh_op op w -> nodes w !! self = Some m ->
  put_with_op self k v op w = (Ok tt, w') ->
  let p := get_partition (partitioner m) (key_to_string k) in
  let owners := get_owners (partitioner m) p in
  (owners = [] -> holds p k v self w') /\
  (forall i, head owners = Some i -> holds p k v (addr_of i) w') /\
  (head owners = Some (local_id m) -> forall i, i ∈ owners -> holds p k v (addr_of i) w').
Proof. apply put_ok_holds. Qed.

(** Recording an operation at the writer leaves the cluster as it was. *)
Lemma recorded_same_host op now self w m :
  nodes w !! self = Some m -> pointwise same_host w (set_node self (should_process op now m).2 w).
Proof.
  intros Hm a. simpl. destruct (decide (a = self)) as [->|Hne].
  - rewrite lookup_insert_eq, Hm. constructor. apply (should_process_data op).
  - rewrite lookup_insert_ne by done. destruct (nodes w !! a); by constructor.
Qed.

Lemma cluster_recorded addr_of op now self w m :
  cluster addr_of w -> nodes w !! self = Some m ->
  cluster addr_of (set_node self (should_process op now m).2 w).
Proof.
  intros Hc Hm. apply (cluster_keeps addr_of w); [done|]. by apply recorded_same_host.
Qed.

Lemma put_quiet addr_of self k v op w m p :
  cluster addr_of w -> fresh_op op w -> nodes w !! self = Some m -> quiet w ->
  get_partition (partitioner m) (key_to_string k) = p ->
  exists w', put_with_op self k v op w = (Ok tt, w') /\ env w' = env w /\
    (head (get_owners (partitioner m) p) <> Some (local_id m) ->
     forall i, i ∈ tail (get_owners (partitioner m) p) -> recorded op (addr_of i) w').
Proof.
  intros Hc Hf Hm Hq Hp. rewrite (put_with_op_eq p k v op self w m Hm (Hf _ _ Hm) Hp).
  destruct (primary_write_quiet p k v op addr_of self (clock (env w)) w m Hc Hq Hm (Hf _ _ Hm))
    as (wp & Hwp & Hqp).
  set (m1 := (should_process op (clock (env w)) m).2) in *. set (w1 := set_node self m1 w) in *.
  assert (nodes w1 !! self = Some m1) as Hm1 by apply lookup_insert_eq.
  assert (partitioner m1 = partitioner m) as Hpm by apply (should_process_data op).
  destruct (get_owners (partitioner m) p) as [|primary rest] eqn:Eo.
  - rewrite (st_bind_eq _ _ _ _ _ (update_eq self _ w1 m1 Hm1)).
    eexists. split; [reflexivity|]. split; [done|]. intros _ i Hi. by apply elem_of_nil in Hi.
  - case_decide as Hd.
    + assert (primary ∈ get_owners (partitioner m) p) as Hin by (rewrite Eo; left).
      destruct (cluster_owner addr_of w Hc self m primary p Hm Hin) as (n & mb & _ & _ & Hmb & Hid).
      assert (addr_of primary <> self) as Hne.
      { intros Heq. apply Hd. symmetry.
        by apply (cluster_owner_addr_self addr_of w Hc self m primary p Hm Hin). }
      destruct (forward_put_quiet p k v op addr_of self primary w1 m1 mb) as (w' & Hrun & Hq' & Hr).
      * by apply cluster_recorded.
      * done.
      * done.
      * by rewrite Hpm.
      * simpl. by rewrite lookup_insert_ne.
      * by apply (Hf (addr_of primary)).
      * exists w'. rewrite (st_try_ok _ _ _ _ _ Hrun). split_and!; [done..|].
        intros _ i Hi. apply Hr. by rewrite Hpm, Eo.
    + exists wp. split_and!; [done..|]. simpl.
      intros Hh. exfalso. apply Hh. by rewrite Hd.
Qed.

(** A write from any node on a quiet network: the environment stays as it was. *)
Lemma put_quiet_holds addr_of self k v op w m :
  cluster addr_of w -> fresh_op op w -> nodes w !! self = Some m -> quiet w ->
  let p := get_partition (partitioner m) (key_to_string k) in
  let owners := get_owners (partitioner m) p in
  exists w', put_with_op self k v op w = (Ok tt, w') /\ env w' = env w /\
    forall i, i ∈ owners -> i <> local_id m \/ head owners = Some (local_id m) ->
      holds p k v (addr_of i) w'.
Proof.
  intros Hc Hf Hm Hq p owners.
  destruct (put_quiet addr_of self k v op w m p Hc Hf Hm Hq eq_refl) as (w' & Hrun & He & Hr).
  exists w'. split_and!; [done..|]. intros i Hi Hor.
  destruct (put_ok_holds addr_of self k v op w w' m Hc Hf Hm Hrun) as (_ & Hprim & Hall).
  destruct (decide (head owners = Some (local_id m))) as [Hh|Hh]; [by apply Hall|].
  destruct Hor as [Hne|]; [|done]. fold p owners in Hprim, Hall, Hr.
  assert (get_owners (partitioner m) p = owners) as Eo by done. clearbody owners.
  destruct owners as [|primary rest]; [by apply elem_of_nil in Hi|].
  apply elem_of_cons in Hi as [->|Hi]; [by apply Hprim|].
  assert (recorded op (addr_of i) w') as Hrec by (by apply Hr).
  destruct (put_with_op_cases p k v op self w m _ w' Hm (Hf _ _ Hm) eq_refl Hrun)
    as [Ho _ _ _|rest' Ho _ _ _|primary' rest' Ho _ Hs _].
  - by rewrite Ho in Eo.
  - rewrite Ho in Eo. injection Eo as <- <-. done.
  - apply (step_new p k v op _ _ _ Hs) in Hrec as [Hrec|]; [|done].
    apply (recorded_new addr_of op _ self w m i p) in Hrec; try done.
    rewrite Eo. by right.
Qed.

(** Availability.  On a quiet network a write with a new operation id succeeds from every
    node, and afterwards every owner holds the value, the writer excepted when it is an owner
    without being the primary. *)
Theorem put_available addr_of self k v op w m :
  cluster addr_of w -> fresh_op op w -> nodes w !! self = Some m -> quiet w ->
  let p := get_partition (partitioner m) (key_to_string k) in
  let owners := get_owners (partitioner m) p in
  exists w', put_with_op self k v op w = (Ok tt, w') /\ quiet w' /\
    forall i, i ∈ owners -> i <> local_id m \/ head owners = Some (local_id m) ->
      holds p k v (addr_of i) w'.
Proof.
  intros Hc Hf Hm Hq p owners.
  destruct (put_quiet_holds addr_of self k v op w m Hc Hf Hm Hq) as (w' & Hrun & He & Hall).
  exists w'. split_and!; [done|unfold quiet; by rewrite He|exact Hall].
Qed.

(** An operation id that the writer has seen makes [put_with_op] a successful no-op. *)
Lemma put_with_op_old self k v op w m :
  nodes w !! self = Some m -> is_Some (processed_ops m !! op) ->
  put_with_op self k v op w = (Ok tt, w).
Proof.
  intros Hm Hs. unfold put_with_op.
  rewrite (st_bind_eq now_ms _ w _ w eq_refl).
  rewrite (st_bind_eq _ _ w _ _ (on_my_eq self _ w m Hm)).
  rewrite should_process_old by done. cbn [negb fst snd]. by rewrite set_node_id.
Qed.

Definition framed (p : Z) (k : K) (v : V) m m' : Prop :=
  partitioner m' = partitioner m /\
  forall p' k', lookup_in p' k' m' = lookup_in p' k' m \/
                (p' = p /\ k' = k /\ lookup_in p' k' m' = Some v).
(** No operation id but [op] is recorded. *)
Definition ops_framed (op : string) m m' : Prop :=
  forall op', op' <> op -> is_Some (processed_ops m' !! op') -> is_Some (processed_ops m !! op').

Lemma framed_recorded p k v op now m : framed p k v m (should_process op now m).2.
Proof.
  pose proof (should_process_data op now m) as (Hd & Hp & _). split; [done|].
  intros p' k'. left. unfold lookup_in. by rewrite Hd.
Qed.

Lemma ops_framed_recorded op now m : ops_framed op m (should_process op now m).2.
Proof.
  intros op' Hne Hs. by destruct (should_process_other op op' now m Hne) as [E|E];
    rewrite E in Hs; [|destruct Hs as [x [=]]].
Qed.

(** A relation that the shards respect during a write holds across it. *)
Lemma put_with_op_rel (R : relation (DistributedMap K V)) `{!PreOrder R} self k v op w m p :
  (forall s s', wrote p k v op s s' -> R s s') ->
  (forall now s, R s (should_process op now s).2) ->
  nodes w !! self = Some m -> get_partition (partitioner m) (key_to_string k) = p ->
  pointwise R w (put_with_op self k v op w).2.
Proof.
  intros Hw Hrec Hm Hp.
  destruct (processed_ops m !! op) eqn:Hold.
  { rewrite (put_with_op_old self k v op w m Hm) by done. simpl. reflexivity. }
  destruct (put_with_op self k v op w) as [r w'] eqn:Hrun. simpl.
  destruct (put_with_op_cases p k v op self w m r w' Hm Hold Hp Hrun)
    as [_ _ Hs _|rest _ Hs _ _|primary rest _ _ Hs _];
    [exact (pointwise_mono _ _ _ _ Hw Hs)..|].
  etrans; [|exact (pointwise_mono _ _ _ _ Hw Hs)].
  intros a. simpl. destruct (decide (a = self)) as [->|Hne].
  - rewrite lookup_insert_eq, Hm. by constructor.
  - rewrite lookup_insert_ne by done. destruct (nodes w !! a); by constructor.
Qed.

#[local] Instance framed_preorder p k v : PreOrder (framed p k v).
Proof.
  split.
  - intros m. split; [done|]. by left.
  - intros m1 m2 m3 [H1 L1] [H2 L2]. split; [congruence|]. intros p' k'.
    destruct (L2 p' k') as [->|?]; [apply L1|by right].
Qed.
#[local] Instance ops_framed_preorder op : PreOrder (ops_framed op).
Proof. split; [by intros m op'|]. intros m1 m2 m3 H1 H2 op' Hne Hs. eauto. Qed.

Lemma put_with_op_framed self k v op w m p :
  nodes w !! self = Some m -> get_partition (partitioner m) (key_to_string k) = p ->
  pointwise (framed p k v) w (put_with_op self k v op w).2.
Proof.
  apply put_with_op_rel; [apply _| |intros; apply framed_recorded]. intros s s' []. by split.
Qed.

(** Other operation ids stay fresh. *)
Lemma put_fresh_other self k v op w m op' :
  nodes w !! self = Some m -> op' <> op -> fresh_op op' w ->
  fresh_op op' (put_with_op self k v op w).2.
Proof.
  intros Hm Hne Hf a ma' Hma'.
  assert (pointwise (ops_framed op) w (put_with_op self k v op w).2) as Hp.
  { eapply put_with_op_rel; [apply _| |intros; apply ops_framed_recorded|exact Hm|reflexivity].
    intros s s' Hw. exact (wr_other _ _ _ _ _ _ Hw). }
  destruct (pointwise_lookup_inv _ _ _ _ _ Hp Hma') as (ma & Hma & Hops).
  apply eq_None_not_Some. intros Hs%(Hops op' Hne). rewrite (Hf a ma Hma) in Hs. by destruct Hs.
Qed.

(** The data of a node that does not own the partition stays as it is. *)
Lemma put_owners_only addr_of self k v op w m a ma :
  cluster addr_of w -> nodes w !! self = Some m -> nodes w !! a = Some ma ->
  let p := get_partition (partitioner m) (key_to_string k) in
  get_owners (partitioner m) p <> [] -> local_id ma ∉ get_owners (partitioner m) p ->
  exists ma', nodes (put_with_op self k v op w).2 !! a = Some ma' /\
              local_data ma' = local_data ma.
Proof.
  intros Hc Hm Hma p Hne Hno.
  destruct (processed_ops m !! op) eqn:Hold.
  { rewrite (put_with_op_old self k v op w m Hm) by done. by exists ma. }
  rewrite (put_with_op_eq p k v op self w m Hm Hold eq_refl).
  set (A a := exists i, i ∈ get_owners (partitioner m) p /\ addr_of i = a).
  assert (~ A a) as HnA.
  { intros (i & Hi & Ha). apply Hno.
    rewrite (cluster_owners addr_of w Hc self m a ma p Hm Hma : get_owners (partitioner m) p = _)
      in Hi |- *.
    apply (cluster_owner_addr_self addr_of w Hc a ma i p Hma Hi) in Ha. rewrite Ha in Hi. exact Hi. }
  assert (forall w', cluster addr_of w' -> pointwise same_host w w' ->
    forall a' m' i, nodes w' !! a' = Some m' -> i ∈ get_owners (partitioner m') p ->
    A (addr_of i)) as HA.
  { intros w' Hc' Hs a' m' i Hm' Hi. exists i. split; [|done].
    destruct (pointwise_lookup _ _ _ _ _ Hs Hm) as (m1 & Hm1 & Hh).
    assert (partitioner m1 = partitioner m) as <- by exact Hh. 
    by rewrite (cluster_owners addr_of w' Hc' self m1 a' m' p Hm1 Hm' :
                  get_owners (partitioner m1) p = _). }
  pose proof (should_process_data op (clock (env w)) m) as (Hd & Hp1 & _).
  pose proof (wrote_process_store p k v op (clock (env w)) m) as Hw.
  rewrite should_process_fresh, bool_decide_eq_true_2 in Hw by done.
  set (m1 := (should_process op _ m).2) in *. set (w1 := set_node self m1 w).
  assert (nodes w1 !! self = Some m1) as Hm1 by apply lookup_insert_eq.
  destruct (get_owners (partitioner m) p) as [|primary rest] eqn:Eo; [done|]. case_decide as Hd'.
  - assert (cluster addr_of w1) as Hc1 by (by apply cluster_recorded).
    assert (exists ma1, nodes w1 !! a = Some ma1 /\ local_data ma1 = local_data ma) as
      (ma1 & Hma1 & Hd1).
    { unfold w1. simpl. destruct (decide (a = self)) as [->|Hne'].
      - exists m1. rewrite lookup_insert_eq. rewrite Hm in Hma. injection Hma as <-. by split.
      - exists ma. by rewrite lookup_insert_ne. }
    assert (touched p k v op w1 A (forward_put self primary p op k v w1).2) as [_ Ht].
    { apply (forward_put_touched p k v op addr_of w1 A Hc1) with (m := m1); [|done| |by split].
      - apply HA; [done|by apply recorded_same_host].
      - rewrite Hp1, Eo. left. }
    exists ma1. split; [|done]. rewrite <- Hma1. specialize (Ht a HnA). rewrite <- Ht.
    unfold st_try, st_bind. by destruct (forward_put _ _ _ _ _ _ w1) as [[] ?].
  - assert (A self) as HAs.
    { exists primary. split; [left|]. destruct (decide (local_id m = primary)) as [<-|]; [|done].
      apply (cl_self _ _ Hc self m Hm). }
    rewrite (st_bind_eq _ _ _ _ _ (update_eq self _ _ m1 Hm1)).
    set (m2 := store_local p k v m1) in *.
    assert (set_node self m2 w1 = set_node self m2 w) as ->.
    { unfold w1, set_node. simpl. by rewrite insert_insert_eq. }
    rewrite <- Eo, <- (wr_host _ _ _ _ _ _ Hw).
    assert (touched p k v op w A (replicate_to_backups self (get_owners (partitioner m2) p) p op k v
      (set_node self m2 w)).2) as [_ Ht].
    { apply (replicate_to_backups_touched p k v op addr_of w A Hc); [by apply HA| |].
      - apply lookup_insert_eq.
      - apply (set_node_touched p k v op w A self m); [done|done|done|by split]. }
    exists ma. split; [|done]. by rewrite (Ht a HnA).
Qed.

(** Confinement.  Whatever the network does and whatever [put_with_op] returns, it changes no
    key but its own, at no node, and there it leaves the old content or the value written;
    placement is untouched. *)
Theorem put_frame self k v op w r w' m a ma :
  nodes w !! self = Some m -> nodes w !! a = Some ma -> put_with_op self k v op w = (r, w') ->
  let p := get_partition (partitioner m) (key_to_string k) in
  exists ma', nodes w' !! a = Some ma' /\ partitioner ma' = partitioner ma /\
    forall p' k', lookup_in p' k' ma' = lookup_in p' k' ma \/
                  (p' = p /\ k' = k /\ lookup_in p' k' ma' = Some v).
Proof.
  intros Hm Hma Hrun p. pose proof (put_with_op_framed self k v op w m p Hm eq_refl) as Hp.
  rewrite Hrun in Hp. by apply (pointwise_lookup _ _ _ _ _ Hp).
Qed.

(** ** Reading *)

Section reading.
Context (path_segment : string -> option string).

Lemma get_hit self k w m x :
  nodes w !! self = Some m ->
  lookup_in (get_partition (partitioner m) (key_to_string k)) k m = Some x ->
  get path_segment self k w = (Some x, w).
Proof.
  intros Hm Hx. unfold get. rewrite (st_bind_eq _ _ _ _ _ (my_eq self w m Hm)). by rewrite Hx.
Qed.

(** Reading changes no node and draws no id, whatever becomes of the requests. *)
Lemma fetch_remote_reads self b k w :
  only_reads w (fetch_remote path_segment self b k w).2.
Proof.
  unfold fetch_remote, st_try, st_bind, resolve, st_get. destruct (get_member _ b) as [n|]; [|done].
  pose proof (get_with_retry_reads (http_addr n)
    (route_get_internal path_segment (http_addr n) (key_to_string k)) 3 w) as Hr. simpl.
  destruct (get_with_retry _ _ 3 w) as [[resp|e] w']; apply Hr; intros w0;
    unfold route_get_internal, handle_get_internal; (destruct (path_segment _) as [s|]; [|done]);
    by destruct (key_from_str s).
Qed.

Lemma fetch_first_reads self owners k w :
  only_reads w (fetch_first path_segment self owners k w).2.
Proof.
  revert w. induction owners as [|b owners IH]; intros w; simpl; [done|]. unfold st_bind.
  pose proof (fetch_remote_reads self b k w) as Hr.
  destruct (fetch_remote path_segment self b k w) as [[[v|]|e] w1]; [done|..]; (etrans; [exact Hr|apply IH]).
Qed.

Lemma get_reads self k w : only_reads w (get path_segment self k w).2.
Proof.
  unfold get, st_bind at 1. simpl. destruct (lookup_in _ k _); [done|].
  destruct (get_owners _ _) as [|b rest]; [done|]. case_decide; [apply fetch_first_reads|].
  unfold st_bind. pose proof (fetch_remote_reads self b k w) as Hr.
  destruct (fetch_remote path_segment self b k w) as [[[v|]|e] w1]; [done|..];
    (etrans; [exact Hr|apply fetch_first_reads]).
Qed.

(** A key whose request path reaches no handler cannot be fetched from another node. *)
Lemma fetch_remote_unroutable self b k w v :
  path_segment (key_to_string k) = None -> (fetch_remote path_segment self b k w).1 <> Ok (Some v).
Proof.
  intros Hseg. destruct (fetch_remote path_segment self b k w) as [r w'] eqn:Hrun.
  intros Hr. simpl in Hr. subst r. unfold fetch_remote in Hrun. inv_run.
  assert (PreOrder (fun _ _ : World (DistributedMap K V) => True)) as Htrue by done.
  apply (get_with_retry_ok _ _ (fun _ _ => True)) in Hrun1 as (wh & _ & _ & Hserve); [|done|done].
  unfold route_get_internal in Hserve. rewrite Hseg in Hserve. inv_run.
Qed.

Lemma fetch_first_unroutable self owners k w :
  path_segment (key_to_string k) = None -> (fetch_first path_segment self owners k w).1 = None.
Proof.
  intros Hseg. revert w. induction owners as [|b owners IH]; intros w; simpl; [done|].
  unfold st_bind. destruct (fetch_remote path_segment self b k w) as [r w'] eqn:Hrun.
  destruct r as [[v|]|e]; [|apply IH|apply IH].
  destruct (fetch_remote_unroutable self b k w v Hseg). by rewrite Hrun.
Qed.

Lemma get_unroutable self k w m :
  path_segment (key_to_string k) = None -> nodes w !! self = Some m -> get_local k m = None ->
  (get path_segment self k w).1 = None.
Proof.
  intros Hseg Hm Hno. unfold get. rewrite (st_bind_eq _ _ _ _ _ (my_eq self w m Hm)).
  unfold get_local in Hno. set (p := get_partition _ _) in *. rewrite Hno.
  destruct (get_owners (partitioner m) p) as [|b rest]; [done|].
  case_decide; [by apply fetch_first_unroutable|]. unfold st_bind.
  destruct (fetch_remote path_segment self b k w) as [r w'] eqn:Hrun.
  destruct r as [[v|]|e]; [|by apply fetch_first_unroutable..].
  destruct (fetch_remote_unroutable self b k w v Hseg). by rewrite Hrun.
Qed.

(** A node that forwards a new write has the same data afterwards. *)
Lemma forwarder_keeps_data addr_of self k v op w r w' m :
  cluster addr_of w -> fresh_op op w -> nodes w !! self = Some m ->
  local_id m ∈ tail (get_owners (partitioner m) (get_partition (partitioner m) (key_to_string k))) ->
  put_with_op self k v op w = (r, w') ->
  exists m', nodes w' !! self = Some m' /\ local_data m' = local_data m /\
             partitioner m' = partitioner m.
Proof.
  intros Hc Hf Hm Hin Hrun. set (p := get_partition _ _) in *.
  pose proof (cluster_owners_NoDup addr_of w Hc self m p Hm) as Hnd. simpl in Hnd.
  destruct (put_with_op_cases p k v op self w m r w' Hm (Hf _ _ Hm) eq_refl Hrun)
    as [Ho _ Hs _|rest Ho Hs _ _|primary rest Ho Hne Hs _]; rewrite Ho in Hin, Hnd; simpl in Hin.
  - by apply elem_of_nil in Hin.
  - by apply NoDup_cons in Hnd as [? _].
  - assert (nodes (set_node self (should_process op (clock (env w)) m).2 w) !! self =
            Some (should_process op (clock (env w)) m).2) as Hm1 by apply lookup_insert_eq.
    destruct (pointwise_lookup _ _ _ _ _ Hs Hm1) as (m' & Hm' & Hw).
    pose proof (should_process_data op (clock (env w)) m) as (Hd & Hpm & _).
    exists m'. split_and!; [done| |by rewrite (wr_host _ _ _ _ _ _ Hw)].
    rewrite (wr_frozen _ _ _ _ _ _ Hw); [done|]. apply should_process_recorded.
Qed.

(** The writer as backup is skipped.  A node that owns the partition as a backup and writes
    through the primary marks the operation as processed before it forwards it, so the replica the
    primary sends back is ignored: whatever [put_with_op] returns, the writer's own shard is what
    it was, and a read at the writer still returns the value it had before. *)
Theorem forwarding_backup_skipped addr_of self k v op w r w' m :
  cluster addr_of w -> fresh_op op w -> nodes w !! self = Some m ->
  let p := get_partition (partitioner m) (key_to_string k) in
  local_id m ∈ tail (get_owners (partitioner m) p) ->
  put_with_op self k v op w = (r, w') ->
  exists m', nodes w' !! self = Some m' /\ local_data m' = local_data m /\
    forall x, lookup_in p k m = Some x -> get path_segment self k w' = (Some x, w').
Proof.
  intros Hc Hf Hm p Hin Hrun.
  destruct (forwarder_keeps_data addr_of self k v op w r w' m Hc Hf Hm Hin Hrun) as (m' & Hm' & Hd & Hp).
  exists m'. split_and!; [done..|]. intros x Hx. apply (get_hit self k w' m' x Hm').
  rewrite Hp. fold p. unfold lookup_in in *. by rewrite Hd.
Qed.

Section one_key.
Context (k : K).
Hypothesis Hseg : path_segment (key_to_string k) = Some (key_to_string k).

Lemma route_get_internal_eq self w m :
  nodes w !! self = Some m ->
  exists resp, route_get_internal path_segment self (key_to_string k) w = (resp, w) /\
    match get_local k m with
    | Some x => exists json, resp = mkResponse OK (mkGetResponse (Some json)) /\
                             from_json json = Ok x
    | None => resp = mkResponse NOT_FOUND (mkGetResponse None)
    end.
Proof.
  intros Hm. unfold route_get_internal. rewrite Hseg. unfold handle_get_internal.
  rewrite key_roundtrip, (st_bind_eq _ _ _ _ _ (my_eq self w m Hm)).
  eexists. split; [reflexivity|]. destruct (get_local k m) as [x|]; [|done].
  destruct (serde_roundtrip x) as (json & -> & Hj). eauto.
Qed.

Lemma route_get_internal_nodes self w :
  is_Some (nodes w !! self) ->
  same_nodes w (route_get_internal path_segment self (key_to_string k) w).2.
Proof.
  intros [m Hm]. destruct (route_get_internal_eq self w m Hm) as (resp & -> & _). done.
Qed.

(** What [fetch_remote] makes of a response of the handler. *)
Lemma fetch_remote_spec self b w m :
  nodes w !! self = Some m ->
  let '(r, w') := fetch_remote path_segment self b k w in
  same_nodes w w' /\
  (forall o, r = Ok o -> exists n mb, get_member (view m) b = Some n /\
     nodes w !! http_addr n = Some mb /\ o = get_local k mb).
Proof.
  intros Hm. unfold fetch_remote, resolve, st_try, st_bind, st_get.
  rewrite (lookup_total_correct _ _ _ Hm).
  destruct (get_member (view m) b) as [n|]; [|by split]. simpl.
  set (serve := route_get_internal path_segment (http_addr n) (key_to_string k)).
  pose proof (get_with_retry_rel (http_addr n) serve same_nodes (fun _ _ Hs => Hs)
    (fun w0 Hup => route_get_internal_nodes (http_addr n) w0 Hup) 3 w) as Hs.
  pose proof (get_with_retry_ok (http_addr n) serve same_nodes (fun _ _ Hs => Hs)
    (fun w0 Hup => route_get_internal_nodes (http_addr n) w0 Hup) 3 w) as Hok.
  destruct (get_with_retry _ serve 3 w) as [[resp|e] w'] eqn:E; simpl in *; [|by split].
  split; [done|]. intros o Ho. destruct (Hok resp w' eq_refl) as (w0 & Hw0 & [mb Hmb] & Hserve).
  exists n, mb. split; [done|]. split; [by rewrite <- Hw0|].
  destruct (route_get_internal_eq (http_addr n) w0 mb Hmb) as (resp' & Hr & Hcase).
  unfold serve in Hserve. rewrite Hr in Hserve. injection Hserve as -> _.
  destruct (get_local k mb) as [x|].
  - destruct Hcase as (json & -> & Hj). simpl in Ho. rewrite Hj in Ho. by injection Ho as <-.
  - rewrite Hcase in Ho. simpl in Ho. by injection Ho as <-.
Qed.

Lemma fetch_remote_quiet self b w m n mb :
  nodes w !! self = Some m -> quiet w -> get_member (view m) b = Some n ->
  nodes w !! http_addr n = Some mb ->
  fetch_remote path_segment self b k w = (Ok (get_local k mb), w).
Proof.
  intros Hm Hq Hn Hmb. unfold fetch_remote, resolve.
  destruct (route_get_internal_eq (http_addr n) w mb Hmb) as (resp & Hr & Hcase).
  unfold st_try at 1. unfold st_get at 1. unfold st_bind at 1.
  rewrite (lookup_total_correct _ _ _ Hm), Hn. simpl.
  rewrite (st_try_ok _ _ w resp w) by
    (apply (get_with_retry_quiet _ _ 2); [done|by eexists|done]).
  destruct (get_local k mb) as [x|].
  - destruct Hcase as (json & -> & Hj). simpl. unfold st_ret. by rewrite Hj.
  - by rewrite Hcase.
Qed.

Lemma fetch_first_spec self owners w m :
  nodes w !! self = Some m ->
  let '(r, w') := fetch_first path_segment self owners k w in
  same_nodes w w' /\
  (forall x, r = Some x -> exists b n mb, b ∈ owners /\ get_member (view m) b = Some n /\
     nodes w !! http_addr n = Some mb /\ get_local k mb = Some x).
Proof.
  revert w. induction owners as [|b rest IH]; intros w Hm; simpl; [by split|].
  unfold st_bind. pose proof (fetch_remote_spec self b w m Hm) as Hf.
  destruct (fetch_remote _ self b k w) as [r w1]. destruct Hf as [Hs Hr].
  assert (let '(r', w') := fetch_first path_segment self rest k w1 in
    same_nodes w w' /\
    (forall x, r' = Some x -> exists b0 n mb, b0 ∈ b :: rest /\ get_member (view m) b0 = Some n /\
      nodes w !! http_addr n = Some mb /\ get_local k mb = Some x)) as Hrest.
  { specialize (IH w1 ltac:(by rewrite Hs)).
    destruct (fetch_first _ self rest k w1) as [r' w']. destruct IH as [Hs' Hr']. split.
    - by etrans.
    - intros x Hx. destruct (Hr' x Hx) as (b0 & n & mb & ? & ? & Hmb & ?). rewrite Hs in Hmb.
      exists b0, n, mb. split_and!; [by right|done..]. }
  destruct r as [[x|]|e]; [|done..]. simpl. split; [done|]. intros y [= <-].
  destruct (Hr _ eq_refl) as (n & mb & ? & ? & Hx). exists b, n, mb.
  split_and!; [left|done..].
Qed.

Lemma get_content self w m r w' :
  nodes w !! self = Some m -> get path_segment self k w = (r, w') ->
  same_nodes w w' /\
  forall x, r = Some x ->
    get_local k m = Some x \/
    exists b n mb, b ∈ get_owners (partitioner m) (get_partition (partitioner m) (key_to_string k)) /\
      get_member (view m) b = Some n /\ nodes w !! http_addr n = Some mb /\
      get_local k mb = Some x.
Proof.
  intros Hm. unfold get. rewrite (st_bind_eq _ _ _ _ _ (my_eq self w m Hm)).
  unfold get_local at 1. set (p := get_partition _ _).
  destruct (lookup_in p k m) as [y|] eqn:Hloc.
  { intros [= <- <-]. split; [done|]. intros x [= <-]. by left. }
  destruct (get_owners (partitioner m) p) as [|b rest] eqn:Eo; [by intros [= <- <-]|].
  case_decide.
  { intros Hrun. pose proof (fetch_first_spec self rest w m Hm) as Hs. rewrite Hrun in Hs.
    destruct Hs as [Hs Hr]. split; [done|]. intros x Hx. right.
    destruct (Hr x Hx) as (b0 & n & mb & ? & ?). exists b0, n, mb. split; [by right|done]. }
  unfold st_bind. pose proof (fetch_remote_spec self b w m Hm) as Hf.
  destruct (fetch_remote _ self b k w) as [ro w1]. destruct Hf as [Hs Hr].
  destruct ro as [[y|]|e].
  { intros [= <- <-]. split; [done|]. intros x [= <-]. right.
    destruct (Hr _ eq_refl) as (n & mb & ? & ? & Hx). exists b, n, mb. by split; [left|]. }
  all: intros Hrun; pose proof (fetch_first_spec self rest w1 m ltac:(by rewrite Hs)) as Hs1;
    rewrite Hrun in Hs1; destruct Hs1 as [Hs1 Hr1]; (split; [by etrans|]); intros x Hx; right;
    destruct (Hr1 x Hx) as (b0 & n & mb & ? & ? & Hmb & ?); rewrite Hs in Hmb;
    exists b0, n, mb; (split; [by right|done]).
Qed.

(** A read returns stored data.  Under any network, [get] changes nothing, and a value it
    returns is held, for that key, by the reader itself or by an owner of the key's partition. *)
Theorem get_sound self w m r w' :
  nodes w !! self = Some m -> get path_segment self k w = (r, w') ->
  same_nodes w w' /\
  forall x, r = Some x ->
    get_local k m = Some x \/
    exists b n mb, b ∈ get_owners (partitioner m) (get_partition (partitioner m) (key_to_string k)) /\
      get_member (view m) b = Some n /\ nodes w !! http_addr n = Some mb /\
      get_local k mb = Some x.
Proof. apply get_content. Qed.

(** On a quiet network every node reads what the primary holds, unless it holds something itself. *)
Lemma get_held addr_of w reader m v :
  let p := get_partition (partitioner m) (key_to_string k) in
  cluster addr_of w -> quiet w -> nodes w !! reader = Some m ->
  get_local k m = None \/ get_local k m = Some v ->
  get_owners (partitioner m) p <> [] ->
  (forall i, head (get_owners (partitioner m) p) = Some i -> holds p k v (addr_of i) w) ->
  get path_segment reader k w = (Some v, w).
Proof.
  intros p Hc Hq Hm [Hnone|Hl] Hne Hprim; [|by apply (get_hit reader k w m v Hm)].
  unfold get. rewrite (st_bind_eq _ _ _ _ _ (my_eq reader w m Hm)).
  unfold get_local in Hnone. fold p in Hnone |- *. rewrite Hnone.
  destruct (get_owners (partitioner m) p) as [|b rest] eqn:Eo; [done|].
  destruct (Hprim b eq_refl) as (mb & Hmb & Hv).
  assert (b ∈ get_owners (partitioner m) p) as Hin by (rewrite Eo; left).
  destruct (cluster_owner addr_of w Hc reader m b p Hm Hin) as (n & mb' & Hn & Ha & Hmb' & Hid).
  rewrite Hmb in Hmb'. injection Hmb' as <-. case_decide as Hb.
  - apply (cluster_owner_addr_self addr_of w Hc reader m b p Hm Hin) in Hb.
    rewrite Hb, Hm in Hmb. injection Hmb as ->. by rewrite Hnone in Hv.
  - rewrite <- Ha in Hmb.
    rewrite (st_bind_eq _ _ _ _ _ (fetch_remote_quiet reader b w m n mb Hm Hq Hn Hmb)).
    unfold get_local. assert (get_partition (partitioner mb) (key_to_string k) = p) as ->.
    { apply (cluster_partition addr_of w Hc _ mb reader m _ Hmb Hm). }
    by rewrite Hv.
Qed.

Lemma get_after_put addr_of self v op w w' m reader mr :
  cluster addr_of w -> fresh_op op w -> nodes w !! self = Some m ->
  nodes w !! reader = Some mr -> get_local k mr = None ->
  get_owners (partitioner m) (get_partition (partitioner m) (key_to_string k)) <> [] ->
  put_with_op self k v op w = (Ok tt, w') -> quiet w' ->
  get path_segment reader k w' = (Some v, w').
Proof.
  intros Hc Hf Hm Hmr Hnone Hne Hrun Hq.
  destruct (put_ok_holds addr_of self k v op w w' m Hc Hf Hm Hrun) as (_ & Hprim & _).
  pose proof (put_with_op_framed self k v op w m _ Hm eq_refl) as Hp. rewrite Hrun in Hp.
  simpl in Hp. set (p := get_partition (partitioner m) (key_to_string k)) in *.
  destruct (pointwise_lookup _ _ _ _ _ Hp Hmr) as (mr' & Hmr' & Hhr & Hlr).
  assert (get_partition (partitioner mr) (key_to_string k) = p) as Hpr.
  { symmetry. apply (cluster_partition addr_of w Hc self m reader mr _ Hm Hmr). }
  assert (get_owners (partitioner mr) p = get_owners (partitioner m) p) as Hor.
  { symmetry. apply (cluster_owners addr_of w Hc self m reader mr _ Hm Hmr). }
  apply (get_held addr_of w' reader mr'); rewrite ?Hhr, ?Hpr, ?Hor; try done.
  - apply (cluster_keeps addr_of w); [done|]. revert Hp. apply pointwise_mono. by intros ?? [].
  - unfold get_local in *. rewrite Hhr, Hpr. rewrite Hpr in Hnone.
    destruct (Hlr p k) as [->|(_ & _ & ->)]; [by left|by right].
Qed.

(** Read after write.  Once a write has been acknowledged, a quiet network lets every node that
    held nothing under the key before read the value written. *)
Theorem read_after_write addr_of self v op w w' m reader mr :
  cluster addr_of w -> fresh_op op w -> nodes w !! self = Some m ->
  nodes w !! reader = Some mr -> get_local k mr = None ->
  get_owners (partitioner m) (get_partition (partitioner m) (key_to_string k)) <> [] ->
  put_with_op self k v op w = (Ok tt, w') -> quiet w' ->
  get path_segment reader k w' = (Some v, w').
Proof. apply get_after_put. Qed.
(** On a quiet network a read leaves the world exactly as it is. *)
Lemma fetch_first_quiet addr_of self owners w m p :
  cluster addr_of w -> quiet w -> nodes w !! self = Some m ->
  (forall b, b ∈ owners -> b ∈ get_owners (partitioner m) p) ->
  exists r, fetch_first path_segment self owners k w = (r, w).
Proof.
  intros Hc Hq Hm. induction owners as [|b rest IH]; intros Hin; simpl; [by exists None|].
  destruct (cluster_owner addr_of w Hc self m b p Hm (Hin b ltac:(left))) as (n & mb & Hn & Ha & Hmb & _).
  rewrite <- Ha in Hmb.
  rewrite (st_bind_eq _ _ _ _ _ (fetch_remote_quiet self b w m n mb Hm Hq Hn Hmb)).
  destruct (get_local k mb) as [x|]; [by eexists|]. apply IH. intros b' Hb'. apply Hin. by right.
Qed.

Lemma get_quiet addr_of self w m :
  cluster addr_of w -> quiet w -> nodes w !! self = Some m ->
  exists r, get path_segment self k w = (r, w).
Proof.
  intros Hc Hq Hm. unfold get. rewrite (st_bind_eq _ _ _ _ _ (my_eq self w m Hm)).
  set (p := get_partition _ _). destruct (lookup_in p k m) as [x|]; [by eexists|].
  destruct (get_owners (partitioner m) p) as [|b rest] eqn:Eo; [by eexists|].
  assert (forall b', b' ∈ rest -> b' ∈ get_owners (partitioner m) p) as Hrest
    by (intros b' Hb'; rewrite Eo; by right).
  case_decide; [by apply (fetch_first_quiet addr_of self rest w m p)|].
  destruct (cluster_owner addr_of w Hc self m b p Hm) as (n & mb & Hn & Ha & Hmb & _).
  { simpl. rewrite Eo. left. }
  rewrite <- Ha in Hmb.
  rewrite (st_bind_eq _ _ _ _ _ (fetch_remote_quiet self b w m n mb Hm Hq Hn Hmb)).
  destruct (get_local k mb) as [x|]; [by eexists|].
  by apply (fetch_first_quiet addr_of self rest w m p).
Qed.

(** A key that no node holds reads as absent. *)
Lemma get_absent addr_of self w m :
  cluster addr_of w -> quiet w -> nodes w !! self = Some m ->
  (forall a ma, nodes w !! a = Some ma -> get_local k ma = None) ->
  get path_segment self k w = (None, w).
Proof.
  intros Hc Hq Hm Hno. destruct (get_quiet addr_of self w m Hc Hq Hm) as [r Hr].
  destruct r as [x|]; [|done]. exfalso.
  destruct (get_content self w m _ _ Hm Hr) as [_ Hx].
  destruct (Hx x eq_refl) as [Hl|(b & n & mb & _ & _ & Hmb & Hl)].
  - by rewrite (Hno self m Hm) in Hl.
  - by rewrite (Hno _ mb Hmb) in Hl.
Qed.
End one_key.
End reading.

(** Acknowledged but lost.  If the primary cannot be reached during the three attempts of a
    forwarded write, the write fails and is stored nowhere; but the writer has recorded the
    operation id, so that repeating the request with the same id, as a client that follows the
    protocol does, reports success, and still nothing is stored. *)
Theorem retried_write_lost addr_of self k v op w m primary rest fs :
  cluster addr_of w -> nodes w !! self = Some m -> processed_ops m !! op = None ->
  get_owners (partitioner m) (get_partition (partitioner m) (key_to_string k)) = primary :: rest ->
  primary <> local_id m -> fates (env w) = [Unreachable; Unreachable; Unreachable] ++ fs ->
  exists e w', put_with_op self k v op w = (Err e, w') /\
    put_with_op self k v op w' = (Ok tt, w') /\
    forall a ma, nodes w !! a = Some ma ->
      exists ma', nodes w' !! a = Some ma' /\ local_data ma' = local_data ma.
Proof.
  intros Hc Hm Hf Ho Hne Hfates.
  pose proof (should_process_data op (clock (env w)) m) as (Hd & Hpm & _).
  rewrite (put_with_op_eq _ k v op self w m Hm Hf eq_refl), Ho, decide_True by congruence.
  set (p := get_partition _ _) in *. set (m1 := (should_process _ _ m).2) in *.
  set (w1 := set_node self m1 w).
  assert (nodes w1 !! self = Some m1) as Hm1 by apply lookup_insert_eq.
  destruct (cluster_owner addr_of w Hc self m primary p Hm) as (n & _ & Hn & _ & _ & _).
  { simpl. rewrite Ho. left. }
  assert (view m1 = view m) as Hv by (unfold view; simpl; by rewrite Hpm).
  destruct (forward_put_inv p k v op self primary w1) as (json & _ & _ & Hfwd).
  rewrite (lookup_total_correct _ _ _ Hm1), Hv, Hn in Hfwd.
  destruct (post_with_retry_unreachable (http_addr n)
    (handle_forward_put (http_addr n) (mkForwardPut p op (key_to_string k) json)) 2 w1 fs Hfates)
    as (e & w' & Hrun & Hsame & _).
  rewrite (st_try_err _ _ _ _ _ Hrun) in Hfwd.
  exists e, w'. split_and!.
  - by apply st_try_err.
  - apply (put_with_op_old self k v op w' m1); [by rewrite Hsame|].
    apply should_process_recorded.
  - intros a ma Hma. rewrite Hsame. simpl. destruct (decide (a = self)) as [->|Hna].
    + rewrite lookup_insert_eq. exists m1. split; [done|]. rewrite Hd. by simplify_eq.
    + rewrite lookup_insert_ne by done. by exists ma.
Qed.

(** ** The HTTP interface *)

(** A client's round trip.  On a quiet network a PUT of a value under a fresh operation id is
    answered 200 by any node, and then a GET for the key at any node that held nothing under it is
    answered 200 with JSON that reads back as that value. *)
Theorem client_roundtrip path_segment addr_of self reader k v json op w m mr :
  path_segment (key_to_string k) = Some (key_to_string k) ->
  cluster addr_of w -> fresh_op op w -> quiet w ->
  nodes w !! self = Some m -> nodes w !! reader = Some mr -> get_local k mr = None ->
  get_owners (partitioner m) (get_partition (partitioner m) (key_to_string k)) <> [] ->
  from_json json = Ok v ->
  exists w' json',
    handle_put self (mkPut op (key_to_string k) json) w =
      (mkResponse OK (mkPutResponse true), w') /\
    handle_get path_segment reader (key_to_string k) w' =
      (mkResponse OK (mkGetResponse (Some json')), w') /\
    from_json json' = Ok v.
Proof.
  intros Hseg Hc Hf Hq Hm Hmr Hnone Hne Hj.
  destruct (put_quiet addr_of self k v op w m _ Hc Hf Hm Hq eq_refl) as (w' & Hrun & He & _).
  assert (quiet w') as Hq' by (unfold quiet; by rewrite He).
  pose proof (get_after_put path_segment k Hseg addr_of self v op w w' m reader mr
    Hc Hf Hm Hmr Hnone Hne Hrun Hq') as Hget.
  destruct (serde_roundtrip v) as (json' & Hto & Hfrom). exists w', json'. split_and!; [..|done].
  - unfold handle_put. simpl. rewrite key_roundtrip, Hj.
    by rewrite (st_bind_eq _ _ _ _ _ Hrun).
  - unfold handle_get. rewrite key_roundtrip, (st_bind_eq _ _ _ _ _ Hget). by rewrite Hto.
Qed.

(** ** Replays *)

(** One replication message: partition, operation, key, value and the time it arrives. *)
Definition replica_event : Type := Z * string * K * V * Z.
Definition apply_replica m (e : replica_event) : DistributedMap K V :=
  let '(p, op, k, v, now) := e in (store_replica p op k v now m).2.

Lemma should_process_size op now m :
  (size (processed_ops (should_process op now m).2) <= S (size (processed_ops m)))%nat.
Proof.
  unfold should_process. case_decide as Hd; [simpl; lia|]. simpl. case_bool_decide.
  - rewrite map_size_insert_None by apply lookup_empty. rewrite map_size_empty. lia.
  - rewrite map_size_insert_None by (by apply eq_None_not_Some). lia.
Qed.

Lemma should_process_remembers op op' now m :
  Z.of_nat (size (processed_ops m)) <= 10000 -> is_Some (processed_ops m !! op) ->
  is_Some (processed_ops (should_process op' now m).2 !! op).
Proof.
  intros Hb Ho. destruct (decide (op' = op)) as [->|Hne]; [apply should_process_recorded|].
  unfold should_process. case_decide; [done|]. simpl. rewrite bool_decide_eq_false_2 by lia.
  by rewrite lookup_insert_ne.
Qed.

Lemma apply_replica_ops m p op k v now :
  processed_ops (apply_replica m (p, op, k, v, now)) =
    processed_ops (should_process op now m).2.
Proof. simpl. rewrite store_replica_state. by destruct (should_process op now m).1. Qed.

(** The replay window.  A replica that has processed an operation ignores every later copy of
    it, whatever was replicated in between, as long as the table of processed operations is not
    flushed: with [n] entries in the table, during the next [10001 - n] replication messages. *)
Theorem replay_window m op events p k v now :
  is_Some (processed_ops m !! op) ->
  Z.of_nat (size (processed_ops m)) + Z.of_nat (length events) <= 10001 ->
  let m' := foldl apply_replica m events in
  store_replica p op k v now m' = (Ok tt, m').
Proof.
  intros Ho Hb m'.
  assert (is_Some (processed_ops m' !! op)) as Hs.
  { subst m'. revert m Ho Hb. induction events as [|[[[[p0 op0] k0] v0] now0] events IH];
      intros m Ho Hb; [done|]. simpl in Hb. cbn [foldl]. apply IH.
    - rewrite apply_replica_ops. apply should_process_remembers; [lia|done].
    - rewrite apply_replica_ops. pose proof (should_process_size op0 now0 m). lia. }
  unfold store_replica. by rewrite should_process_old.
Qed.

(** After the flush an old message is applied again and overwrites what was written since. *)
Lemma replay_after_flush m op op' p k v v' now now' :
  10000 < Z.of_nat (size (processed_ops m)) -> op' <> op -> processed_ops m !! op' = None ->
  let m1 := (store_replica p op' k v' now m).2 in
  lookup_in p k m1 = Some v' /\
  lookup_in p k (store_replica p op k v now' m1).2 = Some v.
Proof.
  intros Hb Hne Ho m1.
  assert (should_process op' now m = (true, set_ops {[ op' := now ]} m)) as Hsp.
  { unfold should_process. rewrite decide_False by (rewrite Ho; by intros [? [=]]).
    by rewrite bool_decide_eq_true_2. }
  assert (m1 = store_local p k v' (set_ops {[ op' := now ]} m)) as ->
    by (unfold m1, store_replica; by rewrite Hsp).
  split; [apply lookup_in_store_eq|]. rewrite store_replica_state, should_process_fresh.
  rewrite bool_decide_eq_true_2; [apply lookup_in_store_eq|]. simpl.
  by rewrite lookup_singleton_ne.
Qed.

(** ** Copying partitions *)

Lemma parse_dump (entries : list (K * V)) :
  parse_entries (omap (fun e => (fun value_json => mkKeyValue (key_to_string e.1) value_json)
                                  <$> result_ok (to_json e.2)) entries) = Ok entries.
Proof.
  induction entries as [|[k v] entries IH]; [done|]. cbn [omap list_omap fst snd].
  destruct (serde_roundtrip v) as (json & -> & Hj). cbn [result_ok fmap option_fmap option_map].
  cbn [parse_entries kv_key kv_value_json]. rewrite key_roundtrip, Hj. cbn [mbind result_bind].
  by rewrite IH.
Qed.

Lemma handle_partition_dump_eq self p w m :
  nodes w !! self = Some m ->
  handle_partition_dump self p w =
    (mkResponse OK (mkDump p (omap (fun e => (fun value_json =>
       mkKeyValue (key_to_string e.1) value_json) <$> result_ok (to_json e.2))
       (dump_partition p m))), w).
Proof. intros Hm. unfold handle_partition_dump. by rewrite (st_bind_eq _ _ _ _ _ (my_eq self w m Hm)). Qed.

Lemma fetch_partition_quiet self b p w m n mb :
  nodes w !! self = Some m -> quiet w -> get_member (view m) b = Some n ->
  nodes w !! http_addr n = Some mb ->
  fetch_partition self b p w = (Ok (dump_partition p mb), w).
Proof.
  intros Hm Hq Hn Hmb. unfold fetch_partition, resolve.
  unfold st_try at 1. unfold st_get at 1. unfold st_bind at 1.
  rewrite (lookup_total_correct _ _ _ Hm), Hn. simpl.
  rewrite (st_try_ok _ _ w _ w
    (get_with_retry_quiet _ _ 2 w _ w Hq (mk_is_Some _ _ Hmb)
       (handle_partition_dump_eq (http_addr n) p w mb Hmb))).
  unfold st_ret. simpl. by rewrite parse_dump.
Qed.

Lemma fetch_partition_spec self b p w m :
  nodes w !! self = Some m ->
  let '(r, w') := fetch_partition self b p w in
  same_nodes w w' /\
  (forall es, r = Ok es -> exists n mb, get_member (view m) b = Some n /\
     nodes w !! http_addr n = Some mb /\ es = dump_partition p mb).
Proof.
  intros Hm. unfold fetch_partition, resolve, st_try, st_bind, st_get.
  rewrite (lookup_total_correct _ _ _ Hm).
  destruct (get_member (view m) b) as [n|]; [|by split]. simpl.
  set (serve := handle_partition_dump (http_addr n) p).
  assert (forall w0, is_Some (nodes w0 !! http_addr n) -> same_nodes w0 (serve w0).2) as Hserve.
  { intros w0 [mb Hmb]. unfold serve. by rewrite (handle_partition_dump_eq _ p w0 mb Hmb). }
  pose proof (get_with_retry_rel (http_addr n) serve same_nodes (fun _ _ Hs => Hs) Hserve 3 w)
    as Hs.
  pose proof (get_with_retry_ok (http_addr n) serve same_nodes (fun _ _ Hs => Hs) Hserve 3 w)
    as Hok.
  destruct (get_with_retry _ serve 3 w) as [[resp|e] w'] eqn:E; simpl in *; [|by split].
  split; [done|]. intros es Hes.
  destruct (Hok resp w' eq_refl) as (w0 & Hw0 & [mb Hmb] & Hrun).
  exists n, mb. split; [done|]. split; [by rewrite <- Hw0|].
  unfold serve in Hrun. rewrite (handle_partition_dump_eq _ p w0 mb Hmb) in Hrun.
  injection Hrun as <- <-. simpl in Hes. rewrite parse_dump in Hes. by injection Hes as <-.
Qed.
End spec.

(** ** A cluster of three nodes

    Nodes [a], [b] and [c], replication factor 2, and a map of booleans.  Key ["k2"] falls into a
    partition whose primary is [b] and whose backup is [c]. *)
#[export] Instance bool_serde : Serde bool :=
  { to_json b := Ok (if b then "true" else "false")%string;
    from_json j := if decide (j = "true"%string) then Ok true
                   else if decide (j = "false"%string) then Ok false
                   else Err "invalid JSON" }.
#[export] Instance bool_serde_laws : SerdeLaws bool.
Proof. intros [|]; eexists; by split. Qed.

Module Example.
Definition example_shard (x : string) : DistributedMap string bool :=
  new_with_base (example_pm ["a"; "b"; "c"] 2 x) "".

Definition example_world (e : Env) : World (DistributedMap string bool) :=
  mkWorld (example_nodes ["a"; "b"; "c"] example_shard) e.

Definition calm : Env := mkEnv [] [] [] 0.
Definition faulty (fs : list Fate) : Env := mkEnv fs [3; 18; 40] [] 0.
Definition on (x : string) : SocketAddr := mkAddr x 6000.

(** The request of a path segment that needs no escaping. *)
Definition plain_segment (s : string) : option string := Some s.

Lemma example_world_cluster e : cluster example_addr (example_world e).
Proof.
  apply (example_cluster _ 2); [done|]. apply (bool_decide_unpack _). vm_compute. exact I.
Qed.

Lemma example_fresh op e : fresh_op op (example_world e).
Proof. intros a m (x & _ & -> & ->)%example_nodes_inv. done. Qed.

Lemma in_a : "a" ∈ ["a"; "b"; "c"].
Proof. left. Qed.
Lemma in_b : "b" ∈ ["a"; "b"; "c"].
Proof. right. left. Qed.
Lemma in_c : "c" ∈ ["a"; "b"; "c"].
Proof. do 2 right. left. Qed.

Lemma example_shard_at x e :
  x ∈ ["a"; "b"; "c"] -> nodes (example_world e) !! on x = Some (example_shard x).
Proof.
  intros Hx. apply example_nodes_lookup; [|done].
  apply (bool_decide_unpack _). vm_compute. exact I.
Qed.

Lemma run_eq {W A} (f : ST W A) w r : (f w).1 = r -> f w = (r, (f w).2).
Proof. intros <-. by destruct (f w). Qed.

Lemma example_empty x key : get_local key (example_shard x) = None.
Proof. unfold get_local. generalize (get_partition (partitioner (example_shard x))). done. Qed.

Definition part (key : string) : Z :=
  get_partition (partitioner (example_shard "a")) (key_to_string key).

(** The first reply to [a]'s write is lost, the second attempt succeeds. *)
Lemma put_durable_witness :
  let w := example_world (faulty [ReplyLost; Delivered]) in
  holds (part "k2") "k2" true (on "b") (put_with_op (on "a") "k2" true "op" w).2.
Proof.
  intros w.
  destruct (put_durable example_addr (on "a") "k2" true "op" w
    (put_with_op (on "a") "k2" true "op" w).2 (example_shard "a")
    (example_world_cluster _) (example_fresh _ _) (example_shard_at "a" _ in_a))
    as (_ & Hp & _).
  - apply run_eq. vm_compute. reflexivity.
  - apply (Hp (mkId "b")). vm_compute. reflexivity.
Defined.

Lemma put_available_witness :
  let w := example_world calm in
  exists w', put_with_op (on "a") "k2" true "op" w = (Ok tt, w') /\
    holds (part "k2") "k2" true (on "b") w' /\ holds (part "k2") "k2" true (on "c") w'.
Proof.
  intros w.
  destruct (put_available example_addr (on "a") "k2" true "op" w (example_shard "a")
    (example_world_cluster _) (example_fresh _ _) (example_shard_at "a" _ in_a)
    eq_refl) as (w' & Hrun & _ & Hall).
  assert (get_owners (partitioner (example_shard "a")) (part "k2") = [mkId "b"; mkId "c"])
    as Ho by (vm_compute; reflexivity).
  exists w'. split_and!; [done| |].
  - apply (Hall (mkId "b")); [unfold part in Ho; rewrite Ho; left|left; done].
  - apply (Hall (mkId "c")); [unfold part in Ho; rewrite Ho; right; left|left; done].
Defined.

Lemma put_frame_witness :
  let w := example_world (faulty [ReplyLost; Unreachable; Unreachable]) in
  let w' := (put_with_op (on "a") "k2" true "op" w).2 in
  exists mc', nodes w' !! on "c" = Some mc' /\
    (lookup_in (part "k2") "k2" mc' = None \/ lookup_in (part "k2") "k2" mc' = Some true).
Proof.
  intros w w'.
  destruct (put_frame (on "a") "k2" true "op" w (put_with_op (on "a") "k2" true "op" w).1 w'
    (example_shard "a") (on "c") (example_shard "c") (example_shard_at "a" _ in_a)
    (example_shard_at "c" _ in_c) (surjective_pairing _)) as (mc' & Hmc & _ & Hl).
  exists mc'. split; [done|].
  destruct (Hl (part "k2") "k2") as [->|(_ & _ & ->)]; [left; done|right; done].
Defined.

(** [c] is the backup of ["k2"] and still holds [false] after writing [true]. *)
Definition updated_shard (x : string) : DistributedMap string bool :=
  store_local (part "k2") "k2" false (example_shard x).
Definition updated_world (e : Env) : World (DistributedMap string bool) :=
  mkWorld (example_nodes ["a"; "b"; "c"] updated_shard) e.

Lemma updated_world_cluster e : cluster example_addr (updated_world e).
Proof.
  apply (example_cluster _ 2); [done|]. apply (bool_decide_unpack _). vm_compute. exact I.
Qed.
Lemma updated_fresh op e : fresh_op op (updated_world e).
Proof. intros a m (x & _ & -> & ->)%example_nodes_inv. done. Qed.
Lemma updated_shard_at x e :
  x ∈ ["a"; "b"; "c"] -> nodes (updated_world e) !! on x = Some (updated_shard x).
Proof.
  intros Hx. apply example_nodes_lookup; [|done].
  apply (bool_decide_unpack _). vm_compute. exact I.
Qed.

Lemma forwarding_backup_skipped_witness :
  let w := updated_world calm in
  let '(r, w') := put_with_op (on "c") "k2" true "op" w in
  r = Ok tt /\ get plain_segment (on "c") "k2" w' = (Some false, w').
Proof.
  intros w. destruct (put_with_op (on "c") "k2" true "op" w) as [r w'] eqn:Hrun. split.
  - change r with (fst (r, w')). rewrite <- Hrun. vm_compute. reflexivity.
  - destruct (forwarding_backup_skipped plain_segment example_addr (on "c") "k2" true "op" w r w'
      (updated_shard "c") (updated_world_cluster _) (updated_fresh _ _)
      (updated_shard_at "c" _ in_c)) as (m' & _ & _ & Hget).
    + apply (bool_decide_unpack _). vm_compute. exact I.
    + exact Hrun.
    + apply Hget. apply lookup_in_store_eq.
Defined.

Lemma get_sound_witness :
  let w := updated_world (faulty [Unreachable; ReplyLost]) in
  same_nodes w (get plain_segment (on "a") "k2" w).2.
Proof.
  intros w.
  apply (get_sound plain_segment "k2" eq_refl (on "a") w (updated_shard "a")
    (get plain_segment (on "a") "k2" w).1 (get plain_segment (on "a") "k2" w).2
    (updated_shard_at "a" _ in_a) (surjective_pairing _)).
Defined.

Lemma part_k2 x : get_owners (partitioner (example_shard x)) (part "k2") = [mkId "b"; mkId "c"].
Proof.
  assert (forall y, id <$> get_alive_members (membership (partitioner (example_shard y))) =
                    id <$> get_alive_members (membership (partitioner (example_shard "a")))) as H.
  { done. }
  unfold get_owners. rewrite H. vm_compute. reflexivity.
Qed.

Lemma read_after_write_witness :
  let w := example_world (faulty [ReplyLost]) in
  let w' := (put_with_op (on "a") "k2" true "op" w).2 in
  get plain_segment (on "a") "k2" w' = (Some true, w').
Proof.
  intros w w'.
  assert (put_with_op (on "a") "k2" true "op" w = (Ok tt, w')) as Hrun
    by (apply run_eq; vm_compute; reflexivity).
  assert (quiet w') as Hq by (vm_compute; reflexivity).
  assert (get_owners (partitioner (example_shard "a")) (part "k2") <> []) as Ho
    by (by rewrite part_k2).
  clearbody w'.
  pose proof (read_after_write plain_segment "k2" eq_refl example_addr (on "a") true "op" w w'
    (example_shard "a") (on "a") (example_shard "a")) as Hread.
  specialize (Hread (example_world_cluster _) (example_fresh _ _) (example_shard_at "a" _ in_a)
    (example_shard_at "a" _ in_a) (example_empty _ _)).
  exact (Hread Ho Hrun Hq).
Defined.

Lemma retried_write_lost_witness :
  let w := example_world (faulty [Unreachable; Unreachable; Unreachable]) in
  exists e w', put_with_op (on "a") "k2" true "op" w = (Err e, w') /\
    put_with_op (on "a") "k2" true "op" w' = (Ok tt, w').
Proof.
  intros w.
  pose proof (part_k2 "a") as Ho. unfold part in Ho.
  pose proof (retried_write_lost example_addr (on "a") "k2" true "op" w (example_shard "a")
    (mkId "b") [mkId "c"] []) as Hlost.
  specialize (Hlost (example_world_cluster _) (example_shard_at "a" _ in_a)).
  specialize (Hlost eq_refl Ho ltac:(discriminate) eq_refl) as (e & w' & H1 & H2 & _).
  exists e, w'. split; [exact H1|exact H2].
Defined.

Lemma client_roundtrip_witness :
  let w := example_world calm in
  exists w' json',
    handle_put (on "b") (mkPut "op" "k2" "true") w = (mkResponse OK (mkPutResponse true), w') /\
    handle_get plain_segment (on "a") "k2" w' =
      (mkResponse OK (mkGetResponse (Some json')), w') /\
    from_json json' = Ok true.
Proof.
  intros w.
  assert (get_owners (partitioner (example_shard "b")) (part "k2") <> []) as Ho
    by (by rewrite part_k2).
  pose proof (client_roundtrip plain_segment example_addr (on "b") (on "a") "k2" true "true" "op" w
    (example_shard "b") (example_shard "a") eq_refl) as Hrt.
  specialize (Hrt (example_world_cluster _) (example_fresh _ _) eq_refl
    (example_shard_at "b" _ in_b) (example_shard_at "a" _ in_a) (example_empty _ _)).
  exact (Hrt Ho eq_refl).
Defined.

Lemma replay_window_witness :
  let m := (store_replica 191 "op" "k2" true 5 (example_shard "c")).2 in
  let m' := apply_replica m (191, "op'", "k2", false, 7) in
  store_replica 191 "op" "k2" true 9 m' = (Ok tt, m').
Proof.
  apply (replay_window (store_replica 191 "op" "k2" true 5 (example_shard "c")).2 "op"
    [(191, "op'", "k2", false, 7)] 191 "k2" true 9).
  - vm_compute. by eexists.
  - vm_compute. discriminate.
Defined.

(** Acknowledged without a replica.  The primary stores a forwarded write but cannot reach its
    backup, and its error reply is lost; the forwarding node's second attempt finds the operation
    processed and is told that all is well.  The write is acknowledged with one copy. *)
Theorem lost_reply_skips_replicas :
  let w := example_world (faulty [ReplyLost; Unreachable; Unreachable; Unreachable]) in
  let '(r, w') := put_with_op (on "a") "k2" true "op" w in
  r = Ok tt /\ quiet w' /\
  get_owners (partitioner (example_shard "a")) (part "k2") = [mkId "b"; mkId "c"] /\
  lookup_in (part "k2") "k2" (nodes w' !!! on "b") = Some true /\
  lookup_in (part "k2") "k2" (nodes w' !!! on "c") = None.
Proof. vm_compute. split_and!; reflexivity. Qed.
End Example.
