(* ===== verification/StorageSpec.v ===== *)
(** * The distributed map as a map: an abstract specification of storage/memory.rs

    Without faults and with one operation at a time, [DistributedMap] behaves like one finite map
    that all nodes share, as long as no node that holds an old copy forwards a write.
    [represents d w] relates the shards of the cluster to that map; [get] and [put] refine its
    lookup and insertion.  The components above (search, indexing, ingestion) are verified against
    this file. *)

From S2P Require Import Prelude Membership Partitioner Net Topology Storage StorageNet.

#[local] Open Scope Z_scope.

#[local] Strategy 1000 [get_partition get_owners].

Section refinement.
Context {K V : Type} `{Countable K, !RustKey K, !RustKeyLaws K, !Serde V, !SerdeLaws V}.
Context (path_segment : string -> option string) (addr_of : NodeId -> SocketAddr).
Implicit Types m : DistributedMap K V.
Implicit Types w : World (DistributedMap K V).
Implicit Types d : gmap K V.

Definition home m (k : K) : Z := get_partition (partitioner m) (key_to_string k).
Definition owners m (k : K) : list NodeId := get_owners (partitioner m) (home m k).

Record represents d w : Prop := {
  rp_cluster : cluster addr_of w;
  rp_quiet : quiet w;
  rp_owned a m k : nodes w !! a = Some m -> owners m k <> [];
  rp_sound a m k v : nodes w !! a = Some m -> get_local k m = Some v ->
    d !! k = Some v /\ local_id m ∈ owners m k;
  rp_primary a m k v i : nodes w !! a = Some m -> d !! k = Some v ->
    head (owners m k) = Some i -> holds (home m k) k v (addr_of i) w;
}.

(** A node may write under a key if it is the primary of the key or holds no copy. *)
Definition may_write m (k : K) : Prop :=
  head (owners m k) = Some (local_id m) \/ get_local k m = None.

Lemma home_agree w a m a' m' k :
  cluster addr_of w -> nodes w !! a = Some m -> nodes w !! a' = Some m' ->
  home m k = home m' k /\ owners m k = owners m' k.
Proof.
  intros Hc Hm Hm'.
  pose proof (cluster_partition addr_of w Hc a m a' m' (key_to_string k) Hm Hm') as Hp.
  simpl in Hp. unfold owners, home. rewrite Hp. split; [done|].
  apply (cluster_owners addr_of w Hc a m a' m' _ Hm Hm').
Qed.

(** [get] looks the key up. *)
Lemma get_represents d w self m k :
  path_segment (key_to_string k) = Some (key_to_string k) ->
  represents d w -> nodes w !! self = Some m ->
  get path_segment self k w = (d !! k, w).
Proof.
  intros Hseg [Hc Hq Ho Hs Hp] Hm. destruct (d !! k) as [v|] eqn:Hd.
  - apply (get_held path_segment k Hseg addr_of w self m v Hc Hq Hm).
    + destruct (get_local k m) as [x|] eqn:Hl; [|by left]. right.
      destruct (Hs self m k x Hm Hl). congruence.
    + exact (Ho self m k Hm).
    + intros i Hi. exact (Hp self m k v i Hm Hd Hi).
  - apply (get_absent path_segment k Hseg addr_of self w m Hc Hq Hm).
    intros a ma Hma. destruct (get_local k ma) as [x|] eqn:Hl; [|done].
    destruct (Hs a ma k x Hma Hl). congruence.
Qed.

(** A node that has a copy after a write to [k] is an owner, and its copy is the new value. *)
Lemma put_sound d w w' self m k v op a m' x :
  represents d w -> fresh_op op w -> nodes w !! self = Some m -> may_write m k ->
  put_with_op self k v op w = (Ok tt, w') -> nodes w' !! a = Some m' ->
  get_local k m' = Some x -> x = v /\ local_id m' ∈ owners m' k.
Proof.
  intros [Hc Hq Ho Hs _] Hf Hm Hmay Hrun Hm' Hx.
  pose proof (put_with_op_framed self k v op w m _ Hm eq_refl) as Hp. rewrite Hrun in Hp.
  destruct (pointwise_lookup_inv _ _ _ _ _ Hp Hm') as (m0 & Hm0 & Hh & Hl).
  destruct (home_agree w self m a m0 k Hc Hm Hm0) as [Hhome Hown].
  unfold get_local in Hx. rewrite Hh in Hx. fold (home m0 k) in Hx.
  assert (local_id m' = local_id m0) as Hid by (unfold local_id; by rewrite Hh).
  assert (owners m' k = owners m0 k) as Ho' by (unfold owners, home; by rewrite Hh).
  rewrite Hid, Ho'. assert (local_id m0 ∈ owners m0 k) as Hin.
  { destruct (decide (local_id m0 ∈ owners m0 k)) as [|Hno]; [done|].
    destruct (put_owners_only addr_of self k v op w m a m0 Hc Hm Hm0) as (m1 & Hm1 & Hd).
    - exact (Ho self m k Hm).
    - change (local_id m0 ∉ owners m k). by rewrite Hown.
    - rewrite Hrun in Hm1. simpl in Hm1. rewrite Hm' in Hm1. injection Hm1 as <-.
      apply (fun E => proj2 (Hs a m0 k x Hm0 E)). unfold get_local, lookup_in in *. by rewrite <- Hd. }
  split; [|done].
  destruct (put_quiet_holds addr_of self k v op w m Hc Hf Hm Hq) as (w1 & Hrun1 & _ & Hall).
  rewrite Hrun in Hrun1. injection Hrun1 as <-. fold (home m k) (owners m k) in Hall.
  rewrite Hown, Hhome in Hall. pose proof (cl_self _ _ Hc a m0 Hm0 : addr_of (local_id m0) = a) as Ha.
  assert (holds (home m0 k) k v a w' -> x = v) as Hdone.
  { intros (m1 & Hm1 & Hv). rewrite Hm' in Hm1. injection Hm1 as <-. congruence. }
  destruct (decide (local_id m0 = local_id m)) as [Heq|Hne].
  2:{ apply Hdone. rewrite <- Ha. apply Hall; [done|by left]. }
  assert (a = self) as -> by (rewrite <- Ha, Heq; apply (cl_self _ _ Hc self m Hm)).
  rewrite Hm in Hm0. injection Hm0 as <-. destruct Hmay as [Hprim|Hnone].
  - apply Hdone. rewrite <- Ha. apply Hall; [done|by right].
  - destruct (Hl (home m k) k) as [Hold|(_ & _ & Hnew)]; [|congruence].
    unfold get_local in Hnone. unfold home in Hold, Hx. congruence.
Qed.

(** [put_with_op] inserts. *)
Lemma put_represents d w self m k v op :
  represents d w -> fresh_op op w -> nodes w !! self = Some m -> may_write m k ->
  exists w', put_with_op self k v op w = (Ok tt, w') /\ env w' = env w /\
             represents (<[k := v]> d) w'.
Proof.
  intros Hrep Hf Hm Hmay. pose proof Hrep as [Hc Hq Ho Hs Hp].
  destruct (put_quiet_holds addr_of self k v op w m Hc Hf Hm Hq) as (w' & Hrun & He & _).
  exists w'. split_and!; [done..|].
  pose proof (put_with_op_framed self k v op w m _ Hm eq_refl) as Hfr. rewrite Hrun in Hfr.
  simpl in Hfr. assert (forall a m', nodes w' !! a = Some m' -> exists m0,
    nodes w !! a = Some m0 /\ partitioner m' = partitioner m0 /\ (forall k', k' <> k ->
      lookup_in (home m0 k') k' m' = lookup_in (home m0 k') k' m0)) as Hinv.
  { intros a m' Hm'. destruct (pointwise_lookup_inv _ _ _ _ _ Hfr Hm') as (m0 & Hm0 & Hh & Hl).
    exists m0. split_and!; [done..|]. intros k' Hne.
    by destruct (Hl (home m0 k') k') as [?|(_ & ? & _)]. }
  split.
  - apply (cluster_keeps addr_of w); [done|]. revert Hfr. apply pointwise_mono. by intros ?? [].
  - unfold quiet. by rewrite He.
  - intros a m' k' (m0 & Hm0 & Hh & _)%Hinv. unfold owners, home. rewrite Hh. exact (Ho a m0 k' Hm0).
  - intros a m' k' x Hm' Hx. destruct (decide (k' = k)) as [->|Hne].
    + rewrite lookup_insert_eq.
      by destruct (put_sound d w w' self m k v op a m' x Hrep Hf Hm Hmay Hrun Hm' Hx) as [-> ?].
    + rewrite lookup_insert_ne by done. destruct (Hinv a m' Hm') as (m0 & Hm0 & Hh & Hl).
      unfold get_local in Hx. rewrite Hh in Hx. fold (home m0 k') in Hx. rewrite Hl in Hx by done.
      unfold owners, home, local_id. rewrite Hh. exact (Hs a m0 k' x Hm0 Hx).
  - intros a m' k' x i Hm' Hx Hi. destruct (Hinv a m' Hm') as (m0 & Hm0 & Hh & Hl).
    unfold owners, home in *. rewrite Hh in *. destruct (decide (k' = k)) as [->|Hne].
    + rewrite lookup_insert_eq in Hx. injection Hx as <-.
      destruct (home_agree w self m a m0 k Hc Hm Hm0) as [Hhome Hown].
      unfold owners, home in Hhome, Hown. rewrite <- Hhome in Hi |- *. rewrite Hhome, <- Hown in Hi.
      exact (proj1 (proj2 (put_ok_holds addr_of self k v op w w' m Hc Hf Hm Hrun)) i Hi).
    + rewrite lookup_insert_ne in Hx by done.
      destruct (Hp a m0 k' x i Hm0 Hx Hi) as (mp & Hmp & Hv).
      destruct (pointwise_lookup _ _ _ _ _ Hfr Hmp) as (mp' & Hmp' & _ & Hlp).
      exists mp'. split; [done|]. fold (home m0 k') in *.
      destruct (Hlp (home m0 k') k') as [->|(_ & ? & _)]; done.
Qed.

Lemma represents_env d w e :
  represents d w -> fates e = [] -> represents d (set_env e w).
Proof.
  intros [Hc Hq Ho Hs Hp] He. split; [|done|exact Ho|exact Hs|exact Hp].
  apply (cluster_keeps addr_of w); [done|]. by apply same_nodes_pointwise; [apply _|].
Qed.

(** What [put] leaves for the next one: the partitioners are the same, an operation id that was
    fresh still is, unless it was used, and who may write under another key still may. *)
Definition after_put (k : K) (op : string) w w' : Prop :=
  pointwise same_host w w' /\ (forall op', op' <> op -> fresh_op op' w -> fresh_op op' w') /\
  pointwise (fun m m' => forall k', k' <> k -> may_write m k' -> may_write m' k') w w'.

Lemma framed_may_write p k v m m' k' : framed p k v m m' -> k' <> k -> may_write m k' -> may_write m' k'.
Proof.
  intros [Hh Hl] Hne. unfold may_write, owners, home, local_id, get_local. rewrite Hh.
  destruct (Hl (get_partition (partitioner m) (key_to_string k')) k') as [->|(_ & ? & _)]; done.
Qed.

Lemma put_represents_new d w self m k v u us :
  represents d w -> uuids (env w) = u :: us -> fresh_op u w -> nodes w !! self = Some m ->
  may_write m k ->
  exists w', put self k v w = (Ok tt, w') /\ uuids (env w') = us /\
             represents (<[k := v]> d) w' /\ after_put k u w w'.
Proof.
  intros Hrep Hu Hf Hm Hmay. unfold put. set (e := mkEnv (fates (env w)) (rng (env w)) us (clock (env w))).
  assert (new_v4 w = (u, set_env e w)) as Hnew by (unfold new_v4; by rewrite Hu).
  rewrite (st_bind_eq _ _ _ _ _ Hnew).
  pose proof (represents_env d w e Hrep (rp_quiet _ _ Hrep)) as Hrep1.
  destruct (put_represents d (set_env e w) self m k v u Hrep1 Hf Hm Hmay) as (w' & Hrun & He & Hrep').
  pose proof (put_with_op_framed self k v u (set_env e w) m _ Hm eq_refl) as Hfr. rewrite Hrun in Hfr.
  exists w'. split_and!; [done|by rewrite He|done|]. split; [|split].
  - assert (pointwise same_host (set_env e w) w') as Hp; [|exact Hp].
    revert Hfr. apply pointwise_mono. by intros ?? [].
  - intros op' Hne Hf'. replace w' with (put_with_op self k v u (set_env e w)).2 by (by rewrite Hrun).
    by apply (put_fresh_other self k v u (set_env e w) m).
  - assert (pointwise (fun m m' => forall k', k' <> k -> may_write m k' -> may_write m' k') (set_env e w) w')
      as Hp; [|exact Hp].
    revert Hfr. apply pointwise_mono. intros m1 m2 Hm12 k' Hne. by apply (framed_may_write _ _ _ _ _ _ Hm12).
Qed.

(** ** Sequences of operations *)

Inductive map_op := Get (self : SocketAddr) (k : K) | Put (self : SocketAddr) (k : K) (v : V) (op_id : string).
Inductive outcome := Got (r : option V) | Acknowledged (r : result unit).

Definition run_op (o : map_op) : ST (World (DistributedMap K V)) outcome :=
  match o with
  | Get self k => r <- get path_segment self k ;; st_ret (Got r)
  | Put self k v op => r <- put_with_op self k v op ;; st_ret (Acknowledged r)
  end.
Fixpoint run_ops (l : list map_op) : ST (World (DistributedMap K V)) (list outcome) :=
  match l with
  | [] => st_ret []
  | o :: l' => r <- run_op o ;; rs <- run_ops l' ;; st_ret (r :: rs)
  end.

(** What one shared map would do. *)
Definition spec_op (o : map_op) d : outcome * gmap K V :=
  match o with
  | Get _ k => (Got (d !! k), d)
  | Put _ k v _ => (Acknowledged (Ok tt), <[k := v]> d)
  end.
Fixpoint spec_ops (l : list map_op) d : list outcome * gmap K V :=
  match l with
  | [] => ([], d)
  | o :: l' => let '(r, d') := spec_op o d in let '(rs, d'') := spec_ops l' d' in (r :: rs, d'')
  end.

(** Operations at nodes that are up, with new operation ids, no writer being a backup of its key. *)
Definition admissible w (o : map_op) : Prop :=
  match o with
  | Get self k => is_Some (nodes w !! self) /\ path_segment (key_to_string k) = Some (key_to_string k)
  | Put self k v op => fresh_op op w /\
      exists m, nodes w !! self = Some m /\ local_id m ∉ tail (owners m k)
  end.
Definition op_ids (l : list map_op) : list string :=
  omap (fun o => match o with Put _ _ _ op => Some op | Get _ _ => None end) l.

Lemma op_ids_app l l' : op_ids (l ++ l') = (op_ids l ++ op_ids l')%list.
Proof. apply omap_app. Qed.

Lemma op_ids_in o op l : o ∈ l -> op ∈ op_ids [o] -> op ∈ op_ids l.
Proof.
  intros Ho Hop. apply list_elem_of_omap in Hop as (o' & ->%list_elem_of_singleton & Hop).
  apply list_elem_of_omap. by exists o.
Qed.

Lemma not_backup_may_write d w self m k :
  represents d w -> nodes w !! self = Some m -> local_id m ∉ tail (owners m k) -> may_write m k.
Proof.
  intros Hrep Hm Hno. destruct (get_local k m) as [x|] eqn:Hx; [|by right]. left.
  destruct (rp_sound _ _ Hrep self m k x Hm Hx) as [_ Hin].
  destruct (owners m k) as [|i rest]; [by apply elem_of_nil in Hin|].
  apply elem_of_cons in Hin as [<-|]; done.
Qed.

(** Admissible operations stay so while nobody uses their ids. *)
Lemma admissible_keeps w w' o :
  pointwise same_host w w' -> (forall op, op ∈ op_ids [o] -> fresh_op op w -> fresh_op op w') ->
  admissible w o -> admissible w' o.
Proof.
  intros Hh Hids. destruct o as [a k|a k v op]; simpl.
  - intros [[m Hm] Hseg]. split; [|done].
    destruct (pointwise_lookup _ _ _ _ _ Hh Hm) as (m' & Hm' & _). by exists m'.
  - intros (Hf & m & Hm & Hno). split; [apply Hids; [left|done]|].
    destruct (pointwise_lookup _ _ _ _ _ Hh Hm) as (m' & Hm' & Hhm). exists m'. split; [done|].
    unfold local_id, owners, home in *. by rewrite (Hhm : partitioner m' = partitioner m).
Qed.

(** One operation. *)
Lemma op_represents o d w :
  represents d w -> admissible w o ->
  exists w', run_op o w = ((spec_op o d).1, w') /\ represents (spec_op o d).2 w' /\
    pointwise same_host w w' /\ (forall op, op ∉ op_ids [o] -> fresh_op op w -> fresh_op op w').
Proof.
  intros Hrep. destruct o as [a k|a k v op]; simpl.
  - intros [[m Hm] Hseg]. exists w.
    by rewrite (st_bind_eq _ _ _ _ _ (get_represents d w a m k Hseg Hrep Hm)).
  - intros (Hf & m & Hm & Hno).
    destruct (put_represents d w a m k v op Hrep Hf Hm) as (w' & Hrun & _ & Hrep').
    { by apply (not_backup_may_write d w a). }
    exists w'. rewrite (st_bind_eq _ _ _ _ _ Hrun). split_and!; [done..| |].
    + pose proof (put_with_op_framed a k v op w m _ Hm eq_refl) as Hfr. rewrite Hrun in Hfr.
      revert Hfr. apply pointwise_mono. by intros ?? [].
    + intros op' Hop. replace w' with (put_with_op a k v op w).2 by (by rewrite Hrun).
      apply (put_fresh_other a k v op w m op' Hm). intros ->. apply Hop. left.
Qed.

(** The map is a map.  From a state that represents [d], every sequence of reads and writes
    without faults, from whatever nodes, in which no write is sent to a mere backup of its key,
    answers exactly as one shared map would, and ends in a state that represents its result. *)
Theorem map_refinement l d w :
  represents d w -> Forall (admissible w) l -> NoDup (op_ids l) ->
  exists w', run_ops l w = ((spec_ops l d).1, w') /\ represents (spec_ops l d).2 w'.
Proof.
  revert d w. induction l as [|o l IH]; intros d w Hrep Had Hnd; [by exists w|].
  apply Forall_cons in Had as [Ho Had]. change (o :: l) with ([o] ++ l)%list in Hnd.
  rewrite op_ids_app in Hnd. apply NoDup_app in Hnd as (_ & Hdis & Hnd). cbn [run_ops spec_ops].
  destruct (op_represents o d w Hrep Ho) as (w1 & Hrun & Hrep1 & Hh & Hf).
  rewrite (st_bind_eq _ _ _ _ _ Hrun). destruct (spec_op o d) as [r d1]. simpl in Hrep1 |- *.
  destruct (IH d1 w1 Hrep1) as (w' & Hl & Hrep'); [|done|].
  - rewrite Forall_forall in Had |- *. intros o' Hin. apply (admissible_keeps w); [done| |by apply Had].
    intros op Hop. apply Hf. intros Hop'. by apply (Hdis op Hop'), (op_ids_in o').
  - rewrite (st_bind_eq _ _ _ _ _ Hl). destruct (spec_ops l d1) as [rs d2]. by exists w'.
Qed.
End refinement.

(** ** Witness *)

Module Example.
Import StorageNet.Example.

(** Nodes that have just started represent the empty map. *)
Section start.
Context {K V : Type} `{Countable K, !RustKey K, !Serde V} (base : string).

Definition empty_shard (x : string) : DistributedMap K V :=
  new_with_base (example_pm ["a"; "b"; "c"] 2 x) base.
Definition empty_world (e : Env) : World (DistributedMap K V) :=
  mkWorld (example_nodes ["a"; "b"; "c"] empty_shard) e.

Lemma empty_local x k : get_local k (empty_shard x) = None.
Proof. unfold get_local. by generalize (get_partition (partitioner (empty_shard x)) (key_to_string k)). Qed.

Lemma empty_owned x p : get_owners (partitioner (empty_shard x)) p <> [].
Proof.
  intros Hn. apply (f_equal length) in Hn. unfold get_owners in Hn.
  rewrite owners_of_length in Hn.
  - vm_compute in Hn. done.
  - change (id <$> get_alive_members (membership (example_pm ["a"; "b"; "c"] 2 "a")) <> []).
    intros Ha. vm_compute in Ha. done.
Qed.

Lemma empty_cluster_of e : cluster example_addr (empty_world e).
Proof. apply (example_cluster _ 2); [done|]. apply (bool_decide_unpack _). vm_compute. exact I. Qed.

Lemma empty_represents e : fates e = [] -> represents example_addr ∅ (empty_world e).
Proof.
  intros He. split.
  - apply empty_cluster_of.
  - exact He.
  - intros a m k (x & _ & -> & ->)%example_nodes_inv. apply empty_owned.
  - intros a m k v (x & _ & -> & ->)%example_nodes_inv. by rewrite empty_local.
  - intros a m k v i _. by rewrite lookup_empty.
Qed.

Lemma empty_fresh op e : fresh_op op (empty_world e).
Proof. intros a m (x & _ & -> & ->)%example_nodes_inv. done. Qed.

Lemma empty_may_write x k : may_write (empty_shard x) k.
Proof. right. apply empty_local. Qed.

Lemma empty_at x e :
  x ∈ ["a"; "b"; "c"] -> nodes (empty_world e) !! mkAddr x 6000 = Some (empty_shard x).
Proof.
  intros Hx. apply example_nodes_lookup; [|done].
  apply (bool_decide_unpack _). vm_compute. exact I.
Qed.
End start.

(** Nodes into which [a] has put the entries of a list, under distinct keys. *)
Section seed.
Context {V : Type} `{!Serde V, !SerdeLaws V} (base : string).
#[local] Existing Instances string_key string_key_laws.

Fixpoint seed (l : list (string * V)) : World (DistributedMap string V) :=
  match l with
  | [] => empty_world base calm
  | (k, v) :: l' => (put_with_op (on "a") k v k (seed l')).2
  end.

Lemma seed_spec l :
  NoDup l.*1 ->
  represents example_addr (list_to_map l) (seed l) /\
  (forall x, x ∈ ["a"; "b"; "c"] -> exists m, nodes (seed l) !! on x = Some m /\
     partitioner m = example_pm ["a"; "b"; "c"] 2 x) /\
  (forall op, op ∉ l.*1 -> fresh_op op (seed l)).
Proof.
  induction l as [|[k v] l IH]; cbn [fmap list_fmap fst seed list_to_map foldr uncurry].
  { intros _. split_and!; [by apply empty_represents| |intros; apply empty_fresh].
    intros x Hx. exists (empty_shard base x). by split; [apply empty_at|]. }
  intros [Hk Hnd]%NoDup_cons. destruct (IH Hnd) as (Hrep & Hup & Hfresh).
  destruct (Hup "a" in_a) as (m & Hm & _).
  destruct (put_represents example_addr (list_to_map l) (seed l) (on "a") m k v k Hrep
    (Hfresh k Hk) Hm) as (w' & Hrun & _ & Hrep').
  { right. destruct (get_local k m) as [x|] eqn:Hx; [|done].
    destruct (rp_sound _ _ _ Hrep _ _ _ _ Hm Hx) as [Hl _].
    by rewrite (not_elem_of_list_to_map_1 l k Hk) in Hl. }
  rewrite Hrun. split_and!; [exact Hrep'| |].
  - intros x Hx. destruct (Hup x Hx) as (mx & Hmx & Hpx).
    pose proof (put_with_op_framed (on "a") k v k (seed l) m _ Hm eq_refl) as Hfr.
    rewrite Hrun in Hfr. destruct (pointwise_lookup _ _ _ _ _ Hfr Hmx) as (mx' & Hmx' & Hh & _).
    exists mx'. by rewrite Hh.
  - intros op [Hne Hop]%not_elem_of_cons.
    replace w' with (put_with_op (on "a") k v k (seed l)).2 by (by rewrite Hrun).
    apply (put_fresh_other (on "a") k v k (seed l) m op Hm Hne). by apply Hfresh.
Qed.
End seed.

(** ["k2"] is owned by [b] and [c]. *)
Definition session : list (map_op (K := string) (V := bool)) :=
  [Put (on "a") "k2" true "op1"; Get (on "c") "k2"; Put (on "b") "k2" false "op2";
   Get (on "a") "k2"; Get (on "b") "k3"].

Lemma map_refinement_witness :
  exists w', run_ops plain_segment session (example_world calm) =
    ([Acknowledged (Ok tt); Got (Some true); Acknowledged (Ok tt); Got (Some false); Got None], w') /\
    represents example_addr {[ "k2" := false ]} w'.
Proof.
  pose proof (map_refinement plain_segment example_addr session ∅ (example_world calm)
    (empty_represents "" calm eq_refl)) as Href.
  assert (forall x op, x ∈ ["a"; "b"; "c"] -> mkId x <> mkId "c" ->
    fresh_op op (example_world calm) /\ exists m, nodes (example_world calm) !! on x = Some m /\
      local_id m ∉ tail (owners m "k2")) as Hput.
  { intros x op Hx Hne. split; [apply example_fresh|]. exists (example_shard x).
    split; [by apply example_shard_at|].
    assert (owners (example_shard x) "k2" = [mkId "b"; mkId "c"]) as ->.
    { rewrite <- (part_k2 x). reflexivity. }
    by intros ?%list_elem_of_singleton. }
  assert (forall x k, x ∈ ["a"; "b"; "c"] -> is_Some (nodes (example_world calm) !! on x) /\
    plain_segment (key_to_string k) = Some (key_to_string k)) as Hget.
  { intros x k Hx. rewrite (example_shard_at x calm Hx). by split. }
  destruct Href as (w' & Hrun & Hrep).
  - repeat apply Forall_cons_2; [apply (Hput "a"); [left|done]|apply (Hget "c" "k2"), in_c|
      apply (Hput "b"); [apply in_b|done]|apply (Hget "a" "k2"), in_a|
      apply (Hget "b" "k3"), in_b|apply Forall_nil_2].
  - apply (bool_decide_unpack _). vm_compute. exact I.
  - exists w'. split; [exact Hrun|]. exact Hrep.
Defined.
End Example.
