(* ===== verification/Queue.v ===== *)
(** * The local side of the task queue: src/executor/types.rs and src/executor/queue.rs

    One node's shard of the distributed queue: the task table, its operations, and the life cycle
    of a task under them.  The operations that talk to other nodes are in QueueNet.v. *)

From S2P Require Import Prelude Membership Partitioner Net Topology.

#[local] Open Scope Z_scope.

(** ** src/executor/types.rs *)

Record TaskId := mkTaskId { task_id_str : string }.

#[export] Instance TaskId_eq_dec : EqDecision TaskId.
Proof. solve_decision. Defined.
#[export] Instance TaskId_countable : Countable TaskId.
Proof. by refine (inj_countable' task_id_str mkTaskId _); intros []. Defined.

Inductive TaskStatus := Pending | Running | Completed | Failed (error : string).

#[export] Instance TaskStatus_eq_dec : EqDecision TaskStatus.
Proof. solve_decision. Defined.

(** [P]: the type of payloads, [serde_json::Value]. *)
Inductive Task (P : Type) := Execute (handler : string) (payload : P).
Arguments Execute {P}.

Record TaskEntry (P : Type) := mkEntry {
  task : Task P;
  task_status : TaskStatus;
  assigned_to : option NodeId;
  created_at : Z;
  lease_expires : option Z;
}.
Arguments mkEntry {P}.
Arguments task {P}.
Arguments task_status {P}.
Arguments assigned_to {P}.
Arguments created_at {P}.
Arguments lease_expires {P}.

(** ** src/executor/queue.rs *)

Record DistributedQueue (P : Type) := mkQueue {
  local_tasks : gmap Z (gmap TaskId (TaskEntry P));
  partitioner : PartitionManager;
}.
Arguments mkQueue {P}.
Arguments local_tasks {P}.
Arguments partitioner {P}.

(** The lease of a claim or renewal, in milliseconds. *)
Definition LEASE_MS : Z := 30000.

Section local.
Context {P : Type}.
Implicit Types q : DistributedQueue P.
Implicit Types e : TaskEntry P.

Definition queue_new (pm : PartitionManager) : DistributedQueue P := mkQueue ∅ pm.

Definition set_tasks (t : gmap Z (gmap TaskId (TaskEntry P))) q : DistributedQueue P :=
  mkQueue t (partitioner q).

Definition local_node_id q : NodeId := id (local_node (membership (partitioner q))).

(** [store_local]: a task id that is present keeps its entry. *)
Definition store_local (partition : Z) (task_id : TaskId) (entry : TaskEntry P) q
    : DistributedQueue P :=
  let partition_map := default ∅ (local_tasks q !! partition) in
  let partition_map := if decide (is_Some (partition_map !! task_id)) then partition_map
                       else <[task_id := entry]> partition_map in
  set_tasks (<[partition := partition_map]> (local_tasks q)) q.

(** [dump_partition]. *)
Definition dump_partition (partition : Z) q : list (TaskId * TaskEntry P) :=
  match local_tasks q !! partition with
  | Some partition_map => map_to_list partition_map
  | None => []
  end.

(** [has_partition]. *)
Definition has_partition (partition : Z) q : bool :=
  match local_tasks q !! partition with
  | Some partition_map => bool_decide (partition_map <> ∅)
  | None => false
  end.

(** [apply_partition_entries]: the partition's map is created even when there is nothing to
    insert. *)
Definition apply_partition_entries (partition : Z) (entries : list (TaskId * TaskEntry P)) q
    : DistributedQueue P :=
  let partition_map := default ∅ (local_tasks q !! partition) in
  let insert_new (pm : gmap TaskId (TaskEntry P)) (x : TaskId * TaskEntry P) :=
    if decide (is_Some (pm !! x.1)) then pm else <[x.1 := x.2]> pm in
  set_tasks (<[partition := foldl insert_new partition_map entries]> (local_tasks q)) q.

Definition local_partition_count q : nat := size (local_tasks q).
Definition local_task_count q : nat :=
  sum_list ((fun x => size x.2) <$> map_to_list (local_tasks q)).

(** All entries of the table, in iteration order. *)
Definition all_entries q : list (TaskEntry P) :=
  (map_to_list (local_tasks q)).*2 ≫= fun pm => (map_to_list pm).*2.

(** [local_task_status_counts]. *)
Definition count_status (c : nat * nat * nat * nat) (e : TaskEntry P) : nat * nat * nat * nat :=
  let '(pending, running, completed, failed) := c in
  match task_status e with
  | Pending => (S pending, running, completed, failed)
  | Running => (pending, S running, completed, failed)
  | Completed => (pending, running, S completed, failed)
  | Failed _ => (pending, running, completed, S failed)
  end.
Definition local_task_status_counts q : nat * nat * nat * nat :=
  foldl count_status (0, 0, 0, 0)%nat (all_entries q).

(** [get_my_primary_partitions]. *)
Definition get_my_primary_partitions q : list Z :=
  filter (fun p => head (get_owners (partitioner q) p) = Some (local_node_id q))
    (seqZ 0 (num_partitions (partitioner q))).

(** The eligibility test of [my_pending_tasks], at time [now]. *)
Definition is_available (now : Z) e : bool :=
  match task_status e with
  | Pending => true
  | Running => match lease_expires e with
               | Some lease => bool_decide (lease < now)
               | None => false
               end
  | _ => false
  end.

(** [my_pending_tasks]. *)
Definition my_pending_tasks (now : Z) q : list (TaskId * TaskEntry P) :=
  get_my_primary_partitions q ≫= fun partition =>
    match local_tasks q !! partition with
    | Some partition_map => filter (fun x => is_available now x.2 = true) (map_to_list partition_map)
    | None => []
    end.

(** [local_tasks.get(&partition)?.get_mut(task_id)], and writing through it. *)
Definition find_task (task_id : TaskId) q : option (TaskEntry P) :=
  partition_map ← local_tasks q !! get_partition (partitioner q) (task_id_str task_id);
  partition_map !! task_id.
Definition write_task (task_id : TaskId) (entry : TaskEntry P) q : DistributedQueue P :=
  set_tasks (alter (fun partition_map => <[task_id := entry]> partition_map)
    (get_partition (partitioner q) (task_id_str task_id)) (local_tasks q)) q.

(** [try_claim_task]: it cannot fail; the lease is a [u64]. *)
Definition try_claim_task (task_id : TaskId) (now : Z) q : result bool * DistributedQueue P :=
  match find_task task_id q with
  | Some entry =>
      if decide (task_status entry <> Pending) then (Ok false, q) else
      (Ok true, write_task task_id
        (mkEntry (task entry) Running (Some (local_node_id q)) (created_at entry)
           (Some (wrap 64 (now + LEASE_MS)))) q)
  | None => (Ok false, q)
  end.

(** [renew_lease]. *)
Definition renew_lease (task_id : TaskId) (now : Z) q : result unit * DistributedQueue P :=
  match find_task task_id q with
  | Some entry =>
      if decide (task_status entry = Running) then
        (Ok tt, write_task task_id
          (mkEntry (task entry) (task_status entry) (assigned_to entry) (created_at entry)
             (Some (wrap 64 (now + LEASE_MS)))) q)
      else (Err "Task not running", q)
  | None => (Err "Task not found", q)
  end.

(** [complete_task]. *)
Definition complete_task (task_id : TaskId) (outcome : result unit) q
    : result unit * DistributedQueue P :=
  match find_task task_id q with
  | Some entry =>
      let status := match outcome with Ok _ => Completed | Err e => Failed e end in
      (Ok tt, write_task task_id
        (mkEntry (task entry) status (assigned_to entry) (created_at entry) None) q)
  | None => (Err "Task not found", q)
  end.

(** [get_task_local]. *)
Definition get_task_local (task_id : TaskId) q : option (TaskEntry P) := find_task task_id q.

(** ** Lookup lemmas *)

Definition lookup_task (partition : Z) (task_id : TaskId) q : option (TaskEntry P) :=
  partition_map ← local_tasks q !! partition; partition_map !! task_id.

Lemma find_task_lookup i q :
  find_task i q = lookup_task (get_partition (partitioner q) (task_id_str i)) i q.
Proof. done. Qed.

Lemma lookup_store p i e q p' i' :
  lookup_task p' i' (store_local p i e q) =
    match lookup_task p' i' q with
    | Some e' => Some e'
    | None => if decide (p' = p /\ i' = i) then Some e else None
    end.
Proof.
  unfold lookup_task, store_local. simpl. destruct (decide (p' = p)) as [->|Hp].
  - rewrite lookup_insert_eq. simpl. destruct (local_tasks q !! p) as [pm|]; simpl.
    + destruct (decide (is_Some (pm !! i))) as [[x Hx]|Hn].
      * destruct (pm !! i') eqn:E; [done|].
        rewrite decide_False; [done|]. intros [_ ->]. by rewrite Hx in E.
      * apply eq_None_not_Some in Hn. destruct (decide (i' = i)) as [->|Hi].
        -- by rewrite lookup_insert_eq, Hn, decide_True.
        -- rewrite lookup_insert_ne, decide_False by (done || (intros [? ?]; congruence)). by destruct (pm !! i').
    + rewrite decide_False by (rewrite lookup_empty; by intros [? [=]]).
      destruct (decide (i' = i)) as [->|Hi].
      * by rewrite lookup_insert_eq, decide_True.
      * by rewrite lookup_insert_ne, lookup_empty, decide_False by (done || (intros [? ?]; congruence)).
  - rewrite lookup_insert_ne, decide_False by (done || (intros [? ?]; congruence)).
    destruct (local_tasks q !! p') as [pm|]; simpl; [|done]. by destruct (pm !! i').
Qed.

Lemma lookup_apply p entries q p' i :
  NoDup entries.*1 ->
  lookup_task p' i (apply_partition_entries p entries q) =
    match lookup_task p' i q with
    | Some e => Some e
    | None => if decide (p' = p) then (list_to_map entries : gmap TaskId (TaskEntry P)) !! i
              else None
    end.
Proof.
  intros Hnd. unfold lookup_task, apply_partition_entries. simpl.
  set (f := fun (pm : gmap TaskId (TaskEntry P)) (x : TaskId * TaskEntry P) => _).
  assert (forall pm : gmap TaskId (TaskEntry P), foldl f pm entries !! i =
            match pm !! i with Some e => Some e
            | None => (list_to_map entries : gmap TaskId (TaskEntry P)) !! i end) as Hf.
  { induction entries as [|[i0 e0] entries IH]; intros pm; simpl.
    { rewrite lookup_empty. by destruct (pm !! i). }
    apply NoDup_cons in Hnd as [Hi0 Hnd]. rewrite (IH Hnd). unfold f at 1. simpl.
    destruct (decide (i = i0)) as [->|Hi].
    - rewrite lookup_insert_eq. case_decide as Hd.
      + by destruct Hd as [x ->].
      + apply eq_None_not_Some in Hd. by rewrite lookup_insert_eq, Hd.
    - rewrite (lookup_insert_ne _ i0 i) by done. case_decide; [done|].
      by rewrite lookup_insert_ne. }
  destruct (decide (p' = p)) as [->|Hp].
  - rewrite lookup_insert_eq. simpl. rewrite Hf.
    destruct (local_tasks q !! p); simpl; [done|]. by rewrite lookup_empty.
  - rewrite lookup_insert_ne by done.
    destruct (local_tasks q !! p') as [pm|]; simpl; [|done]. by destruct (pm !! i).
Qed.

Lemma lookup_write i e q p' i' :
  is_Some (find_task i q) ->
  lookup_task p' i' (write_task i e q) =
    if decide (p' = get_partition (partitioner q) (task_id_str i) /\ i' = i) then Some e
    else lookup_task p' i' q.
Proof.
  unfold find_task, lookup_task, write_task. cbn [set_tasks local_tasks].
  generalize (get_partition (partitioner q) (task_id_str i)) as p. intros p [x Hx].
  destruct (decide (p' = p)) as [->|Hp].
  - rewrite lookup_alter_eq. destruct (local_tasks q !! p) as [pm|]; [|done]. simpl in *.
    destruct (decide (i' = i)) as [->|Hi].
    + by rewrite lookup_insert_eq, decide_True.
    + rewrite lookup_insert_ne, decide_False by (done || (intros [? ?]; congruence)). done.
  - rewrite lookup_alter_ne, decide_False by (done || (intros [? ?]; congruence)). done.
Qed.

Lemma elem_of_dump p i e q : (i, e) ∈ dump_partition p q <-> lookup_task p i q = Some e.
Proof.
  unfold lookup_task, dump_partition. destruct (local_tasks q !! p); simpl.
  - by rewrite elem_of_map_to_list.
  - split; [by intros ?%elem_of_nil|done].
Qed.

Lemma dump_NoDup p q : NoDup (dump_partition p q).*1.
Proof.
  unfold dump_partition. destruct (local_tasks q !! p); [apply NoDup_fst_map_to_list|].
  apply NoDup_nil_2.
Qed.
End local.

#[export] Instance DistributedQueue_hosted {P} : Hosted (DistributedQueue P) :=
  { host := partitioner; hosted_inhabited := populate (queue_new inhabitant) }.

(** ** The life cycle of a task

    The operations of one node's queue in the order in which they take effect.  Each of them holds
    the lock of the task's entry for its whole duration, so that concurrent workers and handlers
    amount to some such order.  [OpView] is a change of the membership view. *)
Inductive QueueOp (P : Type) :=
  | OpStore (partition : Z) (task_id : TaskId) (entry : TaskEntry P)
  | OpApply (partition : Z) (entries : list (TaskId * TaskEntry P))
  | OpClaim (task_id : TaskId) (now : Z)
  | OpRenew (task_id : TaskId) (now : Z)
  | OpComplete (task_id : TaskId) (outcome : result unit)
  | OpView (m : MembershipService).
Arguments OpStore {P}.
Arguments OpApply {P}.
Arguments OpClaim {P}.
Arguments OpRenew {P}.
Arguments OpComplete {P}.
Arguments OpView {P}.

Section lifecycle.
Context {P : Type}.
Implicit Types q : DistributedQueue P.
Implicit Types e : TaskEntry P.

Definition perform (op : QueueOp P) q : DistributedQueue P :=
  match op with
  | OpStore p i e => store_local p i e q
  | OpApply p es => apply_partition_entries p es q
  | OpClaim i now => (try_claim_task i now q).2
  | OpRenew i now => (renew_lease i now q).2
  | OpComplete i o => (complete_task i o q).2
  | OpView m => mkQueue (local_tasks q)
      (mkPartitioner (num_partitions (partitioner q)) (replication_factor (partitioner q)) m)
  end.

Definition perform_all (ops : list (QueueOp P)) q : DistributedQueue P :=
  foldl (fun q op => perform op q) q ops.

(** The task ids that the successful claims among [ops] return, in order. *)
Fixpoint claims (ops : list (QueueOp P)) q : list TaskId :=
  match ops with
  | [] => []
  | op :: ops' =>
      match op with
      | OpClaim i now =>
          match (try_claim_task i now q).1 with
          | Ok true => i :: claims ops' (perform op q)
          | _ => claims ops' (perform op q)
          end
      | _ => claims ops' (perform op q)
      end
  end.

(** [Pending], then [Running], then finished. *)
Definition rank (s : TaskStatus) : nat :=
  match s with Pending => 0 | Running => 1 | Completed | Failed _ => 2 end.

(** What may become of an entry. *)
Record moves e e' : Prop := {
  mv_task : task e' = task e;
  mv_created : created_at e' = created_at e;
  mv_rank : (rank (task_status e) <= rank (task_status e'))%nat;
  mv_lease : task_status e' = Running -> lease_expires e' = None ->
             task_status e = Running /\ lease_expires e = None;
}.

#[export] Instance moves_preorder : PreOrder moves.
Proof.
  split.
  - intros e. by split.
  - intros e1 e2 e3 [] []. split; [congruence|congruence|lia|]. naive_solver.
Qed.

Definition grows q q' : Prop :=
  num_partitions (partitioner q') = num_partitions (partitioner q) /\
  forall p i e, lookup_task p i q = Some e ->
    exists e', lookup_task p i q' = Some e' /\ moves e e'.

#[export] Instance grows_preorder : PreOrder grows.
Proof.
  split.
  - intros q. split; [done|]. intros p i e He. exists e. split; [done|reflexivity].
  - intros q1 q2 q3 [Hn1 H1] [Hn2 H2]. split; [congruence|]. intros p i e He.
    destruct (H1 p i e He) as (e' & He' & Hm). destruct (H2 p i e' He') as (e'' & He'' & Hm').
    exists e''. split; [done|by etrans].
Qed.

Lemma write_task_grows i e e' q :
  find_task i q = Some e -> moves e e' -> grows q (write_task i e' q).
Proof.
  intros Hf Hm. split; [done|]. intros p i' e0 He0.
  rewrite lookup_write by done. case_decide as Hd; [|exists e0; by split].
  destruct Hd as [-> ->]. rewrite find_task_lookup, He0 in Hf. injection Hf as ->. by exists e'.
Qed.

Lemma apply_keeps p es q p' i e :
  lookup_task p' i q = Some e -> lookup_task p' i (apply_partition_entries p es q) = Some e.
Proof.
  unfold lookup_task, apply_partition_entries. simpl.
  set (f := fun (pm : gmap TaskId (TaskEntry P)) (x : TaskId * TaskEntry P) => _).
  assert (forall pm : gmap TaskId (TaskEntry P), pm !! i = Some e ->
            foldl f pm es !! i = Some e) as Hf.
  { clear p. induction es as [|[i0 e0] es IH]; intros pm Hpm; [done|]. simpl. apply IH.
    unfold f. simpl. case_decide as Hd; [done|]. rewrite lookup_insert_ne; [done|].
    intros ->. apply Hd. by rewrite Hpm. }
  destruct (decide (p' = p)) as [->|Hp].
  - rewrite lookup_insert_eq. simpl. destruct (local_tasks q !! p); [|done]. simpl. apply Hf.
  - by rewrite lookup_insert_ne.
Qed.

Lemma perform_grows op q : grows q (perform op q).
Proof.
  destruct op as [p i e|p es|i now|i now|i o|m]; simpl.
  - split; [done|]. intros p' i' e' He'. exists e'. rewrite lookup_store, He'. by split.
  - split; [done|]. intros p' i' e' He'. exists e'. split; [by apply apply_keeps|done].
  - unfold try_claim_task. destruct (find_task i q) as [e|] eqn:Ef; [|done].
    case_decide as Hd; [done|]. simpl. apply (write_task_grows i e); [done|].
    split; simpl; rewrite ?Hd; try done. simpl. lia.
  - unfold renew_lease. destruct (find_task i q) as [e|] eqn:Ef; [|done].
    case_decide as Hd; [|done]. simpl. by apply (write_task_grows i e).
  - unfold complete_task. destruct (find_task i q) as [e|] eqn:Ef; [|done].
    simpl. apply (write_task_grows i e); [done|].
    split; simpl; try done; [|by destruct o]. destruct (task_status e), o; simpl; lia.
  - split; [done|]. intros p i e He. by exists e.
Qed.

Lemma perform_all_grows ops q : grows q (perform_all ops q).
Proof.
  revert q. induction ops as [|op ops IH]; intros q; [reflexivity|]. unfold perform_all. simpl.
  etrans; [apply perform_grows|apply IH].
Qed.

(** Life cycle.  Whatever happens on a node, a task it holds is never lost, keeps its payload
    and creation time, and moves only forward from [Pending] to [Running] to a final status; a
    final status is never left, and a task is never [Running] without a lease unless it was stored
    so. *)
Theorem task_lifecycle ops q p i e :
  lookup_task p i q = Some e ->
  exists e', lookup_task p i (perform_all ops q) = Some e' /\
    task e' = task e /\ created_at e' = created_at e /\
    (rank (task_status e) <= rank (task_status e'))%nat /\
    (task_status e' = Running -> lease_expires e' = None ->
     task_status e = Running /\ lease_expires e = None).
Proof.
  intros He. destruct (perform_all_grows ops q) as [_ Hg].
  destruct (Hg p i e He) as (e' & He' & []). eauto 10.
Qed.

(** Tasks past [Pending]. *)
Definition started i q : Prop :=
  exists e, find_task i q = Some e /\ (0 < rank (task_status e))%nat.

Lemma started_grows i q q' : grows q q' -> started i q -> started i q'.
Proof.
  intros [Hn Hg] (e & He & Hr). rewrite find_task_lookup in He.
  destruct (Hg _ _ _ He) as (e' & He' & Hm). exists e'. split.
  - by rewrite find_task_lookup, (get_partition_ext _ (partitioner q)).
  - pose proof (mv_rank _ _ Hm). lia.
Qed.

Lemma claim_ok i now q q' :
  try_claim_task i now q = (Ok true, q') ->
  ~ started i q /\ started i q' /\ exists e, find_task i q = Some e /\
    q' = write_task i (mkEntry (task e) Running (Some (local_node_id q)) (created_at e)
                         (Some (wrap 64 (now + LEASE_MS)))) q.
Proof.
  unfold try_claim_task. destruct (find_task i q) as [e|] eqn:Ef; [|done].
  case_decide as Hd; [done|]. intros [= <-]. split_and!.
  - intros (e' & He' & Hr). rewrite Ef in He'. injection He' as <-. rewrite Hd in Hr.
    simpl in Hr. lia.
  - eexists. split.
    + rewrite find_task_lookup. change (partitioner (write_task i _ q)) with (partitioner q).
      rewrite lookup_write by done. by rewrite decide_True.
    + simpl. lia.
  - by exists e.
Qed.

Lemma claims_not_started ops q i : i ∈ claims ops q -> ~ started i q.
Proof.
  revert q. induction ops as [|op ops IH]; intros q Hi; [by apply elem_of_nil in Hi|].
  assert (i ∈ claims ops (perform op q) -> ~ started i q) as Hrest.
  { intros Hi' Hs. apply (IH _ Hi'). eapply started_grows; [apply perform_grows|done]. }
  destruct op as [| |j now| | |]; simpl in Hi, Hrest; auto.
  destruct (try_claim_task j now q) as [[[]|] q'] eqn:Ec; simpl in *; auto.
  apply elem_of_cons in Hi as [->|Hi]; [|auto]. by apply claim_ok in Ec as [? _].
Qed.

(** Mutual exclusion.  Whatever is stored, copied, renewed, completed and whoever joins or
    leaves in between, no task is ever claimed twice on a node. *)
Theorem claimed_at_most_once ops q : NoDup (claims ops q).
Proof.
  revert q. induction ops as [|op ops IH]; intros q; [apply NoDup_nil_2|].
  destruct op as [| |i now| | |]; simpl; auto.
  destruct (try_claim_task i now q) as [[[]|] q'] eqn:Ec; simpl; auto.
  apply NoDup_cons. split; [|done]. intros Hi%claims_not_started. apply Hi.
  by apply claim_ok in Ec as (_ & ? & _).
Qed.

(** ** Which tasks are offered to the workers *)

Lemma elem_of_my_primary_partitions q p :
  p ∈ get_my_primary_partitions q <->
    0 <= p < num_partitions (partitioner q) /\
    head (get_owners (partitioner q) p) = Some (local_node_id q).
Proof.
  unfold get_my_primary_partitions. rewrite list_elem_of_filter, elem_of_seqZ. lia || tauto.
Qed.

Lemma elem_of_my_pending now q i e :
  (i, e) ∈ my_pending_tasks now q <->
    exists p, (0 <= p < num_partitions (partitioner q) /\
               head (get_owners (partitioner q) p) = Some (local_node_id q)) /\
      lookup_task p i q = Some e /\ is_available now e = true.
Proof.
  unfold my_pending_tasks. rewrite list_elem_of_bind.
  setoid_rewrite elem_of_my_primary_partitions. split.
  - intros (p & Hx & Hp). exists p. split; [done|]. unfold lookup_task.
    destruct (local_tasks q !! p) as [pm|]; [|by apply elem_of_nil in Hx].
    apply list_elem_of_filter in Hx as [? ?%elem_of_map_to_list]. done.
  - intros (p & Hp & Hl & Ha). exists p. split; [|done]. unfold lookup_task in Hl.
    destruct (local_tasks q !! p) as [pm|]; [|done]. apply list_elem_of_filter.
    split; [done|]. by apply elem_of_map_to_list.
Qed.

Lemma get_my_primary_partitions_eq q :
  get_my_primary_partitions q = my_primary_partitions (partitioner q).
Proof. done. Qed.

(** Operations by anybody but the worker of task [i] and its heartbeat. *)
Definition leaves_alone (i : TaskId) (op : QueueOp P) : Prop :=
  match op with
  | OpRenew j _ | OpComplete j _ => j <> i
  | OpView _ => False
  | _ => True
  end.

Lemma write_other i j e q :
  j <> i -> is_Some (find_task j q) -> find_task i (write_task j e q) = find_task i q.
Proof.
  intros Hne Hs. rewrite !find_task_lookup.
  change (partitioner (write_task j e q)) with (partitioner q).
  rewrite lookup_write by done. rewrite decide_False; [done|]. intros [_ ?]. congruence.
Qed.

Lemma leaves_alone_keeps i op q e :
  leaves_alone i op -> find_task i q = Some e -> task_status e <> Pending ->
  find_task i (perform op q) = Some e /\ partitioner (perform op q) = partitioner q.
Proof.
  intros Hl He Hr.
  destruct op as [p j e'|p es|j now|j now|j o|m]; simpl in Hl; [..|done]; simpl perform.
  - split; [|done]. rewrite find_task_lookup in *. simpl. by rewrite lookup_store, He.
  - split; [|done]. rewrite find_task_lookup in *. simpl. by apply apply_keeps.
  - unfold try_claim_task. destruct (find_task j q) as [ej|] eqn:Ej; [|done].
    case_decide as Hd; [done|]. simpl. split; [|done]. rewrite write_other; [done| |done].
    intros ->. rewrite He in Ej. injection Ej as ->. done.
  - unfold renew_lease. destruct (find_task j q) as [ej|] eqn:Ej; [|done].
    case_decide as Hd; [|done]. simpl. split; [|done]. by rewrite write_other.
  - unfold complete_task. destruct (find_task j q) as [ej|] eqn:Ej; [|done].
    simpl. split; [|done]. by rewrite write_other.
Qed.

Lemma leaves_alone_all i ops q e :
  Forall (leaves_alone i) ops -> find_task i q = Some e -> task_status e <> Pending ->
  find_task i (perform_all ops q) = Some e /\ partitioner (perform_all ops q) = partitioner q.
Proof.
  intros Hops. revert q. induction Hops as [|op ops Hop Hops IH]; intros q He Hs; [done|].
  destruct (leaves_alone_keeps i op q e Hop He Hs) as [H1 H2].
  destruct (IH _ H1 Hs) as [H3 H4]. split; [done|]. unfold perform_all in *. simpl. congruence.
Qed.

Lemma find_write i e q : is_Some (find_task i q) -> find_task i (write_task i e q) = Some e.
Proof.
  intros Hs. rewrite find_task_lookup.
  change (partitioner (write_task i e q)) with (partitioner q).
  rewrite lookup_write by done. by rewrite decide_True.
Qed.

(** A lease protects its holder.  For 30 seconds after a successful claim or renewal, and
    whatever else happens on the node, the task is [Running] and not eligible for execution. *)
Theorem lease_protects ops q q' i t now :
  try_claim_task i t q = (Ok true, q') \/ renew_lease i t q = (Ok tt, q') ->
  Forall (leaves_alone i) ops -> in_range 64 (t + LEASE_MS) -> now <= t + LEASE_MS ->
  exists e, find_task i (perform_all ops q') = Some e /\ task_status e = Running /\
            is_available now e = false.
Proof.
  intros Hor Hops Hr Hnow.
  assert (exists e, find_task i q' = Some e /\ task_status e = Running /\
            lease_expires e = Some (t + LEASE_MS)) as (e & He & Hs & Hl).
  { rewrite <- (wrap_small 64 (t + LEASE_MS) Hr). destruct Hor as [Hc|Hn].
    - apply claim_ok in Hc as (_ & _ & e & He & ->). eexists.
      split; [by apply find_write|done].
    - unfold renew_lease in Hn. destruct (find_task i q) as [e|] eqn:Ef; [|done].
      case_decide as Hd; [|done]. injection Hn as <-. eexists.
      split; [apply find_write; by rewrite Ef|done]. }
  destruct (leaves_alone_all i ops q' e Hops He ltac:(congruence)) as [He' _].
  exists e. split_and!; [done..|]. unfold is_available. rewrite Hs, Hl.
  apply bool_decide_eq_false_2. lia.
Qed.

(** C32: abandoned tasks stay abandoned.  Once the worker of a [Running] task of a primary partition
    has died, the expired task is listed as pending at every later moment, but every attempt to
    claim it fails, whatever else is stored, claimed, renewed or completed on the node while its view
    of the members stays. *)
Theorem abandoned_never_reclaimed ops q i e lease now :
  let p := get_partition (partitioner q) (task_id_str i) in
  0 < num_partitions (partitioner q) ->
  head (get_owners (partitioner q) p) = Some (local_node_id q) ->
  find_task i q = Some e -> task_status e = Running -> lease_expires e = Some lease ->
  Forall (leaves_alone i) ops -> lease < now ->
  let q' := perform_all ops q in
  (i, e) ∈ my_pending_tasks now q' /\ try_claim_task i now q' = (Ok false, q').
Proof.
  intros p Hn Hp He Hs Hl Hops Hnow q'.
  destruct (leaves_alone_all i ops q e Hops He ltac:(congruence)) as [He' Hq]. fold q' in He', Hq.
  split.
  - apply elem_of_my_pending. exists p. unfold local_node_id. rewrite Hq. split_and!.
    + by apply get_partition_range.
    + by apply get_partition_range.
    + done.
    + by rewrite find_task_lookup, Hq in He'.
    + unfold is_available. rewrite Hs, Hl. by apply bool_decide_eq_true_2.
  - unfold try_claim_task. rewrite He'. rewrite decide_True; [done|congruence].
Qed.

(** ** Statistics *)

Definition sum4 (c : nat * nat * nat * nat) : nat :=
  let '(a, b, d, f) := c in (a + b + d + f)%nat.

Lemma count_status_sum (es : list (TaskEntry P)) c :
  sum4 (foldl count_status c es) = (sum4 c + length es)%nat.
Proof.
  revert c. induction es as [|e es IH]; intros c; simpl; [lia|]. rewrite IH.
  destruct c as [[[a b] d] f]. unfold count_status. destruct (task_status e); simpl; lia.
Qed.

Lemma length_tables (l : list (Z * gmap TaskId (TaskEntry P))) :
  length (l.*2 ≫= fun pm => (map_to_list pm).*2) = sum_list ((fun x => size x.2) <$> l).
Proof.
  induction l as [|[p pm] l IH]; [done|].
  rewrite !fmap_cons, bind_cons, length_app, IH, length_fmap, length_map_to_list. done.
Qed.

(** The four status counters of a node add up to the number of its tasks. *)
Theorem status_counts_total q :
  let '(pending, running, completed, failed) := local_task_status_counts q in
  (pending + running + completed + failed = local_task_count q)%nat.
Proof.
  pose proof (count_status_sum (all_entries q) (0, 0, 0, 0)%nat) as Hc. unfold sum4 in Hc.
  unfold local_task_status_counts.
  destruct (foldl count_status _ _) as [[[a b] c] d]. rewrite Hc. simpl.
  unfold all_entries, local_task_count. apply length_tables.
Qed.

(** The tasks of a table, by partition and id. *)
Definition listed_tasks q : list (Z * TaskId) :=
  map_to_list (local_tasks q) ≫= fun x => pair x.1 <$> (map_to_list x.2).*1.

Lemma length_listed q : length (listed_tasks q) = local_task_count q.
Proof.
  unfold listed_tasks, local_task_count. induction (map_to_list (local_tasks q)) as [|[p pm] l IH]; [done|].
  rewrite bind_cons, fmap_cons, length_app, IH, !length_fmap, length_map_to_list. done.
Qed.

Lemma elem_of_listed q p i : (p, i) ∈ listed_tasks q <-> is_Some (lookup_task p i q).
Proof.
  unfold listed_tasks, lookup_task. rewrite list_elem_of_bind. split.
  - intros ([p' pm] & (i' & [= -> ->] & ([i'' e] & -> & He)%list_elem_of_fmap)%list_elem_of_fmap & Hp).
    apply elem_of_map_to_list in Hp, He. simpl in *. rewrite Hp. simpl. eauto.
  - intros [e He]. destruct (local_tasks q !! p) as [pm|] eqn:Ep; [|done]. simpl in He.
    exists (p, pm). rewrite elem_of_map_to_list. split; [|done]. simpl.
    apply list_elem_of_fmap. exists i. split; [done|]. apply list_elem_of_fmap. exists (i, e).
    by rewrite elem_of_map_to_list.
Qed.

Lemma listed_NoDup q : NoDup (listed_tasks q).
Proof.
  apply NoDup_bind.
  - intros [p1 m1] [p2 m2] y H1 H2 (? & -> & _)%list_elem_of_fmap (? & [= <- _] & _)%list_elem_of_fmap.
    apply elem_of_map_to_list in H1, H2. simpl in *. congruence.
  - intros x _. apply NoDup_fmap_2; [by intros ?? [=]|]. apply NoDup_fst_map_to_list.
  - apply NoDup_map_to_list.
Qed.

(** A table that still has all its tasks does not have fewer. *)
Lemma task_count_grows q q' :
  (forall p i, is_Some (lookup_task p i q) -> is_Some (lookup_task p i q')) ->
  (local_task_count q <= local_task_count q')%nat.
Proof.
  intros Hq. rewrite <- !length_listed. apply submseteq_length, NoDup_submseteq; [apply listed_NoDup|].
  intros [p i]. rewrite !elem_of_listed. apply Hq.
Qed.
End lifecycle.

(** ** Examples *)

Module Example.
Definition entry (s : TaskStatus) (lease : option Z) : TaskEntry unit :=
  mkEntry (Execute "index_document" tt) s None 100 lease.

(** A single node, primary of everything, with one task. *)
Definition alone (s : TaskStatus) (lease : option Z) : DistributedQueue unit :=
  let pm := example_pm ["a"] 2 "a" in
  store_local (get_partition pm "t") (mkTaskId "t") (entry s lease) (queue_new pm).

Lemma alone_find s lease : find_task (mkTaskId "t") (alone s lease) = Some (entry s lease).
Proof.
  rewrite find_task_lookup. unfold alone. rewrite lookup_store, decide_True by done. done.
Qed.

Lemma task_lifecycle_witness :
  let q := alone Pending None in
  exists e', lookup_task (get_partition (partitioner q) (task_id_str (mkTaskId "t"))) (mkTaskId "t")
      (perform_all [OpClaim (mkTaskId "t") 5; OpComplete (mkTaskId "t") (Err "boom")] q) = Some e' /\
    task e' = Execute "index_document" tt.
Proof.
  intros q. destruct (task_lifecycle
    [OpClaim (mkTaskId "t") 5; OpComplete (mkTaskId "t") (Err "boom")] q
    (get_partition (partitioner q) (task_id_str (mkTaskId "t"))) (mkTaskId "t")
    (entry Pending None) (alone_find Pending None)) as (e' & He' & Ht & _).
  exists e'. split; [exact He'|exact Ht].
Defined.

Lemma lease_protects_witness :
  let q := alone Pending None in
  exists e, find_task (mkTaskId "t")
      (perform_all [OpClaim (mkTaskId "t") 2000] (try_claim_task (mkTaskId "t") 1000 q).2) = Some e /\
    task_status e = Running /\ is_available 31000 e = false.
Proof.
  intros q.
  apply (lease_protects [OpClaim (mkTaskId "t") 2000] q
    (try_claim_task (mkTaskId "t") 1000 q).2 (mkTaskId "t") 1000 31000).
  - left. unfold try_claim_task, q. rewrite alone_find. reflexivity.
  - repeat constructor.
  - split; [done|]. reflexivity.
  - discriminate.
Defined.

Lemma abandoned_never_reclaimed_witness :
  let q := perform_all [OpClaim (mkTaskId "t") 40000] (alone Running (Some 31000)) in
  (mkTaskId "t", entry Running (Some 31000)) ∈ my_pending_tasks 90000 q /\
  try_claim_task (mkTaskId "t") 90000 q = (Ok false, q).
Proof.
  apply (abandoned_never_reclaimed [OpClaim (mkTaskId "t") 40000] (alone Running (Some 31000))
    (mkTaskId "t") (entry Running (Some 31000)) 31000 90000).
  - reflexivity.
  - vm_compute. reflexivity.
  - apply alone_find.
  - reflexivity.
  - reflexivity.
  - repeat constructor.
  - reflexivity.
Defined.
End Example.
