(* ===== verification/QueueNet.v ===== *)
(** * The task queue across the cluster: src/executor/queue.rs and src/executor/handlers.rs

    Submission, replication, lookup and copying of tasks, with the HTTP handlers that serve them,
    over one task table per node; and what a submitter may rely on. *)

From S2P Require Import Prelude Membership Partitioner Net Topology Queue.

#[local] Open Scope Z_scope.

(** ** src/executor/protocol.rs *)

Record ForwardTaskRequest (P : Type) := mkForwardTask {
  ft_partition : Z; ft_task_id : TaskId; ft_task : Task P }.
Arguments mkForwardTask {P}.
Arguments ft_partition {P}.
Arguments ft_task_id {P}.
Arguments ft_task {P}.
Record ReplicateTaskRequest (P : Type) := mkReplicateTask {
  rt_partition : Z; rt_task_id : TaskId; rt_entry : TaskEntry P }.
Arguments mkReplicateTask {P}.
Arguments rt_partition {P}.
Arguments rt_task_id {P}.
Arguments rt_entry {P}.
Record TaskStatusResponse := mkTaskStatus {
  ts_task_id : TaskId; ts_status : TaskStatus; ts_assigned_to : option NodeId; ts_created_at : Z }.

Section ops.
Context {P : Type}.
(** What the HTTP stack makes of the last segment of a request path. *)
Context (path_segment : string -> option string).

#[local] Notation Queues := (World (DistributedQueue P)).

(** The queue has copies of its own of the two helpers of Net.v. *)
Definition post_with_retry {Resp : Type} (dest : SocketAddr) (serve : ST Queues Resp)
    (attempts : nat) : ST Queues (result Resp) :=
  retry_loop (http_send dest serve) attempts 150.

Definition get_with_retry {Resp : Type} (dest : SocketAddr) (serve : ST Queues Resp)
    (attempts : nat) : ST Queues (result Resp) :=
  retry_loop (http_send dest serve) attempts 150.

Lemma post_copy {Resp : Type} dest (serve : ST Queues Resp) n :
  post_with_retry dest serve n = Net.post_with_retry dest serve n.
Proof. reflexivity. Qed.
Lemma get_copy {Resp : Type} dest (serve : ST Queues Resp) n :
  get_with_retry dest serve n = Net.get_with_retry dest serve n.
Proof. reflexivity. Qed.

(** The entry of a task that has just been submitted. *)
Definition new_entry (t : Task P) (now : Z) : TaskEntry P := mkEntry t Pending None now None.

(** [handle_replicate_task]. *)
Definition handle_replicate_task (self : SocketAddr) (req : ReplicateTaskRequest P)
    : ST Queues (Response unit) :=
  update self (store_local (rt_partition req) (rt_task_id req) (rt_entry req)) ;;;
  st_ret (mkResponse OK tt).

(** [replicate_task_to_backup]. *)
Definition replicate_task_to_backup (self : SocketAddr) (backup_node_id : NodeId) (partition : Z)
    (task_id : TaskId) (entry : TaskEntry P) : ST Queues (result unit) :=
  node <-? resolve self backup_node_id "Backup node not found" ;;
  let payload := mkReplicateTask partition task_id entry in
  response <-? post_with_retry (http_addr node)
                 (handle_replicate_task (http_addr node) payload) 3 ;;
  st_ret (if is_success response then Ok tt else Err "Task replication failed").

(** [store_as_primary]. *)
Definition store_as_primary (self : SocketAddr) (partition : Z) (task_id : TaskId)
    (entry : TaskEntry P) : ST Queues (result unit) :=
  update self (store_local partition task_id entry) ;;;
  me <- my self ;;
  for_each_try (fun backup => replicate_task_to_backup self backup partition task_id entry)
    (tail (get_owners (partitioner me) partition)).

(** [handle_internal_submit_task]. *)
Definition handle_internal_submit_task (self : SocketAddr) (req : ForwardTaskRequest P)
    : ST Queues (Response TaskId) :=
  now <- now_ms ;;
  r <- store_as_primary self (ft_partition req) (ft_task_id req) (new_entry (ft_task req) now) ;;
  st_ret (mkResponse (match r with Ok _ => OK | Err _ => INTERNAL_SERVER_ERROR end)
            (ft_task_id req)).

(** [forward_task]. *)
Definition forward_task (self : SocketAddr) (target : NodeId) (partition : Z) (task_id : TaskId)
    (t : Task P) : ST Queues (result unit) :=
  node <-? resolve self target "Target node not found" ;;
  let payload := mkForwardTask partition task_id t in
  response <-? post_with_retry (http_addr node)
                 (handle_internal_submit_task (http_addr node) payload) 3 ;;
  st_ret (if is_success response then Ok tt else Err "Forward failed").

(** [TaskId::new]. *)
Definition task_id_new : ST Queues TaskId := u <- new_v4 ;; st_ret (mkTaskId u).

(** [submit]. *)
Definition submit (self : SocketAddr) (t : Task P) : ST Queues (result TaskId) :=
  task_id <- task_id_new ;;
  me <- my self ;;
  let partition := get_partition (partitioner me) (task_id_str task_id) in
  match get_owners (partitioner me) partition with
  | [] =>
      now <- now_ms ;;
      update self (store_local partition task_id (new_entry t now)) ;;;
      st_ret (Ok task_id)
  | primary :: _ =>
      if decide (primary = local_node_id me) then
        now <- now_ms ;;
        _ <-? store_as_primary self partition task_id (new_entry t now) ;;
        st_ret (Ok task_id)
      else
        _ <-? forward_task self primary partition task_id t ;;
        st_ret (Ok task_id)
  end.

(** [handle_submit_task]; the error response carries a dummy id. *)
Definition handle_submit_task (self : SocketAddr) (t : Task P) : ST Queues (Response TaskId) :=
  r <- submit self t ;;
  match r with
  | Ok task_id => st_ret (mkResponse OK task_id)
  | Err _ => task_id <- task_id_new ;; st_ret (mkResponse INTERNAL_SERVER_ERROR task_id)
  end.

(** [handle_get_task_internal]. *)
Definition handle_get_task_internal (self : SocketAddr) (task_id_str : string)
    : ST Queues (Response (option (TaskEntry P))) :=
  me <- my self ;;
  st_ret (match get_task_local (mkTaskId task_id_str) me with
          | Some entry => mkResponse OK (Some entry)
          | None => mkResponse NOT_FOUND None
          end).

(** The route [/internal/get_task/:id]. *)
Definition route_get_task (self : SocketAddr) (segment : string)
    : ST Queues (Response (option (TaskEntry P))) :=
  match path_segment segment with
  | Some s => handle_get_task_internal self s
  | None => st_ret (mkResponse NOT_FOUND None)
  end.

(** [fetch_remote]. *)
Definition fetch_remote (self : SocketAddr) (node_id : NodeId) (key : string)
    : ST Queues (result (option (TaskEntry P))) :=
  node <-? resolve self node_id "Owner node not found" ;;
  response <-? get_with_retry (http_addr node) (route_get_task (http_addr node) key) 3 ;;
  st_ret (if negb (is_success response) then Err "GET request failed" else Ok (body response)).

(** The loop over the owners in [get_task]. *)
Fixpoint ask_owners (self : SocketAddr) (owners : list NodeId) (task_id : TaskId)
    : ST Queues (option (TaskEntry P)) :=
  match owners with
  | [] => st_ret None
  | owner :: rest =>
      r <- fetch_remote self owner (task_id_str task_id) ;;
      match r with
      | Ok (Some t) => st_ret (Some t)
      | _ => ask_owners self rest task_id
      end
  end.

(** [get_task]. *)
Definition get_task (self : SocketAddr) (task_id : TaskId) : ST Queues (option (TaskEntry P)) :=
  me <- my self ;;
  match get_task_local task_id me with
  | Some task_entry => st_ret (Some task_entry)
  | None =>
      let partition := get_partition (partitioner me) (task_id_str task_id) in
      let owners := get_owners (partitioner me) partition in
      match owners with
      | primary :: _ =>
          if decide (primary <> local_node_id me) then ask_owners self owners task_id
          else st_ret None
      | [] => st_ret None
      end
  end.

(** [handle_get_task_status] and [handle_get_task_status_internal]: the branch for the local
    primary makes the same call. *)
Definition status_response (task_id : TaskId) (o : option (TaskEntry P))
    : Response (option TaskStatusResponse) :=
  match o with
  | Some entry => mkResponse OK (Some (mkTaskStatus task_id (task_status entry)
                                         (assigned_to entry) (created_at entry)))
  | None => mkResponse NOT_FOUND None
  end.

Definition handle_get_task_status (self : SocketAddr) (task_id_str : string)
    : ST Queues (Response (option TaskStatusResponse)) :=
  let task_id := mkTaskId task_id_str in
  me <- my self ;;
  let partition := get_partition (partitioner me) task_id_str in
  let owners := get_owners (partitioner me) partition in
  if bool_decide (head owners = Some (local_node_id me)) then
    o <- get_task self task_id ;; st_ret (status_response task_id o)
  else
    o <- get_task self task_id ;; st_ret (status_response task_id o).

Definition handle_get_task_status_internal (self : SocketAddr) (task_id_str : string)
    : ST Queues (Response (option TaskStatusResponse)) :=
  let task_id := mkTaskId task_id_str in
  o <- get_task self task_id ;; st_ret (status_response task_id o).

(** [handle_task_partition_dump]. *)
Definition handle_task_partition_dump (self : SocketAddr) (partition : Z)
    : ST Queues (Response (list (TaskId * TaskEntry P))) :=
  me <- my self ;;
  st_ret (mkResponse OK (dump_partition partition me)).

(** [fetch_partition]. *)
Definition fetch_partition (self : SocketAddr) (node_id : NodeId) (partition : Z)
    : ST Queues (result (list (TaskId * TaskEntry P))) :=
  node <-? resolve self node_id "Owner node not found" ;;
  response <-? get_with_retry (http_addr node)
                 (handle_task_partition_dump (http_addr node) partition) 3 ;;
  st_ret (if decide (status response = NOT_FOUND) then Ok [] else
          if negb (is_success response) then Err "Task partition dump failed" else
          Ok (body response)).
End ops.

(** ** What one submission may change *)
Section spec.
Context {P : Type}.
Implicit Types q : DistributedQueue P.
Implicit Types w : World (DistributedQueue P).

(** From one state of a node's table to a later one during the submission of task [t] under id
    [i] of partition [p]. *)
Record submitted (p : Z) (i : TaskId) (t : Task P) q q' : Prop := {
  su_host : partitioner q' = partitioner q;
  su_old p' i' e : lookup_task p' i' q = Some e -> lookup_task p' i' q' = Some e;
  su_new p' i' : lookup_task p' i' q = None ->
    lookup_task p' i' q' = None \/
    (p' = p /\ i' = i /\ exists c, lookup_task p' i' q' = Some (new_entry t c));
}.

Section one_task.
Context (p : Z) (i : TaskId) (t : Task P).

#[export] Instance submitted_preorder : PreOrder (submitted p i t).
Proof.
  split.
  - intros q. split; auto.
  - intros q1 q2 q3 [H1 H2 H3] [H4 H5 H6]. split; [congruence|auto|]. intros p' i' Hn.
    destruct (H3 p' i' Hn) as [Hn'|(-> & -> & c & Hc)]; [by apply H6|]. right.
    split_and!; [done..|]. exists c. by apply H5.
Qed.

Lemma submitted_view q q' : submitted p i t q q' -> view q' = view q.
Proof. intros Hs. unfold view. simpl. by rewrite (su_host _ _ _ _ _ Hs). Qed.

(** Node [a] has some entry for the task; it has the entry of a task just submitted. *)
Definition present (a : SocketAddr) w : Prop :=
  exists q, nodes w !! a = Some q /\ is_Some (lookup_task p i q).
Definition has_new (a : SocketAddr) w : Prop :=
  exists q c, nodes w !! a = Some q /\ lookup_task p i q = Some (new_entry t c).
(** No node knows the id. *)
Definition fresh_id w : Prop :=
  forall a q p', nodes w !! a = Some q -> lookup_task p' i q = None.

#[local] Notation step := (pointwise (submitted p i t)).

Lemma step_present a w w' : step w w' -> present a w -> present a w'.
Proof.
  intros Hs (q & Hq & e & He). destruct (pointwise_lookup _ _ _ _ _ Hs Hq) as (q' & Hq' & Hsu).
  exists q'. split; [done|]. exists e. by apply (su_old _ _ _ _ _ Hsu).
Qed.

Lemma submitted_new a w w' : step w w' -> fresh_id w -> present a w' -> has_new a w'.
Proof.
  intros Hs Hf (q' & Hq' & Hp). destruct (pointwise_lookup_inv _ _ _ _ _ Hs Hq') as (q & Hq & Hsu).
  destruct (su_new _ _ _ _ _ Hsu p i (Hf a q p Hq)) as [Hn|(_ & _ & c & Hc)].
  - rewrite Hn in Hp. by destruct Hp.
  - by exists q', c.
Qed.

Lemma submitted_host w w' : step w w' -> pointwise same_host w w'.
Proof. apply pointwise_mono. intros q q' Hs. apply (su_host _ _ _ _ _ Hs). Qed.

Lemma store_local_submitted c q : submitted p i t q (store_local p i (new_entry t c) q).
Proof.
  split; [done| |].
  - intros p' i' e He. by rewrite lookup_store, He.
  - intros p' i' Hn. rewrite lookup_store, Hn. case_decide as Hd; [|by left].
    destruct Hd as [-> ->]. right. eauto.
Qed.

Lemma update_store c self w :
  is_Some (nodes w !! self) ->
  exists w', update self (store_local p i (new_entry t c)) w = (tt, w') /\ step w w' /\
             present self w' /\ env w' = env w.
Proof.
  intros [q Hq]. rewrite (update_eq self _ w q Hq). eexists. split; [reflexivity|]. split_and!.
  - pose proof (on_my_pointwise (submitted p i t) self
      (fun q => (tt, store_local p i (new_entry t c) q)) w q Hq (store_local_submitted c q)) as Hs.
    by rewrite (on_my_eq self _ w q Hq) in Hs.
  - eexists. split; [apply lookup_insert_eq|]. rewrite lookup_store.
    destruct (lookup_task p i q); [by eexists|]. rewrite decide_True by done. by eexists.
  - done.
Qed.

Lemma handle_replicate_task_spec c self w :
  is_Some (nodes w !! self) ->
  exists w', handle_replicate_task self (mkReplicateTask p i (new_entry t c)) w =
               (mkResponse OK tt, w') /\ step w w' /\ present self w' /\ env w' = env w.
Proof.
  intros Hup. destruct (update_store c self w Hup) as (w' & Hu & Hs & Hp & He). exists w'.
  split; [|done]. unfold handle_replicate_task. simpl. by rewrite (st_bind_eq _ _ _ _ _ Hu).
Qed.

Lemma handle_replicate_task_step c self w :
  is_Some (nodes w !! self) ->
  step w (handle_replicate_task self (mkReplicateTask p i (new_entry t c)) w).2.
Proof. intros Hup. by destruct (handle_replicate_task_spec c self w Hup) as (w' & -> & ? & _). Qed.

Lemma replicate_task_spec c self b w q :
  nodes w !! self = Some q ->
  let '(r, w') := replicate_task_to_backup self b p i (new_entry t c) w in
  step w w' /\
  (r = Ok tt -> exists n, get_member (view q) b = Some n /\ present (http_addr n) w').
Proof.
  intros Hq. unfold replicate_task_to_backup, resolve, st_try, st_bind, st_get.
  rewrite (lookup_total_correct _ _ _ Hq).
  destruct (get_member (view q) b) as [n|]; [|by split]. simpl.
  set (serve := handle_replicate_task _ _).
  pose proof (post_with_retry_rel (http_addr n) serve step (same_nodes_pointwise _)
    (handle_replicate_task_step c (http_addr n)) 3 w) as Hs.
  pose proof (post_with_retry_ok (http_addr n) serve step (same_nodes_pointwise _)
    (handle_replicate_task_step c (http_addr n)) 3 w) as Hok.
  rewrite post_copy. destruct (Net.post_with_retry _ serve 3 w) as [[resp|e] w'] eqn:E; simpl in *; [|by split].
  split; [done|]. intros _. exists n. split; [done|].
  destruct (Hok resp w' eq_refl) as (w0 & _ & Hup & Hrun).
  destruct (handle_replicate_task_spec c (http_addr n) w0 Hup) as (w1 & Hr & _ & Hp & _).
  unfold serve in Hrun. rewrite Hr in Hrun. by injection Hrun as _ <-.
Qed.

Lemma replicate_task_step c self b w :
  is_Some (nodes w !! self) -> step w (replicate_task_to_backup self b p i (new_entry t c) w).2.
Proof.
  intros [q Hq]. pose proof (replicate_task_spec c self b w q Hq) as Hs.
  destruct (replicate_task_to_backup _ _ _ _ _ w). by destruct Hs.
Qed.

Lemma store_task_spec c self w q :
  nodes w !! self = Some q ->
  let '(r, w') := store_as_primary self p i (new_entry t c) w in
  step w w' /\ present self w' /\
  (r = Ok tt -> forall b, b ∈ tail (get_owners (partitioner q) p) ->
     exists n, get_member (view q) b = Some n /\ present (http_addr n) w').
Proof.
  intros Hq. unfold store_as_primary.
  destruct (update_store c self w (mk_is_Some _ _ Hq)) as (w1 & Hu & Hs1 & Hp1 & _).
  rewrite (st_bind_eq _ _ _ _ _ Hu).
  destruct (pointwise_lookup _ _ _ _ _ Hs1 Hq) as (q1 & Hq1 & Hsu).
  rewrite (st_bind_eq _ _ _ _ _ (my_eq self w1 q1 Hq1)), (su_host _ _ _ _ _ Hsu).
  set (f := fun b => replicate_task_to_backup self b p i (new_entry t c)).
  set (bs := tail (get_owners (partitioner q) p)).
  assert (forall b w2, b ∈ bs -> step w1 w2 -> step w2 (f b w2).2) as Hf.
  { intros b w2 _ Hs2. apply replicate_task_step.
    apply (pointwise_up _ _ _ self Hs2). by eexists. }
  assert (step w1 (for_each_try f bs w1).2) as Hs2.
  { apply (for_each_inv_try (step w1)); [reflexivity|]. intros b w2 Hb Hs2.
    etrans; [exact Hs2|]. by apply Hf. }
  destruct (for_each_try f bs w1) as [r w'] eqn:Er. simpl in Hs2. split_and!.
  - by etrans.
  - by eapply step_present.
  - intros -> b Hb.
    destruct (for_each_try_ok step f bs w1 w' Hf Er b Hb) as (w2 & w3 & H12 & Hrun & H3).
    destruct (pointwise_lookup _ _ _ _ _ H12 Hq1) as (q2 & Hq2 & Hsu2).
    pose proof (replicate_task_spec c self b w2 q2 Hq2) as Hspec. fold f in Hspec.
    unfold f in Hrun. rewrite Hrun in Hspec. destruct Hspec as [_ Hspec].
    destruct (Hspec eq_refl) as (n & Hn & Hpn). exists n. split; [|by eapply step_present].
    by rewrite (submitted_view _ _ Hsu2), (submitted_view _ _ Hsu) in Hn.
Qed.

(** What a successful [store_as_primary] at [a] leaves behind at the backups. *)
Definition backups_present (a : SocketAddr) w w' : Prop :=
  exists q, nodes w !! a = Some q /\
    forall b, b ∈ tail (get_owners (partitioner q) p) ->
      exists n, get_member (view q) b = Some n /\ present (http_addr n) w'.

Lemma handle_internal_submit_spec self w :
  is_Some (nodes w !! self) ->
  let '(resp, w') := handle_internal_submit_task self (mkForwardTask p i t) w in
  step w w' /\ present self w' /\
  (is_success resp = true -> backups_present self w w').
Proof.
  intros [q Hq]. unfold handle_internal_submit_task. simpl.
  rewrite (st_bind_eq now_ms _ w _ w eq_refl). unfold st_bind.
  pose proof (store_task_spec (clock (env w)) self w q Hq) as Hs.
  destruct (store_as_primary _ _ _ _ w) as [r w']. destruct Hs as (? & ? & Hb). simpl.
  split_and!; [done..|]. intros Hsucc. exists q. split; [done|]. destruct r as [[]|]; [by apply Hb|].
  done.
Qed.

Lemma backups_present_mono a w w0 w' :
  step w w0 -> backups_present a w0 w' -> backups_present a w w'.
Proof.
  intros Hs (q0 & Hq0 & Hb). destruct (pointwise_lookup_inv _ _ _ _ _ Hs Hq0) as (q & Hq & Hsu).
  exists q. split; [done|]. by rewrite (su_host _ _ _ _ _ Hsu), (submitted_view _ _ Hsu) in Hb.
Qed.

Lemma forward_task_spec self b w q :
  nodes w !! self = Some q ->
  let '(r, w') := forward_task self b p i t w in
  step w w' /\
  (r = Ok tt -> exists n, get_member (view q) b = Some n /\ present (http_addr n) w' /\
                          backups_present (http_addr n) w w').
Proof.
  intros Hq. unfold forward_task, resolve, st_try, st_bind, st_get.
  rewrite (lookup_total_correct _ _ _ Hq).
  destruct (get_member (view q) b) as [n|]; [|by split]. simpl.
  set (serve := handle_internal_submit_task _ _).
  assert (forall w0, is_Some (nodes w0 !! http_addr n) -> step w0 (serve w0).2) as Hserve.
  { intros w0 Hup. pose proof (handle_internal_submit_spec (http_addr n) w0 Hup) as Hs.
    unfold serve. destruct (handle_internal_submit_task _ _ w0). by destruct Hs. }
  pose proof (post_with_retry_rel (http_addr n) serve step (same_nodes_pointwise _) Hserve 3 w)
    as Hs.
  pose proof (post_with_retry_ok (http_addr n) serve step (same_nodes_pointwise _) Hserve 3 w)
    as Hok.
  rewrite post_copy. destruct (Net.post_with_retry _ serve 3 w) as [[resp|e] w'] eqn:E; simpl in *; [|by split].
  split; [done|]. destruct (is_success resp) eqn:Hsucc; [|done]. intros _.
  exists n. split; [done|]. destruct (Hok resp w' eq_refl) as (w0 & Hs0 & Hup & Hrun).
  pose proof (handle_internal_submit_spec (http_addr n) w0 Hup) as Hspec. fold serve in Hspec.
  rewrite Hrun in Hspec. destruct Hspec as (_ & Hp & Hb). split; [done|].
  eapply backups_present_mono; [exact Hs0|]. by apply Hb.
Qed.
End one_task.

Lemma new_v4_eq w u us :
  uuids (env w) = u :: us ->
  task_id_new w = (mkTaskId u, set_env (mkEnv (fates (env w)) (rng (env w)) us (clock (env w))) w).
Proof. intros Hu. unfold task_id_new, st_bind, new_v4. by rewrite Hu. Qed.

(** Every owner that the copies of [p] reach, from the addresses in the records. *)
Lemma backups_has addr_of p i t a w w' :
  cluster addr_of w -> pointwise (submitted p i t) w w' -> fresh_id i w ->
  backups_present p i a w w' ->
  exists q, nodes w !! a = Some q /\
    forall b, b ∈ tail (get_owners (partitioner q) p) -> has_new p i t (addr_of b) w'.
Proof.
  intros Hc Hs Hf (q & Hq & Hb). exists q. split; [done|]. intros b Hin.
  destruct (Hb b Hin) as (n & Hn & Hp).
  destruct (cluster_owner addr_of w Hc a q b p Hq) as (n' & _ & Hn' & Ha & _ & _).
  { simpl. destruct (get_owners (partitioner q) p); [done|]. by right. }
  rewrite Hn' in Hn. injection Hn as <-. rewrite Ha in Hp. by eapply submitted_new.
Qed.

(** [submit] in one statement, for an id [i] drawn from the generator. *)
Lemma submit_spec addr_of self t w u us q :
  cluster addr_of w -> uuids (env w) = u :: us -> nodes w !! self = Some q ->
  fresh_id (mkTaskId u) w ->
  let i := mkTaskId u in
  let p := get_partition (partitioner q) u in
  let '(r, w') := submit self t w in
  pointwise (submitted p i t) w w' /\
  (is_ok r = true -> r = Ok i /\
    (get_owners (partitioner q) p = [] -> has_new p i t self w') /\
    forall o, o ∈ get_owners (partitioner q) p -> has_new p i t (addr_of o) w').
Proof.
  intros Hc Hu Hq Hf i p. unfold submit. rewrite (st_bind_eq _ _ _ _ _ (new_v4_eq w u us Hu)).
  set (w1 := set_env _ w). fold i.
  assert (nodes w1 !! self = Some q) as Hq1 by done.
  assert (pointwise (submitted p i t) w w1) as Hs01 by (by apply same_nodes_pointwise; [apply _|]).
  assert (cluster addr_of w1) as Hc1.
  { apply (cluster_keeps addr_of w); [done|]. by eapply submitted_host. }
  assert (fresh_id i w1) as Hf1 by done.
  rewrite (st_bind_eq _ _ _ _ _ (my_eq self w1 q Hq1)).
  change (task_id_str i) with u. fold p.
  destruct (get_owners (partitioner q) p) as [|primary rest] eqn:Eo.
  - rewrite (st_bind_eq now_ms _ w1 _ w1 eq_refl).
    destruct (update_store p i t (clock (env w1)) self w1 (mk_is_Some _ _ Hq1))
      as (w' & Hrun & Hs & Hp & _).
    rewrite (st_bind_eq _ _ _ _ _ Hrun). simpl. split; [by etrans|]. intros _.
    split_and!; [done| |by intros o ?%elem_of_nil]. intros _. by eapply submitted_new.
  - pose proof (cl_self _ _ Hc self q Hq : addr_of (local_node_id q) = self) as Hself.
    case_decide as Hd.
    + rewrite (st_bind_eq now_ms _ w1 _ w1 eq_refl).
      pose proof (store_task_spec p i t (clock (env w1)) self w1 q Hq1) as Hspec.
      unfold st_try, st_bind. destruct (store_as_primary _ _ _ _ w1) as [r w'].
      destruct Hspec as (Hs & Hp & Hb). destruct r as [[]|e]; simpl; (split; [by etrans|]);
        [|done]. intros _. split_and!; [done|done|].
      destruct (backups_has addr_of p i t self w1 w' Hc1 Hs Hf1) as (q' & Hq' & Hall).
      { exists q. split; [done|]. by apply Hb. }
      rewrite Hq1 in Hq'. injection Hq' as <-. rewrite Eo in Hall. simpl in Hall.
      intros o [->|Ho]%elem_of_cons; [|by apply Hall]. rewrite Hd, Hself. by eapply submitted_new.
    + pose proof (forward_task_spec p i t self primary w1 q Hq1) as Hspec.
      unfold st_try, st_bind. destruct (forward_task _ _ _ _ _ w1) as [r w'].
      destruct Hspec as (Hs & Hb). destruct r as [[]|e]; simpl; (split; [by etrans|]);
        [|done]. intros _. split_and!; [done|done|].
      destruct (Hb eq_refl) as (n & Hn & Hp & Hbp).
      destruct (cluster_owner addr_of w1 Hc1 self q primary p Hq1) as (n' & qp & Hn' & Ha & Hqp & _).
      { simpl. rewrite Eo. left. }
      rewrite Hn' in Hn. injection Hn as <-. rewrite Ha in Hp, Hbp.
      destruct (backups_has addr_of p i t (addr_of primary) w1 w' Hc1 Hs Hf1 Hbp)
        as (q' & Hq' & Hall).
      pose proof (cluster_owners addr_of w1 Hc1 self q _ q' p Hq1 Hq') as Ho. simpl in Ho.
      rewrite <- Ho, Eo in Hall. simpl in Hall.
      intros o [->|Hin]%elem_of_cons; [by eapply submitted_new|by apply Hall].
Qed.

(** A submitted task is on every owner.  Whatever the network does, when [submit] returns an id,
    every owner of its partition, primary and backups alike, holds the new task as [Pending]. *)
Theorem submit_replicated addr_of self t w u us q r w' :
  cluster addr_of w -> uuids (env w) = u :: us -> nodes w !! self = Some q ->
  fresh_id (mkTaskId u) w -> submit self t w = (Ok r, w') ->
  let p := get_partition (partitioner q) u in
  r = mkTaskId u /\
  (get_owners (partitioner q) p = [] -> has_new p r t self w') /\
  forall o, o ∈ get_owners (partitioner q) p -> has_new p r t (addr_of o) w'.
Proof.
  intros Hc Hu Hq Hf Hrun p. pose proof (submit_spec addr_of self t w u us q Hc Hu Hq Hf) as Hs.
  simpl in Hs. rewrite Hrun in Hs. destruct Hs as [_ Hs].
  destruct (Hs eq_refl) as ([= ->] & Hn & Ho). split_and!; [done|exact Hn|exact Ho].
Qed.

(** A submission adds one task and does nothing else.  Under any network and whatever [submit]
    returns, at every node every task it had is unchanged, and a task it did not have is the
    submitted one. *)
Theorem submit_frame addr_of self t w u us q r w' a qa :
  cluster addr_of w -> uuids (env w) = u :: us -> nodes w !! self = Some q ->
  fresh_id (mkTaskId u) w -> nodes w !! a = Some qa -> submit self t w = (r, w') ->
  exists qa', nodes w' !! a = Some qa' /\ partitioner qa' = partitioner qa /\
    forall p i, match lookup_task p i qa with
                | Some e => lookup_task p i qa' = Some e
                | None => lookup_task p i qa' = None \/
                          (i = mkTaskId u /\ exists c, lookup_task p i qa' = Some (new_entry t c))
                end.
Proof.
  intros Hc Hu Hq Hf Hqa Hrun. pose proof (submit_spec addr_of self t w u us q Hc Hu Hq Hf) as Hs.
  simpl in Hs. rewrite Hrun in Hs. destruct Hs as [Hs _].
  destruct (pointwise_lookup _ _ _ _ _ Hs Hqa) as (qa' & Hqa' & [Hh Ho Hn]).
  exists qa'. split_and!; [done..|]. intros p i. destruct (lookup_task p i qa) as [e|] eqn:E.
  - by apply Ho.
  - destruct (Hn p i E) as [?|(_ & ? & ?)]; [by left|by right].
Qed.

(** ** Under a quiet network *)

Section quiet.
Context (addr_of : NodeId -> SocketAddr) (p : Z) (i : TaskId) (t : Task P).

Lemma store_task_quiet c self w q :
  cluster addr_of w -> quiet w -> nodes w !! self = Some q ->
  exists w', store_as_primary self p i (new_entry t c) w = (Ok tt, w') /\ quiet w' /\
             uuids (env w') = uuids (env w).
Proof.
  intros Hc Hq Hm. unfold store_as_primary.
  destruct (update_store p i t c self w (mk_is_Some _ _ Hm)) as (w1 & Hu & Hs1 & _ & He).
  rewrite (st_bind_eq _ _ _ _ _ Hu).
  destruct (pointwise_lookup _ _ _ _ _ Hs1 Hm) as (q1 & Hq1 & Hsu).
  rewrite (st_bind_eq _ _ _ _ _ (my_eq self w1 q1 Hq1)), (su_host _ _ _ _ _ Hsu).
  destruct (for_each_try_total (fun w2 => pointwise (submitted p i t) w w2 /\ env w2 = env w)
    (fun b => replicate_task_to_backup self b p i (new_entry t c))
    (tail (get_owners (partitioner q) p)) w1) as (w' & Hrun & _ & He'); [|by split|].
  - intros b w2 Hb [Hs2 He2].
    destruct (pointwise_lookup _ _ _ _ _ Hs2 Hm) as (q2 & Hq2 & Hsu2).
    assert (cluster addr_of w2) as Hc2 by (apply (cluster_keeps addr_of w); [done|by eapply submitted_host]).
    destruct (cluster_owner addr_of w2 Hc2 self q2 b p Hq2) as (n & qb & Hn & Ha & Hqb & _).
    { simpl. rewrite (su_host _ _ _ _ _ Hsu2). destruct (get_owners _ p); [done|]. by right. }
    destruct (handle_replicate_task_spec p i t c (http_addr n) w2) as (w3 & Hr & Hs3 & _ & He3).
    { rewrite Ha, Hqb. by eexists. }
    exists w3. split; [|split; [by etrans|congruence]].
    unfold replicate_task_to_backup, resolve. unfold st_try at 1. unfold st_get at 1.
    unfold st_bind at 1. rewrite (lookup_total_correct _ _ _ Hq2), Hn. simpl.
    rewrite (st_try_ok _ _ w2 (mkResponse OK tt) w3); [done|].
    apply post_with_retry_quiet; [unfold quiet; by rewrite He2|rewrite Ha, Hqb; by eexists|done].
  - exists w'. split; [done|]. unfold quiet. by rewrite He'.
Qed.
End quiet.

Lemma submit_quiet addr_of self t w u us q :
  cluster addr_of w -> quiet w -> uuids (env w) = u :: us -> nodes w !! self = Some q ->
  exists w', submit self t w = (Ok (mkTaskId u), w') /\ quiet w' /\ uuids (env w') = us.
Proof.
  intros Hc Hqt Hu Hq. unfold submit. rewrite (st_bind_eq _ _ _ _ _ (new_v4_eq w u us Hu)).
  set (w1 := set_env _ w). set (i := mkTaskId u).
  assert (nodes w1 !! self = Some q) as Hq1 by done.
  assert (cluster addr_of w1) as Hc1.
  { apply (cluster_keeps addr_of w); [done|]. by apply same_nodes_pointwise; [apply _|]. }
  rewrite (st_bind_eq _ _ _ _ _ (my_eq self w1 q Hq1)). set (p := get_partition _ _).
  destruct (get_owners (partitioner q) p) as [|primary rest] eqn:Eo.
  - rewrite (st_bind_eq now_ms _ w1 _ w1 eq_refl).
    rewrite (st_bind_eq _ _ _ _ _ (update_eq self _ w1 q Hq1)). by eexists.
  - case_decide as Hd.
    + rewrite (st_bind_eq now_ms _ w1 _ w1 eq_refl).
      destruct (store_task_quiet addr_of p i t (clock (env w1)) self w1 q Hc1 Hqt Hq1)
        as (w' & Hrun & Hq' & Hu').
      rewrite (st_try_ok _ _ _ _ _ Hrun). by exists w'.
    + destruct (cluster_owner addr_of w1 Hc1 self q primary p Hq1) as (n & qp & Hn & Ha & Hqp & _).
      { simpl. rewrite Eo. left. }
      destruct (store_task_quiet addr_of p i t (clock (env w1)) (addr_of primary) w1 qp
                  Hc1 Hqt Hqp) as (w' & Hrun & Hq' & Hu').
      exists w'. split; [|done].
      rewrite (st_try_ok _ _ w1 tt w'); [done|].
      unfold forward_task, resolve. unfold st_try at 1. unfold st_get at 1. unfold st_bind at 1.
      rewrite (lookup_total_correct _ _ _ Hq1), Hn. simpl.
      rewrite (st_try_ok _ _ w1 (mkResponse OK i) w'); [done|].
      apply post_with_retry_quiet; [done|rewrite Ha, Hqp; by eexists|].
      unfold handle_internal_submit_task. simpl. rewrite Ha.
      rewrite (st_bind_eq now_ms _ w1 _ w1 eq_refl). by rewrite (st_bind_eq _ _ _ _ _ Hrun).
Qed.

(** Availability of submission.  On a quiet network [submit] succeeds from every node. *)
Theorem submit_available addr_of self t w u us q :
  cluster addr_of w -> quiet w -> uuids (env w) = u :: us -> nodes w !! self = Some q ->
  exists w', submit self t w = (Ok (mkTaskId u), w') /\ quiet w' /\ uuids (env w') = us.
Proof. apply submit_quiet. Qed.

(** ** Looking tasks up *)

Section reading.
Context (path_segment : string -> option string).

Lemma fetch_task_quiet self b key w q n qb :
  path_segment key = Some key -> nodes w !! self = Some q -> quiet w ->
  get_member (view q) b = Some n -> nodes w !! http_addr n = Some qb ->
  fetch_remote path_segment self b key w =
    (match find_task (mkTaskId key) qb with
     | Some e => Ok (Some e) | None => Err "GET request failed" end, w).
Proof.
  intros Hseg Hq Hqt Hn Hqb. unfold fetch_remote, resolve.
  unfold st_try at 1. unfold st_get at 1. unfold st_bind at 1.
  rewrite (lookup_total_correct _ _ _ Hq), Hn. simpl.
  set (resp := match get_task_local (mkTaskId key) qb with
               | Some entry => mkResponse OK (Some entry) | None => mkResponse NOT_FOUND None end).
  rewrite (st_try_ok _ _ w resp w).
  - unfold resp, get_task_local. by destruct (find_task (mkTaskId key) qb).
  - apply get_with_retry_quiet; [done|by eexists|]. unfold route_get_task. rewrite Hseg.
    unfold handle_get_task_internal. by rewrite (st_bind_eq _ _ _ _ _ (my_eq _ w qb Hqb)).
Qed.

(** C31: a submitted task can be looked up everywhere.  Once [submit] has returned an id, a quiet
    network lets every node of the cluster find the task, as [Pending], and answer its status
    request with 200. *)
Theorem task_found addr_of self reader t w u us q qr r w' :
  path_segment u = Some u ->
  cluster addr_of w -> uuids (env w) = u :: us -> nodes w !! self = Some q ->
  fresh_id (mkTaskId u) w -> nodes w !! reader = Some qr ->
  get_owners (partitioner q) (get_partition (partitioner q) u) <> [] ->
  submit self t w = (Ok r, w') -> quiet w' ->
  exists c, get_task path_segment reader r w' = (Some (new_entry t c), w') /\
    handle_get_task_status path_segment reader u w' =
      (mkResponse OK (Some (mkTaskStatus r Pending None c)), w').
Proof.
  intros Hseg Hc Hu Hq Hf Hqr Hne Hrun Hqt.
  pose proof (submit_spec addr_of self t w u us q Hc Hu Hq Hf) as Hs.
  simpl in Hs. rewrite Hrun in Hs. destruct Hs as [Hs Hok].
  destruct (Hok eq_refl) as ([= ->] & _ & Ho). clear Hok. set (i := mkTaskId u) in *.
  set (p := get_partition (partitioner q) u) in *.
  destruct (pointwise_lookup _ _ _ _ _ Hs Hqr) as (qr' & Hqr' & Hsu).
  assert (cluster addr_of w') as Hc'
    by (apply (cluster_keeps addr_of w); [done|by eapply submitted_host]).
  assert (get_partition (partitioner qr') u = p) as Hp.
  { rewrite (su_host _ _ _ _ _ Hsu). symmetry.
    apply (cluster_partition addr_of w Hc self q reader qr u Hq Hqr). }
  assert (get_owners (partitioner qr') p = get_owners (partitioner q) p) as Hor.
  { rewrite (su_host _ _ _ _ _ Hsu). symmetry.
    apply (cluster_owners addr_of w Hc self q reader qr p Hq Hqr). }
  assert (exists c, get_task path_segment reader i w' = (Some (new_entry t c), w')) as (c & Hget).
  { unfold get_task. rewrite (st_bind_eq _ _ _ _ _ (my_eq reader w' qr' Hqr')).
    unfold get_task_local. rewrite find_task_lookup. change (task_id_str i) with u. rewrite Hp.
    destruct (lookup_task p i qr') as [e|] eqn:El.
    { destruct (su_new _ _ _ _ _ Hsu p i (Hf _ _ _ Hqr)) as [Hn|(_ & _ & c & Hcr)];
        [congruence|]. exists c. by rewrite El in Hcr; injection Hcr as ->. }
    rewrite Hor. destruct (get_owners (partitioner q) p) as [|primary rest] eqn:Eo; [done|].
    destruct (Ho primary ltac:(left)) as (qp & c & Hqp & Hl).
    assert (primary ∈ get_owners (host qr') p) as Hin by (simpl; rewrite Hor; left).
    destruct (cluster_owner addr_of w' Hc' reader qr' primary p Hqr' Hin)
      as (n & qp' & Hn & Ha & Hqp' & Hid).
    rewrite Hqp in Hqp'. injection Hqp' as <-.
    rewrite decide_True.
    - exists c. cbn [ask_owners]. rewrite <- Ha in Hqp.
      rewrite (st_bind_eq _ _ _ _ _
        (fetch_task_quiet reader primary u w' qr' n qp Hseg Hqr' Hqt Hn Hqp)).
      rewrite find_task_lookup. change (task_id_str (mkTaskId u)) with u.
      assert (get_partition (partitioner qp) u = p) as ->.
      { rewrite <- Hp.
        apply (cluster_partition addr_of w' Hc' (http_addr n) qp reader qr' u Hqp Hqr'). }
      fold i. by rewrite Hl.
    - intros Heq.
      apply (cluster_owner_addr_self addr_of w' Hc' reader qr' primary p Hqr' Hin) in Heq.
      rewrite Heq, Hqr' in Hqp. injection Hqp as <-. congruence. }
  exists c. split; [done|]. unfold handle_get_task_status.
  rewrite (st_bind_eq _ _ _ _ _ (my_eq reader w' qr' Hqr')). cbn [task_id_str].
  by case_bool_decide; rewrite (st_bind_eq _ _ _ _ _ Hget).
Qed.
End reading.

(** ** Copying partitions *)

Lemma fetch_tasks_spec self b p w q :
  nodes w !! self = Some q ->
  let '(r, w') := fetch_partition self b p w in
  same_nodes w w' /\
  (forall es, r = Ok es -> exists n qb, get_member (view q) b = Some n /\
     nodes w !! http_addr n = Some qb /\ es = dump_partition p qb).
Proof.
  intros Hq. unfold fetch_partition, resolve, st_try, st_bind, st_get.
  rewrite (lookup_total_correct _ _ _ Hq).
  destruct (get_member (view q) b) as [n|]; [|by split]. simpl.
  set (serve := handle_task_partition_dump (http_addr n) p).
  assert (forall w0 qb, nodes w0 !! http_addr n = Some qb ->
            serve w0 = (mkResponse OK (dump_partition p qb), w0)) as Heq.
  { intros w0 qb Hqb. unfold serve, handle_task_partition_dump.
    by rewrite (st_bind_eq _ _ _ _ _ (my_eq _ w0 qb Hqb)). }
  assert (forall w0, is_Some (nodes w0 !! http_addr n) -> same_nodes w0 (serve w0).2) as Hserve.
  { intros w0 [qb Hqb]. by rewrite (Heq w0 qb Hqb). }
  pose proof (get_with_retry_rel (http_addr n) serve same_nodes (fun _ _ Hs => Hs) Hserve 3 w)
    as Hs.
  pose proof (get_with_retry_ok (http_addr n) serve same_nodes (fun _ _ Hs => Hs) Hserve 3 w)
    as Hok.
  rewrite get_copy. destruct (Net.get_with_retry _ serve 3 w) as [[resp|e] w'] eqn:E; simpl in *; [|by split].
  split; [done|]. intros es Hes.
  destruct (Hok resp w' eq_refl) as (w0 & Hw0 & [qb Hqb] & Hrun).
  exists n, qb. split; [done|]. split; [by rewrite <- Hw0|].
  rewrite (Heq w0 qb Hqb) in Hrun. injection Hrun as <- <-. by injection Hes as <-.
Qed.

Lemma fetch_tasks_quiet self b p w q n qb :
  nodes w !! self = Some q -> quiet w -> get_member (view q) b = Some n ->
  nodes w !! http_addr n = Some qb ->
  fetch_partition self b p w = (Ok (dump_partition p qb), w).
Proof.
  intros Hq Hqt Hn Hqb. unfold fetch_partition, resolve.
  unfold st_try at 1. unfold st_get at 1. unfold st_bind at 1.
  rewrite (lookup_total_correct _ _ _ Hq), Hn. simpl.
  rewrite (st_try_ok _ _ w (mkResponse OK (dump_partition p qb)) w); [done|].
  apply get_with_retry_quiet; [done|by eexists|]. unfold handle_task_partition_dump.
  by rewrite (st_bind_eq _ _ _ _ _ (my_eq _ w qb Hqb)).
Qed.
End spec.

(** ** A cluster of three nodes with replication factor 2 *)

Module Example.
Definition example_queue (x : string) : DistributedQueue bool :=
  queue_new (example_pm ["a"; "b"; "c"] 2 x).
Definition example_world (fs : list Fate) (ids : list string) : World (DistributedQueue bool) :=
  mkWorld (example_nodes ["a"; "b"; "c"] example_queue) (mkEnv fs [3; 18; 40; 7] ids 1000).
Definition on (x : string) : SocketAddr := mkAddr x 6000.
Definition work : Task bool := Execute "index_document" true.
Definition plain_segment (s : string) : option string := Some s.

Lemma task_world_cluster fs ids : cluster example_addr (example_world fs ids).
Proof.
  apply (example_cluster _ 2); [done|]. apply (bool_decide_unpack _). vm_compute. exact I.
Qed.

Lemma task_world_fresh i fs ids : fresh_id i (example_world fs ids).
Proof.
  intros a q p (x & _ & -> & ->)%example_nodes_inv. unfold lookup_task. simpl.
  by rewrite lookup_empty.
Qed.

Lemma task_in_a : "a" ∈ ["a"; "b"; "c"].
Proof. left. Qed.

Lemma example_a fs ids : nodes (example_world fs ids) !! on "a" = Some (example_queue "a").
Proof.
  apply example_nodes_lookup; [|apply task_in_a]. apply (bool_decide_unpack _). vm_compute. exact I.
Qed.

Definition part (u : string) : Z := get_partition (partitioner (example_queue "a")) u.

Lemma owners_t3 : get_owners (partitioner (example_queue "a")) (part "t3") = [mkId "b"; mkId "c"].
Proof. vm_compute. reflexivity. Qed.

(** The network loses one reply and drops one request; id ["t3"] belongs to [b] and [c]. *)
Lemma submit_replicated_witness :
  let w := example_world [ReplyLost; Unreachable] ["t3"] in
  let w' := (submit (on "a") work w).2 in
  has_new (part "t3") (mkTaskId "t3") work (on "b") w' /\
  has_new (part "t3") (mkTaskId "t3") work (on "c") w'.
Proof.
  intros w w'.
  assert (submit (on "a") work w = (Ok (mkTaskId "t3"), w')) as Hrun.
  { transitivity ((submit (on "a") work w).1, w'); [apply surjective_pairing|].
    apply (f_equal (fun r => (r, w'))). vm_compute. reflexivity. }
  pose proof owners_t3 as Ho. unfold part in *. clearbody w'.
  pose proof (submit_replicated example_addr (on "a") work w "t3" [] (example_queue "a")
    (mkTaskId "t3") w') as Hsub.
  specialize (Hsub (task_world_cluster _ _) eq_refl (example_a _ _) (task_world_fresh _ _ _) Hrun).
  destruct Hsub as (_ & _ & Hall). rewrite Ho in Hall. split.
  - apply (Hall (mkId "b")). left.
  - apply (Hall (mkId "c")). right. left.
Defined.

Lemma submit_frame_witness :
  let w := example_world [ReplyLost; Unreachable] ["t3"] in
  exists qa', nodes (submit (on "a") work w).2 !! on "a" = Some qa' /\
    partitioner qa' = partitioner (example_queue "a").
Proof.
  intros w.
  pose proof (submit_frame example_addr (on "a") work w "t3" [] (example_queue "a")
    (submit (on "a") work w).1 (submit (on "a") work w).2 (on "a") (example_queue "a")) as Hsub.
  specialize (Hsub (task_world_cluster _ _) eq_refl (example_a _ _) (task_world_fresh _ _ _)
    (example_a _ _) (surjective_pairing _)).
  destruct Hsub as (qa' & Hqa & Hh & _). exists qa'. split; [exact Hqa|exact Hh].
Defined.

Lemma submit_available_witness :
  exists w', submit (on "a") work (example_world [] ["t3"]) = (Ok (mkTaskId "t3"), w') /\
             quiet w' /\ uuids (env w') = [].
Proof.
  pose proof (submit_available example_addr (on "a") work (example_world [] ["t3"]) "t3" []
    (example_queue "a")) as Hsub.
  exact (Hsub (task_world_cluster _ _) eq_refl eq_refl (example_a _ _)).
Defined.

Lemma task_found_witness :
  let w := example_world [ReplyLost; Unreachable] ["t3"] in
  let w' := (submit (on "a") work w).2 in
  exists c, get_task plain_segment (on "a") (mkTaskId "t3") w' = (Some (new_entry work c), w').
Proof.
  intros w w'.
  assert (submit (on "a") work w = (Ok (mkTaskId "t3"), w')) as Hrun.
  { transitivity ((submit (on "a") work w).1, w'); [apply surjective_pairing|].
    apply (f_equal (fun r => (r, w'))). vm_compute. reflexivity. }
  assert (quiet w') as Hqt by (vm_compute; reflexivity).
  pose proof owners_t3 as Ho. unfold part in *.
  assert (get_owners (partitioner (example_queue "a"))
    (get_partition (partitioner (example_queue "a")) "t3") <> []) as Hne by (by rewrite Ho).
  clearbody w'.
  pose proof (task_found plain_segment example_addr (on "a") (on "a") work w "t3" []
    (example_queue "a") (example_queue "a") (mkTaskId "t3") w' eq_refl) as Hf.
  specialize (Hf (task_world_cluster _ _) eq_refl (example_a _ _) (task_world_fresh _ _ _)
    (example_a _ _) Hne Hrun Hqt).
  destruct Hf as (c & Hget & _). exists c. exact Hget.
Defined.

(** [b], the primary, claims and completes the task; then [b] dies and [c] takes over. *)
Definition finished : World (DistributedQueue bool) :=
  let w := (submit (on "a") work (example_world [] ["t3"])).2 in
  snd ((_ <- on_my (on "b") (try_claim_task (mkTaskId "t3") 2000) ;;
    on_my (on "b") (complete_task (mkTaskId "t3") (Ok tt))) w).
Definition view_without_b : PartitionManager := example_pm ["a"; "c"] 2 "c".

(** Results are not replicated.  After the primary has completed a task, a backup asked for its
    status still answers [Pending]; and when the backup becomes primary itself, it offers the
    finished task to its workers, where it can be claimed and executed again. *)
Theorem completed_task_runs_again :
  (handle_get_task_status plain_segment (on "b") "t3" finished).1 =
    mkResponse OK (Some (mkTaskStatus (mkTaskId "t3") Completed (Some (mkId "b")) 1000)) /\
  (handle_get_task_status plain_segment (on "c") "t3" finished).1 =
    mkResponse OK (Some (mkTaskStatus (mkTaskId "t3") Pending None 1000)) /\
  let c := mkQueue (local_tasks (nodes finished !!! on "c")) view_without_b in
  my_pending_tasks 9000 c = [(mkTaskId "t3", new_entry work 1000)] /\
  (try_claim_task (mkTaskId "t3") 9000 c).1 = Ok true.
Proof. vm_compute. split_and!; reflexivity. Qed.
End Example.
