(* ===== verification/Sync.v ===== *)
(** * Anti-entropy: the resync loops of src/main.rs

    [sync_partitions] and [sync_queue_partitions] are the same loop over two components.  What the
    loop needs of a component is the class [Syncable]; what its effect rests on is [SyncLaws]; the
    map and the queue are instances, and differ in who wins when both sides have an entry. *)

From S2P Require Import Prelude Membership Partitioner Net Topology.
From S2P Require Storage StorageNet Queue QueueNet.

#[local] Open Scope Z_scope.

Class Syncable (S : Type) `{Hosted S} := {
  sync_key : Type;
  sync_val : Type;
  sync_key_eq :: EqDecision sync_key;
  sync_key_countable :: Countable sync_key;
  (** [has_partition], [dump_partition], [fetch_partition] and [apply_partition_entries]. *)
  sync_has : Z -> S -> bool;
  sync_dump : Z -> S -> list (sync_key * sync_val);
  sync_fetch : SocketAddr -> NodeId -> Z ->
    ST (World S) (result (list (sync_key * sync_val)));
  sync_apply : Z -> list (sync_key * sync_val) -> S -> S;
  (** The entry of a key, and the entry that results from a local and a fetched one. *)
  sync_lookup : Z -> sync_key -> S -> option sync_val;
  sync_merge : option sync_val -> option sync_val -> option sync_val;
}.

Class SyncLaws (S : Type) `{Syncable S} : Prop := {
  law_dump p s k v : (k, v) ∈ sync_dump p s <-> sync_lookup p k s = Some v;
  law_dump_NoDup p s : NoDup (sync_dump p s).*1;
  law_has p s : sync_has p s = true <-> sync_dump p s <> [];
  law_apply_host p es s : host (sync_apply p es s) = host s;
  law_apply p es s p' k : NoDup es.*1 ->
    sync_lookup p' k (sync_apply p es s) =
      if decide (p' = p)
      then sync_merge (sync_lookup p' k s)
             ((list_to_map es : gmap sync_key sync_val) !! k)
      else sync_lookup p' k s;
  law_merge_none_r o : sync_merge o None = o;
  law_merge_none_l o : sync_merge None o = o;
  law_merge_idem o o' : sync_merge (sync_merge o o') o' = sync_merge o o';
  law_fetch_quiet self b p w s n sb :
    nodes w !! self = Some s -> quiet w -> get_member (view s) b = Some n ->
    nodes w !! http_addr n = Some sb -> sync_fetch self b p w = (Ok (sync_dump p sb), w);
  law_fetch self b p w s :
    nodes w !! self = Some s ->
    let '(r, w') := sync_fetch self b p w in
    same_nodes w w' /\
    (forall es, r = Ok es -> exists n sb, get_member (view s) b = Some n /\
       nodes w !! http_addr n = Some sb /\ es = sync_dump p sb);
}.

Section sync.
Context {S : Type} `{SyncLaws S}.
Implicit Types w : World S.

(** [target_partitions], a [HashSet] that the loop visits in an order of its own. *)
Definition target_partitions (s : S) : gset Z :=
  list_to_set (my_primary_partitions (host s)) ∪ list_to_set (my_backup_partitions (host s)).

(** The owner to fetch from, if any: a primary without data asks its first backup, a backup always
    asks the primary. *)
Definition source_owner (s : S) (partition : Z) : option NodeId :=
  match get_owners (host s) partition with
  | [] => None
  | primary :: backups =>
      if decide (primary = my_id s)
      then if sync_has partition s then None else head backups
      else Some primary
  end.

(** One iteration of the loop. *)
Definition sync_partition (self : SocketAddr) (partition : Z) : ST (World S) unit :=
  me <- my self ;;
  match source_owner me partition with
  | None => st_ret tt
  | Some source =>
      r <- sync_fetch self source partition ;;
      match r with
      | Ok [] => st_ret tt
      | Ok entries => update self (sync_apply partition entries)
      | Err _ => st_ret tt
      end
  end.

(** [sync_partitions] and [sync_queue_partitions], visiting the partitions in the order [order]. *)
Definition sync_partitions (self : SocketAddr) (order : list Z) : ST (World S) (result unit) :=
  for_each (sync_partition self) order ;;;
  st_ret (Ok tt).

(** [sync_loop] and [sync_queue_loop]: a pass every 15 seconds, the order of the partitions being
    that of a new set each time; the source would log an error and go on. *)
Definition sync_loop (self : SocketAddr) (orders : list (list Z)) : ST (World S) unit :=
  for_each (fun order => sync_partitions self order ;;; st_ret tt) orders.

(** ** Any network *)

(** What applying fetched entries keeps, a pass keeps. *)
Lemma sync_partition_keeps (R : relation S) `{!PreOrder R} self p w :
  (forall es s, R s (sync_apply p es s)) -> is_Some (nodes w !! self) ->
  pointwise R w (sync_partition self p w).2.
Proof.
  intros Happ [s Hs]. unfold sync_partition. rewrite (st_bind_eq _ _ _ _ _ (my_eq self w s Hs)).
  destruct (source_owner s p) as [i|]; [|reflexivity].
  pose proof (law_fetch self i p w s Hs) as Hf. unfold st_bind.
  destruct (sync_fetch self i p w) as [r w1]. destruct Hf as [Hn _].
  assert (pointwise R w w1) as Hw1 by (by apply same_nodes_pointwise).
  destruct r as [[|e es]|]; [done| |done]. etrans; [done|].
  apply (on_my_pointwise R self _ w1 s); [by rewrite Hn|apply Happ].
Qed.

Lemma sync_partitions_keeps (R : relation S) `{!PreOrder R} self order w :
  (forall p es s, R s (sync_apply p es s)) -> is_Some (nodes w !! self) ->
  pointwise R w (sync_partitions self order w).2.
Proof.
  intros Happ. unfold sync_partitions, st_bind.
  assert (is_Some (nodes w !! self) ->
    pointwise R w (for_each (sync_partition self) order w).2) as Hl.
  { revert w. induction order as [|p order IH]; intros w Hup; cbn [for_each]; [reflexivity|].
    unfold st_bind. pose proof (sync_partition_keeps R self p w (Happ p) Hup) as Hw1.
    destruct (sync_partition self p w) as [u w1]. etrans; [exact Hw1|]. apply IH.
    by apply (pointwise_up R w w1 self Hw1). }
  intros Hup. specialize (Hl Hup). by destruct (for_each _ order w).
Qed.

(** ** One partition on a quiet network *)

(** What node [self] should hold for [k] of partition [p] after the pass: its own entry merged
    with that of the source. *)
Definition synced (addr_of : NodeId -> SocketAddr) w (s : S) (p : Z) (k : sync_key)
    : option sync_val :=
  match source_owner s p with
  | None => sync_lookup p k s
  | Some source => sync_merge (sync_lookup p k s)
                     (nodes w !! addr_of source ≫= sync_lookup p k)
  end.

Lemma dump_lookup p s k : (list_to_map (sync_dump p s) : gmap sync_key sync_val) !! k = sync_lookup p k s.
Proof.
  pose proof (law_dump_NoDup p s) as Hnd.
  destruct (sync_lookup p k s) as [v|] eqn:E.
  - apply elem_of_list_to_map_1; [done|]. by apply law_dump.
  - apply not_elem_of_list_to_map_1. rewrite list_elem_of_fmap. intros ([k' v] & -> & Hin).
    apply law_dump in Hin. simpl in E. congruence.
Qed.

Lemma source_owner_spec s p i :
  source_owner s p = Some i -> i ∈ get_owners (host s) p /\ (wf (view s) -> i <> my_id s).
Proof.
  unfold source_owner. pose proof (get_owners_NoDup (host s) p) as Hnd.
  destruct (get_owners (host s) p) as [|primary backups]; [done|].
  case_decide as Hp; [destruct (sync_has p s); [done|]|].
  - intros Hh. destruct backups as [|b bs]; [done|]. injection Hh as ->. split.
    + right. left.
    + intros Hwf. specialize (Hnd Hwf). apply NoDup_cons in Hnd as [Hni _]. intros ->.
      apply Hni. rewrite Hp. left.
  - intros [= <-]. split; [left|done].
Qed.

Section quiet.
Context (addr_of : NodeId -> SocketAddr).

Lemma sync_partition_quiet self p w s :
  cluster addr_of w -> quiet w -> nodes w !! self = Some s ->
  exists s', sync_partition self p w = (tt, set_node self s' w) /\ host s' = host s /\
    (forall p' k, p' <> p -> sync_lookup p' k s' = sync_lookup p' k s) /\
    (forall k, sync_lookup p k s' = synced addr_of w s p k).
Proof.
  intros Hc Hq Hs. unfold sync_partition, synced.
  rewrite (st_bind_eq _ _ _ _ _ (my_eq self w s Hs)).
  destruct (source_owner s p) as [i|] eqn:Esrc; [|exists s; by rewrite set_node_id].
  destruct (source_owner_spec s p i Esrc) as [Hin _].
  destruct (cluster_owner addr_of w Hc self s i p Hs Hin) as (n & si & Hn & Ha & Hsi & _).
  rewrite <- Ha in Hsi |- *.
  rewrite (st_bind_eq _ _ _ _ _ (law_fetch_quiet self i p w s n si Hs Hq Hn Hsi)). rewrite Hsi.
  simpl. pose proof (dump_lookup p si) as Hl. pose proof (law_dump_NoDup p si) as Hnd.
  destruct (sync_dump p si) as [|e es] eqn:Ed.
  - exists s. rewrite set_node_id by done. split_and!; [done..|]. intros k. rewrite <- Hl. simpl.
    by rewrite lookup_empty, law_merge_none_r.
  - exists (sync_apply p (e :: es) s). rewrite (update_eq self _ w s Hs). split_and!; [done| | |].
    + apply law_apply_host.
    + intros p' k Hne. rewrite law_apply by done. by rewrite decide_False.
    + intros k. rewrite law_apply by done. rewrite decide_True by done. by rewrite Hl.
Qed.

Lemma source_owner_ext (s s' : S) p :
  host s' = host s -> (forall k, sync_lookup p k s' = sync_lookup p k s) ->
  source_owner s' p = source_owner s p.
Proof.
  intros Hh Hl. unfold source_owner, my_id. rewrite Hh.
  assert (sync_has p s' = sync_has p s) as ->; [|done].
  apply Bool.eq_iff_eq_true. rewrite !law_has.
  assert (forall s1 s2 : S, (forall k, sync_lookup p k s1 = sync_lookup p k s2) ->
            sync_dump p s1 <> [] -> sync_dump p s2 <> []) as Himp.
  { intros s1 s2 H12 Hn1 Hn2. destruct (sync_dump p s1) as [|[k v] l] eqn:E1; [done|].
    assert ((k, v) ∈ sync_dump p s2) as Hin by (apply law_dump; rewrite <- H12; apply law_dump;
      rewrite E1; left).
    rewrite Hn2 in Hin. by apply elem_of_nil in Hin. }
  split; by apply Himp.
Qed.

Lemma no_entries p s k : sync_has p s = false -> sync_lookup p k s = None.
Proof.
  intros Hhas. destruct (sync_lookup p k s) as [v|] eqn:E; [|done].
  assert (sync_has p s = true); [|congruence]. apply law_has. apply law_dump in E.
  intros Hnil. rewrite Hnil in E. by apply elem_of_nil in E.
Qed.

(** Another partition's target is not affected by what one iteration does. *)
Lemma synced_step self w s s1 q k :
  cluster addr_of w -> nodes w !! self = Some s -> host s1 = host s ->
  (forall k, sync_lookup q k s1 = sync_lookup q k s) ->
  synced addr_of (set_node self s1 w) s1 q k = synced addr_of w s q k.
Proof.
  intros Hc Hs Hh Hl. unfold synced. rewrite (source_owner_ext s s1 q Hh Hl), Hl.
  destruct (source_owner s q) as [i|] eqn:Esrc; [|done].
  destruct (source_owner_spec s q i Esrc) as [Hin Hne]. simpl. rewrite lookup_insert_ne; [done|].
  intros Heq. apply Hne; [by apply (cl_wf _ _ Hc self)|].
  by apply (cluster_owner_addr_self addr_of w Hc self s i q Hs Hin).
Qed.

(** The loop, over distinct partitions. *)
Lemma sync_pass_quiet self order w s :
  cluster addr_of w -> quiet w -> nodes w !! self = Some s -> NoDup order ->
  exists s', for_each (sync_partition self) order w = (tt, set_node self s' w) /\
    host s' = host s /\
    forall p k, sync_lookup p k s' =
      if decide (p ∈ order) then synced addr_of w s p k else sync_lookup p k s.
Proof.
  intros Hc Hq. revert w s Hc Hq.
  induction order as [|p order IH]; intros w s Hc Hq Hs Hnd; cbn [for_each].
  { exists s. split_and!; [|done|].
    - by rewrite set_node_id.
    - intros p k. rewrite decide_False; [done|]. apply not_elem_of_nil. }
  apply NoDup_cons in Hnd as [Hp Hnd].
  destruct (sync_partition_quiet self p w s Hc Hq Hs) as (s1 & Hrun & Hh & Hother & Hsync).
  rewrite (st_bind_eq _ _ _ _ _ Hrun). set (w1 := set_node self s1 w).
  assert (nodes w1 !! self = Some s1) as Hs1 by apply lookup_insert_eq.
  assert (cluster addr_of w1) as Hc1.
  { apply (cluster_keeps addr_of w); [done|]. intros a. simpl.
    destruct (decide (a = self)) as [->|Hne].
    - rewrite lookup_insert_eq, Hs. by constructor.
    - rewrite lookup_insert_ne by done. destruct (nodes w !! a); by constructor. }
  destruct (IH w1 s1 Hc1 Hq Hs1 Hnd) as (s2 & Hrun2 & Hh2 & Hl2).
  exists s2. split_and!.
  - rewrite Hrun2. unfold w1, set_node. simpl. by rewrite insert_insert_eq.
  - congruence.
  - intros q k. rewrite Hl2. destruct (decide (q = p)) as [->|Hqp].
    + rewrite decide_False, decide_True by (done || left). apply Hsync.
    + unfold w1. rewrite (synced_step self w s s1 q k Hc Hs Hh (fun k => Hother q k Hqp)), Hother by done.
      destruct (decide (q ∈ order)) as [Hin|Hin].
      * by rewrite decide_True by (by right).
      * rewrite decide_False; [done|]. by intros [?|?]%elem_of_cons.
Qed.

(** Two states of one node, the second after a pass over the partition: there is nothing more to
    fetch. *)
Lemma source_owner_same (s s1 : S) p i j :
  host s1 = host s -> source_owner s p = Some i -> source_owner s1 p = Some j -> i = j.
Proof.
  intros Hh. unfold source_owner, my_id. rewrite Hh.
  destruct (get_owners (host s) p) as [|primary backups]; [done|]. case_decide; [|congruence].
  destruct (sync_has p s), (sync_has p s1); congruence.
Qed.

Lemma synced_again self w s s1 p k :
  cluster addr_of w -> nodes w !! self = Some s -> host s1 = host s ->
  (forall k, sync_lookup p k s1 = synced addr_of w s p k) ->
  synced addr_of (set_node self s1 w) s1 p k = synced addr_of w s p k.
Proof.
  intros Hc Hs Hh Hl. destruct (source_owner s p) as [i|] eqn:Esrc.
  - assert (forall k, sync_lookup p k s1 = sync_merge (sync_lookup p k s)
      (nodes w !! addr_of i ≫= sync_lookup p k)) as Hl1.
    { intros k1. rewrite Hl. unfold synced. by rewrite Esrc. }
    unfold synced at 1. destruct (source_owner s1 p) as [j|] eqn:Esrc1; [|apply Hl].
    rewrite <- (source_owner_same s s1 p i j Hh Esrc Esrc1) in *.
    destruct (source_owner_spec s p i Esrc) as [Hin Hne]. simpl. rewrite lookup_insert_ne.
    + rewrite Hl1, law_merge_idem. unfold synced. by rewrite Esrc.
    + intros Heq. apply Hne; [by apply (cl_wf _ _ Hc self)|].
      by apply (cluster_owner_addr_self addr_of w Hc self s i p Hs Hin).
  - apply (synced_step self w s s1 p k Hc Hs Hh). intros k1. rewrite Hl. unfold synced. by rewrite Esrc.
Qed.

(** Any positive number of passes. *)
Lemma sync_loop_quiet self orders w s :
  cluster addr_of w -> quiet w -> nodes w !! self = Some s -> orders <> [] ->
  Forall (fun order => order ≡ₚ elements (target_partitions s)) orders ->
  exists s', sync_loop self orders w = (tt, set_node self s' w) /\ host s' = host s /\
    forall p k, sync_lookup p k s' =
      if decide (p ∈ target_partitions s) then synced addr_of w s p k else sync_lookup p k s.
Proof.
  intros Hc Hq Hs Hne Hords. revert w s Hc Hq Hs Hords.
  induction orders as [|order orders IH]; [done|]. intros w s Hc Hq Hs [Hord Hords]%Forall_cons.
  assert (NoDup order) as Hnd by (rewrite Hord; apply NoDup_elements).
  destruct (sync_pass_quiet self order w s Hc Hq Hs Hnd) as (s1 & Hrun & Hh & Hl).
  assert (forall p k, sync_lookup p k s1 =
    if decide (p ∈ target_partitions s) then synced addr_of w s p k else sync_lookup p k s) as Hl1.
  { intros p k. rewrite Hl. apply decide_ext. by rewrite Hord, elem_of_elements. }
  assert ((sync_partitions self order ;;; st_ret tt) w = (tt, set_node self s1 w)) as Hpass.
  { unfold sync_partitions, st_bind. by rewrite Hrun. }
  unfold sync_loop. cbn [for_each]. rewrite (st_bind_eq _ _ _ _ _ Hpass).
  destruct orders as [|order' orders]; [by exists s1|].
  set (w1 := set_node self s1 w). assert (nodes w1 !! self = Some s1) as Hs1 by apply lookup_insert_eq.
  assert (target_partitions s1 = target_partitions s) as Ht by (unfold target_partitions; by rewrite Hh).
  destruct (IH ltac:(done) w1 s1) as (s2 & Hrun2 & Hh2 & Hl2); [|done|done|by rewrite Ht|].
  { apply (cluster_keeps addr_of w); [done|]. intros a. simpl. destruct (decide (a = self)) as [->|Ha].
    - rewrite lookup_insert_eq, Hs. by constructor.
    - rewrite lookup_insert_ne by done. destruct (nodes w !! a); by constructor. }
  exists s2. split_and!; [|congruence|].
  - etrans; [exact Hrun2|]. unfold w1, set_node. simpl. by rewrite insert_insert_eq.
  - intros p k. rewrite Hl2, Ht, Hl1. destruct (decide (p ∈ target_partitions s)) as [Hp|Hp]; [|done].
    apply synced_again; [done..|]. intros k1. by rewrite Hl1, decide_True.
Qed.

(** C23: anti-entropy.  On a quiet network, in whatever order the partitions are visited, any
    positive number of passes changes nothing on other nodes, and afterwards the node holds: in a
    partition it backs up, its own entries merged with the primary's; in a partition of its own that
    was empty, the entries of the first backup; in every other partition, what it held. *)
Theorem sync_restores self orders w s :
  cluster addr_of w -> quiet w -> nodes w !! self = Some s -> orders <> [] ->
  Forall (fun order => order ≡ₚ elements (target_partitions s)) orders ->
  exists s', sync_loop self orders w = (tt, set_node self s' w) /\ host s' = host s /\
    forall p k,
      sync_lookup p k s' =
        if decide (p ∈ my_backup_partitions (host s)) then
          sync_merge (sync_lookup p k s)
            (head (get_owners (host s) p) ≫= fun i => nodes w !! addr_of i ≫= sync_lookup p k)
        else if decide (p ∈ my_primary_partitions (host s) /\ sync_has p s = false) then
          head (tail (get_owners (host s) p)) ≫= fun i => nodes w !! addr_of i ≫= sync_lookup p k
        else sync_lookup p k s.
Proof.
  intros Hc Hq Hs Hne Hords.
  destruct (sync_loop_quiet self orders w s Hc Hq Hs Hne Hords) as (s' & Hrun & Hh & Hl).
  exists s'. split_and!; [done|done|]. intros p k. rewrite Hl.
  assert (p ∈ target_partitions s <-> p ∈ my_primary_partitions (host s) \/ p ∈ my_backup_partitions (host s))
    as Hin by (unfold target_partitions; set_solver).
  pose proof (elem_of_my_primary (host s) p) as Hpri.
  pose proof (elem_of_my_backup (host s) p) as Hbak.
  pose proof (cluster_owners_NoDup addr_of w Hc self s p Hs) as Hndo.
  unfold synced, source_owner, my_id.
  destruct (decide (p ∈ my_backup_partitions (host s))) as [Hb|Hb].
  - rewrite decide_True by tauto. apply Hbak in Hb as [_ Hb].
    destruct (get_owners (host s) p) as [|primary backups]; [by apply elem_of_nil in Hb|].
    apply NoDup_cons in Hndo as [Hni _]. simpl in Hb |- *. rewrite decide_False; [done|].
    by intros ->.
  - destruct (decide (p ∈ my_primary_partitions (host s) /\ sync_has p s = false)) as [[Hp Hhas]|Hp].
    + rewrite decide_True by tauto. apply Hpri in Hp as [_ Hp].
      destruct (get_owners (host s) p) as [|primary backups]; [done|]. simpl in *.
      injection Hp as ->. rewrite decide_True, Hhas by done. rewrite (no_entries p s k Hhas).
      destruct backups; simpl; [done|]. apply law_merge_none_l.
    + destruct (decide (p ∈ target_partitions s)) as [Ho|Ho]; [|done].
      apply Hin in Ho as [Ho|Ho]; [|done]. pose proof Ho as [_ Hh0]%Hpri.
      destruct (get_owners (host s) p) as [|primary backups]; [done|]. simpl in *.
      injection Hh0 as ->. rewrite decide_True by done.
      destruct (sync_has p s) eqn:Hhas; [done|]. by destruct Hp.
Qed.
End quiet.
End sync.

(** ** The two components *)

Section map.
Import Storage StorageNet.
Context {K V : Type} `{Countable K, !RustKey K, !RustKeyLaws K, !Serde V, !SerdeLaws V}.

#[export] Instance map_syncable : Syncable (DistributedMap K V) :=
  { sync_key := K;
    sync_val := V;
    sync_has := has_partition;
    sync_dump := dump_partition;
    sync_fetch := fetch_partition;
    sync_apply := apply_partition_entries;
    sync_lookup := lookup_in;
    sync_merge mine theirs := match theirs with Some v => Some v | None => mine end }.

#[export] Instance map_sync_laws : SyncLaws (DistributedMap K V).
Proof.
  split; simpl.
  - intros p m k v. symmetry. apply lookup_in_dump.
  - intros p m. apply dump_partition_NoDup.
  - intros p m. unfold has_partition, dump_partition.
    destruct (local_data m !! p) as [pm|]; [|by split].
    rewrite bool_decide_eq_true. by rewrite map_to_list_empty_iff.
  - intros p es m. unfold apply_partition_entries. revert m.
    induction es as [|e es IH]; intros m; [done|]. simpl. by rewrite IH.
  - intros p es m p' k Hnd. rewrite lookup_in_apply by done. done.
  - done.
  - by intros [].
  - by intros ? [].
  - intros self b p w m n mb. apply fetch_partition_quiet.
  - intros self b p w m. apply fetch_partition_spec.
Qed.
End map.

Section queue.
Import Queue QueueNet.
Context {P : Type}.

#[export] Instance queue_syncable : Syncable (DistributedQueue P) :=
  { sync_key := TaskId;
    sync_val := TaskEntry P;
    sync_has := has_partition;
    sync_dump := dump_partition;
    sync_fetch := fetch_partition;
    sync_apply := apply_partition_entries;
    sync_lookup := lookup_task;
    sync_merge mine theirs := match mine with Some e => Some e | None => theirs end }.

#[export] Instance queue_sync_laws : SyncLaws (DistributedQueue P).
Proof.
  split; simpl.
  - intros p q i e. apply elem_of_dump.
  - intros p q. apply dump_NoDup.
  - intros p q. unfold has_partition, dump_partition.
    destruct (local_tasks q !! p) as [pm|]; [|by split].
    rewrite bool_decide_eq_true. by rewrite map_to_list_empty_iff.
  - done.
  - intros p es q p' i Hnd. rewrite lookup_apply by done.
    destruct (lookup_task p' i q); [by case_decide|done].
  - by intros [].
  - done.
  - by intros [] [].
  - intros self b p w q n qb. apply fetch_tasks_quiet.
  - intros self b p w q. apply fetch_tasks_spec.
Qed.
End queue.

(** ** What anti-entropy repairs *)

Section heal.
Import Storage StorageNet.
Context {K V : Type} `{Countable K, !RustKey K, !RustKeyLaws K, !Serde V, !SerdeLaws V}.

(** A backup catches up.  A backup that wrote through the primary, and so ignored its own
    write, holds the written value after its next pass of anti-entropy on a quiet network. *)
Theorem sync_heals_forwarder addr_of self (k : K) (v : V) op w w' m order :
  cluster addr_of w -> fresh_op op w -> nodes w !! self = Some m ->
  let p := get_partition (partitioner m) (key_to_string k) in
  local_id m ∈ tail (get_owners (partitioner m) p) ->
  put_with_op self k v op w = (Ok tt, w') -> quiet w' ->
  order ≡ₚ elements (target_partitions m) ->
  exists m', sync_partitions self order w' = (Ok tt, set_node self m' w') /\
             lookup_in p k m' = Some v.
Proof.
  intros Hc Hf Hm p Hbak Hrun Hq Hord.
  destruct (put_ok_holds addr_of self k v op w w' m Hc Hf Hm Hrun) as (_ & Hprim & _).
  fold p in Hprim.
  pose proof (put_with_op_framed self k v op w m p Hm eq_refl) as Hfr. rewrite Hrun in Hfr.
  simpl in Hfr. destruct (pointwise_lookup _ _ _ _ _ Hfr Hm) as (m1 & Hm1 & Hh1 & _).
  assert (cluster addr_of w') as Hc'.
  { apply (cluster_keeps addr_of w); [done|]. revert Hfr. apply pointwise_mono. by intros ?? []. }
  assert (NoDup order) as Hnd by (rewrite Hord; apply NoDup_elements).
  destruct (sync_pass_quiet addr_of self order w' m1 Hc' Hq Hm1 Hnd) as (m' & Hloop & _ & Hl).
  exists m'. split.
  { unfold sync_partitions. by rewrite (st_bind_eq _ _ _ _ _ Hloop). }
  specialize (Hl p k). simpl in Hl. rewrite Hl, decide_True.
  - pose proof (cluster_owners_NoDup addr_of w Hc self m p Hm) as Hndo. simpl in Hndo.
    unfold synced, source_owner, my_id. simpl. rewrite Hh1.
    destruct (get_owners (partitioner m) p) as [|primary rest]; [by apply elem_of_nil in Hbak|].
    apply NoDup_cons in Hndo as [Hni _]. simpl in Hbak.
    rewrite decide_False by (by intros ->).
    destruct (Hprim primary eq_refl) as (mp & Hmp & Hv). rewrite Hmp. simpl. by rewrite Hv.
  - rewrite Hord, elem_of_elements. unfold target_partitions.
    apply elem_of_union_r, elem_of_list_to_set, elem_of_my_backup.
    split; [|done]. apply get_partition_range. apply (cl_parts _ _ Hc self m Hm).
Qed.
End heal.

(** ** Examples: node [c] is the backup of ["k2"] *)
Module Example.
Import Storage StorageNet StorageNet.Example.

Lemma in_order s : elements (target_partitions (S := DistributedMap string bool) s) ≡ₚ
                   elements (target_partitions s).
Proof. done. Qed.

Lemma sync_heals_forwarder_witness :
  let w := updated_world calm in
  let w' := (put_with_op (on "c") "k2" true "op" w).2 in
  exists m', sync_partitions (on "c") (elements (target_partitions (updated_shard "c"))) w' =
      (Ok tt, set_node (on "c") m' w') /\
    lookup_in (part "k2") "k2" m' = Some true.
Proof.
  intros w w'.
  assert (put_with_op (on "c") "k2" true "op" w = (Ok tt, w')) as Hrun
    by (apply run_eq; vm_compute; reflexivity).
  assert (quiet w') as Hq by (vm_compute; reflexivity).
  assert (local_id (updated_shard "c") ∈
    tail (get_owners (partitioner (updated_shard "c"))
      (get_partition (partitioner (updated_shard "c")) (key_to_string "k2")))) as Hbak
    by (apply (bool_decide_unpack _); vm_compute; exact I).
  clearbody w'.
  pose proof (sync_heals_forwarder example_addr (on "c") "k2" true "op" w w' (updated_shard "c")
    (elements (target_partitions (updated_shard "c")))) as Hheal.
  specialize (Hheal (updated_world_cluster _) (updated_fresh _ _) (updated_shard_at "c" _ in_c)).
  exact (Hheal Hbak Hrun Hq (in_order _)).
Defined.

Lemma sync_restores_witness :
  let w := updated_world calm in
  let order := elements (target_partitions (updated_shard "c")) in
  exists s', sync_loop (on "c") [order; reverse order] w = (tt, set_node (on "c") s' w).
Proof.
  intros w order.
  pose proof (sync_restores example_addr (on "c") [order; reverse order] w (updated_shard "c")) as Hs.
  specialize (Hs (updated_world_cluster _) eq_refl (updated_shard_at "c" _ in_c) ltac:(discriminate)).
  destruct Hs as (s' & Hrun & _).
  - repeat apply Forall_cons_2; [apply in_order|apply reverse_Permutation|apply Forall_nil_2].
  - exists s'. exact Hrun.
Defined.
End Example.
