(* ===== verification/Service.v ===== *)
(** * The map with its background task

    What StorageSpec.v shows of reads and writes, for nodes that run the anti-entropy loop of
    src/main.rs beside them: a pass never changes what the map holds, so that clients cannot tell
    when the loops run. *)

From S2P Require Import Prelude Membership Partitioner Net Topology Storage StorageNet StorageSpec.
From S2P Require Import Sync.

#[local] Open Scope Z_scope.
#[local] Strategy 1000 [get_partition get_owners].

Section service.
Context {K V : Type} `{Countable K, !RustKey K, !RustKeyLaws K, !Serde V, !SerdeLaws V}.
Context (path_segment : string -> option string) (addr_of : NodeId -> SocketAddr).
Implicit Types d : gmap K V.
Implicit Types m : DistributedMap K V.
Implicit Types w : World (DistributedMap K V).

(** ** One pass *)

(** Fetched entries have no operation ids. *)
Definition same_ops m m' : Prop := processed_ops m' = processed_ops m.

#[export] Instance same_ops_preorder : PreOrder same_ops.
Proof. split; unfold same_ops; [by intros ?|congruence]. Qed.

Lemma apply_same_ops p es m : same_ops m (apply_partition_entries p es m).
Proof.
  unfold apply_partition_entries. revert m. induction es as [|e es IH]; intros m; [reflexivity|].
  simpl. etrans; [|apply IH]. done.
Qed.

Lemma sync_fresh self order op w :
  is_Some (nodes w !! self) -> fresh_op op w -> fresh_op op (sync_partitions self order w).2.
Proof.
  intros Hup Hf a m' Hm'.
  pose proof (sync_partitions_keeps same_ops self order w apply_same_ops Hup) as Hk.
  destruct (pointwise_lookup_inv _ _ _ _ _ Hk Hm') as (m & Hm & ->). by apply (Hf a).
Qed.

(** To replace one shard by another that is sound and, as a primary, complete. *)
Lemma represents_one d w self m m' :
  represents addr_of d w -> nodes w !! self = Some m -> partitioner m' = partitioner m ->
  (forall k v, lookup_in (home m k) k m' = Some v -> d !! k = Some v /\ local_id m ∈ owners m k) ->
  (forall k v, head (owners m k) = Some (local_id m) -> d !! k = Some v ->
     lookup_in (home m k) k m' = Some v) ->
  represents addr_of d (set_node self m' w).
Proof.
  intros [Hc Hq Ho Hs Hp] Hm Hh Hsound Hprim.
  assert (forall a x, nodes (set_node self m' w) !! a = Some x ->
    (a = self /\ x = m') \/ (a <> self /\ nodes w !! a = Some x)) as Hinv.
  { intros a x. simpl. destruct (decide (a = self)) as [->|Hne].
    - rewrite lookup_insert_eq. intros [= <-]. by left.
    - rewrite lookup_insert_ne by done. by right. }
  assert (forall k, home m' k = home m k /\ owners m' k = owners m k) as Hsame.
  { intros k. unfold owners, home. by rewrite Hh. }
  assert (local_id m' = local_id m) as Hid by (unfold local_id; by rewrite Hh).
  split.
  - apply (cluster_keeps addr_of w); [done|]. intros a. simpl.
    destruct (decide (a = self)) as [->|Hne].
    + rewrite lookup_insert_eq, Hm. by constructor.
    + rewrite lookup_insert_ne by done. destruct (nodes w !! a); by constructor.
  - exact Hq.
  - intros a x k [[-> ->]|[_ Hx]]%Hinv; [rewrite (proj2 (Hsame k)); by apply (Ho self)|by apply (Ho a)].
  - intros a x k v [[-> ->]|[_ Hx]]%Hinv; [|by apply (Hs a)].
    unfold get_local. fold (home m' k). destruct (Hsame k) as [-> ->]. rewrite Hid. apply Hsound.
  - intros a x k v i Hx Hv Hi.
    assert (exists x0, nodes w !! a = Some x0 /\ home x k = home x0 k /\ owners x k = owners x0 k)
      as (x0 & Hx0 & Hhx & Hox).
    { apply Hinv in Hx as [[-> ->]|[_ Hx]]; [exists m; split; [done|apply Hsame]|by exists x]. }
    rewrite Hox in Hi. rewrite Hhx. destruct (Hp a x0 k v i Hx0 Hv Hi) as (mi & Hmi & Hvi).
    unfold holds. simpl. destruct (decide (addr_of i = self)) as [Ha|Hne].
    + rewrite Ha, lookup_insert_eq. exists m'. split; [done|].
      destruct (home_agree addr_of w a x0 self m k Hc Hx0 Hm) as [Hhm Hom]. rewrite Hhm.
      apply Hprim; [|done]. rewrite <- Hom, Hi. f_equal.
      rewrite Ha, Hm in Hmi. injection Hmi as <-.
      assert (i ∈ owners x0 k) as Hin by (destruct (owners x0 k); [done|]; injection Hi as ->; left).
      destruct (cluster_owner addr_of w Hc a x0 i _ Hx0 Hin) as (_ & si & _ & _ & Hsi & Hidi).
      rewrite Ha, Hm in Hsi. injection Hsi as <-. exact (eq_sym Hidi).
    + rewrite lookup_insert_ne by done. by exists mi.
Qed.

(** The partitions that a pass visits are those that the node owns. *)
Lemma target_owned m p : p ∈ target_partitions m -> local_id m ∈ get_owners (partitioner m) p.
Proof.
  unfold target_partitions. intros [Hp|Hp]%elem_of_union.
  - apply elem_of_list_to_set, elem_of_my_primary in Hp as [_ Hp]. simpl in Hp.
    destruct (get_owners (partitioner m) p); [done|]. injection Hp as ->. left.
  - apply elem_of_list_to_set, elem_of_my_backup in Hp as [_ Hp]. simpl in Hp.
    destruct (get_owners (partitioner m) p); [done|]. by right.
Qed.

Lemma synced_sound d w self m k v :
  represents addr_of d w -> nodes w !! self = Some m -> local_id m ∈ owners m k ->
  synced addr_of w m (home m k) k = Some v -> d !! k = Some v.
Proof.
  intros Hrep Hm Hown. unfold synced.
  destruct (source_owner m (home m k)) as [i|].
  - simpl. destruct (nodes w !! addr_of i) as [mi|] eqn:Hmi; simpl.
    + destruct (lookup_in (home m k) k mi) as [x|] eqn:Hx; [|intros Hv; by apply (rp_sound _ _ _ Hrep self m k v Hm)].
      intros [= ->]. apply (rp_sound _ _ _ Hrep (addr_of i) mi k v Hmi).
      destruct (home_agree addr_of w self m _ mi k (rp_cluster _ _ _ Hrep) Hm Hmi) as [Hh _].
      unfold get_local. fold (home mi k). by rewrite <- Hh.
    + intros Hv. by apply (rp_sound _ _ _ Hrep self m k v Hm).
  - intros Hv. by apply (rp_sound _ _ _ Hrep self m k v Hm).
Qed.

(** A primary that has something fetches nothing. *)
Lemma synced_primary w m k v :
  head (owners m k) = Some (local_id m) -> lookup_in (home m k) k m = Some v ->
  synced addr_of w m (home m k) k = Some v.
Proof.
  intros Hh Hv. unfold synced, source_owner, my_id. simpl. unfold owners in Hh.
  destruct (get_owners (partitioner m) (home m k)) as [|i rest]; [done|]. injection Hh as ->.
  rewrite decide_True by done.
  assert (has_partition (home m k) m = true) as ->; [|done].
  change (sync_has (home m k) m = true). apply law_has. simpl. apply lookup_in_dump in Hv.
  intros Hnil. rewrite Hnil in Hv. by apply elem_of_nil in Hv.
Qed.

(** A pass keeps what the nodes represent. *)
Lemma sync_represents d w self m order :
  represents addr_of d w -> nodes w !! self = Some m -> order ≡ₚ elements (target_partitions m) ->
  exists m', sync_partitions self order w = (Ok tt, set_node self m' w) /\
    partitioner m' = partitioner m /\ represents addr_of d (set_node self m' w).
Proof.
  intros Hrep Hm Hord. pose proof Hrep as [Hc Hq Ho Hs Hp].
  assert (NoDup order) as Hnd by (rewrite Hord; apply NoDup_elements).
  destruct (sync_pass_quiet addr_of self order w m Hc Hq Hm Hnd) as (m' & Hrun & Hh & Hl).
  simpl in Hh, Hl. exists m'. split_and!; [|done|].
  { unfold sync_partitions. by rewrite (st_bind_eq _ _ _ _ _ Hrun). }
  assert (forall k v, lookup_in (home m k) k m' = Some v ->
    d !! k = Some v /\ local_id m ∈ owners m k) as Hsound.
  { intros k v. rewrite Hl. case_decide as Hin; [|apply (Hs self m k v Hm)].
    rewrite Hord, elem_of_elements in Hin. apply target_owned in Hin. intros Hv.
    split; [by apply (synced_sound d w self m)|done]. }
  assert (forall k v, head (owners m k) = Some (local_id m) -> d !! k = Some v ->
    lookup_in (home m k) k m' = Some v) as Hprim.
  { intros k v Hi Hv. destruct (Hp self m k v _ Hm Hv Hi) as (m0 & Hm0 & Hv0).
    pose proof (cl_self _ _ Hc self m Hm : addr_of (local_id m) = self) as Ha.
    rewrite Ha, Hm in Hm0. injection Hm0 as <-.
    rewrite Hl. case_decide; [|done]. by apply synced_primary. }
  apply (represents_one d w self m m' Hrep Hm Hh); auto.
Qed.

(** ** Clients and passes *)

(** What the nodes do: requests of clients, and passes of anti-entropy in any order of partitions. *)
Inductive served :=
  | Client (o : map_op (K := K) (V := V))
  | Resync (self : SocketAddr) (order : list Z).

Fixpoint run_service (l : list served) : ST (World (DistributedMap K V)) (list (outcome (V := V))) :=
  match l with
  | [] => st_ret []
  | Client o :: l' => r <- run_op path_segment o ;; rs <- run_service l' ;; st_ret (r :: rs)
  | Resync self order :: l' => sync_partitions self order ;;; run_service l'
  end.

(** The requests alone. *)
Definition requests (l : list served) : list map_op :=
  omap (fun x => match x with Client o => Some o | Resync _ _ => None end) l.

Definition may_serve w (x : served) : Prop :=
  match x with
  | Client o => admissible path_segment w o
  | Resync self order =>
      exists m, nodes w !! self = Some m /\ order ≡ₚ elements (target_partitions m)
  end.

Lemma may_serve_keeps w w' l x :
  pointwise same_host w w' -> (forall op, op ∈ op_ids (requests l) -> fresh_op op w -> fresh_op op w') ->
  x ∈ l -> may_serve w x -> may_serve w' x.
Proof.
  intros Hh Hids Hx. destruct x as [o|self order]; simpl.
  - apply (admissible_keeps path_segment w w' o Hh). intros op Hop. apply Hids.
    apply (op_ids_in o); [|done]. apply list_elem_of_omap. by exists (Client o).
  - intros (m & Hm & Hord). destruct (pointwise_lookup _ _ _ _ _ Hh Hm) as (m' & Hm' & Hhm).
    exists m'. split; [done|]. unfold target_partitions. by rewrite Hhm.
Qed.

Lemma set_node_host self w m m' :
  nodes w !! self = Some m -> partitioner m' = partitioner m ->
  pointwise same_host w (set_node self m' w).
Proof.
  intros Hm Hh a. simpl. destruct (decide (a = self)) as [->|Hne].
  - rewrite lookup_insert_eq, Hm. by constructor.
  - rewrite lookup_insert_ne by done. destruct (nodes w !! a); by constructor.
Qed.

(** C6: the map is a map, whatever runs beside it.  From a state that represents [d], every sequence
    of reads and writes without faults, the reads from whatever nodes and the writes from nodes that
    are the primary of their key or do not own it, with passes of anti-entropy of any nodes anywhere
    in between, is answered exactly as one shared map would answer, and ends in a state that
    represents its result.  Writes from mere backups are left out because the claim is false of
    them ([StorageNet.forwarding_backup_skipped]): their copy misses the write until the next pass.
    Of two nodes with two copies one is the primary of a key and the other a mere backup. *)
Theorem service_refinement l d w :
  represents addr_of d w -> Forall (may_serve w) l -> NoDup (op_ids (requests l)) ->
  exists w', run_service l w = ((spec_ops (requests l) d).1, w') /\
             represents addr_of (spec_ops (requests l) d).2 w'.
Proof.
  revert d w. induction l as [|x l IH]; intros d w Hrep Had Hnd; [by exists w|].
  apply Forall_cons in Had as [Hx Had]. rewrite Forall_forall in Had.
  destruct x as [o|self order]; cbn [run_service]; simpl in Hx.
  - change (requests (Client o :: l)) with ([o] ++ requests l)%list in *.
    rewrite op_ids_app in Hnd. apply NoDup_app in Hnd as (_ & Hdis & Hnd).
    cbn [app spec_ops].
    destruct (op_represents path_segment addr_of o d w Hrep Hx) as (w1 & Hrun & Hrep1 & Hh & Hf).
    rewrite (st_bind_eq _ _ _ _ _ Hrun). destruct (spec_op o d) as [r d1]. simpl in Hrep1 |- *.
    destruct (IH d1 w1 Hrep1) as (w' & Hl & Hrep'); [|done|].
    + apply Forall_forall. intros x Hin. apply (may_serve_keeps w w1 l x Hh); [|done|by apply Had].
      intros op Hop. apply Hf. intros Hop'. by apply (Hdis op Hop').
    + rewrite (st_bind_eq _ _ _ _ _ Hl). destruct (spec_ops _ d1) as [rs d2]. by exists w'.
  - destruct Hx as (m & Hm & Hord).
    destruct (sync_represents d w self m order Hrep Hm Hord) as (m' & Hrun & Hh & Hrep').
    rewrite (st_bind_eq _ _ _ _ _ Hrun). apply IH; [done| |done].
    apply Forall_forall. intros x Hin.
    apply (may_serve_keeps w (set_node self m' w) l x); [by apply (set_node_host self w m)| |done|by apply Had].
    intros op _ Hf. replace (set_node self m' w) with (sync_partitions self order w).2 by (by rewrite Hrun).
    apply sync_fresh; [by exists m|done].
Qed.
End service.

(** ** Witness *)

Module Example.
Import StorageNet.Example StorageSpec.Example.
#[local] Existing Instances string_key string_key_laws.

(** The backup [c] of ["k2"] resyncs between a write and a read, and so does [a], which owns nothing
    of it. *)
Definition orders (x : string) : list Z := elements (target_partitions (example_shard x)).
Definition busy_session : list (served (K := string) (V := bool)) :=
  [Resync (on "a") (orders "a"); Client (Put (on "a") "k2" true "op1"); Resync (on "c") (orders "c");
   Client (Get (on "c") "k2"); Client (Put (on "b") "k2" false "op2"); Resync (on "b") (orders "b");
   Client (Get (on "a") "k2")].

Lemma service_refinement_witness :
  exists w', run_service plain_segment busy_session (example_world calm) =
    ([Acknowledged (Ok tt); Got (Some true); Acknowledged (Ok tt); Got (Some false)], w') /\
    represents example_addr {[ "k2" := false ]} w'.
Proof.
  pose proof (service_refinement plain_segment example_addr busy_session ∅ (example_world calm)
    (empty_represents "" calm eq_refl)) as Href.
  assert (forall x, x ∈ ["a"; "b"; "c"] -> may_serve plain_segment (example_world calm)
    (Resync (K := string) (V := bool) (on x) (orders x))) as Hsync.
  { intros x Hx. exists (example_shard x). by split; [apply example_shard_at|]. }
  assert (forall x op v, x ∈ ["a"; "b"; "c"] -> mkId x <> mkId "c" ->
    may_serve plain_segment (example_world calm) (Client (Put (on x) "k2" v op))) as Hput.
  { intros x op v Hx Hne. split; [apply example_fresh|]. exists (example_shard x).
    split; [by apply example_shard_at|].
    assert (owners (example_shard x) "k2" = [mkId "b"; mkId "c"]) as ->.
    { rewrite <- (part_k2 x). reflexivity. }
    by intros ?%list_elem_of_singleton. }
  assert (forall x, x ∈ ["a"; "b"; "c"] -> may_serve plain_segment (example_world calm)
    (Client (V := bool) (Get (on x) "k2"))) as Hget.
  { intros x Hx. split; [|done]. by rewrite (example_shard_at x calm Hx). }
  destruct Href as (w' & Hrun & Hrep).
  - repeat apply Forall_cons_2; [apply Hsync|apply Hput|apply Hsync|apply Hget|apply Hput|apply Hsync|
      apply Hget|apply Forall_nil_2]; (apply in_a || apply in_b || apply in_c || done).
  - apply (bool_decide_unpack _). vm_compute. exact I.
  - exists w'. split; [exact Hrun|]. exact Hrep.
Defined.
End Example.
