(* ===== verification/StorageSteps.v ===== *)
(** * The distributed map, action by action: src/storage/memory.rs, handlers.rs and main.rs

    The operations of StorageNet.v and the anti-entropy pass of Sync.v as processes.  An action is
    one access to a shared table ([DashMap]) or to the environment: between the check of an operation
    id and its insertion, between the insertion and the write, and during every request other tasks
    may run.  [run_put_with_op] and its companions: without interruption a process does exactly what
    the operation of StorageNet.v does.  [Activity] is anything a node does with the map. *)

From S2P Require Import Prelude Membership Partitioner Net Topology Storage Process.
From S2P Require StorageNet Sync NetSteps.
Import NetSteps.

#[local] Open Scope Z_scope.
#[local] Open Scope proc_scope.

#[local] Existing Instances StorageNet.DistributedMap_hosted Sync.map_syncable.

Section ops.
Context {K V : Type} `{Countable K, !RustKey K, !RustKeyLaws K, !Serde V, !SerdeLaws V}.
Context (path_segment : string -> option string).

#[local] Notation Shards := (World (DistributedMap K V)).

(** [self.membership.get_member(i).ok_or_else(..)]: one lookup. *)
Definition resolve (self : SocketAddr) (i : NodeId) (e : string) : proc Shards (result Node) :=
  atomic (Topology.resolve self i e).

(** [should_process]: [contains_key], [len] with [clear], [insert] are separate accesses. *)
Definition contains_op (op_id : string) (m : DistributedMap K V) : bool :=
  bool_decide (is_Some (processed_ops m !! op_id)).
Definition too_many_ops (m : DistributedMap K V) : bool :=
  bool_decide (10000 < Z.of_nat (size (processed_ops m))).
Definition clear_ops (m : DistributedMap K V) : DistributedMap K V := set_ops ∅ m.
Definition insert_op (op_id : string) (now : Z) (m : DistributedMap K V) : DistributedMap K V :=
  set_ops (<[op_id := now]> (processed_ops m)) m.

Definition should_process (self : SocketAddr) (op_id : string) : proc Shards bool :=
  me <~ atomic (my self) ;;
  if contains_op op_id me then Done false else
  me <~ atomic (my self) ;;
  (if too_many_ops me then atomic (update self clear_ops) else Done tt) ;;~
  now <~ atomic now_ms ;;
  atomic (update self (insert_op op_id now)) ;;~
  Done true.

(** [store_local] holds the lock of its entry throughout. *)
Definition store_local (self : SocketAddr) (partition : Z) (key : K) (value : V)
    : proc Shards unit :=
  atomic (update self (Storage.store_local partition key value)).

(** [store_replica]. *)
Definition store_replica (self : SocketAddr) (partition : Z) (op_id : string) (key : K) (value : V)
    : proc Shards (result unit) :=
  fresh <~ should_process self op_id ;;
  if negb fresh then Done (Ok tt) else
  store_local self partition key value ;;~
  Done (Ok tt).

(** [handle_replicate]. *)
Definition handle_replicate (self : SocketAddr) (req : ReplicateRequest)
    : proc Shards (Response PutResponse) :=
  match key_from_str (rr_key req) with
  | Err _ => Done (mkResponse BAD_REQUEST (mkPutResponse false))
  | Ok key =>
      match from_json (rr_value_json req) with
      | Err _ => Done (mkResponse BAD_REQUEST (mkPutResponse false))
      | Ok value =>
          r <~ store_replica self (rr_partition req) (rr_op_id req) key value ;;
          Done (match r with
                | Ok _ => mkResponse OK (mkPutResponse true)
                | Err _ => mkResponse INTERNAL_SERVER_ERROR (mkPutResponse false)
                end)
      end
  end.

(** [replicate_to_backup]. *)
Definition replicate_to_backup (self : SocketAddr) (partition : Z) (op_id : string) (key : K)
    (value : V) (backup_node_id : NodeId) : proc Shards (result unit) :=
  node <~? resolve self backup_node_id "Backup node not found" ;;
  value_json <~? Done (to_json value) ;;
  let payload := mkReplicate partition op_id (key_to_string key) value_json in
  response <~? post_with_retry (http_addr node) (handle_replicate (http_addr node) payload) 3 ;;
  Done (if is_success response then Ok tt else Err "Replication failed").

Definition replicate_to_backups (self : SocketAddr) (owners : list NodeId) (partition : Z)
    (op_id : string) (key : K) (value : V) : proc Shards (result unit) :=
  each_try (replicate_to_backup self partition op_id key value) (tail owners).

(** [store_as_primary]. *)
Definition store_as_primary (self : SocketAddr) (partition : Z) (op_id : string) (key : K)
    (value : V) : proc Shards (result unit) :=
  fresh <~ should_process self op_id ;;
  if negb fresh then Done (Ok tt) else
  store_local self partition key value ;;~
  me <~ atomic (my self) ;;
  replicate_to_backups self (get_owners (partitioner me) partition) partition op_id key value.

(** [handle_forward_put]. *)
Definition handle_forward_put (self : SocketAddr) (req : ForwardPutRequest)
    : proc Shards (Response PutResponse) :=
  match key_from_str (fp_key req) with
  | Err _ => Done (mkResponse BAD_REQUEST (mkPutResponse false))
  | Ok key =>
      match from_json (fp_value_json req) with
      | Err _ => Done (mkResponse BAD_REQUEST (mkPutResponse false))
      | Ok value =>
          r <~ store_as_primary self (fp_partition req) (fp_op_id req) key value ;;
          Done (match r with
                | Ok _ => mkResponse OK (mkPutResponse true)
                | Err _ => mkResponse INTERNAL_SERVER_ERROR (mkPutResponse false)
                end)
      end
  end.

(** [forward_put]. *)
Definition forward_put (self : SocketAddr) (primary_node_id : NodeId) (partition : Z)
    (op_id : string) (key : K) (value : V) : proc Shards (result unit) :=
  node <~? resolve self primary_node_id "Primary node not found" ;;
  value_json <~? Done (to_json value) ;;
  let payload := mkForwardPut partition op_id (key_to_string key) value_json in
  response <~? post_with_retry (http_addr node) (handle_forward_put (http_addr node) payload) 3 ;;
  Done (if is_success response then Ok tt else Err "ForwardPut failed").

(** [put_with_op]. *)
Definition put_with_op (self : SocketAddr) (key : K) (value : V) (op_id : string)
    : proc Shards (result unit) :=
  fresh <~ should_process self op_id ;;
  if negb fresh then Done (Ok tt) else
  me <~ atomic (my self) ;;
  let partition := get_partition (partitioner me) (key_to_string key) in
  let owners := get_owners (partitioner me) partition in
  match owners with
  | [] => store_local self partition key value ;;~ Done (Ok tt)
  | primary :: _ =>
      if decide (local_id me <> primary) then
        _ <~? forward_put self primary partition op_id key value ;;
        Done (Ok tt)
      else
        store_local self partition key value ;;~
        if bool_decide (1 < length owners)%nat
        then replicate_to_backups self owners partition op_id key value
        else Done (Ok tt)
  end.

(** [put]. *)
Definition put (self : SocketAddr) (key : K) (value : V) : proc Shards (result unit) :=
  op_id <~ atomic new_v4 ;;
  put_with_op self key value op_id.

(** [put_local]. *)
Definition put_local (self : SocketAddr) (key : K) (value : V) : proc Shards (result unit) :=
  me <~ atomic (my self) ;;
  let partition := get_partition (partitioner me) (key_to_string key) in
  store_local self partition key value ;;~
  let owners := get_owners (partitioner me) partition in
  if bool_decide (1 < length owners)%nat then
    op_id <~ atomic new_v4 ;;
    replicate_to_backups self owners partition op_id key value
  else Done (Ok tt).

(** [handle_get_internal] and its route: the handler reads once. *)
Definition route_get_internal (self : SocketAddr) (segment : string)
    : proc Shards (Response GetResponse) :=
  atomic (StorageNet.route_get_internal path_segment self segment).

(** [fetch_remote]. *)
Definition fetch_remote (self : SocketAddr) (owner_id : NodeId) (key : K)
    : proc Shards (result (option V)) :=
  node <~? resolve self owner_id "Owner node not found" ;;
  response <~? get_with_retry (http_addr node)
                 (route_get_internal (http_addr node) (key_to_string key)) 3 ;;
  Done (if decide (status response = NOT_FOUND) then Ok None else
        if negb (is_success response) then Err "GET request failed" else
        match value_json (body response) with
        | Some json_str => Some <$> (from_json json_str : result V)
        | None => Ok None
        end).

Fixpoint fetch_first (self : SocketAddr) (owners : list NodeId) (key : K)
    : proc Shards (option V) :=
  match owners with
  | [] => Done None
  | owner :: rest =>
      r <~ fetch_remote self owner key ;;
      match r with
      | Ok (Some value) => Done (Some value)
      | _ => fetch_first self rest key
      end
  end.

(** [get]. *)
Definition get (self : SocketAddr) (key : K) : proc Shards (option V) :=
  me <~ atomic (my self) ;;
  let partition := get_partition (partitioner me) (key_to_string key) in
  match lookup_in partition key me with
  | Some value => Done (Some value)
  | None =>
      match get_owners (partitioner me) partition with
      | [] => Done None
      | primary_owner :: backups =>
          if decide (primary_owner = local_id me) then fetch_first self backups key else
          r <~ fetch_remote self primary_owner key ;;
          match r with
          | Ok (Some value) => Done (Some value)
          | _ => fetch_first self backups key
          end
      end
  end.

(** [fetch_partition]; the handler of the dump reads the partition once. *)
Definition fetch_partition (self : SocketAddr) (owner_id : NodeId) (partition : Z)
    : proc Shards (result (list (K * V))) :=
  node <~? resolve self owner_id "Owner node not found" ;;
  response <~? get_with_retry (http_addr node)
                 (atomic (StorageNet.handle_partition_dump (http_addr node) partition)) 3 ;;
  Done (if decide (status response = NOT_FOUND) then Ok [] else
        if negb (is_success response) then Err "Partition dump failed" else
        StorageNet.parse_entries (pd_entries (body response))).

(** [apply_partition_entries]: one write after the other. *)
Definition apply_partition_entries (self : SocketAddr) (partition : Z) (entries : list (K * V))
    : proc Shards unit :=
  each (fun e => store_local self partition e.1 e.2) entries.

(** One iteration of the loop of [sync_partitions], and the loop. *)
Definition sync_partition (self : SocketAddr) (partition : Z) : proc Shards unit :=
  me <~ atomic (my self) ;;
  match Sync.source_owner me partition with
  | None => Done tt
  | Some source =>
      r <~ fetch_partition self source partition ;;
      match r with
      | Ok [] => Done tt
      | Ok entries => apply_partition_entries self partition entries
      | Err _ => Done tt
      end
  end.

Definition sync_partitions (self : SocketAddr) (order : list Z) : proc Shards (result unit) :=
  each (sync_partition self) order ;;~
  Done (Ok tt).

(** ** Without interruption *)

Lemma should_process_split op now (m : DistributedMap K V) :
  Storage.should_process op now m =
    if contains_op op m then (false, m)
    else (true, insert_op op now (if too_many_ops m then clear_ops m else m)).
Proof.
  unfold Storage.should_process, contains_op, too_many_ops, insert_op, clear_ops.
  case_decide as Hd.
  - by rewrite bool_decide_eq_true_2.
  - rewrite (bool_decide_eq_false_2 (is_Some _)) by done. by case_bool_decide.
Qed.

Lemma set_node_twice self (s1 s2 : DistributedMap K V) w :
  set_node self s2 (set_node self s1 w) = set_node self s2 w.
Proof. unfold set_node. simpl. by rewrite insert_insert_eq. Qed.

(** Seen operations are at nodes that exist. *)
Lemma contains_op_up op self (w : Shards) :
  contains_op op (nodes w !!! self) = true -> nodes w !! self = Some (nodes w !!! self).
Proof.
  intros Hc%bool_decide_eq_true. destruct (nodes w !! self) as [m|] eqn:E.
  - by rewrite (lookup_total_correct _ _ _ E).
  - rewrite lookup_total_alt, E in Hc. simpl in Hc. by destruct Hc as [x [=]].
Qed.

Lemma run_update self (f : DistributedMap K V -> DistributedMap K V) w :
  run (atomic (update self f)) w = (tt, set_node self (f (nodes w !!! self)) w).
Proof. by rewrite run_atomic. Qed.

(** The accesses of [should_process] amount to the operation of Storage.v. *)
Lemma run_should_process self op w :
  run (should_process self op) w =
    (now <- now_ms ;; on_my self (Storage.should_process op now)) w.
Proof.
  rewrite (st_bind_eq now_ms _ w _ w eq_refl). unfold on_my. rewrite should_process_split.
  unfold should_process. rewrite run_bind.
  rewrite (st_bind_eq (run (atomic (my self))) _ w (nodes w !!! self) w eq_refl).
  destruct (contains_op op (nodes w !!! self)) eqn:Ec.
  - simpl. by rewrite set_node_id by (by apply contains_op_up in Ec).
  - rewrite run_bind, (st_bind_eq (run (atomic (my self))) _ w (nodes w !!! self) w eq_refl).
    destruct (too_many_ops (nodes w !!! self)); simpl; unfold update, on_my; simpl; [|done].
    by rewrite lookup_total_insert_eq, set_node_twice.
Qed.

Lemma run_store_local self p k v w :
  run (store_local self p k v) w = update self (Storage.store_local p k v) w.
Proof. apply run_atomic. Qed.

Lemma run_store_replica self p op k v w :
  run (store_replica self p op k v) w =
    (now <- now_ms ;; on_my self (Storage.store_replica p op k v now)) w.
Proof.
  unfold store_replica. rewrite run_bind.
  rewrite (st_bind_eq now_ms _ w _ w eq_refl).
  unfold st_bind at 1. rewrite run_should_process, (st_bind_eq now_ms _ w _ w eq_refl).
  unfold on_my at 1 2, Storage.store_replica.
  destruct (Storage.should_process op _ _) as [[] m1]; [|done].
  cbn [negb]. rewrite run_bind. unfold st_bind. rewrite run_store_local.
  unfold update, on_my. simpl. by rewrite lookup_total_insert_eq, set_node_twice.
Qed.

Lemma run_handle_replicate self req w :
  run (handle_replicate self req) w = StorageNet.handle_replicate self req w.
Proof.
  unfold handle_replicate, StorageNet.handle_replicate.
  destruct (key_from_str _) as [k|e]; [|done]. destruct (from_json _) as [v|e]; [|done].
  rewrite run_bind. unfold st_bind at 1. rewrite run_store_replica.
  unfold st_bind. destruct (now_ms w) as [now w1]. by destruct (on_my _ _ w1).
Qed.

Lemma run_replicate_to_backup self b p op k v w :
  run (replicate_to_backup self p op k v b) w = StorageNet.replicate_to_backup self b p op k v w.
Proof.
  apply run_bind_ok_eq; [apply run_atomic|]. intros n w1.
  apply (run_bind_ok_eq (Done _) (st_ret _)); [done|]. intros json w2.
  apply run_bind_ok_eq; [|done]. apply run_post_with_retry. intros w3. apply run_handle_replicate.
Qed.

Lemma run_replicate_to_backups self owners p op k v w :
  run (replicate_to_backups self owners p op k v) w =
    StorageNet.replicate_to_backups self owners p op k v w.
Proof. apply run_each_try. intros b w1. apply run_replicate_to_backup. Qed.

(** After [should_process]: one action in StorageNet.v, several here. *)
Lemma run_after_check {A : Type} self op (k : bool -> proc Shards A) k' w :
  (forall fresh w1, run (k fresh) w1 = k' fresh w1) ->
  run (bind (should_process self op) k) w =
    (now <- now_ms ;; fresh <- on_my self (Storage.should_process op now) ;; k' fresh) w.
Proof.
  intros Hk. rewrite run_bind. unfold st_bind at 1. rewrite run_should_process.
  rewrite !(st_bind_eq now_ms _ w _ w eq_refl). unfold st_bind.
  destruct (on_my _ _ w) as [fresh w1]. apply Hk.
Qed.

Lemma run_store_as_primary self p op k v w :
  run (store_as_primary self p op k v) w = StorageNet.store_as_primary self p op k v w.
Proof.
  apply run_after_check. intros [] w1; cbn [negb]; [|done].
  apply (run_bind_eq (store_local _ _ _ _)); [apply run_store_local|]. intros _ w2.
  apply (run_bind_eq (atomic (my self)) (my self)); [apply run_atomic|]. intros me w3.
  apply run_replicate_to_backups.
Qed.

Lemma run_handle_forward_put self req w :
  run (handle_forward_put self req) w = StorageNet.handle_forward_put self req w.
Proof.
  unfold handle_forward_put, StorageNet.handle_forward_put.
  destruct (key_from_str _) as [k|e]; [|done]. destruct (from_json _) as [v|e]; [|done].
  apply run_bind_eq; [|done]. apply run_store_as_primary.
Qed.

Lemma run_forward_put self i p op k v w :
  run (forward_put self i p op k v) w = StorageNet.forward_put self i p op k v w.
Proof.
  apply run_bind_ok_eq; [apply run_atomic|]. intros n w1.
  apply (run_bind_ok_eq (Done _) (st_ret _)); [done|]. intros json w2.
  apply run_bind_ok_eq; [|done]. apply run_post_with_retry. intros w3.
  apply run_handle_forward_put.
Qed.

Lemma run_put_with_op_eq self k v op w :
  run (put_with_op self k v op) w = StorageNet.put_with_op self k v op w.
Proof.
  apply run_after_check. intros [] w1; cbn [negb]; [|done].
  apply (run_bind_eq (atomic (my self)) (my self)); [apply run_atomic|]. intros me w2.
  destruct (get_owners _ _) as [|primary rest].
  - apply (run_bind_eq (store_local _ _ _ _)); [apply run_store_local|done].
  - case_decide.
    + apply run_bind_ok_eq; [apply run_forward_put|done].
    + apply (run_bind_eq (store_local _ _ _ _)); [apply run_store_local|]. intros _ w3.
      case_bool_decide; [|done]. apply run_replicate_to_backups.
Qed.

Lemma run_put_local self k v w :
  run (put_local self k v) w = StorageNet.put_local self k v w.
Proof.
  apply (run_bind_eq (atomic (my self)) (my self)); [apply run_atomic|]. intros me w1.
  apply (run_bind_eq (store_local _ _ _ _)); [apply run_store_local|]. intros _ w2.
  cbv zeta. case_bool_decide; [|done].
  apply (run_bind_eq (atomic new_v4) new_v4); [apply run_atomic|]. intros op w3.
  apply run_replicate_to_backups.
Qed.

Lemma run_fetch_remote self i k w :
  run (fetch_remote self i k) w = StorageNet.fetch_remote path_segment self i k w.
Proof.
  apply run_bind_ok_eq; [apply run_atomic|]. intros n w1.
  apply run_bind_ok_eq; [|done]. apply run_get_with_retry. intros w2. apply run_atomic.
Qed.

Lemma run_fetch_first self owners k w :
  run (fetch_first self owners k) w = StorageNet.fetch_first path_segment self owners k w.
Proof.
  revert w. induction owners as [|i owners IH]; intros w; [done|].
  apply run_bind_eq; [apply run_fetch_remote|]. intros [[x|]|e] w1; [done|apply IH..].
Qed.

Lemma run_get_eq self k w : run (get self k) w = StorageNet.get path_segment self k w.
Proof.
  apply (run_bind_eq (atomic (my self)) (my self)); [apply run_atomic|]. intros me w1.
  cbv zeta. destruct (lookup_in _ k me); [done|]. destruct (get_owners _ _) as [|primary backups]; [done|].
  case_decide; [apply run_fetch_first|].
  apply run_bind_eq; [apply run_fetch_remote|]. intros [[x|]|e] w2; [done|apply run_fetch_first..].
Qed.

Lemma run_fetch_partition self i p w :
  run (fetch_partition self i p) w = StorageNet.fetch_partition self i p w.
Proof.
  apply run_bind_ok_eq; [apply run_atomic|]. intros n w1.
  apply run_bind_ok_eq; [|done]. apply run_get_with_retry. intros w2. apply run_atomic.
Qed.

(** One write after the other, or all in one action. *)
Lemma run_apply_entries self p entries (w : Shards) :
  entries <> [] ->
  run (apply_partition_entries self p entries) w =
    update self (Storage.apply_partition_entries p entries) w.
Proof.
  unfold update, on_my, Storage.apply_partition_entries.
  revert w. induction entries as [|e entries IH]; intros w Hne; [done|].
  cbn [apply_partition_entries each]. unfold apply_partition_entries. cbn [each].
  rewrite run_bind. unfold st_bind. rewrite run_store_local. unfold update, on_my.
  destruct entries as [|e' entries]; [done|].
  unfold apply_partition_entries in IH. rewrite IH by done. simpl.
  by rewrite lookup_total_insert_eq, set_node_twice.
Qed.

Lemma run_sync_partition self p (w : Shards) :
  run (sync_partition self p) w = Sync.sync_partition self p w.
Proof.
  apply (run_bind_eq (atomic (my self)) (my self)); [apply run_atomic|]. intros me w1.
  destruct (Sync.source_owner me p) as [i|]; [|done].
  apply run_bind_eq; [apply run_fetch_partition|]. intros [[|e es]|e] w2; [done| |done].
  by apply run_apply_entries.
Qed.

Lemma run_sync_partitions self order (w : Shards) :
  run (sync_partitions self order) w = Sync.sync_partitions self order w.
Proof.
  apply run_bind_eq; [|done]. apply run_each. intros p w1. apply run_sync_partition.
Qed.

(** ** Anything a node does with the map *)

Inductive Activity :=
  | APut (self : SocketAddr) (k : K) (v : V) (op : string)
  | APutFresh (self : SocketAddr) (k : K) (v : V)
  | APutLocal (self : SocketAddr) (k : K) (v : V)
  | AGet (self : SocketAddr) (k : K)
  | ASync (self : SocketAddr) (order : list Z).

Inductive Outcome := Wrote (r : result unit) | Read (r : option V).

Definition perform (a : Activity) : proc Shards Outcome :=
  match a with
  | APut self k v op => r <~ put_with_op self k v op ;; Done (Wrote r)
  | APutFresh self k v => r <~ put self k v ;; Done (Wrote r)
  | APutLocal self k v => r <~ put_local self k v ;; Done (Wrote r)
  | AGet self k => r <~ get self k ;; Done (Read r)
  | ASync self order => r <~ sync_partitions self order ;; Done (Wrote r)
  end.

(** The same as an operation of StorageNet.v or Sync.v. *)
Definition perform_at_once (a : Activity) : ST Shards Outcome :=
  match a with
  | APut self k v op => st_bind (StorageNet.put_with_op self k v op) (fun r => st_ret (Wrote r))
  | APutFresh self k v => st_bind (StorageNet.put self k v) (fun r => st_ret (Wrote r))
  | APutLocal self k v => st_bind (StorageNet.put_local self k v) (fun r => st_ret (Wrote r))
  | AGet self k => st_bind (StorageNet.get path_segment self k) (fun r => st_ret (Read r))
  | ASync self order => st_bind (Sync.sync_partitions self order) (fun r => st_ret (Wrote r))
  end.

(** The activities of a cluster, none of them begun. *)
Definition start (acts : list Activity) (w : Shards) : pool Shards Outcome :=
  ((fun a => client (perform a)) <$> acts, w).

(** The operations of StorageNet.v and Sync.v are the processes without interruption: whatever the
    network does, an activity that no other task interrupts has, action by action, the result and the
    effect of the operation that serves every request in one go; a handler whose client has given up
    then runs first. *)
Lemma uninterrupted_activity a w : run (perform a) w = perform_at_once a w.
Proof.
  destruct a; cbn [perform perform_at_once]; (apply run_bind_eq; [|done]).
  - apply run_put_with_op_eq.
  - apply (run_bind_eq (atomic new_v4) new_v4); [apply run_atomic|]. intros op w1.
    apply run_put_with_op_eq.
  - apply run_put_local.
  - apply run_get_eq.
  - apply run_sync_partitions.
Qed.
End ops.
