(* ===== verification/StorageRaces.v ===== *)
(** * The distributed map under concurrency

    Any number of activities of any nodes, interleaved action by action, over a network that loses
    requests and replies.  First what every activity keeps within: nodes only store values that some
    activity writes or that were there.  Then what holds of writes and reads: acknowledged writes
    are at their owners when everything has ended ([acknowledged_is_stored]), reads return what
    somebody wrote ([reads_have_sources]), replicas that diverge are brought together by
    anti-entropy ([replicas_converge]); and what does not hold: replicas agree, an acknowledgement
    means that the value is stored, a written value stays ([Example]). *)

From S2P Require Import Prelude Membership Partitioner Net Topology Storage Process.
From S2P Require StorageNet Sync NetSteps.
From S2P Require Import StorageSteps.
Import NetSteps.

#[local] Open Scope Z_scope.
#[local] Open Scope proc_scope.

#[local] Existing Instances StorageNet.DistributedMap_hosted Sync.map_syncable Sync.map_sync_laws.

Section races.
Context {K V : Type} `{Countable K, !RustKey K, !RustKeyLaws K, !Serde V, !SerdeLaws V}.
Context (path_segment : string -> option string).

#[local] Abbreviation Shards := (World (DistributedMap K V)).

(** Whether the views of the nodes stay as they are, and the values that may be written under a
    key. *)
Context (still : Prop) (source : K -> V -> Prop).

(** One shard, later; the operation ids in [F] do not get known to it. *)
Record grew (F : string -> Prop) (m m' : DistributedMap K V) : Prop := {
  gr_host : still -> partitioner m' = partitioner m;
  gr_copies : replication_factor (partitioner m') = replication_factor (partitioner m);
  gr_lookup p k : lookup_in p k m' = lookup_in p k m \/
                  exists v, lookup_in p k m' = Some v /\ source k v;
  gr_ops op : F op -> processed_ops m !! op = None -> processed_ops m' !! op = None;
}.

#[export] Instance grew_preorder F : PreOrder (grew F).
Proof.
  split; [intros m; split; auto|]. intros m1 m2 m3 [] [].
  split; [intros Hs; rewrite gr_host1, gr_host0 by done; done|congruence| |auto].
  intros p k. destruct (gr_lookup1 p k) as [->|Hs]; [apply gr_lookup0|by right].
Qed.

(** The shards, later; [E a op] means that [op] does not get known at [a]. *)
Definition evolves (E : SocketAddr -> string -> Prop) (w w' : Shards) : Prop :=
  (forall a, option_Forall2 (grew (E a)) (nodes w !! a) (nodes w' !! a)) /\
  uuids (env w') `suffix_of` uuids (env w).

(** Whatever anybody may do. *)
Definition anything : relation Shards := evolves (fun _ _ => False).

#[export] Instance evolves_preorder E : PreOrder (evolves E).
Proof.
  split.
  - intros w. split; [|reflexivity]. intros a. destruct (nodes w !! a); constructor. reflexivity.
  - intros w1 w2 w3 [H1 H1'] [H2 H2']. split; [|by etrans]. intros a. specialize (H1 a).
    specialize (H2 a). destruct H1; inversion H2; subst; constructor. by etrans.
Qed.

#[export] Instance anything_preorder : PreOrder anything.
Proof. apply evolves_preorder. Qed.

Lemma evolves_mono (E E' : SocketAddr -> string -> Prop) w w' :
  (forall a op, E' a op -> E a op) -> evolves E w w' -> evolves E' w w'.
Proof.
  intros HE [Hn Hu]. split; [|done]. intros a. destruct (Hn a) as [m m' []|]; constructor.
  split; auto.
Qed.

Lemma evolves_anything E w w' : evolves E w w' -> anything w w'.
Proof. by apply evolves_mono. Qed.

Lemma evolves_env E w w' : env_step w w' -> evolves E w w'.
Proof.
  intros [Hs Hu]. split; [|done]. intros a. rewrite Hs. destruct (nodes w !! a); constructor.
  reflexivity.
Qed.

Lemma evolves_up E w w' a : evolves E w w' -> is_Some (nodes w' !! a) -> is_Some (nodes w !! a).
Proof. intros [Hn _]. specialize (Hn a). destruct Hn; intros [? [=]]; eauto. Qed.

Lemma evolves_lookup E w w' a m : evolves E w w' -> nodes w !! a = Some m ->
  exists m', nodes w' !! a = Some m' /\ grew (E a) m m'.
Proof. intros [Hn _] Hm. specialize (Hn a). rewrite Hm in Hn. inversion Hn; subst. eauto. Qed.

Lemma evolves_lookup_inv E w w' a m' : evolves E w w' -> nodes w' !! a = Some m' ->
  exists m, nodes w !! a = Some m /\ grew (E a) m m'.
Proof. intros [Hn _] Hm. specialize (Hn a). rewrite Hm in Hn. inversion Hn; subst. eauto. Qed.

Lemma evolves_same_host E w w' : still -> evolves E w w' -> pointwise same_host w w'.
Proof.
  intros Hs [Hn _] a. destruct (Hn a) as [m m' []|]; constructor. by apply gr_host0.
Qed.

Lemma grew_store F p k v m : source k v -> grew F m (Storage.store_local p k v m).
Proof.
  intros Hs. split; [done|done| |done]. intros p' k'. rewrite lookup_in_store.
  case_decide as Hc; [right|by left]. destruct Hc as [-> ->]. eauto.
Qed.

Lemma grew_clear F m : grew F m (clear_ops m).
Proof. split; [done|done|by left|]. intros. apply lookup_empty. Qed.

Lemma grew_insert (F : string -> Prop) op now m : ~ F op -> grew F m (insert_op op now m).
Proof.
  intros Hop. split; [done|done|by left|]. intros op' HF Hn. simpl. rewrite lookup_insert_ne; [done|].
  by intros ->.
Qed.

(** ** Writing keeps within [evolves] *)

(** The activities begin in [w]; the process at hand keeps within [evolves E]. *)
Context (E : SocketAddr -> string -> Prop) (w : Shards).

#[local] Abbreviation R := anything.
#[local] Abbreviation G := (evolves E).

Lemma kept w1 w2 : G w1 w2 -> R w1 w2.
Proof. apply evolves_anything. Qed.

#[local] Abbreviation up a := (is_Some (nodes w !! a)).
#[local] Abbreviation anywhere op := (forall a, ~ E a op).
#[local] Abbreviation safe p := (safe R G p w).
#[local] Abbreviation yields p P := (yields R G p P w).

Lemma update_evolves self (f : DistributedMap K V -> DistributedMap K V) w1 :
  anything w w1 -> up self -> (forall m, grew (E self) m (f m)) -> G w1 (update self f w1).2.
Proof.
  intros Hr [m0 Hm0] Hf. destruct (evolves_lookup _ w w1 self m0 Hr Hm0) as (m & Hm & _).
  rewrite (update_eq self f w1 m Hm). split; [|reflexivity]. intros a. simpl.
  destruct (decide (a = self)) as [->|Hne].
  - rewrite lookup_insert_eq, Hm. by constructor.
  - rewrite lookup_insert_ne by done. destruct (nodes w1 !! a); constructor. reflexivity.
Qed.

Lemma safe_update self f : up self -> (forall m, grew (E self) m (f m)) ->
  safe (atomic (update self f)).
Proof.
  intros Hup Hf. apply (yields_atomic R G kept). intros w1 Hr. split; [|done].
  by apply update_evolves.
Qed.

(** Reading changes nothing. *)
Lemma yields_read {A : Type} (f : Shards -> A) (P : A -> Prop) :
  (forall w1, anything w w1 -> P (f w1)) -> Process.yields R G (atomic (st_get f)) P w.
Proof.
  intros Hf. apply (yields_atomic R G kept). intros w1 Hr. split; [reflexivity|]. by apply Hf.
Qed.

Lemma safe_read {A : Type} (f : Shards -> A) : safe (atomic (st_get f)).
Proof. by apply yields_read. Qed.

Lemma safe_should_process self op : up self -> ~ E self op -> safe (should_process self op).
Proof.
  intros Hup Hop. apply (safe_bind R G kept); [apply safe_read|]. intros me.
  destruct (contains_op op me); [by apply yields_done|].
  apply (safe_bind R G kept); [apply safe_read|]. intros me'.
  apply (safe_bind R G kept).
  { destruct (too_many_ops me'); [|by apply yields_done]. apply safe_update; [done|].
    intros m. apply grew_clear. }
  intros _. apply (safe_bind R G kept); [apply safe_read|]. intros now.
  apply (safe_bind R G kept); [|intros _; by apply yields_done].
  apply safe_update; [done|]. intros m. by apply grew_insert.
Qed.

Lemma safe_store_local self p k v : up self -> source k v -> safe (store_local self p k v).
Proof. intros Hup Hs. apply safe_update; [done|]. intros m. by apply grew_store. Qed.

Lemma safe_handle_replicate self p op k v json :
  up self -> ~ E self op -> source k v -> from_json json = Ok v ->
  safe (handle_replicate self (mkReplicate p op (key_to_string k) json)).
Proof.
  intros Hup Hop Hs Hj. unfold handle_replicate. cbn [rr_key rr_value_json rr_partition rr_op_id]. rewrite key_roundtrip, Hj.
  apply (safe_bind R G kept); [|intros; by apply yields_done].
  apply (safe_bind R G kept); [by apply safe_should_process|]. intros [];
    [|by apply yields_done]. cbn [negb].
  apply (safe_bind R G kept); [by apply safe_store_local|]. intros _. by apply yields_done.
Qed.

(** A request to a node found in the membership table. *)
Lemma safe_request {A : Type} self i e (req : Node -> proc Shards (result A)) :
  (forall n, safe (req n)) -> safe (bind_ok (resolve self i e) req).
Proof.
  intros Hr. eapply (yields_bind_ok R G kept _ _ (fun _ => True)).
  - by apply yields_read.
  - done.
  - intros n _. apply Hr.
Qed.

Lemma yields_request {Resp : Type} dest (serve : proc Shards Resp) P n :
  (up dest -> Process.yields R G serve P w) ->
  Process.yields R G (post_with_retry dest serve n) (if_ok P) w.
Proof. apply (yields_post R G w kept (evolves_env E) (evolves_up _ w)). Qed.

Lemma safe_post {Resp : Type} dest (serve : proc Shards Resp) n :
  (up dest -> safe serve) -> safe (post_with_retry dest serve n).
Proof. intros Hs. eapply (yields_safe R G kept), yields_request. exact Hs. Qed.

Lemma safe_replicate_to_backup self p op k v b :
  anywhere op -> source k v -> safe (replicate_to_backup self p op k v b).
Proof.
  intros Hop Hs. apply safe_request. intros n.
  destruct (serde_roundtrip v) as (json & Hto & Hfrom). rewrite Hto. cbn [bind_ok bind].
  apply (safe_bind R G kept); [|intros []; by apply yields_done].
  apply safe_post. intros Hup. by apply (safe_handle_replicate _ _ _ _ v).
Qed.

Lemma safe_replicate_to_backups self owners p op k v :
  anywhere op -> source k v -> safe (replicate_to_backups self owners p op k v).
Proof. intros Hop Hs. apply (safe_each_try R G kept). intros b _. by apply safe_replicate_to_backup. Qed.

Lemma safe_store_as_primary self p op k v :
  up self -> anywhere op -> source k v -> safe (store_as_primary self p op k v).
Proof.
  intros Hup Hop Hs. apply (safe_bind R G kept); [by apply safe_should_process|]. intros [];
    [|by apply yields_done]. cbn [negb].
  apply (safe_bind R G kept); [by apply safe_store_local|]. intros _.
  apply (safe_bind R G kept); [apply safe_read|]. intros me. by apply safe_replicate_to_backups.
Qed.

Lemma safe_forward_put self i p op k v :
  anywhere op -> source k v -> safe (forward_put self i p op k v).
Proof.
  intros Hop Hs. apply safe_request. intros n.
  destruct (serde_roundtrip v) as (json & Hto & Hfrom). rewrite Hto. cbn [bind_ok bind].
  apply (safe_bind R G kept); [|intros []; by apply yields_done].
  apply safe_post. intros Hup. unfold handle_forward_put.
  cbn [fp_key fp_value_json fp_partition fp_op_id]. rewrite key_roundtrip, Hfrom.
  apply (safe_bind R G kept); [by apply safe_store_as_primary|]. intros r. by apply yields_done.
Qed.

Lemma safe_put_with_op self k v op :
  up self -> anywhere op -> source k v -> safe (put_with_op self k v op).
Proof.
  intros Hup Hop Hs. apply (safe_bind R G kept); [by apply safe_should_process|]. intros [];
    [|by apply yields_done]. cbn [negb].
  apply (safe_bind R G kept); [apply safe_read|]. intros me. cbv zeta.
  destruct (get_owners _ _) as [|primary rest].
  - apply (safe_bind R G kept); [by apply safe_store_local|]. intros _. by apply yields_done.
  - case_decide.
    + apply (safe_bind R G kept); [by apply safe_forward_put|]. intros []; by apply yields_done.
    + apply (safe_bind R G kept); [by apply safe_store_local|]. intros _.
      case_bool_decide; [by apply safe_replicate_to_backups|by apply yields_done].
Qed.

(** A new operation id is not forbidden if no UUID to come is. *)
Hypothesis Huuids : forall a op, E a op -> (op ∉ uuids (env w)) /\ op <> ""%string.

Lemma yields_new_v4 : Process.yields R G (atomic new_v4) (fun op => anywhere op) w.
Proof.
  apply (yields_atomic R G kept). intros w1 [Hn Hs]. split; [apply evolves_env; auto|].
  intros a Ha. destruct (Huuids a _ Ha) as [Hni Hne]. unfold new_v4 in Hni, Hne.
  destruct (uuids (env w1)) as [|u us] eqn:Eu; [done|]. apply Hni. simpl.
  destruct Hs as [pre ->]. apply elem_of_app. right. left.
Qed.

Lemma safe_put self k v : up self -> source k v -> safe (put self k v).
Proof.
  intros Hup Hs. eapply (yields_bind R G kept); [apply yields_new_v4|]. intros op Hop.
  by apply safe_put_with_op.
Qed.

Lemma safe_put_local self k v : up self -> source k v -> safe (put_local self k v).
Proof.
  intros Hup Hs. apply (safe_bind R G kept); [apply safe_read|]. intros me. cbv zeta.
  apply (safe_bind R G kept); [by apply safe_store_local|]. intros _.
  case_bool_decide; [|by apply yields_done].
  eapply (yields_bind R G kept); [apply yields_new_v4|]. intros op Hop.
  by apply safe_replicate_to_backups.
Qed.

(** ** Reading *)

(** What may be read: what the nodes hold at the beginning, and what is written. *)
Context (vouched : K -> V -> Prop).
Hypothesis Hsource : forall k v, source k v -> vouched k v.
Hypothesis Hheld : forall a m p k v, nodes w !! a = Some m -> lookup_in p k m = Some v ->
  vouched k v.

Definition holds_vouched (m : DistributedMap K V) : Prop :=
  forall p k v, lookup_in p k m = Some v -> vouched k v.

Lemma evolves_vouched w1 self : anything w w1 -> up self -> holds_vouched (nodes w1 !!! self).
Proof.
  intros Hr [m0 Hm0] p k v Hv. destruct (evolves_lookup _ w w1 self m0 Hr Hm0) as (m & Hm & Hg).
  rewrite (lookup_total_correct _ _ _ Hm) in Hv.
  destruct (gr_lookup _ _ _ Hg p k) as [He|(v' & He & Hs)].
  - rewrite He in Hv. by apply (Hheld self m0 p).
  - rewrite He in Hv. injection Hv as <-. by apply Hsource.
Qed.

Lemma yields_my self : up self -> Process.yields R G (atomic (my self)) holds_vouched w.
Proof. intros Hup. apply yields_read. intros w1 Hr. by apply evolves_vouched. Qed.

(** An action that reads one node, computes [g] of it and writes nothing. *)
Lemma yields_my_then {A : Type} self (g : DistributedMap K V -> A) (P : A -> Prop) :
  up self -> (forall m, holds_vouched m -> P (g m)) ->
  Process.yields R G (atomic (st_bind (my self) (fun me => st_ret (g me)))) P w.
Proof.
  intros Hup HP. apply (yields_atomic R G kept). intros w1 Hr. split; [reflexivity|].
  by apply HP, evolves_vouched.
Qed.

Section one_key.
Context (k : K).

(** The key that the handler of a remote read may look up for [k]: [k] itself, or what the HTTP stack
    makes of it as a path segment. *)
Definition read_as (k' : K) : Prop :=
  k' = k \/ exists s, path_segment (key_to_string k) = Some s /\ key_from_str s = Ok k'.

Definition is_vouched (o : option V) : Prop :=
  forall v, o = Some v -> exists k', read_as k' /\ vouched k' v.

Lemma yields_route self : up self ->
  Process.yields R G (route_get_internal path_segment self (key_to_string k))
    (fun resp => forall json v, value_json (body resp) = Some json -> from_json json = Ok v ->
                   exists k', read_as k' /\ vouched k' v) w.
Proof.
  intros Hup. unfold route_get_internal, StorageNet.route_get_internal.
  destruct (path_segment (key_to_string k)) as [s|] eqn:Es.
  - unfold StorageNet.handle_get_internal. destruct (key_from_str s) as [k'|e] eqn:Ek.
    + apply yields_my_then; [done|]. intros m Hm json v. unfold get_local.
      destruct (lookup_in _ k' m) as [x|] eqn:Ex; [|done].
      destruct (serde_roundtrip x) as (j & -> & Hj). intros [= <-]. rewrite Hj. intros [= <-].
      exists k'. split; [right; by exists s|by apply (Hm _ _ _ Ex)].
    + apply (yields_atomic R G kept). intros w1 Hr. split; [reflexivity|]. done.
  - apply (yields_atomic R G kept). intros w1 Hr. split; [reflexivity|]. done.
Qed.

Lemma yields_fetch_remote self i :
  Process.yields R G (fetch_remote path_segment self i k) (if_ok is_vouched) w.
Proof.
  eapply (yields_bind_ok R G kept _ _ (fun _ => True)); [by apply yields_read|done|]. intros n _.
  eapply (yields_bind_ok R G kept); [by apply yields_request, yields_route|done|].
  intros resp Hresp. apply yields_done. intros o. case_decide; [by intros [= <-]|].
  destruct (is_success resp); [|done]. cbn [negb].
  destruct (value_json (body resp)) as [json|] eqn:Ev; [|by intros [= <-]].
  destruct (from_json json) as [x|e] eqn:Ej; [|done]. simpl. intros [= <-] v [= <-].
  by apply (Hresp json).
Qed.

Lemma yields_fetch_first self owners :
  Process.yields R G (fetch_first path_segment self owners k) is_vouched w.
Proof.
  induction owners as [|i owners IH]; [by apply yields_done|].
  eapply (yields_bind R G kept); [apply yields_fetch_remote|].
  intros [[x|]|e] HP; [|exact IH..]. apply yields_done. by apply HP.
Qed.

(** A read returns such a value. *)
Lemma yields_get self : up self -> Process.yields R G (get path_segment self k) is_vouched w.
Proof.
  intros Hup. eapply (yields_bind R G kept); [by apply yields_my|]. intros me Hme. cbv zeta.
  destruct (lookup_in _ k me) as [x|] eqn:Ex.
  { apply yields_done. intros v [= <-]. exists k. split; [by left|by apply (Hme _ _ _ Ex)]. }
  destruct (get_owners _ _) as [|primary rest]; [by apply yields_done|].
  case_decide; [apply yields_fetch_first|].
  eapply (yields_bind R G kept); [apply yields_fetch_remote|].
  intros [[x|]|e] HP; [|apply yields_fetch_first..]. apply yields_done. by apply HP.
Qed.
End one_key.

(** ** Anti-entropy *)

Lemma yields_fetch_partition self i p :
  Process.yields R G (fetch_partition self i p)
    (if_ok (fun es => forall e, e ∈ es -> vouched e.1 e.2)) w.
Proof.
  eapply (yields_bind_ok R G kept _ _ (fun _ => True)); [by apply yields_read|done|]. intros n _.
  eapply (yields_bind_ok R G kept _ _ (fun resp => exists m, holds_vouched m /\
    StorageNet.parse_entries (pd_entries (body resp)) = Ok (dump_partition p m)));
    [|done|].
  - apply yields_request. intros Hup. apply yields_my_then; [done|]. intros m Hm. exists m.
    split; [done|]. apply StorageNet.parse_dump.
  - intros resp (m & Hm & Hd). apply yields_done. intros es.
    case_decide; [intros [= <-] e He; by apply elem_of_nil in He|].
    destruct (is_success resp); [|done]. simpl. rewrite Hd. intros [= <-] [k v] Hkv. simpl.
    apply lookup_in_dump in Hkv. by apply (Hm p).
Qed.

(** Anti-entropy writes what it has read. *)
Hypothesis Hcopied : forall k v, vouched k v -> source k v.

Lemma safe_sync_partition self p : up self -> safe (sync_partition self p).
Proof.
  intros Hup. apply (safe_bind R G kept); [apply safe_read|]. intros me.
  destruct (Sync.source_owner me p) as [i|]; [|by apply yields_done].
  eapply (yields_bind R G kept); [apply yields_fetch_partition|].
  intros [es|e] Hes; [|by apply yields_done].
  assert (safe (apply_partition_entries self p es)) as Hsafe.
  { apply (safe_each R G kept). intros e He. apply safe_store_local; [done|].
    by apply Hcopied, (Hes es eq_refl). }
  destruct es; [by apply yields_done|exact Hsafe].
Qed.

Lemma safe_sync_partitions self order : up self -> safe (sync_partitions self order).
Proof.
  intros Hup. apply (safe_bind R G kept); [|intros; by apply yields_done].
  apply (safe_each R G kept). intros p _. by apply safe_sync_partition.
Qed.
End races.

(** ** Activities *)
Section activities.
Context {K V : Type} `{Countable K, !RustKey K, !RustKeyLaws K, !Serde V, !SerdeLaws V}.
Context (path_segment : string -> option string).

#[local] Abbreviation Shards := (World (DistributedMap K V)).
#[local] Abbreviation Activity := (Activity (K := K) (V := V)).

(** The node an activity runs on, the operation id it brings along, what it writes. *)
Definition place (a : Activity) : SocketAddr :=
  match a with
  | APut self _ _ _ | APutFresh self _ _ | APutLocal self _ _ | AGet self _ | ASync self _ => self
  end.

Definition brings (a : Activity) (op : string) : Prop :=
  match a with APut _ _ _ op' => op' = op | _ => False end.

Definition writes (a : Activity) (k : K) (v : V) : Prop :=
  match a with
  | APut _ k' v' _ | APutFresh _ k' v' | APutLocal _ k' v' => k' = k /\ v' = v
  | AGet _ _ | ASync _ _ => False
  end.

Definition copies (a : Activity) : Prop := match a with ASync _ _ => True | _ => False end.

Lemma yields_client {A : Type} (R G : relation Shards) `{!PreOrder R} (p : proc Shards A)
    (P : A -> Prop) w :
  (forall w1 w2, G w1 w2 -> R w1 w2) ->
  yields R G p P w -> yields R G (client p) (fun o => exists a, o = Some a /\ P a) w.
Proof.
  intros HG Hp. eapply (yields_bind R G HG); [exact Hp|]. intros a HP. apply yields_done. eauto.
Qed.

Section perform.
Context (still : Prop) (source vouched : K -> V -> Prop) (E : SocketAddr -> string -> Prop) (w : Shards).
Hypothesis Huuids : forall a op, E a op -> (op ∉ uuids (env w)) /\ op <> ""%string.
Hypothesis Hsource : forall k v, source k v -> vouched k v.
Hypothesis Hheld : forall a m p k v, nodes w !! a = Some m -> lookup_in p k m = Some v ->
  vouched k v.

(** What an activity keeps within, and what a read returns. *)
Lemma yields_perform a :
  is_Some (nodes w !! place a) -> (forall op, brings a op -> forall x, ~ E x op) ->
  (forall k v, writes a k v -> source k v) ->
  (copies a -> forall k v, vouched k v -> source k v) ->
  yields (anything still source) (evolves still source E) (perform path_segment a)
    (fun o => forall self k, a = AGet self k -> exists r, o = Read r /\ is_vouched path_segment vouched k r) w.
Proof.
  intros Hup Hop Hw Hcp.
  destruct a as [self k v op|self k v|self k v|self k|self order]; simpl in Hup, Hop, Hw, Hcp;
    cbn [perform].
  - eapply (yields_bind _ _ (kept still source E)).
    + apply safe_put_with_op; [done| |by apply Hw]. intros x. by apply Hop.
    + intros r _. by apply yields_done.
  - eapply (yields_bind _ _ (kept still source E)); [apply safe_put; [done..|by apply Hw]|].
    intros r _. by apply yields_done.
  - eapply (yields_bind _ _ (kept still source E)); [apply safe_put_local; [done..|by apply Hw]|].
    intros r _. by apply yields_done.
  - eapply (yields_bind _ _ (kept still source E)); [by apply (yields_get _ _ _ _ _ vouched); auto|].
    intros r Hr. apply yields_done. intros self' k' [= <- <-]. eauto.
  - eapply (yields_bind _ _ (kept still source E));
      [by apply (safe_sync_partitions _ _ _ _ vouched); auto|].
    intros r _. by apply yields_done.
Qed.
End perform.

(** What the activities write, and what the nodes hold in [w]. *)
Definition written (acts : list Activity) (k : K) (v : V) : Prop :=
  exists a, a ∈ acts /\ writes a k v.
Definition held (w : Shards) (k : K) (v : V) : Prop :=
  exists a m p, nodes w !! a = Some m /\ lookup_in p k m = Some v.

Lemma start_lookup acts w i p : (start path_segment acts w).1 !! i = Some p ->
  exists a, acts !! i = Some a /\ p = client (perform path_segment a).
Proof. intros Hi. apply list_lookup_fmap_Some in Hi as (a & -> & Ha). eauto. Qed.

(** C12: reads under concurrency.  However activities of whatever kind on whatever nodes are
    interleaved, action by action, and whatever the network does, a read of a key returns nothing or a
    value that one of the activities writes, or that was held at the beginning, under that key or, in a
    read from another node, under the key that the HTTP stack makes of it as a segment of a path. *)
Theorem reads_have_sources acts w c' i self k v :
  Forall (fun a => is_Some (nodes w !! place a)) acts ->
  rtc pool_step (start path_segment acts w) c' ->
  acts !! i = Some (AGet self k) -> ended c' i (Read (Some v)) ->
  exists k', (k' = k \/ exists s, path_segment (key_to_string k) = Some s /\ key_from_str s = Ok k') /\
    (written acts k' v \/ held w k' v).
Proof.
  intros Hup Hrtc Hi He. set (src k v := written acts k v \/ held w k v).
  pose (Q j := if decide (j < length acts)%nat
    then fun o (_ : Shards) => forall self k, acts !! j = Some (AGet self k) ->
           exists r, o = Some (Read r) /\ is_vouched path_segment src k r
    else fun _ _ => True).
  assert (Q i (Some (Read (Some v))) c'.2) as Hq.
  { apply (pool_sound (anything True src) (length acts) Q) with (start path_segment acts w); [|split|done|done].
    - intros j Hj. unfold Q. by rewrite decide_False by lia.
    - simpl. by rewrite length_fmap.
    - intros j p (a & Ha & ->)%start_lookup. rewrite Forall_forall in Hup.
      eapply (wp_mono (anything True src) (anything True src)); [done| |apply yields_client; [apply _|done|
        apply (yields_perform True src src (fun _ _ => False) w); auto]].
      + intros o w1 _ (x & -> & Hx). unfold Q. case_decide; [|done]. intros self' k'. rewrite Ha.
        intros [= ->]. destruct (Hx self' k' eq_refl) as (r & -> & Hr). eauto.
      + intros x m q k' v' Hx Hl. right. by exists x, m, q.
      + apply Hup. by apply list_elem_of_lookup_2 in Ha.
      + intros k' v' Hw. left. exists a. split; [by apply list_elem_of_lookup_2 in Ha|done]. }
  unfold Q in Hq. rewrite decide_True in Hq by by eapply lookup_lt_Some.
  destruct (Hq self k Hi) as (r & [= <-] & Hr). by apply Hr.
Qed.
End activities.

(** ** Acknowledged writes

    The event is that [op] gets known at [b]; before it nobody can acknowledge, and whoever brings
    it about stores the value. *)
Section acknowledged.
Context {K V : Type} `{Countable K, !RustKey K, !RustKeyLaws K, !Serde V, !SerdeLaws V}.
Context (path_segment : string -> option string).

#[local] Abbreviation Shards := (World (DistributedMap K V)).

Context (source : K -> V -> Prop) (addr_of : NodeId -> SocketAddr) (w : Shards).
Context (self b : SocketAddr) (k : K) (v : V) (op : string) (m mb : DistributedMap K V).
Hypothesis Hc : cluster addr_of w.
Hypothesis Hm : nodes w !! self = Some m.
Hypothesis Hmb : nodes w !! b = Some mb.
Hypothesis Hfresh : StorageNet.fresh_op op w.
Hypothesis Hsource : source k v.

#[local] Abbreviation p := (get_partition (partitioner m) (key_to_string k)).
#[local] Abbreviation owners := (get_owners (partitioner m) p).

Definition stored (w' : Shards) : Prop :=
  exists m' v', nodes w' !! b = Some m' /\ lookup_in p k m' = Some v' /\ source k v'.

Definition unknown_at_target (a : SocketAddr) (op' : string) : Prop := a = b /\ op' = op.
Definition unknown_here_too (a : SocketAddr) (op' : string) : Prop :=
  (a = b \/ a = self) /\ op' = op.

#[local] Abbreviation R := (anything True source).
#[local] Abbreviation N := (evolves True source unknown_at_target).
#[local] Abbreviation L := (evolves True source unknown_here_too).

Lemma N_R w1 w2 : N w1 w2 -> R w1 w2.
Proof. apply evolves_anything. Qed.
Lemma L_N w1 w2 : L w1 w2 -> N w1 w2.
Proof. apply evolves_mono. intros a o [-> ->]. split; auto. Qed.
Lemma L_R w1 w2 : L w1 w2 -> R w1 w2.
Proof. apply evolves_anything. Qed.

Lemma stored_stable w1 w2 : R w1 w2 -> stored w1 -> stored w2.
Proof.
  intros Hr (m1 & v1 & Hm1 & Hl & Hs).
  destruct (evolves_lookup _ _ _ _ _ _ _ Hr Hm1) as (m2 & Hm2 & Hg).
  destruct (gr_lookup _ _ _ _ _ Hg p k) as [He|(v2 & He & Hs2)].
  - exists m2, v1. by rewrite He.
  - by exists m2, v2.
Qed.

Lemma stored_by w1 : R w w1 -> stored (update b (Storage.store_local p k v) w1).2.
Proof.
  intros Hr. destruct (evolves_lookup _ _ _ _ _ _ _ Hr Hmb) as (m1 & Hm1 & _).
  rewrite (update_eq b _ w1 m1 Hm1). exists (Storage.store_local p k v m1), v. simpl.
  split_and!; [apply lookup_insert_eq|apply lookup_in_store_eq|done].
Qed.

Lemma ends_store {A : Type} (rest : unit -> proc Shards A) w1 :
  R w w1 -> ends_in R stored (bind (store_local b p k v) rest) w1.
Proof.
  intros Hr w2 Hr2 _. apply (ends_in_now R stored stored_stable). apply stored_by. by etrans.
Qed.

(** Where the operation is not known it is not found. *)
Lemma not_found E a w1 : evolves True source E w w1 -> E a op -> is_Some (nodes w !! a) ->
  contains_op op (nodes w1 !!! a) = false.
Proof.
  intros Hr HE [m0 Hm0]. destruct (evolves_lookup _ _ _ _ _ _ _ Hr Hm0) as (m1 & Hm1 & Hg).
  rewrite (lookup_total_correct _ _ _ Hm1). apply bool_decide_eq_false. intros Hs.
  rewrite (gr_ops _ _ _ _ _ Hg op HE (Hfresh _ _ Hm0)) in Hs. by destruct Hs.
Qed.

Section one.
Context (X Y : relation Shards) `{!PreOrder X}.
Hypothesis HX : forall w1 w2, X w1 w2 -> N w1 w2.
Hypothesis HLY : forall w1 w2, L w1 w2 -> Y w1 w2.
Hypothesis HY : forall w1 w2, Y w1 w2 -> N w1 w2.

#[local] Abbreviation until := (until R N L stored X Y).
#[local] Abbreviation until_bind := (until_bind R N L stored stored_stable X Y HX HY).
#[local] Abbreviation until_bind_ok := (until_bind_ok R N L stored stored_stable X Y HX HY).
#[local] Abbreviation until_act := (until_act R N L stored X Y HX HY).

(** Reading. *)
Lemma until_read {A B : Type} (f : Shards -> A) (cont : A -> proc Shards B) P :
  (forall w1, N w w1 -> until (cont (f w1)) P w) -> until (Act (st_get f) cont) P w.
Proof. intros Hc'. apply until_act. intros w1 Hw1. left. split; [apply HLY; reflexivity|exact (Hc' w1 Hw1)]. Qed.

(** Within [L], anywhere. *)
Lemma until_safe {A : Type} (q : proc Shards A) P : yields R L q P w -> until q P w.
Proof. apply (yields_until R N L stored N_R X Y); done. Qed.

(** The check at [b] finds nothing, and leads on to the event. *)
Lemma until_event {A : Type} (cont : bool -> proc Shards A) P :
  (forall w1, R w w1 -> ends_in R stored (cont true) w1) ->
  until (bind (should_process b op) cont) P w.
Proof.
  intros Hcont. unfold should_process, atomic. cbn [bind].
  apply until_read. intros w1 Hw1.
  rewrite (not_found unknown_at_target b w1 Hw1 (conj eq_refl eq_refl) (mk_is_Some _ _ Hmb)).
  cbn [bind].
  apply until_read. intros w2 Hw2.
  assert (until (Act now_ms (fun now => Act (update b (insert_op op now)) (fun _ => cont true))) P w)
    as Hrest.
  { apply until_read. intros w3 Hw3. apply until_act. intros w4 Hw4. right. apply Hcont.
    transitivity w4; [by apply N_R|]. apply (update_evolves True source _ w); [by apply N_R|by eexists|].
    intros m4. apply grew_insert; intros []. }
  destruct (too_many_ops _); cbn [bind]; [|exact Hrest].
  apply until_act. intros w3 Hw3. left. split; [|exact Hrest]. apply HLY.
  apply (update_evolves True source _ w); [by apply N_R|by eexists|]. intros m4. apply grew_clear.
Qed.

(** The handlers at [b] do not end before the event. *)
Lemma until_handle_replicate json : from_json json = Ok v ->
  until (handle_replicate b (mkReplicate p op (key_to_string k) json)) (fun _ => False) w.
Proof.
  intros Hj. unfold handle_replicate. cbn [rr_key rr_value_json rr_partition rr_op_id].
  rewrite key_roundtrip, Hj. eapply (until_bind _ _ (fun _ => False)); [|by intros r []].
  apply until_event. intros w1 Hw1. by apply ends_store.
Qed.

Lemma until_handle_forward_put json : from_json json = Ok v ->
  until (handle_forward_put b (mkForwardPut p op (key_to_string k) json)) (fun _ => False) w.
Proof.
  intros Hj. unfold handle_forward_put. cbn [fp_key fp_value_json fp_partition fp_op_id].
  rewrite key_roundtrip, Hj. eapply (until_bind _ _ (fun _ => False)); [|by intros r []].
  apply until_event. intros w1 Hw1. by apply ends_store.
Qed.
End one.

(** Resolving an owner leads to its address. *)
Lemma yields_resolve i e : i ∈ owners ->
  yields R L (resolve self i e) (if_ok (fun n => http_addr n = addr_of i)) w.
Proof.
  intros Hi. apply yields_read. intros w1 Hr n. simpl.
  destruct (evolves_lookup _ _ _ _ _ _ _ Hr Hm) as (m1 & Hm1 & Hg).
  rewrite (lookup_total_correct _ _ _ Hm1). unfold view. simpl. rewrite (gr_host _ _ _ _ _ Hg I).
  destruct (cluster_owner addr_of w Hc self m i p Hm Hi) as (n0 & _ & Hn0 & Ha & _ & _).
  unfold view in Hn0. simpl in Hn0 |- *. rewrite Hn0. by intros [= <-].
Qed.

#[local] Abbreviation own := (Process.until R N L stored L N).

Lemma own_until_bind {A B : Type} (q : proc Shards A) (f : A -> proc Shards B) P P' :
  own q P w -> (forall a, P a -> own (f a) P' w) -> own (bind q f) P' w.
Proof. apply (until_bind R N L stored stored_stable L N); [apply L_N|done]. Qed.

Lemma own_until_bind_ok {A B : Type} (q : proc Shards (result A)) (f : A -> proc Shards (result B))
    P P' :
  own q (if_ok P) w -> (forall e, P' (Err e)) -> (forall a, P a -> own (f a) P' w) ->
  own (bind_ok q f) P' w.
Proof. apply (until_bind_ok R N L stored stored_stable L N); [apply L_N|done]. Qed.

Lemma own_safe {A : Type} (q : proc Shards A) P : yields R L q P w -> own q P w.
Proof. apply (yields_until R N L stored N_R L N); [apply L_N|apply L_N]. Qed.

(** A request to [b] that is not answered before the event. *)
Lemma own_post {Resp : Type} (serve : proc Shards Resp) n :
  (forall X Y, PreOrder X -> (forall w1 w2, X w1 w2 -> N w1 w2) ->
     (forall w1 w2, L w1 w2 -> Y w1 w2) -> (forall w1 w2, Y w1 w2 -> N w1 w2) ->
     Process.until R N L stored X Y serve (fun _ => False) w) ->
  own (post_with_retry b serve n) (fun r => is_ok r = false) w.
Proof.
  intros Hs.
  apply (until_post R N L stored N_R L_N stored_stable (evolves_env True source _) L N w L_N L_N
           (fun _ _ Hn => Hn)).
  - apply Hs; [apply _|apply L_N|apply L_N|done].
  - apply Hs; [apply _|done|done|apply L_N].
Qed.

(** The write forwarded to [b], and the replication to [b], do not succeed before the event. *)
Lemma own_forward_put i : i ∈ owners -> addr_of i = b ->
  own (forward_put self i p op k v) (fun r => is_ok r = false) w.
Proof.
  intros Hi Hb. eapply own_until_bind_ok; [by apply own_safe, yields_resolve|done|].
  intros n Hn. rewrite Hn, Hb. destruct (serde_roundtrip v) as (json & Hto & Hfrom). rewrite Hto.
  cbn [bind_ok bind]. eapply own_until_bind; [apply own_post|].
  - intros X Y ? HX HLY HY. by apply until_handle_forward_put.
  - intros [r|e] Hr; [done|]. by apply until_done.
Qed.

Lemma own_replicate_to_backup i : i ∈ owners -> addr_of i = b ->
  own (replicate_to_backup self p op k v i) (fun r => is_ok r = false) w.
Proof.
  intros Hi Hb. eapply own_until_bind_ok; [by apply own_safe, yields_resolve|done|].
  intros n Hn. rewrite Hn, Hb. destruct (serde_roundtrip v) as (json & Hto & Hfrom). rewrite Hto.
  cbn [bind_ok bind]. eapply own_until_bind; [apply own_post|].
  - intros X Y ? HX HLY HY. by apply until_handle_replicate.
  - intros [r|e] Hr; [done|]. by apply until_done.
Qed.

(** Replication to another node than [b] and [self]. *)
Lemma other_replicate_to_backup i : i ∈ owners -> addr_of i <> b -> addr_of i <> self ->
  own (replicate_to_backup self p op k v i) (fun _ => True) w.
Proof.
  intros Hi Hb Hs. apply own_safe. unfold replicate_to_backup.
  eapply (yields_bind_ok R L L_R); [by apply yields_resolve|done|]. intros n Hn.
  destruct (serde_roundtrip v) as (json & Hto & Hfrom). rewrite Hto. cbn [bind_ok bind].
  apply (safe_bind R L L_R); [|intros []; by apply yields_done].
  apply safe_post. intros Hup. apply (safe_handle_replicate _ _ _ _ _ _ _ _ v); try done.
  rewrite Hn. intros [[?|?] _]; done.
Qed.

Lemma own_replicate_to_backups primary i : owners = primary :: tail owners ->
  primary = local_id m -> i ∈ tail owners -> addr_of i = b ->
  own (replicate_to_backups self owners p op k v) (fun r => is_ok r = false) w.
Proof.
  intros Ho Hp Hi Hb.
  assert (forall j, j ∈ tail owners -> j ∈ owners) as Hin by (intros j Hj; rewrite Ho; by right).
  pose proof (cluster_owners_NoDup addr_of w Hc self m p Hm) as Hnd. simpl in Hnd.
  assert (primary ∉ tail owners) as Hni by (rewrite Ho in Hnd; by apply NoDup_cons in Hnd as [??]).
  apply (until_each_try R N L stored stored_stable L N L_N ltac:(done) _ _ i); [done| |].
  - intros j Hj. destruct (decide (j = i)) as [->|Hne].
    + eapply (until_mono R N L stored L N L_N); [done| |by apply own_replicate_to_backup; auto]. done.
    + apply other_replicate_to_backup; [auto| |].
      * intros Heq. apply Hne.
        eapply (cluster_owner_addr_inj addr_of w Hc self m j i p Hm); auto. congruence.
      * intros Heq. apply (cluster_owner_addr_self addr_of w Hc self m j p Hm) in Heq; [|by apply Hin].
        apply Hni. rewrite Hp. unfold my_id in Heq. simpl in Heq. unfold local_id. by rewrite <- Heq.
  - apply own_replicate_to_backup; auto.
Qed.

(** The writer's own check finds nothing, since only the writer makes [op] known at [self]. *)
Lemma own_check {A : Type} (cont : bool -> proc Shards A) P : self <> b ->
  own (cont true) P w ->
  before R N L stored L N (bind (should_process self op) cont) (fun a _ => P a) w.
Proof.
  intros Hne Hcont w1 Hw1 _. left. split; [reflexivity|]. cbn [bind my st_get fst snd].
  rewrite (not_found unknown_here_too self w1 Hw1 (conj (or_intror eq_refl) eq_refl) (mk_is_Some _ _ Hm)).
  assert (forall f (q : proc Shards A), (forall m0, grew True source (unknown_at_target self) m0 (f m0)) ->
            own q P w -> own (Act (update self f) (fun _ => q)) P w) as Hupd.
  { intros f q Hf Hq. apply (until_act R N L stored L N L_N ltac:(done)). intros w2 Hw2. left.
    split; [|exact Hq]. apply (update_evolves True source _ w); [by apply N_R|by eexists|done]. }
  assert (forall B (f : Shards -> B) (q : B -> proc Shards A), (forall x, own (q x) P w) ->
            own (Act (st_get f) q) P w) as Hget.
  { intros B f q Hq. apply (until_act R N L stored L N L_N ltac:(done)). intros w2 Hw2. left.
    split; [reflexivity|apply Hq]. }
  assert (own (Act now_ms (fun now => Act (update self (insert_op op now)) (fun _ => cont true))) P w)
    as Hrest.
  { apply Hget. intros now. apply Hupd; [|done]. intros m0. apply grew_insert. by intros [? _]. }
  assert (own (Act (my self) (fun me => bind (bind
    (if too_many_ops me then atomic (update self clear_ops) else Done tt)
    (fun _ => bind (atomic now_ms) (fun now => bind (atomic (update self (insert_op op now)))
      (fun _ => Done true)))) cont)) P w) as Hall.
  { apply Hget. intros me. destruct (too_many_ops me); [|exact Hrest].
    exact (Hupd clear_ops _ (grew_clear True source _) Hrest). }
  apply Hall. by apply L_N.
Qed.

(** Before the event the writer is not told that all is well. *)
Lemma own_put i : i ∈ owners -> addr_of i = b ->
  head owners = Some i \/ head owners = Some (local_id m) ->
  before R N L stored L N (put_with_op self k v op) (fun r _ => is_ok r = false) w.
Proof.
  intros Hi Hb Hcase. unfold put_with_op.
  assert (forall w1, R w w1 -> partitioner (nodes w1 !!! self) = partitioner m) as Hpm.
  { intros w1 Hr. destruct (evolves_lookup _ _ _ _ _ _ _ Hr Hm) as (m1 & Hm1 & Hg).
    rewrite (lookup_total_correct _ _ _ Hm1). apply (gr_host _ _ _ _ _ Hg I). }
  assert (i = local_id m <-> b = self) as Hself.
  { rewrite <- Hb. symmetry. apply (cluster_owner_addr_self addr_of w Hc self m i p Hm Hi). }
  destruct (decide (self = b)) as [Heq|Hne].
  - (* the writer is the primary, and its own copy is in question *)
    assert (i = local_id m) as Hil by (by apply Hself).
    assert (head owners = Some (local_id m)) as Hh by (destruct Hcase; congruence).
    rewrite Heq at 1.
    apply (until_event L N L_N L_N ltac:(done) _ (fun r => is_ok r = false)); [|reflexivity].
    intros w1 Hr w2 Hr2 _. assert (R w w2) as Hw2 by (by etrans).
    change (my self w2).1 with (nodes w2 !!! self). change (my self w2).2 with w2. cbv zeta.
    unfold local_id. cbn [bind]. rewrite (Hpm w2 Hw2). destruct owners as [|primary rest]; [done|].
    injection Hh as ->. rewrite decide_False by (intros Hn; by apply Hn). rewrite Heq.
    by apply ends_store.
  - apply (own_check _ (fun r => is_ok r = false) Hne). cbn [negb].
    eapply own_until_bind.
    { apply own_safe, (yields_read True source _ w (fun w1 => nodes w1 !!! self)
        (fun me => partitioner me = partitioner m)). exact Hpm. }
    intros me Hme. cbv zeta.
    assert (local_id me = local_id m) as Hid by (unfold local_id; by rewrite Hme).
    rewrite Hid, Hme.
    destruct owners as [|primary rest] eqn:Eo; [by apply elem_of_nil in Hi|].
    destruct Hcase as [[= ->]|[= ->]].
    + rewrite decide_True by (intros Hl; apply Hne; symmetry; by apply Hself).
      eapply own_until_bind; [apply (own_forward_put i); [by rewrite Eo|done]|].
      intros [r|e] Hr; [done|]. by apply until_done.
    + rewrite decide_False by (intros Hn; by apply Hn).
      assert (i ∈ rest) as Hrest.
      { apply elem_of_cons in Hi as [->|Hi]; [|done]. exfalso. apply Hne. symmetry. by apply Hself. }
      eapply own_until_bind.
      { apply own_safe. apply (safe_store_local True source _ w); [by eexists|done]. }
      intros _ _. rewrite bool_decide_eq_true_2.
      * rewrite <- Eo. eapply own_replicate_to_backups; rewrite ?Eo; done.
      * simpl. destruct rest; [by apply elem_of_nil in Hrest|simpl; lia].
Qed.

Lemma own_perform i : i ∈ owners -> addr_of i = b ->
  head owners = Some i \/ head owners = Some (local_id m) ->
  before R N L stored L N (client (perform path_segment (APut self k v op)))
    (fun o _ => o <> Some (Wrote (Ok tt))) w.
Proof.
  intros Hi Hb Hcase.
  apply (before_bind R N L stored stored_stable L N), (before_bind R N L stored stored_stable L N).
  eapply (before_mono R N L stored L N L_N (fun _ _ Hn => Hn)); [|by apply (own_put i)].
  intros r w1 _ Hr w2 _ w3 _. by intros [= ->].
Qed.
End acknowledged.

Section durable.
Context {K V : Type} `{Countable K, !RustKey K, !RustKeyLaws K, !Serde V, !SerdeLaws V}.
Context (path_segment : string -> option string).

#[local] Abbreviation Shards := (World (DistributedMap K V)).

(** What may be under a key in the end: what is written, and, if there is anti-entropy, what was
    held. *)
Definition sources (acts : list (Activity (K := K) (V := V))) (w : Shards) (k : K) (v : V) : Prop :=
  written acts k v \/ (Exists copies acts /\ held w k v).

(** What every activity keeps within, given the operation ids nobody brings. *)
Lemma yields_start acts w a E :
  a ∈ acts -> is_Some (nodes w !! place a) ->
  (forall x op, E x op -> ~ brings a op /\ (op ∉ uuids (env w)) /\ op <> ""%string) ->
  yields (anything True (sources acts w)) (evolves True (sources acts w) E)
    (client (perform path_segment a)) (fun _ => True) w.
Proof.
  intros Ha Hup HE. set (vouched k v := written acts k v \/ held w k v).
  eapply (yields_mono _ _ (kept _ _ E)); [done|]. apply yields_client; [apply _|apply kept|].
  apply (yields_perform path_segment True (sources acts w) vouched E w); [| | |done| | |].
  - intros x op HEx. apply (HE x op HEx).
  - intros k v [Hw|[_ Hh]]; [by left|by right].
  - intros x m p k v Hm Hl. right. by exists x, m, p.
  - intros op Hop x HEx. by destruct (HE x op HEx) as [Hn _].
  - intros k v Hw. left. by exists a.
  - intros Hcp k v [Hw|Hh]; [by left|right]. split; [|done]. apply Exists_exists. eauto.
Qed.

Lemma acknowledged_stored addr_of self k v op w m others c' i :
  cluster addr_of w -> nodes w !! self = Some m -> StorageNet.fresh_op op w ->
  op ∉ uuids (env w) -> op <> ""%string ->
  Forall (fun a => is_Some (nodes w !! place a) /\ ~ brings a op) others ->
  rtc pool_step (start path_segment (APut self k v op :: others) w) c' -> quiescent c' ->
  ended c' 0 (Wrote (Ok tt)) ->
  let p := get_partition (partitioner m) (key_to_string k) in
  let owners := get_owners (partitioner m) p in
  i ∈ owners -> head owners = Some i \/ head owners = Some (local_id m) ->
  exists mi v', nodes c'.2 !! addr_of i = Some mi /\ lookup_in p k mi = Some v' /\
    sources (APut self k v op :: others) w k v'.
Proof.
  intros Hc Hm Hf Hnu Hne Hoth Hrtc Hq He p owners Hi Hcase.
  set (acts := APut self k v op :: others) in *. set (src := sources acts w).
  destruct (cluster_owner addr_of w Hc self m i p Hm Hi) as (_ & mb & _ & _ & Hmb & _).
  set (b := addr_of i) in *. set (N := evolves True src (unknown_at_target b op)).
  set (L := evolves True src (unknown_here_too self b op)).
  assert (src k v) as Hsrc by (left; exists (APut self k v op); split; [left|done]).
  assert (forall a, a ∈ acts -> is_Some (nodes w !! place a)) as Hup.
  { intros a [->|Ha]%elem_of_cons; [by eexists|]. rewrite Forall_forall in Hoth. by apply Hoth. }
  pose (Q (j : nat) := if decide (j = 0%nat)
    then fun (o : option (Outcome (V := V))) (_ : Shards) => o <> Some (Wrote (Ok tt))
    else fun _ _ => True).
  destruct (pool_progress (anything True src) N L (stored src b k m)
    (L_N src self b op) (stored_stable src b k m) 1 Q
    (start path_segment acts w) c') as [HF|HQ]; [..|done|done| |].
  - intros j Hj. unfold Q. by rewrite decide_False by lia.
  - simpl. lia.
  - intros j q (a & Ha & ->)%start_lookup. apply list_elem_of_lookup_2 in Ha.
    apply (yields_start acts w a (fun _ _ => False)); auto.
  - intros j q (a & Ha & ->)%start_lookup. unfold rely, guarantee, Q.
    destruct (decide (j = 0%nat)) as [->|Hj].
    + injection Ha as <-. by apply (own_perform path_segment src addr_of w self b k v op m mb) with i.
    + assert (a ∈ others) as Ha'.
      { destruct j; [done|]. exact (list_elem_of_lookup_2 others j a Ha). }
      rewrite Forall_forall in Hoth. destruct (Hoth a Ha') as [Hupa Hbr].
      eapply (yields_until (anything True src) N L (stored src b k m) (N_R _ _ _) N L _ (fun _ => True) w);
        [done|done| |reflexivity].
      apply (yields_start acts w a _); [by right|done|]. intros x op' [_ ->]. done.
  - destruct HF as (mi & v' & Hmi & Hl & Hs). by exists mi, v'.
  - by destruct (HQ 0%nat _ He).
Qed.

(** C3: acknowledged writes are stored, under concurrency.  A write with an operation id of its own
    runs among any activities of any nodes (writes of the same key, reads, anti-entropy), action by
    action in any order, over a network that loses requests and replies, so that handlers go on
    when their clients have given up.  If the writer is told that all is well, then, once
    everything has come to an end, the primary holds under the key the written value or one that
    another activity writes there or, if a pass of anti-entropy is among them, one that some node held
    under the key at the beginning; and so does every owner, if the writer is the primary. *)
Theorem acknowledged_is_stored addr_of self k v op w m others c' i :
  cluster addr_of w -> nodes w !! self = Some m -> StorageNet.fresh_op op w ->
  op ∉ uuids (env w) -> op <> ""%string ->
  Forall (fun a => is_Some (nodes w !! place a) /\ ~ brings a op) others ->
  rtc pool_step (start path_segment (APut self k v op :: others) w) c' -> quiescent c' ->
  ended c' 0 (Wrote (Ok tt)) ->
  let p := get_partition (partitioner m) (key_to_string k) in
  let owners := get_owners (partitioner m) p in
  i ∈ owners -> head owners = Some i \/ head owners = Some (local_id m) ->
  exists mi v', nodes c'.2 !! addr_of i = Some mi /\ lookup_in p k mi = Some v' /\
    sources (APut self k v op :: others) w k v'.
Proof. apply acknowledged_stored. Qed.

(** Whoever was alive stays alive under the same placement. *)
Lemma start_evolves acts w c' :
  Forall (fun a => is_Some (nodes w !! place a)) acts ->
  rtc pool_step (start path_segment acts w) c' -> anything True (sources acts w) w c'.2.
Proof.
  intros Hup Hrtc.
  destruct (all_wp_steps (anything True (sources acts w)) 0 (fun _ _ _ => True) (fun _ _ => eq_refl)
    (start path_segment acts w) c') as [Hr _]; [|done|exact Hr].
  split; [simpl; lia|]. intros j q (a & Ha & ->)%start_lookup.
  apply list_elem_of_lookup_2 in Ha. rewrite Forall_forall in Hup.
  apply (yields_start acts w a (fun _ _ => False)); auto.
Qed.

(** C11: replicas converge.  After any interleaving of a write with activities of any nodes, when
    everything has ended, the write was acknowledged and the network has become quiet, one pass of
    anti-entropy on a backup makes its copy of the key equal to that of the primary, whatever order
    the writes reached them in; and the value is one that was written under the key or, if an
    earlier pass of anti-entropy was among the activities, held there at the beginning. *)
Theorem replicas_converge addr_of self k v op w m others c' primary i mi order :
  cluster addr_of w -> nodes w !! self = Some m -> StorageNet.fresh_op op w ->
  op ∉ uuids (env w) -> op <> ""%string ->
  Forall (fun a => is_Some (nodes w !! place a) /\ ~ brings a op) others ->
  rtc pool_step (start path_segment (APut self k v op :: others) w) c' -> quiescent c' ->
  ended c' 0 (Wrote (Ok tt)) ->
  let p := get_partition (partitioner m) (key_to_string k) in
  let owners := get_owners (partitioner m) p in
  head owners = Some primary -> i ∈ tail owners ->
  quiet c'.2 -> nodes c'.2 !! addr_of i = Some mi -> order ≡ₚ elements (Sync.target_partitions mi) ->
  exists mi' mp v', Sync.sync_partitions (addr_of i) order c'.2 = (Ok tt, set_node (addr_of i) mi' c'.2) /\
    nodes c'.2 !! addr_of primary = Some mp /\
    lookup_in p k mi' = Some v' /\ lookup_in p k mp = Some v' /\
    sources (APut self k v op :: others) w k v'.
Proof.
  intros Hc Hm Hf Hnu Hne Hoth Hrtc Hq He p owners Hh Hi Hquiet Hmi Hord.
  assert (primary ∈ owners) as Hp by (destruct owners; [done|]; injection Hh as ->; left).
  destruct (acknowledged_stored addr_of self k v op w m others c' primary Hc Hm Hf Hnu Hne
    Hoth Hrtc Hq He Hp (or_introl Hh)) as (mp & v' & Hmp & Hv & Hs).
  assert (anything True (sources (APut self k v op :: others) w) w c'.2) as Hev.
  { apply start_evolves; [|done]. constructor; [by eexists|].
    eapply Forall_impl; [exact Hoth|]. by intros a [? _]. }
  assert (cluster addr_of c'.2) as Hc'.
  { apply (cluster_keeps addr_of w); [done|]. by eapply (evolves_same_host True). }
  destruct (evolves_lookup_inv _ _ _ _ _ _ _ Hev Hmi) as (mi0 & Hmi0 & Hg).
  assert (owners = get_owners (partitioner mi) p) as Ho.
  { rewrite (gr_host _ _ _ _ _ Hg I). apply (cluster_owners addr_of w Hc self m (addr_of i) mi0 p Hm Hmi0). }
  assert (i = local_id mi) as Hid.
  { assert (i ∈ get_owners (partitioner mi) p) as Hio
      by (rewrite <- Ho; destruct owners; [done|by right]).
    by apply (cluster_owner_addr_self addr_of c'.2 Hc' (addr_of i) mi i p Hmi Hio). }
  assert (NoDup order) as Hnd by (rewrite Hord; apply NoDup_elements).
  destruct (Sync.sync_pass_quiet addr_of (addr_of i) order c'.2 mi Hc' Hquiet Hmi Hnd)
    as (mi' & Hloop & _ & Hl).
  exists mi', mp, v'. split_and!; [|done| |done|done].
  { unfold Sync.sync_partitions. by rewrite (st_bind_eq _ _ _ _ _ Hloop). }
  specialize (Hl p k). simpl in Hl. rewrite Hl, decide_True.
  - pose proof (cluster_owners_NoDup addr_of w Hc self m p Hm) as Hndo. simpl in Hndo.
    unfold Sync.synced, Sync.source_owner, my_id. simpl. rewrite <- Ho.
    fold owners in Hndo. destruct owners as [|primary' rest]; [done|]. injection Hh as ->.
    apply NoDup_cons in Hndo as [Hni _]. simpl in Hi. rewrite Hid in Hi. unfold local_id in Hi.
    rewrite decide_False by (by intros ->). rewrite Hmp. simpl. unfold p. by rewrite Hv.
  - rewrite Hord, elem_of_elements. unfold Sync.target_partitions.
    apply elem_of_union_r, elem_of_list_to_set, elem_of_my_backup.
    assert (local_id mi ∈ tail (get_owners (partitioner mi) p)) as Hin by (by rewrite <- Hid, <- Ho).
    split; [|exact Hin].
    assert (p = get_partition (partitioner mi) (key_to_string k)) as ->.
    { rewrite (gr_host _ _ _ _ _ Hg I).
      apply (cluster_partition addr_of w Hc self m (addr_of i) mi0 _ Hm Hmi0). }
    apply get_partition_range. apply (cl_parts _ _ Hc' (addr_of i) mi Hmi).
Qed.
End durable.

(** ** Schedules

    Nodes [a], [b] and [c] of StorageNet.v; ["k2"] has the primary [b] and the backup [c]. *)
Module Example.
Import StorageNet.Example.
#[local] Existing Instances StorageNet.bool_serde StorageNet.bool_serde_laws.

#[local] Abbreviation Shard := (DistributedMap string bool).
#[local] Abbreviation Pool := (pool (World Shard) (Outcome (V := bool))).

(** What node [x] holds under ["k2"]. *)
Definition copy_at (x : string) (c : Pool) : option bool :=
  lookup_in (part "k2") "k2" (nodes c.2 !!! on x).

Definition result_of (i : nat) (c : Pool) : option (Outcome (V := bool)) :=
  match c.1 !! i with Some (Done r) => r | _ => None end.

Lemma result_of_ended i c r : result_of i c = Some r -> ended c i r.
Proof.
  unfold result_of, ended. destruct (c.1 !! i) as [[o| |]|]; try done. by intros ->.
Qed.

(** Two clients write the key at the same time, one on its primary, one on [a]. *)
Definition two_writers : list (Activity (K := string) (V := bool)) :=
  [APut (on "b") "k2" true "op1"; APut (on "a") "k2" false "op2"; AGet (on "c") "k2"].

(** [b] stores its value; the write of [a] goes through from beginning to end; [b] replicates. *)
Definition crossing : list nat := repeat 0%nat 8 ++ repeat 1%nat 40 ++ repeat 0%nat 30 ++ repeat 2%nat 10.

Definition crossed (e : Env) : Pool :=
  schedule crossing (start plain_segment two_writers (example_world e)).

Lemma crossed_steps e :
  rtc pool_step (start plain_segment two_writers (example_world e)) (crossed e).
Proof. unfold crossed. apply schedule_steps. Qed.

(** C20: replicas diverge.  Two concurrent writes of one key are both acknowledged, on a network
    without any fault, and when everything has ended the primary holds one value and the backup the
    other: replication messages carry no order.  A reader is answered by the copy it happens to
    reach. *)
Theorem replicas_diverge :
  let c := crossed calm in
  rtc pool_step (start plain_segment two_writers (example_world calm)) c /\ quiescent c /\
  ended c 0 (Wrote (Ok tt)) /\ ended c 1 (Wrote (Ok tt)) /\ ended c 2 (Read (Some true)) /\
  copy_at "b" c = Some false /\ copy_at "c" c = Some true.
Proof.
  split; [exact (crossed_steps calm)|]. split; [apply all_done_quiescent; vm_compute; reflexivity|].
  split_and!; try (apply result_of_ended); vm_compute; reflexivity.
Qed.

(** The reply to the first attempt of [a] is lost while the handler on [b] has recorded the
    operation and not yet stored the value. *)
Definition hasty : list (Activity (K := string) (V := bool)) :=
  [APut (on "a") "k2" true "op1"; AGet (on "a") "k2"].

Definition overtaken : Pool :=
  schedule (repeat 0%nat 9 ++ repeat 2%nat 4 ++ repeat 0%nat 30 ++ repeat 1%nat 30)
    (start plain_segment hasty (example_world (faulty [ReplyLost]))).

(** C21: acknowledged before stored.  The second attempt of a forwarded write finds the operation id
    that the first attempt, still running, has recorded: the client is told that all is well
    although no node holds the value yet, and its own read finds nothing. *)
Theorem acknowledged_before_stored :
  rtc pool_step (start plain_segment hasty (example_world (faulty [ReplyLost]))) overtaken /\
  ended overtaken 0 (Wrote (Ok tt)) /\ ended overtaken 1 (Read None) /\
  copy_at "a" overtaken = None /\ copy_at "b" overtaken = None /\ copy_at "c" overtaken = None.
Proof.
  split; [unfold overtaken; apply schedule_steps|].
  split_and!; try (apply result_of_ended); vm_compute; reflexivity.
Qed.

(** [b] has become the primary of a partition whose data only [c] has. *)
Definition inherited (x : string) : Shard :=
  if decide (x = "c"%string) then Storage.store_local (part "k2") "k2" false (example_shard x)
  else example_shard x.

Definition recovering : list (Activity (K := string) (V := bool)) :=
  [APut (on "b") "k2" true "op1"; ASync (on "b") [part "k2"]].

Definition overwritten : Pool :=
  schedule (repeat 1%nat 5 ++ repeat 0%nat 30 ++ repeat 1%nat 30)
    (start plain_segment recovering (mkWorld (example_nodes ["a"; "b"; "c"] inherited) calm)).

(** C22: recovery undoes a write.  A new primary fetches its empty partition from a backup; a write
    that arrives between the fetch and the application is stored, replicated and acknowledged, and
    then overwritten on the primary by the old value. *)
Theorem recovery_undoes_write :
  rtc pool_step
    (start plain_segment recovering (mkWorld (example_nodes ["a"; "b"; "c"] inherited) calm))
    overwritten /\
  quiescent overwritten /\
  ended overwritten 0 (Wrote (Ok tt)) /\ ended overwritten 1 (Wrote (Ok tt)) /\
  copy_at "b" overwritten = Some false /\ copy_at "c" overwritten = Some true.
Proof.
  split; [unfold overwritten; apply schedule_steps|]. split; [apply all_done_quiescent; vm_compute; reflexivity|].
  split_and!; try (apply result_of_ended); vm_compute; reflexivity.
Qed.

Lemma two_writers_up e : Forall (fun a => is_Some (nodes (example_world e) !! place a)) two_writers.
Proof.
  repeat apply Forall_cons_2; [| | |apply Forall_nil_2]; eexists;
    [apply (example_shard_at "b"), in_b|apply (example_shard_at "a"), in_a|
     apply (example_shard_at "c"), in_c].
Qed.

Lemma others_ok e : Forall (fun a => is_Some (nodes (example_world e) !! place a) /\ ~ brings a "op1")
  (tail two_writers).
Proof.
  pose proof (two_writers_up e) as [_ [Ha [Hc _]%Forall_cons]%Forall_cons]%Forall_cons.
  repeat apply Forall_cons_2; [| |apply Forall_nil_2]; (split; [done|]); simpl; [discriminate|tauto].
Qed.

Lemma reads_have_sources_witness :
  let c := crossed calm in
  ended c 2 (Read (Some true)) /\
  exists k', (k' = "k2" \/ exists s, plain_segment "k2" = Some s /\ Ok s = Ok k') /\
    (written two_writers k' true \/ held (example_world calm) k' true).
Proof.
  intros c. assert (ended c 2 (Read (Some true))) as He
    by (apply result_of_ended; vm_compute; reflexivity).
  split; [exact He|].
  exact (reads_have_sources plain_segment two_writers (example_world calm) c 2 (on "c") "k2" true
    (two_writers_up calm) (crossed_steps calm) eq_refl He).
Defined.

Lemma crossed_quiescent : quiescent (crossed calm).
Proof. apply all_done_quiescent. vm_compute. reflexivity. Qed.
Lemma crossed_ok : ended (crossed calm) 0 (Wrote (Ok tt)).
Proof. apply result_of_ended. vm_compute. reflexivity. Qed.

Lemma acknowledged_is_stored_witness :
  exists mi v', nodes (crossed calm).2 !! on "c" = Some mi /\
    lookup_in (part "k2") "k2" mi = Some v' /\ sources two_writers (example_world calm) "k2" v'.
Proof.
  pose proof (acknowledged_is_stored plain_segment example_addr (on "b") "k2" true "op1"
    (example_world calm) (example_shard "b") (tail two_writers) (crossed calm) (mkId "c")
    (example_world_cluster _) (example_shard_at "b" _ in_b) (example_fresh _ _)) as Hst.
  specialize (Hst ltac:(apply not_elem_of_nil) ltac:(discriminate) (others_ok _)).
  specialize (Hst (crossed_steps calm) crossed_quiescent crossed_ok).
  pose proof (part_k2 "b") as Ho. unfold part in Ho.
  assert (get_partition (partitioner (example_shard "b")) (key_to_string "k2") = part "k2") as Hp
    by (vm_compute; reflexivity).
  unfold part in Hp. cbv zeta in Hst. rewrite Hp, Ho in Hst. apply Hst; [right; left|right; reflexivity].
Defined.

Lemma replicas_converge_witness :
  let mi := nodes (crossed calm).2 !!! on "c" in
  exists mi' mp v',
    Sync.sync_partitions (on "c") (elements (Sync.target_partitions mi)) (crossed calm).2 =
      (Ok tt, set_node (on "c") mi' (crossed calm).2) /\
    nodes (crossed calm).2 !! on "b" = Some mp /\
    lookup_in (part "k2") "k2" mi' = Some v' /\ lookup_in (part "k2") "k2" mp = Some v' /\
    sources two_writers (example_world calm) "k2" v'.
Proof.
  intros mi.
  pose proof (replicas_converge plain_segment example_addr (on "b") "k2" true "op1"
    (example_world calm) (example_shard "b") (tail two_writers) (crossed calm) (mkId "b") (mkId "c")
    mi (elements (Sync.target_partitions mi))
    (example_world_cluster _) (example_shard_at "b" _ in_b) (example_fresh _ _)) as Hst.
  specialize (Hst ltac:(apply not_elem_of_nil) ltac:(discriminate) (others_ok _)).
  specialize (Hst (crossed_steps calm) crossed_quiescent crossed_ok).
  pose proof (part_k2 "b") as Ho. unfold part in Ho.
  assert (get_partition (partitioner (example_shard "b")) (key_to_string "k2") = part "k2") as Hp
    by (vm_compute; reflexivity).
  unfold part in Hp. cbv zeta in Hst. rewrite Hp, Ho in Hst. specialize (Hst eq_refl ltac:(left)).
  assert (quiet (crossed calm).2) as Hq by (vm_compute; reflexivity).
  assert (is_Some (nodes (crossed calm).2 !! on "c")) as Hup
    by (apply (bool_decide_unpack _); vm_compute; exact I).
  exact (Hst Hq (lookup_lookup_total _ _ Hup) (Permutation_refl _)).
Defined.
End Example.
