(* ===== verification/QueueSteps.v ===== *)
(** * The task queue, action by action: src/executor/queue.rs, handlers.rs and main.rs

    The operations of QueueNet.v and the anti-entropy pass of Sync.v as processes.  An action is one
    operation on a task table, which holds the lock of the partition it works on, or one access to
    the environment; during a request other tasks may run.  Claims, renewals and completions are
    single actions.  [Activity] is anything a node does with the queue. *)

From S2P Require Import Prelude Membership Partitioner Net Topology Queue Process.
From S2P Require QueueNet Sync NetSteps.
From S2P Require Import QueueNet.
Import NetSteps.

#[local] Open Scope Z_scope.
#[local] Open Scope proc_scope.

#[local] Existing Instances Sync.queue_syncable Sync.queue_sync_laws.

Section ops.
Context {P : Type}.
Context (path_segment : string -> option string).

#[local] Abbreviation Queues := (World (DistributedQueue P)).
#[local] Abbreviation resolve self i e := (atomic (Topology.resolve self i e) : proc Queues (result Node)).

(** [store_local] holds the lock of its partition throughout. *)
Definition store_local (self : SocketAddr) (partition : Z) (task_id : TaskId) (entry : TaskEntry P)
    : proc Queues unit :=
  atomic (update self (Queue.store_local partition task_id entry)).

(** [handle_replicate_task]. *)
Definition handle_replicate_task (self : SocketAddr) (req : ReplicateTaskRequest P)
    : proc Queues (Response unit) :=
  store_local self (rt_partition req) (rt_task_id req) (rt_entry req) ;;~
  Done (mkResponse OK tt).

(** [replicate_task_to_backup]. *)
Definition replicate_task_to_backup (self : SocketAddr) (backup_node_id : NodeId) (partition : Z)
    (task_id : TaskId) (entry : TaskEntry P) : proc Queues (result unit) :=
  node <~? resolve self backup_node_id "Backup node not found" ;;
  let payload := mkReplicateTask partition task_id entry in
  response <~? NetSteps.post_with_retry (http_addr node)
                 (handle_replicate_task (http_addr node) payload) 3 ;;
  Done (if is_success response then Ok tt else Err "Task replication failed").

(** [store_as_primary]. *)
Definition store_as_primary (self : SocketAddr) (partition : Z) (task_id : TaskId)
    (entry : TaskEntry P) : proc Queues (result unit) :=
  store_local self partition task_id entry ;;~
  me <~ atomic (my self) ;;
  each_try (fun backup => replicate_task_to_backup self backup partition task_id entry)
    (tail (get_owners (partitioner me) partition)).

(** [handle_internal_submit_task]. *)
Definition handle_internal_submit_task (self : SocketAddr) (req : ForwardTaskRequest P)
    : proc Queues (Response TaskId) :=
  now <~ atomic now_ms ;;
  r <~ store_as_primary self (ft_partition req) (ft_task_id req) (new_entry (ft_task req) now) ;;
  Done (mkResponse (match r with Ok _ => OK | Err _ => INTERNAL_SERVER_ERROR end) (ft_task_id req)).

(** [forward_task]. *)
Definition forward_task (self : SocketAddr) (target : NodeId) (partition : Z) (task_id : TaskId)
    (t : Task P) : proc Queues (result unit) :=
  node <~? resolve self target "Target node not found" ;;
  let payload := mkForwardTask partition task_id t in
  response <~? NetSteps.post_with_retry (http_addr node)
                 (handle_internal_submit_task (http_addr node) payload) 3 ;;
  Done (if is_success response then Ok tt else Err "Forward failed").

(** [submit], once it has drawn the id, and whole. *)
Definition submit_as (self : SocketAddr) (t : Task P) (task_id : TaskId)
    : proc Queues (result TaskId) :=
  me <~ atomic (my self) ;;
  let partition := get_partition (partitioner me) (task_id_str task_id) in
  match get_owners (partitioner me) partition with
  | [] =>
      now <~ atomic now_ms ;;
      store_local self partition task_id (new_entry t now) ;;~
      Done (Ok task_id)
  | primary :: _ =>
      if decide (primary = local_node_id me) then
        now <~ atomic now_ms ;;
        _ <~? store_as_primary self partition task_id (new_entry t now) ;;
        Done (Ok task_id)
      else
        _ <~? forward_task self primary partition task_id t ;;
        Done (Ok task_id)
  end.

Definition submit (self : SocketAddr) (t : Task P) : proc Queues (result TaskId) :=
  task_id <~ atomic task_id_new ;;
  submit_as self t task_id.

(** [handle_get_task_internal] and its route: the handler reads once. *)
Definition route_get_task (self : SocketAddr) (segment : string)
    : proc Queues (Response (option (TaskEntry P))) :=
  atomic (QueueNet.route_get_task path_segment self segment).

(** [fetch_remote]. *)
Definition fetch_remote (self : SocketAddr) (node_id : NodeId) (key : string)
    : proc Queues (result (option (TaskEntry P))) :=
  node <~? resolve self node_id "Owner node not found" ;;
  response <~? NetSteps.get_with_retry (http_addr node) (route_get_task (http_addr node) key) 3 ;;
  Done (if negb (is_success response) then Err "GET request failed" else Ok (body response)).

(** The loop over the owners in [get_task]. *)
Fixpoint ask_owners (self : SocketAddr) (owners : list NodeId) (task_id : TaskId)
    : proc Queues (option (TaskEntry P)) :=
  match owners with
  | [] => Done None
  | owner :: rest =>
      r <~ fetch_remote self owner (task_id_str task_id) ;;
      match r with
      | Ok (Some t) => Done (Some t)
      | _ => ask_owners self rest task_id
      end
  end.

(** [get_task]. *)
Definition get_task (self : SocketAddr) (task_id : TaskId) : proc Queues (option (TaskEntry P)) :=
  me <~ atomic (my self) ;;
  match get_task_local task_id me with
  | Some task_entry => Done (Some task_entry)
  | None =>
      let partition := get_partition (partitioner me) (task_id_str task_id) in
      let owners := get_owners (partitioner me) partition in
      match owners with
      | primary :: _ =>
          if decide (primary <> local_node_id me) then ask_owners self owners task_id
          else Done None
      | [] => Done None
      end
  end.

(** [fetch_partition]; the handler of the dump reads the partition once. *)
Definition fetch_partition (self : SocketAddr) (node_id : NodeId) (partition : Z)
    : proc Queues (result (list (TaskId * TaskEntry P))) :=
  node <~? resolve self node_id "Owner node not found" ;;
  response <~? NetSteps.get_with_retry (http_addr node)
                 (atomic (handle_task_partition_dump (http_addr node) partition)) 3 ;;
  Done (if decide (status response = NOT_FOUND) then Ok [] else
        if negb (is_success response) then Err "Task partition dump failed" else
        Ok (body response)).

(** One iteration of the loop of [sync_queue_partitions], and the loop;
    [apply_partition_entries] holds the lock of the partition throughout. *)
Definition sync_partition (self : SocketAddr) (partition : Z) : proc Queues unit :=
  me <~ atomic (my self) ;;
  match Sync.source_owner me partition with
  | None => Done tt
  | Some source =>
      r <~ fetch_partition self source partition ;;
      match r with
      | Ok [] => Done tt
      | Ok entries => atomic (update self (apply_partition_entries partition entries))
      | Err _ => Done tt
      end
  end.

Definition sync_queue_partitions (self : SocketAddr) (order : list Z) : proc Queues (result unit) :=
  each (sync_partition self) order ;;~
  Done (Ok tt).

(** ** Without interruption *)

Lemma run_handle_replicate_task self req w :
  run (handle_replicate_task self req) w = QueueNet.handle_replicate_task self req w.
Proof. apply (run_bind_eq (store_local _ _ _ _)); [apply run_atomic|done]. Qed.

Lemma run_replicate_task self b p i e w :
  run (replicate_task_to_backup self b p i e) w = QueueNet.replicate_task_to_backup self b p i e w.
Proof.
  apply run_bind_ok_eq; [apply run_atomic|]. intros n w1.
  apply run_bind_ok_eq; [|done]. rewrite post_copy. apply run_post_with_retry. intros w2. apply run_handle_replicate_task.
Qed.

Lemma run_store_task_as_primary self p i e w :
  run (store_as_primary self p i e) w = QueueNet.store_as_primary self p i e w.
Proof.
  apply (run_bind_eq (store_local _ _ _ _)); [apply run_atomic|]. intros _ w1.
  apply (run_bind_eq (atomic (my self)) (my self)); [apply run_atomic|]. intros me w2.
  apply run_each_try. intros b w3. apply run_replicate_task.
Qed.

Lemma run_handle_internal_submit self req w :
  run (handle_internal_submit_task self req) w = QueueNet.handle_internal_submit_task self req w.
Proof.
  apply (run_bind_eq (atomic now_ms) now_ms); [apply run_atomic|]. intros now w1.
  apply run_bind_eq; [apply run_store_task_as_primary|done].
Qed.

Lemma run_forward_task self i p t_id t w :
  run (forward_task self i p t_id t) w = QueueNet.forward_task self i p t_id t w.
Proof.
  apply run_bind_ok_eq; [apply run_atomic|]. intros n w1.
  apply run_bind_ok_eq; [|done]. rewrite post_copy. apply run_post_with_retry. intros w2.
  apply run_handle_internal_submit.
Qed.

Lemma run_submit self t w : run (submit self t) w = QueueNet.submit self t w.
Proof.
  apply (run_bind_eq (atomic task_id_new) task_id_new); [apply run_atomic|]. intros i w1.
  apply (run_bind_eq (atomic (my self)) (my self)); [apply run_atomic|]. intros me w2. cbv zeta.
  destruct (get_owners _ _) as [|primary rest]; [|case_decide].
  - apply (run_bind_eq (atomic now_ms) now_ms); [apply run_atomic|]. intros now w3.
    apply (run_bind_eq (store_local _ _ _ _)); [apply run_atomic|done].
  - apply (run_bind_eq (atomic now_ms) now_ms); [apply run_atomic|]. intros now w3.
    apply run_bind_ok_eq; [apply run_store_task_as_primary|done].
  - apply run_bind_ok_eq; [apply run_forward_task|done].
Qed.

Lemma run_fetch_task self i key w :
  run (fetch_remote self i key) w = QueueNet.fetch_remote path_segment self i key w.
Proof.
  apply run_bind_ok_eq; [apply run_atomic|]. intros n w1.
  apply run_bind_ok_eq; [|done]. rewrite get_copy. apply run_get_with_retry. intros w2. apply run_atomic.
Qed.

Lemma run_get_task self i w : run (get_task self i) w = QueueNet.get_task path_segment self i w.
Proof.
  apply (run_bind_eq (atomic (my self)) (my self)); [apply run_atomic|]. intros me w1. cbv zeta.
  destruct (get_task_local i me); [done|]. destruct (get_owners _ _) as [|primary rest] eqn:Eo; [done|].
  case_decide; [|done]. generalize (primary :: rest) as owners. clear. intros owners.
  revert w1. induction owners as [|o owners IH]; intros w1; [done|].
  apply run_bind_eq; [apply run_fetch_task|]. intros [[t|]|e] w2; [done|apply IH..].
Qed.

Lemma run_sync_tasks self p w :
  run (sync_partition self p) w = Sync.sync_partition self p w.
Proof.
  apply (run_bind_eq (atomic (my self)) (my self)); [apply run_atomic|]. intros me w1.
  destruct (Sync.source_owner me p) as [i|]; [|done].
  apply (run_bind_eq _ (QueueNet.fetch_partition self i p)).
  - apply run_bind_ok_eq; [apply run_atomic|]. intros n w2.
    apply run_bind_ok_eq; [|done]. rewrite get_copy. apply run_get_with_retry. intros w3. apply run_atomic.
  - intros [[|e es]|e] w2; [done|apply run_atomic|done].
Qed.

(** ** Anything a node does with the queue *)

Inductive Activity :=
  | ASubmit (self : SocketAddr) (t : Task P)
  | ASubmitAs (self : SocketAddr) (t : Task P) (task_id : TaskId)
  | AClaim (self : SocketAddr) (task_id : TaskId) (now : Z)
  | ARenew (self : SocketAddr) (task_id : TaskId) (now : Z)
  | AComplete (self : SocketAddr) (task_id : TaskId) (outcome : result unit)
  | AGetTask (self : SocketAddr) (task_id : TaskId)
  | ASync (self : SocketAddr) (order : list Z).

Inductive Outcome :=
  | Submitted (r : result TaskId) | Claimed (r : result bool) | Settled (r : result unit)
  | Found (r : option (TaskEntry P)).

Definition perform (a : Activity) : proc Queues Outcome :=
  match a with
  | ASubmit self t => r <~ submit self t ;; Done (Submitted r)
  | ASubmitAs self t i => r <~ submit_as self t i ;; Done (Submitted r)
  | AClaim self i now => r <~ atomic (on_my self (try_claim_task i now)) ;; Done (Claimed r)
  | ARenew self i now => r <~ atomic (on_my self (renew_lease i now)) ;; Done (Settled r)
  | AComplete self i o => r <~ atomic (on_my self (complete_task i o)) ;; Done (Settled r)
  | AGetTask self i => r <~ get_task self i ;; Done (Found r)
  | ASync self order => r <~ sync_queue_partitions self order ;; Done (Settled r)
  end.

(** The activities of a cluster, none of them begun. *)
Definition start (acts : list Activity) (w : Queues) : pool Queues Outcome :=
  ((fun a => client (perform a)) <$> acts, w).

(** The same as an operation of QueueNet.v, Queue.v or Sync.v, for activities that begin. *)
Definition perform_at_once (a : Activity) : ST Queues Outcome :=
  match a with
  | ASubmit self t => st_bind (QueueNet.submit self t) (fun r => st_ret (Submitted r))
  | ASubmitAs self t i => run (perform (ASubmitAs self t i))
  | AClaim self i now => st_bind (on_my self (try_claim_task i now)) (fun r => st_ret (Claimed r))
  | ARenew self i now => st_bind (on_my self (renew_lease i now)) (fun r => st_ret (Settled r))
  | AComplete self i o => st_bind (on_my self (complete_task i o)) (fun r => st_ret (Settled r))
  | AGetTask self i => st_bind (QueueNet.get_task path_segment self i) (fun r => st_ret (Found r))
  | ASync self order => st_bind (Sync.sync_partitions self order) (fun r => st_ret (Settled r))
  end.

(** The operations of QueueNet.v and Sync.v are the processes without interruption. *)
Lemma uninterrupted_queue_activity a w : run (perform a) w = perform_at_once a w.
Proof.
  destruct a; cbn [perform perform_at_once]; try done; (apply run_bind_eq; [|done]).
  - apply run_submit.
  - apply run_get_task.
  - apply run_bind_eq; [|done]. apply run_each. intros p w1. apply run_sync_tasks.
Qed.
End ops.
