(* ===== verification/QueueRaces.v ===== *)
(** * The task queue under concurrency

    Any number of activities of any nodes (submissions, claims, renewals, completions, lookups,
    anti-entropy), interleaved action by action, over a network that loses requests and replies.
    Unlike the map, the queue keeps its promises at once: a submission that is accepted is on all
    owners at that moment and from then on, with the task that was submitted
    ([accepted_is_stored]), nothing that is in a table is ever lost, changed or put back
    ([tasks_survive]), a task is claimed once on a node ([claimed_by_one]), and lookups return tasks
    that were submitted ([found_tasks_were_submitted]).  To tell the ids of the submissions apart
    the run is looked at in hindsight ([foretell]). *)

From S2P Require Import Prelude Membership Partitioner Net Topology Process Queue.
From S2P Require Sync NetSteps.
From S2P Require Import QueueNet QueueSteps.
Import NetSteps.

#[local] Open Scope Z_scope.
#[local] Open Scope proc_scope.

#[local] Existing Instances Sync.queue_syncable Sync.queue_sync_laws.

Section races.
Context {P : Type}.
Context (path_segment : string -> option string).

#[local] Abbreviation Queues := (World (DistributedQueue P)).

(** Whether the views of the nodes stay as they are, and the tasks that may be stored under an id. *)
Context (still : Prop) (src : TaskId -> Task P -> Prop).

(** One table, later. *)
Record advanced (q q' : DistributedQueue P) : Prop := {
  ad_host : still -> partitioner q' = partitioner q;
  ad_copies : replication_factor (partitioner q') = replication_factor (partitioner q);
  ad_grows : grows q q';
  ad_new p i e : lookup_task p i q = None -> lookup_task p i q' = Some e -> src i (task e);
}.

#[export] Instance advanced_preorder : PreOrder advanced.
Proof.
  split; [intros q; split; [done|done|reflexivity|congruence]|].
  intros q1 q2 q3 [] []. split; [intros Hs; rewrite ad_host1, ad_host0 by done; done|congruence|by etrans|]. intros p i e Hn He.
  destruct (lookup_task p i q2) as [e2|] eqn:E2; [|by eapply ad_new1].
  destruct ad_grows1 as [_ Hg]. destruct (Hg p i e2 E2) as (e' & He' & Hm).
  rewrite He in He'. injection He' as <-. rewrite (mv_task _ _ Hm). by eapply ad_new0.
Qed.

(** The tables, later; UUIDs are used up. *)
Definition advances (w w' : Queues) : Prop :=
  pointwise advanced w w' /\ uuids (env w') `suffix_of` uuids (env w).

#[export] Instance advances_preorder : PreOrder advances.
Proof.
  split; [intros w; split; reflexivity|]. intros w1 w2 w3 [] []. split; by etrans.
Qed.

Lemma advances_env w w' : env_step w w' -> advances w w'.
Proof. intros [Hs Hu]. split; [|done]. by apply same_nodes_pointwise; [apply _|]. Qed.

Lemma advances_up w w' a : advances w w' -> is_Some (nodes w' !! a) -> is_Some (nodes w !! a).
Proof. intros [Hp _]. by apply (pointwise_up advanced). Qed.

Lemma advances_lookup w w' a q : advances w w' -> nodes w !! a = Some q ->
  exists q', nodes w' !! a = Some q' /\ advanced q q'.
Proof. intros [Hp _]. by apply (pointwise_lookup advanced). Qed.

Lemma advances_lookup_inv w w' a q' : advances w w' -> nodes w' !! a = Some q' ->
  exists q, nodes w !! a = Some q /\ advanced q q'.
Proof. intros [Hp _]. by apply (pointwise_lookup_inv advanced). Qed.

Lemma advances_cluster addr_of w w' : still -> advances w w' -> cluster addr_of w -> cluster addr_of w'.
Proof.
  intros Hs [Hp _] Hc. apply (cluster_keeps addr_of w); [done|]. revert Hp. apply pointwise_mono.
  intros q q' Had. by apply ad_host.
Qed.

Lemma advanced_store p i e q : src i (task e) -> advanced q (Queue.store_local p i e q).
Proof.
  intros Hs. split; [done|done|apply (perform_grows (OpStore p i e))|].
  intros p' i' e' Hn. rewrite lookup_store, Hn. case_decide as Hd; [|done].
  destruct Hd as [-> ->]. by intros [= <-].
Qed.

Lemma advanced_write i e e' q :
  find_task i q = Some e -> moves e e' -> advanced q (write_task i e' q).
Proof.
  intros Hf Hm. split; [done|done|by apply (write_task_grows i e)|].
  intros p j x Hn. rewrite lookup_write by done. case_decide as Hd; [|congruence].
  destruct Hd as [-> ->]. rewrite find_task_lookup in Hf. congruence.
Qed.

Lemma advanced_claim i now q : advanced q (try_claim_task i now q).2.
Proof.
  unfold try_claim_task. destruct (find_task i q) as [e|] eqn:Ef; [|reflexivity].
  case_decide as Hd; [reflexivity|]. simpl. apply (advanced_write i e); [done|].
  split; simpl; rewrite ?Hd; try done. simpl. lia.
Qed.

Lemma advanced_renew i now q : advanced q (renew_lease i now q).2.
Proof.
  unfold renew_lease. destruct (find_task i q) as [e|] eqn:Ef; [|reflexivity].
  case_decide as Hd; [|reflexivity]. simpl. by apply (advanced_write i e).
Qed.

Lemma advanced_complete i o q : advanced q (complete_task i o q).2.
Proof.
  unfold complete_task. destruct (find_task i q) as [e|] eqn:Ef; [|reflexivity]. simpl.
  apply (advanced_write i e); [done|].
  split; simpl; try done; [|by destruct o]. destruct (task_status e), o; simpl; lia.
Qed.

Lemma advanced_apply p es q :
  NoDup es.*1 -> (forall x, x ∈ es -> src x.1 (task x.2)) ->
  advanced q (apply_partition_entries p es q).
Proof.
  intros Hnd Hes. split; [done|done|apply (perform_grows (OpApply p es))|].
  intros p' i e Hn. rewrite lookup_apply, Hn by done. case_decide; [|done].
  intros Hl%elem_of_list_to_map_2. apply (Hes (i, e) Hl).
Qed.

(** ** Every action advances the tables *)

Context (w : Queues).

#[local] Abbreviation R := advances.
#[local] Abbreviation wp := (wp R R).
#[local] Abbreviation same := (fun w1 w2 (H : R w1 w2) => H).
#[local] Abbreviation up a := (is_Some (nodes w !! a)).

(** The task is in partition [p] of the table at [a], once and for all. *)
Definition present_at (p : Z) (i : TaskId) (a : SocketAddr) (w : Queues) : Prop :=
  exists q e, nodes w !! a = Some q /\ lookup_task p i q = Some e.

Lemma present_kept p i a : kept R (present_at p i a).
Proof.
  intros w1 w2 Hr (q & e & Hq & He). destruct (advances_lookup w1 w2 a q Hr Hq) as (q' & Hq' & Had).
  destruct (ad_grows _ _ Had) as [_ Hg]. destruct (Hg p i e He) as (e' & He' & _).
  by exists q', e'.
Qed.

Lemma update_advances self (f : DistributedQueue P -> DistributedQueue P) w1 :
  R w w1 -> up self -> (forall q, advanced q (f q)) -> R w1 (update self f w1).2.
Proof.
  intros Hr [q0 Hq0] Hf. destruct (advances_lookup w w1 self q0 Hr Hq0) as (q & Hq & _).
  rewrite (update_eq self f w1 q Hq). split; [|reflexivity].
  pose proof (on_my_pointwise advanced self (fun q => (tt, f q)) w1 q Hq (Hf q)) as Hp.
  by rewrite (on_my_eq self _ w1 q Hq) in Hp.
Qed.

Lemma wp_store self p i e :
  up self -> src i (task e) -> wp (store_local self p i e) (fun _ => present_at p i self) w.
Proof.
  intros Hup Hs w1 Hr. split.
  { apply update_advances; [done..|]. intros q. by apply advanced_store. }
  apply (wp_done R R). intros w2 Hr2. apply (present_kept p i self _ w2 Hr2).
  destruct Hup as [q0 Hq0]. destruct (advances_lookup w w1 self q0 Hr Hq0) as (q & Hq & _).
  rewrite (update_eq self _ w1 q Hq).
  assert (is_Some (lookup_task p i (Queue.store_local p i e q))) as [e' He'].
  { rewrite lookup_store. destruct (lookup_task p i q); [done|]. by rewrite decide_True. }
  exists (Queue.store_local p i e q), e'. split; [apply lookup_insert_eq|done].
Qed.

(** Reading changes nothing. *)
Lemma yields_read_queues {A : Type} (f : Queues -> A) (Q : A -> Prop) :
  (forall w1, R w w1 -> Q (f w1)) -> yields R R (atomic (st_get f)) Q w.
Proof.
  intros Hf. apply (yields_atomic R R same). intros w1 Hr. split; [reflexivity|]. by apply Hf.
Qed.

Lemma wp_read {A : Type} (f : Queues -> A) (Q : A -> Queues -> Prop) :
  (forall w1, R w w1 -> forall w2, R w1 w2 -> Q (f w1) w2) -> wp (atomic (st_get f)) Q w.
Proof. intros Hf w1 Hr. split; [reflexivity|]. apply (wp_done R R). intros w2 Hr2. by apply (Hf w1). Qed.
End races.

(** ** A submission *)
Section submission.
Context {P : Type} (path_segment : string -> option string).
Context (src : TaskId -> Task P -> Prop).

#[local] Abbreviation Queues := (World (DistributedQueue P)).
#[local] Abbreviation R := (advances True src).
#[local] Abbreviation wp := (Process.wp R R).
#[local] Abbreviation same := (fun w1 w2 (H : R w1 w2) => H).
#[local] Abbreviation up w a := (is_Some (nodes w !! a)).

Lemma wp_handle_replicate self p i e w :
  up w self -> src i (task e) ->
  wp (handle_replicate_task self (mkReplicateTask p i e)) (fun _ => present_at p i self) w.
Proof.
  intros Hup Hs. eapply (wp_then R R same); [by apply (wp_store True src w)|]. intros [] w1 Hr1 Hp.
  apply (wp_done R R). intros w2 Hr2. by apply (present_kept True src p i self w1).
Qed.

(** A node is found under the address in its record. *)
Definition recorded (self : SocketAddr) (b : NodeId) (a : SocketAddr) (w : Queues) : Prop :=
  forall q n, nodes w !! self = Some q -> get_member (view q) b = Some n -> http_addr n = a.

Lemma recorded_kept self b a : kept R (recorded self b a).
Proof.
  intros w1 w2 Hr Hrec q n Hq Hn. destruct (advances_lookup_inv True src w1 w2 self q Hr Hq) as (q0 & Hq0 & Had).
  apply (Hrec q0 n Hq0). unfold view in *. simpl in *. by rewrite <- (ad_host _ _ _ _ Had I).
Qed.

Lemma wp_resolve self b a msg w :
  up w self -> recorded self b a w ->
  wp (atomic (resolve self b msg)) (fun r _ => if_ok (fun n => http_addr n = a) r) w.
Proof.
  intros [q0 Hq0] Hrec. apply (wp_read True src w _ (fun r _ => if_ok (fun n => http_addr n = a) r)).
  intros w1 Hr1 w2 _ n Hn. destruct (advances_lookup True src w w1 self q0 Hr1 Hq0) as (q & Hq & _).
  apply (recorded_kept self b a w w1 Hr1 Hrec q n Hq).
  rewrite (lookup_total_correct _ _ _ Hq) in Hn.
  destruct (get_member (view q) b); [by injection Hn as ->|done].
Qed.

Lemma wp_replicate_task self b a p i e w :
  up w self -> recorded self b a w -> src i (task e) ->
  wp (replicate_task_to_backup self b p i e) (fun r w' => r = Ok tt -> present_at p i a w') w.
Proof.
  intros Hup Hrec Hs. eapply (wp_then R R same); [by apply wp_resolve|].
  intros [n|err] w1 Hr1 Ha; [|by apply (wp_done R R)]. specialize (Ha n eq_refl).
  eapply (wp_then R R same).
  - apply (wp_post R w1) with (P := fun _ => present_at p i a).
    + apply advances_env.
    + intros w2 dest. apply advances_up.
    + intros _. apply present_kept.
    + intros Hup1. rewrite <- Ha. by apply wp_handle_replicate.
  - intros [resp|err] w2 Hr2 Hp; apply (wp_done R R); intros w3 Hr3 Hok; [|done].
    apply (present_kept True src p i a w2 w3 Hr3), (Hp resp eq_refl).
Qed.

Section cluster.
Context (addr_of : NodeId -> SocketAddr).

Lemma owner_address_recorded w self q p b :
  cluster addr_of w -> nodes w !! self = Some q -> b ∈ get_owners (partitioner q) p ->
  recorded self b (addr_of b) w.
Proof.
  intros Hc Hq Hb q' n Hq' Hn. rewrite Hq in Hq'. injection Hq' as <-.
  destruct (cluster_owner addr_of w Hc self q b p Hq Hb) as (n' & _ & Hn' & Ha & _). congruence.
Qed.

(** The owners of a partition, as any node sees them at any time. *)
Definition owned (p : Z) (os : list NodeId) (w : Queues) : Prop :=
  cluster addr_of w /\ forall a q, nodes w !! a = Some q -> get_owners (partitioner q) p = os.

Lemma owned_kept p os : kept R (owned p os).
Proof.
  intros w1 w2 Hr [Hc Ho]. split; [by apply (advances_cluster True src addr_of w1)|]. intros a q Hq.
  destruct (advances_lookup_inv True src w1 w2 a q Hr Hq) as (q0 & Hq0 & Had).
  rewrite (ad_host _ _ _ _ Had I). by apply (Ho a).
Qed.

(** A primary that has stored and replicated a task. *)
Definition stored_by (self : SocketAddr) (p : Z) (i : TaskId) (os : list NodeId) (w : Queues) : Prop :=
  present_at p i self w /\ forall b, b ∈ tail os -> present_at p i (addr_of b) w.

Lemma stored_kept self p i os : kept R (stored_by self p i os).
Proof.
  intros w1 w2 Hr [H1 H2]. split; [by apply (present_kept True src p i self w1)|].
  intros b Hb. apply (present_kept True src p i _ w1 w2 Hr), H2, Hb.
Qed.

Lemma wp_store_as_primary self p i e os w :
  up w self -> owned p os w -> src i (task e) ->
  wp (store_as_primary self p i e) (fun r w' => r = Ok tt -> stored_by self p i os w') w.
Proof.
  intros Hup Ho Hs. eapply (wp_then R R same); [by apply (wp_store True src w)|].
  intros [] w1 Hr1 Hp1. pose proof (owned_kept p os w w1 Hr1 Ho) as Ho1.
  destruct Hup as [q0 Hq0]. destruct (advances_lookup True src w w1 self q0 Hr1 Hq0) as (q1 & Hq1 & _).
  eapply (wp_then R R same).
  { apply (wp_read True src w1 _ (fun me _ => get_owners (partitioner me) p = os)). intros w2 Hr2 w3 _.
    destruct (advances_lookup True src w1 w2 self q1 Hr2 Hq1) as (q2 & Hq2 & _).
    rewrite (lookup_total_correct _ _ _ Hq2). apply (proj2 (owned_kept p os w1 w2 Hr2 Ho1) self q2 Hq2). }
  intros me w2 Hr2 ->. eapply (wp_mono R R same); [|apply (wp_each_try R R same) with
    (P := fun b => present_at p i (addr_of b)); [intros b; apply present_kept|]].
  - intros r w3 Hr3 Hl Hok. split; [|by apply Hl].
    apply (present_kept True src p i self w1); [by etrans|done].
  - intros b w3 Hr3 Hb. destruct (advances_lookup True src w1 w3 self q1 ltac:(by etrans) Hq1) as (q3 & Hq3 & _).
    destruct (owned_kept p os w1 w3 ltac:(by etrans) Ho1) as [Hc3 Ho3].
    apply wp_replicate_task; [by exists q3| |done].
    apply (owner_address_recorded w3 self q3 p b Hc3 Hq3). rewrite (Ho3 self q3 Hq3).
    destruct os; [by apply elem_of_nil in Hb|by right].
Qed.

(** A task handed to its primary, by its handler and by the node that forwards it. *)
Lemma wp_internal_submit self p i t os w :
  up w self -> owned p os w -> src i t ->
  wp (handle_internal_submit_task self (mkForwardTask p i t))
    (fun r w' => is_success r = true -> stored_by self p i os w') w.
Proof.
  intros Hup Ho Hs. eapply (wp_then R R same).
  { by apply (wp_read True src w _ (fun _ _ => True)). }
  intros now w1 Hr1 _. eapply (wp_then R R same).
  { eapply (wp_interfere R R); [exact Hr1|]. by apply (wp_store_as_primary self p i _ os w). }
  intros r w2 Hr2 Hst. apply (wp_done R R). intros w3 Hr3 Hsucc.
  apply (stored_kept self p i os w2 w3 Hr3), Hst. by destruct r as [[]|e].
Qed.

Lemma wp_forward self b a p i t os w :
  up w self -> recorded self b a w -> owned p os w -> src i t ->
  wp (forward_task self b p i t) (fun r w' => r = Ok tt -> stored_by a p i os w') w.
Proof.
  intros Hup Hrec Ho Hs. eapply (wp_then R R same); [by apply wp_resolve|].
  intros [n|err] w1 Hr1 Ha; [|by apply (wp_done R R)]. specialize (Ha n eq_refl).
  eapply (wp_then R R same).
  - apply (wp_post R w1) with (P := fun resp w' => is_success resp = true -> stored_by a p i os w').
    + apply advances_env.
    + intros w2 dest. apply advances_up.
    + intros resp w2 w3 Hr Hst Hsucc. apply (stored_kept a p i os w2 w3 Hr), Hst, Hsucc.
    + intros Hup1. rewrite <- Ha. apply wp_internal_submit; [done| |done].
      by apply (owned_kept p os w w1).
  - intros [resp|err] w2 Hr2 Hst; apply (wp_done R R); intros w3 Hr3 Hok; [|done].
    apply (stored_kept a p i os w2 w3 Hr3), (Hst resp eq_refl). by destruct (is_success resp).
Qed.

(** The task is in the tables of all owners. *)
Definition at_owners (p : Z) (i : TaskId) (os : list NodeId) (w : Queues) : Prop :=
  forall b, b ∈ os -> present_at p i (addr_of b) w.

Lemma at_owners_kept p i os : kept R (at_owners p i os).
Proof. intros w1 w2 Hr Ho b Hb. by apply (present_kept True src p i _ w1 w2 Hr), Ho. Qed.

Lemma stored_by_owners a p i primary rest w :
  addr_of primary = a -> stored_by a p i (primary :: rest) w -> at_owners p i (primary :: rest) w.
Proof. intros <- [H1 H2] b [->|Hb]%elem_of_cons; [done|by apply H2]. Qed.

(** A submission that is accepted has reached all owners. *)
Lemma wp_submit_as self t i w q :
  cluster addr_of w -> nodes w !! self = Some q -> src i t ->
  let p := get_partition (partitioner q) (task_id_str i) in
  wp (submit_as self t i) (fun r w' => forall i', r = Ok i' ->
    i' = i /\ at_owners p i (get_owners (partitioner q) p) w') w.
Proof.
  intros Hc Hq Hs p. set (os := get_owners (partitioner q) p).
  assert (owned p os w) as Ho.
  { split; [done|]. intros a q' Hq'. apply (cluster_owners addr_of w Hc a q' self q p Hq' Hq). }
  eapply (wp_then R R same).
  { apply (wp_read True src w _ (fun me _ => partitioner me = partitioner q)). intros w1 Hr1 w2 _.
    destruct (advances_lookup True src w w1 self q Hr1 Hq) as (q1 & Hq1 & Had).
    rewrite (lookup_total_correct _ _ _ Hq1). apply (ad_host _ _ _ _ Had I). }
  intros me w1 Hr1 Hme. cbv zeta. rewrite Hme. fold p. fold os.
  destruct (advances_lookup True src w w1 self q Hr1 Hq) as (q1 & Hq1 & Had1).
  pose proof (owned_kept p os w w1 Hr1 Ho) as Ho1. pose proof (advances_cluster True src addr_of w w1 I Hr1 Hc) as Hc1.
  destruct os as [|primary rest] eqn:Eos; [|case_decide as Hd].
  - eapply (wp_then R R same); [by apply (wp_read True src w1 _ (fun _ _ => True))|]. intros now w2 Hr2 _.
    eapply (wp_then R R same).
    { eapply (wp_interfere R R); [exact Hr2|]. apply (wp_store True src w1); [by eexists|exact Hs]. }
    intros [] w3 Hr3 _. apply (wp_done R R). intros w4 _ i' [= <-]. split; [done|].
    by intros b Hb%elem_of_nil.
  - eapply (wp_then R R same); [by apply (wp_read True src w1 _ (fun _ _ => True))|]. intros now w2 Hr2 _.
    eapply (wp_then R R same).
    { eapply (wp_interfere R R); [exact Hr2|].
      apply (wp_store_as_primary self p i _ (primary :: rest) w1); [by eexists|done|exact Hs]. }
    intros [[]|err] w3 Hr3 Hst; apply (wp_done R R); [|done]. intros w4 Hr4 i' [= <-]. split; [done|].
    apply (at_owners_kept p i _ w3 w4 Hr4), (stored_by_owners self); [|by apply Hst].
    rewrite Hd. unfold local_node_id. rewrite Hme. apply (cl_self _ _ Hc self q Hq).
  - eapply (wp_then R R same).
    { apply (wp_forward self primary (addr_of primary) p i t (primary :: rest) w1); [by eexists| |done..].
      apply (owner_address_recorded w1 self q1 p primary Hc1 Hq1). rewrite (proj2 Ho1 self q1 Hq1). left. }
    intros [[]|err] w2 Hr2 Hst; apply (wp_done R R); [|done]. intros w3 Hr3 i' [= <-]. split; [done|].
    apply (at_owners_kept p i _ w2 w3 Hr3), (stored_by_owners (addr_of primary)); [done|by apply Hst].
Qed.
End cluster.
End submission.

(** ** Lookups and anti-entropy *)
Section reading.
Context {P : Type} (path_segment : string -> option string).
Context (still : Prop) (src : TaskId -> Task P -> Prop).

#[local] Abbreviation Queues := (World (DistributedQueue P)).
#[local] Abbreviation R := (advances still src).
#[local] Abbreviation yields := (Process.yields R R).
#[local] Abbreviation same := (fun w1 w2 (H : R w1 w2) => H).

Context (w : Queues).
#[local] Abbreviation up a := (is_Some (nodes w !! a)).

Definition entry_known (i : TaskId) (e : TaskEntry P) : Prop := src i (task e).

Definition holds_known (q : DistributedQueue P) : Prop :=
  forall p i e, lookup_task p i q = Some e -> entry_known i e.

Hypothesis Hheld : forall a q, nodes w !! a = Some q -> holds_known q.

Lemma advances_known w1 self : R w w1 -> up self -> holds_known (nodes w1 !!! self).
Proof.
  intros Hr [q0 Hq0] p i e He. destruct (advances_lookup still src w w1 self q0 Hr Hq0) as (q & Hq & Had).
  rewrite (lookup_total_correct _ _ _ Hq) in He.
  destruct (lookup_task p i q0) as [e0|] eqn:E0; [|by apply (ad_new _ _ _ _ Had p i e)].
  destruct (ad_grows _ _ _ _ Had) as [_ Hg]. destruct (Hg p i e0 E0) as (e' & He' & Hm).
  rewrite He in He'. injection He' as <-. unfold entry_known. rewrite (mv_task _ _ Hm).
  by apply (Hheld self q0 Hq0 p).
Qed.

(** An action that reads one node and computes [g] of it. *)
Lemma yields_my_queue_then {A : Type} self (g : DistributedQueue P -> A) (Q : A -> Prop) :
  up self -> (forall q, holds_known q -> Q (g q)) ->
  yields (atomic (st_bind (my self) (fun me => st_ret (g me)))) Q w.
Proof.
  intros Hup HQ. apply (yields_atomic R R same). intros w1 Hr. split; [reflexivity|].
  by apply HQ, advances_known.
Qed.

Lemma yields_my_queue self : up self -> yields (atomic (my self)) holds_known w.
Proof. intros Hup. apply (yields_read_queues still src w). intros w1 Hr. by apply advances_known. Qed.

Lemma yields_queue_request {Resp : Type} dest (serve : proc Queues Resp) Q n :
  (up dest -> yields serve Q w) -> yields (NetSteps.post_with_retry dest serve n) (if_ok Q) w.
Proof. apply (yields_post R R w same (advances_env still src)). intros w1 a. apply advances_up. Qed.

Section one_task.
Context (i : TaskId).

(** The id that the handler of a remote lookup may look up for [i]: [i] itself, or what the HTTP
    stack makes of it as a path segment. *)
Definition looked_up_as (i' : TaskId) : Prop :=
  i' = i \/ path_segment (task_id_str i) = Some (task_id_str i').

Definition known (o : option (TaskEntry P)) : Prop :=
  forall e, o = Some e -> exists i', looked_up_as i' /\ entry_known i' e.

Lemma yields_route_get_task self : up self ->
  yields (route_get_task path_segment self (task_id_str i)) (fun resp => known (body resp)) w.
Proof.
  intros Hup. unfold route_get_task, QueueNet.route_get_task.
  destruct (path_segment (task_id_str i)) as [s|] eqn:Es.
  - apply yields_my_queue_then; [done|]. intros q Hq e. unfold get_task_local.
    destruct (find_task (mkTaskId s) q) as [x|] eqn:Ex; [|done]. intros [= <-].
    rewrite find_task_lookup in Ex. exists (mkTaskId s). split; [by right|by apply (Hq _ _ _ Ex)].
  - apply (yields_atomic R R same). intros w1 Hr. by split; [reflexivity|].
Qed.

Lemma yields_fetch_task self b :
  yields (fetch_remote path_segment self b (task_id_str i)) (if_ok known) w.
Proof.
  eapply (yields_bind_ok R R same _ _ (fun _ => True)); [by apply (yields_read_queues still src w)|done|].
  intros n _. eapply (yields_bind_ok R R same); [by apply yields_queue_request, yields_route_get_task|done|].
  intros resp Hresp. apply yields_done. intros o. destruct (is_success resp); [|done].
  by intros [= <-].
Qed.

Lemma yields_ask_owners self owners : yields (ask_owners path_segment self owners i) known w.
Proof.
  induction owners as [|b owners IH]; [by apply yields_done|].
  eapply (yields_bind R R same); [apply yields_fetch_task|].
  intros [[x|]|e] HP; [|exact IH..]. apply yields_done. by apply HP.
Qed.

Lemma yields_get_task self : up self -> yields (get_task path_segment self i) known w.
Proof.
  intros Hup. eapply (yields_bind R R same); [by apply yields_my_queue|]. intros me Hme. cbv zeta.
  unfold get_task_local. destruct (find_task i me) as [x|] eqn:Ex.
  { apply yields_done. intros e [= <-]. rewrite find_task_lookup in Ex. exists i.
    split; [by left|by apply (Hme _ _ _ Ex)]. }
  destruct (get_owners _ _) as [|primary rest]; [by apply yields_done|].
  case_decide; [apply yields_ask_owners|by apply yields_done].
Qed.
End one_task.

Definition known_entries (es : list (TaskId * TaskEntry P)) : Prop :=
  NoDup es.*1 /\ forall x, x ∈ es -> entry_known x.1 x.2.

Lemma known_dump p q : holds_known q -> known_entries (dump_partition p q).
Proof.
  intros Hq. split; [apply dump_NoDup|]. intros [i e] He. by apply (Hq p), elem_of_dump.
Qed.

Lemma yields_fetch_tasks self b p : yields (fetch_partition self b p) (if_ok known_entries) w.
Proof.
  eapply (yields_bind_ok R R same _ _ (fun _ => True)); [by apply (yields_read_queues still src w)|done|].
  intros n _. eapply (yields_bind_ok R R same _ _ (fun resp => known_entries (body resp))); [|done|].
  - apply yields_queue_request. intros Hup. apply yields_my_queue_then; [done|]. intros q. apply known_dump.
  - intros resp Hd. apply yields_done. intros es. case_decide.
    { intros [= <-]. split; [apply NoDup_nil_2|by intros x Hx%elem_of_nil]. }
    destruct (is_success resp); [|done]. by intros [= <-].
Qed.

Lemma safe_update_tasks self f :
  up self -> (forall q, advanced still src q (f q)) -> safe R R (atomic (update self f)) w.
Proof.
  intros Hup Hf. apply (yields_atomic R R same). intros w1 Hr. split; [|done].
  by apply (update_advances still src w).
Qed.

Lemma safe_sync_tasks self p : up self -> safe R R (sync_partition self p) w.
Proof.
  intros Hup. eapply (yields_bind R R same); [by apply yields_my_queue|]. intros me _.
  destruct (Sync.source_owner me p) as [b|]; [|by apply yields_done].
  eapply (yields_bind R R same); [apply yields_fetch_tasks|]. intros [es|e] Hes; [|by apply yields_done].
  destruct (Hes es eq_refl) as [Hnd Hall].
  assert (safe R R (atomic (update self (apply_partition_entries p es))) w) as Hsafe.
  { apply safe_update_tasks; [done|]. intros q. by apply advanced_apply. }
  destruct es; [by apply yields_done|exact Hsafe].
Qed.

Lemma safe_sync_queue self order : up self -> safe R R (sync_queue_partitions self order) w.
Proof.
  intros Hup. apply (safe_bind R R same); [|intros; by apply yields_done].
  apply (safe_each R R same). intros p _. by apply safe_sync_tasks.
Qed.

Lemma safe_on_my {A : Type} self (f : DistributedQueue P -> A * DistributedQueue P) :
  up self -> (forall q, advanced still src q (f q).2) -> safe R R (atomic (on_my self f)) w.
Proof.
  intros Hup Hf. apply (yields_atomic R R same). intros w1 Hr. split; [|done].
  destruct Hup as [q0 Hq0]. destruct (advances_lookup still src w w1 self q0 Hr Hq0) as (q & Hq & _).
  split; [by apply (on_my_pointwise _ self f w1 q)|]. by rewrite (on_my_eq self f w1 q Hq).
Qed.
End reading.

(** ** Submissions, whatever the nodes believe about each other *)
Section submitting.
Context {P : Type} (still : Prop) (src : TaskId -> Task P -> Prop).

#[local] Abbreviation Queues := (World (DistributedQueue P)).
#[local] Abbreviation R := (advances still src).
#[local] Abbreviation same := (fun w1 w2 (H : R w1 w2) => H).

Context (w : Queues) (t : Task P) (i : TaskId).
Hypothesis Hsrc : src i t.

#[local] Abbreviation safe p := (Process.safe R R p w).
#[local] Abbreviation up a := (is_Some (nodes w !! a)).

Lemma safe_store_task self p e : up self -> task e = t -> safe (store_local self p i e).
Proof.
  intros Hup <-. apply (safe_update_tasks still src w); [done|]. intros q. by apply advanced_store.
Qed.

Lemma safe_read_queues {A : Type} (f : Queues -> A) : safe (atomic (st_get f)).
Proof. by apply (yields_read_queues still src w f (fun _ => True)). Qed.

(** A request to a node that the membership names. *)
Lemma safe_to_node {Resp A : Type} self b msg (req : Node -> proc Queues Resp) (k : Resp -> result A) :
  (forall n, up (http_addr n) -> safe (req n)) ->
  safe (bind_ok (atomic (resolve self b msg) : proc Queues (result Node)) (fun n =>
        bind_ok (NetSteps.post_with_retry (http_addr n) (req n) 3) (fun r => Done (k r)))).
Proof.
  intros Hreq. apply (safe_bind R R same); [apply safe_read_queues|]. intros [n|e]; [|by apply yields_done].
  apply (safe_bind R R same); [|intros [r|e]; by apply yields_done].
  eapply (yields_safe R R same), (yields_queue_request still src w). intros Hup. by apply Hreq.
Qed.

Lemma safe_store_and_replicate self p e : up self -> task e = t -> safe (store_as_primary self p i e).
Proof.
  intros Hup He. apply (safe_bind R R same); [by apply safe_store_task|]. intros _.
  apply (safe_bind R R same); [apply safe_read_queues|]. intros me.
  apply (safe_each_try R R same). intros b _. apply safe_to_node. intros n Hn.
  apply (safe_bind R R same); [by apply safe_store_task|]. intros _. by apply yields_done.
Qed.

Lemma safe_submit_as self : up self -> safe (submit_as self t i).
Proof.
  intros Hup. apply (safe_bind R R same); [apply safe_read_queues|]. intros me. cbv zeta.
  destruct (get_owners _ _) as [|primary rest]; [|case_decide].
  - apply (safe_bind R R same); [apply safe_read_queues|]. intros now.
    apply (safe_bind R R same); [by apply safe_store_task|]. intros _. by apply yields_done.
  - apply (safe_bind R R same); [apply safe_read_queues|]. intros now.
    apply (safe_bind R R same); [by apply safe_store_and_replicate|]. intros []; by apply yields_done.
  - apply (safe_bind R R same); [|intros []; by apply yields_done].
    apply safe_to_node. intros n Hn.
    apply (safe_bind R R same); [apply safe_read_queues|]. intros now.
    apply (safe_bind R R same); [by apply safe_store_and_replicate|]. intros r. by apply yields_done.
Qed.
End submitting.

(** ** Activities *)
Section activities.
Context {P : Type} (path_segment : string -> option string).

#[local] Abbreviation Queues := (World (DistributedQueue P)).
#[local] Abbreviation Activity := (Activity (P := P)).

Definition place (a : Activity) : SocketAddr :=
  match a with
  | ASubmit self _ | ASubmitAs self _ _ | AClaim self _ _ | ARenew self _ _ | AComplete self _ _
  | AGetTask self _ | ASync self _ => self
  end.

(** The activity submits [t], and may do so under the id [i]: under the one it has been given, or
    under the one it draws ([drawn], where that is known). *)
Definition submits (drawn : option TaskId) (a : Activity) (i : TaskId) (t : Task P) : Prop :=
  match a with
  | ASubmit _ t' => t' = t /\ forall i', drawn = Some i' -> i = i'
  | ASubmitAs _ t' i' => t' = t /\ i = i'
  | _ => False
  end.

(** What is submitted under an id, and what was there at the beginning. *)
Definition brought (drawn : nat -> option TaskId) (acts : list Activity) (i : TaskId) (t : Task P) : Prop :=
  exists j a, acts !! j = Some a /\ submits (drawn j) a i t.
Definition held (w : Queues) (i : TaskId) (t : Task P) : Prop :=
  exists a q p e, nodes w !! a = Some q /\ lookup_task p i q = Some e /\ task e = t.
Definition sources (drawn : nat -> option TaskId) (acts : list Activity) (w : Queues) (i : TaskId)
    (t : Task P) : Prop :=
  brought drawn acts i t \/ held w i t.

(** An activity, when it is known what it draws. *)
Definition submitting (self : SocketAddr) (t : Task P) (i : TaskId) : proc Queues (Outcome (P := P)) :=
  bind (submit_as self t i) (fun r => Done (Submitted r)).

Definition foretold (drawn : option TaskId) (a : Activity) : proc Queues (Outcome (P := P)) :=
  match drawn, a with
  | Some i, ASubmit self t => bind (atomic task_id_new) (fun _ => submitting self t i)
  | _, _ => perform path_segment a
  end.

Lemma foretold_same drawn a :
  (forall self t, a <> ASubmit self t) -> foretold drawn a = perform path_segment a.
Proof. intros Ha. destruct drawn as [i|], a as [self t| | | | | |]; try done. by destruct (Ha self t). Qed.

Definition start_foretold (drawn : nat -> option TaskId) (acts : list Activity) (w : Queues)
    : pool Queues (Outcome (P := P)) :=
  (imap (fun j a => client (foretold (drawn j) a)) acts, w).

Lemma start_not_foretold acts w : start path_segment acts w = start_foretold (fun _ => None) acts w.
Proof. unfold start, start_foretold. f_equal. by rewrite <- imap_const. Qed.

Section perform.
Context (drawn : nat -> option TaskId) (acts : list Activity) (w : Queues).
Hypothesis Hup : Forall (fun a => is_Some (nodes w !! place a)) acts.

#[local] Abbreviation src := (sources drawn acts w).
#[local] Abbreviation R := (advances True src).
#[local] Abbreviation same := (fun w1 w2 (H : R w1 w2) => H).

Lemma initially_known a q : nodes w !! a = Some q -> holds_known src q.
Proof. intros Hq p i e He. right. by exists a, q, p, e. Qed.

Lemma yields_new_id : Process.safe R R (atomic task_id_new) w.
Proof.
  apply (yields_atomic R R same). intros w1 Hr. split; [|done]. unfold task_id_new, st_bind.
  pose proof (new_v4_env w1) as He. destruct (new_v4 w1) as [u w2]. simpl. by apply advances_env.
Qed.

(** The task is with its owners, from the point of view of [self]. *)
Definition accepted (addr_of : NodeId -> SocketAddr) (self : SocketAddr) (i : TaskId) (w' : Queues) : Prop :=
  forall q, nodes w !! self = Some q ->
  let p := get_partition (partitioner q) (task_id_str i) in
  at_owners addr_of p i (get_owners (partitioner q) p) w'.

Lemma accepted_kept addr_of self i : kept R (accepted addr_of self i).
Proof. intros w1 w2 Hr Ha q Hq. by apply (at_owners_kept src addr_of _ _ _ w1 w2 Hr), Ha. Qed.

(** What an activity that has ended with [o] has achieved in [w']. *)
Definition achieved (addr_of : NodeId -> SocketAddr) (own : option TaskId) (a : Activity)
    (o : Outcome (P := P)) (w' : Queues) : Prop :=
  match a, o with
  | ASubmit self _, Submitted (Ok i) =>
      (forall i', own = Some i' -> i = i') /\ accepted addr_of self i w'
  | ASubmitAs self _ i0, Submitted (Ok i) => i = i0 /\ accepted addr_of self i w'
  | AGetTask _ i, Found (Some e) => exists i', looked_up_as path_segment i i' /\ src i' (task e)
  | _, _ => True
  end.

(** The outcome of an activity, from that of the operation it is. *)
Lemma wp_outcome {A : Type} (op : proc Queues A) (c : A -> Outcome (P := P)) (Q : A -> Queues -> Prop)
    (Q' : Outcome (P := P) -> Queues -> Prop) :
  wp R R op Q w -> (forall a w1 w2, R w1 w2 -> Q a w1 -> Q' (c a) w2) ->
  wp R R (bind op (fun a => Done (c a))) Q' w.
Proof.
  intros Hop HQ. eapply (wp_then R R same); [exact Hop|]. intros a w1 _ Ha.
  apply (wp_done R R). intros w2 Hr2. by apply (HQ a w1).
Qed.

Lemma wp_submission addr_of self t i q :
  cluster addr_of w -> nodes w !! self = Some q -> src i t ->
  forall w1, R w w1 -> wp R R (submit_as self t i) (fun r w' => forall i', r = Ok i' ->
    i' = i /\ accepted addr_of self i w') w1.
Proof.
  intros Hc Hq Hs w1 Hr1. eapply (wp_interfere R R); [exact Hr1|].
  eapply (wp_mono R R same); [|by apply (wp_submit_as src addr_of self t i w q)].
  intros r w2 _ Hat i' ->. destruct (Hat i' eq_refl) as [-> Hat']. split; [done|]. intros q' Hq'. rewrite Hq in Hq'. by injection Hq' as <-.
Qed.

Lemma wp_submitting addr_of self t i q :
  cluster addr_of w -> nodes w !! self = Some q -> src i t ->
  forall w1, R w w1 -> wp R R (submitting self t i) (fun o w' => forall i', o = Submitted (Ok i') ->
    i' = i /\ accepted addr_of self i w') w1.
Proof.
  intros Hc Hq Hs w1 Hr1. eapply (wp_interfere R R); [exact Hr1|]. eapply wp_outcome.
  - apply (wp_submission addr_of self t i q Hc Hq Hs w). reflexivity.
  - intros r w2 w3 Hr Hat i' [= ->]. destruct (Hat i' eq_refl) as [-> Hacc]. split; [done|].
    by apply (accepted_kept addr_of self i w2 w3 Hr).
Qed.

Lemma wp_foretold addr_of j a :
  cluster addr_of w -> acts !! j = Some a ->
  wp R R (foretold (drawn j) a) (achieved addr_of (drawn j) a) w.
Proof.
  intros Hc Ha. assert (is_Some (nodes w !! place a)) as [q Hq].
  { rewrite Forall_lookup in Hup. by apply (Hup j). }
  assert (forall i t, submits (drawn j) a i t -> src i t) as Hs by (intros i t Hb; left; by exists j, a).
  clear Ha.
  destruct a as [self t|self t i|self i now|self i now|self i o|self i|self order]; simpl in Hq, Hs.
  - assert (forall i, (forall i', drawn j = Some i' -> i = i') -> forall w1, R w w1 ->
              wp R R (submitting self t i) (achieved addr_of (drawn j) (ASubmit self t)) w1) as Hsub.
    { intros i Hi w1 Hr1. eapply (wp_mono R R same);
        [|apply (wp_submitting addr_of self t i q Hc Hq (Hs i t (conj eq_refl Hi)) w1 Hr1)].
      intros [[i'|]| | |] w2 _ Hat; try done. destruct (Hat i' eq_refl) as [-> Hacc]. by split. }
    unfold foretold. destruct (drawn j) as [i|] eqn:Ed.
    + eapply (wp_then R R same); [apply yields_new_id|]. intros _ w1 Hr1 _. apply Hsub; [|done]. congruence.
    + intros w1 Hr1. pose proof (yields_new_id w1 Hr1) as [Hstep _]. split; [exact Hstep|].
      apply (Hsub (task_id_new w1).1); [done|]. by etrans.
  - rewrite foretold_same by done. change (perform path_segment (ASubmitAs self t i)) with (submitting self t i).
    eapply (wp_mono R R same); [|apply (wp_submitting addr_of self t i q Hc Hq); [by apply Hs|reflexivity]].
    intros [[i'|]| | |] w2 _ Hat; try done. destruct (Hat i' eq_refl) as [-> Hacc]. by split.
  - rewrite foretold_same by done.
    eapply wp_outcome; [apply safe_on_my; [by eexists|]; intros q0; apply advanced_claim|done].
  - rewrite foretold_same by done.
    eapply wp_outcome; [apply safe_on_my; [by eexists|]; intros q0; apply advanced_renew|done].
  - rewrite foretold_same by done.
    eapply wp_outcome; [apply safe_on_my; [by eexists|]; intros q0; apply advanced_complete|done].
  - rewrite foretold_same by done.
    eapply wp_outcome; [apply (yields_get_task path_segment True src w initially_known); by eexists|].
    intros [e|] w1 w2 _ He; [|done]. by apply He.
  - rewrite foretold_same by done.
    eapply wp_outcome; [by apply (safe_sync_queue True src w initially_known); eexists|done].
Qed.

Lemma foretold_activity i p : (start_foretold drawn acts w).1 !! i = Some p ->
  exists a, acts !! i = Some a /\ p = client (foretold (drawn i) a).
Proof.
  simpl. rewrite list_lookup_imap. intros Hi. apply fmap_Some in Hi as (a & Ha & ->). eauto.
Qed.

(** What is to be shown of the end of process [j]. *)
Definition aim addr_of (j : nat) : option (Outcome (P := P)) -> Queues -> Prop :=
  match acts !! j with
  | Some a => fun o w' => exists r, o = Some r /\ achieved addr_of (drawn j) a r w'
  | None => fun _ _ => True
  end.

Lemma aim_rest addr_of j : (length acts <= j)%nat -> aim addr_of j = fun _ _ => True.
Proof. intros Hj. unfold aim. by rewrite lookup_ge_None_2. Qed.

Lemma achieved_kept addr_of own a o : kept R (achieved addr_of own a o).
Proof.
  intros w1 w2 Hr Ha. destruct a, o as [[i|e]| | |[]]; simpl in *; try done;
    (split; [by apply Ha|by apply (accepted_kept addr_of _ _ w1 w2 Hr), Ha]).
Qed.

Lemma start_all_wp addr_of : cluster addr_of w ->
  all_wp R (length acts) (aim addr_of) (start_foretold drawn acts w).
Proof.
  intros Hc. split; [simpl; by rewrite length_imap|]. intros j p (a & Ha & ->)%foretold_activity.
  unfold aim. rewrite Ha.
  eapply (wp_then R R same); [by apply (wp_foretold addr_of j a Hc)|].
  intros r w1 _ Hr. apply (wp_done R R). intros w2 Hr2. exists r. split; [done|].
  by apply (achieved_kept addr_of _ a r w1 w2).
Qed.

(** Whatever the interleaving: the tables have advanced, and what has ended has achieved it. *)
Lemma queue_sound addr_of c' : cluster addr_of w -> rtc pool_step (start_foretold drawn acts w) c' ->
  R w c'.2 /\ forall j a o, acts !! j = Some a -> ended c' j o -> achieved addr_of (drawn j) a o c'.2.
Proof.
  intros Hc Hrtc.
  destruct (all_wp_steps R _ _ (aim_rest addr_of) _ _ (start_all_wp addr_of Hc) Hrtc) as [Hr [_ Hend]].
  split; [exact Hr|]. intros j a o Ha He. specialize (Hend j _ He c'.2 (reflexivity _)).
  unfold aim in Hend. rewrite Ha in Hend. by destruct Hend as (r & [= <-] & Hach).
Qed.
End perform.

(** *** What the submissions of a run draw *)

Definition draws_id (a : Activity) : bool := match a with ASubmit _ _ => true | _ => false end.

(** The ids that are still to be drawn. *)
Definition ids_left (w : Queues) : list TaskId := mkTaskId <$> uuids (env w).

Lemma ids_are_drawn (w : Queues) :
  (task_id_new w).1 = mkTaskId "" \/ ids_left w = (task_id_new w).1 :: ids_left (task_id_new w).2.
Proof.
  unfold task_id_new, st_bind, ids_left, new_v4. destruct (uuids (env w)) as [|u us]; simpl; [by left|].
  by right.
Qed.

Lemma run_uses_up src n aim c c' :
  (forall i, (n <= i)%nat -> aim i = fun _ _ => True) ->
  all_wp (advances True src) n aim c -> rtc pool_step c c' ->
  rtc (uses_up ids_left (B := Outcome (P := P))) c c'.
Proof.
  intros Haim Hall Hrtc. induction Hrtc as [c|c c1 c' Hst _ IH]; [done|].
  destruct (all_wp_step _ _ _ Haim c c1 Hall Hst) as [[_ Hs] Hall1].
  eapply rtc_l; [|by apply IH]. split; [done|]. destruct Hs as [pre Hs]. exists (mkTaskId <$> pre).
  unfold ids_left. by rewrite Hs, fmap_app.
Qed.

Section hindsight.
Context (addr_of : NodeId -> SocketAddr) (acts : list Activity) (w : Queues) (c' : pool Queues (Outcome (P := P))).
Hypothesis Hc : cluster addr_of w.
Hypothesis Hup : Forall (fun a => is_Some (nodes w !! place a)) acts.
Hypothesis Hrtc : rtc pool_step (start path_segment acts w) c'.

Lemma foretell (d : TaskId) : exists (own : nat -> TaskId) (s' : pool Queues (Outcome (P := P))),
  rtc pool_step (start_foretold (fun j => Some (own j)) acts w) s' /\ s'.2 = c'.2 /\
  (forall j r, ended c' j r -> ended s' j r) /\
  (forall j self t, acts !! j = Some (ASubmit self t) ->
     own j = d \/ own j = mkTaskId "" \/ task_id_str (own j) ∈ uuids (env w)) /\
  (NoDup (uuids (env w)) -> forall j j' self self' t t',
     acts !! j = Some (ASubmit self t) -> acts !! j' = Some (ASubmit self' t') ->
     own j = own j' -> own j <> d -> own j <> mkTaskId "" -> j = j').
Proof.
  set (U := fun j => match acts !! j with Some a => draws_id a | None => false end).
  assert (rtc (uses_up ids_left) (start path_segment acts w) c') as Hrun.
  { eapply run_uses_up; [apply (aim_rest (fun _ => None) acts w addr_of)| |exact Hrtc].
    rewrite start_not_foretold. by apply start_all_wp. }
  assert (forall j self t, acts !! j = Some (ASubmit self t) -> U j = true) as HU
    by (intros j self t Hj; unfold U; by rewrite Hj).
  assert (forall j, U j = true -> exists self t, acts !! j = Some (ASubmit self t)) as HU'.
  { intros j. unfold U. destruct (acts !! j) as [[]|]; try done. eauto. }
  destruct (foresee task_id_new ids_left (mkTaskId "") ids_are_drawn U d _ _ Hrun) as (own & Hsim & Hfrom & Hinj).
  { intros j (self & t & Hj)%HU'. simpl. rewrite list_lookup_fmap, Hj. eexists. reflexivity. }
  destruct (Hsim (start_foretold (fun j => Some (own j)) acts w)) as (s' & Hs' & Hw & He).
  { split; simpl; [done|by rewrite length_imap, length_fmap| | |].
    - intros j p (self & t & Hj)%HU'. rewrite list_lookup_fmap, list_lookup_imap, Hj.
      intros [= <-]. eexists. split; reflexivity.
    - intros j Hj. rewrite list_lookup_fmap, list_lookup_imap. unfold U in Hj.
      by destruct (acts !! j) as [[]|].
    - intros j (self & t & Hj)%HU'. rewrite length_fmap. by eapply lookup_lt_Some. }
  exists own, s'. split_and!; [done..| |].
  - intros j self t Hj. destruct (Hfrom j (HU _ _ _ Hj)) as [?|[?|Hin]]; [by left|by right; left|].
    right. right. apply list_elem_of_fmap in Hin as (u & -> & Hin). exact Hin.
  - intros Hnd j j' self self' t t' Hj Hj'. apply Hinj; [|by eapply HU..].
    apply NoDup_fmap_2; [|exact Hnd]. by intros u u' [= ->].
Qed.
End hindsight.

(** Process [j] has its id for itself: UUIDs are not repeated, no table has the id yet, and no other
    activity brings it along. *)
Record unshared (acts : list Activity) (w : Queues) (j : nat) (i : TaskId) : Prop := {
  un_uuids : NoDup (uuids (env w));
  un_name : task_id_str i <> ""%string;
  un_new a q p : nodes w !! a = Some q -> lookup_task p i q = None;
  un_given j' self t : acts !! j' = Some (ASubmitAs self t i) -> j' = j /\ task_id_str i ∉ uuids (env w);
}.

Lemma accepted_stored addr_of acts w c' j self t a i q b :
  cluster addr_of w -> Forall (fun a => is_Some (nodes w !! place a)) acts ->
  rtc pool_step (start path_segment acts w) c' ->
  acts !! j = Some a -> a = ASubmit self t \/ a = ASubmitAs self t i ->
  ended c' j (Submitted (Ok i)) -> unshared acts w j i -> nodes w !! self = Some q ->
  let p := get_partition (partitioner q) (task_id_str i) in
  b ∈ get_owners (partitioner q) p ->
  exists qb e, nodes c'.2 !! addr_of b = Some qb /\ lookup_task p i qb = Some e /\ task e = t.
Proof.
  intros Hc Hup Hrtc Ha Hsub He Hun Hq p Hb.
  destruct (foretell addr_of acts w c' Hc Hup Hrtc (mkTaskId "")) as (own & s' & Hs' & <- & Hends & Hfrom & Hinj).
  set (drawn := fun j => Some (own j)) in *.
  destruct (queue_sound drawn acts w Hup addr_of s' Hc Hs') as [Hr Hend].
  specialize (Hend j a _ Ha (Hends _ _ He)).
  assert (at_owners addr_of p i (get_owners (partitioner q) p) s'.2) as Hat
    by (destruct Hsub as [->| ->]; destruct Hend as [_ Hend]; by apply (Hend q)).
  destruct (Hat b Hb) as (qb & e & Hqb & Hl). exists qb, e. split_and!; [done..|].
  assert (is_Some (nodes w !! addr_of b)) as Hupb
    by (apply (advances_up _ _ w s'.2 _ Hr); by eexists).
  pose proof (advances_known True (sources drawn acts w) w (initially_known drawn acts w) s'.2
    (addr_of b) Hr Hupb) as Hk.
  rewrite (lookup_total_correct _ _ _ Hqb) in Hk.
  assert (i <> mkTaskId "") as Hne by (intros ->; by apply (un_name _ _ _ _ Hun)).
  destruct (Hk _ _ _ Hl) as [(j' & a' & Ha' & Hs)|(x & qx & px & ex & Hx & Hex & _)];
    [|by rewrite (un_new _ _ _ _ Hun x qx px Hx) in Hex].
  destruct a' as [self' t'|self' t' i'| | | | |]; simpl in Hs; try done; destruct Hs as [<- Hs].
  - specialize (Hs (own j') eq_refl). destruct Hsub as [->| ->].
    + destruct Hend as [Hi _]. specialize (Hi (own j) eq_refl).
      assert (j = j') as <-.
      { eapply (Hinj (un_uuids _ _ _ _ Hun)); [done|done|..]; congruence. }
      congruence.
    + destruct (un_given _ _ _ _ Hun j self t Ha) as [_ Hni].
      destruct (Hfrom j' self' t' Ha') as [?|[?|Hin]]; congruence.
  - subst i'. destruct (un_given _ _ _ _ Hun j' self' t' Ha') as [-> _]. rewrite Ha in Ha'.
    destruct Hsub as [->| ->]; congruence.
Qed.

(** C5: accepted tasks are stored, under concurrency.  Submissions, claims, renewals, completions,
    lookups and anti-entropy of any nodes are interleaved action by action, over a network that loses
    requests and replies.  As soon as one of the submissions has come back with an id, which it shares
    with no other, and from then on, every owner of the partition of that id, primary and backups
    alike, has an entry with the very task that was submitted. *)
Theorem accepted_is_stored addr_of acts w c' j self t a i q b :
  cluster addr_of w -> Forall (fun a => is_Some (nodes w !! place a)) acts ->
  rtc pool_step (start path_segment acts w) c' ->
  acts !! j = Some a -> a = ASubmit self t \/ a = ASubmitAs self t i ->
  ended c' j (Submitted (Ok i)) -> unshared acts w j i -> nodes w !! self = Some q ->
  let p := get_partition (partitioner q) (task_id_str i) in
  b ∈ get_owners (partitioner q) p ->
  exists qb e, nodes c'.2 !! addr_of b = Some qb /\ lookup_task p i qb = Some e /\ task e = t.
Proof. apply accepted_stored. Qed.

(** Tasks survive concurrency.  From any moment of such a run to any later one, no table
    loses a task; its payload and creation time stay, its status does not go back, and it is not
    [Running] without a lease unless it was. *)
Theorem tasks_survive addr_of acts w c c' a q p i e :
  cluster addr_of w -> Forall (fun a => is_Some (nodes w !! place a)) acts ->
  rtc pool_step (start path_segment acts w) c -> rtc pool_step c c' ->
  nodes c.2 !! a = Some q -> lookup_task p i q = Some e ->
  exists q' e', nodes c'.2 !! a = Some q' /\ lookup_task p i q' = Some e' /\
    task e' = task e /\ created_at e' = created_at e /\
    (rank (task_status e) <= rank (task_status e'))%nat /\
    (task_status e' = Running -> lease_expires e' = None ->
     task_status e = Running /\ lease_expires e = None).
Proof.
  rewrite start_not_foretold. set (drawn := fun _ : nat => None).
  intros Hc Hup H1 H2 Hq He. set (src := sources drawn acts w).
  pose proof (start_all_wp drawn acts w Hup addr_of Hc) as Hall.
  destruct (all_wp_steps _ _ _ (aim_rest drawn acts w addr_of) _ _ Hall H1) as [_ Hall1].
  destruct (all_wp_steps _ _ _ (aim_rest drawn acts w addr_of) _ _ Hall1 H2) as [Hr _].
  destruct (advances_lookup True src c.2 c'.2 a q Hr Hq) as (q' & Hq' & Had).
  destruct (ad_grows _ _ _ _ Had) as [_ Hg]. destruct (Hg p i e He) as (e' & He' & []).
  by exists q', e'.
Qed.

(** Lookups return tasks that were there before or were submitted, under the id that is looked up
    or, in a lookup at another node, under what the HTTP stack makes of it; [drawn] are the ids the
    submissions of the run draw. *)
Theorem found_tasks_were_submitted addr_of acts w c' j self i e :
  cluster addr_of w -> Forall (fun a => is_Some (nodes w !! place a)) acts ->
  rtc pool_step (start path_segment acts w) c' ->
  acts !! j = Some (AGetTask self i) -> ended c' j (Found (Some e)) ->
  exists drawn,
    (forall j self t i, acts !! j = Some (ASubmit self t) -> ended c' j (Submitted (Ok i)) ->
       drawn j = Some i) /\
    exists i', looked_up_as path_segment i i' /\ sources drawn acts w i' (task e).
Proof.
  intros Hc Hup Hrtc Ha He.
  destruct (foretell addr_of acts w c' Hc Hup Hrtc (mkTaskId "")) as (own & s' & Hs' & Hw & Hends & _ & _).
  destruct (queue_sound (fun j => Some (own j)) acts w Hup addr_of s' Hc Hs') as [_ Hend].
  exists (fun j => Some (own j)). split; [|exact (Hend j _ _ Ha (Hends _ _ He))].
  intros j' self' t i' Hj' He'. destruct (Hend j' _ _ Hj' (Hends _ _ He')) as [Hi _].
  by rewrite (Hi _ eq_refl).
Qed.

(** *** Claims *)
Section claims.
Context (acts : list Activity) (w : Queues) (self : SocketAddr) (i : TaskId).
Hypothesis Hup : Forall (fun a => is_Some (nodes w !! place a)) acts.

#[local] Abbreviation drawn := (fun _ : nat => None).
#[local] Abbreviation src := (sources drawn acts w).
#[local] Abbreviation Pool := (pool Queues (Outcome (P := P))).

(** Process [j] is one of the claims. *)
Definition claims_it (j : nat) (now : Z) : Prop := acts !! j = Some (AClaim self i now).

Definition started_at (w' : Queues) : Prop :=
  exists q, nodes w' !! self = Some q /\ started i q.

(** A claim has not begun or is over; the winner, if there is one, is alone, and the task has
    started. *)
Record one_winner (c : Pool) : Prop := {
  ow_claims j now : claims_it j now ->
    c.1 !! j = Some (client (perform path_segment (AClaim self i now))) \/
    exists b, ended c j (Claimed (Ok b));
  ow_started j now : claims_it j now -> ended c j (Claimed (Ok true)) -> started_at c.2;
  ow_alone j j' now now' : claims_it j now -> claims_it j' now' ->
    ended c j (Claimed (Ok true)) -> ended c j' (Claimed (Ok true)) -> j = j';
}.

Lemma started_at_advances w1 w2 : advances True src w1 w2 -> started_at w1 -> started_at w2.
Proof.
  intros Hr (q & Hq & Hs). destruct (advances_lookup True src w1 w2 self q Hr Hq) as (q' & Hq' & Had).
  exists q'. split; [done|]. by apply (started_grows i q q' (ad_grows _ _ _ _ Had)).
Qed.

(** The one action of a claim. *)
Lemma claim_step now w1 p' ts w2 : is_Some (nodes w1 !! self) ->
  proc_step (client (perform path_segment (AClaim self i now))) w1 = Some (p', ts, w2) ->
  exists b, p' = Done (Some (Claimed (Ok b))) /\ ts = [] /\
    (b = true -> ~ started_at w1 /\ started_at w2).
Proof.
  intros [q Hq]. simpl. rewrite (on_my_eq self _ w1 q Hq).
  destruct (try_claim_task i now q) as [r q'] eqn:Ec. simpl. intros [= <- <- <-].
  assert (exists b, r = Ok b) as [b ->].
  { unfold try_claim_task in Ec. destruct (find_task i q); [case_decide|]; injection Ec as <- _; eauto. }
  exists b. split_and!; [done..|]. intros ->. apply claim_ok in Ec as (Hn & Hs & _). split.
  - intros (q1 & Hq1 & Hs1). rewrite Hq in Hq1. by injection Hq1 as <-.
  - exists q'. split; [apply lookup_insert_eq|done].
Qed.

Lemma one_winner_step c c' : (length acts <= length c.1)%nat -> is_Some (nodes c.2 !! self) ->
  advances True src c.2 c'.2 -> pool_step c c' -> one_winner c -> one_winner c'.
Proof.
  intros Hlen Hs Hr (k & (p & p' & ts & w' & Hk & Hst & ->)%step_at_inv) [Hcl Hstd Hal]. simpl in Hr.
  assert (forall j now, claims_it j now -> (j < length c.1)%nat) as Hlt.
  { intros j now Hj%lookup_lt_Some. lia. }
  assert (forall j now, claims_it j now ->
    (j = k /\ exists b, p = client (perform path_segment (AClaim self i now)) /\
       (<[k:=p']> c.1 ++ (Process.task <$> ts)) !! j = Some (Done (Some (Claimed (Ok b)))) /\
       (b = true -> ~ started_at c.2 /\ started_at w')) \/
    (j <> k /\ (<[k:=p']> c.1 ++ (Process.task <$> ts)) !! j = c.1 !! j)) as Hcase.
  { intros j now Hj. pose proof (Hlt j now Hj) as Hl. rewrite lookup_app_l by by rewrite length_insert.
    destruct (decide (j = k)) as [->|Hne]; [left|right; by rewrite list_lookup_insert_ne].
    split; [done|]. rewrite list_lookup_insert_eq by done.
    destruct (Hcl k now Hj) as [Heq|(r & Hend)].
    - rewrite Hk in Heq. injection Heq as ->. destruct (claim_step now c.2 p' ts w' Hs Hst) as (r & -> & _ & Hok). by exists r.
    - unfold ended in Hend. rewrite Hk in Hend. injection Hend as ->. done. }
  assert (forall j now, claims_it j now -> ended (<[k:=p']> c.1 ++ (Process.task <$> ts), w') j (Claimed (Ok true)) ->
    started_at w' /\ (j = k /\ ~ started_at c.2 \/ j <> k /\ ended c j (Claimed (Ok true)))) as Hwin.
  { intros j now Hj He. unfold ended in *. simpl in He.
    destruct (Hcase j now Hj) as [(-> & r & _ & Hd & Hok)|[Hne Heq]].
    - rewrite He in Hd. injection Hd as <-. destruct (Hok eq_refl). auto.
    - rewrite Heq in He. split; [|by right]. by apply (started_at_advances c.2), (Hstd j now). }
  split; simpl.
  - intros j now Hj. destruct (Hcase j now Hj) as [(-> & r & _ & Hd & _)|[Hne Heq]].
    + right. by exists r.
    + unfold ended. simpl. rewrite Heq. by apply Hcl.
  - intros j now Hj He. by apply (Hwin j now).
  - intros j j' now now' Hj Hj' He He'.
    destruct (Hwin j now Hj He) as [_ [[-> Hn]|[Hne Hw]]], (Hwin j' now' Hj' He') as [_ [[-> Hn']|[Hne' Hw']]];
      [done| | |by apply (Hal j j' now now')]; exfalso.
    + by apply Hn, (Hstd j' now').
    + by apply Hn', (Hstd j now).
Qed.

Lemma one_winner_start : one_winner (start path_segment acts w).
Proof.
  assert (forall j now, claims_it j now -> (start path_segment acts w).1 !! j =
    Some (client (perform path_segment (AClaim self i now)))) as Hst.
  { intros j now Hj. simpl. by rewrite list_lookup_fmap, Hj. }
  split.
  - intros j now Hj. left. by apply Hst.
  - intros j now Hj He. unfold ended in He. by rewrite (Hst j now Hj) in He.
  - intros j j' now now' Hj _ He _. unfold ended in He. by rewrite (Hst j now Hj) in He.
Qed.

Lemma one_winner_steps addr_of c c' : is_Some (nodes w !! self) -> advances True src w c.2 ->
  all_wp (advances True src) (length acts) (aim drawn acts w addr_of) c -> one_winner c ->
  rtc pool_step c c' -> one_winner c'.
Proof.
  intros Hs Hr0 Hall Hw Hrtc. induction Hrtc as [c|c c1 c2 Hst _ IH]; [done|].
  destruct (all_wp_step _ _ _ (aim_rest drawn acts w addr_of) c c1 Hall Hst) as [Hr Hall1].
  apply IH; [by etrans|done|]. apply (one_winner_step c c1); [apply Hall| |done..].
  destruct Hs as [q Hq]. destruct (advances_lookup True src w c.2 self q Hr0 Hq) as (q' & Hq' & _).
  by exists q'.
Qed.
End claims.

(** C14: a task is claimed once, under concurrency.  Of all the claims of one task that the workers
    of a node make in the course of such a run, at most one succeeds and the others are told [false],
    however submissions, copies by anti-entropy, renewals and completions are interleaved with them. *)
Theorem claimed_by_one addr_of acts w c' self i j1 j2 now1 now2 r :
  cluster addr_of w -> Forall (fun a => is_Some (nodes w !! place a)) acts ->
  rtc pool_step (start path_segment acts w) c' ->
  acts !! j1 = Some (AClaim self i now1) -> acts !! j2 = Some (AClaim self i now2) -> j1 <> j2 ->
  ended c' j1 (Claimed (Ok true)) -> ended c' j2 (Claimed r) -> r = Ok false.
Proof.
  intros Hc Hup Hrtc H1 H2 Hne He1 He2.
  assert (is_Some (nodes w !! self)) as Hs.
  { rewrite Forall_forall in Hup. apply (Hup (AClaim self i now1)). by apply list_elem_of_lookup_2 in H1. }
  assert (one_winner acts self i c') as Hw.
  2: { destruct (ow_claims _ _ _ _ Hw j2 now2 H2) as [Heq|[b Heq]]; unfold ended in *.
    - rewrite He2 in Heq. discriminate.
    - rewrite He2 in Heq. injection Heq as ->. destruct b; [|done].
      by destruct (Hne (ow_alone _ _ _ _ Hw j1 j2 now1 now2 H1 H2 He1 He2)). }
  by apply (one_winner_steps acts w self i addr_of (start path_segment acts w));
    [|reflexivity|rewrite start_not_foretold; apply start_all_wp|apply one_winner_start|].
Qed.
End activities.

(** ** A schedule

    Nodes [a], [b] and [c] of QueueNet.v; ["t3"] has the primary [b] and the backup [c].  [a] submits
    a task over a network that loses the first reply, so that the handler at [b] runs twice; two
    workers of [b] claim it before it has reached [c].  Then [a] submits another task. *)
Module Example.
Import QueueNet.Example.

#[local] Abbreviation Pool := (pool (World (DistributedQueue bool)) (Outcome (P := bool))).

Definition other_work : Task bool := Execute "index_document" false.
Definition crowd : list (Activity (P := bool)) :=
  [ASubmit (on "a") work; AClaim (on "b") (mkTaskId "t3") 2000; AClaim (on "b") (mkTaskId "t3") 2001;
   AGetTask (on "c") (mkTaskId "t3"); ASubmit (on "a") other_work].
Definition crowd_world : World (DistributedQueue bool) := example_world [ReplyLost; Delivered] ["t3"; "t4"].

(** The submission goes on until the first handler has stored the task, then both workers claim it;
    the client tries again, and the handler that was left behind (5) goes on at the same time. *)
Definition crowding : list nat :=
  repeat 0%nat 6 ++ repeat 5%nat 2 ++ [1%nat; 2%nat] ++ repeat 0%nat 12 ++ repeat 5%nat 4 ++
  repeat 0%nat 30 ++ repeat 5%nat 20 ++ repeat 3%nat 10 ++ repeat 4%nat 40.
Definition crowded : Pool := schedule crowding (start plain_segment crowd crowd_world).

Definition result_of (i : nat) (c : Pool) : option (Outcome (P := bool)) :=
  match c.1 !! i with Some (Done r) => r | _ => None end.

Lemma outcome_ended i c r : result_of i c = Some r -> ended c i r.
Proof. unfold result_of, ended. destruct (c.1 !! i) as [[o| |]|]; try done. by intros ->. Qed.

(** The status of the task at node [x]. *)
Definition status_at (x : string) (c : Pool) : option TaskStatus :=
  q ← nodes c.2 !! on x; e ← lookup_task (part "t3") (mkTaskId "t3") q; Some (task_status e).

Lemma status_at_inv x c s : status_at x c = Some s ->
  exists q e, nodes c.2 !! on x = Some q /\ lookup_task (part "t3") (mkTaskId "t3") q = Some e /\
    task_status e = s.
Proof.
  unfold status_at. generalize (part "t3"). intros p.
  destruct (nodes c.2 !! on x) as [q|]; [|done]. simpl. destruct (lookup_task p _ q) as [e|] eqn:E; [|done].
  intros [= <-]. eauto.
Qed.

Lemma crowd_up : Forall (fun a => is_Some (nodes crowd_world !! place a)) crowd.
Proof. apply (bool_decide_unpack _). vm_compute. exact I. Qed.

Lemma crowded_steps : rtc pool_step (start plain_segment crowd crowd_world) crowded.
Proof. apply schedule_steps. Qed.

Lemma crowd_unshared : unshared crowd crowd_world 0 (mkTaskId "t3").
Proof.
  split; [by apply (bool_decide_unpack _); vm_compute|done| |].
  - intros a q p Hq. by apply (task_world_fresh _ _ _ a q p Hq).
  - intros j self t Hj%list_elem_of_lookup_2. exfalso. unfold crowd in Hj.
    by repeat (apply elem_of_cons in Hj as [Hj|Hj]; [discriminate|]); apply elem_of_nil in Hj.
Qed.

(** Both tasks have been accepted; the first is where it belongs, and not the second in its place. *)
Lemma accepted_is_stored_witness :
  result_of 4 crowded = Some (Submitted (Ok (mkTaskId "t4"))) /\
  exists qc e, nodes crowded.2 !! on "c" = Some qc /\
    lookup_task (part "t3") (mkTaskId "t3") qc = Some e /\ task e = work.
Proof.
  split; [vm_compute; reflexivity|].
  pose proof (accepted_is_stored plain_segment example_addr crowd crowd_world crowded 0 (on "a") work
    (ASubmit (on "a") work) (mkTaskId "t3") (example_queue "a") (mkId "c")
    (task_world_cluster _ _) crowd_up crowded_steps eq_refl (or_introl eq_refl)) as Hst.
  specialize (Hst ltac:(apply outcome_ended; vm_compute; reflexivity) crowd_unshared (example_a _ _)).
  pose proof owners_t3 as Ho. unfold part in Ho. cbv zeta in Hst. cbn [task_id_str] in Hst.
  rewrite Ho in Hst. apply Hst. right. left.
Defined.

(** What the workers are told, and that the losing one could not have won. *)
Lemma claimed_by_one_witness :
  ended crowded 1 (Claimed (Ok true)) /\ result_of 2 crowded = Some (Claimed (Ok false)) /\
  forall r, ended crowded 2 (Claimed r) -> r = Ok false.
Proof.
  assert (ended crowded 1 (Claimed (Ok true))) as He by (apply outcome_ended; vm_compute; reflexivity).
  split_and!; [exact He|vm_compute; reflexivity|]. intros r.
  exact (claimed_by_one plain_segment example_addr crowd crowd_world crowded (on "b") (mkTaskId "t3") 1 2
    2000 2001 r (task_world_cluster _ _) crowd_up crowded_steps eq_refl eq_refl
    ltac:(discriminate) He).
Defined.

(** The table of [b] when its first worker has claimed the task. *)
Lemma tasks_survive_witness :
  let c := schedule (take 9 crowding) (start plain_segment crowd crowd_world) in
  exists q e q' e', nodes c.2 !! on "b" = Some q /\ lookup_task (part "t3") (mkTaskId "t3") q = Some e /\
    task_status e = Running /\
    nodes (schedule (drop 9 crowding) c).2 !! on "b" = Some q' /\
    lookup_task (part "t3") (mkTaskId "t3") q' = Some e' /\ task e' = task e.
Proof.
  intros c.
  assert (status_at "b" c = Some Running) as Hs by (vm_compute; reflexivity).
  apply status_at_inv in Hs as (q & e & Hq & He & Hrun).
  destruct (tasks_survive plain_segment example_addr crowd crowd_world c (schedule (drop 9 crowding) c)
    (on "b") q (part "t3") (mkTaskId "t3") e (task_world_cluster _ _) crowd_up
    (schedule_steps _ _) (schedule_steps _ _) Hq He) as (q' & e' & Hq' & He' & Ht & _).
  exists q, e, q', e'. split_and!; assumption.
Defined.

Lemma found_tasks_were_submitted_witness :
  exists e, ended crowded 3 (Found (Some e)) /\ exists drawn i', drawn 0%nat = Some (mkTaskId "t3") /\
    looked_up_as plain_segment (mkTaskId "t3") i' /\ sources drawn crowd crowd_world i' (task e).
Proof.
  assert (exists e, result_of 3 crowded = Some (Found (Some e))) as [e He]
    by (eexists; vm_compute; reflexivity).
  apply outcome_ended in He. exists e. split; [exact He|].
  destruct (found_tasks_were_submitted plain_segment example_addr crowd crowd_world crowded 3 (on "c")
    (mkTaskId "t3") e (task_world_cluster _ _) crowd_up crowded_steps eq_refl He)
    as (drawn & Hdrawn & i' & Hi' & Hs).
  exists drawn, i'. split_and!; [|exact Hi'|exact Hs].
  eapply (Hdrawn 0%nat); [reflexivity|]. apply outcome_ended. vm_compute. reflexivity.
Defined.
End Example.
