(* ===== verification/Executor.v ===== *)
(** * The worker pool: src/executor/registry.rs and src/executor/executor.rs

    Workers of one node poll the queue, claim a task, run its handler under a heartbeat that renews
    the lease, and record the outcome.  First one worker as a function, then the pool as a step
    relation in which workers, heartbeats and the other users of the queue interleave. *)

From S2P Require Import Prelude Membership Partitioner Net Topology Queue.
From stdpp Require Import relations.

#[local] Open Scope Z_scope.

Section executor.
(** [P]: task payloads; [W]: what handlers read and change outside of the queue. *)
Context {P W : Type}.
Implicit Types q : DistributedQueue P.
Implicit Types o : W.

(** ** src/executor/registry.rs *)

Definition TaskHandlerFn : Type := Task P -> ST W (result unit).
Definition TaskHandlerRegistry : Type := gmap string TaskHandlerFn.

Definition registry_new : TaskHandlerRegistry := ∅.
Definition register (handler_name : string) (handler : TaskHandlerFn) (r : TaskHandlerRegistry)
    : TaskHandlerRegistry := <[handler_name := handler]> r.

(** [TaskHandlerRegistry::execute]. *)
Definition execute (r : TaskHandlerRegistry) (t : Task P) : ST W (result unit) :=
  match t with
  | Execute handler _ =>
      match r !! handler with
      | Some handler_fn => handler_fn t
      | None => st_ret (Err (String.append "Unknown task handler: " handler))
      end
  end.

Definition list_handlers (r : TaskHandlerRegistry) : list string := (map_to_list r).*1.
Definition has_handler (handler_name : string) (r : TaskHandlerRegistry) : bool :=
  bool_decide (is_Some (r !! handler_name)).
Definition handler_count (r : TaskHandlerRegistry) : nat := size r.

Lemma execute_registered name (f : TaskHandlerFn) r (payload : P) :
  execute (register name f r) (Execute name payload) = f (Execute name payload).
Proof. unfold execute, register, TaskHandlerRegistry. by rewrite lookup_insert_eq. Qed.

Section worker.
Context (handlers : TaskHandlerRegistry).

(** ** One worker *)

(** [execute_task]. *)
Definition execute_task (t : Task P) : ST W (result unit) := execute handlers t.

(** The [for] loop of [worker_loop] over the polled tasks, with [execute_with_lease]: whether a
    task was claimed, and what is left of the queue and the outside. *)
Fixpoint claim_loop (tasks : list (TaskId * TaskEntry P)) (now : Z) q o
    : bool * DistributedQueue P * W :=
  match tasks with
  | [] => (false, q, o)
  | (task_id, entry) :: rest =>
      match try_claim_task task_id now q with
      | (Ok true, q1) =>
          let '(outcome, o1) := execute_task (task entry) o in
          (true, (complete_task task_id outcome q1).2, o1)
      | (_, q1) => claim_loop rest now q1 o
      end
  end.

(** One iteration of [worker_loop] that starts at [now]. *)
Definition worker_iteration (now : Z) q o : bool * DistributedQueue P * W :=
  claim_loop (my_pending_tasks now q) now q o.

Fixpoint worker_run (nows : list Z) q o : DistributedQueue P * W :=
  match nows with
  | [] => (q, o)
  | now :: nows' => let '(_, q1, o1) := worker_iteration now q o in worker_run nows' q1 o1
  end.

(** ** A single worker drains the queue *)

Definition is_pending (i : TaskId) q : Prop :=
  exists e, find_task i q = Some e /\ task_status e = Pending.

#[export] Instance is_pending_dec i q : Decision (is_pending i q).
Proof.
  refine (match find_task i q as o return find_task i q = o -> _ with
          | Some e => fun He => cast_if (decide (task_status e = Pending))
          | None => fun He => right _
          end eq_refl); [by exists e|intros (e' & He' & Hs)..]; congruence.
Defined.

(** A task that this node should execute. *)
Definition waiting (i : TaskId) q : Prop :=
  is_pending i q /\
  head (get_owners (partitioner q) (get_partition (partitioner q) (task_id_str i))) =
    Some (local_node_id q).

Definition all_ids q : list TaskId := (map_to_list (local_tasks q)).*2 ≫= fun pm => (map_to_list pm).*1.

Definition pending_count (ids : list TaskId) q : nat := length (filter (fun i => is_pending i q) ids).

Lemma length_all_ids q : length (all_ids q) = local_task_count q.
Proof.
  unfold all_ids, local_task_count. generalize (map_to_list (local_tasks q)) as l.
  induction l as [|[p pm] l IH]; [done|].
  rewrite !fmap_cons, bind_cons, length_app, IH, length_fmap, length_map_to_list. done.
Qed.

Lemma pending_in_all i q : is_pending i q -> i ∈ all_ids q.
Proof.
  intros (e & He & _). unfold find_task in He. apply bind_Some in He as (pm & Hpm & Hi).
  unfold all_ids. apply list_elem_of_bind. exists pm. split.
  - apply list_elem_of_fmap. exists (i, e). split; [done|]. by apply elem_of_map_to_list.
  - apply list_elem_of_fmap. eexists (_, pm). split; [done|]. by apply elem_of_map_to_list.
Qed.

(** The entry of a task that this node has executed with an outcome. *)
Definition settled q (outcome : result unit) (e : TaskEntry P) : TaskEntry P :=
  mkEntry (task e) (match outcome with Ok _ => Completed | Err msg => Failed msg end)
    (Some (local_node_id q)) (created_at e) None.

(** Every task is as it was, or it was pending and its handler has been run, whose outcome it has. *)
Definition settles q q' : Prop := forall j e, find_task j q = Some e ->
  find_task j q' = Some e \/
  task_status e = Pending /\ exists o, find_task j q' = Some (settled q (execute_task (task e) o).1 e).

(** Every task is in the partition of its id, as submission and anti-entropy put them. *)
Definition placed q : Prop := forall p i e,
  lookup_task p i q = Some e -> p = get_partition (partitioner q) (task_id_str i).

(** Claiming and completing [i]: [i] is finished, nothing else moves. *)
Lemma claim_complete i now outcome q q1 :
  try_claim_task i now q = (Ok true, q1) ->
  let q2 := (complete_task i outcome q1).2 in
  exists e, find_task i q = Some e /\ task_status e = Pending /\
    find_task i q2 = Some (settled q outcome e) /\
    (partitioner q2 = partitioner q /\ (placed q -> placed q2)) /\
    forall j, j <> i -> find_task j q2 = find_task j q.
Proof.
  unfold try_claim_task. destruct (find_task i q) as [e|] eqn:Ef; [|done].
  case_decide as Hd; [done|]. intros [= <-]. set (e1 := mkEntry _ _ _ _ _).
  assert (find_task i (write_task i e1 q) = Some e1) as Hf1 by (apply find_write; by rewrite Ef).
  unfold complete_task. rewrite Hf1. cbn [snd]. set (e2 := mkEntry _ _ _ _ _). exists e. split_and!; [done|done| |done| |].
  - apply find_write. by rewrite Hf1.
  - intros Hpl p j x. cbn [partitioner write_task set_tasks].
    rewrite lookup_write by (by rewrite Hf1). case_decide as Hd1; [by destruct Hd1 as [-> ->]|].
    rewrite lookup_write by (by rewrite Ef). case_decide as Hd2; [by destruct Hd2 as [-> ->]|]. apply Hpl.
  - intros j Hj. rewrite !write_other; [done|by auto|by rewrite Ef|by auto|by rewrite Hf1].
Qed.

Lemma settled_not_pending i q q' outcome e :
  find_task i q' = Some (settled q outcome e) -> ~ is_pending i q'.
Proof. intros He (e' & He' & Hs). rewrite He in He'. injection He' as <-. by destruct outcome. Qed.

Lemma settles_trans q1 q2 q3 :
  local_node_id q2 = local_node_id q1 -> settles q1 q2 -> settles q2 q3 -> settles q1 q3.
Proof.
  intros Hl H1 H2 j e He. destruct (H1 j e He) as [He2|(Hp & o & He2)].
  - destruct (H2 j e He2) as [He3|(Hp & o & He3)]; [by left|]. right. split; [done|]. exists o.
    unfold settled in *. by rewrite <- Hl.
  - destruct (H2 j _ He2) as [He3|[Hc _]]; [right; eauto|].
    by destruct (execute_task (task e) o).1.
Qed.

Lemma is_pending_ext j q q' : find_task j q' = find_task j q -> is_pending j q' <-> is_pending j q.
Proof. unfold is_pending. by intros ->. Qed.

Lemma pending_count_ext ids q q' :
  (forall j, j ∈ ids -> is_pending j q' <-> is_pending j q) ->
  pending_count ids q' = pending_count ids q.
Proof.
  unfold pending_count. induction ids as [|j ids IH]; intros Hext; [done|].
  rewrite !filter_cons. pose proof (Hext j ltac:(left)).
  repeat case_decide; simpl; rewrite IH; try tauto; intros; apply Hext; by right.
Qed.

Lemma pending_count_drop ids q q' i :
  i ∈ ids -> is_pending i q -> ~ is_pending i q' ->
  (forall j, j <> i -> is_pending j q' <-> is_pending j q) ->
  (pending_count ids q' < pending_count ids q)%nat.
Proof.
  intros Hi Hp Hn Hext. unfold pending_count. induction ids as [|j ids IH].
  { by apply elem_of_nil in Hi. }
  assert (length (filter (fun i => is_pending i q') ids) <=
          length (filter (fun i => is_pending i q) ids))%nat as Hle.
  { clear IH Hi. induction ids as [|x ids IHx]; [done|]. rewrite !filter_cons.
    destruct (decide (x = i)) as [->|Hx].
    - rewrite decide_False by done. case_decide; simpl; lia.
    - pose proof (Hext x Hx). repeat case_decide; simpl; lia || tauto. }
  rewrite !filter_cons. destruct (decide (j = i)) as [->|Hj].
  - rewrite decide_False, decide_True by done. simpl. lia.
  - apply elem_of_cons in Hi as [->|Hi]; [done|]. specialize (IH Hi). pose proof (Hext j Hj).
    repeat case_decide; simpl; lia || tauto.
Qed.

(** The loop over what was polled either claims nothing, leaving the queue alone and every polled
    task unclaimable, or settles exactly one task. *)
Lemma claim_loop_spec tasks now q o :
  (forall i e, (i, e) ∈ tasks -> find_task i q = Some e) ->
  let '(claimed, q', _) := claim_loop tasks now q o in
  if claimed then
    exists i e, find_task i q = Some e /\ task_status e = Pending /\
      find_task i q' = Some (settled q (execute_task (task e) o).1 e) /\
      (partitioner q' = partitioner q /\ (placed q -> placed q')) /\
      forall j, j <> i -> find_task j q' = find_task j q
  else q' = q /\ forall i e, (i, e) ∈ tasks -> ~ is_pending i q.
Proof.
  induction tasks as [|[i e] tasks IH]; intros Hfound; simpl.
  { split; [done|]. by intros i e ?%elem_of_nil. }
  destruct (try_claim_task i now q) as [r q1] eqn:Ec.
  assert (r <> Ok true -> q1 = q /\ ~ is_pending i q) as Hmiss.
  { intros Hr. unfold try_claim_task in Ec. unfold is_pending.
    destruct (find_task i q) as [e0|]; [|injection Ec as <- <-; split; [done|by intros (? & ? & _)]].
    case_decide as Hd; [|injection Ec as <- <-; done].
    injection Ec as <- <-. split; [done|]. intros (e' & [= <-] & ?). done. }
  specialize (IH ltac:(intros; apply Hfound; by right)).
  destruct r as [[]|].
  { pose proof (Hfound i e ltac:(left)) as He.
    destruct (execute_task (task e) o) as [outcome o1] eqn:Ex.
    destruct (claim_complete i now outcome q q1 Ec) as (e' & He' & Hrest). rewrite He in He'.
    injection He' as <-. exists i, e. split; [done|]. by rewrite Ex. }
  all: destruct (Hmiss ltac:(done)) as [-> Hn];
    destruct (claim_loop tasks now q o) as [[[] q'] o']; [done|]; destruct IH as [-> Hall];
    (split; [done|]); intros i1 e1 [[= -> ->]|Hin]%elem_of_cons; [done|by eapply Hall].
Qed.

Lemma worker_iteration_spec ids now q o :
  0 < num_partitions (partitioner q) -> placed q -> (forall i, is_pending i q -> i ∈ ids) ->
  let '(_, q', _) := worker_iteration now q o in
  (partitioner q' = partitioner q /\ placed q') /\ settles q q' /\
  (forall j, is_pending j q' -> is_pending j q) /\
  ((forall i, ~ waiting i q) \/ (pending_count ids q' < pending_count ids q)%nat).
Proof.
  intros Hn Hpl Hids. unfold worker_iteration.
  assert (forall i e, (i, e) ∈ my_pending_tasks now q -> find_task i q = Some e) as Hfound.
  { intros i e Hin. apply elem_of_my_pending in Hin as (p & _ & He & _).
    rewrite find_task_lookup. by rewrite <- (Hpl p i e He). }
  pose proof (claim_loop_spec (my_pending_tasks now q) now q o Hfound) as Hs.
  destruct (claim_loop _ now q o) as [[[] q'] o'].
  - destruct Hs as (i & e & He & Hst & He' & [Hpart Hpl'] & Hext).
    assert (forall j, j <> i -> is_pending j q' <-> is_pending j q) as Hext'.
    { intros j Hj. by apply is_pending_ext, Hext. }
    pose proof (settled_not_pending _ _ _ _ _ He') as Hnp.
    assert (is_pending i q) as Hp by by exists e.
    split_and!; [done|by apply Hpl'| | |].
    + intros j x Hx. destruct (decide (j = i)) as [->|Hj]; [|left; by rewrite Hext].
      rewrite He in Hx. injection Hx as <-. right. eauto.
    + intros j Hj. destruct (decide (j = i)) as [->|Hji]; [done|]. by apply Hext'.
    + right. apply (pending_count_drop ids q q' i); auto.
  - destruct Hs as [-> Hall]. split_and!; [done|done|by left|done|]. left. intros i [Hp Hh].
    pose proof Hp as (e & He & Hst). apply (Hall i e); [|done]. apply elem_of_my_pending.
    eexists. split; [split; [by apply get_partition_range|exact Hh]|].
    split; [done|]. unfold is_available. by rewrite Hst.
Qed.

Lemma pending_count_mono ids q q' :
  (forall j, is_pending j q' -> is_pending j q) ->
  (pending_count ids q' <= pending_count ids q)%nat.
Proof.
  intros Hm. unfold pending_count. induction ids as [|j ids IH]; [done|]. rewrite !filter_cons.
  pose proof (Hm j). repeat case_decide; simpl; lia || tauto.
Qed.

Lemma pending_count_pos ids i q : i ∈ ids -> is_pending i q -> (0 < pending_count ids q)%nat.
Proof.
  intros Hi Hp. unfold pending_count.
  assert (i ∈ filter (fun i => is_pending i q) ids) as Hin by (by apply list_elem_of_filter).
  destruct (filter _ ids); [by apply elem_of_nil in Hin|simpl; lia].
Qed.

Lemma waiting_mono i q q' :
  partitioner q' = partitioner q -> (forall j, is_pending j q' -> is_pending j q) ->
  waiting i q' -> waiting i q.
Proof. unfold waiting, local_node_id. intros -> Hm [Hp Hh]. auto. Qed.

Lemma worker_run_settles nows q o : 0 < num_partitions (partitioner q) -> placed q ->
  partitioner (worker_run nows q o).1 = partitioner q /\ settles q (worker_run nows q o).1 /\
  forall j, is_pending j (worker_run nows q o).1 -> is_pending j q.
Proof.
  revert q o. induction nows as [|now nows IH]; intros q o Hn Hpl; simpl; [split_and!; [done|by left|done]|].
  pose proof (worker_iteration_spec (all_ids q) now q o Hn Hpl (fun i => pending_in_all i q)) as Hs.
  destruct (worker_iteration now q o) as [[c q1] o1]. destruct Hs as ([Hp Hpl1] & Hst & Hm & _).
  destruct (IH q1 o1 ltac:(by rewrite Hp) Hpl1) as (Hp1 & Hst1 & Hm1). split_and!; [congruence| |auto].
  apply (settles_trans _ q1); [|done..]. unfold local_node_id. by rewrite Hp.
Qed.

Lemma worker_run_drains ids nows q o :
  0 < num_partitions (partitioner q) -> placed q -> (forall i, is_pending i q -> i ∈ ids) ->
  (pending_count ids q <= length nows)%nat ->
  forall i, ~ waiting i (worker_run nows q o).1.
Proof.
  revert q o. induction nows as [|now nows IH]; intros q o Hn Hpl Hids Hlen i; simpl in *.
  { intros [Hp _]. pose proof (pending_count_pos ids i q (Hids i Hp) Hp). lia. }
  pose proof (worker_iteration_spec ids now q o Hn Hpl Hids) as Hs.
  destruct (worker_iteration now q o) as [[c q1] o1]. destruct Hs as ([Hp Hpl1] & _ & Hm & Hor).
  destruct Hor as [Hnone|Hdrop]; [|apply IH; [by rewrite Hp|done|auto|lia]].
  destruct (worker_run_settles nows q1 o1 ltac:(by rewrite Hp) Hpl1) as (Hp1 & _ & Hm1).
  intros Hw. apply (Hnone i). eapply waiting_mono; [| |exact Hw]; [congruence|auto].
Qed.


(** ** The pool *)

Inductive Worker :=
  | Idle
  | Scanning (tasks : list (TaskId * TaskEntry P))
  | Executing (task_id : TaskId) (t : Task P).

(** A node: its queue, its workers, the tasks whose heartbeat ([spawn_lease_renewal]) is running,
    and the outside. *)
Record Pool := mkPool {
  queue : DistributedQueue P;
  workers : gmap nat Worker;
  heartbeats : gset TaskId;
  outside : W;
}.

(** [TaskExecutor::start]. *)
Definition start (worker_count : nat) q o : Pool :=
  mkPool q (gset_to_gmap Idle (set_seq 0 worker_count)) ∅ o.

(** Operations that others perform on the queue: submissions, replication, anti-entropy, and
    changes of the membership. *)
Definition foreign (op : QueueOp P) : Prop :=
  match op with OpStore _ _ _ | OpApply _ _ | OpView _ => True | _ => False end.

Inductive pool_step : Pool -> Pool -> Prop :=
  | step_poll w now q ws hb o :
      ws !! w = Some Idle ->
      pool_step (mkPool q ws hb o) (mkPool q (<[w := Scanning (my_pending_tasks now q)]> ws) hb o)
  | step_claimed w i e rest now q q' ws hb o :
      ws !! w = Some (Scanning ((i, e) :: rest)) -> try_claim_task i now q = (Ok true, q') ->
      pool_step (mkPool q ws hb o) (mkPool q' (<[w := Executing i (task e)]> ws) ({[i]} ∪ hb) o)
  | step_missed w i e rest now q q' ws hb o :
      ws !! w = Some (Scanning ((i, e) :: rest)) -> try_claim_task i now q = (Ok false, q') ->
      pool_step (mkPool q ws hb o) (mkPool q' (<[w := Scanning rest]> ws) hb o)
  | step_exhausted w q ws hb o :
      ws !! w = Some (Scanning []) ->
      pool_step (mkPool q ws hb o) (mkPool q (<[w := Idle]> ws) hb o)
  | step_finished w i t outcome q ws hb o o' :
      ws !! w = Some (Executing i t) -> execute_task t o = (outcome, o') ->
      pool_step (mkPool q ws hb o)
        (mkPool (complete_task i outcome q).2 (<[w := Idle]> ws) (hb ∖ {[i]}) o')
  | step_panicked w i t q ws hb o :
      (** The handler panics: the worker's task dies with it.  Its [JoinHandle] of the heartbeat is
          dropped, which detaches the heartbeat and does not stop it. *)
      ws !! w = Some (Executing i t) ->
      pool_step (mkPool q ws hb o) (mkPool q (delete w ws) hb o)
  | step_renewed i now q q' ws hb o :
      i ∈ hb -> renew_lease i now q = (Ok tt, q') ->
      pool_step (mkPool q ws hb o) (mkPool q' ws hb o)
  | step_renewal_ends i now msg q q' ws hb o :
      i ∈ hb -> renew_lease i now q = (Err msg, q') ->
      pool_step (mkPool q ws hb o) (mkPool q' ws (hb ∖ {[i]}) o)
  | step_foreign op q ws hb o :
      foreign op -> pool_step (mkPool q ws hb o) (mkPool (perform op q) ws hb o).

(** Task [i] is [Running] in the queue. *)
Definition running (i : TaskId) q : Prop :=
  exists e, find_task i q = Some e /\ task_status e = Running.

(** What holds of a pool at all times. *)
Record pool_ok (s : Pool) : Prop := {
  ok_running w i t : workers s !! w = Some (Executing i t) ->
    running i (queue s) /\ i ∈ heartbeats s;
  ok_exclusive w w' i t t' : workers s !! w = Some (Executing i t) ->
    workers s !! w' = Some (Executing i t') -> w = w';
}.

Lemma running_grows i q q' :
  (forall e, find_task i q = Some e -> find_task i q' = Some e) -> running i q -> running i q'.
Proof. intros Hf (e & He & Hs). exists e. auto. Qed.

Lemma foreign_find op q i e :
  foreign op -> find_task i q = Some e -> find_task i (perform op q) = Some e.
Proof.
  intros Hf He. rewrite find_task_lookup in *.
  destruct op as [p j e'|p es|j now|j now|j r|m]; [| |by destruct Hf..|].
  - simpl. by rewrite lookup_store, He.
  - simpl. by apply apply_keeps.
  - cbn [perform partitioner]. by rewrite (get_partition_ext _ (partitioner q)).
Qed.

Lemma claimed_running i now q q' :
  try_claim_task i now q = (Ok true, q') ->
  ~ running i q /\ running i q' /\ forall j, j <> i -> find_task j q' = find_task j q.
Proof.
  intros Hc. apply claim_ok in Hc as (Hn & _ & e & He & ->). split_and!.
  - intros (e' & He' & Hs). apply Hn. exists e'. rewrite Hs. split; [done|]. simpl. lia.
  - eexists. split; [apply find_write; by rewrite He|done].
  - intros j Hj. apply write_other; [by auto|by rewrite He].
Qed.

Lemma missed_same i now q q' : try_claim_task i now q = (Ok false, q') -> q' = q.
Proof.
  unfold try_claim_task. destruct (find_task i q); [case_decide|]; by intros [= <-].
Qed.

Lemma renew_running i now q r q' j :
  renew_lease i now q = (r, q') -> running j q -> running j q'.
Proof.
  unfold renew_lease. destruct (find_task i q) as [e|] eqn:Ef; [|by intros [= <- <-]].
  case_decide as Hs; intros [= <- <-]; [|done]. intros (e' & He' & Hs').
  destruct (decide (j = i)) as [->|Hj].
  - eexists. split; [apply find_write; by rewrite Ef|done].
  - exists e'. rewrite write_other by (auto || by rewrite Ef). done.
Qed.

Lemma complete_other i r q j : j <> i -> find_task j (complete_task i r q).2 = find_task j q.
Proof.
  intros Hj. unfold complete_task. destruct (find_task i q) as [e|] eqn:Ef; [|done].
  simpl. apply write_other; [by auto|by rewrite Ef].
Qed.

Lemma pool_ok_idle q ws hb o q' ws' hb' o' :
  (forall w i t, ws' !! w = Some (Executing i t) ->
     ws !! w = Some (Executing i t) /\ (running i q -> running i q') /\ (i ∈ hb -> i ∈ hb')) ->
  pool_ok (mkPool q ws hb o) -> pool_ok (mkPool q' ws' hb' o').
Proof.
  intros Hs [H1 H2]. split; simpl in *.
  - intros w i t Hw. destruct (Hs w i t Hw) as (Hw' & Hr & Hh).
    destruct (H1 w i t Hw') as [? ?]. auto.
  - intros w w' i t t' Hw Hw'. destruct (Hs w i t Hw) as (Hw1 & _).
    destruct (Hs w' i t' Hw') as (Hw2 & _). by eapply H2.
Qed.

Lemma lookup_insert_executing (ws : gmap nat Worker) w x w' i t :
  <[w := x]> ws !! w' = Some (Executing i t) ->
  (forall i t, x <> Executing i t) -> w' <> w /\ ws !! w' = Some (Executing i t).
Proof.
  intros Hl Hx. destruct (decide (w' = w)) as [->|Hne].
  - rewrite lookup_insert_eq in Hl. injection Hl as ->. by destruct (Hx i t).
  - by rewrite lookup_insert_ne in Hl.
Qed.

Lemma pool_step_ok s s' : pool_step s s' -> pool_ok s -> pool_ok s'.
Proof.
  intros Hst Hok. destruct Hst as [w now q ws hb o Hw|w i e rest now q q' ws hb o Hw Hc
    |w i e rest now q q' ws hb o Hw Hc|w q ws hb o Hw|w i t outcome q ws hb o o' Hw Hx
    |w i t q ws hb o Hw|i now q q' ws hb o Hi Hr|i now msg q q' ws hb o Hi Hr|op q ws hb o Hf].
  - eapply pool_ok_idle; [|exact Hok]. intros w' i t [_ Hl]%lookup_insert_executing; [|done]. auto.
  - apply claimed_running in Hc as (Hn & Hr & Hother). destruct Hok as [H1 H2]. simpl in *.
    split; simpl.
    + intros w' j t Hl. destruct (decide (w' = w)) as [->|Hne].
      * rewrite lookup_insert_eq in Hl. injection Hl as <- <-. split; [done|set_solver].
      * rewrite lookup_insert_ne in Hl by done. destruct (H1 w' j t Hl) as [Hj ?].
        split; [|set_solver]. assert (j <> i) by (by intros ->).
        revert Hj. apply running_grows. intros e0. by rewrite Hother.
    + intros w1 w2 j t1 t2 Hl1 Hl2.
      destruct (decide (w1 = w)) as [->|Hne1], (decide (w2 = w)) as [->|Hne2]; [done|..];
        rewrite ?lookup_insert_eq, ?lookup_insert_ne in * by done; simplify_eq.
      * by destruct (H1 w2 _ _ Hl2) as [? _].
      * by destruct (H1 w1 _ _ Hl1) as [? _].
      * by eapply H2.
  - apply missed_same in Hc as ->. eapply pool_ok_idle; [|exact Hok].
    intros w' j t [_ Hl]%lookup_insert_executing; [|done]. auto.
  - eapply pool_ok_idle; [|exact Hok]. intros w' i t [_ Hl]%lookup_insert_executing; [|done]. auto.
  - eapply pool_ok_idle; [|exact Hok].
    intros w' j t' [Hne Hl]%lookup_insert_executing; [|done].
    assert (j <> i) as Hj.
    { intros ->. apply Hne. by apply (ok_exclusive _ Hok w' w i t' t). }
    split_and!; [done| |set_solver]. apply running_grows. intros e. by rewrite complete_other.
  - eapply pool_ok_idle; [|exact Hok]. intros w' j t' Hl.
    rewrite lookup_delete_Some in Hl. tauto.
  - eapply pool_ok_idle; [|exact Hok]. intros w' j t Hl. split_and!; [done| |done].
    by eapply renew_running.
  - destruct Hok as [H1 H2]. simpl in *.
    assert (forall w j t, ws !! w = Some (Executing j t) -> j <> i) as Hj.
    { intros w j t Hl ->. destruct (H1 w i t Hl) as [(e & He & Hs) _].
      unfold renew_lease in Hr. rewrite He, decide_True in Hr by done. done. }
    split; simpl; [|done]. intros w j t Hl. destruct (H1 w j t Hl) as [? ?].
    pose proof (Hj w j t Hl). split; [by eapply renew_running|set_solver].
  - eapply pool_ok_idle; [|exact Hok]. intros w' j t Hl. split_and!; [done| |done].
    apply running_grows. intros e. by apply foreign_find.
Qed.

Lemma start_ok n q o : pool_ok (start n q o).
Proof.
  split; simpl.
  - intros w i t [_ [=]]%lookup_gset_to_gmap_Some.
  - intros w w' i t t' [_ [=]]%lookup_gset_to_gmap_Some.
Qed.

Lemma pool_reachable_ok s s' : rtc pool_step s s' -> pool_ok s -> pool_ok s'.
Proof. induction 1; eauto using pool_step_ok. Qed.

(** C35: workers exclude each other.  However the workers, heartbeats, panics, submissions and
    anti-entropy of a node interleave, no two workers of a node execute the same task, and a task being executed is
    [Running] in the queue with its heartbeat on. *)
Theorem workers_exclusive n q o s :
  rtc pool_step (start n q o) s ->
  (forall w w' i t t', workers s !! w = Some (Executing i t) ->
     workers s !! w' = Some (Executing i t') -> w = w') /\
  (forall w i t, workers s !! w = Some (Executing i t) ->
     running i (queue s) /\ i ∈ heartbeats s).
Proof.
  intros Hr. pose proof (pool_reachable_ok _ _ Hr (start_ok n q o)) as [H1 H2]. by split.
Qed.

(** A task that nobody executes any more, whose heartbeat goes on. *)
Definition orphaned (i : TaskId) (s : Pool) : Prop :=
  running i (queue s) /\ i ∈ heartbeats s /\
  forall w t, workers s !! w <> Some (Executing i t).

Lemma orphaned_step i s s' : pool_step s s' -> orphaned i s -> orphaned i s'.
Proof.
  intros Hst (Hr & Hh & Hw). unfold orphaned.
  destruct Hst as [w now q ws hb o Hl|w j e rest now q q' ws hb o Hl Hc
    |w j e rest now q q' ws hb o Hl Hc|w q ws hb o Hl|w j t outcome q ws hb o o' Hl Hx
    |w j t q ws hb o Hl|j now q q' ws hb o Hj Hn|j now msg q q' ws hb o Hj Hn|op q ws hb o Hf];
    simpl in *.
  - split_and!; [done..|]. intros w' t [_ Hl']%lookup_insert_executing; [|done]. by apply (Hw w' t).
  - apply claimed_running in Hc as (Hnr & Hr' & Hother).
    assert (i <> j) as Hij by (by intros ->).
    split_and!; [|set_solver|].
    + revert Hr. apply running_grows. intros e0. by rewrite Hother.
    + intros w' t Hl'. destruct (decide (w' = w)) as [->|Hne].
      * rewrite lookup_insert_eq in Hl'. by simplify_eq.
      * rewrite lookup_insert_ne in Hl' by done. by apply (Hw w' t).
  - apply missed_same in Hc as ->. split_and!; [done..|].
    intros w' t [_ Hl']%lookup_insert_executing; [|done]. by apply (Hw w' t).
  - split_and!; [done..|]. intros w' t [_ Hl']%lookup_insert_executing; [|done]. by apply (Hw w' t).
  - assert (i <> j) as Hij by (intros ->; by apply (Hw w t)).
    split_and!; [|set_solver|].
    + revert Hr. apply running_grows. intros e0. by rewrite complete_other.
    + intros w' t' [_ Hl']%lookup_insert_executing; [|done]. by apply (Hw w' t').
  - split_and!; [done..|]. intros w' t'. rewrite lookup_delete_Some. intros [_ ?].
    by apply (Hw w' t').
  - split_and!; [|done..]. by eapply renew_running.
  - assert (i <> j) as Hij.
    { intros ->. destruct Hr as (e & He & Hs). unfold renew_lease in Hn.
      rewrite He, decide_True in Hn by done. done. }
    split_and!; [by eapply renew_running|set_solver|done].
  - split_and!; [|done..]. revert Hr. apply running_grows. intros e0. by apply foreign_find.
Qed.

(** A panic strands its task.  When a handler panics, its worker is gone but the heartbeat
    keeps renewing the lease: in every later state the task is still [Running], its heartbeat is
    still on, no worker executes it, and no claim of it can succeed. *)
Theorem panicked_task_stranded n q o s w i t s' now :
  rtc pool_step (start n q o) s -> workers s !! w = Some (Executing i t) ->
  rtc pool_step (mkPool (queue s) (delete w (workers s)) (heartbeats s) (outside s)) s' ->
  running i (queue s') /\ i ∈ heartbeats s' /\
  (forall w t, workers s' !! w <> Some (Executing i t)) /\
  (try_claim_task i now (queue s')).1 = Ok false.
Proof.
  intros Hr Hw Hs'. pose proof (pool_reachable_ok _ _ Hr (start_ok n q o)) as [H1 H2].
  assert (orphaned i s') as (Hrun & Hh & Hno).
  { assert (forall s1 s2, rtc pool_step s1 s2 -> orphaned i s1 -> orphaned i s2) as Hall
      by (induction 1; eauto using orphaned_step).
    apply (Hall _ _ Hs'). destruct (H1 w i t Hw) as [? ?]. split_and!; [done..|]. simpl.
    intros w' t'. rewrite lookup_delete_Some. intros [Hne Hl]. apply Hne. by eapply H2. }
  split_and!; [done..|]. destruct Hrun as (e & He & Hst). unfold try_claim_task.
  rewrite He, decide_True; [done|congruence].
Qed.
End worker.
End executor.

(** ** Examples: one node, one task, two workers *)
Module Example.
Import Queue.Example.

Definition handlers : TaskHandlerRegistry (P := unit) (W := unit) :=
  register "index_document" (fun _ => st_ret (Ok tt)) registry_new.
Definition t0 : TaskId := mkTaskId "t".
Definition one_task : DistributedQueue unit := alone Pending None.

Lemma polled : my_pending_tasks 1000 one_task = [(t0, entry Pending None)].
Proof. vm_compute. reflexivity. Qed.

(** Worker 0 has polled and claimed the task; worker 1 has polled it too. *)
Definition claimed_pool : Pool :=
  mkPool (try_claim_task t0 1001 one_task).2
    (<[0%nat := Executing t0 (task (entry Pending None))]>
      (<[1%nat := Scanning [(t0, entry Pending None)]]>
        (<[0%nat := Scanning [(t0, entry Pending None)]]> (workers (start 2 one_task tt)))))
    ({[t0]} ∪ ∅) tt.

Lemma claimed_reachable : rtc (pool_step handlers) (start 2 one_task tt) claimed_pool.
Proof.
  eapply rtc_l. { apply (step_poll handlers 0%nat 1000). reflexivity. }
  eapply rtc_l. { apply (step_poll handlers 1%nat 1000). reflexivity. }
  rewrite polled. eapply rtc_l; [|apply rtc_refl].
  apply (step_claimed handlers 0%nat t0 (entry Pending None) [] 1001); [reflexivity|].
  unfold try_claim_task, one_task, t0. rewrite alone_find. reflexivity.
Qed.

Lemma claimed_executing :
  workers claimed_pool !! 0%nat = Some (Executing t0 (Execute "index_document" tt)).
Proof. reflexivity. Qed.

Lemma one_waiting : waiting t0 one_task /\ find_task t0 one_task = Some (entry Pending None).
Proof. split; [split; [eexists; split|]|]; vm_compute; reflexivity. Qed.


Lemma workers_exclusive_witness :
  running t0 (queue claimed_pool) /\ t0 ∈ heartbeats claimed_pool.
Proof.
  destruct (workers_exclusive handlers 2 one_task tt claimed_pool claimed_reachable) as [_ Hr].
  exact (Hr 0%nat t0 _ claimed_executing).
Defined.

(** Worker 0 panics; the heartbeat renews the lease 10 seconds later. *)
Lemma panicked_task_stranded_witness :
  let crashed := mkPool (queue claimed_pool) (delete 0%nat (workers claimed_pool))
                   (heartbeats claimed_pool) (outside claimed_pool) in
  running t0 (queue crashed) /\ (try_claim_task t0 99000 (queue crashed)).1 = Ok false.
Proof.
  intros crashed.
  destruct (panicked_task_stranded handlers 2 one_task tt claimed_pool 0%nat t0
    (Execute "index_document" tt) crashed 99000 claimed_reachable claimed_executing
    (rtc_refl _ _)) as (Hr & _ & _ & Hc).
  split; [exact Hr|exact Hc].
Defined.
End Example.
