(* ===== verification/Text.v ===== *)
(** * Text: the string functions that search and ingestion use

    A Rust [str] is a sequence of Unicode scalar values, here a list of numbers; [utf8] gives its
    bytes, on which lengths are measured and under which it is a key of a map.  What the standard
    library knows about single characters beyond ASCII comes from the Unicode tables: [Unicode] is
    the interface to them, with the facts about ASCII that the program relies on as its laws. *)

From S2P Require Import Prelude.
From Stdlib Require Import Ascii.

#[local] Open Scope Z_scope.

Definition text : Type := list Z.

(** ** Encoding *)

(** [char::len_utf8]. *)
Definition len_utf8 (c : Z) : nat :=
  if bool_decide (c < 128) then 1
  else if bool_decide (c < 2048) then 2
  else if bool_decide (c < 65536) then 3 else 4.

(** [str::len]. *)
Definition len (t : text) : nat := sum_list (len_utf8 <$> t).

Definition byte (x : Z) : ascii := ascii_of_N (Z.to_N x).

Definition encode_char (c : Z) : string :=
  if bool_decide (c < 128) then String (byte c) ""
  else if bool_decide (c < 2048) then
    String (byte (192 + Z.shiftr c 6)) (String (byte (128 + Z.land c 63)) "")
  else if bool_decide (c < 65536) then
    String (byte (224 + Z.shiftr c 12)) (String (byte (128 + Z.land (Z.shiftr c 6) 63))
      (String (byte (128 + Z.land c 63)) ""))
  else
    String (byte (240 + Z.shiftr c 18)) (String (byte (128 + Z.land (Z.shiftr c 12) 63))
      (String (byte (128 + Z.land (Z.shiftr c 6) 63)) (String (byte (128 + Z.land c 63)) ""))).

Definition utf8 (t : text) : string := foldr (fun c s => String.append (encode_char c) s) "" t.

(** A literal of ASCII characters. *)
Fixpoint ascii_text (s : string) : text :=
  match s with
  | EmptyString => []
  | String a s' => Z.of_N (N_of_ascii a) :: ascii_text s'
  end.

(** ** Characters *)

(** [char::is_whitespace]: the property White_Space. *)
Definition is_whitespace (c : Z) : bool :=
  bool_decide (9 <= c <= 13 \/ c = 32 \/ c = 133 \/ c = 160 \/ c = 5760 \/ 8192 <= c <= 8202 \/
               c = 8232 \/ c = 8233 \/ c = 8239 \/ c = 8287 \/ c = 12288).

Definition is_ascii_lower (c : Z) : bool := bool_decide (97 <= c <= 122).
Definition is_ascii_upper (c : Z) : bool := bool_decide (65 <= c <= 90).
Definition is_ascii_digit (c : Z) : bool := bool_decide (48 <= c <= 57).
Definition is_ascii_alphabetic (c : Z) : bool := is_ascii_lower c || is_ascii_upper c.

(** The Unicode tables: [char::is_alphanumeric] and [str::to_lowercase]. *)
Class Unicode := {
  is_alphanumeric : Z -> bool;
  to_lowercase : text -> text;
}.

Class UnicodeLaws `{Unicode} : Prop := {
  alphanumeric_ascii c : 0 <= c < 128 ->
    is_alphanumeric c = is_ascii_alphabetic c || is_ascii_digit c;
  whitespace_not_alphanumeric c : is_whitespace c = true -> is_alphanumeric c = false;
  lowercase_no_upper t c : c ∈ to_lowercase t -> is_ascii_upper c = false;
  lowercase_ascii t : Forall (fun c => 0 <= c < 128) t ->
    to_lowercase t = (fun c => if is_ascii_upper c then c + 32 else c) <$> t;
}.

(** The regular expressions of the program: all matches of [\b[a-zA-Z]+\b], and the first match of
    [\d{4}]. *)
Class Regexes := {
  match_words : text -> list text;
  match_digits4 : text -> option text;
}.
Class RegexLaws `{Regexes} : Prop := {
  match_words_alphabetic t w : w ∈ match_words t ->
    w <> [] /\ Forall (fun c => is_ascii_alphabetic c = true) w;
  match_words_occurs t w : w ∈ match_words t -> exists before after, t = before ++ w ++ after;
  match_digits4_occurs t m : match_digits4 t = Some m ->
    length m = 4%nat /\ exists before after, t = before ++ m ++ after;
}.

(** ** Strings *)

Fixpoint drop_while (f : Z -> bool) (t : text) : text :=
  match t with
  | [] => []
  | c :: t' => if f c then drop_while f t' else t
  end.

(** [str::trim_matches] for a set of characters, and [str::trim]. *)
Definition trim_matches (f : Z -> bool) (t : text) : text :=
  reverse (drop_while f (reverse (drop_while f t))).
Definition trim (t : text) : text := trim_matches is_whitespace t.

(** [str::split_whitespace]: [word] is the word read so far, backwards. *)
Fixpoint split_ws (word : text) (t : text) : list text :=
  match t with
  | [] => match word with [] => [] | _ => [reverse word] end
  | c :: t' =>
      if is_whitespace c
      then match word with [] => split_ws [] t' | _ => reverse word :: split_ws [] t' end
      else split_ws (c :: word) t'
  end.
Definition split_whitespace (t : text) : list text := split_ws [] t.

(** [str::starts_with], and what is left after the prefix. *)
Fixpoint strip_prefix (p t : text) : option text :=
  match p, t with
  | [], _ => Some t
  | a :: p', b :: t' => if decide (a = b) then strip_prefix p' t' else None
  | _ :: _, [] => None
  end.

(** [str::find] of a pattern: what precedes its first occurrence. *)
Fixpoint find (p t : text) : option text :=
  match strip_prefix p t with
  | Some _ => Some []
  | None => match t with
            | [] => None
            | c :: t' => (fun before => c :: before) <$> find p t'
            end
  end.

(** [str::lines]: split at line feeds, a final one ending the last line, with a carriage return
    before the line feed removed. *)
Definition strip_cr (line_rev : text) : text :=
  match line_rev with 13 :: l => reverse l | _ => reverse line_rev end.
Fixpoint lines_from (line_rev : text) (t : text) : list text :=
  match t with
  | [] => match line_rev with [] => [] | _ => [reverse line_rev] end
  | c :: t' => if decide (c = 10) then strip_cr line_rev :: lines_from [] t'
               else lines_from (c :: line_rev) t'
  end.
Definition lines (t : text) : list text := lines_from [] t.

(** ** Lemmas *)

Lemma strip_prefix_Some p t r : strip_prefix p t = Some r <-> t = p ++ r.
Proof.
  revert t. induction p as [|a p IH]; intros t; simpl.
  - split; [by intros [= ->]|by intros ->].
  - destruct t as [|b t]; [done|]. case_decide as Hab.
    + subst. rewrite IH. split; [by intros ->|by intros [= ->]].
    + split; [done|by intros [= ->]].
Qed.

Lemma strip_prefix_app p t : strip_prefix p (p ++ t) = Some t.
Proof. by apply strip_prefix_Some. Qed.

(** The first occurrence: the pattern occurs there and nowhere before. *)
Lemma find_Some p t before :
  find p t = Some before <->
  (exists after, t = before ++ p ++ after) /\
  (forall before' after', t = before' ++ p ++ after' -> (length before <= length before')%nat).
Proof.
  revert before. induction t as [|c t IH]; intros before; simpl.
  - destruct (strip_prefix p []) as [r|] eqn:E.
    + apply strip_prefix_Some in E. destruct p; [|done]. simpl in E. subst. split.
      * intros [= <-]. split; [by exists []|]. simpl. lia.
      * intros [[after Ha] _]. by destruct before.
    + split; [done|]. intros [[after Ha] _]. destruct before; [|done].
      destruct p; [done|]. done.
  - destruct (strip_prefix p (c :: t)) as [r|] eqn:E.
    + apply strip_prefix_Some in E. split.
      * intros [= <-]. split; [by exists r|]. simpl. lia.
      * intros [_ Hmin]. specialize (Hmin [] r E). destruct before; [done|simpl in Hmin; lia].
    + assert (forall before after, c :: t = before ++ p ++ after ->
                exists b', before = c :: b' /\ t = b' ++ p ++ after) as Hcons.
      { intros [|b before'] after Heq.
        - simpl in Heq. assert (strip_prefix p (c :: t) = Some after) by (by apply strip_prefix_Some).
          congruence.
        - injection Heq as <- Heq. by exists before'. }
      destruct (find p t) as [b|] eqn:Ef; simpl.
      * destruct (proj1 (IH b) eq_refl) as [[after Ha] Hmin]. split.
        -- intros [= <-]. split; [exists after; by rewrite Ha|].
           intros before' after' (b' & -> & Ht)%Hcons. simpl. specialize (Hmin b' after' Ht). lia.
        -- intros [[after' (b' & -> & Ht)%Hcons] Hmin']. do 2 f_equal.
           assert (length b = length b') as Hlen.
           { specialize (Hmin b' after' Ht).
             specialize (Hmin' (c :: b) after ltac:(by rewrite Ha)). simpl in Hmin'. lia. }
           rewrite Ha in Ht. by apply app_inj_1 in Ht as [? _].
      * split; [done|]. intros [[after (b' & -> & Ht)%Hcons] Hmin].
        assert (None = Some b') as [=]. apply IH. split; [by exists after|].
        intros before' after' Ht'. specialize (Hmin (c :: before') after' ltac:(by rewrite Ht')).
        simpl in Hmin. lia.
Qed.

Lemma find_None p t : find p t = None <-> forall before after, t <> before ++ p ++ after.
Proof.
  split.
  - revert t. intros t Hn before after ->.
    revert Hn. induction before as [|c before IH]; simpl.
    + destruct (p ++ after) eqn:E; simpl; rewrite <- E, strip_prefix_app; done.
    + destruct (strip_prefix p _); [done|]. destruct (find p (before ++ p ++ after)); [done|].
      by intros _; apply IH.
  - intros Hn. destruct (find p t) as [b|] eqn:E; [|done].
    apply find_Some in E as [[after ->] _]. by destruct (Hn b after).
Qed.

Lemma drop_while_suffix f t : exists d, t = d ++ drop_while f t /\ Forall (fun c => f c = true) d.
Proof.
  induction t as [|c t (d & Ht & Hd)]; simpl; [by exists []|].
  destruct (f c) eqn:Hc; [|by exists []]. exists (c :: d). split; [simpl; congruence|].
  by constructor.
Qed.

Lemma drop_while_head f t c t' : drop_while f t = c :: t' -> f c = false.
Proof.
  induction t as [|x t IH]; simpl; [done|]. destruct (f x) eqn:Hx; [done|]. by intros [= <- <-].
Qed.

(** A trimmed string is what is left in the middle, with nothing to trim at either end. *)
Lemma trim_matches_spec f t :
  exists l r, t = l ++ trim_matches f t ++ r /\
    Forall (fun c => f c = true) l /\ Forall (fun c => f c = true) r /\
    (forall c, head (trim_matches f t) = Some c -> f c = false) /\
    (forall c, last (trim_matches f t) = Some c -> f c = false).
Proof.
  unfold trim_matches. destruct (drop_while_suffix f t) as (l & Ht & Hl).
  set (u := drop_while f t) in *.
  destruct (drop_while_suffix f (reverse u)) as (r & Hu & Hr).
  set (v := drop_while f (reverse u)) in *.
  assert (u = reverse v ++ reverse r) as Hu'.
  { rewrite <- reverse_app, <- Hu. by rewrite reverse_involutive. }
  exists l, (reverse r). split_and!; [by rewrite <- Hu'|done|by apply Forall_reverse| |].
  - intros c Hc. destruct (reverse v) as [|x v'] eqn:Ev; [done|]. injection Hc as ->.
    simpl in Hu'. by apply (drop_while_head f t c (v' ++ reverse r)).
  - intros c Hc. rewrite last_reverse in Hc. destruct v as [|x v'] eqn:Ev; [done|].
    injection Hc as ->. by apply (drop_while_head f (reverse u) c v').
Qed.

(** Words are not empty and hold no white space. *)
Lemma split_ws_spec word t w :
  Forall (fun c => is_whitespace c = false) word -> w ∈ split_ws word t ->
  w <> [] /\ Forall (fun c => is_whitespace c = false) w.
Proof.
  revert word. induction t as [|c t IH]; intros word Hword Hw; simpl in Hw.
  - destruct word as [|x word]; [by apply elem_of_nil in Hw|].
    apply list_elem_of_singleton in Hw as ->. split; [|by apply Forall_reverse].
    intros Hn. apply (f_equal reverse) in Hn. by rewrite reverse_involutive in Hn.
  - destruct (is_whitespace c) eqn:Hc; [|by apply (IH (c :: word)); [constructor|]].
    destruct word as [|x word]; [by apply (IH [])|].
    apply elem_of_cons in Hw as [->|Hw]; [|by apply (IH [])].
    split; [|by apply Forall_reverse].
    intros Hn. apply (f_equal reverse) in Hn. by rewrite reverse_involutive in Hn.
Qed.

Lemma split_ws_word word t :
  Forall (fun c => is_whitespace c = false) t -> word <> [] \/ t <> [] ->
  split_ws word t = [reverse word ++ t].
Proof.
  revert word. induction t as [|c t IH]; intros word Ht Hne; simpl.
  - destruct word; [naive_solver|]. by rewrite app_nil_r.
  - apply Forall_cons in Ht as [Hc Ht]. rewrite Hc, IH by (done || by left).
    by rewrite reverse_cons, <- app_assoc.
Qed.

Lemma drop_while_id f t : Forall (fun c => f c = false) t -> drop_while f t = t.
Proof. destruct t as [|c t]; [done|]. intros [Hc _]%Forall_cons. simpl. by rewrite Hc. Qed.

(** A string with nothing to trim. *)
Lemma trim_matches_id f t : Forall (fun c => f c = false) t -> trim_matches f t = t.
Proof.
  intros Ht. unfold trim_matches. rewrite (drop_while_id f t Ht).
  rewrite drop_while_id by (by apply Forall_reverse). apply reverse_involutive.
Qed.

Lemma ascii_alphabetic_range c :
  is_ascii_alphabetic c = true -> 65 <= c <= 122.
Proof.
  unfold is_ascii_alphabetic, is_ascii_lower, is_ascii_upper.
  intros [?%bool_decide_eq_true|?%bool_decide_eq_true]%orb_true_iff; lia.
Qed.

(** Different words of letters are different keys. *)
Lemma utf8_letter c t : is_ascii_alphabetic c = true -> utf8 (c :: t) = String (byte c) (utf8 t).
Proof.
  intros Hc%ascii_alphabetic_range. change (utf8 (c :: t)) with (String.append (encode_char c) (utf8 t)).
  unfold encode_char. by rewrite bool_decide_eq_true_2 by lia.
Qed.

Lemma utf8_letters_inj a b :
  Forall (fun c => is_ascii_alphabetic c = true) a -> Forall (fun c => is_ascii_alphabetic c = true) b ->
  utf8 a = utf8 b -> a = b.
Proof.
  intros Ha. revert b. induction Ha as [|x a Hx Ha IH]; intros b Hb.
  { destruct Hb as [|y b Hy _]; [done|]. rewrite utf8_letter by done. done. }
  rewrite utf8_letter by done. destruct Hb as [|y b Hy Hb]; [done|]. rewrite utf8_letter by done.
  intros [= Hxy Hab]. f_equal; [|by apply IH].
  apply ascii_alphabetic_range in Hx, Hy. unfold byte in Hxy. apply (f_equal N_of_ascii) in Hxy.
  rewrite !N_ascii_embedding in Hxy by lia. lia.
Qed.

Lemma ascii_alphabetic_not_space c : is_ascii_alphabetic c = true -> is_whitespace c = false.
Proof.
  intros Hc%ascii_alphabetic_range. unfold is_whitespace. apply bool_decide_eq_false. lia.
Qed.

(** ** A concrete instance, for examples *)

Module Ascii.
(** ASCII letters only; a word is a maximal run of letters, digits and underscores. *)
#[export] Instance ascii_unicode : Unicode := {
  is_alphanumeric c := is_ascii_alphabetic c || is_ascii_digit c;
  to_lowercase t := (fun c => if is_ascii_upper c then c + 32 else c) <$> t;
}.
#[export] Instance ascii_unicode_laws : UnicodeLaws.
Proof.
  split; simpl; [done| | |done].
  2:{ intros t c (x & -> & _)%list_elem_of_fmap. unfold is_ascii_upper at 1.
      destruct (is_ascii_upper x) eqn:Hx; [|exact Hx]. unfold is_ascii_upper in Hx.
      apply bool_decide_eq_true in Hx. apply bool_decide_eq_false. lia. }
  intros c. unfold is_whitespace, is_ascii_alphabetic, is_ascii_lower,
    is_ascii_upper, is_ascii_digit. rewrite bool_decide_eq_true. intros Hw.
  repeat (rewrite bool_decide_eq_false_2 by lia). done.
Qed.

Definition is_word (c : Z) : bool :=
  is_ascii_alphabetic c || is_ascii_digit c || bool_decide (c = 95).
Fixpoint runs (word : text) (t : text) : list text :=
  match t with
  | [] => [reverse word]
  | c :: t' => if is_word c then runs (c :: word) t' else reverse word :: runs [] t'
  end.
Lemma runs_occur word t w : w ∈ runs word t ->
  exists before after, reverse word ++ t = before ++ w ++ after.
Proof.
  revert word. induction t as [|c t IH]; intros word; simpl.
  - intros ->%list_elem_of_singleton. by exists [], [].
  - destruct (is_word c).
    + intros (b & a & Heq)%IH. exists b, a. by rewrite <- Heq, reverse_cons, <- app_assoc.
    + intros [->|Hw]%elem_of_cons; [by exists [], (c :: t)|].
      destruct (IH [] Hw) as (b & a & Heq). exists (reverse word ++ c :: b), a.
      simpl in Heq. rewrite Heq. by rewrite <- app_assoc.
Qed.
Fixpoint first_digits4 (t : text) : option text :=
  match t with
  | [] => None
  | _ :: t' => if bool_decide (length (take 4 t) = 4%nat) && forallb is_ascii_digit (take 4 t)
               then Some (take 4 t) else first_digits4 t'
  end.
#[export] Instance ascii_regexes : Regexes := {
  match_words t := filter (fun w => w <> [] /\ Forall (fun c => is_ascii_alphabetic c = true) w)
                     (runs [] t);
  match_digits4 := first_digits4;
}.
#[export] Instance ascii_regexes_laws : RegexLaws.
Proof.
  split; simpl.
  - by intros t w [? _]%list_elem_of_filter.
  - intros t w [_ Hw]%list_elem_of_filter. exact (runs_occur [] t w Hw).
  - intros t m. induction t as [|c t IH]; [done|]. cbn [first_digits4].
    destruct (bool_decide (length (take 4 (c :: t)) = 4%nat) && _) eqn:Hb; intros Hm.
    + apply andb_true_iff in Hb as [Hl%bool_decide_eq_true _]. injection Hm as <-.
      split; [exact Hl|]. exists [], (drop 4 (c :: t)). symmetry. apply (take_drop 4 (c :: t)).
    + destruct (IH Hm) as [Hl (b & a & ->)]. split; [done|]. by exists (c :: b), a.
Qed.
End Ascii.
