(* ===== verification/Documents.v ===== *)
(** * Documents: src/search/types.rs and src/ingestion/types.rs, and the site they live on

    The data that search, ingestion and indexing share, and [Site], the four distributed components
    their handlers are given by main.rs. *)

From S2P Require Import Prelude Membership Partitioner Net Topology Text.
From S2P Require Storage StorageNet Queue QueueNet.

#[local] Open Scope Z_scope.

(** ** src/search/types.rs *)

Record BookMetadata := mkBook {
  bm_book_id : text; bm_title : text; bm_author : text; bm_language : text;
  bm_year : option Z; bm_word_count : nat; bm_unique_words : nat }.

Record SearchResultItem := mkItem {
  item_book_id : text; item_title : text; item_author : text; item_score : nat }.
Record SearchResponse := mkSearchResponse {
  sr_query : text; sr_filters : gmap string string; sr_total_count : nat; sr_count : nat;
  sr_results : list SearchResultItem }.

(** ** src/ingestion/types.rs *)

Record RawDocument := mkRaw {
  rd_book_id : text; rd_header : text; rd_body : text; rd_source_url : text }.
Record IngestResponse := mkIngest { ir_book_id : text; ir_status : string; ir_source_url : text }.
Record IngestStatusResponse := mkIngestStatus { is_book_id : text; is_status : string }.
Record IndexTaskPayload := mkIndexTask { it_book_id : text }.

(** [serde_json::Value], as far as the program looks into it: what [from_value] reads as an
    [IndexTaskPayload], or some JSON that it refuses.  [/task/submit] accepts both. *)
Inductive Value := IndexTask (payload : IndexTaskPayload) | OtherJson (json : string).

Definition to_value (payload : IndexTaskPayload) : Value := IndexTask payload.
Definition from_value (v : Value) : result IndexTaskPayload :=
  match v with IndexTask payload => Ok payload | OtherJson _ => Err "from_value failed" end.

(** ** The site *)

(** The components a handler is given.  Each has its own script of faults, ids and clock readings. *)
Record Site := mkSite {
  datalake : World (Storage.DistributedMap string RawDocument);
  books : World (Storage.DistributedMap string BookMetadata);
  index_map : World (Storage.DistributedMap string (list text));
  tasks : World (Queue.DistributedQueue Value);
}.

Definition in_datalake {A} (m : ST (World (Storage.DistributedMap string RawDocument)) A)
    : ST Site A := fun s =>
  let '(a, w) := m (datalake s) in (a, mkSite w (books s) (index_map s) (tasks s)).
Definition in_books {A} (m : ST (World (Storage.DistributedMap string BookMetadata)) A)
    : ST Site A := fun s =>
  let '(a, w) := m (books s) in (a, mkSite (datalake s) w (index_map s) (tasks s)).
Definition in_index {A} (m : ST (World (Storage.DistributedMap string (list text))) A)
    : ST Site A := fun s =>
  let '(a, w) := m (index_map s) in (a, mkSite (datalake s) (books s) w (tasks s)).
Definition in_tasks {A} (m : ST (World (Queue.DistributedQueue Value)) A)
    : ST Site A := fun s =>
  let '(a, w) := m (tasks s) in (a, mkSite (datalake s) (books s) (index_map s) w).

Definition set_datalake w s := mkSite w (books s) (index_map s) (tasks s).
Definition set_books w s := mkSite (datalake s) w (index_map s) (tasks s).
Definition set_index w s := mkSite (datalake s) (books s) w (tasks s).
Definition set_tasks w s := mkSite (datalake s) (books s) (index_map s) w.

(** The task that ingestion and search submit. *)
Definition index_task (book_id : text) : Queue.Task Value :=
  Queue.Execute "index_document" (to_value (mkIndexTask book_id)).

Lemma in_datalake_eq {A} (m : ST _ A) s a w :
  m (datalake s) = (a, w) -> in_datalake m s = (a, set_datalake w s).
Proof. unfold in_datalake. by intros ->. Qed.
Lemma in_books_eq {A} (m : ST _ A) s a w :
  m (books s) = (a, w) -> in_books m s = (a, set_books w s).
Proof. unfold in_books. by intros ->. Qed.
Lemma in_index_eq {A} (m : ST _ A) s a w :
  m (index_map s) = (a, w) -> in_index m s = (a, set_index w s).
Proof. unfold in_index. by intros ->. Qed.
Lemma in_tasks_eq {A} (m : ST _ A) s a w :
  m (tasks s) = (a, w) -> in_tasks m s = (a, set_tasks w s).
Proof. unfold in_tasks. by intros ->. Qed.

(** Writing a component back as it was. *)
Lemma set_datalake_id s : set_datalake (datalake s) s = s.
Proof. by destruct s. Qed.
Lemma set_books_id s : set_books (books s) s = s.
Proof. by destruct s. Qed.
Lemma set_index_id s : set_index (index_map s) s = s.
Proof. by destruct s. Qed.

(** ** Encodings, for examples *)

#[export] Instance RawDocument_eq_dec : EqDecision RawDocument.
Proof. solve_decision. Defined.
#[export] Instance RawDocument_countable : Countable RawDocument.
Proof.
  refine (inj_countable' (fun d => (rd_book_id d, rd_header d, rd_body d, rd_source_url d))
    (fun '(i, h, b, u) => mkRaw i h b u) _). by intros [].
Defined.
#[export] Instance BookMetadata_eq_dec : EqDecision BookMetadata.
Proof. solve_decision. Defined.
#[export] Instance BookMetadata_countable : Countable BookMetadata.
Proof.
  refine (inj_countable' (fun b => (bm_book_id b, bm_title b, bm_author b, bm_language b,
      bm_year b, bm_word_count b, bm_unique_words b))
    (fun '(i, t, a, l, y, w, u) => mkBook i t a l y w u) _). by intros [].
Defined.
