(* ===== verification/Search.v ===== *)
(** * Search: src/search/tokenizer.rs, src/search/engine.rs and src/search/handlers.rs

    Tokenizing documents and queries, scoring and ranking over the distributed index, and the
    handlers.  The properties: the words of a document are the queries that find them; the ranking
    computed from an index and a book registry, whatever node answers; what pagination promises. *)

From S2P Require Import Prelude Membership Partitioner Net Topology Text Documents StorageSpec.
From S2P Require Storage StorageNet Queue QueueNet.

#[local] Open Scope Z_scope.
#[local] Existing Instances Storage.string_key Storage.string_key_laws
  StorageNet.DistributedMap_hosted Queue.DistributedQueue_hosted.

(** ** src/search/tokenizer.rs *)

Section tokenizer.
Context `{Unicode, Regexes}.

Definition tokenize_text (t : text) : gset text :=
  list_to_set (filter (fun word => (2 < len word)%nat) (match_words (to_lowercase t))).

Definition tokenize_query (query : text) : list text :=
  filter (fun word => word <> [])
    (trim_matches (fun c => negb (is_alphanumeric c)) <$>
       filter (fun word => (2 < len word)%nat) (split_whitespace (to_lowercase query))).
End tokenizer.

(** ** src/search/engine.rs *)

(** One more point for a book. *)
Definition bump (book_scores : gmap text nat) (book_id : text) : gmap text nat :=
  <[book_id := S (default O (book_scores !! book_id))]> book_scores.

(** [sort_by(|a, b| b.1.cmp(&a.1))], a stable sort. *)
Fixpoint insert_by_score {A} (x : A * nat) (l : list (A * nat)) : list (A * nat) :=
  match l with
  | [] => [x]
  | y :: l' => if bool_decide (y.2 <= x.2)%nat then x :: l else y :: insert_by_score x l'
  end.
Definition sort_by_score {A} (l : list (A * nat)) : list (A * nat) := foldr insert_by_score [] l.

(** ** src/search/handlers.rs *)

Record SearchParams := mkParams { q : text; limit : option nat; offset : option nat }.
Record CreateBookRequest := mkCreateBook {
  cb_title : text; cb_author : text; cb_language : text; cb_year : option Z }.
Record CreateBookResponse := mkCreated { created_book_id : text }.

Section engine.
Context `{Unicode, Regexes}.
Context `{!Storage.Serde (list text), !Storage.Serde BookMetadata}.
(** What the HTTP stack makes of a path segment, and the order in which a [HashMap] is iterated. *)
Context (path_segment : string -> option string) (hash_order : gmap text nat -> list (text * nat)).

(** The scoring loop of [search]. *)
Fixpoint score_tokens (self : SocketAddr) (tokens : list text) (book_scores : gmap text nat)
    : ST Site (gmap text nat) :=
  match tokens with
  | [] => st_ret book_scores
  | token :: rest =>
      found <- in_index (StorageNet.get path_segment self (utf8 token)) ;;
      score_tokens self rest
        (match found with Some book_index => foldl bump book_scores book_index | None => book_scores end)
  end.

(** The hydration loop of [search]. *)
Fixpoint hydrate (self : SocketAddr) (scored : list (text * nat))
    : ST Site (list (BookMetadata * nat)) :=
  match scored with
  | [] => st_ret []
  | (book_id, score) :: rest =>
      found <- in_books (StorageNet.get path_segment self (utf8 book_id)) ;;
      results <- hydrate self rest ;;
      st_ret (match found with Some metadata => (metadata, score) :: results | None => results end)
  end.

Definition search (self : SocketAddr) (query : text) : ST Site (list (BookMetadata * nat)) :=
  book_scores <- score_tokens self (tokenize_query query) ∅ ;;
  results <- hydrate self (hash_order book_scores) ;;
  st_ret (sort_by_score results).

Definition item (r : BookMetadata * nat) : SearchResultItem :=
  mkItem (bm_book_id r.1) (bm_title r.1) (bm_author r.1) r.2.

Definition handle_search (self : SocketAddr) (params : SearchParams) : ST Site SearchResponse :=
  found <- search self (q params) ;;
  let results := item <$> found in
  let limit := default 10%nat (limit params) in
  let offset := default O (offset params) in
  let page := take limit (drop offset results) in
  st_ret (mkSearchResponse (q params) ∅ (length results) (length page) page).

(** [handle_create_book]; the new id is read back as the text it is. *)
Definition handle_create_book (self : SocketAddr) (req : CreateBookRequest)
    : ST Site (Response CreateBookResponse) :=
  id <- in_books new_v4 ;;
  let book_id := ascii_text id in
  let book_meta := mkBook book_id (cb_title req) (cb_author req) (cb_language req) (cb_year req) 0 0 in
  stored <- in_books (StorageNet.put self (utf8 book_id) book_meta) ;;
  match stored with
  | Ok _ =>
      _ <- in_tasks (QueueNet.submit self (index_task book_id)) ;;
      st_ret (mkResponse CREATED (mkCreated book_id))
  | Err _ => st_ret (mkResponse INTERNAL_SERVER_ERROR (mkCreated book_id))
  end.
End engine.

(** ** Tokens *)

Section tokens.
Context {U : Unicode} {UL : UnicodeLaws} {R : Regexes} {RL : RegexLaws}.

Lemma elem_of_tokenize_text t w :
  w ∈ tokenize_text t <-> w ∈ match_words (to_lowercase t) /\ (2 < len w)%nat.
Proof. unfold tokenize_text. rewrite elem_of_list_to_set, list_elem_of_filter. tauto. Qed.

(** The words of a document consist of lower case letters. *)
Lemma tokenize_text_lower t w : w ∈ tokenize_text t -> Forall (fun c => is_ascii_lower c = true) w.
Proof.
  intros [Hw _]%elem_of_tokenize_text. destruct (match_words_alphabetic _ _ Hw) as [_ Halpha].
  destruct (match_words_occurs _ _ Hw) as (before & after & Heq).
  apply Forall_forall. intros c Hc. rewrite Forall_forall in Halpha.
  assert (is_ascii_upper c = false) as Hup.
  { apply (lowercase_no_upper t). rewrite Heq. set_solver. }
  specialize (Halpha c Hc). unfold is_ascii_alphabetic in Halpha.
  rewrite Hup, orb_false_r in Halpha. done.
Qed.

Lemma lower_word w :
  Forall (fun c => is_ascii_lower c = true) w ->
  to_lowercase w = w /\ Forall (fun c => is_whitespace c = false) w /\
  Forall (fun c => negb (is_alphanumeric c) = false) w.
Proof.
  intros Hw. assert (Forall (fun c => is_ascii_alphabetic c = true /\ 0 <= c < 128) w) as Ha.
  { eapply Forall_impl; [exact Hw|]. intros c Hc. simpl in Hc.
    assert (is_ascii_alphabetic c = true) as Hac by (unfold is_ascii_alphabetic; by rewrite Hc).
    split; [done|]. apply ascii_alphabetic_range in Hac. lia. }
  split_and!.
  - rewrite lowercase_ascii by (eapply Forall_impl; [exact Ha|intros c [_ Hc]; exact Hc]).
    rewrite <- (list_fmap_id w) at 2. apply list_fmap_ext. intros i c Hc.
    rewrite Forall_lookup in Hw. specialize (Hw i c Hc). simpl in *.
    unfold is_ascii_lower in Hw. apply bool_decide_eq_true in Hw.
    unfold is_ascii_upper. by rewrite bool_decide_eq_false_2 by lia.
  - eapply Forall_impl; [exact Ha|]. intros c [Hc _]. by apply ascii_alphabetic_not_space.
  - eapply Forall_impl; [exact Ha|]. intros c [Hc Hr]. simpl.
    rewrite alphanumeric_ascii by done. by rewrite Hc.
Qed.

Lemma query_of_word t w : w ∈ tokenize_text t -> tokenize_query w = [w].
Proof.
  intros Hin. destruct (lower_word w (tokenize_text_lower t w Hin)) as (Hlow & Hws & Htrim).
  apply elem_of_tokenize_text in Hin as [Hw Hlen].
  destruct (match_words_alphabetic _ _ Hw) as [Hne _].
  unfold tokenize_query. rewrite Hlow. unfold split_whitespace.
  rewrite split_ws_word by (done || by right). simpl.
  rewrite filter_cons_True, filter_nil by done. simpl.
  rewrite (trim_matches_id _ w Htrim), filter_cons_True, filter_nil by done. done.
Qed.

(** The tokenizers fit together.  The words of a document are lower case ASCII letters, more
    than two of them, and each of them, entered as a query, is the one token of that query. *)
Theorem document_words_are_queries t w :
  w ∈ tokenize_text t ->
  Forall (fun c => is_ascii_lower c = true) w /\ (2 < len w)%nat /\ tokenize_query w = [w].
Proof.
  intros Hw. split_and!.
  - by apply (tokenize_text_lower t).
  - exact (proj2 (proj1 (elem_of_tokenize_text t w) Hw)).
  - by apply (query_of_word t).
Qed.

(** And where they do not.  The length limit of a query applies before its words are trimmed,
    so that punctuation makes a single letter a token; and a token with an apostrophe, a digit or an
    accent inside is kept as it is although the index of no document can contain it. *)
Theorem query_tokens_not_indexed :
  tokenize_query (ascii_text "a.."%string) = [ascii_text "a"%string] /\
  tokenize_query (ascii_text "don't"%string) = [ascii_text "don't"%string] /\
  (forall t, ascii_text "a"%string ∉ tokenize_text t) /\
  forall t w c, c ∈ w -> is_ascii_lower c = false -> w ∉ tokenize_text t.
Proof.
  assert (forall c, c = 46 \/ 97 <= c <= 122 -> is_alphanumeric c = bool_decide (97 <= c)) as Hal.
  { intros c Hc. rewrite alphanumeric_ascii by lia. destruct Hc as [->|Hc]; [done|].
    unfold is_ascii_alphabetic, is_ascii_lower. by rewrite !bool_decide_eq_true_2 by lia. }
  assert (forall t w c, c ∈ w -> is_ascii_lower c = false -> w ∉ tokenize_text t) as Hno.
  { intros t w c Hc Hl Hw%tokenize_text_lower. rewrite Forall_forall in Hw.
    specialize (Hw c Hc). congruence. }
  assert (forall t, Forall (fun c => 0 <= c < 128 /\ is_ascii_upper c = false) t ->
    to_lowercase t = t) as Hlow.
  { intros t Ht. rewrite lowercase_ascii by (eapply Forall_impl; [exact Ht|by intros ? []]).
    rewrite <- (list_fmap_id t) at 2. apply list_fmap_ext. intros i c Hc.
    rewrite Forall_lookup in Ht. by destruct (Ht i c Hc) as [_ ->]. }
  split_and!; [| | |exact Hno].
  - unfold tokenize_query. rewrite Hlow by (repeat constructor; vm_compute; done).
    change (filter _ (split_whitespace _)) with [[97; 46; 46]]. unfold trim_matches. simpl.
    rewrite (Hal 97) by lia. simpl. rewrite (Hal 46), (Hal 97) by lia. done.
  - unfold tokenize_query. rewrite Hlow by (repeat constructor; vm_compute; done).
    change (filter _ (split_whitespace _)) with [[100; 111; 110; 39; 116]].
    unfold trim_matches. simpl. rewrite (Hal 100) by lia. simpl. rewrite (Hal 116) by lia. done.
  - intros t [_ Hl]%elem_of_tokenize_text. vm_compute in Hl. lia.
Qed.
End tokens.

(** ** Ranking *)

Section ranking.
Context {A : Type}.
Implicit Types l : list (A * nat).

Definition descending l : Prop := StronglySorted (fun x y => y.2 <= x.2)%nat l.

Lemma insert_by_score_perm x l : insert_by_score x l ≡ₚ x :: l.
Proof.
  induction l as [|y l IH]; simpl; [done|]. case_bool_decide; [done|]. by rewrite IH, Permutation_swap.
Qed.

Lemma sort_by_score_perm l : sort_by_score l ≡ₚ l.
Proof. induction l as [|x l IH]; simpl; [done|]. by rewrite insert_by_score_perm, IH. Qed.

Lemma insert_by_score_descending x l : descending l -> descending (insert_by_score x l).
Proof.
  induction l as [|y l IH]; simpl; intros Hl; [by repeat constructor|].
  apply StronglySorted_inv in Hl as [Hl Hy]. case_bool_decide as Hxy.
  - constructor; [by constructor|]. constructor; [done|].
    eapply Forall_impl; [exact Hy|]. intros z Hz. simpl in *. lia.
  - constructor; [by apply IH|]. rewrite insert_by_score_perm. constructor; [lia|done].
Qed.

Lemma sort_by_score_descending l : descending (sort_by_score l).
Proof. induction l; simpl; [constructor|by apply insert_by_score_descending]. Qed.

(** The sort is stable. *)
Lemma insert_by_score_stable n x l :
  descending l ->
  filter (fun y => y.2 = n) (insert_by_score x l) = filter (fun y => y.2 = n) (x :: l).
Proof.
  induction l as [|y l IH]; simpl; intros Hl; [done|].
  apply StronglySorted_inv in Hl as [Hl Hy]. case_bool_decide as Hxy; [done|].
  rewrite !filter_cons, IH, filter_cons by done. repeat case_decide; try done. lia.
Qed.

Lemma sort_by_score_stable n l :
  filter (fun y => y.2 = n) (sort_by_score l) = filter (fun y => y.2 = n) l.
Proof.
  induction l as [|x l IH]; simpl; [done|].
  rewrite insert_by_score_stable by apply sort_by_score_descending.
  by rewrite !filter_cons, IH.
Qed.
End ranking.

(** How often a book occurs in a posting list, and in the lists of the tokens of a query. *)
Definition occurrences (book_id : text) (l : list text) : nat :=
  length (filter (fun b => b = book_id) l).
Definition score (idx : gmap string (list text)) (tokens : list text) (book_id : text) : nat :=
  sum_list ((fun token => occurrences book_id (default [] (idx !! utf8 token))) <$> tokens).

(** A table of scores: the books with no point are not in it. *)
Definition scored (book_scores : gmap text nat) (f : text -> nat) : Prop :=
  forall b, book_scores !! b = match f b with O => None | n => Some n end.

Lemma scored_bumps l book_scores f :
  scored book_scores f ->
  scored (foldl bump book_scores l) (fun b => f b + occurrences b l)%nat.
Proof.
  revert book_scores f. induction l as [|x l IH]; intros bs f Hs; simpl.
  { intros b. by rewrite (Hs b), Nat.add_0_r. }
  assert (scored (bump bs x) (fun b => f b + (if decide (x = b) then 1 else 0))%nat) as H1.
  { intros b. unfold bump. case_decide as Hx.
    - subst. rewrite lookup_insert_eq, (Hs b), Nat.add_1_r. by destruct (f b).
    - by rewrite lookup_insert_ne, Nat.add_0_r. }
  intros b. rewrite (IH _ _ H1 b). unfold occurrences. rewrite filter_cons.
  case_decide; simpl; [|by rewrite Nat.add_0_r].
  by replace (f b + 1 + length (filter (fun c => c = b) l))%nat with
    (f b + S (length (filter (fun c => c = b) l)))%nat by lia.
Qed.

Section search_spec.
Context `{Unicode, Regexes}.
Context `{!Storage.Serde (list text), !Storage.SerdeLaws (list text),
          !Storage.Serde BookMetadata, !Storage.SerdeLaws BookMetadata}.
Context (path_segment : string -> option string) (hash_order : gmap text nat -> list (text * nat)).
Context (addr_of : NodeId -> SocketAddr).
Hypothesis Horder : forall m, hash_order m ≡ₚ map_to_list m.

Lemma score_tokens_spec idx s self m tokens book_scores f :
  represents addr_of idx (index_map s) -> nodes (index_map s) !! self = Some m ->
  (forall t, t ∈ tokens -> path_segment (utf8 t) = Some (utf8 t)) ->
  scored book_scores f ->
  exists book_scores', score_tokens path_segment self tokens book_scores s = (book_scores', s) /\
    scored book_scores' (fun b => f b + score idx tokens b)%nat.
Proof.
  intros Hrep Hm. revert book_scores f. induction tokens as [|t tokens IH]; intros bs f Hseg Hs; simpl.
  { exists bs. split; [done|]. intros b. by rewrite (Hs b), Nat.add_0_r. }
  pose proof (get_represents path_segment addr_of idx _ self m (utf8 t) (Hseg t ltac:(left)) Hrep Hm)
    as Hget.
  rewrite (st_bind_eq _ _ _ _ _ (in_index_eq _ s _ _ Hget)), set_index_id.
  set (l := default [] (idx !! utf8 t)).
  replace (match idx !! utf8 t with Some book_index => foldl bump bs book_index | None => bs end)
    with (foldl bump bs l) by (unfold l; by destruct (idx !! utf8 t)).
  destruct (IH (foldl bump bs l) (fun b => f b + occurrences b l)%nat) as (bs' & Hrun & Hs').
  - intros t' Ht'. apply Hseg. by right.
  - by apply scored_bumps.
  - exists bs'. split; [done|]. intros b. rewrite (Hs' b). unfold score. simpl. by rewrite Nat.add_assoc.
Qed.

(** The book of an id with its score. *)
Definition hydrated (registry : gmap string BookMetadata) (bn : text * nat)
    : option (BookMetadata * nat) :=
  (fun metadata => (metadata, bn.2)) <$> registry !! utf8 bn.1.

Lemma hydrate_spec registry s self m l :
  represents addr_of registry (books s) -> nodes (books s) !! self = Some m ->
  (forall b n, (b, n) ∈ l -> path_segment (utf8 b) = Some (utf8 b)) ->
  hydrate path_segment self l s = (omap (hydrated registry) l, s).
Proof.
  intros Hrep Hm. induction l as [|[b n] l IH]; intros Hseg; simpl; [done|].
  pose proof (get_represents path_segment addr_of registry _ self m (utf8 b) (Hseg b n ltac:(left)) Hrep Hm)
    as Hget.
  rewrite (st_bind_eq _ _ _ _ _ (in_books_eq _ s _ _ Hget)), set_books_id.
  assert (forall b n, (b, n) ∈ l -> path_segment (utf8 b) = Some (utf8 b)) as Hl.
  { intros b' n' Hin. apply (Hseg b' n'). by right. }
  rewrite (st_bind_eq _ _ _ _ _ (IH Hl)).
  unfold st_ret. replace (hydrated registry (b, n))
    with ((fun metadata => (metadata, n)) <$> registry !! utf8 b) by done.
  by destruct (registry !! utf8 b).
Qed.

Lemma search_eq idx registry s self mi mb query :
  represents addr_of idx (index_map s) -> nodes (index_map s) !! self = Some mi ->
  represents addr_of registry (books s) -> nodes (books s) !! self = Some mb ->
  (forall t, t ∈ tokenize_query query -> path_segment (utf8 t) = Some (utf8 t)) ->
  (forall b, (0 < score idx (tokenize_query query) b)%nat -> path_segment (utf8 b) = Some (utf8 b)) ->
  exists book_scores, scored book_scores (score idx (tokenize_query query)) /\
    search path_segment hash_order self query s =
      (sort_by_score (omap (hydrated registry) (hash_order book_scores)), s).
Proof.
  intros Hi Hmi Hb Hmb Hseg Hsegb. unfold search.
  destruct (score_tokens_spec idx s self mi (tokenize_query query) ∅ (fun _ => O) Hi Hmi Hseg)
    as (bs & Hrun & Hs); [by intros b; rewrite lookup_empty|].
  exists bs. split; [exact Hs|]. rewrite (st_bind_eq _ _ _ _ _ Hrun).
  assert (forall b n, (b, n) ∈ hash_order bs -> path_segment (utf8 b) = Some (utf8 b)) as Hl.
  { intros b n Hin. rewrite Horder in Hin. apply elem_of_map_to_list in Hin.
    apply Hsegb. rewrite (Hs b) in Hin. simpl in Hin. destruct (score _ _ b); [done|lia]. }
  by rewrite (st_bind_eq _ _ _ _ _ (hydrate_spec registry s self mb _ Hb Hmb Hl)).
Qed.

(** What a query should return, in any order: every registered book with a positive score, once,
    with its score. *)
Definition answers (registry : gmap string BookMetadata) (sc : text -> nat)
    (results : list (BookMetadata * nat)) : Prop :=
  exists ids, NoDup ids /\ (forall b, b ∈ ids <-> (0 < sc b)%nat) /\
    results ≡ₚ omap (fun b => hydrated registry (b, sc b)) ids.

Lemma scored_answers registry book_scores sc l :
  scored book_scores sc -> l ≡ₚ map_to_list book_scores ->
  answers registry sc (sort_by_score (omap (hydrated registry) l)).
Proof.
  intros Hs Hl. exists (map_to_list book_scores).*1. split_and!.
  - apply NoDup_fst_map_to_list.
  - intros b. rewrite list_elem_of_fmap. split.
    + intros ([b' n] & -> & Hin%elem_of_map_to_list). rewrite (Hs b') in Hin. simpl.
      destruct (sc b'); [done|lia].
    + intros Hpos. exists (b, sc b). split; [done|]. apply elem_of_map_to_list. rewrite (Hs b).
      destruct (sc b); [lia|done].
  - rewrite sort_by_score_perm, Hl.
    assert (forall b n, (b, n) ∈ map_to_list book_scores -> n = sc b) as Hn.
    { intros b n Hin%elem_of_map_to_list. rewrite (Hs b) in Hin. destruct (sc b); congruence. }
    clear Hl. induction (map_to_list book_scores) as [|[b n] bs IH]; [done|].
    simpl. rewrite (Hn b n) by left.
    assert (omap (hydrated registry) bs ≡ₚ omap (fun b => hydrated registry (b, sc b)) bs.*1) as IH'.
    { apply IH. intros b' n' Hin. apply Hn. by right. }
    destruct (hydrated registry (b, sc b)); [|exact IH']. by f_equiv.
Qed.

(** C15: search.  On nodes whose shards represent the index [idx] and the book registry, and
    whatever the order in which hash maps are iterated, every node answers a query with the
    registered books that occur in the posting lists of its tokens, each once, with the number of
    occurrences (a repeated query term counting again) as its score, by descending score; nothing
    changes. *)
Theorem search_ranking idx registry s self mi mb query :
  represents addr_of idx (index_map s) -> nodes (index_map s) !! self = Some mi ->
  represents addr_of registry (books s) -> nodes (books s) !! self = Some mb ->
  (forall t, t ∈ tokenize_query query -> path_segment (utf8 t) = Some (utf8 t)) ->
  (forall b, (0 < score idx (tokenize_query query) b)%nat -> path_segment (utf8 b) = Some (utf8 b)) ->
  exists results, search path_segment hash_order self query s = (results, s) /\
    descending results /\ answers registry (score idx (tokenize_query query)) results.
Proof.
  intros Hi Hmi Hb Hmb Hseg Hsegb.
  destruct (search_eq idx registry s self mi mb query Hi Hmi Hb Hmb Hseg Hsegb) as (bs & Hs & Hrun).
  eexists. split_and!; [exact Hrun|apply sort_by_score_descending|].
  by apply (scored_answers _ bs).
Qed.

(** Pages.  The response to a search request counts all results, holds at most [limit] (ten by
    default) of them, and the pages at the offsets [0], [limit], [2 * limit], ... of one ranking put
    together are the ranking. *)
Theorem pages_of_search s self query n k results :
  search path_segment hash_order self query s = (results, s) ->
  let page i := handle_search path_segment hash_order self (mkParams query (Some n) (Some (i * n)%nat)) s in
  concat ((fun i => sr_results (page i).1) <$> seq 0 k) = take (k * n) (item <$> results) /\
  forall i, sr_total_count (page i).1 = length results /\
    sr_count (page i).1 = (n `min` (length results - i * n))%nat.
Proof.
  intros Hrun page.
  assert (forall i, (page i).1 = mkSearchResponse query ∅ (length (item <$> results))
    (length (take n (drop (i * n) (item <$> results)))) (take n (drop (i * n) (item <$> results)))) as Hpage.
  { intros i. unfold page, handle_search. by rewrite (st_bind_eq _ _ _ _ _ Hrun). }
  split.
  - induction k as [|k IH]; [done|]. rewrite seq_S, fmap_app, concat_app, IH. simpl.
    rewrite Hpage, app_nil_r. simpl. rewrite (Nat.add_comm n (k * n)).
    by rewrite take_take_drop.
  - intros i. rewrite Hpage. simpl. by rewrite length_take, length_drop, length_fmap.
Qed.
End search_spec.

(** ** Witnesses *)

Module Example.
#[local] Existing Instances Storage.countable_serde Storage.countable_serde_laws.
Import Text.Ascii StorageNet.Example StorageSpec.Example.

Lemma document_words_are_queries_witness :
  let t := ascii_text "Call me Ishmael." in
  ascii_text "ishmael" ∈ tokenize_text t /\ tokenize_query (ascii_text "ishmael") = [ascii_text "ishmael"].
Proof.
  intros t. assert (ascii_text "ishmael" ∈ tokenize_text t) as Hw.
  { apply (bool_decide_unpack _). vm_compute. exact I. }
  split; [exact Hw|]. exact (proj2 (proj2 (document_words_are_queries t _ Hw))).
Defined.

Definition book (id title : string) : BookMetadata :=
  mkBook (ascii_text id) (ascii_text title) (ascii_text "Melville") (ascii_text "en") None 0 0.
Definition postings : list (string * list text) :=
  [("whale", [ascii_text "1"; ascii_text "2"]); ("white", [ascii_text "1"])].
Definition catalogue : list (string * BookMetadata) :=
  [("1", book "1" "Moby-Dick"); ("2", book "2" "Typee")].
Definition shelf : Site :=
  mkSite (empty_world "/datalake" calm) (seed "/books" catalogue) (seed "/index" postings)
    (mkWorld ∅ calm).

Lemma shelf_index : represents example_addr (list_to_map postings) (index_map shelf) /\
  exists m, nodes (index_map shelf) !! on "a" = Some m.
Proof.
  destruct (seed_spec "/index" postings) as (Hrep & Hup & _).
  { apply (bool_decide_unpack _). vm_compute. exact I. }
  split; [exact Hrep|]. destruct (Hup "a" in_a) as (m & Hm & _). by exists m.
Qed.
Lemma shelf_books : represents example_addr (list_to_map catalogue) (books shelf) /\
  exists m, nodes (books shelf) !! on "a" = Some m.
Proof.
  destruct (seed_spec "/books" catalogue) as (Hrep & Hup & _).
  { apply (bool_decide_unpack _). vm_compute. exact I. }
  split; [exact Hrep|]. destruct (Hup "a" in_a) as (m & Hm & _). by exists m.
Qed.

Lemma search_ranking_witness :
  exists results, search plain_segment map_to_list (on "a") (ascii_text "White whale!") shelf =
    (results, shelf) /\ descending results.
Proof.
  destruct shelf_index as [Hi [mi Hmi]]. destruct shelf_books as [Hb [mb Hmb]].
  pose proof (search_ranking plain_segment map_to_list example_addr (fun m => reflexivity _)
    (list_to_map postings) (list_to_map catalogue) shelf (on "a") mi mb (ascii_text "White whale!")) as Hs.
  specialize (Hs Hi Hmi Hb Hmb (fun _ _ => eq_refl) (fun _ _ => eq_refl)).
  destruct Hs as (results & Hrun & Hd & _). exists results. split; [exact Hrun|exact Hd].
Defined.

Lemma pages_of_search_witness :
  let r := (search plain_segment map_to_list (on "a") (ascii_text "whale") shelf).1 in
  let page i := handle_search plain_segment map_to_list (on "a")
    (mkParams (ascii_text "whale") (Some 1%nat) (Some (i * 1)%nat)) shelf in
  sr_results (page 0%nat).1 ++ sr_results (page 1%nat).1 = take 2 (item <$> r) /\ length r = 2%nat.
Proof.
  intros r page.
  destruct shelf_index as [Hi [mi Hmi]]. destruct shelf_books as [Hb [mb Hmb]].
  destruct (search_eq plain_segment map_to_list example_addr (fun m => reflexivity _)
    (list_to_map postings) (list_to_map catalogue) shelf (on "a") mi mb (ascii_text "whale")
    Hi Hmi Hb Hmb (fun _ _ => eq_refl) (fun _ _ => eq_refl)) as (bs & _ & Hrun).
  assert (search plain_segment map_to_list (on "a") (ascii_text "whale") shelf = (r, shelf)) as Hr.
  { subst r. rewrite Hrun. reflexivity. }
  destruct (pages_of_search plain_segment map_to_list shelf (on "a") (ascii_text "whale") 1 2 r Hr)
    as [Hp _].
  split.
  - simpl seq in Hp. cbn [fmap list_fmap concat app] in Hp. rewrite app_nil_r in Hp. exact Hp.
  - vm_compute. reflexivity.
Defined.

(** The order in which two iterations of equal hash maps may come. *)
Definition forwards (m : gmap text nat) : list (text * nat) := map_to_list m.
Definition backwards (m : gmap text nat) : list (text * nat) := reverse (map_to_list m).

Definition titles (order : gmap text nat -> list (text * nat)) (offset : nat) : nat * list text :=
  let r := (handle_search plain_segment order (on "a") (mkParams (ascii_text "whale") (Some 1%nat) (Some offset))
    shelf).1 in (sr_total_count r, item_title <$> sr_results r).

(** Pages of equal scores.  Results with the same score come in the order in which the hash
    map of scores is iterated, which differs from request to request: of two books with one point
    each, the first and the second page of one result each can show the same book, so that the
    other is never seen. *)
Theorem pages_may_overlap :
  (forall m, forwards m ≡ₚ map_to_list m) /\ (forall m, backwards m ≡ₚ map_to_list m) /\
  titles forwards 0 = (2%nat, [ascii_text "Typee"]) /\
  titles backwards 1 = (2%nat, [ascii_text "Typee"]).
Proof.
  split_and!; [done| | |].
  - intros m. apply reverse_Permutation.
  - vm_compute. reflexivity.
  - vm_compute. reflexivity.
Qed.
End Example.
