(* ===== verification/Indexing.v ===== *)
(** * Indexing: the task handler [index_document] of src/main.rs

    The handler reads the posting list of every word of a document, adds the book and writes the
    list back.  The properties: what one document adds to the index, and that it is then found by
    every search for one of its words; the two ways in which a book goes missing although every step
    reports success; and that a book created without a text is never indexed. *)

From S2P Require Import Prelude Membership Partitioner Net Topology Text Documents StorageSpec Search.
From S2P Require Storage StorageNet Queue QueueNet.

#[local] Open Scope Z_scope.
#[local] Existing Instances Storage.string_key Storage.string_key_laws
  StorageNet.DistributedMap_hosted Queue.DistributedQueue_hosted.

#[local] Strategy 1000 [get_partition get_owners].

(** [if !book_ids.contains(&id) { book_ids.push(id) }]. *)
Definition add_posting (book_id : text) (book_ids : list text) : list text :=
  if decide (book_id ∈ book_ids) then book_ids else book_ids ++ [book_id].

Section indexing.
Context `{Unicode, Regexes}.
Context `{!Storage.Serde (list text), !Storage.Serde RawDocument, !Storage.Serde BookMetadata}.
(** What the HTTP stack makes of a path segment, and the order in which a [HashSet] is iterated. *)
Context (path_segment : string -> option string) (set_order : gset text -> list text).

(** The body of the loop over the tokens: the read and the write that follows it. *)
Definition get_postings (self : SocketAddr) (token : text) : ST Site (list text) :=
  book_ids <- in_index (StorageNet.get path_segment self (utf8 token)) ;;
  st_ret (default [] book_ids).
Definition put_postings (self : SocketAddr) (book_id token : text) (book_ids : list text)
    : ST Site (result unit) :=
  in_index (StorageNet.put self (utf8 token) (add_posting book_id book_ids)).
Definition index_token (self : SocketAddr) (book_id token : text) : ST Site (result unit) :=
  book_ids <- get_postings self token ;;
  put_postings self book_id token book_ids.

(** The handler registered as ["index_document"]. *)
Definition index_document (self : SocketAddr) (payload : IndexTaskPayload) : ST Site (result unit) :=
  raw_doc <- in_datalake (StorageNet.get path_segment self (utf8 (it_book_id payload))) ;;
  match raw_doc with
  | None => st_ret (Ok tt)
  | Some raw_doc =>
      for_each_try (index_token self (it_book_id payload)) (set_order (tokenize_text (rd_body raw_doc)))
  end.

(** ** Two workers on one token

    Each has read nothing yet, has read a posting list, or is done. *)
Inductive Progress := Waiting | HasRead (book_ids : list text) | Finished (r : result unit).

Definition progress (self : SocketAddr) (book_id token : text) (p : Progress) : ST Site Progress :=
  match p with
  | Waiting => book_ids <- get_postings self token ;; st_ret (HasRead book_ids)
  | HasRead book_ids => r <- put_postings self book_id token book_ids ;; st_ret (Finished r)
  | Finished r => st_ret (Finished r)
  end.

(** A schedule says whose turn it is: [true] for the first worker. *)
Fixpoint run_schedule (self1 self2 : SocketAddr) (id1 id2 token : text) (schedule : list bool)
    (p1 p2 : Progress) : ST Site (Progress * Progress) :=
  match schedule with
  | [] => st_ret (p1, p2)
  | true :: rest => p1' <- progress self1 id1 token p1 ;;
                    run_schedule self1 self2 id1 id2 token rest p1' p2
  | false :: rest => p2' <- progress self2 id2 token p2 ;;
                     run_schedule self1 self2 id1 id2 token rest p1 p2'
  end.
End indexing.

(** ** Posting lists *)

Lemma elem_of_add_posting b b' l : b ∈ add_posting b' l <-> b = b' \/ b ∈ l.
Proof. unfold add_posting. case_decide; set_solver. Qed.

Lemma add_posting_new b l : b ∉ l -> add_posting b l = l ++ [b].
Proof. intros Hb. unfold add_posting. by rewrite decide_False. Qed.

Lemma add_posting_idem b l : add_posting b (add_posting b l) = add_posting b l.
Proof. unfold add_posting at 1. rewrite decide_True; [done|]. apply elem_of_add_posting. by left. Qed.

(** The index after a document, as a map. *)
Definition add_token (book_id : text) (idx : gmap string (list text)) (token : text)
    : gmap string (list text) :=
  <[utf8 token := add_posting book_id (default [] (idx !! utf8 token))]> idx.
Definition add_document (book_id : text) (tokens : list text) (idx : gmap string (list text)) :=
  foldl (add_token book_id) idx tokens.

Lemma lookup_add_document book_id tokens idx k :
  add_document book_id tokens idx !! k =
    if decide (k ∈ utf8 <$> tokens) then Some (add_posting book_id (default [] (idx !! k)))
    else idx !! k.
Proof.
  revert idx. induction tokens as [|t tokens IH]; intros idx; [done|].
  change (add_document book_id (t :: tokens) idx)
    with (add_document book_id tokens (add_token book_id idx t)).
  rewrite IH. unfold add_token. destruct (decide (k = utf8 t)) as [->|Hne].
  - destruct (decide (utf8 t ∈ utf8 <$> t :: tokens)) as [_|Hno]; [|destruct Hno; left].
    rewrite lookup_insert_eq. simpl. rewrite add_posting_idem. by case_decide.
  - rewrite lookup_insert_ne by done. cbn [fmap list_fmap].
    destruct (decide (k ∈ utf8 <$> tokens)) as [Hk|Hk].
    + rewrite decide_True; [done|by right].
    + rewrite decide_False; [done|]. by intros [?|?]%elem_of_cons.
Qed.

(** ** One document *)

Section indexing_spec.
Context `{Unicode, Regexes}.
Context `{!Storage.Serde (list text), !Storage.SerdeLaws (list text),
          !Storage.Serde RawDocument, !Storage.SerdeLaws RawDocument,
          !Storage.Serde BookMetadata, !Storage.SerdeLaws BookMetadata}.
Context (path_segment : string -> option string).
Context (addr_of : NodeId -> SocketAddr).

Lemma get_postings_spec idx s self m token :
  represents addr_of idx (index_map s) -> nodes (index_map s) !! self = Some m ->
  path_segment (utf8 token) = Some (utf8 token) ->
  get_postings path_segment self token s = (default [] (idx !! utf8 token), s).
Proof.
  intros Hrep Hm Hseg. unfold get_postings.
  pose proof (get_represents path_segment addr_of idx _ self m (utf8 token) Hseg Hrep Hm) as Hget.
  by rewrite (st_bind_eq _ _ _ _ _ (in_index_eq _ s _ _ Hget)), set_index_id.
Qed.

(** A worker on [self] may write under each of the keys [ks], with the operation ids that the
    generator yields. *)
Record able (self : SocketAddr) (ks : list string) (us : list string)
    (w : World (Storage.DistributedMap string (list text))) : Prop := {
  ab_up : exists m, nodes w !! self = Some m /\ forall k, k ∈ ks -> may_write m k;
  ab_ids : uuids (env w) = us;
  ab_fresh u : u ∈ us -> StorageNet.fresh_op u w;
  ab_distinct : NoDup us;
}.

Lemma able_subset self ks ks' us w : ks' ⊆ ks -> able self ks us w -> able self ks' us w.
Proof. intros Hk [(m & Hm & Hmay) ? ? ?]. split; [|done..]. exists m. split; [done|]. auto. Qed.

Lemma put_postings_spec idx s self book_id token l ks u us :
  represents addr_of idx (index_map s) -> able self (utf8 token :: ks) (u :: us) (index_map s) ->
  utf8 token ∉ ks ->
  exists w', put_postings self book_id token l s = (Ok tt, set_index w' s) /\
    represents addr_of (<[utf8 token := add_posting book_id l]> idx) w' /\ able self ks us w' /\
    pointwise same_host (index_map s) w'.
Proof.
  intros Hrep [(m & Hm & Hmay) Hu Hf [Hun Hnd]%NoDup_cons] Hk. unfold put_postings.
  destruct (put_represents_new addr_of idx (index_map s) self m (utf8 token) (add_posting book_id l)
    u us Hrep Hu (Hf u ltac:(left)) Hm (Hmay _ ltac:(left))) as (w' & Hrun & Hu' & Hrep' & Hh & Hf' & Hw).
  exists w'. rewrite (in_index_eq _ s _ _ Hrun). split_and!; [done..| |done]. split; [|done| |done].
  - destruct (pointwise_lookup _ _ _ _ _ Hw Hm) as (m' & Hm' & Hmay'). exists m'. split; [done|].
    intros k Hin. apply Hmay'; [by intros ->|]. apply Hmay. by right.
  - intros u' Hin. apply Hf'; [by intros ->|]. apply Hf. by right.
Qed.

Lemma index_token_spec idx s self book_id token ks u us :
  represents addr_of idx (index_map s) -> able self (utf8 token :: ks) (u :: us) (index_map s) ->
  utf8 token ∉ ks -> path_segment (utf8 token) = Some (utf8 token) ->
  exists w', index_token path_segment self book_id token s = (Ok tt, set_index w' s) /\
    represents addr_of (add_token book_id idx token) w' /\ able self ks us w' /\
    pointwise same_host (index_map s) w'.
Proof.
  intros Hrep Hable Hk Hseg. pose proof Hable as [(m & Hm & _) _ _ _]. unfold index_token.
  rewrite (st_bind_eq _ _ _ _ _ (get_postings_spec idx s self m token Hrep Hm Hseg)).
  by apply (put_postings_spec idx s self book_id token _ ks u us).
Qed.

Lemma index_tokens_spec self book_id (tokens : list text) : forall idx s us,
  represents addr_of idx (index_map s) -> able self (utf8 <$> tokens) us (index_map s) ->
  NoDup (utf8 <$> tokens) -> (length tokens <= length us)%nat ->
  (forall t, t ∈ tokens -> path_segment (utf8 t) = Some (utf8 t)) ->
  exists w', for_each_try (index_token path_segment self book_id) tokens s = (Ok tt, set_index w' s) /\
    represents addr_of (add_document book_id tokens idx) w' /\ pointwise same_host (index_map s) w'.
Proof.
  induction tokens as [|t tokens IH]; intros idx s us Hrep Hable Hdist Hlen Hseg; cbn [for_each_try].
  { exists (index_map s). rewrite set_index_id. split_and!; done || reflexivity. }
  destruct us as [|u us]; simpl in Hlen; [lia|]. apply NoDup_cons in Hdist as [Hnew Hdist].
  destruct (index_token_spec idx s self book_id t _ u us Hrep Hable Hnew (Hseg t ltac:(left)))
    as (w1 & Hrun & Hrep1 & Hable1 & Hh1).
  rewrite (st_try_ok _ _ _ _ _ Hrun).
  destruct (IH (add_token book_id idx t) (set_index w1 s) us Hrep1 Hable1 Hdist ltac:(lia))
    as (w' & Hl & Hrep' & Hh').
  { intros t' Ht'. apply Hseg. by right. }
  exists w'. rewrite Hl. split_and!; [done..|]. by etrans.
Qed.

(** The words of a document are different keys. *)
Lemma words_distinct `{!RegexLaws} t : NoDup (utf8 <$> elements (tokenize_text t)).
Proof.
  apply NoDup_fmap_2_strong; [|apply NoDup_elements].
  intros a b Ha%elem_of_elements Hb%elem_of_elements.
  apply elem_of_tokenize_text in Ha as [[_ Ha]%match_words_alphabetic _].
  apply elem_of_tokenize_text in Hb as [[_ Hb]%match_words_alphabetic _].
  by apply utf8_letters_inj.
Qed.

Section document.
Context `{!RegexLaws} (set_order : gset text -> list text).
Hypothesis Hset : forall X, set_order X ≡ₚ elements X.

Lemma index_document_spec lake idx s self md book_id doc us :
  let words := elements (tokenize_text (rd_body doc)) in
  represents addr_of lake (datalake s) -> nodes (datalake s) !! self = Some md ->
  path_segment (utf8 book_id) = Some (utf8 book_id) -> lake !! utf8 book_id = Some doc ->
  represents addr_of idx (index_map s) -> able self (utf8 <$> words) us (index_map s) ->
  (length words <= length us)%nat ->
  (forall t, t ∈ words -> path_segment (utf8 t) = Some (utf8 t)) ->
  exists w' idx', index_document path_segment set_order self (mkIndexTask book_id) s =
      (Ok tt, set_index w' s) /\
    represents addr_of idx' w' /\ pointwise same_host (index_map s) w' /\
    forall k, idx' !! k = if decide (k ∈ utf8 <$> words)
                          then Some (add_posting book_id (default [] (idx !! k))) else idx !! k.
Proof.
  intros words Hlake Hmd Hsegid Hdoc Hrep Hready Hlen Hseg.
  assert (set_order (tokenize_text (rd_body doc)) ≡ₚ words) as Hperm by apply Hset.
  pose proof (get_represents path_segment addr_of lake _ self md (utf8 book_id) Hsegid Hlake Hmd) as Hget.
  unfold index_document. simpl it_book_id.
  rewrite (st_bind_eq _ _ _ _ _ (in_datalake_eq _ s _ _ Hget)), set_datalake_id, Hdoc.
  destruct (index_tokens_spec self book_id (set_order (tokenize_text (rd_body doc))) idx s us Hrep)
    as (w' & Hrun & Hrep' & Hh').
  - apply (able_subset _ (utf8 <$> words)); [|done]. intros k. by rewrite Hperm.
  - rewrite Hperm. apply words_distinct.
  - by rewrite Hperm.
  - intros t Ht. rewrite Hperm in Ht. by apply Hseg.
  - exists w'. eexists. split_and!; [exact Hrun|exact Hrep'|exact Hh'|]. intros k.
    rewrite lookup_add_document.
    destruct (decide (k ∈ utf8 <$> words)) as [Hk|Hk].
    + rewrite decide_True; [done|]. by rewrite Hperm.
    + rewrite decide_False; [done|]. by rewrite Hperm.
Qed.

(** Indexing. A worker that may write each word of the document (it is the primary of the
    word or holds no posting list of it), on nodes whose shards represent the datalake and the
    index: [index_document] ends well, and the index it leaves is the old one with the book added,
    once, to the posting list of exactly the document's words; nothing else changes. *)
Theorem index_document_adds lake idx s self md book_id doc us :
  let words := elements (tokenize_text (rd_body doc)) in
  represents addr_of lake (datalake s) -> nodes (datalake s) !! self = Some md ->
  path_segment (utf8 book_id) = Some (utf8 book_id) -> lake !! utf8 book_id = Some doc ->
  represents addr_of idx (index_map s) -> able self (utf8 <$> words) us (index_map s) ->
  (length words <= length us)%nat ->
  (forall t, t ∈ words -> path_segment (utf8 t) = Some (utf8 t)) ->
  exists w' idx', index_document path_segment set_order self (mkIndexTask book_id) s =
      (Ok tt, set_index w' s) /\
    represents addr_of idx' w' /\
    forall k, idx' !! k = if decide (k ∈ utf8 <$> words)
                          then Some (add_posting book_id (default [] (idx !! k))) else idx !! k.
Proof.
  intros words Hlake Hmd Hsegid Hdoc Hrep Hready Hlen Hseg.
  destruct (index_document_spec lake idx s self md book_id doc us Hlake Hmd Hsegid Hdoc Hrep Hready
    Hlen Hseg) as (w' & idx' & Hrun & Hrep' & _ & Hidx). eauto.
Qed.

(** ** From ingestion to search *)

Section found.
Context {UL : UnicodeLaws} (hash_order : gmap text nat -> list (text * nat)).
Hypothesis Horder : forall m, hash_order m ≡ₚ map_to_list m.

Lemma score_singleton idx t b : score idx [t] b = occurrences b (default [] (idx !! utf8 t)).
Proof. unfold score. simpl. lia. Qed.

Lemma occurrences_pos b l : (0 < occurrences b l)%nat <-> b ∈ l.
Proof.
  unfold occurrences. induction l as [|x l IH]; [simpl; split; [lia|by intros ?%elem_of_nil]|].
  rewrite filter_cons, elem_of_cons. case_decide as Hx; simpl; [|rewrite IH; naive_solver].
  split; [by left|lia].
Qed.

(** C10: an indexed document is found.  After [index_document] has run for a registered book without
    faults, on a node that is the primary of the words of the text or holds no copy of their
    posting lists, a search for any single word of the text, on any node that is up, returns
    the book, with a positive score.  A worker that is a mere backup of a word and holds an older
    list is left out: it reads that list and its own copy misses the new one
    ([backup_indexer_forgets]); of two nodes with two copies, this is every node that is not the
    primary. *)
Theorem indexed_document_is_found lake idx registry s self md book_id doc us w reader mi mb metadata :
  let words := elements (tokenize_text (rd_body doc)) in
  represents addr_of lake (datalake s) -> nodes (datalake s) !! self = Some md ->
  lake !! utf8 book_id = Some doc ->
  represents addr_of idx (index_map s) -> able self (utf8 <$> words) us (index_map s) ->
  (length words <= length us)%nat ->
  represents addr_of registry (books s) -> registry !! utf8 book_id = Some metadata ->
  nodes (index_map s) !! reader = Some mi -> nodes (books s) !! reader = Some mb ->
  (forall t, t ∈ words -> path_segment (utf8 t) = Some (utf8 t)) ->
  (forall b, b = book_id \/ (exists k l, idx !! k = Some l /\ b ∈ l) ->
     path_segment (utf8 b) = Some (utf8 b)) ->
  w ∈ words ->
  exists s' results,
    index_document path_segment set_order self (mkIndexTask book_id) s = (Ok tt, s') /\
    search path_segment hash_order reader w s' = (results, s') /\
    exists n, (0 < n)%nat /\ (metadata, n) ∈ results.
Proof.
  intros words Hlake Hmd Hdoc Hrep Hready Hlen Hbooks Hmeta Hmi Hmb Hseg Hsegb Hw.
  destruct (index_document_spec lake idx s self md book_id doc us Hlake Hmd
    (Hsegb book_id (or_introl eq_refl)) Hdoc Hrep Hready Hlen Hseg) as (w' & idx' & Hrun & Hrep' & Hh & Hidx).
  destruct (pointwise_lookup _ _ _ _ _ Hh Hmi) as (mi' & Hmi' & _).
  assert (tokenize_query w = [w]) as Hq.
  { apply (query_of_word (rd_body doc)). by apply elem_of_elements. }
  assert (idx' !! utf8 w = Some (add_posting book_id (default [] (idx !! utf8 w)))) as Hlw.
  { rewrite Hidx, decide_True; [done|]. apply list_elem_of_fmap. eauto. }
  destruct (search_eq path_segment hash_order addr_of Horder idx' registry (set_index w' s) reader mi' mb w)
    as (bs & Hs & Hsearch); [done|done|done|done| | |].
  - rewrite Hq. intros t ->%list_elem_of_singleton. by apply Hseg.
  - rewrite Hq. intros b. rewrite score_singleton, Hlw. simpl.
    rewrite occurrences_pos, elem_of_add_posting. intros [->|Hb]; apply Hsegb; [by left|right].
    destruct (idx !! utf8 w) as [l|] eqn:Hl; [by exists (utf8 w), l|]. by apply elem_of_nil in Hb.
  - exists (set_index w' s). eexists. split_and!; [exact Hrun|exact Hsearch|].
    rewrite Hq in Hs.
    assert (0 < score idx' [w] book_id)%nat as Hpos.
    { rewrite score_singleton, Hlw. apply occurrences_pos, elem_of_add_posting. by left. }
    exists (score idx' [w] book_id). split; [done|]. rewrite sort_by_score_perm.
    apply list_elem_of_omap. exists (book_id, score idx' [w] book_id). split.
    + rewrite Horder. apply elem_of_map_to_list. rewrite (Hs book_id).
      destruct (score idx' [w] book_id); [lia|done].
    + unfold hydrated. simpl. by rewrite Hmeta.
Qed.
End found.
End document.

(** ** Books that go missing *)

Lemma progress_read idx s self m book_id token :
  represents addr_of idx (index_map s) -> nodes (index_map s) !! self = Some m ->
  path_segment (utf8 token) = Some (utf8 token) ->
  progress path_segment self book_id token Waiting s = (HasRead (default [] (idx !! utf8 token)), s).
Proof.
  intros Hrep Hm Hseg. simpl.
  by rewrite (st_bind_eq _ _ _ _ _ (get_postings_spec idx s self m token Hrep Hm Hseg)).
Qed.

(** A node that is the primary of the keys [ks] or no owner of them stays [able]. *)
Record ready (self : SocketAddr) (ks : list string) (us : list string)
    (w : World (Storage.DistributedMap string (list text))) : Prop := {
  rd_up : exists m, nodes w !! self = Some m /\
    forall k, k ∈ ks -> Storage.local_id m ∉ tail (owners m k);
  rd_ids : uuids (env w) = us;
  rd_fresh u : u ∈ us -> StorageNet.fresh_op u w;
  rd_distinct : NoDup us;
}.

Lemma ready_able idx self ks us w : represents addr_of idx w -> ready self ks us w -> able self ks us w.
Proof.
  intros Hrep [(m & Hm & Hno) ? ? ?]. split; [|done..]. exists m. split; [done|]. intros k Hk.
  apply (not_backup_may_write addr_of idx w self m); [done..|]. by apply Hno.
Qed.

Lemma progress_write idx s self book_id token l u us :
  represents addr_of idx (index_map s) -> ready self [utf8 token] (u :: us) (index_map s) ->
  exists w', progress path_segment self book_id token (HasRead l) s = (Finished (Ok tt), set_index w' s) /\
    represents addr_of (<[utf8 token := add_posting book_id l]> idx) w' /\
    uuids (env w') = us /\ pointwise same_host (index_map s) w' /\
    (forall u', u' ∈ us -> StorageNet.fresh_op u' w').
Proof.
  intros Hrep Hready%(ready_able idx); [|done].
  destruct (put_postings_spec idx s self book_id token l [] u us Hrep Hready)
    as (w' & Hrun & Hrep' & [_ Hu' Hf' _] & Hh); [apply not_elem_of_nil|]. exists w'. simpl.
  rewrite (st_bind_eq _ _ _ _ _ Hrun). split_and!; done.
Qed.

Lemma ready_host self ks us us' w w' :
  ready self ks us w -> pointwise same_host w w' -> uuids (env w') = us' -> NoDup us' ->
  (forall u, u ∈ us' -> StorageNet.fresh_op u w') -> ready self ks us' w'.
Proof.
  intros [(m & Hm & Hno) _ _ _] Hh Hu Hnd Hf. split; [|done..].
  destruct (pointwise_lookup _ _ _ _ _ Hh Hm) as (m' & Hm' & Hhost). exists m'. split; [done|].
  intros k Hin. specialize (Hno k Hin). unfold Storage.local_id, owners, home in *.
  assert (Storage.partitioner m' = Storage.partitioner m) as -> by exact Hhost. done.
Qed.

(** C17: lost updates.  Two workers add two new books to the posting list of one word.  One after
    the other they leave the list with both books; if both read before either writes, both report
    success and the first book is not in the list.  Each worker's node is the primary of the word
    or holds no copy of the list ([ready]). *)
Theorem concurrent_indexing_loses_book idx s self1 self2 id1 id2 token u1 u2 :
  let k := utf8 token in
  let l := default [] (idx !! k) in
  let run schedule := run_schedule path_segment self1 self2 id1 id2 token schedule Waiting Waiting s in
  path_segment k = Some k -> represents addr_of idx (index_map s) ->
  ready self1 [k] [u1; u2] (index_map s) -> ready self2 [k] [u1; u2] (index_map s) ->
  id1 <> id2 -> id1 ∉ l -> id2 ∉ l ->
  (exists s', run [true; true; false; false] = ((Finished (Ok tt), Finished (Ok tt)), s') /\
     represents addr_of (<[k := l ++ [id1; id2]]> idx) (index_map s')) /\
  (exists s', run [true; false; true; false] = ((Finished (Ok tt), Finished (Ok tt)), s') /\
     represents addr_of (<[k := l ++ [id2]]> idx) (index_map s')).
Proof.
  intros k l run Hseg Hrep Hr1 Hr2 Hne Hl1 Hl2. subst run. cbn beta.
  pose proof Hr1 as [(m1 & Hm1 & _) _ _ [Hu1 [Hu2 _]%NoDup_cons]%NoDup_cons].
  pose proof Hr2 as [(m2 & Hm2 & _) _ _ _].
  assert (NoDup [u2]) as Hnd by (apply NoDup_singleton).
  destruct (progress_write idx s self1 id1 token l u1 [u2] Hrep Hr1) as (w1 & Hw1 & Hrep1 & Hids1 & Hh1 & Hf1).
  rewrite (add_posting_new id1 l Hl1) in Hrep1. fold k in Hrep1.
  assert (ready self2 [k] [u2] w1) as Hr2' by (by apply (ready_host self2 [k] [u1; u2] [u2] (index_map s) w1)).
  pose proof (progress_read idx s self1 m1 id1 token Hrep Hm1 Hseg) as Hread1.
  pose proof (progress_read idx s self2 m2 id2 token Hrep Hm2 Hseg) as Hread2. fold k l in Hread1, Hread2.
  destruct (pointwise_lookup _ _ _ _ _ Hh1 Hm2) as (m2' & Hm2' & _).
  split; cbn [run_schedule].
  - rewrite (st_bind_eq _ _ _ _ _ Hread1), (st_bind_eq _ _ _ _ _ Hw1).
    set (s1 := set_index w1 s).
    pose proof (progress_read _ s1 self2 m2' id2 token Hrep1 Hm2' Hseg) as Hread. fold k in Hread.
    rewrite lookup_insert_eq in Hread. simpl default in Hread. rewrite (st_bind_eq _ _ _ _ _ Hread).
    destruct (progress_write _ s1 self2 id2 token (l ++ [id1]) u2 [] Hrep1 Hr2')
      as (w2 & Hw2 & Hrep2 & _). rewrite (st_bind_eq _ _ _ _ _ Hw2).
    eexists. split; [reflexivity|]. simpl. fold k in Hrep2.
    rewrite insert_insert_eq, add_posting_new, <- app_assoc in Hrep2; [exact Hrep2|set_solver].
  - rewrite (st_bind_eq _ _ _ _ _ Hread1), (st_bind_eq _ _ _ _ _ Hread2), (st_bind_eq _ _ _ _ _ Hw1).
    set (s1 := set_index w1 s).
    destruct (progress_write _ s1 self2 id2 token l u2 [] Hrep1 Hr2') as (w2 & Hw2 & Hrep2 & _).
    rewrite (st_bind_eq _ _ _ _ _ Hw2). eexists. split; [reflexivity|]. simpl. fold k in Hrep2.
    by rewrite insert_insert_eq, add_posting_new in Hrep2.
Qed.

Lemma index_token_on_backup s self book_id token m l u us :
  let k := utf8 token in
  cluster addr_of (index_map s) -> quiet (index_map s) -> nodes (index_map s) !! self = Some m ->
  Storage.get_local k m = Some l -> Storage.local_id m ∈ tail (owners m k) ->
  uuids (env (index_map s)) = u :: us -> StorageNet.fresh_op u (index_map s) ->
  exists w' m', index_token path_segment self book_id token s = (Ok tt, set_index w' s) /\
    cluster addr_of w' /\ quiet w' /\ nodes w' !! self = Some m' /\
    Storage.get_local k m' = Some l /\ Storage.partitioner m' = Storage.partitioner m /\
    uuids (env w') = us /\
    (forall u', u' <> u -> StorageNet.fresh_op u' (index_map s) -> StorageNet.fresh_op u' w') /\
    forall i, head (owners m k) = Some i ->
      StorageNet.holds (home m k) k (add_posting book_id l) (addr_of i) w'.
Proof.
  intros k Hc Hq Hm Hl Hin Hu Hf. unfold index_token, get_postings, put_postings. fold k.
  pose proof (StorageNet.get_hit path_segment self k (index_map s) m l Hm Hl) as Hget.
  rewrite (st_bind_eq _ _ s l s) by
    (by rewrite (st_bind_eq _ _ _ _ _ (in_index_eq _ s _ _ Hget)), set_index_id).
  set (v := add_posting book_id l). set (w := index_map s) in *.
  set (w1 := set_env (mkEnv (fates (env w)) (rng (env w)) us (clock (env w))) w).
  assert (new_v4 w = (u, w1)) as Hnew by (unfold new_v4; by rewrite Hu).
  assert (cluster addr_of w1) as Hc1.
  { apply (cluster_keeps addr_of w); [done|]. by apply same_nodes_pointwise; [apply _|]. }
  destruct (StorageNet.put_quiet addr_of self k v u w1 m _ Hc1 Hf Hm Hq eq_refl) as (w' & Hrun & He & _).
  destruct (StorageNet.forwarder_keeps_data addr_of self k v u w1 (Ok tt) w' m Hc1 Hf Hm Hin Hrun)
    as (m' & Hm' & Hd & Hp).
  exists w', m'.
  assert (StorageNet.put self k v w = (Ok tt, w')) as Hput.
  { unfold StorageNet.put. by rewrite (st_bind_eq _ _ _ _ _ Hnew). }
  rewrite (in_index_eq _ s _ _ Hput).
  assert (pointwise (StorageNet.framed (home m k) k v) w1 w') as Hfr.
  { pose proof (StorageNet.put_with_op_framed self k v u w1 m _ Hm eq_refl) as Hfr. by rewrite Hrun in Hfr. }
  split_and!; [done| |unfold quiet; by rewrite He|done| |done|by rewrite He| |].
  - apply (cluster_keeps addr_of w1); [done|]. revert Hfr. apply pointwise_mono. by intros ?? [].
  - unfold Storage.get_local, Storage.lookup_in in *. by rewrite Hp, Hd.
  - intros u' Hne Hf'. replace w' with (StorageNet.put_with_op self k v u w1).2 by (by rewrite Hrun).
    by apply (StorageNet.put_fresh_other self k v u w1 m).
  - exact (proj1 (proj2 (StorageNet.put_ok_holds addr_of self k v u w1 w' m Hc1 Hf Hm Hrun))).
Qed.

(** A worker on a backup forgets.  A node that is a backup of a word and holds its posting list
    (as the anti-entropy passes see to) indexes two books with that word, one after the other, with
    no fault and no other node involved.  Both times it reports success; but its own copy is not
    updated by its first write, so that the second one overwrites the list at the primary without
    the first book. *)
Theorem backup_indexer_forgets s self token id1 id2 m l u1 u2 us :
  let k := utf8 token in
  cluster addr_of (index_map s) -> quiet (index_map s) -> nodes (index_map s) !! self = Some m ->
  Storage.get_local k m = Some l -> Storage.local_id m ∈ tail (owners m k) ->
  uuids (env (index_map s)) = u1 :: u2 :: us -> u1 <> u2 ->
  StorageNet.fresh_op u1 (index_map s) -> StorageNet.fresh_op u2 (index_map s) ->
  id1 <> id2 -> id1 ∉ l -> id2 ∉ l ->
  exists s1 s2, index_token path_segment self id1 token s = (Ok tt, s1) /\
    index_token path_segment self id2 token s1 = (Ok tt, s2) /\
    forall i, head (owners m k) = Some i ->
      StorageNet.holds (home m k) k (l ++ [id1]) (addr_of i) (index_map s1) /\
      StorageNet.holds (home m k) k (l ++ [id2]) (addr_of i) (index_map s2).
Proof.
  intros k Hc Hq Hm Hl Hin Hu Hne Hf1 Hf2 Hid Hl1 Hl2.
  destruct (index_token_on_backup s self id1 token m l u1 (u2 :: us) Hc Hq Hm Hl Hin Hu Hf1)
    as (w1 & m1 & Hrun1 & Hc1 & Hq1 & Hm1 & Hloc1 & Hp1 & Hu1 & Hfr1 & Hh1).
  assert (owners m1 k = owners m k /\ home m1 k = home m k) as [Ho Hhome]
    by (unfold owners, home; by rewrite Hp1).
  assert (Storage.local_id m1 ∈ tail (owners m1 k)) as Hin1.
  { rewrite Ho. unfold Storage.local_id in *. by rewrite Hp1. }
  destruct (index_token_on_backup (set_index w1 s) self id2 token m1 l u2 us Hc1 Hq1 Hm1 Hloc1 Hin1 Hu1
    (Hfr1 u2 (not_eq_sym Hne) Hf2)) as (w2 & m2 & Hrun2 & _ & _ & _ & _ & _ & _ & _ & Hh2).
  exists (set_index w1 s), (set_index w2 (set_index w1 s)). split_and!; [exact Hrun1|exact Hrun2|].
  intros i Hi. split.
  - rewrite <- (add_posting_new id1 l Hl1). exact (Hh1 i Hi).
  - rewrite <- (add_posting_new id2 l Hl2), <- Hhome. exact (Hh2 i (eq_trans (f_equal head Ho) Hi)).
Qed.

(** ** Books without a text *)

(** A book created by hand is not indexed.  [handle_create_book] registers the metadata under a
    new id and submits the indexing task to every owner of the queue, and answers 201; but it stores
    no text, so that the task, wherever it is executed, succeeds without touching the index. *)
Theorem created_book_is_not_indexed set_order lake registry s self worker mb mq md req id u us ut uts :
  let book_id := ascii_text id in
  let key := utf8 book_id in
  path_segment key = Some key ->
  represents addr_of lake (datalake s) -> nodes (datalake s) !! worker = Some md -> lake !! key = None ->
  represents addr_of registry (books s) -> nodes (books s) !! self = Some mb ->
  uuids (env (books s)) = id :: u :: us -> StorageNet.fresh_op u (books s) -> may_write mb key ->
  cluster addr_of (tasks s) -> quiet (tasks s) -> nodes (tasks s) !! self = Some mq ->
  uuids (env (tasks s)) = ut :: uts -> QueueNet.fresh_id (Queue.mkTaskId ut) (tasks s) ->
  exists s', handle_create_book self req s = (mkResponse CREATED (mkCreated book_id), s') /\
    represents addr_of
      (<[key := mkBook book_id (cb_title req) (cb_author req) (cb_language req) (cb_year req) 0 0]> registry)
      (books s') /\
    (let p := get_partition (Queue.partitioner mq) ut in
     forall i, i ∈ get_owners (Queue.partitioner mq) p ->
       QueueNet.has_new p (Queue.mkTaskId ut) (index_task book_id) (addr_of i) (tasks s')) /\
    index_map s' = index_map s /\
    index_document path_segment set_order worker (mkIndexTask book_id) s' = (Ok tt, s').
Proof.
  intros book_id key Hseg Hlake Hmd Hnone Hreg Hmb Hub Hfb Hmay Hct Hqt Hmq Hut Hft.
  unfold handle_create_book.
  set (w1 := set_env (mkEnv (fates (env (books s))) (rng (env (books s))) (u :: us) (clock (env (books s))))
    (books s)).
  assert (new_v4 (books s) = (id, w1)) as Hnew by (unfold new_v4; by rewrite Hub).
  rewrite (st_bind_eq _ _ _ _ _ (in_books_eq _ s _ _ Hnew)). fold book_id key.
  pose proof (represents_env addr_of registry (books s) (env w1) Hreg (rp_quiet _ _ _ Hreg)) as Hreg1.
  destruct (put_represents_new addr_of registry w1 self mb key
    (mkBook book_id (cb_title req) (cb_author req) (cb_language req) (cb_year req) 0 0) u us
    Hreg1 eq_refl Hfb Hmb Hmay) as (wb & Hb & _ & Hbr & _).
  rewrite (st_bind_eq _ _ _ _ _ (in_books_eq _ (set_books w1 s) _ _ Hb)).
  destruct (QueueNet.submit_quiet addr_of self (index_task book_id) (tasks s) ut uts mq Hct Hqt Hut Hmq)
    as (wt & Ht & _ & _).
  pose proof (QueueNet.submit_spec addr_of self (index_task book_id) (tasks s) ut uts mq Hct Hut Hmq Hft) as Hs.
  simpl in Hs. rewrite Ht in Hs. destruct Hs as [_ Hs]. destruct (Hs eq_refl) as (_ & _ & Hth).
  rewrite (st_bind_eq _ _ _ _ _ (in_tasks_eq _ (set_books wb (set_books w1 s)) _ _ Ht)).
  set (s' := set_tasks wt _). exists s'. split; [reflexivity|].
  split_and!; [exact Hbr|exact Hth|done|]. unfold index_document. simpl it_book_id. fold key.
  pose proof (get_represents path_segment addr_of lake (datalake s) worker md key Hseg Hlake Hmd) as Hget.
  rewrite Hnone in Hget. change (datalake s) with (datalake s') in Hget.
  by rewrite (st_bind_eq _ _ _ _ _ (in_datalake_eq _ s' _ _ Hget)), set_datalake_id.
Qed.
End indexing_spec.

(** ** Witnesses *)

Module Example.
#[local] Existing Instances Storage.countable_serde Storage.countable_serde_laws.
Import Text.Ascii StorageNet.Example StorageSpec.Example.

Definition order (X : gset text) : list text := elements X.
Lemma order_elements X : order X ≡ₚ elements X.
Proof. done. Qed.

Definition whaling : RawDocument :=
  mkRaw (ascii_text "1") [] (ascii_text "The White Whale!") (ascii_text "http://localhost/1").
Definition library : list (string * RawDocument) := [("1", whaling)].
Definition postings : list (string * list text) := [("whale", [ascii_text "2"]); ("ship", [ascii_text "2"])].
Definition catalogue : list (string * BookMetadata) :=
  [("1", Search.Example.book "1" "Moby-Dick"); ("2", Search.Example.book "2" "Typee")].
Definition with_ids (ids : list string) {V} (w : World (Storage.DistributedMap string V)) :=
  set_env (mkEnv [] [] ids 0) w.
Definition jobs (x : string) : Queue.DistributedQueue Value :=
  Queue.queue_new (example_pm ["a"; "b"; "c"] 2 x).
Definition shelf : Site :=
  mkSite (seed "/datalake" library) (with_ids ["new"; "b1"] (seed "/books" catalogue))
    (with_ids ["u1"; "u2"; "u3"] (seed "/index" postings))
    (mkWorld (example_nodes ["a"; "b"; "c"] jobs) (mkEnv [] [] ["t3"] 0)).

Lemma seeded {V} `{!Storage.Serde V, !Storage.SerdeLaws V} base (l : list (string * V)) ids :
  NoDup l.*1 ->
  represents example_addr (list_to_map l) (with_ids ids (seed base l)) /\
  (forall x, x ∈ ["a"; "b"; "c"] -> exists m, nodes (with_ids ids (seed base l)) !! on x = Some m /\
     Storage.partitioner m = example_pm ["a"; "b"; "c"] 2 x) /\
  (forall op, op ∉ l.*1 -> StorageNet.fresh_op op (with_ids ids (seed base l))).
Proof.
  intros Hnd. destruct (seed_spec base l Hnd) as (Hrep & Hup & Hf). split_and!; [|exact Hup|exact Hf].
  by apply represents_env.
Qed.

Lemma index_seeded ids :
  represents example_addr (list_to_map postings) (with_ids ids (seed "/index" postings)) /\
  (forall x, x ∈ ["a"; "b"; "c"] -> exists m, nodes (with_ids ids (seed "/index" postings)) !! on x = Some m /\
     Storage.partitioner m = example_pm ["a"; "b"; "c"] 2 x) /\
  (forall op, op ∉ postings.*1 -> StorageNet.fresh_op op (with_ids ids (seed "/index" postings))).
Proof. apply seeded. apply (bool_decide_unpack _). vm_compute. exact I. Qed.

Lemma not_backup x k (m : Storage.DistributedMap string (list text)) :
  Storage.partitioner m = example_pm ["a"; "b"; "c"] 2 x ->
  bool_decide (mkId x ∉ tail (get_owners (example_pm ["a"; "b"; "c"] 2 x)
    (get_partition (example_pm ["a"; "b"; "c"] 2 x) k))) = true ->
  Storage.local_id m ∉ tail (owners m k).
Proof. intros Hp Hb%bool_decide_eq_true. unfold Storage.local_id, owners, home. by rewrite Hp. Qed.

Lemma ready_at x ks ids :
  x ∈ ["a"; "b"; "c"] -> NoDup ids -> (forall u, u ∈ ids -> u ∉ postings.*1) ->
  forallb (fun k => bool_decide (mkId x ∉ tail (get_owners (example_pm ["a"; "b"; "c"] 2 x)
    (get_partition (example_pm ["a"; "b"; "c"] 2 x) k)))) ks = true ->
  ready (on x) ks ids (with_ids ids (seed "/index" postings)).
Proof.
  intros Hx Hnd Hids Hks. destruct (index_seeded ids) as (_ & Hup & Hf).
  split; [|done|intros u Hu; by apply Hf, Hids|done].
  destruct (Hup x Hx) as (m & Hm & Hp). exists m. split; [done|]. intros k Hk.
  apply (not_backup x); [done|]. rewrite forallb_forall in Hks. apply Hks. by apply list_elem_of_In.
Qed.

Lemma words_of_whaling :
  elements (tokenize_text (rd_body whaling)) = [ascii_text "white"; ascii_text "whale"; ascii_text "the"].
Proof. vm_compute. reflexivity. Qed.

Lemma library_at_b : represents example_addr (list_to_map library) (datalake shelf) /\
  exists m, nodes (datalake shelf) !! on "b" = Some m.
Proof.
  destruct (seed_spec "/datalake" library) as (Hrep & Hup & _).
  { apply (bool_decide_unpack _). vm_compute. exact I. }
  split; [exact Hrep|]. destruct (Hup "b" in_b) as (m & Hm & _). by exists m.
Qed.
Lemma catalogue_at_c : represents example_addr (list_to_map catalogue) (books shelf) /\
  exists m, nodes (books shelf) !! on "c" = Some m.
Proof.
  destruct (seeded "/books" catalogue ["new"; "b1"]) as (Hrep & Hup & _).
  { apply (bool_decide_unpack _). vm_compute. exact I. }
  split; [exact Hrep|]. destruct (Hup "c" in_c) as (m & Hm & _). by exists m.
Qed.
Lemma three_ids : NoDup ["u1"; "u2"; "u3"] /\ forall u, u ∈ ["u1"; "u2"; "u3"] -> u ∉ postings.*1.
Proof.
  split; [apply (bool_decide_unpack _); vm_compute; exact I|].
  apply Forall_forall. repeat constructor; apply (bool_decide_unpack _); vm_compute; exact I.
Qed.
Lemma worker_b : able (on "b") (utf8 <$> elements (tokenize_text (rd_body whaling))) ["u1"; "u2"; "u3"]
  (index_map shelf).
Proof.
  destruct (index_seeded ["u1"; "u2"; "u3"]) as [Hrep _]. apply (ready_able example_addr _ _ _ _ _ Hrep).
  destruct three_ids as [Hnd Hids]. apply (ready_at "b" _ _ in_b Hnd Hids).
  rewrite words_of_whaling. vm_compute. reflexivity.
Qed.

Lemma index_document_adds_witness :
  exists w' idx', index_document plain_segment order (on "b") (mkIndexTask (ascii_text "1")) shelf =
      (Ok tt, set_index w' shelf) /\ represents example_addr idx' w' /\
    idx' !! "whale" = Some [ascii_text "2"; ascii_text "1"] /\ idx' !! "ship" = Some [ascii_text "2"].
Proof.
  destruct library_at_b as [Hlake [md Hmd]]. destruct (index_seeded ["u1"; "u2"; "u3"]) as [Hrep _].
  pose proof (index_document_adds plain_segment example_addr order order_elements
    (list_to_map library) (list_to_map postings) shelf (on "b") md (ascii_text "1") whaling
    ["u1"; "u2"; "u3"]) as Hadd. cbv zeta in Hadd.
  specialize (Hadd Hlake Hmd eq_refl eq_refl Hrep worker_b).
  rewrite words_of_whaling in Hadd. specialize (Hadd (le_n 3) (fun _ _ => eq_refl)).
  destruct Hadd as (w' & idx' & Hrun & Hrep' & Hidx). exists w', idx'.
  split_and!; [exact Hrun|exact Hrep'| |].
  - rewrite Hidx. vm_compute. reflexivity.
  - rewrite Hidx. vm_compute. reflexivity.
Defined.

Lemma indexed_document_is_found_witness :
  exists s' results (n : nat),
    index_document plain_segment order (on "b") (mkIndexTask (ascii_text "1")) shelf = (Ok tt, s') /\
    search plain_segment Search.Example.backwards (on "c") (ascii_text "white") s' = (results, s') /\
    (Search.Example.book "1" "Moby-Dick", n) ∈ results.
Proof.
  destruct library_at_b as [Hlake [md Hmd]]. destruct catalogue_at_c as [Hcat [mb Hmb]].
  destruct (index_seeded ["u1"; "u2"; "u3"]) as (Hrep & Hup & _).
  destruct (Hup "c" in_c) as (mi & Hmi & _).
  assert (forall m, Search.Example.backwards m ≡ₚ map_to_list m) as Hback
    by (intros m; apply reverse_Permutation).
  pose proof (indexed_document_is_found plain_segment example_addr order order_elements
    Search.Example.backwards Hback
    (list_to_map library) (list_to_map postings) (list_to_map catalogue) shelf (on "b") md
    (ascii_text "1") whaling ["u1"; "u2"; "u3"] (ascii_text "white") (on "c") mi mb
    (Search.Example.book "1" "Moby-Dick")) as Hfound. cbv zeta in Hfound.
  specialize (Hfound Hlake Hmd eq_refl Hrep worker_b).
  rewrite words_of_whaling in Hfound.
  specialize (Hfound (le_n 3) Hcat eq_refl Hmi Hmb (fun _ _ => eq_refl) (fun _ _ => eq_refl)).
  destruct Hfound as (s' & results & Hrun & Hsearch & n & _ & Hin); [left|].
  exists s', results, n. split_and!; [exact Hrun|exact Hsearch|exact Hin].
Defined.

(** [b] is not an owner of ["whale"], [c] is its primary. *)
Definition race : Site :=
  mkSite (datalake shelf) (books shelf) (with_ids ["u1"; "u2"] (seed "/index" postings)) (tasks shelf).
Lemma two_ids : NoDup ["u1"; "u2"] /\ forall u, u ∈ ["u1"; "u2"] -> u ∉ postings.*1.
Proof.
  split; [apply (bool_decide_unpack _); vm_compute; exact I|].
  apply Forall_forall. repeat constructor; apply (bool_decide_unpack _); vm_compute; exact I.
Qed.

Lemma concurrent_indexing_loses_book_witness :
  exists s', run_schedule plain_segment (on "b") (on "c") (ascii_text "1") (ascii_text "3") (ascii_text "whale")
      [true; false; true; false] Waiting Waiting race = ((Finished (Ok tt), Finished (Ok tt)), s') /\
    represents example_addr (<["whale" := [ascii_text "2"; ascii_text "3"]]> (list_to_map postings))
      (index_map s').
Proof.
  destruct (index_seeded ["u1"; "u2"]) as [Hrep _]. destruct two_ids as [Hnd Hids].
  pose proof (concurrent_indexing_loses_book plain_segment example_addr
    (list_to_map postings) race (on "b") (on "c") (ascii_text "1") (ascii_text "3") (ascii_text "whale")
    "u1" "u2") as Hrace. cbv zeta in Hrace.
  specialize (Hrace eq_refl Hrep).
  assert (forall x, x = "b" \/ x = "c" ->
    ready (on x) [utf8 (ascii_text "whale")] ["u1"; "u2"] (index_map race)) as Hready.
  { intros x Hx. apply (ready_at x).
    - destruct Hx as [->| ->]; [apply in_b|apply in_c].
    - exact Hnd.
    - exact Hids.
    - destruct Hx as [->| ->]; vm_compute; reflexivity. }
  specialize (Hrace (Hready "b" (or_introl eq_refl)) (Hready "c" (or_intror eq_refl))).
  destruct Hrace as [_ (s' & Hrun & Hrep')].
  - done.
  - apply (bool_decide_unpack _). vm_compute. exact I.
  - apply (bool_decide_unpack _). vm_compute. exact I.
  - exists s'. split; [exact Hrun|exact Hrep'].
Defined.

(** [c] is a backup of ["ship"] and holds a copy. *)
Lemma backup_indexer_forgets_witness :
  exists s1 s2, index_token plain_segment (on "c") (ascii_text "1") (ascii_text "ship") race = (Ok tt, s1) /\
    index_token plain_segment (on "c") (ascii_text "3") (ascii_text "ship") s1 = (Ok tt, s2) /\
    StorageNet.holds (part "ship") "ship" [ascii_text "2"; ascii_text "3"] (on "b") (index_map s2).
Proof.
  destruct (index_seeded ["u1"; "u2"]) as (Hrep & Hup & Hf). destruct (Hup "c" in_c) as (m & Hm & Hp).
  assert (Storage.get_local "ship" m = Some [ascii_text "2"]) as Hl.
  { assert ((m' ← nodes (index_map race) !! on "c"; Storage.get_local "ship" m') = Some [ascii_text "2"])
      as Hc by (vm_compute; reflexivity).
    change (nodes (index_map race) !! on "c") with
      (nodes (with_ids ["u1"; "u2"] (seed "/index" postings)) !! on "c") in Hc.
    rewrite Hm in Hc. exact Hc. }
  assert (home m "ship" = part "ship" /\ owners m "ship" = [mkId "b"; mkId "c"]) as [Hhome Ho].
  { unfold owners, home. rewrite Hp. split; vm_compute; reflexivity. }
  pose proof (backup_indexer_forgets plain_segment example_addr race (on "c") (ascii_text "ship")
    (ascii_text "1") (ascii_text "3") m [ascii_text "2"] "u1" "u2" []) as Hforget. cbv zeta in Hforget.
  specialize (Hforget (rp_cluster _ _ _ Hrep) eq_refl Hm Hl).
  change (utf8 (ascii_text "ship")) with "ship" in Hforget. rewrite Ho, Hhome in Hforget.
  assert (Storage.local_id m = mkId "c") as Hid by (unfold Storage.local_id; by rewrite Hp).
  rewrite Hid in Hforget. specialize (Hforget (list_elem_of_here _ _) eq_refl).
  destruct Hforget as (s1 & s2 & H1 & H2 & Hh).
  - done.
  - apply Hf. apply (bool_decide_unpack _). vm_compute. exact I.
  - apply Hf. apply (bool_decide_unpack _). vm_compute. exact I.
  - done.
  - apply (bool_decide_unpack _). vm_compute. exact I.
  - apply (bool_decide_unpack _). vm_compute. exact I.
  - exists s1, s2. split_and!; [exact H1|exact H2|]. exact (proj2 (Hh (mkId "b") eq_refl)).
Defined.

Lemma jobs_at_a : cluster example_addr (tasks shelf) /\ nodes (tasks shelf) !! on "a" = Some (jobs "a").
Proof.
  assert (NoDup ["a"; "b"; "c"]) as Hnd by (apply (bool_decide_unpack _); vm_compute; exact I).
  split; [by apply (example_cluster _ 2)|]. apply example_nodes_lookup; [exact Hnd|apply in_a].
Qed.
Lemma shelf_jobs_fresh i : QueueNet.fresh_id i (tasks shelf).
Proof.
  intros a q p (x & _ & -> & ->)%example_nodes_inv. unfold Queue.lookup_task. simpl.
  by rewrite lookup_empty.
Qed.

Lemma created_book_is_not_indexed_witness :
  exists s', handle_create_book (on "a")
      (mkCreateBook (ascii_text "Omoo") (ascii_text "Melville") (ascii_text "en") (Some 1847)) shelf =
      (mkResponse CREATED (mkCreated (ascii_text "new")), s') /\
    index_document plain_segment order (on "b") (mkIndexTask (ascii_text "new")) s' = (Ok tt, s').
Proof.
  destruct library_at_b as [Hlake [md Hmd]].
  destruct (seeded "/books" catalogue ["new"; "b1"]) as (Hreg & Hup & Hf).
  { apply (bool_decide_unpack _). vm_compute. exact I. }
  destruct (Hup "a" in_a) as (mb & Hmb & _). destruct jobs_at_a as [Hct Hmq].
  pose proof (created_book_is_not_indexed plain_segment example_addr order
    (list_to_map library) (list_to_map catalogue) shelf (on "a") (on "b") mb (jobs "a") md
    (mkCreateBook (ascii_text "Omoo") (ascii_text "Melville") (ascii_text "en") (Some 1847))
    "new" "b1" [] "t3" []) as Hnew. cbv zeta in Hnew.
  specialize (Hnew eq_refl Hlake Hmd eq_refl Hreg Hmb eq_refl).
  destruct Hnew as (s' & Hrun & _ & _ & _ & Hidx).
  - apply Hf. apply (bool_decide_unpack _). vm_compute. exact I.
  - right. destruct (Storage.get_local (utf8 (ascii_text "new")) mb) as [x|] eqn:Hx; [|done].
    destruct (rp_sound _ _ _ Hreg _ _ _ _ Hmb Hx) as [Hl _]. vm_compute in Hl. done.
  - exact Hct.
  - reflexivity.
  - exact Hmq.
  - reflexivity.
  - apply shelf_jobs_fresh.
  - exists s'. split; [exact Hrun|exact Hidx].
Defined.
End Example.
