(* ===== verification/Ingestion.v ===== *)
(** * Ingestion: src/ingestion/types.rs and src/ingestion/handlers.rs

    Splitting a Project Gutenberg text, reading its metadata, and the handler that stores both and
    schedules the indexing task.  The matches of regular expressions, which the regex crate
    computes, are the interface [Regexes]. *)

From S2P Require Import Prelude Membership Partitioner Net Topology Text Documents StorageSpec.
From S2P Require Storage StorageNet Queue QueueNet.

#[local] Open Scope Z_scope.
#[local] Existing Instances Storage.string_key Storage.string_key_laws
  StorageNet.DistributedMap_hosted Queue.DistributedQueue_hosted.

(** ** Splitting *)

Definition START_MARKER : text := Eval vm_compute in ascii_text "*** START OF THE PROJECT GUTENBERG EBOOK".
Definition END_MARKER : text := Eval vm_compute in ascii_text "*** END OF THE PROJECT GUTENBERG EBOOK".

(** [str::split_at] at a byte offset; [None] is a panic (out of range, or not between two
    characters). *)
Fixpoint split_at_byte (n : nat) (t : text) : option (text * text) :=
  match n with
  | O => Some ([], t)
  | _ => match t with
         | [] => None
         | c :: t' => if bool_decide (n < len_utf8 c)%nat then None
                      else (fun r => (c :: r.1, r.2)) <$> split_at_byte (n - len_utf8 c) t'
         end
  end.

(** [text[i..j]], [None] being a panic. *)
Definition slice (i j : nat) (t : text) : option text :=
  if bool_decide (j < i)%nat then None else
  upto ← split_at_byte j t;
  from ← split_at_byte i upto.1;
  Some from.2.

(** [str::find], the byte offset of the first occurrence. *)
Definition find_byte (p t : text) : option nat := len <$> find p t.

(** [split_gutenberg_text]; the outer [option] is [None] if the function panics. *)
Definition split_gutenberg_text (t : text) : option (option (text * text)) :=
  match find_byte START_MARKER t, find_byte END_MARKER t with
  | Some start_idx, Some end_idx =>
      if bool_decide (end_idx <= start_idx)%nat then Some None else
      header ← slice 0 start_idx t;
      body ← slice (start_idx + len START_MARKER) end_idx t;
      Some (Some (trim header, trim body))
  | _, _ => Some None
  end.

(** *** Slicing at the ends of known prefixes *)

Lemma len_app a b : len (a ++ b) = (len a + len b)%nat.
Proof. unfold len. rewrite fmap_app. apply sum_list_with_app. Qed.

Lemma len_cons c t : len (c :: t) = (len_utf8 c + len t)%nat.
Proof. done. Qed.

Lemma len_utf8_pos c : (0 < len_utf8 c)%nat.
Proof. unfold len_utf8. repeat case_bool_decide; lia. Qed.

Lemma split_at_byte_app a b : split_at_byte (len a) (a ++ b) = Some (a, b).
Proof.
  induction a as [|c a IH]; [by destruct b|].
  assert (len (c :: a) = (len_utf8 c + len a)%nat) as Hl by done.
  pose proof (len_utf8_pos c). simpl app. destruct (len (c :: a)) as [|n] eqn:E; [lia|].
  cbn [split_at_byte]. rewrite bool_decide_eq_false_2 by lia.
  replace (S n - len_utf8 c)%nat with (len a) by lia. by rewrite IH.
Qed.

Lemma slice_app a b c : slice (len a) (len (a ++ b)) (a ++ b ++ c) = Some b.
Proof.
  unfold slice. rewrite bool_decide_eq_false_2 by (rewrite len_app; lia).
  rewrite (app_assoc a b c), split_at_byte_app. simpl. by rewrite split_at_byte_app.
Qed.

(** *** The markers do not overlap *)

(** Two texts that begin the same, as far as the shorter one goes. *)
Fixpoint compatible (a b : text) : bool :=
  match a, b with
  | x :: a', y :: b' => bool_decide (x = y) && compatible a' b'
  | _, _ => true
  end.

Lemma compatible_app a b r r' : a ++ r = b ++ r' -> compatible a b = true.
Proof.
  revert b. induction a as [|x a IH]; intros [|y b]; simpl; try done. intros [= -> Heq].
  rewrite bool_decide_eq_true_2 by done. by apply IH.
Qed.

Lemma markers_apart d after after' :
  d <> [] -> START_MARKER ++ after = d ++ END_MARKER ++ after' ->
  exists b, d = START_MARKER ++ b.
Proof.
  intros Hd Heq. destruct (decide (length START_MARKER <= length d)%nat) as [Hl|Hl].
  - exists (drop (length START_MARKER) d).
    assert (take (length START_MARKER) d = START_MARKER) as Ht.
    { apply (f_equal (take (length START_MARKER))) in Heq.
      rewrite take_app_length, take_app_le in Heq by done. done. }
    rewrite <- Ht at 1. symmetry. apply take_drop.
  - exfalso. assert (START_MARKER = d ++ drop (length d) START_MARKER) as Hs.
    { apply (f_equal (take (length d))) in Heq as Ht.
      rewrite take_app_length, take_app_le in Ht by lia. rewrite <- Ht at 1.
      symmetry. apply take_drop. }
    rewrite Hs, <- app_assoc in Heq. apply app_inv_head in Heq. apply compatible_app in Heq.
    assert (0 < length d)%nat as Hpos by (destruct d; [done|simpl; lia]).
    assert (forall k, k ∈ seq 1 (length START_MARKER - 1) ->
              compatible (drop k START_MARKER) END_MARKER = false) as Hno.
    { apply Forall_forall. vm_compute. repeat constructor. }
    rewrite (Hno (length d)) in Heq; [done|]. apply elem_of_seq. lia.
Qed.

Lemma prefixes_nested (a b r r' : text) :
  a ++ r = b ++ r' -> (len a < len b)%nat -> exists d, b = a ++ d /\ d <> [] /\ r = d ++ r'.
Proof.
  revert b. induction a as [|x a IH]; intros [|y b] Heq Hl; simpl in *.
  - unfold len in Hl. simpl in Hl. lia.
  - exists (y :: b). by split_and!.
  - unfold len in Hl. simpl in Hl. lia.
  - injection Heq as <- Heq. assert (len a < len b)%nat as Hl' by (rewrite !len_cons in Hl; lia).
    destruct (IH b Heq Hl') as (d & -> & Hd & Hr). exists d. by split_and!.
Qed.

Lemma split_gutenberg_cases t :
  exists r, split_gutenberg_text t = Some r /\
  match r with
  | Some (header, body) => exists h b rest,
      t = h ++ START_MARKER ++ b ++ END_MARKER ++ rest /\
      find START_MARKER t = Some h /\ find END_MARKER t = Some (h ++ START_MARKER ++ b) /\
      header = trim h /\ body = trim b
  | None => find START_MARKER t = None \/ find END_MARKER t = None \/
      exists s e, find START_MARKER t = Some s /\ find END_MARKER t = Some e /\
                  (len e <= len s)%nat
  end.
Proof.
  unfold split_gutenberg_text, find_byte.
  destruct (find START_MARKER t) as [s|] eqn:Es; [|eexists; split; [done|by left]].
  destruct (find END_MARKER t) as [e|] eqn:Ee; [|eexists; split; [done|by right; left]].
  simpl. case_bool_decide as Hle.
  { eexists. split; [done|]. right. right. by exists s, e. }
  pose proof (proj1 (find_Some _ _ _) Es) as [[a1 H1] _].
  pose proof (proj1 (find_Some _ _ _) Ee) as [[a2 H2] _].
  destruct (prefixes_nested s e (START_MARKER ++ a1) (END_MARKER ++ a2)) as (d & -> & Hd & Hr);
    [congruence|lia|].
  destruct (markers_apart d a1 a2 Hd Hr) as [b ->].
  assert (slice 0 (len s) t = Some s) as ->.
  { rewrite H1. exact (slice_app [] s (START_MARKER ++ a1)). }
  assert (slice (len s + len START_MARKER) (len (s ++ START_MARKER ++ b)) t = Some b) as ->.
  { rewrite <- len_app, (app_assoc s START_MARKER b).
    replace t with ((s ++ START_MARKER) ++ b ++ END_MARKER ++ a2) by (by rewrite H2, <- !app_assoc).
    apply slice_app. }
  eexists. split; [done|]. simpl. exists s, b, a2. split_and!; [|done..].
  rewrite H2. by rewrite <- !app_assoc.
Qed.

(** C36: splitting.  [split_gutenberg_text] never panics.  It fails exactly when one of the markers
    is missing or the first end marker does not come after the first start marker; otherwise the
    header is what precedes the start marker and the body what lies between the markers, both
    trimmed. *)
Theorem split_gutenberg_spec t :
  exists r, split_gutenberg_text t = Some r /\
  match r with
  | Some (header, body) => exists h b rest,
      t = h ++ START_MARKER ++ b ++ END_MARKER ++ rest /\
      find START_MARKER t = Some h /\ find END_MARKER t = Some (h ++ START_MARKER ++ b) /\
      header = trim h /\ body = trim b
  | None => find START_MARKER t = None \/ find END_MARKER t = None \/
      exists s e, find START_MARKER t = Some s /\ find END_MARKER t = Some e /\
                  (len e <= len s)%nat
  end.
Proof. apply split_gutenberg_cases. Qed.

(** ** Metadata *)

(** [extract_header_field]: the value on the first line that starts with the label, if it is not
    blank. *)
Definition extract_header_field (header label : text) : option text :=
  match list_find (fun line => is_Some (strip_prefix label line)) (lines header) with
  | Some (_, line) =>
      value ← trim <$> strip_prefix label line;
      if decide (value = []) then None else Some value
  | None => None
  end.

(** [str::parse::<u32>]: an optional plus sign, then decimal digits, without overflow. *)
Fixpoint parse_digits (acc : Z) (t : text) : option Z :=
  match t with
  | [] => Some acc
  | c :: t' =>
      if is_ascii_digit c
      then let acc := acc * 10 + (c - 48) in
           if bool_decide (acc < 2 ^ 32) then parse_digits acc t' else None
      else None
  end.
Definition parse_u32 (t : text) : option Z :=
  let digits := match t with c :: t' => if decide (c = 43) then t' else t | [] => t end in
  match digits with [] => None | _ => parse_digits 0 digits end.

Section metadata.
Context `{Unicode, Regexes}.

Definition extract_year (field : option text) : option Z :=
  t ← field; m ← match_digits4 t; parse_u32 m.

(** [compute_counts]: the words, and the distinct words up to case. *)
Definition compute_counts (body : text) : nat * nat :=
  let found := match_words body in
  (length found, size (list_to_set (to_lowercase <$> found) : gset text)).

Definition parse_metadata (header book_id : text) (word_count unique_words : nat)
    : BookMetadata :=
  mkBook book_id
    (default (ascii_text "Book " ++ book_id) (extract_header_field header (ascii_text "Title:")))
    (default (ascii_text "Unknown") (extract_header_field header (ascii_text "Author:")))
    (default (ascii_text "unknown") (extract_header_field header (ascii_text "Language:")))
    (extract_year (extract_header_field header (ascii_text "Release Date:")))
    word_count unique_words.

(** ** The handlers *)

Definition source_url (book_id : text) : text :=
  ascii_text "https://www.gutenberg.org/cache/epub/" ++ book_id ++ ascii_text "/pg" ++ book_id ++
  ascii_text ".txt".

Section handlers.
Context `{!Storage.Serde RawDocument, !Storage.Serde BookMetadata}.
(** What the HTTP stack makes of a path segment, and [reqwest::get]: the status of the response with
    the outcome of reading its body as text. *)
Context (path_segment : string -> option string) (reqwest_get : text -> result (Z * result text)).

(** [fetch_gutenberg_text]: the status is not looked at. *)
Definition fetch_gutenberg_text (url : text) : result text :=
  response ← reqwest_get url; snd response.

(** [handle_ingest_gutenberg]; [None] if it panics. *)
Definition handle_ingest_gutenberg (self : SocketAddr) (book_id : text)
    : ST Site (option (Response IngestResponse)) :=
  let url := source_url book_id in
  let respond (code : Z) (status : string) : ST Site (option (Response IngestResponse)) :=
    st_ret (Some (mkResponse code (mkIngest book_id status url))) in
  existing <- in_datalake (StorageNet.get path_segment self (utf8 book_id)) ;;
  match existing with
  | Some _ => respond OK "already_exists"%string
  | None =>
      match fetch_gutenberg_text url with
      | Err _ => respond BAD_GATEWAY "download_failed"%string
      | Ok t =>
          match split_gutenberg_text t with
          | None => st_ret None
          | Some None => respond UNPROCESSABLE_ENTITY "invalid_format"%string
          | Some (Some (header, body)) =>
              let '(word_count, unique_words) := compute_counts body in
              let metadata := parse_metadata header book_id word_count unique_words in
              let raw_doc := mkRaw book_id header body url in
              stored <- in_datalake (StorageNet.put self (utf8 book_id) raw_doc) ;;
              match stored with
              | Err _ => respond INTERNAL_SERVER_ERROR "datalake_store_failed"%string
              | Ok _ =>
                  _ <- in_books (StorageNet.put self (utf8 book_id) metadata) ;;
                  _ <- in_tasks (QueueNet.submit self (index_task book_id)) ;;
                  respond ACCEPTED "ingested"%string
              end
          end
      end
  end.

(** [handle_ingest_status]. *)
Definition handle_ingest_status (self : SocketAddr) (book_id : text)
    : ST Site (Response IngestStatusResponse) :=
  found <- in_datalake (StorageNet.get path_segment self (utf8 book_id)) ;;
  st_ret (mkResponse OK (mkIngestStatus book_id
    (match found with Some _ => "available" | None => "missing" end))).
End handlers.

(** ** Properties *)

Lemma parse_digits_bound acc t y :
  0 <= acc -> parse_digits acc t = Some y ->
  acc * 10 ^ Z.of_nat (length t) <= y < (acc + 1) * 10 ^ Z.of_nat (length t) /\
  Forall (fun c => is_ascii_digit c = true) t.
Proof.
  revert acc. induction t as [|c t IH]; intros acc Hacc; simpl parse_digits.
  - intros [= <-]. simpl. split; [lia|constructor].
  - destruct (is_ascii_digit c) eqn:Hd; [|done]. unfold is_ascii_digit in Hd.
    apply bool_decide_eq_true in Hd. case_bool_decide; [|done].
    intros Hp. apply IH in Hp as [Hb Hf]; [|lia]. split.
    + simpl length. rewrite Nat2Z.inj_succ, Z.pow_succ_r by lia.
      pose proof (Z.pow_pos_nonneg 10 (Z.of_nat (length t))). nia.
    + constructor; [|done]. unfold is_ascii_digit. by apply bool_decide_eq_true_2.
Qed.

Context `{!RegexLaws}.

(** The year of a book has at most four digits: it fits the [u32] it is stored in, and parsing
    it cannot overflow. *)
Theorem extract_year_bound field y : extract_year field = Some y -> 0 <= y < 10000.
Proof.
  unfold extract_year. destruct field as [t|]; [|done]. simpl.
  destruct (match_digits4 t) as [m|] eqn:Em; [|done]. simpl.
  destruct (match_digits4_occurs t m Em) as [Hl _]. unfold parse_u32.
  set (d := match m with c :: t' => if decide (c = 43) then t' else m | [] => m end).
  assert (length d <= 4)%nat as Hd.
  { subst d. rewrite <- Hl. destruct m as [|c m]; [done|]. case_decide; simpl; lia. }
  intros Hp. assert (parse_digits 0 d = Some y) as Hpd by (destruct d; [done|exact Hp]).
  apply parse_digits_bound in Hpd as [[Hlo Hhi] _]; [|lia].
  assert (10 ^ Z.of_nat (length d) <= 10 ^ 4) by (apply Z.pow_le_mono_r; lia). lia.
Qed.

(** ** The handler end to end *)

Section ingest.
Context `{!Storage.Serde RawDocument, !Storage.SerdeLaws RawDocument,
          !Storage.Serde BookMetadata, !Storage.SerdeLaws BookMetadata}.
Context (path_segment : string -> option string) (reqwest_get : text -> result (Z * result text)).
Context (addr_of : NodeId -> SocketAddr).

(** A book that is new, can be downloaded and is well formed. *)
Lemma ingest_new self book_id s lake registry md mb mq ud uds ub ubs ut uts t header body :
  let key := utf8 book_id in
  let url := source_url book_id in
  path_segment key = Some key ->
  represents addr_of lake (datalake s) -> nodes (datalake s) !! self = Some md ->
  uuids (env (datalake s)) = ud :: uds -> StorageNet.fresh_op ud (datalake s) ->
  represents addr_of registry (books s) -> nodes (books s) !! self = Some mb ->
  uuids (env (books s)) = ub :: ubs -> StorageNet.fresh_op ub (books s) -> may_write mb key ->
  cluster addr_of (tasks s) -> quiet (tasks s) -> nodes (tasks s) !! self = Some mq ->
  uuids (env (tasks s)) = ut :: uts -> QueueNet.fresh_id (Queue.mkTaskId ut) (tasks s) ->
  lake !! key = None -> fetch_gutenberg_text reqwest_get url = Ok t ->
  split_gutenberg_text t = Some (Some (header, body)) ->
  exists wd wb wt, handle_ingest_gutenberg path_segment reqwest_get self book_id s =
      (Some (mkResponse ACCEPTED (mkIngest book_id "ingested" url)), mkSite wd wb (index_map s) wt) /\
    represents addr_of (<[key := mkRaw book_id header body url]> lake) wd /\
    pointwise same_host (datalake s) wd /\
    (let '(word_count, unique_words) := compute_counts body in
     represents addr_of (<[key := parse_metadata header book_id word_count unique_words]> registry) wb) /\
    pointwise same_host (books s) wb /\
    let p := get_partition (Queue.partitioner mq) ut in
    let new := Queue.mkTaskId ut in
    (forall i, i ∈ get_owners (Queue.partitioner mq) p ->
       QueueNet.has_new p new (index_task book_id) (addr_of i) wt) /\
    quiet wt /\ pointwise (QueueNet.submitted p new (index_task book_id)) (tasks s) wt.
Proof.
  intros key url Hseg Hlake Hmd Hud Hfd Hreg Hmb Hub Hfb Hmay Hct Hqt Hmq Hut Hft Hdoc Hfetch Hsplit.
  unfold handle_ingest_gutenberg. fold key url. cbv zeta.
  pose proof (get_represents path_segment addr_of lake (datalake s) self md key Hseg Hlake Hmd) as Hget.
  rewrite (st_bind_eq _ _ _ _ _ (in_datalake_eq _ s _ _ Hget)), set_datalake_id, Hdoc, Hfetch, Hsplit.
  destruct (compute_counts body) as [wc uw].
  assert (may_write md key) as Hmayd.
  { right. destruct (Storage.get_local key md) as [x|] eqn:Hx; [|done].
    destruct (rp_sound _ _ _ Hlake self md key x Hmd Hx). congruence. }
  destruct (put_represents_new addr_of lake (datalake s) self md key (mkRaw book_id header body url)
    ud uds Hlake Hud Hfd Hmd Hmayd) as (wd & Hd & _ & Hdr & Hdh & _).
  rewrite (st_bind_eq _ _ _ _ _ (in_datalake_eq _ s _ _ Hd)).
  destruct (put_represents_new addr_of registry (books s) self mb key
    (parse_metadata header book_id wc uw) ub ubs Hreg Hub Hfb Hmb Hmay) as (wb & Hb & _ & Hbr & Hbh & _).
  rewrite (st_bind_eq _ _ _ _ _ (in_books_eq _ (set_datalake wd s) _ _ Hb)).
  destruct (QueueNet.submit_quiet addr_of self (index_task book_id) (tasks s) ut uts mq
    Hct Hqt Hut Hmq) as (wt & Ht & Hqt' & _).
  pose proof (QueueNet.submit_spec addr_of self (index_task book_id) (tasks s) ut uts mq
    Hct Hut Hmq Hft) as Hs.
  simpl in Hs. rewrite Ht in Hs. destruct Hs as [Hsub Hs]. destruct (Hs eq_refl) as (_ & _ & Hth).
  rewrite (st_bind_eq _ _ _ _ _ (in_tasks_eq _ (set_books wb (set_datalake wd s)) _ _ Ht)).
  exists wd, wb, wt. cbv zeta.
  split_and!; [reflexivity|exact Hdr|exact Hdh|exact Hbr|exact Hbh|exact Hth|exact Hqt'|exact Hsub].
Qed.

(** The nodes that a put acknowledges to: the primary of the key, or the writer if there is no owner. *)
Definition stored_at {V} (k : string) (v : V) (self : SocketAddr)
    (m : Storage.DistributedMap string V) (w : World (Storage.DistributedMap string V)) : Prop :=
  let p := get_partition (Storage.partitioner m) k in
  match get_owners (Storage.partitioner m) p with
  | [] => StorageNet.holds p k v self w
  | primary :: _ => StorageNet.holds p k v (addr_of primary) w
  end.

(** An acknowledged put, in these terms. *)
Lemma put_stored {V} `{!Storage.Serde V, !Storage.SerdeLaws V} self k (v : V) w w' m u us :
  cluster addr_of w -> nodes w !! self = Some m ->
  uuids (env w) = u :: us -> StorageNet.fresh_op u w ->
  StorageNet.put self k v w = (Ok tt, w') -> stored_at k v self m w'.
Proof.
  intros Hc Hm Hu Hf Hrun. unfold StorageNet.put, st_bind, new_v4 in Hrun. rewrite Hu in Hrun.
  set (w1 := set_env _ w) in Hrun.
  assert (cluster addr_of w1) as Hc1.
  { apply (cluster_keeps addr_of w); [done|]. intros a. simpl. destruct (nodes w !! a); by constructor. }
  destruct (StorageNet.put_ok_holds addr_of self k v u w1 w' m Hc1 Hf Hm Hrun) as (Hnone & Hprimary & _).
  unfold stored_at. simpl in Hnone, Hprimary.
  destruct (get_owners _ _) as [|i l]; [by apply Hnone|by apply Hprimary].
Qed.

(** Whatever the network does. *)
Lemma ingest_any_network self book_id s md mb mq ud uds ub ubs ut uts :
  let key := utf8 book_id in
  let url := source_url book_id in
  cluster addr_of (datalake s) -> nodes (datalake s) !! self = Some md ->
  uuids (env (datalake s)) = ud :: uds -> StorageNet.fresh_op ud (datalake s) ->
  cluster addr_of (books s) -> nodes (books s) !! self = Some mb ->
  uuids (env (books s)) = ub :: ubs -> StorageNet.fresh_op ub (books s) ->
  cluster addr_of (tasks s) -> nodes (tasks s) !! self = Some mq ->
  uuids (env (tasks s)) = ut :: uts -> QueueNet.fresh_id (Queue.mkTaskId ut) (tasks s) ->
  exists resp s', handle_ingest_gutenberg path_segment reqwest_get self book_id s = (Some resp, s') /\
  let answer (code : Z) (status : string) := resp = mkResponse code (mkIngest book_id status url) in
  let untouched := same_nodes (datalake s) (datalake s') /\
    books s' = books s /\ index_map s' = index_map s /\ tasks s' = tasks s in
  match (StorageNet.get path_segment self key (datalake s)).1, fetch_gutenberg_text reqwest_get url with
  | Some _, _ => answer OK "already_exists"%string /\ untouched
  | None, Err _ => answer BAD_GATEWAY "download_failed"%string /\ untouched
  | None, Ok t =>
      match split_gutenberg_text t with
      | Some (Some (header, body)) =>
          let metadata :=
            let '(word_count, unique_words) := compute_counts body in
            parse_metadata header book_id word_count unique_words in
          let register := StorageNet.put self key metadata (books s) in
          let schedule := QueueNet.submit self (index_task book_id) (tasks s) in
          index_map s' = index_map s /\
          ((answer INTERNAL_SERVER_ERROR "datalake_store_failed"%string /\
            books s' = books s /\ tasks s' = tasks s) \/
           (answer ACCEPTED "ingested"%string /\
            stored_at key (mkRaw book_id header body url) self md (datalake s') /\
            books s' = register.2 /\ tasks s' = schedule.2 /\
            (register.1 = Ok tt -> stored_at key metadata self mb (books s')) /\
            (forall r, schedule.1 = Ok r -> r = Queue.mkTaskId ut /\
               let p := get_partition (Queue.partitioner mq) ut in
               forall i, i ∈ get_owners (Queue.partitioner mq) p ->
                 QueueNet.has_new p r (index_task book_id) (addr_of i) (tasks s'))))
      | _ => answer UNPROCESSABLE_ENTITY "invalid_format"%string /\ untouched
      end
  end.
Proof.
  intros key url Hcd Hmd Hud Hfd Hcb Hmb Hub Hfb Hct Hmq Hut Hft.
  unfold handle_ingest_gutenberg. fold key url. cbv zeta.
  pose proof (StorageNet.get_reads path_segment self key (datalake s)) as [Hn Hu].
  destruct (StorageNet.get path_segment self key (datalake s)) as [existing w1] eqn:Hget. simpl in Hn, Hu.
  rewrite (st_bind_eq _ _ _ _ _ (in_datalake_eq _ s _ _ Hget)).
  destruct existing as [d|]; [by eexists _, _|].
  destruct (fetch_gutenberg_text reqwest_get url) as [t|e]; [|by eexists _, _].
  destruct (split_gutenberg_cases t) as (parts & -> & _).
  destruct parts as [[header body]|]; [|by eexists _, _].
  destruct (compute_counts body) as [wc uw].
  destruct (StorageNet.put self key (mkRaw book_id header body url) w1) as [stored w2] eqn:Hput.
  rewrite (st_bind_eq _ _ _ _ _ (in_datalake_eq _ (set_datalake w1 s) _ _ Hput)).
  destruct stored as [[]|e]; [|eexists _, _; split; [done|]; split; [done|]; by left].
  destruct (StorageNet.put self key (parse_metadata header book_id wc uw) (books s)) as [rb wb] eqn:Hb.
  rewrite (st_bind_eq _ _ _ _ _ (in_books_eq _ (set_datalake w2 (set_datalake w1 s)) _ _ Hb)).
  destruct (QueueNet.submit self (index_task book_id) (tasks s)) as [rt wt] eqn:Ht.
  rewrite (st_bind_eq _ _ _ _ _
    (in_tasks_eq _ (set_books wb (set_datalake w2 (set_datalake w1 s))) _ _ Ht)).
  eexists _, _. split; [done|]. split; [done|]. right. split_and!; [done| |done|done| |].
  - apply (put_stored self key _ w1 w2 md ud uds); [|by rewrite Hn|by rewrite Hu| |exact Hput].
    + apply (cluster_keeps addr_of (datalake s)); [done|]. intros a. rewrite Hn.
      destruct (nodes (datalake s) !! a); by constructor.
    + intros a m Hm. apply (Hfd a m). by rewrite <- Hn.
  - simpl. intros ->. by apply (put_stored self key _ (books s) wb mb ub ubs).
  - simpl. intros r ->.
    destruct (QueueNet.submit_replicated addr_of self (index_task book_id) (tasks s) ut uts mq r wt
      Hct Hut Hmq Hft Ht) as (-> & _ & Hall). by split.
Qed.

(** C28: ingestion.  Whatever the network does, the response of [handle_ingest_gutenberg] tells what
    happened: 200 if the datalake was found to have the book, 502 if nothing could be downloaded and 422 if
    what was downloaded, be it an error page, has no proper markers, with nothing changed; 500 if
    the document could not be stored, with registry and queue untouched; otherwise 202, and then the
    document is at its primary.  The metadata is at its primary if that write succeeded, and the
    indexing task at its owners if that submission did: 202 promises neither.  Without faults, on
    stores that represent maps and from a node that may write the metadata, both succeed, and the
    maps then have the document and the metadata. *)
Theorem ingest_outcome self book_id s md mb mq ud uds ub ubs ut uts :
  let key := utf8 book_id in
  let url := source_url book_id in
  cluster addr_of (datalake s) -> nodes (datalake s) !! self = Some md ->
  uuids (env (datalake s)) = ud :: uds -> StorageNet.fresh_op ud (datalake s) ->
  cluster addr_of (books s) -> nodes (books s) !! self = Some mb ->
  uuids (env (books s)) = ub :: ubs -> StorageNet.fresh_op ub (books s) ->
  cluster addr_of (tasks s) -> nodes (tasks s) !! self = Some mq ->
  uuids (env (tasks s)) = ut :: uts -> QueueNet.fresh_id (Queue.mkTaskId ut) (tasks s) ->
  exists resp s', handle_ingest_gutenberg path_segment reqwest_get self book_id s = (Some resp, s') /\
  let answer (code : Z) (status : string) := resp = mkResponse code (mkIngest book_id status url) in
  let untouched := same_nodes (datalake s) (datalake s') /\
    books s' = books s /\ index_map s' = index_map s /\ tasks s' = tasks s in
  match (StorageNet.get path_segment self key (datalake s)).1, fetch_gutenberg_text reqwest_get url with
  | Some _, _ => answer OK "already_exists"%string /\ untouched
  | None, Err _ => answer BAD_GATEWAY "download_failed"%string /\ untouched
  | None, Ok t =>
      match split_gutenberg_text t with
      | Some (Some (header, body)) =>
          let metadata :=
            let '(word_count, unique_words) := compute_counts body in
            parse_metadata header book_id word_count unique_words in
          let register := StorageNet.put self key metadata (books s) in
          let schedule := QueueNet.submit self (index_task book_id) (tasks s) in
          index_map s' = index_map s /\
          ((answer INTERNAL_SERVER_ERROR "datalake_store_failed"%string /\
            books s' = books s /\ tasks s' = tasks s) \/
           (answer ACCEPTED "ingested"%string /\
            stored_at key (mkRaw book_id header body url) self md (datalake s') /\
            books s' = register.2 /\ tasks s' = schedule.2 /\
            (register.1 = Ok tt -> stored_at key metadata self mb (books s')) /\
            (forall r, schedule.1 = Ok r -> r = Queue.mkTaskId ut /\
               let p := get_partition (Queue.partitioner mq) ut in
               forall i, i ∈ get_owners (Queue.partitioner mq) p ->
                 QueueNet.has_new p r (index_task book_id) (addr_of i) (tasks s')))) /\
          (forall lake registry, path_segment key = Some key ->
            represents addr_of lake (datalake s) -> lake !! key = None ->
            represents addr_of registry (books s) -> may_write mb key -> quiet (tasks s) ->
            answer ACCEPTED "ingested"%string /\
            represents addr_of (<[key := mkRaw book_id header body url]> lake) (datalake s') /\
            represents addr_of (<[key := metadata]> registry) (books s') /\
            schedule.1 = Ok (Queue.mkTaskId ut))
      | _ => answer UNPROCESSABLE_ENTITY "invalid_format"%string /\ untouched
      end
  end.
Proof.
  intros key url Hcd Hmd Hud Hfd Hcb Hmb Hub Hfb Hct Hmq Hut Hft.
  destruct (ingest_any_network self book_id s md mb mq ud uds ub ubs ut uts Hcd Hmd Hud Hfd Hcb Hmb Hub Hfb
    Hct Hmq Hut Hft) as (resp & s' & Hrun & Hout).
  exists resp, s'. split; [exact Hrun|]. fold key url in Hout. cbv zeta in Hout |- *.
  destruct (StorageNet.get _ _ _ _).1; [exact Hout|].
  destruct (fetch_gutenberg_text reqwest_get url) as [t|e] eqn:Hfetch; [|exact Hout].
  destruct (split_gutenberg_text t) as [[[header body]|]|] eqn:Hsplit; [|exact Hout..].
  destruct Hout as [Hi Hor]. split_and!; [exact Hi|exact Hor|].
  intros lake registry Hseg Hlake Hnone Hreg Hmay Hq.
  destruct (ingest_new self book_id s lake registry md mb mq ud uds ub ubs ut uts t header body
    Hseg Hlake Hmd Hud Hfd Hreg Hmb Hub Hfb Hmay Hct Hq Hmq Hut Hft Hnone Hfetch Hsplit)
    as (wd & wb & wt & Hrun' & Hdr & _ & Hbr & _ & _).
  rewrite Hrun in Hrun'. injection Hrun' as -> ->.
  destruct (QueueNet.submit_quiet addr_of self (index_task book_id) (tasks s) ut uts mq
    Hct Hq Hut Hmq) as (wt' & -> & _).
  split_and!; [done|exact Hdr| |done]. by destruct (compute_counts body).
Qed.
End ingest.
End metadata.

(** ** Witnesses *)

Module Example.
#[local] Existing Instances Storage.countable_serde Storage.countable_serde_laws.
Import Text.Ascii StorageSpec.Example.

Lemma extract_year_bound_witness :
  extract_year (Some (ascii_text "July 4, 1865 [eBook #11]")) = Some 1865 /\ 0 <= 1865 < 10000.
Proof.
  assert (extract_year (Some (ascii_text "July 4, 1865 [eBook #11]")) = Some 1865) as Hy
    by (vm_compute; reflexivity).
  split; [exact Hy|]. exact (extract_year_bound _ _ Hy).
Defined.

Definition pm (x : string) : PartitionManager := example_pm ["a"; "b"; "c"] 2 x.
Definition on (x : string) : SocketAddr := mkAddr x 6000.
Definition env_with (u : string) : Env := mkEnv [] [] [u] 0.
Definition jobs (x : string) : Queue.DistributedQueue Value := Queue.queue_new (pm x).
Definition site : Site := mkSite
  (empty_world "/datalake" (env_with "u1")) (empty_world "/books" (env_with "u2"))
  (empty_world "/index" (env_with ""))
  (mkWorld (example_nodes ["a"; "b"; "c"] jobs) (env_with "t3")).

Definition alice : text := Eval vm_compute in ascii_text
  "Title: Alice *** START OF THE PROJECT GUTENBERG EBOOK Down the rabbit-hole *** END OF THE PROJECT GUTENBERG EBOOK".
Definition download (url : text) : result (Z * result text) := Ok (200, Ok alice).

Lemma nodup_abc : NoDup ["a"; "b"; "c"].
Proof. apply (bool_decide_unpack _). vm_compute. exact I. Qed.
Lemma at_a {S} (mk : string -> S) e :
  nodes (mkWorld (example_nodes ["a"; "b"; "c"] mk) e) !! on "a" = Some (mk "a").
Proof. apply example_nodes_lookup; [apply nodup_abc|left]. Qed.
Lemma jobs_cluster e : cluster example_addr (mkWorld (example_nodes ["a"; "b"; "c"] jobs) e).
Proof. apply (example_cluster _ 2); [done|apply nodup_abc]. Qed.
Lemma jobs_fresh i e : QueueNet.fresh_id i (mkWorld (example_nodes ["a"; "b"; "c"] jobs) e).
Proof.
  intros a q p (x & _ & -> & ->)%example_nodes_inv. unfold Queue.lookup_task. simpl.
  by rewrite lookup_empty.
Qed.

(** The first reply to the write of the text is lost; the metadata cannot be written at all. *)
Definition faulty_site : Site := mkSite
  (empty_world "/datalake" (mkEnv [ReplyLost] [] ["u1"] 0))
  (empty_world "/books" (mkEnv (repeat Unreachable 9) [] ["u2"] 0))
  (empty_world "/index" (env_with ""))
  (mkWorld (example_nodes ["a"; "b"; "c"] jobs) (env_with "t3")).

Lemma ingest_outcome_witness :
  exists s' resp, handle_ingest_gutenberg (fun s => Some s) download (on "a") (ascii_text "11") faulty_site =
    (Some resp, s') /\
    ((status resp = INTERNAL_SERVER_ERROR /\ books s' = books faulty_site) \/
     (status resp = ACCEPTED /\
      exists d, stored_at example_addr (utf8 (ascii_text "11")) d (on "a") (empty_shard "/datalake" "a") (datalake s'))).
Proof.
  pose proof (ingest_outcome (fun s => Some s) download example_addr (on "a") (ascii_text "11") faulty_site
    (empty_shard "/datalake" "a") (empty_shard "/books" "a") (jobs "a") "u1" [] "u2" [] "t3" []) as Hin.
  cbv zeta in Hin.
  specialize (Hin (empty_cluster_of "/datalake" _) (at_a (empty_shard _) _) eq_refl (empty_fresh _ _ _)
    (empty_cluster_of "/books" _) (at_a (empty_shard _) _) eq_refl (empty_fresh _ _ _)
    (jobs_cluster _) (at_a jobs _) eq_refl (jobs_fresh _ _)).
  destruct Hin as (resp & s' & Hrun & Hout). exists s', resp. split; [exact Hrun|].
  assert (exists h b, split_gutenberg_text alice = Some (Some (h, b))) as (h & b & Hs)
    by (eexists _, _; vm_compute; reflexivity).
  assert (fetch_gutenberg_text download (source_url (ascii_text "11")) = Ok alice) as Hd by reflexivity.
  assert ((StorageNet.get (fun s => Some s) (on "a") (utf8 (ascii_text "11")) (datalake faulty_site)).1 = None)
    as Hg by (vm_compute; reflexivity).
  rewrite Hg, Hd, Hs in Hout. destruct Hout as (_ & [(Hr & Hb & _)|(Hr & Hst & _)] & _); rewrite Hr.
  - left. split; [reflexivity|exact Hb].
  - right. split; [reflexivity|]. eexists. exact Hst.
Defined.
End Example.
