(* ===== verification/Routes.v ===== *)
(** * Routes: the HTTP interface of src/main.rs and the requests that clients build

    The table of routes with the handler behind each, the paths that storage/memory.rs and
    executor/queue.rs request from other nodes, and the list that [/health/routes] advertises.  How
    axum picks a route is its own business; what is used here is when a path fits a pattern, and
    the theorems say that at most one pattern fits.  What the URL parser of the sender and the decoder
    of the receiver make of a formatted URL is a parameter, [HttpStack]: keys and ids are formatted
    into URLs as they are, so that only plain ones arrive unchanged. *)

From S2P Require Import Prelude Membership Partitioner Net Topology Storage StorageNet StorageSpec.
From Stdlib Require Import Ascii.

#[local] Open Scope Z_scope.
#[local] Open Scope string_scope.
#[local] Strategy 1000 [get_partition get_owners].

(** ** src/storage/protocol.rs and src/executor/protocol.rs *)

Definition ENDPOINT_REPLICATE : string := "/replicate".
Definition ENDPOINT_FORWARD_PUT : string := "/forward_put".
Definition ENDPOINT_PUT : string := "/put".
Definition ENDPOINT_GET : string := "/get".
Definition ENDPOINT_GET_INTERNAL : string := "/internal/get".
Definition ENDPOINT_PARTITION_DUMP : string := "/internal/partition".

Definition ENDPOINT_SUBMIT_TASK : string := "/task/submit".
Definition ENDPOINT_INTERNAL_SUBMIT : string := "/internal/submit_task".
Definition ENDPOINT_TASK_INTERNAL_GET : string := "/internal/get_task".
Definition ENDPOINT_TASK_STATUS : string := "/task/status".
Definition ENDPOINT_TASK_REPLICATE : string := "/internal/replicate_task".
Definition ENDPOINT_TASK_PARTITION_DUMP : string := "/internal/task_partition".

(** ** Paths and patterns *)

(** A path cut at its slashes. *)
Fixpoint split_slash (s : string) : list string :=
  match s with
  | EmptyString => [EmptyString]
  | String c s' =>
      if Ascii.eqb c "/" then EmptyString :: split_slash s'
      else match split_slash s' with
           | seg :: rest => String c seg :: rest
           | [] => [String c EmptyString]
           end
  end.

(** A segment of a pattern captures if it starts with a colon, and is literal otherwise. *)
Definition captures (seg : string) : bool := starts_with_char ":" seg.

(** The segments of a path that a pattern captures, if the path fits it. *)
Fixpoint fits (pattern path : list string) : option (list string) :=
  match pattern, path with
  | [], [] => Some []
  | p :: pattern', s :: path' =>
      if captures p
      then if String.eqb s "" then None else cons s <$> fits pattern' path'
      else if String.eqb p s then fits pattern' path' else None
  | _, _ => None
  end.

Inductive Method := GET | POST.
#[export] Instance Method_eq_dec : EqDecision Method.
Proof. solve_decision. Defined.

(** The maps that are reachable over HTTP. *)
Inductive Store := Books | Datalake | Index.
#[export] Instance Store_eq_dec : EqDecision Store.
Proof. solve_decision. Defined.

(** The functions that routes lead to; those of the maps are the wrappers at the end of main.rs. *)
Inductive Handler :=
  | handle_routes | handle_stats | handle_ingest_gutenberg | handle_ingest_status | handle_search
  | handle_create_book
  | handle_put (m : Store) | handle_get (m : Store) | handle_get_internal (m : Store)
  | handle_partition_dump (m : Store) | handle_forward_put (m : Store) | handle_replicate (m : Store)
  | handle_submit_task | handle_get_task_status | handle_get_task_internal
  | handle_task_partition_dump | handle_internal_submit_task | handle_replicate_task.

Record Route := mkRoute { r_path : string; r_method : Method; r_handler : Handler }.

(** [Router::nest]. *)
Definition nest (prefix : string) (routes : list Route) : list Route :=
  (fun r => mkRoute (prefix ++ r_path r) (r_method r) (r_handler r)) <$> routes.

(** The router nested for one map. *)
Definition map_routes (m : Store) : list Route := [
  mkRoute ENDPOINT_PUT POST (handle_put m);
  mkRoute (ENDPOINT_GET ++ "/:key") GET (handle_get m);
  mkRoute (ENDPOINT_GET_INTERNAL ++ "/:key") GET (handle_get_internal m);
  mkRoute (ENDPOINT_PARTITION_DUMP ++ "/:id") GET (handle_partition_dump m);
  mkRoute ENDPOINT_FORWARD_PUT POST (handle_forward_put m);
  mkRoute ENDPOINT_REPLICATE POST (handle_replicate m)].

(** The router of [main]. *)
Definition app : list Route :=
  ([mkRoute "/health/routes" GET handle_routes;
   mkRoute "/health/stats" GET handle_stats;
   mkRoute "/ingest/:book_id" POST handle_ingest_gutenberg;
   mkRoute "/ingest/status/:book_id" GET handle_ingest_status;
   mkRoute "/search" GET handle_search;
   mkRoute "/books" POST handle_create_book] ++
  nest "/books" (map_routes Books) ++
  nest "/datalake" (map_routes Datalake) ++
  nest "/index" (map_routes Index) ++
  [mkRoute ENDPOINT_SUBMIT_TASK POST handle_submit_task;
   mkRoute (ENDPOINT_TASK_STATUS ++ "/:id") GET handle_get_task_status;
   mkRoute (ENDPOINT_TASK_INTERNAL_GET ++ "/:id") GET handle_get_task_internal;
   mkRoute (ENDPOINT_TASK_PARTITION_DUMP ++ "/:id") GET handle_task_partition_dump;
   mkRoute ENDPOINT_INTERNAL_SUBMIT POST handle_internal_submit_task;
   mkRoute ENDPOINT_TASK_REPLICATE POST handle_replicate_task])%list.

(** [handle_routes]: the paths that are advertised. *)
Definition advertised : list string := [
  "/health/routes"; "/health/stats"; "/ingest/:book_id"; "/ingest/status/:book_id"; "/search";
  "/books"; "/books/put"; "/books/get/:key"; "/books/internal/get/:key"; "/books/forward_put";
  "/books/replicate"; "/datalake/put"; "/datalake/get/:key"; "/datalake/internal/get/:key";
  "/datalake/forward_put"; "/datalake/replicate"; "/index/put"; "/index/get/:key";
  "/index/internal/get/:key"; "/index/forward_put"; "/index/replicate"; "/submit_task";
  "/task_status/:id"; "/internal/task/:id"; "/internal/submit_task"; "/internal/task_partition/:id";
  "/task_replicate"].

(** The routes of a table that a request fits, with what they capture. *)
Definition candidates (routes : list Route) (m : Method) (path : string)
    : list (Handler * list string) :=
  omap (fun r => if decide (r_method r = m)
                 then (fun ps => (r_handler r, ps)) <$> fits (split_slash (r_path r)) (split_slash path)
                 else None) routes.

(** ** Requests to other nodes

    Method and path; what precedes the path is the address of the node asked. *)

(** [base_path] of the map, as main.rs sets it. *)
Definition base_of (m : Store) : string :=
  clean_base_path (match m with Books => "/books" | Datalake => "/datalake" | Index => "/index" end).

Inductive Request :=
  | ForwardPut (m : Store) | Replicate (m : Store) | GetInternal (m : Store) (key : string)
  | FetchPartition (m : Store) (partition : string)
  | SubmitInternal | ReplicateTask | GetTask (id : string) | FetchTasks (partition : string).

(** What [format!] puts behind the address in [forward_put], [replicate_to_backup], [fetch_remote]
    and [fetch_partition] of the map, and in [forward_task], [replicate_task_to_backup],
    [fetch_remote] and [fetch_partition] of the queue. *)
Definition request_of (r : Request) : Method * string :=
  match r with
  | ForwardPut m => (POST, base_of m ++ ENDPOINT_FORWARD_PUT)
  | Replicate m => (POST, base_of m ++ ENDPOINT_REPLICATE)
  | GetInternal m key => (GET, base_of m ++ ENDPOINT_GET_INTERNAL ++ "/" ++ key)
  | FetchPartition m partition => (GET, base_of m ++ ENDPOINT_PARTITION_DUMP ++ "/" ++ partition)
  | SubmitInternal => (POST, "/internal/submit_task")
  | ReplicateTask => (POST, ENDPOINT_TASK_REPLICATE)
  | GetTask id => (GET, ENDPOINT_TASK_INTERNAL_GET ++ "/" ++ id)
  | FetchTasks partition => (GET, ENDPOINT_TASK_PARTITION_DUMP ++ "/" ++ partition)
  end.

(** The handler each is meant for, with what it should receive from the path. *)
Definition intended (r : Request) : Handler * list string :=
  match r with
  | ForwardPut m => (handle_forward_put m, [])
  | Replicate m => (handle_replicate m, [])
  | GetInternal m key => (handle_get_internal m, [key])
  | FetchPartition m partition => (handle_partition_dump m, [partition])
  | SubmitInternal => (handle_internal_submit_task, [])
  | ReplicateTask => (handle_replicate_task, [])
  | GetTask id => (handle_get_task_internal, [id])
  | FetchTasks partition => (handle_task_partition_dump, [partition])
  end.
Definition argument (r : Request) : option string := head (intended r).2.

(** A string that is one segment of a path that has been received. *)
Definition one_segment (s : string) : Prop := s <> "" /\ split_slash s = [s].

(** ** Between the URL that is formatted and the path that is received

    [reqwest] parses the URL, cutting off query and fragment, resolving dot segments and encoding what
    may not stand in a path; axum matches the rest against the routes and decodes what they
    capture. *)
Class HttpStack := {
  url_path : string -> string;
  percent_decode : string -> option string;
}.

(** The unreserved characters of RFC 3986. *)
Definition unreserved (c : ascii) : bool :=
  let n := N_of_ascii c in
  ((48 <=? n) && (n <=? 57) || (65 <=? n) && (n <=? 90) || (97 <=? n) && (n <=? 122) ||
   existsb (Ascii.eqb c) ["-"; "."; "_"; "~"]%char)%N.

Definition plain_segment (s : string) : bool :=
  forallb unreserved (String.list_ascii_of_string s) &&
  negb (existsb (String.eqb s) [""; "."; ".."]).

(** Its segments are plain or empty. *)
Definition plain_path (s : string) : bool :=
  forallb (fun seg => plain_segment seg || String.eqb seg "") (split_slash s).

(** What RFC 3986 and the URL standard say of such text, and of a question mark. *)
Class HttpStackLaws `{HttpStack} : Prop := {
  plain_path_kept s : plain_path s = true -> url_path s = s;
  plain_segment_kept s : plain_segment s = true -> percent_decode s = Some s;
  query_cut s q : url_path (s ++ "?" ++ q) = url_path s;
}.

(** The handlers that a request with this URL may be for, with what they receive. *)
Definition received `{HttpStack} (routes : list Route) (m : Method) (url : string)
    : list (Handler * option (list string)) :=
  (fun c => (c.1, mapM percent_decode c.2)) <$> candidates routes m (url_path url).

(** ** Lemmas *)

Lemma split_slash_app a b : split_slash (a ++ "/" ++ b) = (split_slash a ++ split_slash b)%list.
Proof.
  induction a as [|c a IH]; [done|]. simpl. destruct (Ascii.eqb c "/"); [by rewrite IH|].
  rewrite IH. destruct (split_slash a) eqn:E; [|done].
  destruct a; simpl in E; [done|]. destruct (Ascii.eqb a "/"); [done|].
  by destruct (split_slash a0).
Qed.

(** ** Properties *)

(** See [requests_reach_handlers]. *)
Lemma reach_handlers r :
  (forall x, argument r = Some x -> one_segment x) ->
  candidates app (request_of r).1 (request_of r).2 = [intended r].
Proof.
  intros Harg.
  assert (forall p x, argument r = Some x -> split_slash (p ++ "/" ++ x) = (split_slash p ++ [x])%list /\
    exists c x', x = String c x') as Hseg.
  { intros p x Hx. destruct (Harg x Hx) as [Hne Hs]. rewrite split_slash_app, Hs. split; [done|].
    destruct x as [|c x']; [done|]. by exists c, x'. }
  destruct r as [m|m|m key|m p| | |key|p]; cbn [request_of intended fst snd argument head] in *.
  - destruct m; vm_compute; reflexivity.
  - destruct m; vm_compute; reflexivity.
  - destruct (Hseg (base_of m ++ ENDPOINT_GET_INTERNAL) key eq_refl) as [Hs (c & k & ->)].
    assert (base_of m ++ ENDPOINT_GET_INTERNAL ++ "/" ++ String c k =
      (base_of m ++ ENDPOINT_GET_INTERNAL) ++ "/" ++ String c k) as -> by (by destruct m).
    unfold candidates. rewrite Hs. destruct m; vm_compute; reflexivity.
  - destruct (Hseg (base_of m ++ ENDPOINT_PARTITION_DUMP) p eq_refl) as [Hs (c & k & ->)].
    assert (base_of m ++ ENDPOINT_PARTITION_DUMP ++ "/" ++ String c k =
      (base_of m ++ ENDPOINT_PARTITION_DUMP) ++ "/" ++ String c k) as -> by (by destruct m).
    unfold candidates. rewrite Hs. destruct m; vm_compute; reflexivity.
  - vm_compute. reflexivity.
  - vm_compute. reflexivity.
  - destruct (Hseg ENDPOINT_TASK_INTERNAL_GET key eq_refl) as [Hs (c & k & ->)].
    unfold candidates. rewrite Hs. vm_compute. reflexivity.
  - destruct (Hseg ENDPOINT_TASK_PARTITION_DUMP p eq_refl) as [Hs (c & k & ->)].
    unfold candidates. rewrite Hs. vm_compute. reflexivity.
Qed.

(** Plain text has no slash. *)
Lemma plain_no_slash s : plain_segment s = true -> one_segment s.
Proof.
  unfold plain_segment. intros [Hu Hd]%andb_true_iff. split; [by intros ->|]. clear Hd.
  induction s as [|c s IH]; [done|]. cbn in Hu. apply andb_true_iff in Hu as [Hc Hu].
  cbn [split_slash]. destruct (Ascii.eqb c "/") eqn:E; [by apply Ascii.eqb_eq in E as ->|].
  by rewrite IH.
Qed.

Lemma plain_path_app a b : plain_path (a ++ "/" ++ b) = plain_path a && plain_path b.
Proof. unfold plain_path. by rewrite split_slash_app, forallb_app. Qed.

Lemma plain_segment_path s : plain_segment s = true -> plain_path s = true.
Proof. intros Hs. unfold plain_path. destruct (plain_no_slash s Hs) as [_ ->]. simpl. by rewrite Hs. Qed.

(** The text before the argument is plain. *)
Lemma request_plain r :
  (forall x, argument r = Some x -> plain_segment x = true) -> plain_path (request_of r).2 = true.
Proof.
  intros Harg. assert (forall p x, argument r = Some x -> plain_path (p ++ "/" ++ x) = plain_path p) as Hx.
  { intros p x Hx. rewrite plain_path_app, (plain_segment_path x), andb_true_r by by apply Harg. done. }
  destruct r as [m|m|m key|m p| | |key|p]; cbn [request_of fst snd argument head intended] in *;
    try (destruct m); try (vm_compute; reflexivity).
  all: match goal with |- context [?c ++ "/" ++ ?x] =>
    match goal with |- plain_path ?t = true => 
      first [change t with (("/books" ++ c) ++ "/" ++ x) | change t with (("/datalake" ++ c) ++ "/" ++ x)
            |change t with (("/index" ++ c) ++ "/" ++ x) | idtac] end end;
    rewrite Hx by done; vm_compute; reflexivity.
Qed.

Section stack.
Context `{HttpStackLaws}.

Lemma decode_plain args :
  Forall (fun x => plain_segment x = true) args -> mapM percent_decode args = Some args.
Proof.
  intros Hargs. induction Hargs as [|x l Hx _ IH]; [done|]. cbn.
  by rewrite (plain_segment_kept x Hx), IH.
Qed.

Lemma received_plain m path h args :
  plain_path path = true -> candidates app m path = [(h, args)] ->
  Forall (fun x => plain_segment x = true) args ->
  received app m path = [(h, Some args)].
Proof.
  intros Hp Hc Hargs. unfold received. rewrite plain_path_kept, Hc by done. simpl.
  by rewrite decode_plain.
Qed.

Lemma received_intended r :
  (forall x, argument r = Some x -> plain_segment x = true) ->
  received app (request_of r).1 (request_of r).2 = [((intended r).1, Some (intended r).2)].
Proof.
  intros Harg. apply received_plain; [by apply request_plain| |].
  - rewrite reach_handlers by (intros x Hx; by apply plain_no_slash, Harg). by destruct (intended r).
  - destruct r; simpl in *; try apply Forall_nil_2; by apply Forall_singleton, Harg.
Qed.

(** C37: requests reach their handlers.  Every request that a node builds for another fits exactly
    one route of the table, by method and path: the one of the handler it is meant for.  This handler
    receives the key, id or partition as it was sent if it consists of unreserved characters and
    is not a dot segment; of a key or id with a question mark it receives what precedes that. *)
Theorem requests_reach_handlers r :
  (forall x, argument r = Some x -> plain_segment x = true) ->
  received app (request_of r).1 (request_of r).2 = [((intended r).1, Some (intended r).2)] /\
  forall q, received app (request_of r).1 ((request_of r).2 ++ "?" ++ q) =
    [((intended r).1, Some (intended r).2)].
Proof.
  intros Harg. split; [by apply received_intended|]. intros q. unfold received.
  rewrite query_cut. by apply received_intended.
Qed.
End stack.

(** A key with a slash in it makes a path that fits no route. *)
Lemma slash_key_not_routed m a b :
  candidates app GET (base_of m ++ ENDPOINT_GET_INTERNAL ++ "/" ++ a ++ "/" ++ b) = [].
Proof.
  assert (base_of m ++ ENDPOINT_GET_INTERNAL ++ "/" ++ a ++ "/" ++ b =
    (base_of m ++ ENDPOINT_GET_INTERNAL) ++ "/" ++ a ++ "/" ++ b) as -> by (by destruct m).
  assert (exists s t rest rest', split_slash a = s :: rest /\ split_slash b = t :: rest')
    as (s & t & rest & rest' & Ha & Hb).
  { assert (forall x, exists s rest, split_slash x = s :: rest) as Hne.
    { intros x. destruct x as [|c x]; simpl; [eauto|]. destruct (Ascii.eqb c "/"); [eauto|].
      destruct (split_slash x); eauto. }
    destruct (Hne a) as (s & rest & ->). destruct (Hne b) as (t & rest' & ->). eauto 10. }
  unfold candidates. rewrite split_slash_app, split_slash_app, Ha, Hb.
  destruct s, rest, m; vm_compute; reflexivity.
Qed.

(** ** What the routes mean for reads from other nodes *)

(** What the handler of an internal read receives of a key that is appended to the path: this is the
    parameter of the reading operations of StorageNet.v. *)
Definition segment_of `{HttpStack} (m : Store) (key : string) : option string :=
  match received app GET (base_of m ++ ENDPOINT_GET_INTERNAL ++ "/" ++ key) with
  | [(_, Some [seg])] => Some seg
  | _ => None
  end.

Lemma segment_of_plain `{HttpStackLaws} m key : plain_segment key = true -> segment_of m key = Some key.
Proof.
  intros Hk. unfold segment_of.
  pose proof (received_intended (GetInternal m key)) as Hr. cbn [request_of intended fst snd] in Hr.
  rewrite Hr; [done|]. by intros x [= <-].
Qed.

Lemma string_app_assoc (a b c : string) : (a ++ b) ++ c = a ++ b ++ c.
Proof. induction a as [|x a IH]; [done|]. exact (f_equal (String x) IH). Qed.

(** A key with a question mark is asked for under what precedes it. *)
Lemma segment_of_query `{HttpStackLaws} m key q :
  plain_segment key = true -> segment_of m (key ++ "?" ++ q) = Some key.
Proof.
  intros Hk. rewrite <- (segment_of_plain m key Hk). unfold segment_of, received.
  assert (base_of m ++ ENDPOINT_GET_INTERNAL ++ "/" ++ key ++ "?" ++ q =
    (base_of m ++ ENDPOINT_GET_INTERNAL ++ "/" ++ key) ++ "?" ++ q) as ->
    by (by rewrite !string_app_assoc). by rewrite query_cut.
Qed.

(** One with a slash for no handler. *)
Lemma segment_of_slash `{HttpStackLaws} m a b :
  plain_segment a = true -> plain_segment b = true -> segment_of m (a ++ "/" ++ b) = None.
Proof.
  intros Ha Hb. unfold segment_of, received.
  rewrite plain_path_kept; [by rewrite slash_key_not_routed|].
  assert (base_of m ++ ENDPOINT_GET_INTERNAL ++ "/" ++ a ++ "/" ++ b =
    (base_of m ++ ENDPOINT_GET_INTERNAL) ++ "/" ++ a ++ "/" ++ b) as -> by (by destruct m).
  rewrite !plain_path_app, (plain_segment_path a), (plain_segment_path b) by done. destruct m; vm_compute; reflexivity.
Qed.

Section slash.
Context {V : Type} `{!Serde V, !SerdeLaws V} `{HttpStackLaws}.
#[local] Existing Instances string_key string_key_laws.

Lemma unroutable_key_lost path_segment addr_of self (key : string) (v : V) op w m reader mr :
  let p := get_partition (partitioner m) (key_to_string key) in
  path_segment (key_to_string key) = None ->
  cluster addr_of w -> quiet w -> fresh_op op w -> nodes w !! self = Some m ->
  nodes w !! reader = Some mr -> get_local key mr = None ->
  get_owners (partitioner m) p <> [] -> local_id mr ∉ get_owners (partitioner m) p ->
  exists w', put_with_op self key v op w = (Ok tt, w') /\
    (forall i, head (get_owners (partitioner m) p) = Some i -> holds p key v (addr_of i) w') /\
    forall e, (get path_segment reader key (set_env e w')).1 = None.
Proof.
  intros p Hseg Hc Hq Hf Hm Hmr Hno Hne Hnot.
  destruct (put_quiet addr_of self key v op w m p Hc Hf Hm Hq eq_refl) as (w' & Hrun & _ & _).
  destruct (put_ok_holds addr_of self key v op w w' m Hc Hf Hm Hrun) as (_ & Hprim & _).
  destruct (put_owners_only addr_of self key v op w m reader mr Hc Hm Hmr Hne Hnot) as (mr' & Hmr' & Hd).
  pose proof (put_with_op_framed self key v op w m p Hm eq_refl) as Hfr. rewrite Hrun in Hfr, Hmr'.
  destruct (pointwise_lookup _ _ _ _ _ Hfr Hmr) as (mr2 & Hmr2 & Hp & _).
  simpl in Hmr', Hmr2. rewrite Hmr' in Hmr2. injection Hmr2 as <-.
  exists w'. split_and!; [exact Hrun|exact Hprim|]. intros e.
  apply (get_unroutable path_segment reader key (set_env e w') mr' Hseg); [exact Hmr'|].
  unfold get_local, lookup_in in *. by rewrite Hp, Hd.
Qed.

(** Keys with a slash are written but not read.  Without faults, a write under a key that
    contains a slash between plain text is acknowledged and reaches the primary; but a node that does not own the key
    and held nothing under it reads nothing, whatever the network does then, since the request for
    it fits no route. *)
Theorem slash_keys_are_lost addr_of store self a b v op w m reader mr :
  let key := a ++ "/" ++ b in
  let p := get_partition (partitioner m) (key_to_string key) in
  plain_segment a = true -> plain_segment b = true ->
  cluster addr_of w -> quiet w -> fresh_op op w -> nodes w !! self = Some m ->
  nodes w !! reader = Some mr -> get_local key mr = None ->
  get_owners (partitioner m) p <> [] -> local_id mr ∉ get_owners (partitioner m) p ->
  exists w', put_with_op self key v op w = (Ok tt, w') /\
    (forall i, head (get_owners (partitioner m) p) = Some i -> holds p key v (addr_of i) w') /\
    forall e, (get (segment_of store) reader key (set_env e w')).1 = None.
Proof.
  intros key p Ha Hb. apply unroutable_key_lost. by apply segment_of_slash.
Qed.
(** A read of one key that arrives at the primary as a read of another. *)
Lemma get_received path_segment addr_of reader k s (v : V) w mr i mi :
  path_segment k = Some s -> cluster addr_of w -> quiet w ->
  nodes w !! reader = Some mr -> get_local k mr = None ->
  head (get_owners (partitioner mr) (get_partition (partitioner mr) k)) = Some i -> i <> local_id mr ->
  nodes w !! addr_of i = Some mi -> get_local s mi = Some v ->
  get path_segment reader k w = (Some v, w).
Proof.
  intros Hseg Hc Hq Hmr Hno Hi Hne Hmi Hv. unfold get.
  rewrite (st_bind_eq _ _ _ _ _ (my_eq reader w mr Hmr)). unfold get_local in Hno.
  change (key_to_string k) with k in *. set (p := get_partition (partitioner mr) k) in *. rewrite Hno.
  destruct (get_owners (partitioner mr) p) as [|b rest] eqn:Eo; [done|]. injection Hi as ->.
  rewrite decide_False by done.
  destruct (cluster_owner addr_of w Hc reader mr i p Hmr ltac:(simpl; rewrite Eo; left))
    as (n & mi' & Hn & Ha & Hmi' & _).
  rewrite Hmi in Hmi'. injection Hmi' as <-. rewrite <- Ha in Hmi.
  destruct (serde_roundtrip v) as (json & Hto & Hfrom).
  rewrite (st_bind_eq _ _ w (Ok (Some v)) w); [done|].
  unfold fetch_remote, resolve. unfold st_try at 1. unfold st_get at 1. unfold st_bind at 1.
  rewrite (lookup_total_correct _ _ _ Hmr). simpl in Hn |- *. rewrite Hn. simpl.
  rewrite (st_try_ok _ _ w (mkResponse OK (mkGetResponse (Some json))) w).
  - simpl. unfold st_ret. by rewrite Hfrom.
  - apply get_with_retry_quiet; [done|by eexists|]. unfold route_get_internal.
    change (key_to_string k) with k. rewrite Hseg.
    unfold StorageNet.handle_get_internal. simpl. rewrite (st_bind_eq _ _ _ _ _ (my_eq _ w mi Hmi)).
    by rewrite Hv, Hto.
Qed.

(** Keys with a question mark are confused.  The key is formatted into the URL of a read as it
    is, so what follows a question mark in it is taken for a query: without any fault, a node
    that holds nothing under [key?q] and asks the primary of that key reads what is stored under [key]
    if the same node is the primary of both, whatever is stored under [key?q]. *)
Theorem query_keys_confused addr_of store (d : gmap string V) w reader mr key q v i :
  let asked := key ++ "?" ++ q in
  plain_segment key = true -> represents addr_of d w -> d !! key = Some v ->
  nodes w !! reader = Some mr -> get_local asked mr = None ->
  head (StorageSpec.owners mr asked) = Some i -> head (StorageSpec.owners mr key) = Some i ->
  i <> local_id mr ->
  get (segment_of store) reader asked w = (Some v, w).
Proof.
  intros asked Hk Hrep Hd Hmr Hno Hasked Hkey Hne.
  destruct (rp_primary _ _ _ Hrep reader mr key v i Hmr Hd Hkey) as (mi & Hmi & Hv).
  apply (get_received _ addr_of reader asked key v w mr i mi); try done.
  - by apply segment_of_query.
  - apply Hrep.
  - apply Hrep.
  - unfold get_local. rewrite <- Hv. f_equal.
    apply (cluster_partition addr_of w (rp_cluster _ _ _ Hrep) (addr_of i) mi reader mr _ Hmi Hmr).
Qed.
End slash.

(** The advertised routes.  Of the paths that [/health/routes] lists, four lead nowhere, and
    the table serves seven that it does not list. *)
Theorem advertised_routes :
  filter (fun p => p ∉ r_path <$> app) advertised =
    ["/submit_task"; "/task_status/:id"; "/internal/task/:id"; "/task_replicate"] /\
  filter (fun p => p ∉ advertised) (r_path <$> app) =
    ["/books/internal/partition/:id"; "/datalake/internal/partition/:id"; "/index/internal/partition/:id";
     "/task/submit"; "/task/status/:id"; "/internal/get_task/:id"; "/internal/replicate_task"].
Proof. split; vm_compute; reflexivity. Qed.

(** ** Witnesses *)

Module Example.
#[local] Existing Instances string_key string_key_laws countable_serde countable_serde_laws.
Import StorageNet.Example StorageSpec.Example.

(** A stack that cuts off the query and the fragment; the other rules do not matter here. *)
Fixpoint before_query (s : string) : string :=
  match s with
  | EmptyString => EmptyString
  | String c s' => if Ascii.eqb c "?" || Ascii.eqb c "#" then EmptyString else String c (before_query s')
  end.
#[local] Instance cutting : HttpStack := {| url_path := before_query; percent_decode := Some |}.

Lemma before_query_plain s :
  forallb (fun c => negb (Ascii.eqb c "?" || Ascii.eqb c "#")) (String.list_ascii_of_string s) = true ->
  before_query s = s.
Proof.
  induction s as [|c s IH]; [done|]. cbn. intros [Hc Hs]%andb_true_iff.
  apply negb_true_iff in Hc. rewrite Hc. by rewrite IH.
Qed.

#[local] Instance cutting_laws : HttpStackLaws.
Proof.
  split.
  - intros s Hs. apply before_query_plain. revert Hs. unfold plain_path.
    assert (forall s, forallb (fun seg => Routes.plain_segment seg || String.eqb seg "") (split_slash s) = true ->
      forallb (fun seg => forallb unreserved (String.list_ascii_of_string seg)) (split_slash s) = true) as Hw.
    { intros t. induction (split_slash t) as [|x l IH]; [done|]. cbn. intros [Hx Hl]%andb_true_iff.
      rewrite IH, andb_true_r by done. apply orb_true_iff in Hx as [Hx|Hx].
      - by apply andb_true_iff in Hx as [? _].
      - by apply String.eqb_eq in Hx as ->. }
    intros Hs%Hw. clear Hw. induction s as [|c s IH]; [done|]. cbn in Hs |- *.
    destruct (Ascii.eqb c "/") eqn:E.
    + apply Ascii.eqb_eq in E as ->. by apply IH.
    + destruct (split_slash s) as [|x l] eqn:El; [by destruct s; simpl in El; repeat case_match|].
      cbn in Hs. apply andb_true_iff in Hs as [[Hc Hx]%andb_true_iff Hl].
      rewrite IH by (cbn; by rewrite Hx, Hl). rewrite andb_true_r.
      destruct (Ascii.eqb c "?") eqn:E1; [by apply Ascii.eqb_eq in E1 as ->|].
      destruct (Ascii.eqb c "#") eqn:E2; [by apply Ascii.eqb_eq in E2 as ->|]. done.
  - done.
  - intros s q. simpl. induction s as [|c s IH]; [done|]. simpl. by rewrite IH.
Qed.

Lemma requests_reach_handlers_witness :
  received app GET "/index/internal/get/whale" = [(handle_get_internal Index, Some ["whale"])] /\
  received app GET "/index/internal/get/whale?white" = [(handle_get_internal Index, Some ["whale"])].
Proof.
  destruct (requests_reach_handlers (GetInternal Index "whale")) as [H1 H2].
  - intros x Hx. injection Hx as <-. reflexivity.
  - split; [exact H1|exact (H2 "white")].
Defined.

(** ["1/2"] belongs to [b] and [c]; [a] writes it and cannot read it back. *)
Lemma slash_keys_are_lost_witness :
  let w : World (DistributedMap string bool) := empty_world "/books" calm in
  exists w', put_with_op (on "a") "1/2" true "op" w = (Ok tt, w') /\
    (get (segment_of Books) (on "a") "1/2" w').1 = None.
Proof.
  intros w.
  assert (get_owners (partitioner (empty_shard (K := string) (V := bool) "/books" "a"))
    (get_partition (partitioner (empty_shard (K := string) (V := bool) "/books" "a")) (key_to_string "1/2")) =
    [mkId "b"; mkId "c"]) as Ho by (vm_compute; reflexivity).
  pose proof (slash_keys_are_lost example_addr Books (on "a") "1" "2" true "op" w
    (empty_shard "/books" "a") (on "a") (empty_shard "/books" "a") eq_refl eq_refl) as Hlost.
  cbv zeta in Hlost.
  change ("1" ++ "/" ++ "2") with "1/2" in Hlost. rewrite Ho in Hlost.
  specialize (Hlost (rp_cluster _ _ _ (empty_represents "/books" calm eq_refl)) eq_refl
    (empty_fresh _ _ _) (empty_at "/books" "a" _ in_a) (empty_at "/books" "a" _ in_a)
    (empty_local _ _ _)).
  destruct Hlost as (w' & Hrun & _ & Hget).
  - discriminate.
  - apply (bool_decide_unpack _). vm_compute. exact I.
  - exists w'. split; [exact Hrun|]. specialize (Hget (env w')).
    replace (set_env (env w') w') with w' in Hget by (by destruct w'). exact Hget.
Defined.
(** ["345"] and ["345?1"] belong to [b] and [c], which hold different values. *)
Lemma query_keys_confused_witness :
  let w := seed "/books" [("345?1", false); ("345", true)] in
  get (segment_of Books) (on "a") "345?1" w = (Some true, w).
Proof.
  intros w.
  destruct (seed_spec "/books" [("345?1", false); ("345", true)]) as (Hrep & Hup & _).
  { apply (bool_decide_unpack _). vm_compute. exact I. }
  destruct (Hup "a" in_a) as (m & Hm & Hp). fold w in Hrep, Hm.
  assert (get_local "345?1" <$> nodes w !! on "a" = Some None) as Hno by (vm_compute; reflexivity).
  rewrite Hm in Hno. injection Hno as Hno.
  apply (query_keys_confused example_addr Books (list_to_map [("345?1", false); ("345", true)]) w (on "a") m
    "345" "1" true (mkId "b")).
  - vm_compute. reflexivity.
  - exact Hrep.
  - vm_compute. reflexivity.
  - exact Hm.
  - exact Hno.
  - unfold StorageSpec.owners, home. rewrite Hp. vm_compute. reflexivity.
  - unfold StorageSpec.owners, home. rewrite Hp. vm_compute. reflexivity.
  - unfold local_id. rewrite Hp. discriminate.
Defined.
End Example.
