(* ===== verification/Bootstrap.v ===== *)
(** * Bootstrap: from the first datagram to a cluster whose nodes agree

    Cluster.v runs the gossip protocol; the components above it (Topology.v) assume that the views
    of all nodes agree and that each record leads to the node it names.  Here the second half is
    proved of every execution in which the nodes are bound to concrete addresses
    ([records_are_right]), and the first half is shown to be reached by the start that the
    documentation of main.rs describes: one node without seeds, the others with its address
    ([bootstrap_converges]).  Bound to the wildcard address, as the README does it, nodes on
    different machines do not get to know each other ([wildcard_starts_stay_alone]). *)

From S2P Require Import Prelude Membership Cluster Partitioner.

#[local] Open Scope Z_scope.

(** ** Records that fit

    [Q i g h]: node [i] may be recorded with the gossip address [g] and the HTTP address [h]. *)

(** Updates of a record that keep its addresses. *)
Definition same_place (n n' : Node) : Prop :=
  id n' = id n /\ gossip_addr n' = gossip_addr n /\ http_addr n' = http_addr n.

Section fits.
Context (Q : NodeId -> SocketAddr -> SocketAddr -> Prop).

Definition fits (n : Node) : Prop := Q (id n) (gossip_addr n) (http_addr n).

(** A message sent from [a]; who receives a ping may have to guess from it where the sender is. *)
Definition message_fits (a : SocketAddr) (m : GossipMessage) : Prop :=
  match m with
  | MPing from _ => Q from a (http_of a)
  | MAck _ _ ms => Forall fits ms
  | MJoin n => fits n
  | MSuspect _ _ | MAlive _ _ => True
  end.

(** A service with a socket at [a]. *)
Definition knows (a : SocketAddr) (s : MembershipService) : Prop :=
  Q (id (local_node s)) a (http_of a) /\ forall j n, members s !! j = Some n -> fits n.

(** *** One service *)

Lemma fits_same n n' : same_place n n' -> fits n -> fits n'.
Proof. intros (Hi & Hg & Hh). unfold fits. by rewrite Hi, Hg, Hh. Qed.

Lemma knows_insert a s k n inc :
  knows a s -> fits n -> knows a (mkService (local_node s) (<[k:=n]> (members s)) inc).
Proof.
  intros [Hl Hk] Hn. split; [done|]. simpl.
  intros j x [[_ <-]|[_ Hx]]%lookup_insert_Some; eauto.
Qed.

Lemma knows_update a s k n n' inc :
  knows a s -> members s !! k = Some n -> same_place n n' ->
  knows a (mkService (local_node s) (<[k:=n']> (members s)) inc).
Proof. intros Hs Hk Hp. apply knows_insert; [done|]. eapply fits_same, Hs; done. Qed.

#[local] Hint Extern 0 (same_place _ _) => (split_and!; reflexivity) : core.

Lemma merge_member_knows a n now s : knows a s -> fits n -> knows a (merge_member n now s).
Proof.
  intros Hs Hn. unfold merge_member, set_members. handler_cases; auto.
  - by eapply knows_update.
  - by apply knows_insert.
Qed.

Lemma merge_all_knows a ms now s :
  knows a s -> Forall fits ms -> knows a (foldl (fun s n => merge_member n now s) s ms).
Proof.
  intros Hs Hms. revert s Hs. induction Hms as [|n ms Hn Hms IH]; intros s Hs; simpl; [done|].
  by apply IH, merge_member_knows.
Qed.

Lemma knows_all_members a s : knows a s -> Forall fits (all_members s).
Proof.
  intros [_ Hs]. apply Forall_forall. intros n. unfold all_members. rewrite list_elem_of_fmap.
  intros ([i m] & -> & Hm). apply elem_of_map_to_list in Hm. by eapply Hs.
Qed.

Lemma handle_message_knows m a b now s :
  knows a s -> message_fits b m ->
  knows a (handle_message m b now s).1 /\
  Forall (fun d => message_fits a d.2) (handle_message m b now s).2.
Proof.
  intros Hs Hm. destruct m as [from inc|from inc ms|node|i inc|i inc]; simpl in *.
  - match goal with |- knows a ?s' /\ _ => assert (knows a s') as Hok end.
    { unfold handle_ping, set_members. handler_cases; try by eapply knows_update.
      by apply knows_insert. }
    split; [done|]. repeat constructor. by eapply knows_all_members.
  - split; [|done]. unfold handle_ack, set_members.
    handler_cases; auto; apply merge_all_knows; auto; by eapply knows_update.
  - split; [|done]. by apply knows_insert.
  - unfold handle_suspect, set_members. handler_cases; auto; split; try done;
      try by eapply knows_update.
    unfold broadcast_message. by apply Forall_fmap, Forall_true.
  - split; [|done]. unfold handle_alive, set_members. handler_cases; auto; by eapply knows_update.
Qed.

Lemma fd_member_place l now n : same_place n (fd_member l now n).
Proof. unfold fd_member. repeat case_match; auto. Qed.

Lemma tick_knows a now s :
  knows a s ->
  knows a (failure_detection_tick now s).1 /\
  Forall (fun d => message_fits a d.2) (failure_detection_tick now s).2.
Proof.
  intros [Hl Hs]. split.
  - split; [done|]. intros j n. rewrite tick_lookup. intros (m & Hm & ->)%fmap_Some.
    eapply fits_same; [apply fd_member_place|eauto].
  - simpl. apply Forall_bind, Forall_forall. intros m (n & Hn & Hmsg)%list_elem_of_omap.
    unfold broadcast_message. apply Forall_fmap, Forall_true. intros x. simpl.
    unfold fd_message in Hmsg. by repeat case_match; simplify_eq/=.
Qed.

Lemma gossip_knows a idx s : knows a s -> Forall (fun d => message_fits a d.2) (gossip_tick idx s).
Proof. intros [Hl _]. unfold gossip_tick. case_match; by repeat constructor. Qed.

Lemma wire_fits a m : message_fits a m -> message_fits a (wire m).
Proof. destruct m; simpl; try done. intros H. apply Forall_fmap. by eapply Forall_impl. Qed.
End fits.

(** What fits goes on to fit where more does. *)
Section grow.
Context (Q Q' : NodeId -> SocketAddr -> SocketAddr -> Prop) (Hgrow : forall i g h, Q i g h -> Q' i g h).

Lemma message_fits_grow a m : message_fits Q a m -> message_fits Q' a m.
Proof.
  destruct m; simpl; try done; [apply Hgrow| |apply Hgrow].
  intros H. eapply Forall_impl; [exact H|]. intros n. apply Hgrow.
Qed.

Lemma knows_grow a s : knows Q a s -> knows Q' a s.
Proof. intros [Hl Hs]. split; [auto|]. intros j n Hn. by eapply Hgrow, Hs. Qed.
End grow.

(** *** The cluster

    What may be recorded can depend on the nodes there are, as long as it stays so; [admitted] says
    which actions are taken. *)
Section cluster.
Context (Q : Cluster -> NodeId -> SocketAddr -> SocketAddr -> Prop) (admitted : action -> Prop).

Record fitting (c : Cluster) : Prop := {
  ft_services i s : services c !! i = Some s -> knows (Q c) (address c i) s;
  ft_soup p : p ∈ soup c -> message_fits (Q c) (src p) (payload p);
}.

Hypothesis Hgrow : forall x c i g h, cluster_ok c -> Q c i g h -> Q (act x c) i g h.
Hypothesis Hstart : forall bind real seeds fresh now c,
  admitted (Start bind real seeds fresh now) -> services c !! fresh = None -> binds bind real = true ->
  let c' := act (Start bind real seeds fresh now) c in
  Q c' fresh real (http_of real) /\ Q c' fresh bind (http_of bind).

Lemma update_fitting c i r :
  let c' := update c i r in
  (forall j s, services c !! j = Some s -> j <> i -> knows (Q c') (address c j) s) ->
  (forall p, p ∈ soup c -> message_fits (Q c') (src p) (payload p)) ->
  knows (Q c') (address c i) r.1 /\ Forall (fun d => message_fits (Q c') (address c i) d.2) r.2 ->
  fitting c'.
Proof.
  intros c' Hs Hp [Hk Hout]. split; simpl.
  - intros j s [[<- <-]|[Hne Hj]]%lookup_insert_Some; [done|]. by apply Hs.
  - intros p [Hin|Hin]%elem_of_app; [by apply Hp|].
    apply list_elem_of_fmap in Hin as (d & -> & Hin). simpl. apply wire_fits.
    rewrite Forall_forall in Hout. auto.
Qed.

(** A step of a running service. *)
Lemma step_fitting x c i s r :
  fitting c -> cluster_ok c -> services c !! i = Some s -> act x c = update c i r ->
  (forall Q', knows Q' (address c i) s -> (forall p, p ∈ soup c -> message_fits Q' (src p) (payload p)) ->
     knows Q' (address c i) r.1 /\ Forall (fun d => message_fits Q' (address c i) d.2) r.2) ->
  fitting (act x c).
Proof.
  intros [Hks Hps] Hok Hs Hx Hr.
  assert (forall j g h, Q c j g h -> Q (act x c) j g h) as Hg by (intros j g h; by apply Hgrow).
  assert (forall p, p ∈ soup c -> message_fits (Q (act x c)) (src p) (payload p)) as Hps'
    by (intros p Hp; by eapply message_fits_grow, Hps).
  rewrite Hx in *. apply update_fitting; [|done|].
  - intros j t Ht _. by eapply knows_grow, Hks.
  - apply Hr; [by eapply knows_grow, Hks|done].
Qed.

Lemma act_fitting x c : admitted x -> fitting c -> cluster_ok c -> fitting (act x c).
Proof.
  intros Ha Hf Hok. pose proof Hf as [Hks Hps].
  destruct x as [bind real seeds fresh now|k i now|i now|i idx].
  - assert (forall j g h, Q c j g h -> Q (act (Start bind real seeds fresh now) c) j g h) as Hg
      by (intros j g h; by apply Hgrow).
    pose proof (Hstart bind real seeds fresh now c Ha) as Hs. cbv zeta in Hs. simpl in *.
    destruct (services c !! fresh) as [s|] eqn:Hfr; [done|]. destruct (binds bind real) eqn:Hb; [|done].
    destruct (Hs eq_refl eq_refl) as [Hreal Hbind]. clear Hs.
    assert (address (open_socket fresh real c) fresh = real) as Hadr
      by (unfold address; simpl; by rewrite lookup_insert_eq).
    apply update_fitting; rewrite ?Hadr.
    + intros j s Hj Hne. simpl in Hj. unfold address. simpl. rewrite lookup_insert_ne by done.
      by eapply knows_grow, Hks.
    + intros p Hp. by eapply message_fits_grow, Hps.
    + split; [split; [done|]|].
      * intros j n. simpl. rewrite lookup_singleton_Some. intros [<- <-]. exact Hbind.
      * apply Forall_fmap, Forall_true. intros a. exact Hbind.
  - simpl in *. destruct (soup c !! k) as [p|] eqn:Hk; [|done].
    destruct (services c !! i) as [s|] eqn:Hi; [|done]. case_decide as Hd; [|done].
    replace (update c i (handle_message (payload p) (src p) now s)) with (act (Deliver k i now) c)
      by (simpl; by rewrite Hk, Hi, decide_True).
    apply (step_fitting _ c i s (handle_message (payload p) (src p) now s)); try done.
    { simpl. by rewrite Hk, Hi, decide_True. }
    intros Q' Hks' Hps'. apply handle_message_knows; [done|]. apply Hps'. by eapply list_elem_of_lookup_2.
  - simpl in *. destruct (services c !! i) as [s|] eqn:Hi; [|done].
    replace (update c i (failure_detection_tick now s)) with (act (TickAt i now) c) by (simpl; by rewrite Hi).
    apply (step_fitting _ c i s (failure_detection_tick now s)); try done; [simpl; by rewrite Hi|].
    intros Q' Hks' _. by apply tick_knows.
  - simpl in *. destruct (services c !! i) as [s|] eqn:Hi; [|done].
    replace (update c i (s, gossip_tick idx s)) with (act (GossipAt i idx) c) by (simpl; by rewrite Hi).
    apply (step_fitting _ c i s (s, gossip_tick idx s)); try done; [simpl; by rewrite Hi|].
    intros Q' Hks' _. split; [done|]. by apply gossip_knows.
Qed.

Lemma execute_fitting xs c :
  Forall admitted xs -> fitting c -> cluster_ok c -> fitting (execute xs c).
Proof.
  intros Hxs. revert c. induction Hxs as [|x xs Hx Hxs IH]; intros c Hc Hok; simpl; [done|].
  apply IH; auto using act_fitting with cluster.
Qed.

Lemma empty_fitting : fitting empty_cluster.
Proof. split; simpl; [intros i s; by rewrite lookup_empty|by intros p ?%elem_of_nil]. Qed.
End cluster.

(** *** What actions leave as it is *)

Definition local_of (c : Cluster) (i : NodeId) : option Node := local_node <$> services c !! i.

Lemma local_of_update c i r j :
  local_of (update c i r) j = if decide (i = j) then Some (local_node r.1) else local_of c j.
Proof. unfold local_of. simpl. case_decide; subst; by rewrite ?lookup_insert_eq, ?lookup_insert_ne. Qed.

(** A service after an action was there before, with the same local node and socket, or has been
    started. *)
Lemma act_services x c i s' :
  services (act x c) !! i = Some s' ->
  (exists s, services c !! i = Some s /\ local_node s' = local_node s /\
     sockets (act x c) !! i = sockets c !! i) \/
  (exists bind real seeds now, x = Start bind real seeds i now /\ services c !! i = None /\
     binds bind real = true /\ s' = (new bind seeds i now).1 /\ sockets (act x c) !! i = Some real).
Proof.
  assert (forall j s r, services c !! j = Some s -> local_node r.1 = local_node s ->
            services (update c j r) !! i = Some s' ->
            exists s, services c !! i = Some s /\ local_node s' = local_node s /\
              sockets (update c j r) !! i = sockets c !! i) as Hup.
  { intros j s r Hj Hl. simpl. intros [[<- <-]|[_ Hi]]%lookup_insert_Some; eauto. }
  destruct x as [bind real seeds fresh now|k j now|j now|j idx]; simpl.
  - destruct (services c !! fresh) as [s|] eqn:Hf; [by left; eauto|].
    destruct (binds bind real) eqn:Hb; [|by left; eauto]. simpl.
    intros [[-> <-]|[Hne Hi]]%lookup_insert_Some.
    + right. exists bind, real, seeds, now. by rewrite lookup_insert_eq.
    + left. rewrite lookup_insert_ne by done. eauto.
  - destruct (soup c !! k) as [p|]; [|by left; eauto].
    destruct (services c !! j) as [s|] eqn:Hj; [|by left; eauto]. case_decide; [|by left; eauto].
    intros Hi. left. eapply (Hup j s); [done| |exact Hi]. apply (apply_local (Recv (payload p) (src p) now)).
  - destruct (services c !! j) as [s|] eqn:Hj; [|by left; eauto]. intros Hi. left. by eapply (Hup j s).
  - destruct (services c !! j) as [s|] eqn:Hj; [|by left; eauto]. intros Hi. left. by eapply (Hup j s).
Qed.

Lemma act_local x c i l : local_of c i = Some l -> local_of (act x c) i = Some l.
Proof.
  unfold local_of. intros (s & Hs & ->)%fmap_Some.
  assert (exists s', services (act x c) !! i = Some s') as [s' Hs'].
  { assert (forall j r, exists s', services (update c j r) !! i = Some s') as Hup.
    { intros j r. simpl. destruct (decide (j = i)) as [->|]; [rewrite lookup_insert_eq; eauto|].
      rewrite lookup_insert_ne by done. eauto. }
    destruct x as [bind real seeds fresh now|k j now|j now|j idx]; simpl; repeat case_match; eauto;
      apply Hup. }
  destruct (act_services x c i s' Hs') as [(t & Ht & Hl & _)|(b & r & sd & nw & _ & Hn & _)]; [|congruence].
  rewrite Hs'. simpl. rewrite Hl. congruence.
Qed.

Lemma act_derived x c :
  (forall i l, local_of c i = Some l -> id l = i /\ http_addr l = http_of (gossip_addr l)) ->
  forall i l, local_of (act x c) i = Some l -> id l = i /\ http_addr l = http_of (gossip_addr l).
Proof.
  intros Hd i l. unfold local_of. intros (s' & Hs' & ->)%fmap_Some.
  destruct (act_services x c i s' Hs') as [(s & Hs & -> & _)|(b & r & sd & nw & _ & _ & _ & -> & _)]; [|done].
  apply Hd. unfold local_of. by rewrite Hs.
Qed.

(** The HTTP address of a node is derived from the one it was told to bind. *)
Lemma reachable_derived xs i l :
  local_of (execute xs empty_cluster) i = Some l -> id l = i /\ http_addr l = http_of (gossip_addr l).
Proof.
  assert (forall i l, local_of empty_cluster i = Some l ->
            id l = i /\ http_addr l = http_of (gossip_addr l)) as H0
    by (intros j m; unfold local_of; simpl; by rewrite lookup_empty).
  revert i l. revert H0. generalize empty_cluster as c.
  induction xs as [|x xs IH]; intros c Hc; [exact Hc|]. by apply IH, act_derived.
Qed.

(** *** Nodes bound to concrete addresses

    Then every node has the address it advertises, and records lead where they say. *)

Definition bound_concretely (x : action) : Prop :=
  match x with Start bind _ _ _ _ => concrete bind = true | _ => True end.

Definition really (c : Cluster) (i : NodeId) (g h : SocketAddr) : Prop :=
  exists l, local_of c i = Some l /\ g = gossip_addr l /\ h = http_addr l.

Record located (c : Cluster) : Prop := {
  loc_derived i l : local_of c i = Some l -> id l = i /\ http_addr l = http_of (gossip_addr l);
  loc_sockets i s : services c !! i = Some s ->
    concrete (gossip_addr (local_node s)) = true /\ sockets c !! i = Some (gossip_addr (local_node s));
  loc_fitting : fitting really c;
}.

Lemma loc_services c i s : located c -> services c !! i = Some s ->
  forall j n, members s !! j = Some n -> really c (id n) (gossip_addr n) (http_addr n).
Proof. intros Hc Hs. by apply (ft_services _ _ (loc_fitting c Hc) i s). Qed.

Lemma act_located x c : bound_concretely x -> located c -> cluster_ok c -> located (act x c).
Proof.
  intros Hx [Hd Hk Hf] Hok. split.
  - by apply act_derived.
  - intros i s' Hs'.
    destruct (act_services x c i s' Hs') as [(s & Hs & -> & ->)|(b & r & sd & nw & -> & _ & Hb & -> & ->)];
      [by apply Hk|]. simpl in *. split; [done|]. f_equal. by apply binds_concrete.
  - apply (act_fitting really bound_concretely); [| |done..].
    + intros y c1 i g h _ (l & Hl & Hgh). exists l. split; [by apply act_local|done].
    + intros bind real seeds fresh now c1 Hb Hnone Hr.
      assert (real = bind) as -> by by apply binds_concrete.
      assert (really (act (Start bind bind seeds fresh now) c1) fresh bind (http_of bind)); [|by split].
      exists (local_node (new bind seeds fresh now).1). split; [|done]. simpl.
      by rewrite Hnone, Hr, local_of_update, decide_True.
Qed.

Lemma execute_located xs c :
  Forall bound_concretely xs -> located c -> cluster_ok c -> located (execute xs c).
Proof.
  intros Hxs. revert c. induction Hxs as [|x xs Hx Hxs IH]; intros c Hc Hok; simpl; [done|].
  apply IH; auto using act_located with cluster.
Qed.

Lemma empty_located : located empty_cluster.
Proof.
  split; [|by intros i s; simpl; rewrite lookup_empty|apply empty_fitting].
  intros i l. unfold local_of. simpl. by rewrite lookup_empty.
Qed.

Lemma reachable_located xs : Forall bound_concretely xs -> located (execute xs empty_cluster).
Proof. intros Hxs. apply execute_located; [done|apply empty_located|apply empty_ok]. Qed.

(** ** Views that grow

    While nobody is suspected, views only gain members. *)

Definition cheerful (s : MembershipService) : Prop :=
  forall j n, members s !! j = Some n -> state n = Alive.

Lemma cheerful_insert s k n inc :
  cheerful s -> state n = Alive -> cheerful (mkService (local_node s) (<[k:=n]> (members s)) inc).
Proof. intros Hs Hn j x. simpl. intros [[_ <-]|[_ Hx]]%lookup_insert_Some; eauto. Qed.

(** Merging the records of live members adds their names. *)
Lemma merge_all_grown ms now s :
  cheerful s -> Forall (fun n => state n = Alive) ms ->
  let s' := foldl (fun s n => merge_member n now s) s ms in
  cheerful s' /\ dom (members s') = dom (members s) ∪ list_to_set (id <$> ms).
Proof.
  intros Hs Hms. revert s Hs. induction Hms as [|n ms Hn Hms IH]; intros s Hs; simpl.
  { split; [done|set_solver]. }
  assert (cheerful (merge_member n now s) /\
    dom (members (merge_member n now s)) = dom (members s) ∪ {[id n]}) as [Hc Hd].
  { simpl in Hn. unfold merge_member, set_members. handler_cases.
    - pose proof (Hs _ _ E). congruence.
    - split; [by apply cheerful_insert|]. set_solver.
    - pose proof (Hs _ _ E). congruence.
    - split; [done|]. apply elem_of_dom_2 in E. set_solver.
    - congruence.
    - split; [by apply cheerful_insert|]. set_solver. }
  destruct (IH _ Hc) as [Hc' ->]. split; [done|]. rewrite Hd. set_solver.
Qed.

Lemma ping_grown from inc a now s :
  cheerful s ->
  let s' := (handle_ping from inc a now s).1 in
  cheerful s' /\ dom (members s') = {[from]} ∪ dom (members s).
Proof.
  intros Hs. unfold handle_ping, set_members. handler_cases; (split; [|set_solver]).
  - apply cheerful_insert; [done|]. simpl. by eapply Hs.
  - apply cheerful_insert; [done|]. simpl. by eapply Hs.
  - by apply cheerful_insert.
Qed.

Lemma all_members_grown s :
  wf s -> cheerful s ->
  Forall (fun n => state n = Alive) (wire_node <$> all_members s) /\
  list_to_set (id <$> (wire_node <$> all_members s)) =@{gset NodeId} dom (members s).
Proof.
  intros Hwf Hs. assert (forall n, n ∈ all_members s <-> exists j, members s !! j = Some n) as Hin.
  { intros n. unfold all_members. rewrite list_elem_of_fmap. split.
    - intros ([j x] & -> & Hx%elem_of_map_to_list). eauto.
    - intros [j Hj]. exists (j, n). by rewrite elem_of_map_to_list. }
  split.
  - apply Forall_fmap, Forall_forall. intros n [j Hj]%Hin. exact (Hs j n Hj).
  - apply set_eq. intros i. rewrite elem_of_list_to_set, elem_of_dom. split.
    + intros (? & -> & (n & -> & [j Hj]%Hin)%list_elem_of_fmap)%list_elem_of_fmap. simpl.
      by rewrite (wf_key s Hwf _ _ Hj).
    + intros [n Hn]. apply list_elem_of_fmap. exists (wire_node n). split.
      * symmetry. apply (wf_key s Hwf _ _ Hn).
      * apply list_elem_of_fmap. exists n. split; [done|]. apply Hin. eauto.
Qed.

Lemma ack_grown from inc view now s :
  cheerful s -> Forall (fun n => state n = Alive) view -> is_Some (members s !! from) ->
  let s' := handle_ack from inc view now s in
  cheerful s' /\ dom (members s') = dom (members s) ∪ list_to_set (id <$> view).
Proof.
  intros Hs Hv [m Hm]. unfold handle_ack. rewrite Hm.
  rewrite decide_False by (rewrite (Hs _ _ Hm); done).
  match goal with |- context [foldl _ (set_members (<[from:=?m']> _) s)] =>
    assert (state m' = Alive) as Ha by (case_match; by apply (Hs _ _ Hm));
    pose proof (cheerful_insert s from m' (my_incarnation s) Hs Ha) as Hs1;
    pose proof (merge_all_grown view now _ Hs1 Hv) as [Hc Hd]
  end.
  split; [exact Hc|]. etrans; [exact Hd|]. simpl. apply elem_of_dom_2 in Hm. set_solver.
Qed.

(** ** One exchange: [a] pings [b], who answers with all it knows *)

(** Deliveries and pings at one instant. *)
Definition prompt (now : Z) (x : action) : Prop :=
  match x with
  | Deliver _ _ t => t = now
  | GossipAt _ _ => True
  | Start _ _ _ _ _ | TickAt _ _ => False
  end.

Record sound (c : Cluster) : Prop := {
  sd_ok : cluster_ok c;
  sd_located : located c;
  sd_cheerful i s : services c !! i = Some s -> cheerful s;
}.

Lemma execute_app xs ys c : execute (xs ++ ys) c = execute ys (execute xs c).
Proof. unfold execute. by rewrite foldl_app. Qed.

Lemma prompt_concrete now xs : Forall (prompt now) xs -> Forall bound_concretely xs.
Proof. intros Hxs. eapply Forall_impl; [exact Hxs|]. by intros []. Qed.

Lemma sound_execute xs c :
  Forall bound_concretely xs -> sound c -> (forall i s, services (execute xs c) !! i = Some s -> cheerful s) ->
  sound (execute xs c).
Proof.
  intros Hxs [Hok Hl _] Hs. split; [by apply execute_ok|by apply execute_located|done].
Qed.

Lemma gossip_to s j n :
  wf s -> cheerful s -> members s !! j = Some n -> j <> id (local_node s) ->
  exists idx, gossip_tick idx s = [(gossip_addr n, MPing (id (local_node s)) (my_incarnation s))].
Proof.
  intros Hwf Hs Hn Hj. assert (n ∈ gossip_targets s) as [idx Hidx]%list_elem_of_lookup.
  { apply list_elem_of_filter. rewrite (wf_key s Hwf _ _ Hn). split; [split; [done|by eapply Hs]|].
    apply list_elem_of_fmap. exists (j, n). by rewrite elem_of_map_to_list. }
  exists idx. unfold gossip_tick. by rewrite Hidx.
Qed.

(** Services and soup after a delivery at its destination. *)
Lemma deliver_eq c k i now p s :
  soup c !! k = Some p -> services c !! i = Some s -> sockets c !! i = Some (destination p) ->
  act (Deliver k i now) c = update c i (handle_message (payload p) (src p) now s).
Proof. intros Hk Hi Hd. simpl. by rewrite Hk, Hi, decide_True. Qed.

Section exchange.
Context (c : Cluster) (a b : NodeId) (sa sb : MembershipService) (now : Z).
Hypothesis Ha : services c !! a = Some sa.
Hypothesis Hb : services c !! b = Some sb.
Hypothesis Hab : a <> b.
Hypothesis Hloc : located c.
Let ga := gossip_addr (local_node sa).
Let gb := gossip_addr (local_node sb).
Let ping := MPing a (my_incarnation sa).
Let sb' := (handle_ping a (my_incarnation sa) ga now sb).1.
Let view := wire_node <$> all_members sb'.
Let ack := MAck b (my_incarnation sb') view.
Let sa' := handle_ack b (my_incarnation sb') view now sa.

Definition exchange_acts (idx : nat) : list action :=
  [GossipAt a idx; Deliver (length (soup c)) b now; Deliver (S (length (soup c))) a now].

Lemma exchange_run idx :
  id (local_node sa) = a -> id (local_node sb) = b -> gossip_tick idx sa = [(gb, ping)] ->
  execute (exchange_acts idx) c =
    mkCluster (<[a := sa']> (<[b := sb']> (services c)))
      (sockets c) (soup c ++ [mkPacket ga gb ping; mkPacket gb ga ack]).
Proof.
  destruct (loc_sockets c Hloc a sa Ha) as [Hca Hsa]. destruct (loc_sockets c Hloc b sb Hb) as [Hcb Hsb].
  intros Hia Hib Hidx. set (c1 := mkCluster (services c) (sockets c) (soup c ++ [mkPacket ga gb ping])).
  assert (act (GossipAt a idx) c = c1) as E1.
  { simpl. rewrite Ha, Hidx. unfold update, address. rewrite Hsa. simpl. by rewrite insert_id. }
  set (c2 := mkCluster (<[b := sb']> (services c1)) (sockets c) (soup c1 ++ [mkPacket gb ga ack])).
  assert (act (Deliver (length (soup c)) b now) c1 = c2) as E2.
  { rewrite (deliver_eq c1 _ b now (mkPacket ga gb ping) sb); [|simpl|done|].
    - unfold c2, update, address. simpl. by rewrite Hsb, Hib.
    - by rewrite lookup_app_r, Nat.sub_diag.
    - by rewrite destination_concrete. }
  unfold execute, exchange_acts. cbn [foldl]. rewrite E1, E2.
  rewrite (deliver_eq c2 _ a now (mkPacket gb ga ack) sa); [|simpl..|by rewrite destination_concrete].
  - unfold update. simpl. by rewrite app_nil_r, <- app_assoc.
  - rewrite lookup_app_r by (rewrite length_app; simpl; lia). rewrite length_app. simpl.
    by replace (S (length (soup c)) - (length (soup c) + 1))%nat with 0%nat by lia.
  - by rewrite lookup_insert_ne.
Qed.

Lemma exchange n :
  sound c -> members sa !! b = Some n ->
  exists xs ta tb, Forall (prompt now) xs /\ sound (execute xs c) /\
    services (execute xs c) = <[a := ta]> (<[b := tb]> (services c)) /\
    local_node ta = local_node sa /\ local_node tb = local_node sb /\
    dom (members tb) = {[a]} ∪ dom (members sb) /\
    dom (members ta) = dom (members sa) ∪ ({[a]} ∪ dom (members sb)) /\
    soup c `prefix_of` soup (execute xs c).
Proof.
  intros Hc Hn. pose proof Hc as [Hok _ Hch].
  destruct (ok_services c Hok a sa Ha) as [Hsa Hia]. destruct (ok_services c Hok b sb Hb) as [Hsb Hib].
  destruct (gossip_to sa b n (ok_wf _ Hsa) (Hch _ _ Ha) Hn) as [idx Hidx]; [congruence|].
  assert (gossip_addr n = gb) as Haddr.
  { destruct (loc_services c a sa Hloc Ha b n Hn) as (l & Hl & Hg & _).
    rewrite (wf_key sa (ok_wf _ Hsa) _ _ Hn) in Hl. unfold local_of in Hl. rewrite Hb in Hl.
    by injection Hl as <-. }
  destruct (ping_grown a (my_incarnation sa) ga now sb (Hch _ _ Hb)) as [Hcb Hdb].
  destruct (all_members_grown sb') as [Hview Hids]; [apply handle_ping_wf, (ok_wf _ Hsb)|done|].
  destruct (ack_grown b (my_incarnation sb') view now sa (Hch _ _ Ha) Hview) as [Hca Hda];
    [by exists n|].
  rewrite Haddr, Hia in Hidx. pose proof (exchange_run idx Hia Hib Hidx) as Hrun.
  exists (exchange_acts idx), sa', sb'. split; [repeat constructor|]. split.
  { apply sound_execute; [by repeat constructor|done|]. rewrite Hrun. cbn [services]. intros i s.
    intros [[_ <-]|[_ [[_ <-]|[_ Hs]]%lookup_insert_Some]]%lookup_insert_Some; eauto. }
  rewrite Hrun. split_and!.
  - done.
  - apply (apply_local (Recv ack gb now)).
  - apply (apply_local (Recv ping ga now)).
  - exact Hdb.
  - etrans; [exact Hda|]. f_equal. etrans; [exact Hids|exact Hdb].
  - by eexists.
Qed.
End exchange.

(** ** Getting to know everyone *)

(** Node [i] has a record of [j]. *)
Definition acquainted (c : Cluster) (i j : NodeId) : Prop :=
  exists s, services c !! i = Some s /\ j ∈ dom (members s).

Record grown (c c' : Cluster) : Prop := {
  gr_local i : local_of c' i = local_of c i;
  gr_known i j : acquainted c i j -> acquainted c' i j;
  gr_soup : soup c `prefix_of` soup c';
}.

#[export] Instance grown_preorder : PreOrder grown.
Proof.
  split; [by split|]. intros c1 c2 c3 [L1 K1 S1] [L2 K2 S2].
  split; [intros i; by rewrite L2|eauto|by etrans].
Qed.

(** Prompt deliveries and pings can bring about [Q]. *)
Definition leads_to (now : Z) (c : Cluster) (Q : Cluster -> Prop) : Prop :=
  exists xs, Forall (prompt now) xs /\ sound (execute xs c) /\ grown c (execute xs c) /\
             Q (execute xs c).

Lemma leads_refl now c (Q : Cluster -> Prop) : sound c -> Q c -> leads_to now c Q.
Proof. intros Hc HQ. exists []. split_and!; [constructor|done|reflexivity|done]. Qed.

Lemma leads_trans now c (Q R : Cluster -> Prop) :
  leads_to now c Q ->
  (forall c', sound c' -> grown c c' -> Q c' -> leads_to now c' R) -> leads_to now c R.
Proof.
  intros (xs & Hxs & Hs & Hg & HQ) Hnext.
  destruct (Hnext _ Hs Hg HQ) as (ys & Hys & Hs' & Hg' & HR). exists (xs ++ ys).
  rewrite execute_app. split_and!; [by apply Forall_app|done|by etrans|done].
Qed.

Lemma leads_weaken now c (Q R : Cluster -> Prop) :
  leads_to now c Q -> (forall c', sound c' -> grown c c' -> Q c' -> R c') -> leads_to now c R.
Proof. intros HQ Himp. eapply leads_trans; [exact HQ|]. intros. apply leads_refl; auto. Qed.

Lemma acquainted_up c i j : sound c -> acquainted c i j -> is_Some (services c !! j).
Proof.
  intros Hc (s & Hs & [n Hn]%elem_of_dom).
  destruct (loc_services c i s (sd_located c Hc) Hs j n Hn) as (l & Hl & _).
  rewrite (wf_key s (ok_wf s (proj1 (ok_services c (sd_ok c Hc) i s Hs))) _ _ Hn) in Hl.
  unfold local_of in Hl. destruct (services c !! j); [by eexists|done].
Qed.

(** One service that knows more. *)
Lemma grown_insert c c' i s s' :
  services c !! i = Some s -> services c' = <[i := s']> (services c) ->
  local_node s' = local_node s -> dom (members s) ⊆ dom (members s') ->
  soup c `prefix_of` soup c' -> grown c c'.
Proof.
  intros Hs Hc' Hl Hd Hp. split; [| |done].
  - intros x. unfold local_of. rewrite Hc'. destruct (decide (i = x)) as [<-|Hne].
    + rewrite lookup_insert_eq, Hs. simpl. by rewrite Hl.
    + by rewrite lookup_insert_ne.
  - intros x y (t & Hx & Hy). destruct (decide (i = x)) as [<-|Hne].
    + exists s'. rewrite Hc', lookup_insert_eq. split; [done|]. simplify_eq. by apply Hd.
    + exists t. by rewrite Hc', lookup_insert_ne.
Qed.

(** If [i] knows [j], then [j] can learn of [i], and [i] of all that [j] knows. *)
Lemma introduce now c i j :
  sound c -> i <> j -> acquainted c i j ->
  leads_to now c (fun c' => acquainted c' j i /\ forall k, acquainted c j k -> acquainted c' i k).
Proof.
  intros Hc Hij Hk. destruct (acquainted_up c i j Hc Hk) as [sj Hj].
  destruct Hk as (si & Hi & [n Hn]%elem_of_dom).
  destruct (exchange c i j si sj now Hi Hj Hij (sd_located c Hc) n Hc Hn)
    as (xs & ti & tj & Hxs & Hs & Hserv & Hli & Hlj & Hdj & Hdi & Hsoup).
  exists xs. split_and!; [done|done| |..].
  - set (c1 := mkCluster (<[j := tj]> (services c)) (sockets c) (soup c)).
    trans c1; [apply (grown_insert _ _ j sj tj)|apply (grown_insert _ _ i si ti)]; try done.
    + set_solver.
    + simpl. by rewrite lookup_insert_ne.
    + set_solver.
  - exists tj. rewrite Hserv, lookup_insert_ne, lookup_insert_eq, Hdj by done. split; [done|]. set_solver.
  - intros k (s & Hs' & Hk). simplify_eq. exists ti. rewrite Hserv, lookup_insert_eq, Hdi.
    split; [done|]. set_solver.
Qed.

(** The announcement of [i] that waits for delivery at [a]. *)
Definition announced (c : Cluster) (a : SocketAddr) (i : NodeId) : Prop :=
  exists p n, p ∈ soup c /\ destination p = a /\ payload p = MJoin n /\ id n = i.

Lemma announced_grown c c' a i : grown c c' -> announced c a i -> announced c' a i.
Proof.
  intros Hg (p & n & Hp & Hr). exists p, n. split; [|done].
  destruct (gr_soup _ _ Hg) as [l ->]. set_solver.
Qed.

Lemma join_known now c l i j :
  sound c -> local_of c i = Some l -> announced c (gossip_addr l) j ->
  leads_to now c (fun c' => acquainted c' i j).
Proof.
  intros Hc Hl (p & n & Hp & Hd & Hj & <-). unfold local_of in Hl.
  destruct (services c !! i) as [s|] eqn:Hi; [|done]. injection Hl as <-.
  pose proof (ok_soup c (sd_ok c Hc) p Hp) as Hmsg. rewrite Hj in Hmsg. destruct Hmsg as [_ Halive].
  apply list_elem_of_lookup in Hp as [k Hk].
  set (s' := handle_join n now s). assert (dom (members s') = {[id n]} ∪ dom (members s)) as Hdom.
  { simpl. by rewrite dom_insert_L. }
  set (c' := mkCluster (<[i := s']> (services c)) (sockets c) (soup c ++ [])).
  destruct (loc_sockets c (sd_located c Hc) i s Hi) as [_ Hk'].
  assert (execute [Deliver k i now] c = c') as Hrun.
  { unfold execute. cbn [foldl]. rewrite (deliver_eq c k i now p s Hk Hi) by congruence. by rewrite Hj. }
  exists [Deliver k i now]. split_and!; [repeat constructor| |rewrite Hrun..].
  - apply sound_execute; [by repeat constructor|done|]. rewrite Hrun. simpl.
    intros x sx [[_ <-]|[_ Hx]]%lookup_insert_Some; [|by eapply sd_cheerful].
    apply cheerful_insert; [by eapply sd_cheerful|done].
  - apply (grown_insert _ _ i s s'); try done; [rewrite Hdom; set_solver|by eexists].
  - exists s'. split; [apply lookup_insert_eq|]. rewrite Hdom. set_solver.
Qed.

(** Each node of a list announces itself to [i0] and is pinged back. *)
Lemma greet_all now i0 l ks c :
  sound c -> local_of c i0 = Some l -> Forall (fun k => k <> i0 /\ announced c (gossip_addr l) k) ks ->
  leads_to now c (fun c' => Forall (fun k => acquainted c' i0 k /\ acquainted c' k i0) ks).
Proof.
  revert c. induction ks as [|k ks IH]; intros c Hc Hl Hks; [by apply leads_refl|].
  apply Forall_cons in Hks as [[Hne Hann] Hks].
  eapply leads_trans; [by apply (join_known now c l i0 k)|]. intros c1 H1 G1 K1.
  eapply leads_trans; [by apply (introduce now c1 i0 k)|]. intros c2 H2 G2 [K2 _].
  assert (grown c c2) as G by (by etrans).
  eapply leads_weaken; [apply (IH c2 H2)|].
  - by rewrite (gr_local _ _ G).
  - eapply Forall_impl; [exact Hks|]. intros x [? ?]. split; [done|]. by apply (announced_grown c).
  - intros c3 _ G3 K3. apply Forall_cons. split; [|done].
    split; apply (gr_known _ _ G3); [by apply (gr_known _ _ G2)|done].
Qed.

(** Each node of a list asks [i0] what it knows. *)
Lemma learn_all now i0 ks c :
  sound c -> Forall (fun k => k <> i0 /\ acquainted c k i0) ks ->
  leads_to now c (fun c' => Forall (fun k => forall j, acquainted c i0 j -> acquainted c' k j) ks).
Proof.
  revert c. induction ks as [|k ks IH]; intros c Hc Hks; [by apply leads_refl|].
  apply Forall_cons in Hks as [[Hne Hk] Hks].
  eapply leads_trans; [by apply (introduce now c k i0)|]. intros c1 H1 G1 [_ K1].
  eapply leads_weaken; [apply (IH c1 H1)|].
  - eapply Forall_impl; [exact Hks|]. intros x [? ?]. split; [done|]. by apply (gr_known _ _ G1).
  - intros c2 _ G2 K2. apply Forall_cons. split.
    + intros j Hj. apply (gr_known _ _ G2). by apply K1.
    + eapply Forall_impl; [exact K2|]. intros x Hx j Hj. apply Hx. by apply (gr_known _ _ G1).
Qed.

(** ** The documented start *)

(** The founder starts without seeds, the others with its address. *)
Definition starts (founder : NodeId * SocketAddr) (others : list (NodeId * SocketAddr)) (now : Z)
    : list action :=
  Start founder.2 founder.2 [] founder.1 now :: ((fun x => Start x.2 x.2 [founder.2] x.1 now) <$> others).

Definition started (now : Z) (x : NodeId * SocketAddr) : Node :=
  mkNode x.1 x.2 (http_of x.2) Alive 1 (Some now).

Lemma start_spec c bind seeds fresh now :
  sound c -> services c !! fresh = None -> concrete bind = true ->
  Forall (fun a => concrete a = true) seeds ->
  let c' := act (Start bind bind seeds fresh now) c in
  sound c' /\ soup c `prefix_of` soup c' /\
  (forall i, local_of c' i = if decide (fresh = i) then Some (started now (fresh, bind)) else local_of c i) /\
  acquainted c' fresh fresh /\ forall a, a ∈ seeds -> announced c' a fresh.
Proof.
  intros Hc Hf Hb Hseeds. cbv zeta.
  assert (act (Start bind bind seeds fresh now) c =
          update (open_socket fresh bind c) fresh (new bind seeds fresh now)) as Hrun.
  { simpl. by rewrite Hf, binds_itself. }
  split.
  { change (sound (execute [Start bind bind seeds fresh now] c)).
    apply sound_execute; [by repeat constructor|done|]. unfold execute. cbn [foldl]. rewrite Hrun. simpl.
    intros i s [[_ <-]|[_ Hs]]%lookup_insert_Some; [|by eapply sd_cheerful].
    intros j n. simpl. rewrite lookup_singleton_Some. by intros [_ <-]. }
  rewrite Hrun. split_and!.
  - by eexists.
  - intros i. rewrite local_of_update. case_decide; reflexivity.
  - eexists. split; [apply lookup_insert_eq|]. simpl. rewrite dom_singleton_L. set_solver.
  - intros a Ha. rewrite Forall_forall in Hseeds.
    exists (mkPacket bind a (wire (MJoin (started now (fresh, bind))))), (wire_node (started now (fresh, bind))).
    split_and!; [|by apply destination_concrete, Hseeds|done..]. simpl. rewrite elem_of_app. right.
    apply list_elem_of_fmap. exists (a, MJoin (started now (fresh, bind))). split.
    + unfold address. simpl. by rewrite lookup_insert_eq.
    + apply list_elem_of_fmap. by exists a.
Qed.

(** All addresses are concrete. *)
Definition concretely (l : list (NodeId * SocketAddr)) : Prop := Forall (fun x => concrete x.2 = true) l.

Lemma starts_spec founder others now :
  NoDup (founder :: others).*1 -> concretely (founder :: others) ->
  let c := execute (starts founder others now) empty_cluster in
  sound c /\
  (forall i l, local_of c i = Some l -> exists a, (i, a) ∈ founder :: others) /\
  (forall x, x ∈ founder :: others -> local_of c x.1 = Some (started now x) /\ acquainted c x.1 x.1) /\
  forall x, x ∈ others -> announced c founder.2 x.1.
Proof.
  assert (sound empty_cluster) as H0.
  { split; [apply empty_ok|apply empty_located|]. simpl. intros i s. by rewrite lookup_empty. }
  induction others as [|x others IH] using rev_ind; intros Hnd Hcon.
  - apply Forall_cons in Hcon as [Hcon _].
    destruct (start_spec empty_cluster founder.2 [] founder.1 now H0) as (Hc & _ & Hl & Ha & _); [done..|].
    cbv zeta. unfold starts, execute. cbn [foldl fmap list_fmap]. split; [done|]. split; [|split].
    + intros i l. rewrite Hl. case_decide as E; [|done]. intros _. exists founder.2.
      rewrite <- E. destruct founder. left.
    + intros x ->%list_elem_of_singleton. rewrite Hl, decide_True by done. by destruct founder.
    + by intros x ?%elem_of_nil.
  - rewrite app_comm_cons, fmap_app in Hnd. apply NoDup_app in Hnd as (Hnd & Hfresh & _).
    rewrite app_comm_cons in Hcon. apply Forall_app in Hcon as [Hcon Hxc]. apply Forall_cons in Hxc as [Hxc _].
    destruct (IH Hnd Hcon) as (Hc & Hin & Hl & Ha). unfold starts.
    rewrite fmap_app, app_comm_cons. fold (starts founder others now).
    rewrite execute_app. cbv zeta. set (c := execute (starts founder others now) empty_cluster) in *.
    change (execute ((fun x => Start x.2 x.2 [founder.2] x.1 now) <$> [x]) c) with
      (act (Start x.2 x.2 [founder.2] x.1 now) c).
    assert (services c !! x.1 = None) as Hnone.
    { destruct (services c !! x.1) as [s|] eqn:Hs; [|done].
      destruct (Hin x.1 (local_node s)) as [a Hx]; [unfold local_of; by rewrite Hs|].
      destruct (Hfresh x.1); [|by left]. apply list_elem_of_fmap. by exists (x.1, a). }
    destruct (start_spec c x.2 [founder.2] x.1 now Hc Hnone Hxc) as (Hc' & Hp & Hl' & Hself & Hann).
    { apply Forall_cons in Hcon as [Hf _]. by apply Forall_singleton. }
    split; [done|]. split; [|split].
    + intros i l. rewrite Hl', app_comm_cons. case_decide as E.
      * intros _. exists x.2. rewrite <- E. apply elem_of_app. right. destruct x. left.
      * intros [a Hi]%Hin. exists a. apply elem_of_app. by left.
    + intros y. rewrite app_comm_cons. intros [Hy| ->%list_elem_of_singleton]%elem_of_app.
      * destruct (Hl y Hy) as [Hly Hyy]. rewrite Hl', decide_False.
        -- split; [done|]. destruct Hyy as (s & Hs & Hy').
           exists s. split; [|done]. simpl. rewrite Hnone, binds_itself by done. simpl.
           rewrite lookup_insert_ne; [done|]. intros E. rewrite <- E in Hs. congruence.
        -- intros E. unfold local_of in Hly. rewrite <- E, Hnone in Hly. done.
      * rewrite Hl', decide_True by done. by destruct x.
    + intros y [Hy| ->%list_elem_of_singleton]%elem_of_app; [|apply Hann; left].
      destruct (Ha y Hy) as (p & n & Hpk & Hr). exists p, n. split; [|done].
      destruct Hp as [q ->]. apply elem_of_app. by left.
Qed.

(** ** Properties *)

(** All nodes know all nodes, as alive. *)
Definition converged (c : Cluster) : Prop :=
  forall i s j, services c !! i = Some s -> alive s j <-> is_Some (services c !! j).

Lemma sound_converged c :
  sound c -> (forall i j, is_Some (services c !! i) -> is_Some (services c !! j) -> acquainted c i j) ->
  converged c.
Proof.
  intros Hc Hall i s j Hs. split.
  - intros (n & Hn & _). apply (acquainted_up c i j Hc). exists s. split; [done|].
    by eapply elem_of_dom_2.
  - intros Hj. destruct (Hall i j) as (t & Ht & [n Hn]%elem_of_dom); [by exists s|done|].
    simplify_eq. exists n. split; [done|]. by eapply sd_cheerful.
Qed.

(** See [bootstrap_converges]. *)
Lemma bootstrap founder others now :
  NoDup (founder :: others).*1 -> concretely (founder :: others) ->
  exists xs, Forall (prompt now) xs /\
    let c := execute (starts founder others now ++ xs) empty_cluster in
    converged c /\
    (forall i l, local_of c i = Some l -> exists a, (i, a) ∈ founder :: others) /\
    (forall x, x ∈ founder :: others -> local_of c x.1 = Some (started now x)).
Proof.
  intros Hnd Hcon. destruct (starts_spec founder others now Hnd Hcon) as (Hc & Hin & Hl & Hann).
  set (c := execute (starts founder others now) empty_cluster) in *. set (ids := others.*1).
  assert (forall k, k ∈ ids -> k <> founder.1 /\ announced c founder.2 k) as Hids.
  { intros k (x & -> & Hx)%list_elem_of_fmap. split; [|by apply Hann]. intros E.
    apply NoDup_cons in Hnd as [Hno _]. apply Hno. rewrite <- E. apply list_elem_of_fmap. eauto. }
  assert (leads_to now c converged) as (xs & Hxs & Hs & Hg & Hconv).
  { eapply leads_trans.
    { apply (greet_all now founder.1 (started now founder) ids c Hc); [apply Hl; left|].
      by apply Forall_forall. }
    intros c1 H1 G1 K1. eapply leads_weaken.
    { apply (learn_all now founder.1 ids c1 H1). apply Forall_forall. intros k Hk.
      rewrite Forall_forall in K1. split; [by apply Hids|by apply K1]. }
    intros c2 H2 G2 K2. rewrite Forall_forall in K1, K2.
    assert (grown c c2) as G by (by etrans).
    assert (forall k, is_Some (services c2 !! k) -> k = founder.1 \/ k ∈ ids) as Hup.
    { intros k [s Hs]. pose proof (gr_local _ _ G k) as E. unfold local_of at 1 in E.
      rewrite Hs in E. symmetry in E. destruct (Hin k _ E) as [a [<-|Ha]%elem_of_cons]; [by left|].
      right. apply list_elem_of_fmap. by exists (k, a). }
    assert (forall k, k = founder.1 \/ k ∈ ids -> acquainted c1 founder.1 k) as Hknown.
    { intros k [->|Hk]; [|by apply K1]. apply (gr_known _ _ G1). apply (Hl founder). left. }
    apply (sound_converged c2 H2). intros i j Hi Hj.
    destruct (Hup i Hi) as [->|Hk]; [apply (gr_known _ _ G2)|apply (K2 i Hk)]; auto. }
  exists xs. split; [done|]. rewrite execute_app. cbv zeta. fold c.
  split_and!; [done|intros i l; rewrite (gr_local _ _ Hg); apply Hin|].
  intros x Hx. rewrite (gr_local _ _ Hg). by apply Hl.
Qed.

(** C9: the documented start converges.  Whatever the nodes and their addresses, as long as they are
    concrete, if one starts alone and the others with its address as their only seed, then deliveries
    of the datagrams sent and gossip ticks, all within the instant of the start, can bring the cluster
    to a state in which exactly the started nodes run, each at its address, and every one of them
    takes exactly them for alive. *)
Theorem bootstrap_converges founder others now :
  NoDup (founder :: others).*1 -> concretely (founder :: others) ->
  exists xs, Forall (prompt now) xs /\
    let c := execute (starts founder others now ++ xs) empty_cluster in
    (forall i, is_Some (services c !! i) <-> i ∈ (founder :: others).*1) /\
    forall i s, services c !! i = Some s ->
      (forall j, alive s j <-> j ∈ (founder :: others).*1) /\
      exists a, (i, a) ∈ founder :: others /\ local_node s = started now (i, a).
Proof.
  intros Hnd Hcon. destruct (bootstrap founder others now Hnd Hcon) as (xs & Hxs & Hconv & Hin & Hl).
  exists xs. split; [done|]. intros c. fold c in Hconv, Hin, Hl.
  assert (forall i, is_Some (services c !! i) <-> i ∈ (founder :: others).*1) as Hup.
  { intros i. split.
    - intros [t Ht]. destruct (Hin i (local_node t)) as [a Ha]; [unfold local_of; by rewrite Ht|].
      apply list_elem_of_fmap. by exists (i, a).
    - intros (x & -> & Hx)%list_elem_of_fmap. apply Hl in Hx. unfold local_of in Hx.
      destruct (services c !! x.1); [by eexists|done]. }
  split; [exact Hup|]. intros i s Hs. split.
  - intros j. by rewrite (Hconv i s j Hs).
  - destruct (Hin i (local_node s)) as [a Ha]; [unfold local_of; by rewrite Hs|].
    exists a. split; [done|]. apply Hl in Ha. unfold local_of in Ha. simpl in Ha.
    rewrite Hs in Ha. by injection Ha.
Qed.

(** C19: records lead where they say.  In every execution in which the nodes are bound to concrete
    addresses, each record that a node holds of a member carries the gossip and the HTTP address of
    this member, the first being that of its socket, however the member was discovered: by its
    announcement, by a ping whose sender had to be guessed from the datagram, or from the view of a
    third node. *)
Theorem records_are_right xs a s i n :
  let c := execute xs empty_cluster in
  Forall bound_concretely xs -> services c !! a = Some s -> members s !! i = Some n ->
  exists l, local_of c i = Some l /\ id n = i /\ gossip_addr n = gossip_addr l /\
            http_addr n = http_addr l /\ sockets c !! i = Some (gossip_addr l) /\
            http_addr l = http_of (gossip_addr l).
Proof.
  intros c Hxs Ha Hn. pose proof (reachable_located xs Hxs) as Hloc. fold c in Hloc.
  assert (id n = i) as Hi
    by apply (wf_key s (ok_wf s (proj1 (ok_services c (reachable_ok xs) a s Ha))) _ _ Hn).
  destruct (loc_services c a s Hloc Ha i n Hn) as (l & Hl & Haddr & Hhttp). rewrite Hi in Hl.
  exists l. split_and!; [done..| |by apply (loc_derived c Hloc i)].
  unfold local_of in Hl. apply fmap_Some in Hl as (t & Ht & ->). by apply (loc_sockets c Hloc).
Qed.

(** ** Machine types *)

Definition addr_typed (a : SocketAddr) : Prop := in_range 16 (port a).
Definition node_typed (n : Node) : Prop :=
  addr_typed (gossip_addr n) /\ addr_typed (http_addr n) /\ in_range 64 (incarnation n).

(** Nodes are started on addresses with a port. *)
Definition action_typed (x : action) : Prop :=
  match x with Start bind _ _ _ _ => addr_typed bind | _ => True end.

Definition locals_typed (c : Cluster) : Prop :=
  forall i l, local_of c i = Some l -> addr_typed (gossip_addr l).

Lemma binds_typed bind real : binds bind real = true -> addr_typed real.
Proof.
  unfold binds, concrete. intros [[[[_ H1]%andb_true_iff H2]%andb_true_iff _]%andb_true_iff _]%andb_true_iff.
  apply Z.ltb_lt in H1, H2. unfold addr_typed, in_range. lia.
Qed.

Definition typed_at (_ : Cluster) (_ : NodeId) (g h : SocketAddr) : Prop := addr_typed g /\ addr_typed h.

Lemma http_typed a : addr_typed (http_of a).
Proof. by apply wrap_in_range. Qed.

Lemma reachable_typed xs : Forall action_typed xs -> fitting typed_at (execute xs empty_cluster).
Proof.
  intros Hxs. apply (execute_fitting typed_at action_typed);
    [done| |done|apply empty_fitting|apply empty_ok].
  intros bind real seeds fresh now c Hb _ Hr. split; (split; [|apply http_typed]); [|exact Hb].
  by apply (binds_typed bind).
Qed.

Lemma reachable_locals_typed xs : Forall action_typed xs -> locals_typed (execute xs empty_cluster).
Proof.
  intros Hxs. assert (locals_typed empty_cluster) as H0
    by (intros i l; unfold local_of; simpl; by rewrite lookup_empty).
  revert H0. generalize empty_cluster as c. induction Hxs as [|x xs Hx _ IH]; intros c Hc; [done|].
  apply IH. intros i l. unfold local_of. intros (s' & Hs' & ->)%fmap_Some.
  destruct (act_services x c i s' Hs') as [(s & Hs & -> & _)|(b & r & sd & nw & -> & _ & _ & -> & _)];
    [|exact Hx]. apply (Hc i). unfold local_of. by rewrite Hs.
Qed.


(** ** Witnesses *)

Module Example.
Definition addr (p : Z) : SocketAddr := mkAddr "10.0.0.1" p.
Definition founder : NodeId * SocketAddr := (mkId "a", addr 5000).
Definition others : list (NodeId * SocketAddr) := [(mkId "b", addr 5001); (mkId "c", addr 5002)].

Lemma all_concrete : concretely (founder :: others).
Proof. repeat constructor. Qed.

Lemma bootstrap_converges_witness :
  exists xs, Forall (prompt 7) xs /\
    let c := execute (starts founder others 7 ++ xs) empty_cluster in
    (forall i, is_Some (services c !! i) <-> i ∈ [mkId "a"; mkId "b"; mkId "c"]) /\
    forall i s, services c !! i = Some s ->
      (forall j, alive s j <-> j ∈ [mkId "a"; mkId "b"; mkId "c"]) /\
      exists a, (i, a) ∈ founder :: others /\ local_node s = started 7 (i, a).
Proof.
  apply (bootstrap_converges founder others 7); [|exact all_concrete].
  apply (bool_decide_unpack _). vm_compute. exact I.
Defined.

(** [b] joins; [a] pings it, and [b] guesses from the datagram where [a] serves HTTP. *)
Definition meeting : list action :=
  [Start (addr 5000) (addr 5000) [] (mkId "a") 0; Start (addr 5001) (addr 5001) [addr 5000] (mkId "b") 0;
   Deliver 0 (mkId "a") 1; GossipAt (mkId "a") 0; Deliver 1 (mkId "b") 2; GossipAt (mkId "b") 0;
   Deliver 2 (mkId "a") 3; Deliver 3 (mkId "a") 3].

Lemma meeting_concrete : Forall bound_concretely meeting.
Proof. repeat constructor. Qed.


Lemma records_are_right_witness :
  exists s n l, services (execute meeting empty_cluster) !! mkId "b" = Some s /\
    members s !! mkId "a" = Some n /\ local_of (execute meeting empty_cluster) (mkId "a") = Some l /\
    http_addr n = http_addr l.
Proof.
  destruct (services (execute meeting empty_cluster) !! mkId "b") as [s|] eqn:Hs; [|discriminate Hs].
  destruct (members s !! mkId "a") as [n|] eqn:Hn.
  - destruct (records_are_right meeting (mkId "b") s (mkId "a") n meeting_concrete Hs Hn) as (l & Hl & _ & _ & Hh & _).
    eauto 10.
  - exfalso. vm_compute in Hs. injection Hs as <-. discriminate Hn.
Defined.
End Example.
