(* ===== verification/Wildcard.v ===== *)
(** * Wildcard: nodes bound to 0.0.0.0

    README.md starts every machine with [--bind 0.0.0.0:5000].  [MembershipService::new] advertises
    the address it was told to bind, so that all nodes announce themselves under the same unspecified
    address; who pings such a member pings its own machine.  Machines that nobody uses as a seed
    never hear of anybody ([wildcard_starts_stay_alone]). *)

From S2P Require Import Prelude Membership Cluster Bootstrap.

#[local] Open Scope Z_scope.

(** The start of the README: a founder without seeds, whose socket is at [seed], and other machines
    with that seed, all told to bind an unspecified host. *)
Definition wildcard_start (founder : NodeId) (seed : SocketAddr) (x : action) : Prop :=
  match x with
  | Start bind real seeds fresh _ =>
      unspecified (ip bind) = true /\
      (fresh = founder /\ real = seed /\ seeds = [] \/
       fresh <> founder /\ ip real <> ip seed /\ seeds = [seed])
  | _ => True
  end.

Section wildcard.
Context (founder : NodeId) (seed : SocketAddr).
Hypothesis Hseed : concrete seed = true.

(** A datagram that the founder sends to [g] stays on its machine. *)
Definition reaches (g : SocketAddr) : Prop := unspecified (ip g) = true \/ ip g = ip seed.

Definition near (_ : NodeId) (g _ : SocketAddr) : Prop := reaches g.

(** A node that has only itself among its members. *)
Definition alone (s : MembershipService) : Prop :=
  forall j n, members s !! j = Some n -> j = id (local_node s).

Record apart_from_seed (c : Cluster) : Prop := {
  af_founder s : services c !! founder = Some s -> knows near seed s /\ sockets c !! founder = Some seed;
  af_others i s : services c !! i = Some s -> i <> founder ->
    alone s /\ exists a, sockets c !! i = Some a /\ ip a <> ip seed;
  af_soup p : p ∈ soup c -> message_fits near (src p) (payload p) /\ ip (destination p) = ip seed;
}.

(** Nobody to talk to. *)
Lemma alone_nobody s : wf s -> alone s ->
  filter (fun n => id n <> id (local_node s) /\ state n = Alive) (all_members s) = [].
Proof.
  intros Hwf Ha. destruct (filter _ (all_members s)) as [|n l] eqn:E; [done|].
  assert (n ∈ filter (fun n => id n <> id (local_node s) /\ state n = Alive) (all_members s)) as Hn
    by (rewrite E; left).
  apply list_elem_of_filter in Hn as [[Hid _] Hn].
  unfold all_members in Hn. apply list_elem_of_fmap in Hn as ([j m] & -> & Hm%elem_of_map_to_list).
  destruct Hid. simpl in *. rewrite (wf_key s Hwf _ _ Hm). by apply (Ha j m).
Qed.

Lemma alone_tick now s : wf s -> alone s ->
  alone (failure_detection_tick now s).1 /\ (failure_detection_tick now s).2 = [].
Proof.
  intros Hwf Ha. assert (alone (failure_detection_tick now s).1) as Ha'.
  { intros j n. rewrite tick_lookup. intros (m & Hm & _)%fmap_Some. by apply (Ha j m). }
  split; [exact Ha'|].
  assert (forall msg, broadcast_message msg (failure_detection_tick now s).1 = []) as Hb
    by (intros msg; unfold broadcast_message; by rewrite alone_nobody by (done || by apply tick_wf)).
  simpl in Hb |- *. set (out := omap _ (all_members s)). clearbody out.
  induction out as [|m l IH]; [done|]. cbn. by rewrite Hb.
Qed.

(** The founder's machine is where the founder's datagrams go. *)
Lemma sent_near s d :
  knows near seed s -> reaches d.1 -> message_fits near seed d.2 ->
  let p := mkPacket seed d.1 (wire d.2) in
  message_fits near (src p) (payload p) /\ ip (destination p) = ip seed.
Proof.
  intros _ Hd Hm. split; [by apply wire_fits|]. unfold destination. simpl.
  destruct (unspecified (ip d.1)) eqn:E; [done|]. destruct Hd as [Hd|Hd]; [congruence|done].
Qed.

Lemma broadcast_near msg s d :
  (forall j n, members s !! j = Some n -> fits near n) -> d ∈ broadcast_message msg s -> reaches d.1.
Proof.
  intros Hs (n & -> & [_ Hn]%list_elem_of_filter)%list_elem_of_fmap. unfold all_members in Hn.
  apply list_elem_of_fmap in Hn as ([j m] & -> & Hm%elem_of_map_to_list). by apply (Hs j m).
Qed.

Lemma message_near m b now s d :
  knows near seed s -> message_fits near b m -> d ∈ (handle_message m b now s).2 ->
  reaches d.1.
Proof.
  intros Hs Hm Hd. destruct m as [from inc|from inc ms|node|i inc|i inc]; simpl in *;
    try by apply elem_of_nil in Hd.
  - by apply list_elem_of_singleton in Hd as ->.
  - pose proof (handle_message_knows near (MSuspect i inc) seed b now s Hs I) as [[_ Hk] _].
    simpl in Hk. unfold handle_suspect in *. repeat case_match; try by apply elem_of_nil in Hd.
    by eapply broadcast_near.
Qed.

Lemma tick_near now s d :
  knows near seed s -> d ∈ (failure_detection_tick now s).2 -> reaches d.1.
Proof.
  intros Hs Hd. destruct (tick_knows near seed now s Hs) as [[_ Hk] _].
  simpl in Hd. apply list_elem_of_bind in Hd as (m & Hd & _). by eapply broadcast_near.
Qed.

Lemma gossip_near idx s d : knows near seed s -> d ∈ gossip_tick idx s -> reaches d.1.
Proof.
  intros [_ Hs] Hd. unfold gossip_tick in Hd. destruct (gossip_targets s !! idx) as [n|] eqn:E.
  2: { by apply elem_of_nil in Hd. }
  apply list_elem_of_singleton in Hd as ->. simpl.
  apply list_elem_of_lookup_2, list_elem_of_filter in E as [_ Hn]. unfold all_members in Hn.
  apply list_elem_of_fmap in Hn as ([j m] & -> & Hm%elem_of_map_to_list). by apply (Hs j m).
Qed.

(** A step of the founder. *)
Lemma founder_step c s r :
  apart_from_seed c -> services c !! founder = Some s ->
  knows near seed r.1 /\ Forall (fun d => message_fits near seed d.2) r.2 ->
  (forall d, d ∈ r.2 -> reaches d.1) -> apart_from_seed (update c founder r).
Proof.
  intros [Hf Ho Hp] Hs [Hk Hout] Hnear. destruct (Hf s Hs) as [_ Hsock]. split; simpl.
  - intros s'. rewrite lookup_insert_eq. by intros [= <-].
  - intros i s' Hi Hne. rewrite lookup_insert_ne in Hi by done. by apply Ho.
  - intros p [Hin|Hin]%elem_of_app; [by apply Hp|].
    apply list_elem_of_fmap in Hin as (d & -> & Hin). unfold address. rewrite Hsock. simpl.
    rewrite Forall_forall in Hout. apply (sent_near r.1); auto.
Qed.

(** A silent step of another node. *)
Lemma other_step c i s s' :
  apart_from_seed c -> services c !! i = Some s -> i <> founder -> alone s' ->
  apart_from_seed (update c i (s', [])).
Proof.
  intros [Hf Ho Hp] Hs Hne Ha. split; simpl.
  - intros t Ht. rewrite lookup_insert_ne in Ht by done. by apply Hf.
  - intros j t [[<- <-]|[_ Hj]]%lookup_insert_Some Hj'; [|by apply Ho]. split; [done|]. by eapply Ho.
  - intros p. rewrite app_nil_r. apply Hp.
Qed.

Lemma act_apart x c :
  wildcard_start founder seed x -> cluster_ok c -> apart_from_seed c -> apart_from_seed (act x c).
Proof.
  intros Hx Hok Hc. pose proof Hc as [Hf Ho Hp].
  destruct x as [bind real seeds fresh now|k i now|i now|i idx]; simpl in *.
  - destruct (services c !! fresh) as [s|] eqn:Hfr; [done|]. destruct (binds bind real); [|done].
    destruct Hx as [Hb Hx].
    assert (near fresh bind (http_of bind)) as Hnear by by left.
    split; simpl.
    + intros s [[-> <-]|[Hne Hs]]%lookup_insert_Some.
      * destruct Hx as [(_ & -> & ->)|[? _]]; [|done]. rewrite lookup_insert_eq.
        split; [|done]. split; [by right|]. intros j n. simpl. rewrite lookup_singleton_Some.
        by intros [_ <-].
      * rewrite lookup_insert_ne by done. by apply Hf.
    + intros i s [[<- <-]|[Hne Hs]]%lookup_insert_Some Hi.
      * destruct Hx as [[? _]|(_ & Hr & _)]; [done|]. split.
        -- intros j n. simpl. rewrite lookup_singleton_Some. by intros [<- _].
        -- exists real. by rewrite lookup_insert_eq.
      * rewrite lookup_insert_ne by done. by apply Ho.
    + intros p [Hin|Hin]%elem_of_app; [by apply Hp|].
      apply list_elem_of_fmap in Hin as (d & -> & Hin). apply list_elem_of_fmap in Hin as (a & -> & Ha).
      destruct Hx as [(_ & _ & ->)|(_ & _ & ->)]; [by apply elem_of_nil in Ha|].
      apply list_elem_of_singleton in Ha as ->. simpl. split; [exact Hnear|].
      by rewrite destination_concrete.
  - destruct (soup c !! k) as [p|] eqn:Hk; [|done].
    destruct (services c !! i) as [s|] eqn:Hi; [|done]. case_decide as Hd; [|done].
    apply list_elem_of_lookup_2 in Hk. destruct (Hp p Hk) as [Hm Hdst].
    assert (i = founder) as ->.
    { destruct (decide (i = founder)) as [|Hne]; [done|]. destruct (Ho i s Hi Hne) as (_ & a & Ha & Hip).
      rewrite Hd in Ha. injection Ha as <-. done. }
    destruct (Hf s Hi) as [Hs _]. apply (founder_step c s); [done..|by apply handle_message_knows|].
    intros d. by apply message_near.
  - destruct (services c !! i) as [s|] eqn:Hi; [|done]. destruct (ok_services c Hok i s Hi) as [Hs _].
    destruct (decide (i = founder)) as [->|Hne].
    + destruct (Hf s Hi) as [Hks _]. apply (founder_step c s); [done..|by apply tick_knows|].
      intros d. by apply tick_near.
    + destruct (Ho i s Hi Hne) as [Ha _]. destruct (alone_tick now s (ok_wf _ Hs) Ha) as [Ha' Hn].
      destruct (failure_detection_tick now s) as [s' out] eqn:E. simpl in Hn. subst out.
      by apply (other_step c i s s').
  - destruct (services c !! i) as [s|] eqn:Hi; [|done]. destruct (ok_services c Hok i s Hi) as [Hs _].
    destruct (decide (i = founder)) as [->|Hne].
    + destruct (Hf s Hi) as [Hks _]. apply (founder_step c s); [done..|split; [done|by apply gossip_knows]|].
      intros d. by apply gossip_near.
    + destruct (Ho i s Hi Hne) as [Ha _].
      assert (gossip_tick idx s = []) as -> by (unfold gossip_tick, gossip_targets; by rewrite alone_nobody by (done || by apply ok_wf)).
      by apply (other_step c i s s).
Qed.

Lemma execute_apart xs c :
  Forall (wildcard_start founder seed) xs -> cluster_ok c -> apart_from_seed c ->
  apart_from_seed (execute xs c).
Proof.
  intros Hxs. revert c. induction Hxs as [|x xs Hx _ IH]; intros c Hok Hc; [done|].
  apply IH; [by apply act_ok|by apply act_apart].
Qed.

Lemma empty_apart : apart_from_seed empty_cluster.
Proof.
  split; simpl; [intros s; by rewrite lookup_empty|intros i s; by rewrite lookup_empty|].
  by intros p ?%elem_of_nil.
Qed.
End wildcard.

(** C38: the start of the README does not make a cluster.  Machines with addresses of their own are
    started with [--bind 0.0.0.0:port], one without seeds and the others with its address as the
    seed, in any number and at any time.  Whatever is then delivered and however often the timers
    fire, none of the others ever has any member but itself: what it advertised leads back to the
    machine that uses it, so that nobody ever answers its announcement. *)
Theorem wildcard_starts_stay_alone founder seed xs i s :
  concrete seed = true -> Forall (wildcard_start founder seed) xs ->
  services (execute xs empty_cluster) !! i = Some s -> i <> founder ->
  forall j, is_Some (members s !! j) <-> j = i.
Proof.
  intros Hseed Hxs Hi Hne.
  assert (apart_from_seed founder seed (execute xs empty_cluster)) as Hap
    by (apply execute_apart; [done..|apply empty_ok|apply empty_apart]).
  destruct (ok_services _ (reachable_ok xs) i s Hi) as [Hok Hid].
  destruct (af_others _ _ _ Hap i s Hi Hne) as [Ha _]. intros j. split.
  - intros [n Hn]. rewrite <- Hid. by apply (Ha j n).
  - intros ->. destruct (ok_self s Hok) as (n & Hn & _). rewrite Hid in Hn. by exists n.
Qed.

(** ** A schedule

    Two machines; the announcement of [b] arrives, [a] takes it for a member and pings it. *)
Module Example.
Definition machine (k : Z) : SocketAddr := mkAddr (String.append "10.0.0." (if k =? 1 then "1" else "2")) 5000.
Definition any : SocketAddr := mkAddr "0.0.0.0" 5000.

Definition readme : list action :=
  [Start any (machine 1) [] (mkId "a") 0; Start any (machine 2) [machine 1] (mkId "b") 0;
   Deliver 0 (mkId "a") 1; GossipAt (mkId "a") 0; Deliver 1 (mkId "b") 2; Deliver 1 (mkId "a") 2;
   GossipAt (mkId "b") 0; Deliver 2 (mkId "a") 3].

Lemma readme_starts : Forall (wildcard_start (mkId "a") (machine 1)) readme.
Proof.
  repeat apply Forall_cons_2; try exact I; [..|apply Forall_nil_2]; (split; [reflexivity|]).
  - left. by split_and!.
  - right. by split_and!.
Qed.

(** [a] has heard of [b], and [b] of nobody. *)
Lemma wildcard_starts_stay_alone_witness :
  exists s t, services (execute readme empty_cluster) !! mkId "a" = Some s /\
    services (execute readme empty_cluster) !! mkId "b" = Some t /\
    is_Some (members s !! mkId "b") /\ forall j, is_Some (members t !! j) <-> j = mkId "b".
Proof.
  destruct (services (execute readme empty_cluster) !! mkId "a") as [s|] eqn:Ea; [|discriminate Ea].
  destruct (services (execute readme empty_cluster) !! mkId "b") as [t|] eqn:Eb; [|discriminate Eb].
  exists s, t. split; [reflexivity|]. split; [reflexivity|]. split.
  - vm_compute in Ea. injection Ea as <-. eexists. vm_compute. reflexivity.
  - exact (wildcard_starts_stay_alone (mkId "a") (machine 1) readme (mkId "b") t eq_refl readme_starts Eb
      ltac:(discriminate)).
Defined.
End Example.
