(* ===== verification/Deploy.v ===== *)
(** * Deploy: what [main] builds on a membership service, and the parts put together

    [main] (main.rs) puts a partitioner on the membership service of its node, three maps and the
    task queue on the partitioner, and serves them at the HTTP address derived from the address it
    gossips from.  [deploy] does this for every node of a cluster of gossiping services.  If their
    views have converged, the result meets the assumptions under which the components were
    verified, so that the whole way of a book can be followed: ingestion, indexing, search. *)

From S2P Require Import Prelude Membership Cluster Bootstrap Partitioner Net Topology.
From S2P Require Import Storage StorageNet StorageSpec Text Documents Search Indexing Ingestion.
From S2P Require Queue QueueNet.

#[local] Open Scope Z_scope.
#[local] Strategy 1000 [get_partition get_owners].
#[local] Existing Instance Queue.DistributedQueue_hosted.

(** ** One component on every node *)

(** The address the HTTP server listens on. *)
Definition listen_addr (bind_addr : SocketAddr) : SocketAddr :=
  mkAddr (ip bind_addr) (wrap 16 (port bind_addr + 1000)).

Section deploy.
Context {S : Type} `{Hosted S} (mk : PartitionManager -> S) (rf : nat).

Definition node_of (s : MembershipService) : SocketAddr * S :=
  (listen_addr (gossip_addr (local_node s)), mk (new_with_replication s rf)).

Definition deploy (c : Cluster) (e : Env) : World S :=
  mkWorld (list_to_map (node_of <$> (map_to_list (services c)).*2)) e.
End deploy.

(** The node at an address has the partitioner [pm]. *)
Definition at_host {S : Type} `{Hosted S} (a : SocketAddr) (pm : PartitionManager) (w : World S) : Prop :=
  exists s, nodes w !! a = Some s /\ host s = pm.

(** Where the node with an id serves. *)
Definition addr_of (c : Cluster) (i : NodeId) : SocketAddr :=
  match services c !! i with
  | Some s => listen_addr (gossip_addr (local_node s))
  | None => mkAddr "" 0
  end.

(** No two nodes listen on the same address: the second one could not bind it. *)
Definition apart (c : Cluster) : Prop :=
  forall i j s t, services c !! i = Some s -> services c !! j = Some t ->
    listen_addr (gossip_addr (local_node s)) = listen_addr (gossip_addr (local_node t)) -> i = j.

Section deployed.
Context {S : Type} `{Hosted S} (mk : PartitionManager -> S) (rf : nat).
Hypothesis Hmk : forall pm, host (mk pm) = pm.
Context (xs : list action) (e : Env).
Hypothesis Hbound : Forall bound_concretely xs.
Let c := execute xs empty_cluster.
Let w := deploy mk rf c e.

Lemma deploy_inv a x :
  nodes w !! a = Some x ->
  exists i s, services c !! i = Some s /\ a = addr_of c i /\ x = mk (new_with_replication s rf) /\
              id (local_node s) = i.
Proof.
  intros Hx%elem_of_list_to_map_2. apply list_elem_of_fmap in Hx as (s & [= -> ->] & Hs).
  apply list_elem_of_fmap in Hs as ([i s'] & -> & Hi%elem_of_map_to_list). simpl.
  exists i, s'. split_and!; [done| |done|].
  - unfold addr_of. by rewrite Hi.
  - by apply (ok_services c (reachable_ok xs)).
Qed.

Lemma deploy_at i s :
  apart c -> services c !! i = Some s ->
  nodes w !! addr_of c i = Some (mk (new_with_replication s rf)).
Proof.
  intros Hap Hs. apply elem_of_list_to_map_1'.
  - intros x Hx. apply list_elem_of_fmap in Hx as (t & [= Ha ->] & Ht).
    apply list_elem_of_fmap in Ht as ([j t'] & -> & Hj%elem_of_map_to_list). simpl in *.
    unfold addr_of in Ha. rewrite Hs in Ha. rewrite (Hap i j s t' Hs Hj Ha) in Hs. congruence.
  - apply list_elem_of_fmap. exists s. split; [by unfold node_of, addr_of; rewrite Hs|].
    apply list_elem_of_fmap. exists (i, s). by rewrite elem_of_map_to_list.
Qed.

(** See [deployed_cluster]. *)
Lemma deploy_cluster : converged c -> apart c -> cluster (addr_of c) w.
Proof.
  intros Hconv Hap. pose proof (reachable_ok xs) as Hok. fold c in Hok.
  assert (forall i s, services c !! i = Some s -> wf s) as Hwf.
  { intros i s Hs. apply ok_wf. by eapply ok_services. }
  split; unfold view, my_id.
  - intros a x (i & s & Hs & _ & -> & _)%deploy_inv. rewrite Hmk. by eapply Hwf.
  - intros a x a' x' (i & s & Hs & _ & -> & _)%deploy_inv (j & t & Ht & _ & -> & _)%deploy_inv.
    rewrite !Hmk. split_and!; [done|done|]. intros k. simpl.
    by rewrite (Hconv i s k Hs), (Hconv j t k Ht).
  - intros a x (i & s & Hs & -> & -> & Hi)%deploy_inv. rewrite Hmk. simpl. by rewrite Hi.
  - intros a x (i & s & Hs & _ & -> & _)%deploy_inv. rewrite Hmk. simpl. lia.
  - intros a x k n (i & s & Hs & _ & -> & _)%deploy_inv. rewrite Hmk. simpl. intros Hn Hal.
    assert (is_Some (services c !! k)) as [t Ht].
    { apply (Hconv i s k Hs). by exists n. }
    destruct (loc_services c i s (reachable_located xs Hbound) Hs k n Hn) as (l & Hl & _ & Hh). rewrite (wf_key s (Hwf i s Hs) _ _ Hn) in Hl.
    destruct (loc_derived c (reachable_located xs Hbound) k l Hl) as [Hid Hder].
    unfold local_of in Hl. rewrite Ht in Hl. injection Hl as <-. split.
    + rewrite Hh, Hder. unfold addr_of. by rewrite Ht.
    + exists (mk (new_with_replication t rf)). rewrite Hmk. by split; [apply deploy_at|].
Qed.

(** Every node finds an owner for every partition. *)
Lemma deploy_owned a x p : nodes w !! a = Some x -> get_owners (host x) p <> [].
Proof.
  intros (i & s & Hs & _ & -> & _)%deploy_inv Hnil. rewrite Hmk in Hnil.
  unfold get_owners in Hnil. apply owners_of_nil in Hnil; [|simpl; lia].
  destruct (ok_services c (reachable_ok xs) i s Hs) as [Hsok _].
  destruct (ok_self s Hsok) as (n & Hn & Hal).
  assert (id (local_node s) ∈ id <$> get_alive_members s) as Hin.
  { apply elem_of_alive_ids; [by apply ok_wf|]. by exists n. }
  simpl in Hnil. rewrite Hnil in Hin. by apply elem_of_nil in Hin.
Qed.
End deployed.

(** ** The components of [main] *)

Definition main_books (pm : PartitionManager) : DistributedMap string BookMetadata :=
  new_with_base pm "/books".
Definition main_datalake (pm : PartitionManager) : DistributedMap string RawDocument :=
  new_with_base pm "/datalake".
Definition main_index (pm : PartitionManager) : DistributedMap string (list text) :=
  new_with_base pm "/index".
Definition main_queue (pm : PartitionManager) : Queue.DistributedQueue Value :=
  Queue.queue_new pm.

Definition deploy_site (rf : nat) (c : Cluster) (e_datalake e_books e_index e_tasks : Env) : Site :=
  mkSite (deploy main_datalake rf c e_datalake) (deploy main_books rf c e_books)
         (deploy main_index rf c e_index) (deploy main_queue rf c e_tasks).

(** ** Maps on a converged cluster *)

Section maps.
Context {K V : Type} `{Countable K, !RustKey K, !RustKeyLaws K, !Serde V, !SerdeLaws V}.
Context (xs : list action) (rf : nat) (base : string) (e : Env).
Hypothesis Hbound : Forall bound_concretely xs.
Let c := execute xs empty_cluster.
Let mk (pm : PartitionManager) : DistributedMap K V := new_with_base pm base.
Let w := deploy mk rf c e.

Lemma mk_host pm : host (mk pm) = pm.
Proof. done. Qed.

Lemma deploy_fresh op : fresh_op op w.
Proof. by intros a m (i & s & _ & _ & -> & _)%(deploy_inv mk rf xs e). Qed.

Lemma deploy_local a m k : nodes w !! a = Some m -> get_local k m = None.
Proof.
  intros (i & s & _ & _ & -> & _)%(deploy_inv mk rf xs e). unfold get_local.
  by generalize (get_partition (partitioner (mk (new_with_replication s rf))) (key_to_string k)).
Qed.

Lemma deploy_represents :
  converged c -> apart c -> fates e = [] -> represents (addr_of c) (∅ : gmap K V) w.
Proof.
  intros Hconv Hap He. split.
  - by apply (deploy_cluster mk rf mk_host).
  - exact He.
  - intros a m k Hm. by apply (deploy_owned mk rf mk_host xs e a).
  - intros a m k v Hm Hv. by rewrite (deploy_local a m k Hm) in Hv.
  - intros a m k v i _. by rewrite lookup_empty.
Qed.

(** C8: a converged cluster is a map.  In whatever way nodes bound to concrete addresses got to know
    each other: once their views agree, and if no two of them claim the same HTTP address, the maps
    that [main] has put on them represent, as long as there are no faults, the empty map (so that all
    theorems about maps apply); and what any node puts under a key that survives the URL, every node
    reads. *)
Theorem deployed_map path_segment i s (k : K) (v : V) op :
  converged c -> apart c -> fates e = [] ->
  services c !! i = Some s -> path_segment (key_to_string k) = Some (key_to_string k) ->
  represents (addr_of c) ∅ w /\
  exists w', put_with_op (addr_of c i) k v op w = (Ok tt, w') /\
    forall j t, services c !! j = Some t -> get path_segment (addr_of c j) k w' = (Some v, w').
Proof.
  intros Hconv Hap He Hs Hseg. pose proof (deploy_represents Hconv Hap He) as Hrep.
  split; [exact Hrep|].
  pose proof (deploy_at mk rf xs e i s Hap Hs) as Hm. fold c w in Hm.
  destruct (put_represents (addr_of c) ∅ w (addr_of c i) _ k v op Hrep (deploy_fresh op) Hm)
    as (w' & Hrun & _ & Hrep'); [right; by eapply deploy_local|].
  exists w'. split; [exact Hrun|]. intros j t Ht.
  pose proof (put_with_op_framed (addr_of c i) k v op w _ _ Hm eq_refl) as Hfr. rewrite Hrun in Hfr.
  pose proof (deploy_at mk rf xs e j t Hap Ht) as Hj. fold c w in Hj.
  destruct (pointwise_lookup _ _ _ _ _ Hfr Hj) as (m' & Hm' & _).
  rewrite (get_represents path_segment (addr_of c) _ w' (addr_of c j) m' k Hseg Hrep' Hm').
  by rewrite lookup_insert_eq.
Qed.
End maps.

(** ** The way of a book *)

Lemma permutation_one {A} (l : list A) x : l ≡ₚ [x] -> l = [x].
Proof. intros Hl. by apply Permutation_singleton_r in Hl. Qed.

Section book.
Context `{Unicode, !UnicodeLaws, Regexes, !RegexLaws}.
Context `{!Serde RawDocument, !SerdeLaws RawDocument, !Serde BookMetadata, !SerdeLaws BookMetadata,
          !Serde (list text), !SerdeLaws (list text)}.
Context (path_segment : string -> option string) (reqwest_get : text -> result (Z * result text)).
Context (set_order : gset text -> list text) (hash_order : gmap text nat -> list (text * nat)).
Hypothesis Hset : forall X, set_order X ≡ₚ elements X.
Hypothesis Hhash : forall m, hash_order m ≡ₚ map_to_list m.

(** A word that is in one posting list, which has one book. *)
Lemma search_only addr idx registry s self mi mb w book_id metadata :
  represents addr idx (index_map s) -> nodes (index_map s) !! self = Some mi ->
  represents addr registry (books s) -> nodes (books s) !! self = Some mb ->
  tokenize_query w = [w] -> idx !! utf8 w = Some [book_id] ->
  registry !! utf8 book_id = Some metadata ->
  path_segment (utf8 w) = Some (utf8 w) -> path_segment (utf8 book_id) = Some (utf8 book_id) ->
  search path_segment hash_order self w s = ([(metadata, 1%nat)], s).
Proof.
  intros Hi Hmi Hb Hmb Hq Hw Hbook Hsegw Hsegb.
  assert (forall b, score idx (tokenize_query w) b = if decide (b = book_id) then 1%nat else 0%nat) as Hsc.
  { intros b. rewrite Hq, score_singleton, Hw. unfold occurrences. simpl. rewrite filter_cons.
    destruct (decide (b = book_id)) as [->|Hne]; case_decide; simpl; congruence. }
  destruct (search_eq path_segment hash_order addr Hhash idx registry s self mi mb w Hi Hmi Hb Hmb)
    as (bs & Hs & ->).
  - rewrite Hq. by intros t ->%list_elem_of_singleton.
  - intros b. rewrite Hsc. case_decide; [by subst|lia].
  - f_equal. assert (bs = {[ book_id := 1%nat ]}) as ->.
    { apply map_eq. intros b. rewrite (Hs b), Hsc. case_decide as E; [subst|].
      - by rewrite lookup_singleton_eq.
      - by rewrite lookup_singleton_ne. }
    rewrite (permutation_one (hash_order {[book_id := 1%nat]}) (book_id, 1%nat));
      [|by rewrite Hhash, map_to_list_singleton].
    simpl. unfold hydrated. simpl. by rewrite Hbook.
Qed.

Context (xs : list action) (rf : nat).
Hypothesis Hbound : Forall bound_concretely xs.
Let c := execute xs empty_cluster.

(** On new nodes every worker can write every word. *)
Lemma worker_able i s (words : list text) e :
  apart c -> services c !! i = Some s -> NoDup (uuids e) ->
  able (addr_of c i) (utf8 <$> words) (uuids e) (deploy main_index rf c e).
Proof.
  intros Hap Hs Hnd. split; [|done| |done].
  - exists (main_index (new_with_replication s rf)).
    pose proof (deploy_at main_index rf xs e i s Hap Hs) as Hat. split; [exact Hat|].
    intros k _. right. exact (deploy_local xs rf "/index" e _ _ k Hat).
  - intros u _. apply (deploy_fresh xs rf "/index" e).
Qed.

Lemma queue_fresh t e : QueueNet.fresh_id t (deploy main_queue rf c e).
Proof.
  intros a q p (i & s & _ & _ & -> & _)%(deploy_inv main_queue rf xs e).
  unfold Queue.lookup_task. simpl. by rewrite lookup_empty.
Qed.

(** Ingestion on nodes that have just been deployed. *)
Lemma ingest_on_site i si book_id t header body e1 e2 e3 e4 ud uds ub ubs ut uts :
  converged c -> apart c -> services c !! i = Some si ->
  fetch_gutenberg_text reqwest_get (source_url book_id) = Ok t ->
  split_gutenberg_text t = Some (Some (header, body)) ->
  path_segment (utf8 book_id) = Some (utf8 book_id) ->
  Forall (fun e => fates e = []) [e1; e2; e4] ->
  uuids e1 = ud :: uds -> uuids e2 = ub :: ubs -> uuids e4 = ut :: uts ->
  let metadata := let '(n, u) := compute_counts body in parse_metadata header book_id n u in
  exists s1,
    handle_ingest_gutenberg path_segment reqwest_get (addr_of c i) book_id
        (deploy_site rf c e1 e2 e3 e4) =
      (Some (mkResponse ACCEPTED (mkIngest book_id "ingested"%string (source_url book_id))), s1) /\
    (let pm := new_with_replication si rf in
     forall o, o ∈ get_owners pm (get_partition pm ut) ->
       QueueNet.has_new (get_partition pm ut) (Queue.mkTaskId ut) (index_task book_id)
         (addr_of c o) (tasks s1)) /\
    represents (addr_of c) {[ utf8 book_id := mkRaw book_id header body (source_url book_id) ]}
      (datalake s1) /\
    represents (addr_of c) {[ utf8 book_id := metadata ]} (books s1) /\
    index_map s1 = deploy main_index rf c e3 /\
    (forall k sk, services c !! k = Some sk ->
      at_host (addr_of c k) (new_with_replication sk rf) (datalake s1) /\
      at_host (addr_of c k) (new_with_replication sk rf) (books s1)) /\
    cluster (addr_of c) (tasks s1) /\ quiet (tasks s1) /\
    pointwise (QueueNet.submitted (get_partition (new_with_replication si rf) ut) (Queue.mkTaskId ut)
      (index_task book_id)) (deploy main_queue rf c e4) (tasks s1).
Proof.
  intros Hconv Hap Hi Hfetch Hsplit Hseg Hq Hud Hub Hut metadata.
  apply Forall_cons in Hq as [Hq1 Hq]. apply Forall_cons in Hq as [Hq2 Hq]. apply Forall_cons in Hq as [Hq4 _].
  set (s := deploy_site rf c e1 e2 e3 e4).
  pose proof (deploy_represents xs rf "/datalake" e1 Hbound Hconv Hap Hq1 : represents (addr_of c) ∅ (datalake s)) as Hlake.
  pose proof (deploy_represents xs rf "/books" e2 Hbound Hconv Hap Hq2 : represents (addr_of c) ∅ (books s)) as Hbooks.
  assert (cluster (addr_of c) (tasks s)) as Htasks by (by apply (deploy_cluster main_queue rf)).
  assert (forall k sk, services c !! k = Some sk ->
    nodes (datalake s) !! addr_of c k = Some (main_datalake (new_with_replication sk rf)) /\
    nodes (books s) !! addr_of c k = Some (main_books (new_with_replication sk rf)) /\
    nodes (tasks s) !! addr_of c k = Some (main_queue (new_with_replication sk rf))) as Hat.
  { intros k sk Hk. split_and!; by apply deploy_at. }
  destruct (Hat i si Hi) as (Hmd & Hmb & Hmq).
  destruct (ingest_new path_segment reqwest_get (addr_of c) (addr_of c i) book_id s ∅ ∅
    (main_datalake (new_with_replication si rf)) (main_books (new_with_replication si rf))
    (main_queue (new_with_replication si rf)) ud uds ub ubs ut uts t header body Hseg Hlake Hmd Hud
    (deploy_fresh xs rf "/datalake" e1 ud) Hbooks Hmb Hub (deploy_fresh xs rf "/books" e2 ub))
    as (wd & wb & wt & Hing & Hdr & Hdh & Hbr & Hbh & Hown & Hqt & Hsub); try done.
  { right. by eapply (deploy_local xs rf "/books" e2). }
  { apply queue_fresh. }
  exists (mkSite wd wb (index_map s) wt).
  split_and!; [exact Hing|exact Hown|exact Hdr| |done| | |exact Hqt|exact Hsub].
  - unfold metadata. revert Hbr. by destruct (compute_counts body).
  - intros k sk Hk. destruct (Hat k sk Hk) as (Hkd & Hkb & _).
    destruct (pointwise_lookup _ _ _ _ _ Hdh Hkd) as (md' & Hmd' & Hpd).
    destruct (pointwise_lookup _ _ _ _ _ Hbh Hkb) as (mb' & Hmb' & Hpb).
    split; [by exists md'|by exists mb'].
  - apply (cluster_keeps (addr_of c) (tasks s)); [done|]. by eapply QueueNet.submitted_host.
Qed.

(** C7: the way of the first book.  On nodes that have just been deployed on a converged cluster, each
    at its address, with all maps and the queue empty, and without faults: a book that downloads and
    has both markers is ingested on any node with 202, every owner of the partition of its task has
    the task waiting, and once a worker on any node has run the task, a search on any node for any
    word of the book returns exactly its metadata, with score one. *)
Theorem way_of_a_book i si j sj book_id t header body e1 e2 e3 e4 ud uds ub ubs ut uts :
  converged c -> apart c ->
  services c !! i = Some si -> services c !! j = Some sj ->
  fetch_gutenberg_text reqwest_get (source_url book_id) = Ok t ->
  split_gutenberg_text t = Some (Some (header, body)) ->
  let words := elements (tokenize_text body) in
  NoDup (uuids e3) -> (length words <= length (uuids e3))%nat ->
  (forall x, x ∈ book_id :: words -> path_segment (utf8 x) = Some (utf8 x)) ->
  Forall (fun e => fates e = []) [e1; e2; e3; e4] ->
  uuids e1 = ud :: uds -> uuids e2 = ub :: ubs -> uuids e4 = ut :: uts ->
  let metadata := let '(n, u) := compute_counts body in parse_metadata header book_id n u in
  exists s1 s2,
    handle_ingest_gutenberg path_segment reqwest_get (addr_of c i) book_id
        (deploy_site rf c e1 e2 e3 e4) =
      (Some (mkResponse ACCEPTED (mkIngest book_id "ingested"%string (source_url book_id))), s1) /\
    (let pm := new_with_replication si rf in
     forall o, o ∈ get_owners pm (get_partition pm ut) ->
       QueueNet.has_new (get_partition pm ut) (Queue.mkTaskId ut) (index_task book_id)
         (addr_of c o) (tasks s1)) /\
    index_document path_segment set_order (addr_of c j) (mkIndexTask book_id) s1 = (Ok tt, s2) /\
    forall k sk w, services c !! k = Some sk -> w ∈ words ->
      search path_segment hash_order (addr_of c k) w s2 = ([(metadata, 1%nat)], s2).
Proof.
  intros Hconv Hap Hi Hj Hfetch Hsplit words Hnd Hlen Hseg Hq Hud Hub Hut metadata.
  apply Forall_cons in Hq as [Hq1 Hq]. apply Forall_cons in Hq as [Hq2 Hq].
  apply Forall_cons in Hq as [Hq3 Hq]. apply Forall_cons in Hq as [Hq4 _].
  destruct (ingest_on_site i si book_id t header body e1 e2 e3 e4 ud uds ub ubs ut uts Hconv Hap Hi
    Hfetch Hsplit (Hseg book_id ltac:(left))) as (s1 & Hing & Hown & Hlake & Hbooks & Hidx1 & Hup & _); try done.
  { by repeat apply Forall_cons_2. }
  pose proof (deploy_represents xs rf "/index" e3 Hbound Hconv Hap Hq3
    : represents (addr_of c) ∅ (deploy main_index rf c e3)) as Hindex.
  pose proof (worker_able j sj words e3 Hap Hj Hnd) as Hable. rewrite <- Hidx1 in Hindex, Hable.
  destruct (Hup j sj Hj) as [(md & Hmd & _) _].
  destruct (index_document_spec path_segment (addr_of c) set_order Hset _ ∅ s1 (addr_of c j) md book_id
    (mkRaw book_id header body (source_url book_id)) (uuids e3) Hlake Hmd)
    as (wi & idx' & Hrun & Hir & Hih & Hidx); try done.
  { apply Hseg. left. }
  { apply lookup_singleton_eq. }
  { intros x Hx. apply Hseg. by right. }
  exists s1, (set_index wi s1). split; [exact Hing|]. split; [exact Hown|]. split; [exact Hrun|].
  intros k sk w Hk Hw. destruct (Hup k sk Hk) as [_ (mb & Hmb & _)].
  assert (nodes (index_map s1) !! addr_of c k = Some (main_index (new_with_replication sk rf))) as Hki.
  { rewrite Hidx1. by apply deploy_at. }
  destruct (pointwise_lookup _ _ _ _ _ Hih Hki) as (mi & Hmi & _).
  apply (search_only (addr_of c) idx' {[ utf8 book_id := metadata ]} (set_index wi s1) _ mi mb w book_id);
    try done.
  - apply (query_of_word body). by apply elem_of_elements.
  - rewrite Hidx, decide_True; [|apply list_elem_of_fmap; by exists w]. done.
  - apply lookup_singleton_eq.
  - apply Hseg. by right.
  - apply Hseg. left.
Qed.
End book.

(** ** Witnesses *)

Lemma started_apart now (l : list (NodeId * SocketAddr)) c :
  (forall i n, local_of c i = Some n -> exists a, (i, a) ∈ l) ->
  (forall x, x ∈ l -> local_of c x.1 = Some (started now x)) ->
  NoDup ((fun x => listen_addr x.2) <$> l) -> apart c.
Proof.
  intros Hin Hl Hnd.
  assert (forall i s, services c !! i = Some s ->
    exists k, l !! k = Some (i, gossip_addr (local_node s))) as Hat.
  { intros i s Hs. assert (local_of c i = Some (local_node s)) as Hi by (unfold local_of; by rewrite Hs).
    destruct (Hin i _ Hi) as [a Ha]. pose proof (Hl _ Ha) as Hst. simpl in Hst. rewrite Hi in Hst.
    injection Hst as ->. by apply list_elem_of_lookup. }
  intros i j s t Hs Ht E. destruct (Hat i s Hs) as [k Hk]. destruct (Hat j t Ht) as [k' Hk'].
  assert (k = k') as <-; [|congruence].
  apply (proj1 (NoDup_alt _) Hnd k k' (listen_addr (gossip_addr (local_node s)))).
  - by rewrite list_lookup_fmap, Hk.
  - rewrite list_lookup_fmap, Hk'. simpl. by rewrite E.
Qed.

Module Example.
Import Bootstrap.Example Text.Ascii Ingestion.Example.
#[local] Existing Instances string_key string_key_laws countable_serde countable_serde_laws.

Lemma three_nodes :
  exists xs, Forall bound_concretely xs /\ let c := execute xs empty_cluster in
    converged c /\ apart c /\ forall x, x ∈ ["a"; "b"; "c"] -> is_Some (services c !! mkId x).
Proof.
  destruct (bootstrap founder others 0) as (xs & Hxs & Hconv & Hin & Hl).
  { apply (bool_decide_unpack _). vm_compute. exact I. }
  { exact all_concrete. }
  exists (starts founder others 0 ++ xs). split.
  { apply Forall_app. split; [by repeat constructor|]. by apply (prompt_concrete 0). }
  cbv zeta in *. split_and!; [done| |].
  - apply (started_apart 0 (founder :: others)); [done|done|].
    apply (bool_decide_unpack _). vm_compute. exact I.
  - intros x Hx. assert (exists a, (mkId x, a) ∈ founder :: others) as [a Ha].
    { apply elem_of_cons in Hx as [->|[->|[->|[]%elem_of_nil]%elem_of_cons]%elem_of_cons];
        eexists; [left|right; left|right; right; left]. }
    apply Hl in Ha. unfold local_of in Ha. simpl in Ha. by destruct (services _ !! mkId x).
Qed.

Lemma deployed_map_witness :
  exists c w', put_with_op (addr_of c (mkId "b")) "whale" true "op"
      (deploy (fun pm => new_with_base pm "/books") 2 c (mkEnv [] [] [] 0)) = (Ok tt, w') /\
    get (fun s => Some s) (addr_of c (mkId "c")) "whale" w' = (Some true, w').
Proof.
  destruct three_nodes as (xs & Hbound & Hconv & Hap & Hup).
  destruct (Hup "b") as [s Hs]; [apply (bool_decide_unpack _); vm_compute; exact I|].
  destruct (Hup "c") as [t Ht]; [apply (bool_decide_unpack _); vm_compute; exact I|].
  destruct (deployed_map xs 2 "/books" (mkEnv [] [] [] 0) Hbound (fun s => Some s) (mkId "b") s "whale" true "op"
    Hconv Hap eq_refl Hs eq_refl) as (_ & w' & Hrun & Hget).
  eexists _, w'. split; [exact Hrun|]. by apply (Hget (mkId "c") t).
Defined.

Definition order (X : gset text) : list text := elements X.
Definition forwards (m : gmap text nat) : list (text * nat) := map_to_list m.

(** Ids for as many words as the text has. *)
Definition ids (n : nat) : list string := (fun k => String (Ascii.ascii_of_nat k) EmptyString) <$> seq 0 n.

Lemma alice_parts :
  let body := ascii_text "Down the rabbit-hole" in
  split_gutenberg_text alice = Some (Some (ascii_text "Title: Alice", body)) /\
  length (elements (tokenize_text body)) = 4%nat /\ ascii_text "hole" ∈ elements (tokenize_text body).
Proof.
  split; [vm_compute; reflexivity|]. split; [vm_compute; reflexivity|].
  apply (bool_decide_unpack _). vm_compute. exact I.
Qed.

Lemma ids_NoDup : NoDup (uuids (mkEnv [] [] (ids 4) 0)).
Proof. apply (bool_decide_unpack _). vm_compute. exact I. Qed.

Lemma way_of_a_book_witness :
  exists c header body s1 s2 metadata,
    split_gutenberg_text alice = Some (Some (header, body)) /\
    index_document (fun s => Some s) order (addr_of c (mkId "b")) (mkIndexTask (ascii_text "11")) s1 = (Ok tt, s2) /\
    search (fun s => Some s) forwards (addr_of c (mkId "c")) (ascii_text "hole") s2 = ([(metadata, 1%nat)], s2).
Proof.
  destruct three_nodes as (xs & Hbound & Hconv & Hap & Hup). set (c := execute xs empty_cluster) in *.
  destruct (Hup "a") as [sa Ha]; [apply (bool_decide_unpack _); vm_compute; exact I|].
  destruct (Hup "b") as [sb Hb]; [apply (bool_decide_unpack _); vm_compute; exact I|].
  destruct (Hup "c") as [sc Hc]; [apply (bool_decide_unpack _); vm_compute; exact I|].
  pose proof alice_parts as (Hsplit & Hlen & Hin). set (header := ascii_text "Title: Alice") in *.
  set (body := ascii_text "Down the rabbit-hole") in *.
  pose proof (way_of_a_book (fun s => Some s) download order forwards
    (fun X => Permutation_refl _) (fun m => Permutation_refl _) xs 2 Hbound (mkId "a") sa (mkId "b") sb
    (ascii_text "11") alice header body (mkEnv [] [] ["u1"] 0) (mkEnv [] [] ["u2"] 0)
    (mkEnv [] [] (ids 4) 0) (mkEnv [] [] ["u4"] 0) "u1" [] "u2" [] "u4" [] Hconv Hap Ha Hb) as Hway.
  specialize (Hway eq_refl).
  specialize (Hway Hsplit). cbv zeta in Hway.
  specialize (Hway ids_NoDup). rewrite Hlen in Hway. specialize (Hway (le_n 4)).
  specialize (Hway (fun _ _ => eq_refl)).
  assert (Forall (fun e => fates e = []) [mkEnv [] [] ["u1"] 0; mkEnv [] [] ["u2"] 0;
    mkEnv [] [] (ids 4) 0; mkEnv [] [] ["u4"] 0]) as Hq by (by repeat apply Forall_cons_2).
  specialize (Hway Hq eq_refl eq_refl eq_refl). destruct Hway as (s1 & s2 & _ & _ & Hrun & Hsearch).
  exists c, header, body, s1, s2. eexists. split; [exact Hsplit|]. split; [exact Hrun|].
  exact (Hsearch (mkId "c") sc (ascii_text "hole") Hc Hin).
Defined.
End Example.
