(* ===== verification/Background.v ===== *)
(** * Background: what [main] runs beside the HTTP server

    The handlers that src/main.rs registers, the workers of src/executor/executor.rs on the queue of
    their node and with everything else a node has ([Site]), and the anti-entropy loops of the maps
    and of the queue.  [worker_iteration] is Executor.v's for a worker that is not alone with its
    queue; [run_turns] lets the background tasks of all nodes take turns in any order. *)

From S2P Require Import Prelude Membership Cluster Bootstrap Partitioner Net Topology.
From S2P Require Import StorageSpec Text Documents Search Indexing Ingestion Deploy.
From S2P Require Storage StorageNet Queue QueueNet Sync Service Executor.

#[local] Open Scope Z_scope.
#[local] Strategy 1000 [get_partition get_owners].
#[local] Existing Instances Queue.TaskId_eq_dec Queue.TaskId_countable Queue.DistributedQueue_hosted StorageNet.DistributedMap_hosted
  Storage.string_key Storage.string_key_laws Sync.map_syncable Sync.map_sync_laws
  Sync.queue_syncable Sync.queue_sync_laws.

(** ** src/executor/executor.rs, on a site *)

#[local] Abbreviation Registry := (Executor.TaskHandlerRegistry (P := Value) (W := Site)).
#[local] Abbreviation Entry := (Queue.TaskEntry Value).
#[local] Abbreviation Tasks := (World (Queue.DistributedQueue Value)).

(** [TaskExecutor], its queue being that of the node at an address. *)
Record TaskExecutor := mkExecutor {
  te_queue : SocketAddr; te_handlers : Registry; te_worker_count : nat }.

(** [TaskExecutor::new]. *)
Definition executor_new (queue : SocketAddr) (handlers : Registry) (worker_count : nat)
    : TaskExecutor := mkExecutor queue handlers worker_count.

(** [execute_with_lease], in a time too short for a renewal of the lease. *)
Definition execute_with_lease (x : TaskExecutor) (task_id : Queue.TaskId)
    (task : Queue.Task Value) : ST Site unit :=
  outcome <- Executor.execute_task (te_handlers x) task ;;
  in_tasks (on_my (te_queue x) (Queue.complete_task task_id outcome)) ;;;
  st_ret tt.

(** The [for] loop of [worker_loop]: whether a task was claimed. *)
Fixpoint claim_first (x : TaskExecutor) (tasks : list (Queue.TaskId * Entry)) : ST Site bool :=
  match tasks with
  | [] => st_ret false
  | (task_id, entry) :: rest =>
      now <- in_tasks now_ms ;;
      r <- in_tasks (on_my (te_queue x) (Queue.try_claim_task task_id now)) ;;
      match r with
      | Ok true => execute_with_lease x task_id (Queue.task entry) ;;; st_ret true
      | _ => claim_first x rest
      end
  end.

(** One iteration of [worker_loop]. *)
Definition worker_iteration (x : TaskExecutor) : ST Site unit :=
  q <- in_tasks (my (te_queue x)) ;;
  now <- in_tasks now_ms ;;
  let tasks := Queue.my_pending_tasks now q in
  match tasks with
  | [] => in_tasks (sleep 100)
  | _ => claimed <- claim_first x tasks ;;
         if claimed : bool then st_ret tt else in_tasks (sleep 50)
  end.

(** [TaskExecutor::start]: the loops that are spawned. *)
Definition start (x : TaskExecutor) : list (ST Site unit) :=
  (fun worker_id : nat => worker_iteration x) <$> seq 0 (te_worker_count x).

(** ** src/main.rs *)

(** [available_parallelism().map(|n| n.get()).unwrap_or(4)]. *)
Definition worker_count (available_parallelism : result nat) : nat :=
  match available_parallelism with Ok n => n | Err _ => 4%nat end.

Section main.
Context `{Unicode, Regexes}.
Context `{!Storage.Serde (list text), !Storage.Serde RawDocument, !Storage.Serde BookMetadata}.
Context (path_segment : string -> option string) (set_order : gset text -> list text).

(** [task_registry]. *)
Definition task_registry (self : SocketAddr) : Registry :=
  Executor.register "index_document"
    (fun task => match task with
                 | Queue.Execute _ payload =>
                     payload <-? st_ret (from_value payload) ;;
                     index_document path_segment set_order self payload
                 end)
    Executor.registry_new.

(** The [executor] of a node on a machine with so many processors. *)
Definition main_executor (self : SocketAddr) (available_parallelism : result nat) : TaskExecutor :=
  executor_new self (task_registry self) (worker_count available_parallelism).

(** A turn of one of the tasks that [main] spawns on a node. *)
Inductive Job :=
  | Work (worker_id : nat)
  | SyncBooks (order : list Z)
  | SyncDatalake (order : list Z)
  | SyncIndex (order : list Z)
  | SyncQueue (order : list Z).

(** One iteration of [sync_queue_loop]; an error would only be logged. *)
Definition sync_queue_turn (self : SocketAddr) (order : list Z) : ST Site unit :=
  in_tasks (Sync.sync_partitions self order) ;;;
  st_ret tt.

(** One iteration of a job's loop. *)
Definition run_job (self : SocketAddr) (available_parallelism : result nat) (j : Job)
    : ST Site unit :=
  match j with
  | Work worker_id =>
      default (st_ret tt) (start (main_executor self available_parallelism) !! worker_id)
  | SyncBooks order => in_books (Sync.sync_partitions self order) ;;; st_ret tt
  | SyncDatalake order => in_datalake (Sync.sync_partitions self order) ;;; st_ret tt
  | SyncIndex order => in_index (Sync.sync_partitions self order) ;;; st_ret tt
  | SyncQueue order => sync_queue_turn self order
  end.

(** Turns of tasks of any nodes. *)
Definition run_turns (available_parallelism : result nat) (turns : list (SocketAddr * Job))
    : ST Site unit :=
  for_each (fun turn => run_job turn.1 available_parallelism turn.2) turns.
End main.

(** ** The worker is that of Executor.v

    For handlers that do not look at the queues, as that of [main]. *)

Definition blind {A : Type} (m : ST Site A) : Prop :=
  forall w s, m (set_tasks w s) = let '(a, s') := m s in (a, set_tasks w s').

Lemma blind_ret {A : Type} (a : A) : blind (st_ret a).
Proof. done. Qed.
Lemma blind_bind {A B : Type} (m : ST Site A) (f : A -> ST Site B) :
  blind m -> (forall a, blind (f a)) -> blind (st_bind m f).
Proof. intros Hm Hf w s. unfold st_bind. rewrite Hm. destruct (m s). apply Hf. Qed.
Lemma blind_in_datalake {A : Type} m : blind (in_datalake (A := A) m).
Proof. intros w s. unfold in_datalake. simpl. by destruct (m (datalake s)). Qed.
Lemma blind_in_index {A : Type} m : blind (in_index (A := A) m).
Proof. intros w s. unfold in_index. simpl. by destruct (m (index_map s)). Qed.
#[local] Hint Resolve blind_ret blind_bind blind_in_datalake blind_in_index : core.

Lemma blind_for_each_try {A : Type} (f : A -> ST Site (result unit)) l :
  (forall a, blind (f a)) -> blind (for_each_try f l).
Proof.
  intros Hf. induction l as [|a l IH]; [apply blind_ret|]. cbn [for_each_try].
  apply blind_bind; [apply Hf|]. intros [u|e]; [exact IH|apply blind_ret].
Qed.

Section handlers.
Context `{Unicode, Regexes}.
Context `{!Storage.Serde (list text), !Storage.Serde RawDocument, !Storage.Serde BookMetadata}.

Lemma registry_blind path_segment set_order self t :
  blind (Executor.execute_task (task_registry path_segment set_order self) t).
Proof.
  destruct t as [handler payload]. unfold Executor.execute_task, Executor.execute, task_registry,
    Executor.register, Executor.registry_new, Executor.TaskHandlerRegistry.
  destruct (decide (handler = "index_document")) as [->|Hne].
  - rewrite lookup_insert_eq. destruct payload as [payload|json]; [|apply blind_ret].
    apply (blind_bind (in_datalake _)); [apply blind_in_datalake|].
    intros [doc|]; [|apply blind_ret]. apply blind_for_each_try. intros token.
    apply blind_bind; [|intros; apply blind_in_index].
    apply blind_bind; [apply blind_in_index|]. intros; apply blind_ret.
  - rewrite lookup_insert_ne, lookup_empty by done. apply blind_ret.
Qed.
End handlers.

Lemma claim_first_alike x ts now s q :
  (forall t, blind (Executor.execute_task (te_handlers x) t)) ->
  nodes (tasks s) !! te_queue x = Some q -> clock (env (tasks s)) = now ->
  let '(claimed, q', s') := Executor.claim_loop (te_handlers x) ts now q s in
  claim_first x ts s = (claimed, set_tasks (set_node (te_queue x) q' (tasks s)) s').
Proof.
  intros Hblind. revert s q. induction ts as [|[i e] ts IH]; intros s q Hq Hnow.
  { simpl. rewrite set_node_id by done. by destruct s. }
  cbn [claim_first Executor.claim_loop].
  rewrite (st_bind_eq _ _ _ _ _ (in_tasks_eq now_ms s _ _ eq_refl)).
  assert (set_tasks (tasks s) s = s) as -> by (by destruct s).
  change (clock (env (tasks s))) with (now_ms (tasks s)).1 in Hnow.
  assert (in_tasks (on_my (te_queue x) (Queue.try_claim_task i now)) s =
    ((Queue.try_claim_task i now q).1,
     set_tasks (set_node (te_queue x) (Queue.try_claim_task i now q).2 (tasks s)) s)) as Hc.
  { apply in_tasks_eq. by rewrite (on_my_eq _ _ _ q Hq). }
  simpl in Hnow. rewrite Hnow, (st_bind_eq _ _ _ _ _ Hc).
  destruct (Queue.try_claim_task i now q) as [r q1] eqn:Htry. simpl. set (s1 := set_tasks _ s).
  assert (nodes (tasks s1) !! te_queue x = Some q1) as Hq1 by apply lookup_insert_eq.
  assert (forall q2, set_node (te_queue x) q2 (tasks s1) = set_node (te_queue x) q2 (tasks s)) as Hset.
  { intros q2. unfold set_node. simpl. by rewrite insert_insert_eq. }
  assert (r <> Ok true ->
    let '(claimed, q', s') := Executor.claim_loop (te_handlers x) ts now q1 s in
    claim_first x ts s1 = (claimed, set_tasks (set_node (te_queue x) q' (tasks s)) s')) as Hnext.
  { intros Hr. assert (q1 = q) as ->.
    { unfold Queue.try_claim_task in Htry. destruct (Queue.find_task i q); [|by injection Htry].
      case_decide; injection Htry as <- <-; done. }
    assert (s1 = s) as -> by (unfold s1; rewrite set_node_id by done; by destruct s). by apply IH. }
  destruct r as [[]|err]; [|by apply Hnext|by apply Hnext].
  unfold st_bind, execute_with_lease, st_bind. unfold s1 at 1. rewrite Hblind.
  destruct (Executor.execute_task (te_handlers x) (Queue.task e) s) as [outcome o].
  unfold in_tasks. simpl. rewrite (on_my_eq _ _ _ q1 Hq1).
  destruct (Queue.complete_task i outcome q1) as [r' q2]. simpl.
  change (set_node (te_queue x) q2 (set_node (te_queue x) q1 (tasks s)))
    with (set_node (te_queue x) q2 (tasks s1)). by rewrite Hset.
Qed.

(** One iteration, with the pauses. *)
Lemma worker_alike x s q :
  (forall t, blind (Executor.execute_task (te_handlers x) t)) ->
  nodes (tasks s) !! te_queue x = Some q ->
  let '(claimed, q', s') := Executor.worker_iteration (te_handlers x) (clock (env (tasks s))) q s in
  let idle := match Queue.my_pending_tasks (clock (env (tasks s))) q with [] => 100 | _ => 50 end in
  let w' := set_node (te_queue x) q' (tasks s) in
  worker_iteration x s = (tt, set_tasks (if claimed : bool then w' else (sleep idle w').2) s').
Proof.
  intros Hblind Hq. unfold worker_iteration, Executor.worker_iteration.
  rewrite (st_bind_eq _ _ _ _ _ (in_tasks_eq _ s _ _ (my_eq _ _ q Hq))).
  assert (set_tasks (tasks s) s = s) as -> by (by destruct s).
  rewrite (st_bind_eq _ _ _ _ _ (in_tasks_eq now_ms s _ _ eq_refl)).
  assert (set_tasks (tasks s) s = s) as -> by (by destruct s). cbv zeta.
  pose proof (claim_first_alike x (Queue.my_pending_tasks (clock (env (tasks s))) q) _ s q Hblind Hq eq_refl)
    as Hc.
  change (now_ms (tasks s)).1 with (clock (env (tasks s))) in *.
  destruct (Queue.my_pending_tasks _ q) as [|y ts].
  - simpl. by rewrite set_node_id by done.
  - destruct (Executor.claim_loop _ _ _ q s) as [[claimed q'] s'].
    rewrite (st_bind_eq _ _ _ _ _ Hc). by destruct claimed.
Qed.

(** ** One task in the queues of a cluster *)

Section one_task.
Context (addr_of : NodeId -> SocketAddr) (member : NodeId -> Prop) (pm : NodeId -> PartitionManager).
Context (p : Z) (new : Queue.TaskId) (t : Queue.Task Value) (primary : NodeId).
Implicit Types w : Tasks.
Implicit Types q : Queue.DistributedQueue Value.
Implicit Types e : Entry.

Definition finished (done : bool) : Queue.TaskStatus := if done then Queue.Completed else Queue.Pending.

(** The entries of a table: at most that of the task. *)
Definition only_task q : Prop := forall p' i e,
  Queue.lookup_task p' i q = Some e ->
  p' = p /\ i = new /\ Queue.task e = t /\ exists done, Queue.task_status e = finished done.

(** Nothing but one task is in the queues; it is at its primary, where it is finished or not. *)
Record holds_task (done : bool) w : Prop := {
  ht_cluster : cluster addr_of w;
  ht_quiet : quiet w;
  ht_up i : member i -> at_host (addr_of i) (pm i) w;
  ht_only a q : nodes w !! a = Some q -> only_task q;
  ht_home a q : nodes w !! a = Some q ->
    get_partition (Queue.partitioner q) (Queue.task_id_str new) = p /\
    head (get_owners (Queue.partitioner q) p) = Some primary;
  ht_primary : exists q e, nodes w !! addr_of primary = Some q /\ my_id q = primary /\
    Queue.lookup_task p new q = Some e /\ Queue.task_status e = finished done;
}.

Lemma holds_task_env done w (e : Env) :
  fates e = [] -> holds_task done w -> holds_task done (set_env e w).
Proof.
  intros He [Hc Hq Hu Ho Hh Hp]. split; try done. apply (cluster_keeps addr_of w); [done|].
  by apply same_nodes_pointwise; [apply _|].
Qed.

(** A primary's table changes with the task, another's anyhow. *)
Lemma holds_task_set done done' w a q q' :
  holds_task done w -> nodes w !! a = Some q -> Queue.partitioner q' = Queue.partitioner q ->
  only_task q' ->
  (my_id q = primary -> exists e, Queue.lookup_task p new q' = Some e /\
                                  Queue.task_status e = finished done') ->
  (my_id q <> primary -> done' = done) ->
  holds_task done' (set_node a q' w).
Proof.
  intros [Hc Hqt Hu Ho Hh (qp & ep & Hqp & Hid & Hep & Hst)] Hq Hpart Honly Hprim Hother.
  assert (pointwise same_host w (set_node a q' w)) as Hhost.
  { intros b. simpl. destruct (decide (b = a)) as [->|Hne].
    - rewrite lookup_insert_eq, Hq. by constructor.
    - rewrite lookup_insert_ne by done. destruct (nodes w !! b); by constructor. }
  split.
  - by apply (cluster_keeps addr_of w).
  - exact Hqt.
  - intros i Hi. destruct (Hu i Hi) as (qi & Hqi & <-).
    destruct (pointwise_lookup _ _ _ _ _ Hhost Hqi) as (qi' & Hqi' & Hhi). by exists qi'.
  - intros b qb. simpl. destruct (decide (b = a)) as [->|Hne].
    + rewrite lookup_insert_eq. by intros [= <-].
    + rewrite lookup_insert_ne by done. apply Ho.
  - intros b qb Hqb. destruct (pointwise_lookup_inv _ _ _ _ _ Hhost Hqb) as (q0 & Hq0 & Hh0).
    rewrite (Hh0 : Queue.partitioner qb = Queue.partitioner q0). by apply (Hh b).
  - assert (my_id q' = my_id q) as Hid' by (unfold my_id; simpl; by rewrite Hpart).
    destruct (decide (addr_of primary = a)) as [Ha|Hne].
    + assert (q = qp) as -> by (rewrite Ha in Hqp; congruence).
      destruct (Hprim Hid) as (e & He & Hs). exists q', e.
      split_and!; [by rewrite Ha; apply lookup_insert_eq|by rewrite Hid'|done|done].
    + exists qp, ep. simpl. rewrite lookup_insert_ne by done. split_and!; [done..|].
      rewrite Hother; [done|]. intros E. apply Hne. rewrite <- E. apply (cl_self _ _ Hc a q Hq).
Qed.

(** What a worker on a node finds. *)
Lemma pending_only done w a q now i e :
  holds_task done w -> nodes w !! a = Some q -> (i, e) ∈ Queue.my_pending_tasks now q ->
  my_id q = primary /\ done = false /\ i = new /\ Queue.task e = t /\
  Queue.lookup_task p new q = Some e.
Proof.
  intros Ht Hq (p' & [_ Hhead] & Hl & Hav)%Queue.elem_of_my_pending.
  destruct (ht_only _ _ Ht a q Hq p' i e Hl) as (-> & -> & Htask & d & Hst).
  destruct (ht_home _ _ Ht a q Hq) as [_ Hprim]. rewrite Hprim in Hhead. injection Hhead as Hhead.
  assert (my_id q = primary) as Hid by (by rewrite Hhead). split_and!; [done| |done..].
  destruct (ht_primary _ _ Ht) as (qp & ep & Hqp & _ & Hep & Hstp).
  pose proof (cl_self _ _ (ht_cluster _ _ Ht) a q Hq) as Ha. rewrite Hid in Ha.
  rewrite Ha, Hq in Hqp. injection Hqp as <-. assert (e = ep) as -> by congruence.
  destruct done; [|done]. exfalso. unfold Queue.is_available in Hav. by rewrite Hstp in Hav.
Qed.

Lemma pending_found w a q now :
  holds_task false w -> nodes w !! a = Some q -> my_id q = primary ->
  exists e rest, Queue.my_pending_tasks now q = (new, e) :: rest /\ Queue.task e = t /\
                 Queue.lookup_task p new q = Some e /\ Queue.task_status e = Queue.Pending.
Proof.
  intros Ht Hq Hid. destruct (ht_primary _ _ Ht) as (qp & e & Hqp & _ & He & Hst).
  pose proof (cl_self _ _ (ht_cluster _ _ Ht) a q Hq) as Ha. rewrite Hid in Ha.
  rewrite Ha, Hq in Hqp. injection Hqp as <-.
  destruct (ht_home _ _ Ht a q Hq) as [Hpart Hhead].
  assert ((new, e) ∈ Queue.my_pending_tasks now q) as Hin.
  { apply Queue.elem_of_my_pending. exists p. split_and!; [| | |done|].
    1,2: rewrite <- Hpart; apply get_partition_range, (cl_parts _ _ (ht_cluster _ _ Ht) a q Hq).
    - rewrite Hhead. by rewrite <- Hid.
    - unfold Queue.is_available. by rewrite Hst. }
  pose proof (fun i e' => pending_only false w a q now i e' Ht Hq) as Hall.
  destruct (Queue.my_pending_tasks now q) as [|[i e'] rest]; [by apply elem_of_nil in Hin|].
  destruct (Hall i e' ltac:(left)) as (_ & _ & -> & Htask & Hl).
  assert (e' = e) as -> by congruence. by exists e, rest.
Qed.

Lemma idle_tasks done w a q now :
  holds_task done w -> nodes w !! a = Some q -> my_id q <> primary \/ done = true ->
  Queue.my_pending_tasks now q = [].
Proof.
  intros Ht Hq Hidle. pose proof (fun i e => pending_only done w a q now i e Ht Hq) as Hall.
  destruct (Queue.my_pending_tasks now q) as [|[i e] rest]; [done|].
  destruct (Hall i e ltac:(left)) as (? & ? & _). destruct Hidle; congruence.
Qed.

(** A claim at the primary, and the completion that follows. *)
Lemma claim_and_complete w a q now :
  holds_task false w -> nodes w !! a = Some q -> my_id q = primary ->
  exists q1 q2, Queue.try_claim_task new now q = (Ok true, q1) /\
    Queue.complete_task new (Ok tt) q1 = (Ok tt, q2) /\
    holds_task true (set_node a q2 w).
Proof.
  intros Ht Hq Hid. destruct (pending_found w a q now Ht Hq Hid) as (e & _ & _ & Htask & Hl & Hst).
  destruct (ht_home _ _ Ht a q Hq) as [Hpart _].
  assert (Queue.find_task new q = Some e) as Hf by (by rewrite Queue.find_task_lookup, Hpart).
  unfold Queue.try_claim_task. rewrite Hf, decide_False by (rewrite Hst; auto).
  set (e1 := Queue.mkEntry _ _ _ _ _). set (q1 := Queue.write_task new e1 q).
  assert (Queue.find_task new q1 = Some e1) as Hf1 by (apply Queue.find_write; by rewrite Hf).
  set (e2 := Queue.mkEntry (Queue.task e) Queue.Completed (Queue.assigned_to e1) (Queue.created_at e1) None).
  set (q2 := Queue.write_task new e2 q1). exists q1, q2. split_and!; [done| |].
  { unfold Queue.complete_task. by rewrite Hf1. }
  assert (forall p' i, Queue.lookup_task p' i q2 =
    if decide (p' = p /\ i = new) then Some e2 else Queue.lookup_task p' i q) as Hl2.
  { intros p' i. unfold q2. rewrite Queue.lookup_write by (by rewrite Hf1).
    change (Queue.partitioner q1) with (Queue.partitioner q). rewrite Hpart. case_decide as Hd; [done|].
    unfold q1. rewrite Queue.lookup_write by (by rewrite Hf). by rewrite Hpart, decide_False. }
  apply (holds_task_set false true w a q q2 Ht Hq).
  - done.
  - intros p' i e'. rewrite Hl2. case_decide as Hd.
    + destruct Hd as [-> ->]. intros [= <-]. split_and!; [done..|]. by exists true.
    + apply (ht_only _ _ Ht a q Hq).
  - intros _. exists e2. by rewrite Hl2, decide_True.
  - done.
Qed.

(** Anti-entropy between the queues: nobody learns of anything else, and the primary keeps its
    entry. *)
Lemma synced_task done w a q p' i e :
  holds_task done w -> nodes w !! a = Some q ->
  Sync.synced addr_of w q p' i = Some e ->
  p' = p /\ i = new /\ Queue.task e = t /\ exists done, Queue.task_status e = finished done.
Proof.
  intros Ht Hq. unfold Sync.synced. destruct (Sync.source_owner q p') as [j|].
  - simpl. destruct (Queue.lookup_task p' i q) as [e0|] eqn:E.
    + intros [= ->]. by apply (ht_only _ _ Ht a q Hq).
    + destruct (nodes w !! addr_of j) as [qj|] eqn:Hqj; [|done]. simpl.
      apply (ht_only _ _ Ht _ qj Hqj).
  - simpl. apply (ht_only _ _ Ht a q Hq).
Qed.

Lemma sync_task done w a q order :
  holds_task done w -> nodes w !! a = Some q -> NoDup order ->
  exists q', Sync.sync_partitions a order w = (Ok tt, set_node a q' w) /\
    holds_task done (set_node a q' w).
Proof.
  intros Ht Hq Hnd.
  destruct (Sync.sync_pass_quiet addr_of a order w q (ht_cluster _ _ Ht) (ht_quiet _ _ Ht) Hq Hnd)
    as (q' & Hrun & Hh & Hl). simpl in Hh, Hl.
  exists q'. split. { unfold Sync.sync_partitions. by rewrite (st_bind_eq _ _ _ _ _ Hrun). }
  apply (holds_task_set done done w a q q' Ht Hq Hh).
  - intros p' i e. rewrite Hl. case_decide.
    + apply (synced_task done w a q p' i e Ht Hq).
    + apply (ht_only _ _ Ht a q Hq).
  - intros Hid. destruct (ht_primary _ _ Ht) as (qp & e & Hqp & _ & He & Hst).
    pose proof (cl_self _ _ (ht_cluster _ _ Ht) a q Hq) as Ha. rewrite Hid in Ha.
    rewrite Ha, Hq in Hqp. injection Hqp as <-. exists e. split; [|done]. rewrite Hl.
    case_decide; [|done]. unfold Sync.synced. destruct (Sync.source_owner q p); simpl; by rewrite He.
  - done.
Qed.
End one_task.

(** ** A book in the background *)

Section book.
Context `{Unicode, !UnicodeLaws, Regexes, !RegexLaws}.
Context `{!Storage.Serde RawDocument, !Storage.SerdeLaws RawDocument,
          !Storage.Serde BookMetadata, !Storage.SerdeLaws BookMetadata,
          !Storage.Serde (list text), !Storage.SerdeLaws (list text)}.
Context (path_segment : string -> option string) (set_order : gset text -> list text).
Hypothesis Hset : forall X, set_order X ≡ₚ elements X.
Context (available_parallelism : result nat).

Context (addr_of : NodeId -> SocketAddr) (member : NodeId -> Prop) (pm : NodeId -> PartitionManager).
Hypothesis Hpm : forall i, member i -> id (local_node (membership (pm i))) = i.
Context (p : Z) (new : Queue.TaskId) (book_id : text) (primary : NodeId).
Context (lake : gmap string RawDocument) (registry : gmap string BookMetadata) (doc : RawDocument).
Context (us : list string).
Let words : list text := elements (tokenize_text (rd_body doc)).
Hypothesis Hdoc : lake !! utf8 book_id = Some doc.
Hypothesis Hids : NoDup us /\ (length words <= length us)%nat.
Hypothesis Hsegs : forall x, x ∈ book_id :: words -> path_segment (utf8 x) = Some (utf8 x).

(** The index before and after the book. *)
Definition index_ready (done : bool) (w : World (Storage.DistributedMap string (list text))) : Prop :=
  if done then exists idx, represents addr_of idx w /\
                           forall x, x ∈ words -> idx !! utf8 x = Some [book_id]
  else represents addr_of ∅ w /\ uuids (env w) = us /\ forall u, u ∈ us -> StorageNet.fresh_op u w.

(** The nodes hold the book and its task; it is indexed when the task is finished. *)
Record book_at (done : bool) (s : Site) : Prop := {
  bk_lake : represents addr_of lake (datalake s);
  bk_books : represents addr_of registry (books s);
  bk_tasks : holds_task addr_of member pm p new (index_task book_id) primary done (tasks s);
  bk_index : index_ready done (index_map s);
  bk_up i : member i -> at_host (addr_of i) (pm i) (datalake s) /\
                        at_host (addr_of i) (pm i) (books s) /\ at_host (addr_of i) (pm i) (index_map s);
}.

Lemma host_kept {S : Type} `{Hosted S} a a' pm' (w : World S) s s' :
  at_host a pm' w -> nodes w !! a' = Some s -> host s' = host s -> at_host a pm' (set_node a' s' w).
Proof.
  intros (x & Hx & Hh) Hs Hs'. unfold at_host. simpl. destruct (decide (a = a')) as [->|Hne].
  - exists s'. split; [apply lookup_insert_eq|]. congruence.
  - exists x. by rewrite lookup_insert_ne.
Qed.

(** The partitions that a node owns. *)
Definition targets (pm : PartitionManager) : gset Z :=
  list_to_set (my_primary_partitions pm) ∪ list_to_set (my_backup_partitions pm).

(** A pass of one of the maps. *)
Lemma map_pass {V : Type} `{!Storage.Serde V, !Storage.SerdeLaws V} (d : gmap string V) w a pm' order :
  represents addr_of d w -> at_host a pm' w -> order ≡ₚ elements (targets pm') ->
  exists w', Sync.sync_partitions a order w = (Ok tt, w') /\ represents addr_of d w' /\
    env w' = env w /\ (forall b pmb, at_host b pmb w -> at_host b pmb w') /\
    forall u, StorageNet.fresh_op u w -> StorageNet.fresh_op u w'.
Proof.
  intros Hrep (m & Hm & Hh) Hord.
  assert (order ≡ₚ elements (Sync.target_partitions m)) as Hord'.
  { unfold Sync.target_partitions. by rewrite Hh. }
  destruct (Service.sync_represents addr_of d w a m order Hrep Hm Hord') as (m' & Hrun & Hh' & Hrep').
  exists (set_node a m' w). split_and!; [done..| |].
  - intros b pmb Hb. by apply (host_kept b a pmb w m).
  - intros u Hu. replace (set_node a m' w) with (Sync.sync_partitions a order w).2 by (by rewrite Hrun).
    apply Service.sync_fresh; [by exists m|done].
Qed.

(** The jobs that are not for the primary's worker change nothing that counts. *)
Definition regular (i : NodeId) (j : Job) : Prop :=
  match j with
  | Work _ => True
  | SyncBooks order | SyncDatalake order | SyncIndex order | SyncQueue order =>
      order ≡ₚ elements (targets (pm i))
  end.

Lemma sync_job done s i j :
  (forall k, j <> Work k) -> book_at done s -> member i -> regular i j ->
  exists s', run_job path_segment set_order (addr_of i) available_parallelism j s = (tt, s') /\
             book_at done s'.
Proof.
  intros Hj [Hl Hb Ht Hx Hu] Hi Hreg. destruct (Hu i Hi) as (Hul & Hub & Hux).
  destruct j as [k|order|order|order|order]; [by destruct (Hj k)|..]; unfold run_job; simpl in Hreg.
  - destruct (map_pass registry _ _ _ order Hb Hub Hreg) as (w' & Hrun & Hb' & _ & Hh & _).
    rewrite (st_bind_eq _ _ _ _ _ (in_books_eq _ s _ _ Hrun)). eexists. split; [done|].
    split; try done. intros k Hk. destruct (Hu k Hk) as (? & ? & ?). auto.
  - destruct (map_pass lake _ _ _ order Hl Hul Hreg) as (w' & Hrun & Hl' & _ & Hh & _).
    rewrite (st_bind_eq _ _ _ _ _ (in_datalake_eq _ s _ _ Hrun)). eexists. split; [done|].
    split; try done. intros k Hk. destruct (Hu k Hk) as (? & ? & ?). auto.
  - assert (exists w', Sync.sync_partitions (addr_of i) order (index_map s) = (Ok tt, w') /\
      index_ready done w' /\ forall b pmb, at_host b pmb (index_map s) -> at_host b pmb w')
      as (w' & Hrun & Hx' & Hh).
    { unfold index_ready in *. destruct done.
      - destruct Hx as (idx & Hrep & Hidx).
        destruct (map_pass idx _ _ _ order Hrep Hux Hreg) as (w' & Hrun & Hrep' & _ & Hh & _).
        exists w'. split_and!; [done| |done]. by exists idx.
      - destruct Hx as (Hrep & Hus & Hf).
        destruct (map_pass ∅ _ _ _ order Hrep Hux Hreg) as (w' & Hrun & Hrep' & He & Hh & Hfr).
        exists w'. split_and!; [done..|by rewrite He|auto|done]. }
    rewrite (st_bind_eq _ _ _ _ _ (in_index_eq _ s _ _ Hrun)). eexists. split; [done|].
    split; try done. intros k Hk. destruct (Hu k Hk) as (? & ? & ?). auto.
  - unfold sync_queue_turn. destruct (ht_up _ _ _ _ _ _ _ _ _ Ht i Hi) as (q & Hq & _).
    assert (NoDup order) as Hnd by (rewrite Hreg; apply NoDup_elements).
    destruct (sync_task addr_of member pm p new _ primary done (tasks s) _ q order Ht Hq Hnd)
      as (q' & Hrun & Ht').
    rewrite (st_bind_eq _ _ _ _ _ (in_tasks_eq _ s _ _ Hrun)). eexists. by split.
Qed.

(** The turns in which the primary of the task runs a worker. *)
Definition runs_worker (i : NodeId) (j : Job) : bool :=
  match j with
  | Work k => bool_decide (i = primary /\ k < worker_count available_parallelism)%nat
  | _ => false
  end.

#[local] Abbreviation node i := (main_executor path_segment set_order (addr_of i) available_parallelism).

Lemma set_tasks_id (s : Site) : set_tasks (tasks s) s = s.
Proof. by destruct s. Qed.

(** The polls of a worker. *)
Lemma worker_polls i q s :
  nodes (tasks s) !! addr_of i = Some q ->
  worker_iteration (node i) s =
    match Queue.my_pending_tasks (clock (env (tasks s))) q with
    | [] => in_tasks (sleep 100) s
    | ts => (claimed <- claim_first (node i) ts ;;
             if claimed : bool then st_ret tt else in_tasks (sleep 50)) s
    end.
Proof.
  intros Hq. unfold worker_iteration.
  rewrite (st_bind_eq _ _ _ _ _ (in_tasks_eq _ s _ _ (my_eq _ _ q Hq))), set_tasks_id.
  rewrite (st_bind_eq _ _ _ _ _ (in_tasks_eq now_ms s _ _ eq_refl)), set_tasks_id.
  by destruct (Queue.my_pending_tasks _ q).
Qed.

(** The registered handler on a node that has not indexed anything yet. *)
Lemma handler_indexes a pmd s :
  represents addr_of lake (datalake s) -> index_ready false (index_map s) ->
  at_host a pmd (datalake s) -> at_host a pmd (index_map s) ->
  exists w', Executor.execute (task_registry path_segment set_order a) (index_task book_id) s =
      (Ok tt, set_index w' s) /\
    index_ready true w' /\ forall b pmb, at_host b pmb (index_map s) -> at_host b pmb w'.
Proof.
  intros Hl (Hrep & Hus & Hf) (md & Hmd & _) (mi & Hmi & _).
  assert (able a (utf8 <$> words) us (index_map s)) as Hable.
  { split; [|done|done|apply Hids]. exists mi. split; [done|]. intros k _. right.
    destruct (Storage.get_local k mi) as [v|] eqn:Hv; [|done].
    destruct (rp_sound _ _ _ Hrep _ mi k v Hmi Hv) as [Hd _]. by rewrite lookup_empty in Hd. }
  destruct (index_document_spec path_segment addr_of set_order Hset lake ∅ s a md book_id doc
    us Hl Hmd) as (w' & idx & Hrun & Hrep' & Hh & Hidx); try done.
  { apply Hsegs. left. }
  { apply Hids. }
  { intros x Hx. apply Hsegs. by right. }
  exists w'. split_and!.
  - unfold index_task, task_registry. rewrite Executor.execute_registered. exact Hrun.
  - exists idx. split; [done|]. intros x Hx. rewrite Hidx, decide_True, lookup_empty; [done|].
    apply list_elem_of_fmap. by exists x.
  - intros b pmb (m & Hm & Hhm). destruct (pointwise_lookup _ _ _ _ _ Hh Hm) as (m' & Hm' & Hhm').
    exists m'. split; [done|]. by rewrite Hhm'.
Qed.

(** The primary's worker runs the task. *)
Lemma primary_works s :
  book_at false s -> member primary ->
  exists s', worker_iteration (node primary) s = (tt, s') /\ book_at true s'.
Proof.
  intros [Hl Hb Ht Hx Hu] Hi.
  destruct (ht_up _ _ _ _ _ _ _ _ _ Ht primary Hi) as (q & Hq & Hh).
  assert (my_id q = primary) as Hid by (unfold my_id; rewrite Hh; by apply Hpm).
  set (now := clock (env (tasks s))).
  destruct (pending_found addr_of member pm p new _ primary (tasks s) _ q now Ht Hq Hid)
    as (e & rest & Hpend & Htask & _ & _).
  destruct (claim_and_complete addr_of member pm p new _ primary (tasks s) _ q now Ht Hq Hid)
    as (q1 & q2 & Hclaim & Hcomplete & Ht').
  rewrite (worker_polls primary q s Hq). fold now. rewrite Hpend. cbn [claim_first].
  set (s1 := set_tasks (set_node (addr_of primary) q1 (tasks s)) s).
  destruct (Hu primary Hi) as (Hul & _ & Hux).
  destruct (handler_indexes (addr_of primary) (pm primary) s1 Hl Hx Hul Hux) as (w' & Hrun & Hx' & Hhx).
  assert (execute_with_lease (node primary) new (Queue.task e) s1 =
    (tt, set_tasks (set_node (addr_of primary) q2 (tasks s)) (set_index w' s))) as Hex.
  { unfold execute_with_lease. rewrite Htask.
    change (te_handlers (node primary)) with (task_registry path_segment set_order (addr_of primary)).
    change (te_queue (node primary)) with (addr_of primary).
    rewrite (st_bind_eq (Executor.execute_task _ _) _ s1 (Ok tt) (set_index w' s1) Hrun).
    rewrite (st_bind_eq _ _ _ (Ok tt) (set_tasks (set_node (addr_of primary) q2 (tasks s)) (set_index w' s))); [done|].
    rewrite (in_tasks_eq _ (set_index w' s1) (Ok tt) (set_node (addr_of primary) q2 (tasks s))); [done|].
    simpl. rewrite (on_my_eq _ _ _ q1) by (simpl; apply lookup_insert_eq). rewrite Hcomplete. simpl.
    f_equal. unfold set_node. simpl. by rewrite insert_insert_eq. }
  exists (set_tasks (set_node (addr_of primary) q2 (tasks s)) (set_index w' s)). split.
  - rewrite (st_bind_eq _ _ s true (set_tasks (set_node (addr_of primary) q2 (tasks s)) (set_index w' s))); [done|].
    rewrite (st_bind_eq _ _ _ _ _ (in_tasks_eq now_ms s _ _ eq_refl)), set_tasks_id.
    rewrite (st_bind_eq _ _ s (Ok true) s1).
    + by rewrite (st_bind_eq _ _ _ _ _ Hex).
    + apply in_tasks_eq. rewrite (on_my_eq _ _ _ q Hq). unfold now in Hclaim. by rewrite Hclaim.
  - split; try done. intros k Hk. destruct (Hu k Hk) as (? & ? & ?). auto.
Qed.

(** A turn of any job. *)
Lemma job_step done s i j :
  book_at done s -> member i -> regular i j ->
  exists s', run_job path_segment set_order (addr_of i) available_parallelism j s = (tt, s') /\
             book_at (done || runs_worker i j) s'.
Proof.
  intros Hb Hi Hreg. destruct j as [k|order|order|order|order].
  2-5: rewrite orb_false_r; by apply sync_job.
  unfold run_job, start. rewrite list_lookup_fmap. cbn [te_worker_count main_executor executor_new runs_worker].
  destruct (decide (k < worker_count available_parallelism)%nat) as [Hk|Hk].
  2: { rewrite lookup_seq_ge by lia. rewrite bool_decide_eq_false_2 by lia. rewrite orb_false_r.
       by exists s. }
  rewrite lookup_seq_lt by done. cbn [fmap option_fmap option_map default from_option id].
  destruct (decide (i = primary /\ done = false)) as [[-> ->]|Hidle].
  { destruct (primary_works s Hb Hi) as (s' & Hrun & Hb'). exists s'. split; [exact Hrun|].
    by rewrite bool_decide_eq_true_2. }
  assert (done || bool_decide (i = primary /\ k < worker_count available_parallelism)%nat = done) as ->.
  { destruct done; [done|]. apply bool_decide_eq_false_2. intros [-> _]. by apply Hidle. }
  pose proof (bk_tasks _ _ Hb) as Ht. destruct (ht_up _ _ _ _ _ _ _ _ _ Ht i Hi) as (q & Hq & Hh).
  assert (my_id q = i) as Hid by (unfold my_id; rewrite Hh; by apply Hpm).
  assert (Queue.my_pending_tasks (clock (env (tasks s))) q = []) as Hnil.
  { apply (idle_tasks addr_of member pm p new (index_task book_id) primary done (tasks s) (addr_of i) q); [done..|].
    rewrite Hid. destruct done; [by right|]. left. intros ->. by apply Hidle. }
  exists (set_tasks (sleep 100 (tasks s)).2 s). split.
  - change (worker_iteration (node i) s = (tt, set_tasks (sleep 100 (tasks s)).2 s)).
    rewrite (worker_polls i q s Hq), Hnil. by apply in_tasks_eq.
  - destruct Hb as [Hl Hbk _ Hx Hu]. split; try done.
    apply holds_task_env; [|done]. apply (ht_quiet _ _ _ _ _ _ _ _ _ Ht).
Qed.

(** Any turns. *)
Lemma turns_run (turns : list (NodeId * Job)) : forall done s,
  book_at done s -> Forall (fun x => member x.1 /\ regular x.1 x.2) turns ->
  exists s', run_turns path_segment set_order available_parallelism (prod_map addr_of Datatypes.id <$> turns) s = (tt, s') /\
             book_at (done || existsb (fun x => runs_worker x.1 x.2) turns) s'.
Proof.
  unfold run_turns. induction turns as [|[i j] turns IH]; intros done s Hb Hall.
  { exists s. by rewrite orb_false_r. }
  apply Forall_cons in Hall as [[Hi Hreg] Hall]. simpl in Hi, Hreg. cbn [fmap list_fmap for_each existsb].
  destruct (job_step done s i j Hb Hi Hreg) as (s1 & Hrun & Hb1).
  rewrite (st_bind_eq _ _ _ _ _ Hrun). destruct (IH _ s1 Hb1 Hall) as (s' & Hl & Hb').
  exists s'. split; [exact Hl|]. by rewrite orb_assoc.
Qed.
End book.

(** ** On the nodes that [main] deploys *)

Section deployed.
Context `{Unicode, !UnicodeLaws, Regexes, !RegexLaws}.
Context `{!Storage.Serde RawDocument, !Storage.SerdeLaws RawDocument,
          !Storage.Serde BookMetadata, !Storage.SerdeLaws BookMetadata,
          !Storage.Serde (list text), !Storage.SerdeLaws (list text)}.
Context (path_segment : string -> option string) (reqwest_get : text -> result (Z * result text)).
Context (set_order : gset text -> list text) (hash_order : gmap text nat -> list (text * nat)).
Hypothesis Hset : forall X, set_order X ≡ₚ elements X.
Hypothesis Hhash : forall m, hash_order m ≡ₚ map_to_list m.
Context (available_parallelism : result nat) (xs : list action) (rf : nat).
Hypothesis Hbound : Forall bound_concretely xs.
Let c := execute xs empty_cluster.

(** The nodes and their partitioners. *)
Definition serving (i : NodeId) : Prop := is_Some (services c !! i).
Definition partitioner_of (i : NodeId) : PartitionManager :=
  match services c !! i with
  | Some s => new_with_replication s rf
  | None => inhabitant
  end.

Lemma serving_id i : serving i -> id (local_node (membership (partitioner_of i))) = i.
Proof.
  intros [s Hs]. unfold partitioner_of. rewrite Hs. simpl.
  by apply (ok_services c (reachable_ok xs)).
Qed.

Lemma owner_serving i s p k :
  converged c -> services c !! i = Some s -> k ∈ get_owners (new_with_replication s rf) p -> serving k.
Proof.
  intros Hconv Hs Hk. destruct (get_owners_alive (new_with_replication s rf) p k) as (n & Hn & Hal).
  - simpl. apply ok_wf. by eapply (ok_services c (reachable_ok xs)).
  - done.
  - apply (Hconv i s k Hs). by exists n.
Qed.

(** After a submission to queues that were empty. *)
Lemma task_waits i s t ut e primary w :
  converged c -> apart c -> services c !! i = Some s ->
  let pm := new_with_replication s rf in
  let p := get_partition pm ut in
  let new := Queue.mkTaskId ut in
  head (get_owners pm p) = Some primary ->
  cluster (addr_of c) w -> quiet w ->
  pointwise (QueueNet.submitted p new t) (deploy main_queue rf c e) w ->
  QueueNet.has_new p new t (addr_of c primary) w ->
  holds_task (addr_of c) serving partitioner_of p new t primary false w.
Proof.
  intros Hconv Hap Hs pm p new Hprim Hc Hq Hsub (qp & ct & Hqp & Hl).
  assert (forall k, serving k -> at_host (addr_of c k) (partitioner_of k) w) as Hup.
  { intros k [sk Hk]. unfold partitioner_of. rewrite Hk.
    pose proof (deploy_at main_queue rf xs e k sk Hap Hk) as Hat.
    destruct (pointwise_lookup _ _ _ _ _ Hsub Hat) as (q & Hqk & Hsq). exists q.
    split; [done|]. exact (QueueNet.su_host _ _ _ _ _ Hsq). }
  split; [done|done|done| | |].
  - intros a q Hqa p' j ej Hj. destruct (pointwise_lookup_inv _ _ _ _ _ Hsub Hqa) as (q0 & Hq0 & Hsq).
    apply (deploy_inv main_queue rf xs e) in Hq0 as (k & sk & _ & _ & -> & _).
    destruct (QueueNet.su_new _ _ _ _ _ Hsq p' j) as [Hn|(-> & -> & cj & Hnew)]; [done|congruence|].
    rewrite Hnew in Hj. injection Hj as <-. split_and!; [done..|]. by exists false.
  - intros a q Hqa. destruct (Hup i) as (qi & Hqi & Hhi); [by exists s|].
    unfold partitioner_of in Hhi. rewrite Hs in Hhi. fold pm in Hhi.
    pose proof (cluster_partition (addr_of c) w Hc a q _ qi ut Hqa Hqi) as Hpart.
    pose proof (cluster_owners (addr_of c) w Hc a q _ qi p Hqa Hqi) as Hown.
    simpl in *. rewrite Hpart, Hown, Hhi. by split.
  - assert (primary ∈ get_owners pm p) as Hin.
    { destruct (get_owners pm p); [done|]. injection Hprim as ->. left. }
    pose proof (owner_serving i s p primary Hconv Hs Hin) as Hr.
    destruct (Hup primary Hr) as (q & Hq' & Hh). rewrite Hqp in Hq'. injection Hq' as <-.
    exists qp, (QueueNet.new_entry t ct). split_and!; [done| |done|done].
    unfold my_id. rewrite Hh. by apply serving_id.
Qed.

(** C1: the first book is indexed in the background.  On nodes that have just been deployed on a
    converged cluster, each at its own concrete address, with all maps and the queue empty, and
    without faults: after a book that downloads and has both markers has been ingested on any node,
    let the background tasks of all nodes, workers and anti-entropy of the maps and of the queue, take
    whole turns, any in any order.  If a worker of the primary of the indexing task gets a turn, the
    task is completed there, and a search on any node for any word of the book returns exactly its
    metadata, with score one. *)
Theorem book_indexed_in_background i si primary book_id t header body e1 e2 e3 e4
    ud uds ub ubs ut uts turns worker_id :
  converged c -> apart c -> services c !! i = Some si ->
  fetch_gutenberg_text reqwest_get (source_url book_id) = Ok t ->
  split_gutenberg_text t = Some (Some (header, body)) ->
  let words := elements (tokenize_text body) in
  NoDup (uuids e3) -> (length words <= length (uuids e3))%nat ->
  (forall x, x ∈ book_id :: words -> path_segment (utf8 x) = Some (utf8 x)) ->
  Forall (fun e => fates e = []) [e1; e2; e3; e4] ->
  uuids e1 = ud :: uds -> uuids e2 = ub :: ubs -> uuids e4 = ut :: uts ->
  let pm := new_with_replication si rf in
  head (get_owners pm (get_partition pm ut)) = Some primary ->
  Forall (fun turn => serving turn.1 /\ regular partitioner_of turn.1 turn.2) turns ->
  (primary, Work worker_id) ∈ turns -> (worker_id < worker_count available_parallelism)%nat ->
  let metadata := let '(n, u) := compute_counts body in parse_metadata header book_id n u in
  exists s1 s2,
    handle_ingest_gutenberg path_segment reqwest_get (addr_of c i) book_id
        (deploy_site rf c e1 e2 e3 e4) =
      (Some (mkResponse ACCEPTED (mkIngest book_id "ingested"%string (source_url book_id))), s1) /\
    run_turns path_segment set_order available_parallelism
      (prod_map (addr_of c) Datatypes.id <$> turns) s1 = (tt, s2) /\
    (exists q e, nodes (tasks s2) !! addr_of c primary = Some q /\
       Queue.get_task_local (Queue.mkTaskId ut) q = Some e /\ Queue.task_status e = Queue.Completed) /\
    forall k w, serving k -> w ∈ words ->
      search path_segment hash_order (addr_of c k) w s2 = ([(metadata, 1%nat)], s2).
Proof.
  intros Hconv Hap Hi Hfetch Hsplit words Hnd Hlen Hseg Hq Hud Hub Hut pm Hprim Hturns Hin Hk metadata.
  pose proof Hq as [Hq1 [Hq2 [Hq3 [Hq4 _]%Forall_cons]%Forall_cons]%Forall_cons]%Forall_cons.
  destruct (ingest_on_site path_segment reqwest_get xs rf Hbound i si book_id t header body e1 e2 e3 e4
    ud uds ub ubs ut uts Hconv Hap Hi Hfetch Hsplit (Hseg book_id ltac:(left)))
    as (s1 & Hing & Hown & Hlake & Hbooks & Hidx1 & Hup & Htc & Htq & Hsub); try done.
  { by repeat apply Forall_cons_2. }
  set (doc := mkRaw book_id header body (source_url book_id)).
  set (p := get_partition pm ut). set (new := Queue.mkTaskId ut).
  set (lake := {[ utf8 book_id := doc ]} : gmap string RawDocument).
  set (registry := {[ utf8 book_id := metadata ]} : gmap string BookMetadata).
  assert (book_at (addr_of c) serving partitioner_of p new book_id primary lake registry doc (uuids e3)
    false s1) as Hb.
  { split; [done|done| | |].
    - apply (task_waits i si (index_task book_id) ut e4 primary (tasks s1)); try done.
      apply Hown. unfold pm in Hprim. destruct (get_owners _ _); [done|]. injection Hprim as ->. left.
    - rewrite Hidx1. split_and!; [|done|].
      + by apply (deploy_represents xs rf "/index" e3 Hbound Hconv Hap).
      + intros u _. apply (deploy_fresh xs rf "/index" e3).
    - intros k [sk Hsk]. destruct (Hup k sk Hsk) as [Hd Hbk]. unfold partitioner_of. rewrite Hsk.
      split_and!; [done..|]. rewrite Hidx1. eexists. split; [by apply deploy_at|done]. }
  destruct (turns_run path_segment set_order Hset available_parallelism (addr_of c) serving partitioner_of
    serving_id p new book_id primary lake registry doc (uuids e3)) with turns false s1 as (s2 & Hrun & Hb2);
    [apply lookup_singleton_eq|done..|].
  assert (existsb (fun x => runs_worker available_parallelism primary x.1 x.2) turns = true) as Hex.
  { apply existsb_exists. exists (primary, Work worker_id). split; [by apply list_elem_of_In|].
    by apply bool_decide_eq_true_2. }
  simpl in Hb2. rewrite Hex in Hb2. destruct Hb2 as [Hl2 Hbk2 Ht2 (idx & Hrep & Hidx) Hu2].
  exists s1, s2. split_and!; [exact Hing|exact Hrun| |].
  - destruct (ht_primary _ _ _ _ _ _ _ _ _ Ht2) as (q & e & Hqp & _ & He & Hst). exists q, e.
    split_and!; [done| |done]. unfold Queue.get_task_local. rewrite Queue.find_task_lookup.
    by rewrite (proj1 (ht_home _ _ _ _ _ _ _ _ _ Ht2 _ q Hqp)).
  - intros k w Hr Hw. destruct (Hu2 k Hr) as (_ & (mb & Hmb & _) & (mi & Hmi & _)).
    apply (search_only path_segment hash_order Hhash (addr_of c) idx registry s2 _ mi mb w book_id);
      try done.
    + apply (query_of_word body). by apply elem_of_elements.
    + by apply Hidx.
    + apply lookup_singleton_eq.
    + apply Hseg. by right.
    + apply Hseg. left.
Qed.
End deployed.

(** ** Witness *)

Module Example.
Import Bootstrap.Example Text.Ascii Ingestion.Example Deploy.Example.
#[local] Existing Instances Storage.countable_serde Storage.countable_serde_laws.

(** A node resyncs its queue, the primary of the task works, another node resyncs its index. *)
Definition turns (c : NodeId -> PartitionManager) (primary : NodeId) : list (NodeId * Job) :=
  [(mkId "a", SyncQueue (elements (targets (c (mkId "a"))))); (primary, Work 0);
   (mkId "b", SyncIndex (elements (targets (c (mkId "b")))))].

Lemma primary_exists xs rf i s ut :
  let c := execute xs empty_cluster in
  apart c -> services c !! i = Some s -> (0 < rf)%nat ->
  exists primary, head (get_owners (new_with_replication s rf)
                          (get_partition (new_with_replication s rf) ut)) = Some primary.
Proof.
  intros c Hap Hs Hrf.
  pose proof (deploy_owned main_queue rf (fun _ => eq_refl) xs (mkEnv [] [] [] 0) _ _
    (get_partition (new_with_replication s rf) ut)
    (deploy_at main_queue rf xs (mkEnv [] [] [] 0) i s Hap Hs)) as Hne.
  simpl in Hne. destruct (get_owners _ _) as [|primary rest]; [done|]. by exists primary.
Qed.

Lemma book_indexed_in_background_witness :
  exists c s2 metadata q e primary,
    nodes (tasks s2) !! addr_of c primary = Some q /\
    Queue.get_task_local (Queue.mkTaskId "u4") q = Some e /\ Queue.task_status e = Queue.Completed /\
    search (fun s => Some s) forwards (addr_of c (mkId "c")) (ascii_text "hole") s2 = ([(metadata, 1%nat)], s2).
Proof.
  destruct three_nodes as (xs & Hbound & Hconv & Hap & Hup). set (c := execute xs empty_cluster) in *.
  destruct (Hup "a") as [sa Ha]; [apply (bool_decide_unpack _); vm_compute; exact I|].
  destruct (Hup "b") as [sb Hb]; [apply (bool_decide_unpack _); vm_compute; exact I|].
  destruct (Hup "c") as [sc Hc]; [apply (bool_decide_unpack _); vm_compute; exact I|].
  pose proof alice_parts as (Hsplit & Hlen & Hin). set (header := ascii_text "Title: Alice") in *.
  set (body := ascii_text "Down the rabbit-hole") in *.
  destruct (primary_exists xs 2 (mkId "a") sa "u4" Hap Ha) as [primary Hprim]; [lia|].
  pose proof (book_indexed_in_background (fun s => Some s) download order forwards
    (fun X => Permutation_refl _) (fun m => Permutation_refl _) (Ok 2%nat) xs 2 Hbound (mkId "a") sa primary
    (ascii_text "11") alice header body (mkEnv [] [] ["u1"] 0) (mkEnv [] [] ["u2"] 0)
    (mkEnv [] [] (ids 4) 0) (mkEnv [] [] ["u4"] 0) "u1" [] "u2" [] "u4" []
    (turns (partitioner_of xs 2) primary) 0%nat Hconv Hap Ha eq_refl Hsplit) as Hway.
  cbv zeta in Hway. specialize (Hway ids_NoDup). rewrite Hlen in Hway. specialize (Hway (le_n 4)).
  specialize (Hway (fun _ _ => eq_refl)).
  assert (Forall (fun e => fates e = []) [mkEnv [] [] ["u1"] 0; mkEnv [] [] ["u2"] 0;
    mkEnv [] [] (ids 4) 0; mkEnv [] [] ["u4"] 0]) as Hq by (by repeat apply Forall_cons_2).
  assert (serving xs primary) as Hr.
  { apply (owner_serving xs 2 (mkId "a") sa (get_partition (new_with_replication sa 2) "u4") primary Hconv Ha).
    destruct (get_owners _ _); [done|]. injection Hprim as ->. left. }
  assert (Forall (fun turn => serving xs turn.1 /\ regular (partitioner_of xs 2) turn.1 turn.2)
    (turns (partitioner_of xs 2) primary)) as Hturns.
  { apply Forall_cons_2; [split; [by exists sa|apply Permutation_refl]|].
    apply Forall_cons_2; [split; [exact Hr|exact I]|].
    apply Forall_cons_2; [split; [by exists sb|apply Permutation_refl]|apply Forall_nil_2]. }
  specialize (Hway Hq eq_refl eq_refl eq_refl Hprim Hturns ltac:(right; left) ltac:(simpl; lia)).
  destruct Hway as (s1 & s2 & _ & _ & (q & e & Hqp & He & Hst) & Hsearch).
  exists c, s2. eexists. exists q, e, primary. split_and!; [exact Hqp|exact He|exact Hst|].
  exact (Hsearch (mkId "c") (ascii_text "hole") ltac:(by exists sc) Hin).
Defined.
End Example.
