(* ===== verification/SiteSteps.v ===== *)
(** * The site, action by action: src/search, src/ingestion, src/main.rs and src/executor/executor.rs

    The handlers of Search.v and Ingestion.v, the task handler of Indexing.v and the workers of
    Background.v as processes on a [Site]: between any two accesses to one of the three maps or to
    the queue, and within each of them as StorageSteps.v and QueueSteps.v say, other requests, other
    workers and anti-entropy may run.  [Activity] is anything a node does.  Without interruption the
    processes are the operations of those files ([uninterrupted_request]). *)

From S2P Require Import Prelude Membership Partitioner Net Topology Process Parts Ending.
From stdpp Require Import relations.
From S2P Require Import Text Documents Search Ingestion.
From S2P Require Storage StorageNet StorageSteps Queue QueueNet QueueSteps Indexing Executor Background Sync.

#[local] Open Scope Z_scope.
#[local] Open Scope proc_scope.

#[local] Existing Instances Storage.string_key Storage.string_key_laws
  StorageNet.DistributedMap_hosted Queue.DistributedQueue_hosted Queue.TaskId_eq_dec
  Queue.TaskId_countable.

(** ** The components of a site *)

#[local] Abbreviation Shards V := (World (Storage.DistributedMap string V)).
#[local] Abbreviation Queues := (World (Queue.DistributedQueue Value)).

#[export] Instance datalake_part : Part Site (Shards RawDocument) :=
  {| part := datalake; set_part := set_datalake |}.
#[export] Instance books_part : Part Site (Shards BookMetadata) :=
  {| part := books; set_part := set_books |}.
#[export] Instance index_part : Part Site (Shards (list text)) :=
  {| part := index_map; set_part := set_index |}.
#[export] Instance tasks_part : Part Site Queues :=
  {| part := tasks; set_part := set_tasks |}.

#[export] Instance datalake_laws : PartLaws Site (Shards RawDocument).
Proof. split; [done|by intros []|done]. Qed.
#[export] Instance books_laws : PartLaws Site (Shards BookMetadata).
Proof. split; [done|by intros []|done]. Qed.
#[export] Instance index_laws : PartLaws Site (Shards (list text)).
Proof. split; [done|by intros []|done]. Qed.
#[export] Instance tasks_laws : PartLaws Site Queues.
Proof. split; [done|by intros []|done]. Qed.

Definition on_datalake {A} (p : proc (Shards RawDocument) A) : proc Site A := lift p.
Definition on_books {A} (p : proc (Shards BookMetadata) A) : proc Site A := lift p.
Definition on_index {A} (p : proc (Shards (list text)) A) : proc Site A := lift p.
Definition on_tasks {A} (p : proc Queues A) : proc Site A := lift p.

Lemma run_on_datalake {A} (p : proc _ A) m s :
  (forall w, run p w = m w) -> run (on_datalake p) s = in_datalake m s.
Proof. exact (run_lift_eq p m s). Qed.
Lemma run_on_books {A} (p : proc _ A) m s :
  (forall w, run p w = m w) -> run (on_books p) s = in_books m s.
Proof. exact (run_lift_eq p m s). Qed.
Lemma run_on_index {A} (p : proc _ A) m s :
  (forall w, run p w = m w) -> run (on_index p) s = in_index m s.
Proof. exact (run_lift_eq p m s). Qed.
Lemma run_on_tasks {A} (p : proc _ A) m s :
  (forall w, run p w = m w) -> run (on_tasks p) s = in_tasks m s.
Proof. exact (run_lift_eq p m s). Qed.

Section site.
Context `{Unicode, Regexes}.
Context `{!Storage.Serde (list text), !Storage.Serde RawDocument, !Storage.Serde BookMetadata}.
(** What the HTTP stack makes of a path segment; downloads, and how many times a task that waits for
    one is polled in vain (there is no time limit: it may be any number); the orders in which hash
    maps and hash sets are iterated. *)
Context (path_segment : string -> option string) (reqwest_get : text -> result (Z * result text)).
Context (download_polls : text -> nat).
Context (hash_order : gmap text nat -> list (text * nat)) (set_order : gset text -> list text).

(** ** src/search/engine.rs and src/search/handlers.rs *)

Fixpoint score_tokens (self : SocketAddr) (tokens : list text) (book_scores : gmap text nat)
    : proc Site (gmap text nat) :=
  match tokens with
  | [] => Done book_scores
  | token :: rest =>
      found <~ on_index (StorageSteps.get path_segment self (utf8 token)) ;;
      score_tokens self rest
        (match found with Some book_index => foldl bump book_scores book_index | None => book_scores end)
  end.

Fixpoint hydrate (self : SocketAddr) (scored : list (text * nat))
    : proc Site (list (BookMetadata * nat)) :=
  match scored with
  | [] => Done []
  | (book_id, score) :: rest =>
      found <~ on_books (StorageSteps.get path_segment self (utf8 book_id)) ;;
      results <~ hydrate self rest ;;
      Done (match found with Some metadata => (metadata, score) :: results | None => results end)
  end.

Definition search (self : SocketAddr) (query : text) : proc Site (list (BookMetadata * nat)) :=
  book_scores <~ score_tokens self (tokenize_query query) ∅ ;;
  results <~ hydrate self (hash_order book_scores) ;;
  Done (sort_by_score results).

(** [handle_search]; the page is cut out of the results without awaiting. *)
Definition page (params : SearchParams) (found : list (BookMetadata * nat)) : SearchResponse :=
  let results := item <$> found in
  let limit := default 10%nat (limit params) in
  let offset := default O (offset params) in
  let page := take limit (drop offset results) in
  mkSearchResponse (q params) ∅ (length results) (length page) page.

Definition handle_search (self : SocketAddr) (params : SearchParams) : proc Site SearchResponse :=
  found <~ search self (q params) ;;
  Done (page params found).

Definition handle_create_book (self : SocketAddr) (req : CreateBookRequest)
    : proc Site (Response CreateBookResponse) :=
  id <~ on_books (atomic new_v4) ;;
  let book_id := ascii_text id in
  let book_meta := mkBook book_id (cb_title req) (cb_author req) (cb_language req) (cb_year req) 0 0 in
  stored <~ on_books (StorageSteps.put self (utf8 book_id) book_meta) ;;
  match stored with
  | Ok _ =>
      on_tasks (QueueSteps.submit self (index_task book_id)) ;;~
      Done (mkResponse CREATED (mkCreated book_id))
  | Err _ => Done (mkResponse INTERNAL_SERVER_ERROR (mkCreated book_id))
  end.

(** ** src/ingestion/handlers.rs *)

(** Waiting, while others run. *)
Fixpoint wait (polls : nat) : proc Site unit :=
  match polls with
  | O => Done tt
  | S n => atomic (st_ret tt) ;;~ wait n
  end.

(** [fetch_gutenberg_text], with the time it takes. *)
Definition download (url : text) : proc Site (result text) :=
  wait (download_polls url) ;;~ Done (fetch_gutenberg_text reqwest_get url).

Definition handle_ingest_gutenberg (self : SocketAddr) (book_id : text)
    : proc Site (option (Response IngestResponse)) :=
  let url := source_url book_id in
  let respond (code : Z) (status : string) : proc Site (option (Response IngestResponse)) :=
    Done (Some (mkResponse code (mkIngest book_id status url))) in
  existing <~ on_datalake (StorageSteps.get path_segment self (utf8 book_id)) ;;
  match existing with
  | Some _ => respond OK "already_exists"%string
  | None =>
      fetched <~ download url ;;
      match fetched with
      | Err _ => respond BAD_GATEWAY "download_failed"%string
      | Ok t =>
          match split_gutenberg_text t with
          | None => Done None
          | Some None => respond UNPROCESSABLE_ENTITY "invalid_format"%string
          | Some (Some (header, body)) =>
              let '(word_count, unique_words) := compute_counts body in
              let metadata := parse_metadata header book_id word_count unique_words in
              let raw_doc := mkRaw book_id header body url in
              stored <~ on_datalake (StorageSteps.put self (utf8 book_id) raw_doc) ;;
              match stored with
              | Err _ => respond INTERNAL_SERVER_ERROR "datalake_store_failed"%string
              | Ok _ =>
                  on_books (StorageSteps.put self (utf8 book_id) metadata) ;;~
                  on_tasks (QueueSteps.submit self (index_task book_id)) ;;~
                  respond ACCEPTED "ingested"%string
              end
          end
      end
  end.

Definition handle_ingest_status (self : SocketAddr) (book_id : text)
    : proc Site (Response IngestStatusResponse) :=
  found <~ on_datalake (StorageSteps.get path_segment self (utf8 book_id)) ;;
  Done (mkResponse OK (mkIngestStatus book_id
    (match found with Some _ => "available" | None => "missing" end))).

(** ** The task handler of src/main.rs *)

(** The body of the loop over the tokens: between the read and the write others may write. *)
Definition index_token (self : SocketAddr) (book_id token : text) : proc Site (result unit) :=
  book_ids <~ on_index (StorageSteps.get path_segment self (utf8 token)) ;;
  on_index (StorageSteps.put self (utf8 token) (Indexing.add_posting book_id (default [] book_ids))).

Definition index_document (self : SocketAddr) (payload : IndexTaskPayload) : proc Site (result unit) :=
  raw_doc <~ on_datalake (StorageSteps.get path_segment self (utf8 (it_book_id payload))) ;;
  match raw_doc with
  | None => Done (Ok tt)
  | Some raw_doc =>
      each_try (index_token self (it_book_id payload)) (set_order (tokenize_text (rd_body raw_doc)))
  end.

(** ** src/executor/registry.rs and src/executor/executor.rs *)

Definition TaskHandlerFn : Type := Queue.Task Value -> proc Site (result unit).

(** The registry that [main] fills. *)
Definition task_registry (self : SocketAddr) : gmap string TaskHandlerFn :=
  {[ "index_document" :=
       fun task => match task with
                   | Queue.Execute _ payload =>
                       payload <~? Done (from_value payload) ;;
                       index_document self payload
                   end ]}.

(** [TaskHandlerRegistry::execute]. *)
Definition execute (r : gmap string TaskHandlerFn) (t : Queue.Task Value)
    : proc Site (result unit) :=
  match t with
  | Queue.Execute handler _ =>
      match r !! handler with
      | Some handler_fn => handler_fn t
      | None => Done (Err (String.append "Unknown task handler: " handler))
      end
  end.

(** [spawn_lease_renewal]; the heartbeat is stopped after so many rounds, if it does not end before. *)
Fixpoint lease_renewal (self : SocketAddr) (task_id : Queue.TaskId) (rounds : nat) : proc Site unit :=
  match rounds with
  | O => Done tt
  | S rounds' =>
      on_tasks (atomic (sleep 10000)) ;;~
      now <~ on_tasks (atomic now_ms) ;;
      r <~ on_tasks (atomic (on_my self (Queue.renew_lease task_id now))) ;;
      match r with
      | Ok _ => lease_renewal self task_id rounds'
      | Err _ => Done tt
      end
  end.

(** [execute_with_lease]. *)
Definition execute_with_lease (self : SocketAddr) (rounds : nat) (task_id : Queue.TaskId)
    (t : Queue.Task Value) : proc Site unit :=
  Fork (lease_renewal self task_id rounds)
    (outcome <~ execute (task_registry self) t ;;
     on_tasks (atomic (on_my self (Queue.complete_task task_id outcome))) ;;~
     Done tt).

(** The [for] loop of [worker_loop]. *)
Fixpoint claim_first (self : SocketAddr) (rounds : nat)
    (tasks : list (Queue.TaskId * Queue.TaskEntry Value)) : proc Site bool :=
  match tasks with
  | [] => Done false
  | (task_id, entry) :: rest =>
      now <~ on_tasks (atomic now_ms) ;;
      r <~ on_tasks (atomic (on_my self (Queue.try_claim_task task_id now))) ;;
      match r with
      | Ok true => execute_with_lease self rounds task_id (Queue.task entry) ;;~ Done true
      | _ => claim_first self rounds rest
      end
  end.

(** One iteration of [worker_loop]. *)
Definition worker_iteration (self : SocketAddr) (rounds : nat) : proc Site unit :=
  q <~ on_tasks (atomic (my self)) ;;
  now <~ on_tasks (atomic now_ms) ;;
  let tasks := Queue.my_pending_tasks now q in
  match tasks with
  | [] => on_tasks (atomic (sleep 100))
  | _ => claimed <~ claim_first self rounds tasks ;;
         if claimed : bool then Done tt else on_tasks (atomic (sleep 50))
  end.

(** ** Views of the cluster

    The components of a node share its membership service, whose loops run beside everything else.
    One of their actions leaves the node with some table of members; which one, ClusterSteps.v says,
    and here it may be any, so that what is shown holds whatever the nodes believe about each other. *)

Definition see (ms : gmap NodeId Node) (pm : PartitionManager) : PartitionManager :=
  mkPartitioner (num_partitions pm) (replication_factor pm) (set_members ms (membership pm)).

Definition see_map {V} (ms : gmap NodeId Node) (m : Storage.DistributedMap string V)
    : Storage.DistributedMap string V :=
  Storage.mkMap (Storage.local_data m) (Storage.processed_ops m) (see ms (Storage.partitioner m))
    (Storage.base_path m).

Definition see_queue {P} (ms : gmap NodeId Node) (qu : Queue.DistributedQueue P)
    : Queue.DistributedQueue P :=
  Queue.mkQueue (Queue.local_tasks qu) (see ms (Queue.partitioner qu)).

Definition see_members (self : SocketAddr) (ms : gmap NodeId Node) : ST Site unit :=
  in_datalake (update self (see_map ms)) ;;;
  in_books (update self (see_map ms)) ;;;
  in_index (update self (see_map ms)) ;;;
  in_tasks (update self (see_queue ms)).

(** ** Anything a node does *)

Inductive Activity :=
  | AIngest (self : SocketAddr) (book_id : text)
  | AStatus (self : SocketAddr) (book_id : text)
  | ASearch (self : SocketAddr) (params : SearchParams)
  | ACreate (self : SocketAddr) (req : CreateBookRequest)
  | AWork (self : SocketAddr) (rounds : nat)
  | AView (self : SocketAddr) (ms : gmap NodeId Node)
  | ADatalake (a : StorageSteps.Activity (K := string) (V := RawDocument))
  | ABooks (a : StorageSteps.Activity (K := string) (V := BookMetadata))
  | AIndex (a : StorageSteps.Activity (K := string) (V := list text))
  | ATasks (a : QueueSteps.Activity (P := Value)).

Inductive Outcome :=
  | Ingested (r : option (Response IngestResponse))
  | Status (r : Response IngestStatusResponse)
  | Answered (r : SearchResponse)
  | Created (r : Response CreateBookResponse)
  | Worked
  | Viewed
  | OnDatalake (r : StorageSteps.Outcome (V := RawDocument))
  | OnBooks (r : StorageSteps.Outcome (V := BookMetadata))
  | OnIndex (r : StorageSteps.Outcome (V := list text))
  | OnTasks (r : QueueSteps.Outcome (P := Value)).

Definition perform (a : Activity) : proc Site Outcome :=
  match a with
  | AIngest self book_id => r <~ handle_ingest_gutenberg self book_id ;; Done (Ingested r)
  | AStatus self book_id => r <~ handle_ingest_status self book_id ;; Done (Status r)
  | ASearch self params => r <~ handle_search self params ;; Done (Answered r)
  | ACreate self req => r <~ handle_create_book self req ;; Done (Created r)
  | AWork self rounds => worker_iteration self rounds ;;~ Done Worked
  | AView self ms => atomic (see_members self ms) ;;~ Done Viewed
  | ADatalake a => r <~ on_datalake (StorageSteps.perform path_segment a) ;; Done (OnDatalake r)
  | ABooks a => r <~ on_books (StorageSteps.perform path_segment a) ;; Done (OnBooks r)
  | AIndex a => r <~ on_index (StorageSteps.perform path_segment a) ;; Done (OnIndex r)
  | ATasks a => r <~ on_tasks (QueueSteps.perform path_segment a) ;; Done (OnTasks r)
  end.

(** The activities of a cluster, none of them begun. *)
Definition start (acts : list Activity) (s : Site) : pool Site Outcome :=
  ((fun a => client (perform a)) <$> acts, s).

(** ** Without interruption *)

(** The same as operations of Ingestion.v, Search.v, Background.v, StorageNet.v, QueueNet.v and
    Sync.v. *)
Definition perform_at_once (a : Activity) : ST Site Outcome :=
  match a with
  | AIngest self book_id =>
      st_bind (Ingestion.handle_ingest_gutenberg path_segment reqwest_get self book_id)
        (fun r => st_ret (Ingested r))
  | AStatus self book_id =>
      st_bind (Ingestion.handle_ingest_status path_segment self book_id) (fun r => st_ret (Status r))
  | ASearch self params =>
      st_bind (Search.handle_search path_segment hash_order self params) (fun r => st_ret (Answered r))
  | ACreate self req =>
      st_bind (Search.handle_create_book self req) (fun r => st_ret (Created r))
  | AWork self _ =>
      st_bind (Background.worker_iteration (Background.executor_new self
                 (Background.task_registry path_segment set_order self) 1))
        (fun _ => st_ret Worked)
  | AView self ms => st_bind (see_members self ms) (fun _ => st_ret Viewed)
  | ADatalake a =>
      st_bind (in_datalake (StorageSteps.perform_at_once path_segment a)) (fun r => st_ret (OnDatalake r))
  | ABooks a =>
      st_bind (in_books (StorageSteps.perform_at_once path_segment a)) (fun r => st_ret (OnBooks r))
  | AIndex a =>
      st_bind (in_index (StorageSteps.perform_at_once path_segment a)) (fun r => st_ret (OnIndex r))
  | ATasks a =>
      st_bind (in_tasks (QueueSteps.perform_at_once path_segment a)) (fun r => st_ret (OnTasks r))
  end.

Lemma run_put_eq {V} `{!Storage.Serde V} self k (v : V) w :
  run (StorageSteps.put self k v) w = StorageNet.put self k v w.
Proof.
  apply (run_bind_eq (atomic new_v4) new_v4); [apply run_atomic|]. intros op w1.
  apply StorageSteps.run_put_with_op_eq.
Qed.

Lemma run_get_on_index self k s :
  run (on_index (StorageSteps.get path_segment self k)) s = in_index (StorageNet.get path_segment self k) s.
Proof. apply run_on_index. intros w. apply StorageSteps.run_get_eq. Qed.
Lemma run_get_on_books self k s :
  run (on_books (StorageSteps.get path_segment self k)) s = in_books (StorageNet.get path_segment self k) s.
Proof. apply run_on_books. intros w. apply StorageSteps.run_get_eq. Qed.
Lemma run_get_on_datalake self k s :
  run (on_datalake (StorageSteps.get path_segment self k)) s =
    in_datalake (StorageNet.get path_segment self k) s.
Proof. apply run_on_datalake. intros w. apply StorageSteps.run_get_eq. Qed.
Lemma run_submit_on_tasks self t s :
  run (on_tasks (QueueSteps.submit self t)) s = in_tasks (QueueNet.submit self t) s.
Proof. apply run_on_tasks. intros w. apply QueueSteps.run_submit. Qed.
Lemma run_atomic_on_tasks {A} (f : ST Queues A) s : run (on_tasks (atomic f)) s = in_tasks f s.
Proof. apply run_on_tasks. intros w. apply run_atomic. Qed.

Lemma run_search self query s :
  run (search self query) s = Search.search path_segment hash_order self query s.
Proof.
  apply run_bind_eq.
  { generalize (tokenize_query query) as l, (∅ : gmap text nat) as m. intros l. revert s.
    induction l as [|t l IH]; intros s m; [done|]. apply run_bind_eq; [apply run_get_on_index|].
    intros r s1. apply IH. }
  intros scores s1. apply run_bind_eq; [|done]. generalize (hash_order scores) as l. intros l.
  revert s1. induction l as [|[b n] l IH]; intros s1; [done|].
  apply run_bind_eq; [apply run_get_on_books|]. intros r s2. by apply run_bind_eq; [apply IH|].
Qed.

Lemma run_create_book self req s :
  run (handle_create_book self req) s = Search.handle_create_book self req s.
Proof.
  apply run_bind_eq; [apply run_on_books; intros; apply run_atomic|]. intros id s1.
  apply run_bind_eq; [apply run_on_books; intros; apply run_put_eq|]. intros [u|e] s2; [|done].
  apply run_bind_eq; [apply run_submit_on_tasks|done].
Qed.

Lemma run_wait n s : run (wait n) s = (tt, s).
Proof. revert s. induction n as [|n IH]; intros s; [done|apply IH]. Qed.

Lemma run_download url s : run (download url) s = (fetch_gutenberg_text reqwest_get url, s).
Proof. unfold download. rewrite run_bind. unfold st_bind. by rewrite run_wait. Qed.

Lemma run_ingest self book_id s :
  run (handle_ingest_gutenberg self book_id) s =
    Ingestion.handle_ingest_gutenberg path_segment reqwest_get self book_id s.
Proof.
  apply run_bind_eq; [apply run_get_on_datalake|]. intros [d|] s1; [done|].
  rewrite run_bind. unfold st_bind at 1. rewrite run_download.
  destruct (fetch_gutenberg_text _ _) as [t|e]; [|done].
  destruct (split_gutenberg_text t) as [[[h b]|]|]; [|done..].
  destruct (compute_counts b) as [n u].
  apply run_bind_eq; [apply run_on_datalake; intros; apply run_put_eq|]. intros [x|e] s2; [|done].
  apply run_bind_eq; [apply run_on_books; intros; apply run_put_eq|]. intros r s3.
  apply run_bind_eq; [apply run_submit_on_tasks|done].
Qed.

Lemma run_index_document self payload s :
  run (index_document self payload) s = Indexing.index_document path_segment set_order self payload s.
Proof.
  apply run_bind_eq; [apply run_get_on_datalake|]. intros [d|] s1; [|done].
  apply run_each_try. intros token s2.
  unfold index_token, Indexing.index_token, Indexing.get_postings, Indexing.put_postings.
  rewrite run_bind. unfold st_bind. rewrite run_get_on_index.
  destruct (in_index _ s2) as [l s3]. apply run_on_index. intros w. apply run_put_eq.
Qed.

Lemma run_execute self t s :
  run (execute (task_registry self) t) s =
    Executor.execute_task (Background.task_registry path_segment set_order self) t s.
Proof.
  destruct t as [handler payload]. unfold execute, task_registry, Executor.execute_task,
    Executor.execute, Background.task_registry, Executor.register, Executor.registry_new,
    Executor.TaskHandlerRegistry.
  destruct (decide (handler = "index_document"%string)) as [->|Hne].
  - rewrite lookup_singleton_eq, lookup_insert_eq. destruct payload; [apply run_index_document|done].
  - by rewrite lookup_singleton_ne, lookup_insert_ne, lookup_empty.
Qed.

Lemma run_worker self n s :
  run (worker_iteration self 0) s =
    Background.worker_iteration (Background.executor_new self
      (Background.task_registry path_segment set_order self) n) s.
Proof.
  apply run_bind_eq; [apply run_atomic_on_tasks|]. intros q s1.
  apply run_bind_eq; [apply run_atomic_on_tasks|]. intros now s2. cbv zeta.
  destruct (Queue.my_pending_tasks now q) as [|e l] eqn:El; [apply run_atomic_on_tasks|].
  apply run_bind_eq; [|intros [] s3; [done|apply run_atomic_on_tasks]].
  generalize (e :: l) as ts. clear. intros ts. revert s2.
  induction ts as [|[i e] ts IH]; intros s; [done|].
  apply run_bind_eq; [apply run_atomic_on_tasks|]. intros now s1.
  apply run_bind_eq; [apply run_atomic_on_tasks|]. intros [[]|err] s2; [|apply IH..].
  apply run_bind_eq; [|done]. apply (run_bind_eq (execute _ _)); [apply run_execute|]. intros o s3.
  apply run_bind_eq; [apply run_atomic_on_tasks|done].
Qed.

(** A worker whose task takes less than ten seconds. *)
Definition brief (a : Activity) : Prop := match a with AWork _ rounds => rounds = O | _ => True end.

(** The handlers are the processes without interruption.  Ingestions, searches, new books, status
    requests, the workers and whatever a node does with one of the maps or with the queue: when no
    other task interrupts it, each has, action by action and whatever the network does, the result and
    the effect of the operation that the other files define in one go (for a worker: when its task
    takes less time than the first renewal of the lease). *)
Lemma uninterrupted_request a s : brief a -> run (perform a) s = perform_at_once a s.
Proof.
  intros Hb. destruct a as [self b|self b|self params|self req|self rounds|self ms|a|a|a|a];
    cbn [perform perform_at_once].
  - apply run_bind_eq; [apply run_ingest|done].
  - apply run_bind_eq; [|done]. apply run_bind_eq; [apply run_get_on_datalake|done].
  - apply run_bind_eq; [|done]. apply run_bind_eq; [apply run_search|done].
  - apply run_bind_eq; [apply run_create_book|done].
  - simpl in Hb. subst rounds. apply run_bind_eq; [apply run_worker|done].
  - apply run_bind_eq; [apply run_atomic|done].
  - apply run_bind_eq; [apply run_on_datalake; intros; apply StorageSteps.uninterrupted_activity|done].
  - apply run_bind_eq; [apply run_on_books; intros; apply StorageSteps.uninterrupted_activity|done].
  - apply run_bind_eq; [apply run_on_index; intros; apply StorageSteps.uninterrupted_activity|done].
  - apply run_bind_eq; [apply run_on_tasks; intros; apply QueueSteps.uninterrupted_queue_activity|done].
Qed.

(** Every request ends.  Take any number of ingestions, searches, new books, iterations of
    workers, reads, writes, submissions and anti-entropy passes, on any nodes, over any network.
    However far they have got, interleaved action by action with each other and with the handlers that
    clients leave behind when they give up, no run goes on for ever; and either something can go on, or
    every one of the activities has come back with a result. *)
Lemma requests_end acts s c :
  rtc pool_step (start acts s) c ->
  sn pool_step c /\
  ((exists c', pool_step c c') \/ forall i a, acts !! i = Some a -> exists r, ended c i r).
Proof.
  intros Hrtc. split; [apply pool_ends|].
  destruct (goes_on c) as [Hgo|Hq]; [by left|right]. intros i a Ha.
  apply (clients_answered (perform <$> acts) s c); [|done|].
  - unfold start in Hrtc. by rewrite (list_fmap_compose perform client) in Hrtc.
  - rewrite length_fmap. by eapply lookup_lt_Some.
Qed.
End site.
