(* ===== verification/SiteRaces.v ===== *)
(** * The site under concurrency

    Any number of requests, workers and anti-entropy passes of any nodes, interleaved action by action
    over networks that lose requests and replies, while the nodes change their views of the cluster in
    any way.  What a search answers is real ([hits_are_real]): whatever posting lists it reads while
    workers rewrite them and replicas disagree, every result is the metadata of a book that somebody
    registered, with as many points as there are tokens of the query under which the book was posted
    because its stored text contains them.  Nothing that is stored is lost ([nothing_is_lost]); but
    what is stored may be out of reach ([Failover]). *)

From S2P Require Import Prelude Membership Partitioner Net Topology Process Parts.
From stdpp Require Import relations.
From S2P Require Import Text Documents Search Ingestion.
From S2P Require Storage StorageNet StorageSteps StorageRaces Queue QueueNet QueueSteps QueueRaces.
From S2P Require NetSteps Indexing Sync.
From S2P Require Import SiteSteps.

#[local] Open Scope Z_scope.
#[local] Open Scope proc_scope.

#[local] Existing Instances Storage.string_key Storage.string_key_laws
  StorageNet.DistributedMap_hosted Queue.DistributedQueue_hosted Queue.TaskId_eq_dec
  Queue.TaskId_countable StorageRaces.anything_preorder QueueRaces.advances_preorder Sync.map_syncable Sync.map_sync_laws Sync.queue_syncable Sync.queue_sync_laws.

#[local] Abbreviation Shards V := (World (Storage.DistributedMap string V)).
#[local] Abbreviation Queues := (World (Queue.DistributedQueue Value)).

(** ** One more token *)

Lemma lookup_bump bs b b' :
  bump bs b !! b' = if decide (b' = b) then Some (S (default O (bs !! b))) else bs !! b'.
Proof.
  unfold bump. case_decide as Hb; [subst; apply lookup_insert_eq|by apply lookup_insert_ne].
Qed.

(** A list without duplicates gives each of its books one point. *)
Lemma lookup_bumps l bs b : NoDup l ->
  foldl bump bs l !! b = if decide (b ∈ l) then Some (S (default O (bs !! b))) else bs !! b.
Proof.
  intros Hnd. revert bs. induction Hnd as [|x l Hx _ IH]; intros bs; [done|]. cbn [foldl].
  rewrite IH, lookup_bump. repeat case_decide; set_solver.
Qed.

Section site.
Context `{Unicode, Regexes}.
Context `{!Storage.Serde (list text), !Storage.SerdeLaws (list text),
          !Storage.Serde RawDocument, !Storage.SerdeLaws RawDocument,
          !Storage.Serde BookMetadata, !Storage.SerdeLaws BookMetadata}.
Context (path_segment : string -> option string) (reqwest_get : text -> result (Z * result text)).
Context (download_polls : text -> nat).
Context (hash_order : gmap text nat -> list (text * nat)) (set_order : gset text -> list text).

(** ** Where data comes from *)

#[local] Abbreviation perform := (perform path_segment reqwest_get download_polls hash_order set_order).
#[local] Abbreviation start := (start path_segment reqwest_get download_polls hash_order set_order).

(** The node an activity runs on. *)
Definition place (a : Activity) : SocketAddr :=
  match a with
  | AIngest self _ | AStatus self _ | ASearch self _ | ACreate self _ | AWork self _ | AView self _ => self
  | ADatalake a => StorageRaces.place a
  | ABooks a => StorageRaces.place a
  | AIndex a => StorageRaces.place a
  | ATasks a => QueueRaces.place a
  end.

(** A node with all its components. *)
Record up (s : Site) (self : SocketAddr) : Prop := {
  up_datalake : is_Some (nodes (datalake s) !! self);
  up_books : is_Some (nodes (books s) !! self);
  up_index : is_Some (nodes (index_map s) !! self);
  up_tasks : is_Some (nodes (tasks s) !! self);
}.

(** The keys under which a value may be found that is asked for under [k]: [k] itself and, where
    another node is asked, what the HTTP stack makes of it as a path segment. *)
#[local] Abbreviation read_as := (StorageRaces.read_as (K := string) path_segment).

(** What a download of a book gives. *)
Definition downloaded (book_id header body : text) : Prop :=
  exists t, fetch_gutenberg_text reqwest_get (source_url book_id) = Ok t /\
            split_gutenberg_text t = Some (Some (header, body)).

Section sources.
Context (acts : list Activity) (s0 : Site).

(** [k] holds the text [d]: it was ingested, or a client wrote it, or it was there. *)
Definition documented (k : string) (d : RawDocument) : Prop :=
  (exists self b header body, AIngest self b ∈ acts /\ k = utf8 b /\ downloaded b header body /\
     d = mkRaw b header body (source_url b)) \/
  (exists a, ADatalake a ∈ acts /\ StorageRaces.writes a k d) \/
  StorageRaces.held (datalake s0) k d.

(** [k] holds the metadata [m]: of an ingested book, of one created by hand, or as above. *)
Definition registered (k : string) (m : BookMetadata) : Prop :=
  (exists self b header body, AIngest self b ∈ acts /\ k = utf8 b /\ downloaded b header body /\
     m = (let '(n, u) := compute_counts body in parse_metadata header b n u)) \/
  (exists self req id, ACreate self req ∈ acts /\ (id ∈ uuids (env (books s0)) \/ id = ""%string) /\
     k = utf8 (ascii_text id) /\
     m = mkBook (ascii_text id) (cb_title req) (cb_author req) (cb_language req) (cb_year req) 0 0) \/
  (exists a, ABooks a ∈ acts /\ StorageRaces.writes a k m) \/
  StorageRaces.held (books s0) k m.

(** The book [b] belongs under the word [k]: the text that is found under its id has that word, or a
    client has put it there, or it was there before.  A worker that adds a book to the list of a word
    keeps what it reads, in doubt the list of what the HTTP stack makes of the word. *)
Inductive posted : string -> text -> Prop :=
  | posted_word b token k d :
      read_as (utf8 b) k -> documented k d -> token ∈ tokenize_text (rd_body d) -> posted (utf8 token) b
  | posted_client a k l b : AIndex a ∈ acts -> StorageRaces.writes a k l -> b ∈ l -> posted k b
  | posted_before k l b : StorageRaces.held (index_map s0) k l -> b ∈ l -> posted k b
  | posted_again token k d k' b :
      documented k d -> token ∈ tokenize_text (rd_body d) -> read_as (utf8 token) k' -> posted k' b ->
      posted (utf8 token) b.

(** Where words arrive as they were sent, lists are not mixed. *)
Lemma posted_plain k b :
  (forall token k' d k'', documented k' d -> token ∈ tokenize_text (rd_body d) ->
     read_as (utf8 token) k'' -> k'' = utf8 token) ->
  posted k b ->
  (exists token k' d, k = utf8 token /\ read_as (utf8 b) k' /\ documented k' d /\
     token ∈ tokenize_text (rd_body d)) \/
  (exists a l, AIndex a ∈ acts /\ StorageRaces.writes a k l /\ b ∈ l) \/
  (exists l, StorageRaces.held (index_map s0) k l /\ b ∈ l).
Proof.
  intros Hw Hp. induction Hp as [b token k d Hb Hd Ht|a k l b Ha Hl Hb|k l b Hl Hb|token k d k' b Hd Ht Hk _ IH].
  - left. eauto 10.
  - right. left. eauto.
  - right. right. eauto.
  - by rewrite <- (Hw token k d k' Hd Ht Hk).
Qed.

(** Whether clients keep to lists without duplicates, as the workers do. *)
Context (tidy : Prop).

(** A posting list. *)
Definition listed (k : string) (l : list text) : Prop :=
  (tidy -> NoDup l) /\ forall b, b ∈ l -> posted k b.

(** A result: the metadata of the book, and a point for each of some tokens of the query. *)
Definition real (query : text) (b : text) (r : BookMetadata * nat) : Prop :=
  (exists k, read_as (utf8 b) k /\ registered k r.1) /\
  exists hits, hits `sublist_of` tokenize_query query /\ length hits = r.2 /\ hits <> [] /\
    forall t, t ∈ hits -> exists k, read_as (utf8 t) k /\ posted k b.

(** An answer to a search. *)
Definition answered (params : SearchParams) (r : SearchResponse) : Prop :=
  exists results, r = page params results /\ descending results /\
    (tidy -> exists ids, NoDup ids /\ Forall2 (real (q params)) ids results).

(** ** What may happen to a site *)

Definition any_task (_ : Queue.TaskId) (_ : Queue.Task Value) : Prop := True.

Record later (s s' : Site) : Prop := {
  la_datalake : StorageRaces.anything False documented (datalake s) (datalake s');
  la_books : StorageRaces.anything False registered (books s) (books s');
  la_index : StorageRaces.anything False listed (index_map s) (index_map s');
  la_tasks : QueueRaces.advances False any_task (tasks s) (tasks s');
}.

#[export] Instance later_preorder : PreOrder later.
Proof. split; [intros s; split; reflexivity|]. intros s1 s2 s3 [] []. split; by etrans. Qed.

#[local] Abbreviation R := later.
#[local] Abbreviation same := (fun s1 s2 (H : R s1 s2) => H).
#[local] Abbreviation yields p P := (yields R R p P s0).
#[local] Abbreviation safe p := (safe R R p s0).

(** From a component to the site. *)
Lemma yields_on_datalake {A} (p : proc _ A) P :
  Process.yields (StorageRaces.anything False documented) (StorageRaces.anything False documented) p P (datalake s0) ->
  yields (on_datalake p) P.
Proof.
  apply (@yields_lift _ _ datalake_part datalake_laws R R (StorageRaces.anything False documented) (StorageRaces.anything False documented) (la_datalake)).
  intros s w Hw. split; simpl; done || reflexivity.
Qed.
Lemma yields_on_books {A} (p : proc _ A) P :
  Process.yields (StorageRaces.anything False registered) (StorageRaces.anything False registered) p P (books s0) ->
  yields (on_books p) P.
Proof.
  apply (@yields_lift _ _ books_part books_laws R R (StorageRaces.anything False registered) (StorageRaces.anything False registered) (la_books)).
  intros s w Hw. split; simpl; done || reflexivity.
Qed.
Lemma yields_on_index {A} (p : proc _ A) P :
  Process.yields (StorageRaces.anything False listed) (StorageRaces.anything False listed) p P (index_map s0) ->
  yields (on_index p) P.
Proof.
  apply (@yields_lift _ _ index_part index_laws R R (StorageRaces.anything False listed) (StorageRaces.anything False listed) (la_index)).
  intros s w Hw. split; simpl; done || reflexivity.
Qed.
Lemma yields_on_tasks {A} (p : proc _ A) P :
  Process.yields (QueueRaces.advances False any_task) (QueueRaces.advances False any_task) p P (tasks s0) ->
  yields (on_tasks p) P.
Proof.
  apply (@yields_lift _ _ tasks_part tasks_laws R R (QueueRaces.advances False any_task) (QueueRaces.advances False any_task) (la_tasks)).
  intros s w Hw. split; simpl; done || reflexivity.
Qed.

(** ** Reads and writes *)

(** The posting lists that are there at the beginning, and those that clients write. *)
Hypothesis Hlists : forall k l, tidy -> StorageRaces.held (index_map s0) k l -> NoDup l.
Hypothesis Hclients : forall a k l, tidy -> AIndex a ∈ acts -> StorageRaces.writes a k l -> NoDup l.
Hypothesis Hset : forall X, set_order X ≡ₚ elements X.
Hypothesis Hhash : forall m, hash_order m ≡ₚ map_to_list m.

Lemma documented_held a m p k d : nodes (datalake s0) !! a = Some m ->
  Storage.lookup_in p k m = Some d -> documented k d.
Proof. intros Hm Hd. right. right. by exists a, m, p. Qed.
Lemma registered_held a m p k d : nodes (books s0) !! a = Some m ->
  Storage.lookup_in p k m = Some d -> registered k d.
Proof. intros Hm Hd. right. right. right. by exists a, m, p. Qed.
Lemma listed_held a m p k l : nodes (index_map s0) !! a = Some m ->
  Storage.lookup_in p k m = Some l -> listed k l.
Proof.
  intros Hm Hl. assert (StorageRaces.held (index_map s0) k l) as Hh by (by exists a, m, p).
  split; [intros Ht; by apply (Hlists k)|]. intros b Hb. by apply (posted_before k l).
Qed.

#[local] Abbreviation none := (fun (_ : SocketAddr) (_ : string) => False).

Lemma yields_get_document self k : up s0 self ->
  yields (on_datalake (StorageSteps.get path_segment self k)) (StorageRaces.is_vouched path_segment documented k).
Proof.
  intros Hup. apply yields_on_datalake.
  exact (StorageRaces.yields_get path_segment False documented none _ documented (fun _ _ H => H) documented_held k self
    (up_datalake _ _ Hup)).
Qed.
Lemma yields_get_book self k : up s0 self ->
  yields (on_books (StorageSteps.get path_segment self k)) (StorageRaces.is_vouched path_segment registered k).
Proof.
  intros Hup. apply yields_on_books.
  exact (StorageRaces.yields_get path_segment False registered none _ registered (fun _ _ H => H) registered_held k self
    (up_books _ _ Hup)).
Qed.
Lemma yields_get_list self k : up s0 self ->
  yields (on_index (StorageSteps.get path_segment self k)) (StorageRaces.is_vouched path_segment listed k).
Proof.
  intros Hup. apply yields_on_index.
  exact (StorageRaces.yields_get path_segment False listed none _ listed (fun _ _ H => H) listed_held k self
    (up_index _ _ Hup)).
Qed.

Lemma safe_put_document self k d : up s0 self -> documented k d ->
  safe (on_datalake (StorageSteps.put self k d)).
Proof.
  intros Hup Hd. apply yields_on_datalake.
  apply (StorageRaces.safe_put False documented none); [done|apply (up_datalake _ _ Hup)|done].
Qed.
Lemma safe_put_book self k m : up s0 self -> registered k m ->
  safe (on_books (StorageSteps.put self k m)).
Proof.
  intros Hup Hd. apply yields_on_books.
  apply (StorageRaces.safe_put False registered none); [done|apply (up_books _ _ Hup)|done].
Qed.
Lemma safe_put_list self k l : up s0 self -> listed k l ->
  safe (on_index (StorageSteps.put self k l)).
Proof.
  intros Hup Hd. apply yields_on_index.
  apply (StorageRaces.safe_put False listed none); [done|apply (up_index _ _ Hup)|done].
Qed.

(** ** Searches *)

(** The scores of the books after the tokens [done]. *)
Definition justified (tokens : list text) (book_scores : gmap text nat) : Prop :=
  tidy -> forall b n, book_scores !! b = Some n ->
  exists hits, hits `sublist_of` tokens /\ length hits = n /\ hits <> [] /\
    forall t, t ∈ hits -> exists k, read_as (utf8 t) k /\ posted k b.

Lemma justified_token tokens bs t k l :
  justified tokens bs -> read_as (utf8 t) k -> listed k l -> justified (tokens ++ [t]) (foldl bump bs l).
Proof.
  intros Hj Hk [Hnd Hl] Htidy b n. specialize (Hj Htidy). rewrite lookup_bumps by auto. case_decide as Hb.
  - intros [= <-]. destruct (bs !! b) as [n|] eqn:E; simpl.
    + destruct (Hj b n E) as (hits & Hs & Hlen & _ & Hall). exists (hits ++ [t]). split_and!.
      * by apply sublist_app.
      * rewrite length_app. simpl. lia.
      * by destruct hits.
      * intros t' [Ht| ->%list_elem_of_singleton]%elem_of_app; [by apply Hall|]. exists k. auto.
    + exists [t]. split_and!; [by apply sublist_inserts_l|done..|].
      intros t' ->%list_elem_of_singleton. exists k. auto.
  - intros E. destruct (Hj b n E) as (hits & Hs & Hrest). exists hits. split; [|done].
    by apply sublist_inserts_r.
Qed.

Lemma yields_score_tokens self tokens : forall before bs, up s0 self -> justified before bs ->
  yields (score_tokens path_segment self tokens bs) (justified (before ++ tokens)).
Proof.
  induction tokens as [|t tokens IH]; intros before bs Hup Hj; cbn [score_tokens].
  { apply yields_done. by rewrite app_nil_r. }
  eapply (yields_bind R R same); [by apply yields_get_list|]. intros o Ho.
  rewrite cons_middle, app_assoc. apply IH; [done|].
  destruct o as [l|]; [destruct (Ho l eq_refl) as (k & Hk & Hl); by apply (justified_token _ _ _ k)|].
  intros Htidy b n E. destruct (Hj Htidy b n E) as (hits & Hs & Hrest). exists hits. split; [|done].
  by apply sublist_inserts_r.
Qed.

Definition hydrated_from (scored : list (text * nat)) (results : list (BookMetadata * nat)) : Prop :=
  exists found, found `sublist_of` scored /\
    Forall2 (fun bn r => (exists k, read_as (utf8 bn.1) k /\ registered k r.1) /\ r.2 = bn.2) found results.

Lemma yields_hydrate self scored : up s0 self ->
  yields (hydrate path_segment self scored) (hydrated_from scored).
Proof.
  intros Hup. induction scored as [|[b n] scored IH]; cbn [hydrate].
  { apply yields_done. by exists []. }
  eapply (yields_bind R R same); [by apply yields_get_book|]. intros o Ho.
  eapply (yields_bind R R same); [exact IH|]. intros results (found & Hs & Hf).
  apply yields_done. destruct o as [m|].
  - exists ((b, n) :: found). split; [by apply sublist_skip|]. constructor; [|done]. auto.
  - exists found. split; [by apply sublist_cons|done].
Qed.

Lemma justified_real query bs found results :
  tidy -> justified (tokenize_query query) bs -> found `sublist_of` hash_order bs ->
  Forall2 (fun bn r => (exists k, read_as (utf8 bn.1) k /\ registered k r.1) /\ r.2 = bn.2) found results ->
  NoDup found.*1 /\ Forall2 (real query) found.*1 results.
Proof.
  intros Htidy Hj Hs Hf. assert (forall b n, (b, n) ∈ found -> bs !! b = Some n) as Hin.
  { intros b n Hin. apply elem_of_map_to_list. rewrite <- Hhash. by eapply elem_of_sublist. }
  split.
  - eapply sublist_NoDup; [|by apply fmap_sublist]. rewrite Hhash. apply NoDup_fst_map_to_list.
  - clear Hs. induction Hf as [|[b n] r found results [Hr Hn] Hf IH]; [constructor|].
    constructor; [|apply IH; intros b' n' Hb'; apply Hin; by right].
    split; [done|]. simpl in *. rewrite Hn. apply (Hj Htidy b n), Hin. left.
Qed.

Lemma yields_search self query : up s0 self ->
  yields (search path_segment hash_order self query) (fun results => descending results /\
    (tidy -> exists ids, NoDup ids /\ Forall2 (real query) ids results)).
Proof.
  intros Hup. eapply (yields_bind R R same).
  { apply (yields_score_tokens self _ []); [done|]. intros _ b n. by rewrite lookup_empty. }
  intros bs Hj. eapply (yields_bind R R same); [by apply yields_hydrate|].
  intros results (found & Hs & Hf). apply yields_done.
  split; [apply sort_by_score_descending|]. intros Htidy.
  destruct (justified_real query bs found results Htidy Hj Hs Hf) as [Hnd Hreal].
  apply Forall2_flip in Hreal.
  destruct (Permutation_Forall2 (Permutation_sym (sort_by_score_perm results)) Hreal) as (ids & Hp & Hids).
  exists ids. split; [by rewrite <- Hp|]. by apply Forall2_flip.
Qed.

(** ** The queue *)

Section queue.
#[local] Abbreviation Q := (QueueRaces.advances (P := Value) False any_task).
#[local] Abbreviation Qsame := (fun w1 w2 (H : Q w1 w2) => H).
#[local] Abbreviation Qsafe p := (Process.safe Q Q p (tasks s0)).

Lemma tasks_known a qu : nodes (tasks s0) !! a = Some qu -> QueueRaces.holds_known any_task qu.
Proof. done. Qed.

Lemma safe_on_queue {A} self (f : Queue.DistributedQueue Value -> A * _) :
  up s0 self -> (forall qu, QueueRaces.advanced False any_task qu (f qu).2) ->
  safe (on_tasks (atomic (on_my self f))).
Proof. intros Hup Hf. apply yields_on_tasks, QueueRaces.safe_on_my; [apply (up_tasks _ _ Hup)|done]. Qed.

(** Reading a table or the clock, and sleeping. *)
Lemma safe_env {A} (f : ST Queues A) :
  (forall w, NetSteps.env_step w (f w).2) -> safe (on_tasks (atomic f)).
Proof.
  intros Hf. apply yields_on_tasks, (NetSteps.yields_env Q Q); [done|apply QueueRaces.advances_env|done].
Qed.

Lemma task_id_new_env (w : Queues) : NetSteps.env_step w (QueueNet.task_id_new w).2.
Proof.
  unfold QueueNet.task_id_new, st_bind. pose proof (NetSteps.new_v4_env w) as He.
  by destruct (new_v4 w).
Qed.

Lemma safe_submit self t : is_Some (nodes (tasks s0) !! self) -> Qsafe (QueueSteps.submit self t).
Proof.
  intros Hup. apply (safe_bind Q Q Qsame).
  - apply (yields_safe Q Q Qsame _ (fun _ => True)), (NetSteps.yields_env Q Q);
      [done|apply QueueRaces.advances_env|apply task_id_new_env].
  - intros i. by apply QueueRaces.safe_submit_as.
Qed.

Lemma safe_submit_task self t : up s0 self -> safe (on_tasks (QueueSteps.submit self t)).
Proof. intros Hup. apply yields_on_tasks, safe_submit, (up_tasks _ _ Hup). Qed.

Lemma safe_tasks_activity a : is_Some (nodes (tasks s0) !! QueueRaces.place a) ->
  Qsafe (QueueSteps.perform path_segment a).
Proof.
  intros Hup. destruct a as [self t|self t i|self i now|self i now|self i o|self i|self order];
    simpl in Hup; cbn [QueueSteps.perform]; (apply (safe_bind Q Q Qsame); [|intros r; by apply yields_done]).
  - by apply safe_submit.
  - by apply QueueRaces.safe_submit_as.
  - apply QueueRaces.safe_on_my; [done|]. intros qu. apply QueueRaces.advanced_claim.
  - apply QueueRaces.safe_on_my; [done|]. intros qu. apply QueueRaces.advanced_renew.
  - apply QueueRaces.safe_on_my; [done|]. intros qu. apply QueueRaces.advanced_complete.
  - eapply (yields_safe Q Q Qsame), QueueRaces.yields_get_task; [apply tasks_known|done].
  - by apply (QueueRaces.safe_sync_queue False any_task (tasks s0) tasks_known).
Qed.

(** ** Requests and workers *)

Lemma safe_create_book self req : up s0 self -> ACreate self req ∈ acts -> safe (handle_create_book self req).
Proof.
  intros Hup Ha. eapply (yields_bind R R same) with
    (P := fun id => id ∈ uuids (env (books s0)) \/ id = ""%string).
  { apply yields_on_books, yields_atomic; [apply _|done|]. intros w [Hn [pre Hu]].
    split; [apply StorageRaces.evolves_env, NetSteps.new_v4_env|]. unfold new_v4.
    destruct (uuids (env w)) as [|u us]; [by right|left]. simpl. rewrite Hu. set_solver. }
  intros id Hid. cbv zeta. apply (safe_bind R R same).
  - apply safe_put_book; [done|]. right. left. by exists self, req, id.
  - intros [u|e]; [|by apply yields_done]. apply (safe_bind R R same); [by apply safe_submit_task|].
    intros r. by apply yields_done.
Qed.

(** A node changes its mind about the others. *)
Lemma grew_see {V} (src : string -> V -> Prop) F ms m :
  StorageRaces.grew False src F m (see_map ms m).
Proof. split; [done|done|by left|done]. Qed.

Lemma advanced_see ms qu : QueueRaces.advanced False any_task qu (see_queue ms qu).
Proof.
  split; [done|done| |done]. split; [done|]. intros p i e He. exists e. by split.
Qed.

Lemma update_later {V} (src : string -> V -> Prop) self ms w w' :
  StorageRaces.anything False src w w' -> is_Some (nodes w !! self) ->
  StorageRaces.anything False src w' (update self (see_map ms) w').2.
Proof.
  intros Hr Hup. apply (StorageRaces.update_evolves False src none w); [done|done|]. intros m. apply grew_see.
Qed.

Lemma safe_view self ms : up s0 self -> safe (atomic (see_members self ms)).
Proof.
  intros [Hd Hb Hi Ht]. apply (yields_atomic R R same). intros s [Rd Rb Ri Rt]. split; [|done].
  pose proof (update_later documented self ms _ _ Rd Hd).
  pose proof (update_later registered self ms _ _ Rb Hb).
  pose proof (update_later listed self ms _ _ Ri Hi).
  pose proof (QueueRaces.update_advances False any_task (tasks s0) self (see_queue ms) _ Rt Ht (advanced_see ms)).
  unfold see_members, in_datalake, in_books, in_index, in_tasks, st_bind.
  destruct s as [d b ix q']. simpl in *.
  destruct (update self (see_map ms) d), (update self (see_map ms) b), (update self (see_map ms) ix),
    (update self (see_queue ms) q'). by split.
Qed.

(** What the response to an ingestion says. *)
Definition ingestion_says (b : text) (r : option (Response IngestResponse)) : Prop :=
  exists resp, r = Some resp /\ ir_book_id (body resp) = b /\
    (ir_status (body resp) = "already_exists"%string -> exists k d, read_as (utf8 b) k /\ documented k d) /\
    (ir_status (body resp) = "ingested"%string -> exists header body, downloaded b header body).

(** The others make of the time of a download what they may. *)
Lemma yields_wait n : yields (wait n) (fun _ => True).
Proof.
  induction n as [|n IH]; [by apply yields_done|]. apply (yields_act R R same).
  intros s1 Hs1. split; [reflexivity|exact IH].
Qed.

Lemma yields_download url (P : result text -> Prop) :
  P (fetch_gutenberg_text reqwest_get url) -> yields (download reqwest_get download_polls url) P.
Proof. intros HP. eapply (yields_bind R R same); [apply yields_wait|]. intros _ _. by apply yields_done. Qed.

Lemma yields_ingest self b : up s0 self -> AIngest self b ∈ acts ->
  yields (handle_ingest_gutenberg path_segment reqwest_get download_polls self b) (ingestion_says b).
Proof.
  intros Hup Ha. eapply (yields_bind R R same); [by apply yields_get_document|].
  intros [d|] Hdoc; [apply yields_done; eexists; split_and!; [done..|intros _; destruct (Hdoc d eq_refl) as (k & Hk & Hd); by exists k, d|done]|].
  eapply (yields_bind R R same); [by apply (yields_download _ (fun r => r = fetch_gutenberg_text reqwest_get (source_url b)))|].
  intros ? ->.
  destruct (fetch_gutenberg_text _ _) as [t|e] eqn:Ef; [|apply yields_done; by eexists].
  destruct (split_gutenberg_cases t) as (parts & Es & _). rewrite Es.
  destruct parts as [[h body]|]; [|apply yields_done; by eexists].
  assert (downloaded b h body) as Hd by (by exists t).
  destruct (compute_counts body) as [n u] eqn:Ec.
  eapply (yields_bind R R same); [apply safe_put_document; [done|]; left; by exists self, b, h, body|].
  intros [x|e] _; [|apply yields_done; by eexists].
  eapply (yields_bind R R same).
  { apply safe_put_book; [done|]. left. exists self, b, h, body. by rewrite Ec. }
  intros r _. eapply (yields_bind R R same); [by apply safe_submit_task|]. intros r' _.
  apply yields_done. eexists. split_and!; [done..|]. intros _. by exists h, body.
Qed.

Lemma yields_status self b : up s0 self ->
  yields (handle_ingest_status path_segment self b)
    (fun r => is_status (body r) = "available"%string ->
       exists k d, read_as (utf8 b) k /\ documented k d).
Proof.
  intros Hup. eapply (yields_bind R R same); [by apply yields_get_document|]. intros [d|] Hd;
    apply yields_done; [|done]. intros _. destruct (Hd d eq_refl) as (k & Hk & Hdoc). by exists k, d.
Qed.

Lemma listed_add k b l : listed k l -> posted k b -> listed k (Indexing.add_posting b l).
Proof.
  intros [Hnd Hl] Hb. split.
  - intros Ht. unfold Indexing.add_posting. case_decide; [by apply Hnd|]. apply NoDup_app.
    split_and!; [by apply Hnd|set_solver|apply NoDup_singleton].
  - intros b' [->|Hb']%Indexing.elem_of_add_posting; [done|by apply Hl].
Qed.

Lemma safe_index_document self payload : up s0 self ->
  safe (index_document path_segment set_order self payload).
Proof.
  intros Hup. eapply (yields_bind R R same); [by apply yields_get_document|].
  intros [d|] Hd; [|by apply yields_done]. destruct (Hd d eq_refl) as (k & Hk & Hdoc).
  apply (safe_each_try R R same). intros token Ht.
  rewrite Hset in Ht. apply elem_of_elements in Ht.
  eapply (yields_bind R R same); [by apply yields_get_list|]. intros o Ho.
  apply safe_put_list; [done|]. apply listed_add.
  - destruct o as [l|]; [|split; [intros _; apply NoDup_nil_2|by intros b Hb%elem_of_nil]].
    destruct (Ho l eq_refl) as (k' & Hk' & Hnd & Hl). split; [done|]. intros b Hb.
    by apply (posted_again token k d k'); [..|by apply Hl].
  - by apply (posted_word _ token k d).
Qed.

Lemma safe_execute self t : up s0 self ->
  safe (execute (task_registry path_segment set_order self) t).
Proof.
  intros Hup. destruct t as [handler payload]. unfold execute, task_registry.
  destruct ({[ _ := _ ]} !! handler) as [f|] eqn:Ef; [|by apply yields_done].
  apply lookup_singleton_Some in Ef as [_ <-].
  destruct payload; [by apply safe_index_document|by apply yields_done].
Qed.

Lemma safe_read_tasks {A} (f : Queues -> A) : safe (on_tasks (atomic (st_get f))).
Proof. apply safe_env. intros w. apply NetSteps.id_env. Qed.

Lemma safe_lease_renewal self i rounds : up s0 self -> safe (lease_renewal self i rounds).
Proof.
  intros Hup. induction rounds as [|n IH]; cbn [lease_renewal]; [by apply yields_done|].
  apply (safe_bind R R same); [apply safe_env, NetSteps.sleep_env|]. intros _.
  apply (safe_bind R R same); [apply safe_read_tasks|]. intros now.
  apply (safe_bind R R same); [apply safe_on_queue; [done|]; intros; apply QueueRaces.advanced_renew|].
  intros [u|err]; [exact IH|by apply yields_done].
Qed.

Lemma safe_execute_with_lease self rounds i t : up s0 self ->
  safe (execute_with_lease path_segment set_order self rounds i t).
Proof.
  intros Hup. unfold execute_with_lease. apply (yields_fork R R); [by apply safe_lease_renewal|].
  apply (safe_bind R R same); [by apply safe_execute|]. intros o.
  apply (safe_bind R R same); [|intros r; by apply yields_done].
  apply safe_on_queue; [done|]. intros; apply QueueRaces.advanced_complete.
Qed.

Lemma safe_worker self rounds : up s0 self ->
  safe (worker_iteration path_segment set_order self rounds).
Proof.
  intros Hup. apply (safe_bind R R same); [apply safe_read_tasks|]. intros qu.
  apply (safe_bind R R same); [apply safe_read_tasks|]. intros now. cbv zeta.
  destruct (Queue.my_pending_tasks now qu) as [|x ts]; [apply safe_env, NetSteps.sleep_env|].
  apply (safe_bind R R same);
    [|intros []; [by apply yields_done|apply safe_env, NetSteps.sleep_env]].
  generalize (x :: ts) as l. clear ts x. intros l. induction l as [|[i e] l IH]; [by apply yields_done|].
  cbn [claim_first]. apply (safe_bind R R same); [apply safe_read_tasks|]. intros now'.
  apply (safe_bind R R same); [apply safe_on_queue; [done|]; intros; apply QueueRaces.advanced_claim|].
  intros [[]|err]; [|exact IH..].
  apply (safe_bind R R same); [by apply safe_execute_with_lease|]. intros _. by apply yields_done.
Qed.

(** What the outcome [o] of an activity says. *)
Definition truthful (a : Activity) (o : Outcome) : Prop :=
  match a, o with
  | ASearch _ params, Answered r => answered params r
  | AStatus _ b, Status r =>
      is_status (body r) = "available"%string -> exists k d, read_as (utf8 b) k /\ documented k d
  | AIngest _ b, Ingested r => ingestion_says b r
  | ADatalake (StorageSteps.AGet _ k), OnDatalake (StorageSteps.Read r) => StorageRaces.is_vouched path_segment documented k r
  | ABooks (StorageSteps.AGet _ k), OnBooks (StorageSteps.Read r) => StorageRaces.is_vouched path_segment registered k r
  | AIndex (StorageSteps.AGet _ k), OnIndex (StorageSteps.Read r) => StorageRaces.is_vouched path_segment listed k r
  | _, _ => True
  end.

Lemma yields_outcome {A} (p : proc Site A) (P : A -> Prop) c a :
  yields p P -> (forall x, P x -> truthful a (c x)) -> yields (bind p (fun x => Done (c x))) (truthful a).
Proof.
  intros Hp Hc. eapply (yields_bind R R same); [exact Hp|]. intros x Hx. apply yields_done. by apply Hc.
Qed.

Lemma yields_activity a : a ∈ acts -> up s0 (place a) -> yields (perform a) (truthful a).
Proof.
  intros Ha Hup. destruct a as [self b|self b|self params|self req|self rounds|self ms|a|a|a|a]; simpl in Hup.
  - eapply yields_outcome; [by apply (yields_ingest self b)|done].
  - eapply yields_outcome; [by apply (yields_status self b)|done].
  - apply (yields_outcome _ (answered params)); [|done].
    eapply (yields_bind R R same); [by apply yields_search|]. intros results [Hd Hr].
    apply yields_done. by exists results.
  - apply (yields_outcome _ (fun _ => True)); [by apply safe_create_book|done].
  - apply (yields_outcome _ (fun _ => True)); [by apply safe_worker|done].
  - apply (yields_outcome _ (fun _ => True)); [by apply safe_view|done].
  - eapply yields_outcome.
    { apply yields_on_datalake, (StorageRaces.yields_perform path_segment False documented documented none);
        [done|done|apply documented_held|apply (up_datalake _ _ Hup)|auto| |auto].
      intros k d Hw. right. left. by exists a. }
    intros o Ho. destruct a; try done. destruct (Ho _ _ eq_refl) as (r & -> & Hr). exact Hr.
  - eapply yields_outcome.
    { apply yields_on_books, (StorageRaces.yields_perform path_segment False registered registered none);
        [done|done|apply registered_held|apply (up_books _ _ Hup)|auto| |auto].
      intros k m Hw. right. right. left. by exists a. }
    intros o Ho. destruct a; try done. destruct (Ho _ _ eq_refl) as (r & -> & Hr). exact Hr.
  - eapply yields_outcome.
    { apply yields_on_index, (StorageRaces.yields_perform path_segment False listed listed none);
        [done|done|apply listed_held|apply (up_index _ _ Hup)|auto| |auto].
      intros k l Hw. split; [intros Ht; by apply (Hclients a k)|]. intros b Hb. by apply (posted_client a k l). }
    intros o Ho. destruct a; try done. destruct (Ho _ _ eq_refl) as (r & -> & Hr). exact Hr.
  - apply (yields_outcome _ (fun _ => True)); [|done]. apply yields_on_tasks.
    apply safe_tasks_activity, (up_tasks _ _ Hup).
Qed.
End queue.
End sources.

Lemma start_request acts s i p : (start acts s).1 !! i = Some p ->
  exists a, acts !! i = Some a /\ p = client (perform a).
Proof. intros Hi. apply list_lookup_fmap_Some in Hi as (a & -> & Ha). eauto. Qed.

(** Activities on nodes that are up. *)
Definition placed (acts : list Activity) (s : Site) : Prop := Forall (fun a => up s (place a)) acts.

(** The posting lists that are there and those that clients write have no duplicates. *)
Record tidy_lists (acts : list Activity) (s : Site) : Prop := {
  tl_clients a k l : AIndex a ∈ acts -> StorageRaces.writes a k l -> NoDup l;
  tl_lists k l : StorageRaces.held (index_map s) k l -> NoDup l;
}.

(** What holds of a shard and of a table from one moment to a later one. *)
Definition shard_keeps {V} (source : string -> V -> Prop) (w w' : Shards V) : Prop :=
  forall a m p k v, nodes w !! a = Some m -> Storage.lookup_in p k m = Some v ->
  exists m' v', nodes w' !! a = Some m' /\ Storage.lookup_in p k m' = Some v' /\ (v' = v \/ source k v').

Definition table_keeps (w w' : Queues) : Prop :=
  forall a qu p i e, nodes w !! a = Some qu -> Queue.lookup_task p i qu = Some e ->
  exists qu' e', nodes w' !! a = Some qu' /\ Queue.lookup_task p i qu' = Some e' /\
    Queue.task e' = Queue.task e /\ Queue.created_at e' = Queue.created_at e /\
    (Queue.rank (Queue.task_status e) <= Queue.rank (Queue.task_status e'))%nat /\
    (Queue.task_status e' = Queue.Running -> Queue.lease_expires e' = None ->
     Queue.task_status e = Queue.Running /\ Queue.lease_expires e = None).

Lemma anything_keeps {V} (source : string -> V -> Prop) w w' :
  StorageRaces.anything False source w w' -> shard_keeps source w w'.
Proof.
  intros Hr a m p k v Hm Hv. destruct (StorageRaces.evolves_lookup _ _ _ _ _ _ _ Hr Hm) as (m' & Hm' & Hg).
  exists m'. destruct (StorageRaces.gr_lookup _ _ _ _ _ Hg p k) as [E|(v' & E & Hs)].
  - exists v. rewrite E. auto.
  - exists v'. auto.
Qed.

Lemma advances_keep w w' : QueueRaces.advances False any_task w w' -> table_keeps w w'.
Proof.
  intros Hr a qu p i e Hq He.
  destruct (QueueRaces.advances_lookup False any_task w w' a qu Hr Hq) as (qu' & Hq' & Had).
  destruct (QueueRaces.ad_grows _ _ _ _ Had) as [_ Hg]. destruct (Hg p i e He) as (e' & He' & []).
  by exists qu', e'.
Qed.

Section runs.
Hypothesis Hset : forall X, set_order X ≡ₚ elements X.
Hypothesis Hhash : forall m, hash_order m ≡ₚ map_to_list m.
(** What is to be shown of the end of process [j]; [tidy] where lists are. *)
Definition aim acts s tidy (j : nat) : option Outcome -> Site -> Prop :=
  match acts !! j with
  | Some a => fun o _ => exists x, o = Some x /\ truthful acts s tidy a x
  | None => fun _ _ => True
  end.

Lemma aim_beyond acts s tidy j : (length acts <= j)%nat -> aim acts s tidy j = fun _ _ => True.
Proof. intros Hj. unfold aim. by rewrite lookup_ge_None_2. Qed.

Lemma start_site_wp acts s (tidy : Prop) : placed acts s -> (tidy -> tidy_lists acts s) ->
  all_wp (later acts s tidy) (length acts) (aim acts s tidy) (start acts s).
Proof.
  intros Hup Hl.
  assert (forall k l, tidy -> StorageRaces.held (index_map s) k l -> NoDup l) as Hlists
    by (intros k l Ht; apply Hl, Ht).
  assert (forall a k l, tidy -> AIndex a ∈ acts -> StorageRaces.writes a k l -> NoDup l) as Hclients
    by (intros a k l Ht; apply Hl, Ht).
  split; [simpl; by rewrite length_fmap|].
  intros j p (b & Hb & ->)%start_request. unfold aim. rewrite Hb.
  eapply (wp_then (later acts s tidy) (later acts s tidy)); [done| |].
  - apply (yields_activity acts s tidy Hlists Hclients Hset Hhash b).
    + by apply list_elem_of_lookup_2 in Hb.
    + unfold placed in Hup. rewrite Forall_forall in Hup. apply Hup. by apply list_elem_of_lookup_2 in Hb.
  - intros x s1 _ Hx s2 _. by exists x.
Qed.

(** Whatever the interleaving, what has ended says what is true. *)
Lemma site_sound acts s (tidy : Prop) c' i a o :
  placed acts s -> (tidy -> tidy_lists acts s) -> rtc pool_step (start acts s) c' ->
  acts !! i = Some a -> ended c' i o -> truthful acts s tidy a o.
Proof.
  intros Hup Hl Hrtc Hi He.
  pose proof (pool_sound (later acts s tidy) (length acts) (aim acts s tidy) (aim_beyond acts s tidy) _ _ i o
    (start_site_wp acts s tidy Hup Hl) Hrtc He) as HQ.
  unfold aim in HQ. rewrite Hi in HQ. by destruct HQ as (x & [= <-] & Hx).
Qed.

(** From any moment of a run to a later one. *)
Lemma moments_later acts s c c' :
  placed acts s -> rtc pool_step (start acts s) c -> rtc pool_step c c' -> later acts s False c.2 c'.2.
Proof.
  intros Hup Hc Hc'.
  pose proof (start_site_wp acts s False Hup (fun H : False => match H with end)) as Hstart.
  destruct (all_wp_steps _ _ _ (aim_beyond acts s False) _ _ Hstart Hc) as [_ Hall].
  by destruct (all_wp_steps _ _ _ (aim_beyond acts s False) _ _ Hall Hc') as [Hl _].
Qed.

(** C26: nothing is lost.  From any moment of such a run to any later one, whatever the nodes come to
    believe about each other, no shard of any of the three maps loses a key: it holds the same value
    or one that belongs there (a text or metadata that an activity writes under the key or that was
    somewhere at the beginning; a list of books that were posted under the word); and no table loses
    a task, payloads and creation times stay, statuses do not go back, and no task gets into
    [Running] without a lease. *)
Theorem nothing_is_lost acts s c c' :
  placed acts s -> rtc pool_step (start acts s) c -> rtc pool_step c c' ->
  shard_keeps (documented acts s) (datalake c.2) (datalake c'.2) /\
  shard_keeps (registered acts s) (books c.2) (books c'.2) /\
  shard_keeps (fun k l => forall b, b ∈ l -> posted acts s k b) (index_map c.2) (index_map c'.2) /\
  table_keeps (tasks c.2) (tasks c'.2).
Proof.
  intros Hup Hc Hc'. destruct (moments_later acts s c c' Hup Hc Hc') as [Hd Hb Hi Ht].
  split_and!; [by apply anything_keeps|by apply anything_keeps| |by apply advances_keep].
  apply anything_keeps in Hi. intros a m p k l Hm Hl. destruct (Hi a m p k l Hm Hl) as (m' & l' & Hm' & Hl' & Hd').
  exists m', l'. split_and!; [done..|]. destruct Hd' as [?|[_ Hp]]; auto.
Qed.

(** C2: what a search answers is real.  Ingestions, new books, searches, workers with their
    heartbeats, client reads and writes of texts and metadata, submissions of any tasks and
    anti-entropy of all four components run on any nodes, interleaved action by action, over networks
    that lose requests and replies, and every node may come to take any nodes for members, alive or
    dead, at any time.  The posting lists that clients write or that were there have no
    duplicates.  A search that has been answered was answered with a page of a ranking, by descending score, of
    distinct books.  Each result is the metadata of a book that was ingested, created or written under
    that id, or was there at the beginning; its score, which is positive, is the number of some tokens
    of the query under each of which the book was posted: the text under its id has that word, or a
    client put it into that list, or it was there at the beginning.  Where a value is fetched from
    another node, what was asked for is what the HTTP stack makes of the id or token ([read_as]). *)
Theorem hits_are_real acts s c' i self params r :
  placed acts s -> tidy_lists acts s -> rtc pool_step (start acts s) c' ->
  acts !! i = Some (ASearch self params) -> ended c' i (Answered r) ->
  exists ids results, r = page params results /\ descending results /\ NoDup ids /\
    Forall2 (fun b '(metadata, score) =>
      (exists k, read_as (utf8 b) k /\ registered acts s k metadata) /\
      exists hits, hits `sublist_of` tokenize_query (q params) /\ length hits = score /\ hits <> [] /\
        forall t, t ∈ hits -> exists k, read_as (utf8 t) k /\ posted acts s k b) ids results.
Proof.
  intros Hup Hl Hrtc Hi He.
  destruct (site_sound acts s True c' i _ _ Hup (fun _ => Hl) Hrtc Hi He) as (results & Hr & Hd & Hids).
  destruct (Hids I) as (ids & Hnd & Hf). exists ids, results. split_and!; [done..|]. eapply Forall2_impl; [exact Hf|].
  intros b [m n] Hb. exact Hb.
Qed.

(** C13: what ingestion says is true.  In such runs no ingestion panics; whoever is told that a book
    already exists or is available is right, a text under its id, or under what the HTTP stack makes
    of the id when another node is asked ([read_as]), was ingested, written by a client or was there
    at the beginning; and a book that is reported as ingested was downloaded and had both markers. *)
Theorem ingestion_is_truthful acts s c' i a self b :
  placed acts s -> rtc pool_step (start acts s) c' ->
  acts !! i = Some a ->
  (forall r, a = AIngest self b -> ended c' i (Ingested r) ->
     exists resp, r = Some resp /\ ir_book_id (body resp) = b /\
       (ir_status (body resp) = "already_exists"%string -> exists k d, read_as (utf8 b) k /\ documented acts s k d) /\
       (ir_status (body resp) = "ingested"%string -> exists header text, downloaded b header text)) /\
  (forall r, a = AStatus self b -> ended c' i (Status r) ->
     is_status (body r) = "available"%string ->
     exists k d, read_as (utf8 b) k /\ documented acts s k d).
Proof.
  intros Hup Hrtc Hi. split; intros r -> He;
    exact (site_sound acts s False c' i _ _ Hup (fun H : False => match H with end) Hrtc Hi He).
Qed.
End runs.
End site.

(** ** A schedule

    [a] ingests a book; while a worker indexes its words, [c] is searched for two of them. *)
Module Example.
Import Text.Ascii StorageSpec.Example Ingestion.Example.
#[local] Existing Instances Storage.countable_serde Storage.countable_serde_laws.

Definition order (X : gset text) : list text := elements X.
(** How long a download takes. *)
Definition patience (_ : text) : nat := 2.
Definition forwards (m : gmap text nat) : list (text * nat) := map_to_list m.

Definition rabbit : SearchParams := mkParams (ascii_text "Rabbit, hole?") None None.
Definition site : Site := mkSite
  (empty_world "/datalake" (env_with "u1")) (empty_world "/books" (env_with "u2"))
  (empty_world "/index" (mkEnv [] [] ["i1"; "i2"; "i3"; "i4"] 0))
  (mkWorld (example_nodes ["a"; "b"; "c"] jobs) (env_with "t3")).

Definition acts : list Activity :=
  [AIngest (on "a") (ascii_text "11"); AWork (on "b") 1; ASearch (on "c") rabbit; AView (on "a") ∅].

#[local] Abbreviation plain := (fun s : string => Some s).

(** The worker has indexed one of the words when the search runs; [a] has lost sight of the others. *)
Definition turns : list nat :=
  repeat 0%nat 49 ++ [3%nat] ++ repeat 1%nat 20 ++ repeat 2%nat 100 ++ repeat 1%nat 100.
Definition ran : pool Site Outcome :=
  schedule turns (start plain download patience forwards order acts site).

Definition answer (i : nat) (c : pool Site Outcome) : option SearchResponse :=
  match c.1 !! i with Some (Done (Some (Answered r))) => Some r | _ => None end.

Lemma answer_ended i c r : answer i c = Some r -> ended c i (Answered r).
Proof.
  unfold answer, ended. destruct (c.1 !! i) as [[[o|]| |]|]; try done. destruct o; try done. by intros [= ->].
Qed.

Definition ingestion (i : nat) (c : pool Site Outcome) : option (Response IngestResponse) :=
  match c.1 !! i with Some (Done (Some (Ingested (Some r)))) => Some r | _ => None end.

Lemma ingestion_ended i c r : ingestion i c = Some r -> ended c i (Ingested (Some r)).
Proof.
  unfold ingestion, ended. destruct (c.1 !! i) as [[[o|]| |]|]; try done.
  destruct o as [o| | | | | | | | |]; try done. destruct o; [by intros [= ->]|done].
Qed.

Lemma site_up x : x ∈ ["a"; "b"; "c"] -> up site (on x).
Proof.
  intros Hx. split; simpl; (eexists; apply example_nodes_lookup; [apply nodup_abc|done]).
Qed.

Lemma acts_up : placed acts site.
Proof.
  repeat apply Forall_cons_2; [| | | |apply Forall_nil_2]; apply site_up; apply (bool_decide_unpack _);
    vm_compute; exact I.
Qed.

Lemma no_lists k l : StorageRaces.held (index_map site) k l -> NoDup l.
Proof.
  intros (a & m & p & (x & _ & _ & ->)%example_nodes_inv & Hl). unfold Storage.lookup_in in Hl.
  simpl in Hl. by rewrite lookup_empty in Hl.
Qed.

Lemma no_index_clients a k l : AIndex a ∈ acts -> StorageRaces.writes a k l -> NoDup l.
Proof.
  intros Ha. exfalso. repeat (apply elem_of_cons in Ha as [Ha|Ha]; [discriminate|]). by apply elem_of_nil in Ha.
Qed.

Lemma acts_tidy : tidy_lists acts site.
Proof. split; [exact no_index_clients|exact no_lists]. Qed.

(** In the middle of it all. *)
Lemma example_ends :
  let c := schedule (take 77 turns) (start plain download patience forwards order acts site) in
  answer 2 c = None /\ sn pool_step c /\
  ((exists c', pool_step c c') \/ forall i a, acts !! i = Some a -> exists r, ended c i r).
Proof.
  intros c. split; [vm_compute; reflexivity|].
  exact (requests_end plain download patience forwards order acts site c (schedule_steps _ _)).
Defined.

(** The result is the ingested book, with one point although its text has both words. *)
Lemma hits_are_real_witness :
  exists r, ended ran 2 (Answered r) /\ item_score <$> sr_results r = [1%nat] /\
    exists ids results, r = page rabbit results /\ descending results /\ NoDup ids /\
      Forall2 (fun b '(metadata, score) =>
        (exists k, StorageRaces.read_as plain (utf8 b) k /\ registered download acts site k metadata) /\
        exists hits, hits `sublist_of` tokenize_query (q rabbit) /\ length hits = score /\ hits <> [] /\
          forall t, t ∈ hits -> exists k, StorageRaces.read_as plain (utf8 t) k /\
            posted plain download acts site k b) ids results.
Proof.
  assert ((fun r => item_score <$> sr_results r) <$> answer 2 ran = Some [1%nat]) as Hs
    by (vm_compute; reflexivity).
  destruct (answer 2 ran) as [r|] eqn:Hr; [|discriminate]. injection Hs as Hs.
  apply answer_ended in Hr. exists r. split; [exact Hr|]. split; [exact Hs|].
  exact (hits_are_real plain download patience forwards order (fun X => Permutation_refl _)
    (fun m => Permutation_refl _) acts site ran 2 (on "c") rabbit r
    acts_up acts_tidy (schedule_steps _ _) eq_refl Hr).
Defined.

(** Between the moment at which the text is stored and the end. *)
Lemma nothing_is_lost_witness :
  let c := schedule (take 49 turns) (start plain download patience forwards order acts site) in
  let p := get_partition (pm "a") "11" in
  exists d m' d', (nodes (datalake c.2) !! on "b" ≫= Storage.lookup_in p "11") = Some d /\
    nodes (datalake (schedule (drop 49 turns) c).2) !! on "b" = Some m' /\
    Storage.lookup_in p "11" m' = Some d'.
Proof.
  intros c p.
  assert (is_Some (nodes (datalake c.2) !! on "b" ≫= Storage.lookup_in p "11")) as [d Hd]
    by (apply (bool_decide_unpack _); vm_compute; exact I).
  destruct (nothing_is_lost plain download patience forwards order
    (fun X => Permutation_refl _) (fun m => Permutation_refl _) acts site c (schedule (drop 49 turns) c)
    acts_up (schedule_steps _ _) (schedule_steps _ _)) as [Hk _].
  pose proof Hd as (m & Hm & Hl)%bind_Some.
  destruct (Hk (on "b") m p "11" d Hm Hl) as (m' & d' & Hm' & Hd' & _).
  exists d, m', d'. split; [exact Hd|]. split; [exact Hm'|exact Hd'].
Defined.

(** The book has been ingested when the search is answered. *)
Lemma ingestion_is_truthful_witness :
  exists resp, ended ran 0 (Ingested (Some resp)) /\ ir_status (body resp) = "ingested"%string /\
    exists header text, downloaded download (ascii_text "11") header text.
Proof.
  assert ((ir_status ∘ body) <$> ingestion 0 ran = Some "ingested"%string) as Hs
    by (vm_compute; reflexivity).
  destruct (ingestion 0 ran) as [resp|] eqn:Hr; [|discriminate]. injection Hs as Hs.
  apply ingestion_ended in Hr. exists resp. split; [exact Hr|]. split; [exact Hs|].
  destruct (ingestion_is_truthful plain download patience forwards order
    (fun X => Permutation_refl _) (fun m => Permutation_refl _) acts site ran 0 _ (on "a")
    (ascii_text "11") acts_up (schedule_steps _ _) eq_refl) as [Hi _].
  destruct (Hi _ eq_refl Hr) as (resp' & E & _ & _ & Hd). injection E as <-. exact (Hd Hs).
Defined.
End Example.

(** ** A suspicion

    Four nodes with two copies of everything.  The metadata of a book is written; then [b], [c] and
    [d] come to suspect [a], and [c] and [d] have a pass of anti-entropy. *)
Module Failover.
Import Text.Ascii StorageSpec.Example Ingestion.Example.
#[local] Existing Instances Storage.countable_serde Storage.countable_serde_laws.

Definition names : list string := ["a"; "b"; "c"; "d"].
Definition quiet_with (ids : list string) : Env := mkEnv [] [] ids 0.
Definition shards {V} (base : string) (ids : list string) : Shards V :=
  mkWorld (example_nodes names (fun x => Storage.new_with_base (example_pm names 2 x) base)) (quiet_with ids).
Definition site : Site := mkSite (shards "/datalake" []) (shards "/books" ["op1"]) (shards "/index" [])
  (mkWorld (example_nodes names (fun x => Queue.queue_new (example_pm names 2 x))) (quiet_with [])).

(** The members with [a] under suspicion. *)
Definition without_a : gmap NodeId Node :=
  members (example_view [("a", Suspect); ("b", Alive); ("c", Alive); ("d", Alive)] "b").

Definition dracula : BookMetadata := Search.Example.book "345" "Dracula".
Definition part_345 : Z := get_partition (example_pm names 2 "b") "345".

Definition acts : list Activity :=
  [ABooks (StorageSteps.APutFresh (on "a") "345" dracula);
   AView (on "b") without_a; AView (on "c") without_a; AView (on "d") without_a;
   ABooks (StorageSteps.ASync (on "c") [part_345]); ABooks (StorageSteps.ASync (on "d") [part_345]);
   ABooks (StorageSteps.AGet (on "c") "345"); ABooks (StorageSteps.AGet (on "d") "345")].

(** One after the other. *)
Definition after : pool Site Outcome :=
  schedule (concat ((fun i => repeat i 40) <$> seq 0 8))
    (start (fun s : string => Some s) (fun _ => Err ""%string) (fun _ => O) map_to_list elements acts site).

Definition copy_of (x : string) (c : pool Site Outcome) : option BookMetadata :=
  nodes (books c.2) !! on x ≫= Storage.lookup_in part_345 "345".
Definition book_outcome (i : nat) (c : pool Site Outcome) : option (StorageSteps.Outcome (V := BookMetadata)) :=
  match c.1 !! i with Some (Done (Some (OnBooks r))) => Some r | _ => None end.

Lemma book_outcome_ended i c r : book_outcome i c = Some r -> ended c i (OnBooks r).
Proof.
  unfold book_outcome, ended. destruct (c.1 !! i) as [[[o|]| |]|]; try done. destruct o; try done.
  by intros [= ->].
Qed.

(** C25: a suspicion hides acknowledged data.  A write is acknowledged and both copies, at [a] and
    [b], are there.  When the others suspect [a], which stays up, the partition has the owners [c] and
    [d], although [b] is as alive as ever: reads at [c] and at [d] find nothing, and anti-entropy at
    both, without any fault, does not bring the value back, because it asks the new owners only. *)
Theorem suspicion_hides_data :
  rtc pool_step (start (fun s : string => Some s) (fun _ => Err ""%string) (fun _ => O) map_to_list elements acts site)
    after /\
  quiescent after /\
  ended after 0 (OnBooks (StorageSteps.Wrote (Ok tt))) /\
  ended after 4 (OnBooks (StorageSteps.Wrote (Ok tt))) /\
  ended after 5 (OnBooks (StorageSteps.Wrote (Ok tt))) /\
  ended after 6 (OnBooks (StorageSteps.Read None)) /\ ended after 7 (OnBooks (StorageSteps.Read None)) /\
  copy_of "a" after = Some dracula /\ copy_of "b" after = Some dracula.
Proof.
  split; [unfold after; apply schedule_steps|].
  split; [apply all_done_quiescent; vm_compute; reflexivity|].
  split_and!; try (apply book_outcome_ended); vm_compute; reflexivity.
Qed.
End Failover.
