(* ===== verification/WaitFree.v ===== *)
(** * How long a request takes

    A request comes back after so many actions of its own, whatever the other tasks do meanwhile: no
    loop of a handler waits for anybody else.  [costs p P n w]: from [w] on, [p] ends within [n] of its
    own actions, with a result that satisfies [P], provided that everybody keeps within [R].  The
    bounds depend only on the replication factor ([requests_are_wait_free]). *)

From S2P Require Import Prelude Membership Partitioner Net Topology Process Parts.
From stdpp Require Import relations.
From S2P Require Import Text Documents Search Ingestion.
From S2P Require Storage StorageNet StorageSteps StorageRaces Queue QueueNet QueueSteps QueueRaces.
From S2P Require NetSteps Sync.
From S2P Require Import SiteSteps SiteRaces.

#[local] Open Scope Z_scope.
#[local] Open Scope proc_scope.

#[local] Existing Instances Storage.string_key Storage.string_key_laws
  StorageNet.DistributedMap_hosted Queue.DistributedQueue_hosted Queue.TaskId_eq_dec
  Queue.TaskId_countable StorageRaces.anything_preorder QueueRaces.advances_preorder.

(** ** The cost of a process *)

Section costs.
Context {W : Type} (R : relation W) `{!PreOrder R}.

Fixpoint costs {A : Type} (p : proc W A) (P : A -> Prop) (n : nat) (w : W) : Prop :=
  forall w', R w w' ->
  match p, n with
  | Done a, _ => P a
  | Act f k, S n' => R w' (f w').2 -> costs (k (f w').1) P n' (f w').2
  | Fork _ p', S n' => costs p' P n' w'
  | _, O => False
  end.

(** Whatever the result. *)
Definition within {A : Type} (p : proc W A) (n : nat) (w : W) : Prop := costs p (fun _ => True) n w.

Lemma costs_interfere {A : Type} (p : proc W A) P n w w' : R w w' -> costs p P n w -> costs p P n w'.
Proof.
  intros Hr Hp. destruct p; intros w2 Hr2; specialize (Hp w2 ltac:(by etrans)); exact Hp.
Qed.

Lemma costs_mono {A : Type} (p : proc W A) (P P' : A -> Prop) n m w :
  (forall a, P a -> P' a) -> (n <= m)%nat -> costs p P n w -> costs p P' m w.
Proof.
  intros HP. revert n m w. induction p as [A a|A B f k IH|A q _ p IH]; intros n m w Hn Hp w' Hr;
    specialize (Hp w' Hr).
  - by apply HP.
  - destruct n as [|n], m as [|m]; [done|done|lia|]. intros Hs. apply (IH _ P P' HP n); [lia|by apply Hp].
  - destruct n as [|n], m as [|m]; [done|done|lia|]. apply (IH P P' HP n); [lia|done].
Qed.

Lemma costs_done {A : Type} (a : A) (P : A -> Prop) n w : P a -> costs (Done a) P n w.
Proof. by intros HP w' _. Qed.

Lemma costs_bind {A B : Type} (p : proc W A) (k : A -> proc W B) P P' n c w :
  costs p P n w -> (n <= c)%nat -> (forall a, P a -> costs (k a) P' (c - n) w) ->
  costs (bind p k) P' c w.
Proof.
  intros Hp Hn Hk. revert n c w Hp Hn Hk.
  induction p as [A a|A X f p IH|A q _ p IH]; intros n c w Hp Hn Hk; cbn [bind].
  - eapply (costs_mono _ P'); [done| |by apply Hk, (Hp w)]. lia.
  - intros w' Hr. specialize (Hp w' Hr). destruct n as [|n]; [done|]. destruct c as [|c]; [lia|].
    intros Hs. apply (IH _ k P n); [by apply Hp|lia|]. intros a Ha.
    apply (costs_interfere _ _ _ w); [by etrans|]. by apply Hk.
  - intros w' Hr. specialize (Hp w' Hr). destruct n as [|n]; [done|]. destruct c as [|c]; [lia|].
    apply (IH k P n); [done|lia|]. intros a Ha. apply (costs_interfere _ _ _ w); [done|]. by apply Hk.
Qed.

Lemma costs_atomic {A : Type} (f : ST W A) (P : A -> Prop) w :
  (forall w', R w w' -> P (f w').1) -> costs (atomic f) P 1 w.
Proof. intros Hf w' Hr Hs. apply costs_done. by apply Hf. Qed.

Lemma within_atomic {A : Type} (f : ST W A) w : within (atomic f) 1 w.
Proof. by apply costs_atomic. Qed.

(** One action, and the rest. *)
Lemma costs_act {A B : Type} (f : ST W A) (k : A -> proc W B) P' c w :
  (1 <= c)%nat -> (forall a, costs (k a) P' (c - 1) w) -> costs (bind (atomic f) k) P' c w.
Proof. intros Hc Hk. eapply costs_bind; [apply within_atomic|done|]. intros a _. apply Hk. Qed.

Lemma within_then {A B : Type} (p : proc W A) (k : A -> proc W B) P' n c w :
  within p n w -> (n <= c)%nat -> (forall a, costs (k a) P' (c - n) w) -> costs (bind p k) P' c w.
Proof. intros Hp Hn Hk. eapply costs_bind; [exact Hp|done|]. intros a _. apply Hk. Qed.

(** The [?] operator ends early or goes on. *)
Lemma within_try {A B : Type} (p : proc W (result A)) (k : A -> proc W (result B)) n c w :
  within p n w -> (n <= c)%nat -> (forall a, within (k a) (c - n) w) -> within (bind_ok p k) c w.
Proof.
  intros Hp Hn Hk. apply (within_then _ _ _ n); [done|done|]. intros [a|e]; [apply Hk|by apply costs_done].
Qed.

Lemma within_mono {A : Type} (p : proc W A) n m w : (n <= m)%nat -> within p n w -> within p m w.
Proof. by apply costs_mono. Qed.

Lemma within_each_try {X : Type} (f : X -> proc W (result unit)) l n w :
  (forall x, within (f x) n w) -> within (each_try f l) (length l * n) w.
Proof.
  intros Hf. induction l as [|x l IH]; cbn [each_try length]; [by apply costs_done|].
  apply (within_try _ _ n); [done|lia|]. intros _. eapply within_mono; [|exact IH]. lia.
Qed.

(** *** In a pool *)

Context {A : Type} (m : nat) (Q : nat -> option A -> W -> Prop).
Hypothesis Hrest : forall i, (m <= i)%nat -> Q i = fun _ _ => True.

Lemma costs_client (p : proc W A) n w : within p n w ->
  costs (client p) (fun o => exists a, o = Some a) n w.
Proof. intros Hp. eapply within_then; [exact Hp|done|]. intros a. apply costs_done. by exists a. Qed.

(** After so many turns of its own, no matter how many the others had in between and what they did
    with them, the process has ended. *)
Lemma costs_ends turns (c : pool W A) i p P n :
  all_wp R m Q c -> c.1 !! i = Some p -> costs p P n c.2 -> (n <= count_occ Nat.eq_dec turns i)%nat ->
  exists o, (schedule turns c).1 !! i = Some (Done o) /\ P o.
Proof.
  revert c p n. induction turns as [|j turns IH]; intros c p n Hall Hi Hp Hn; cbn in Hn.
  { assert (n = O) as -> by lia. pose proof (reflexivity c.2 : R c.2 c.2) as Hr.
    destruct p as [o| |]; [exists o; split; [done|by apply (Hp c.2)]|by destruct (Hp c.2 Hr)..]. }
  cbn [schedule foldl]. fold (schedule turns (default c (step_at j c))).
  destruct (step_at j c) as [c1|] eqn:Es; simpl.
  - destruct (all_wp_step R m Q Hrest c c1 Hall ltac:(by exists j)) as [Hr Hall1].
    apply step_at_inv in Es as (q & q' & ts & w' & Hq & Hs & ->). simpl in Hr.
    destruct (Nat.eq_dec j i) as [->|Hne].
    + rewrite Hi in Hq. injection Hq as <-. pose proof (reflexivity c.2 : R c.2 c.2) as Hr0.
      assert ((<[i:=q']> c.1 ++ (task <$> ts)) !! i = Some q') as Hi'.
      { rewrite lookup_app_l, list_lookup_insert_eq; rewrite ?length_insert; try done; by eapply lookup_lt_Some. }
      destruct p as [o|B f k|q p]; simpl in Hs; [done|specialize (Hp c.2 Hr0)..].
      * destruct n as [|n]; [done|]. destruct (f c.2) as [b w1] eqn:Ef. injection Hs as <- <- <-.
        apply (IH _ (k b) n); [done|done|by apply Hp|lia].
      * destruct n as [|n]; [done|]. injection Hs as <- <- <-. apply (IH _ p n); [done..|lia].
    + apply (IH _ p n); [done| |by eapply costs_interfere|done]. simpl.
      rewrite lookup_app_l by (rewrite length_insert; by eapply lookup_lt_Some).
      by rewrite list_lookup_insert_ne.
  - destruct (Nat.eq_dec j i) as [->|Hne]; [|by apply (IH c p n)].
    unfold step_at in Es. rewrite Hi in Es. destruct p as [o|B f k|q p]; simpl in Es; [|by destruct (f c.2)|done].
    apply (IH c (Done o) 0%nat); [done|done| |lia]. apply costs_done. by apply (Hp c.2).
Qed.
End costs.

(** On a component of a system. *)
Lemma costs_lift {U W A : Type} `{!Part U W, !PartLaws U W} (R : relation U) (R1 : relation W)
    (p : proc W A) P n u :
  (forall u u', R u u' -> R1 (part u) (part u')) ->
  costs R1 p P n (part u) -> costs R (lift p) P n u.
Proof.
  intros HR. revert n u. induction p as [A a|A B f k IH|A q _ p IH]; intros n u Hp u' Hr;
    specialize (Hp (part u') (HR u u' Hr)); cbn [lift].
  - exact Hp.
  - destruct n as [|n]; [done|]. unfold lift_action. destruct (f (part u')) as [b w]. simpl in Hp |- *.
    intros Hs%HR. rewrite part_set in Hs. apply IH. rewrite part_set. by apply Hp.
  - destruct n as [|n]; [done|]. by apply IH.
Qed.

(** Three attempts at a request, with the waits between them, whose handler takes [c] actions. *)
Definition exchange (c : nat) : nat := 3 * (c + 2) + 4.

Section net.
Context {S : Type} (R : relation (World S)) `{!PreOrder R} (w : World S).
Hypothesis Hup : forall w' a, R w w' -> is_Some (nodes w' !! a) -> is_Some (nodes w !! a).

Lemma within_send {Resp : Type} dest (serve : proc (World S) Resp) c :
  (1 <= c)%nat -> (is_Some (nodes w !! dest) -> within R serve c w) ->
  within R (NetSteps.http_send dest serve) (c + 2) w.
Proof.
  intros Hc Hs. apply costs_act; [done|lia|]. intros fate.
  apply (costs_bind R _ _ (fun b : bool => b = true -> is_Some (nodes w !! dest)) _ 1); [|lia|].
  { apply costs_atomic. intros w' Hr. intros Hb%bool_decide_eq_true. by apply (Hup w'). }
  intros up Hu. assert (within R (Done (Err "connection failed") : proc _ (result Resp)) (c + 2 - 1 - 1) w)
    by by apply costs_done.
  destruct fate, up; try done.
  - apply (within_then R _ _ _ c); [by apply Hs, Hu|lia|]. intros r. by apply costs_done.
  - intros w' Hr. replace (c + 2 - 1 - 1)%nat with (Datatypes.S (c - 1)) by lia. by apply costs_done.
Qed.

Lemma within_retry {Resp : Type} (send : proc (World S) (result Resp)) c : 
  within R send c w -> forall n d,
  within R (NetSteps.retry_loop send (Datatypes.S n) d) (Datatypes.S n * c + 2 * n) w.
Proof.
  intros Hs n. induction n as [|n IH]; intros d;
    (eapply within_then; [done|exact Hs|lia|]); (intros [r|e]; [by apply costs_done|]).
  - by apply costs_done.
  - rewrite decide_False by done. apply costs_act; [done|lia|]. intros j.
    apply costs_act; [done|lia|]. intros _. eapply (within_mono R); [|apply IH]. lia.
Qed.

Lemma within_post {Resp : Type} dest (serve : proc (World S) Resp) c :
  (1 <= c)%nat -> (is_Some (nodes w !! dest) -> within R serve c w) ->
  within R (NetSteps.post_with_retry dest serve 3) (exchange c) w.
Proof.
  intros Hc Hs. eapply (within_mono R); [|apply (within_retry _ (c + 2)); by apply within_send].
  unfold exchange. lia.
Qed.
End net.

(** ** The distributed map *)

(** How many copies of an entry a node makes. *)
Definition copies {S : Type} `{Hosted S} (s : S) : nat := replication_factor (host s).
Definition few_copies {S : Type} `{Hosted S} (rf : nat) (w : World S) : Prop :=
  forall a s, nodes w !! a = Some s -> (copies s <= rf)%nat.

(** What the operations cost at most. *)
Definition replicate_cost (rf : nat) : nat := (rf - 1) * (1 + exchange 6).
Definition put_cost (rf : nat) : nat := 1 + 5 + 1 + 1 + exchange (5 + 1 + 1 + replicate_cost rf).
Definition get_cost (rf : nat) : nat := 1 + rf * (1 + exchange 1).

Lemma owners_length pm p : (length (get_owners pm p) <= replication_factor pm)%nat.
Proof.
  unfold get_owners. destruct (id <$> get_alive_members (membership pm)) as [|i l] eqn:E; [simpl; lia|].
  rewrite owners_of_length by done. lia.
Qed.

Section storage.
Context {V : Type} `{!Storage.Serde V, !Storage.SerdeLaws V}.
Context (path_segment : string -> option string).
Context (still : Prop) (source : string -> V -> Prop) (rf : nat).
#[local] Abbreviation Shards := (World (Storage.DistributedMap string V)).
Context (w : Shards).
Hypothesis Hfew : few_copies rf w.

#[local] Abbreviation R := (StorageRaces.anything still source).
#[local] Abbreviation within p n := (within R p n w).
#[local] Abbreviation up a := (is_Some (nodes w !! a)).
#[local] Abbreviation few := (fun me : Storage.DistributedMap string V => (copies me <= rf)%nat).

Lemma costs_me self : up self -> costs R (atomic (my self)) few 1 w.
Proof.
  intros [m Hm]. apply costs_atomic. intros w' Hr.
  destruct (StorageRaces.evolves_lookup _ _ _ _ _ _ _ Hr Hm) as (m' & Hm' & Hg). simpl.
  rewrite (lookup_total_correct _ _ _ Hm'). unfold copies. simpl.
  rewrite (StorageRaces.gr_copies _ _ _ _ _ Hg). by apply (Hfew self).
Qed.

Lemma few_owners (me : Storage.DistributedMap string V) p : few me -> 
  (length (get_owners (Storage.partitioner me) p) <= rf)%nat.
Proof. intros Hm. etrans; [apply owners_length|done]. Qed.

Lemma within_should_process self op : within (StorageSteps.should_process self op) 5.
Proof.
  apply costs_act; [apply _|lia|]. intros me.
  destruct (StorageSteps.contains_op op me); [by apply costs_done|].
  apply costs_act; [apply _|lia|]. intros me'. apply (within_then R _ _ _ 1); [|lia|].
  - destruct (StorageSteps.too_many_ops me'); [apply within_atomic; apply _|by apply costs_done].
  - intros _. apply costs_act; [apply _|lia|]. intros now. apply costs_act; [apply _|lia|]. intros _.
    by apply costs_done.
Qed.

Lemma within_handle_replicate self req : within (StorageSteps.handle_replicate self req) 6.
Proof.
  unfold StorageSteps.handle_replicate. destruct (Storage.key_from_str _); [|by apply costs_done].
  destruct (Storage.from_json _); [|by apply costs_done].
  apply (within_then R _ _ _ 6); [|lia|intros r; by apply costs_done].
  apply (within_then R _ _ _ 5); [apply within_should_process|lia|]. intros []; [|by apply costs_done].
  apply costs_act; [apply _|lia|]. intros _. by apply costs_done.
Qed.

Lemma within_post_storage {Resp : Type} dest (serve : proc Shards Resp) c :
  (1 <= c)%nat -> (up dest -> within serve c) ->
  within (NetSteps.post_with_retry dest serve 3) (exchange c).
Proof. apply (within_post R w). intros w' a. apply StorageRaces.evolves_up. Qed.

Lemma within_replicate_to_backup self p op k v b :
  within (StorageSteps.replicate_to_backup self p op k v b) (1 + exchange 6).
Proof.
  apply (within_try R _ _ 1); [apply within_atomic; apply _|lia|]. intros n.
  apply (within_try R _ _ 0); [by apply costs_done|lia|]. intros json.
  apply (within_try R _ _ (exchange 6)); [|lia|intros r; by apply costs_done].
  apply within_post_storage; [lia|]. intros _. apply within_handle_replicate.
Qed.

Lemma within_replicate_to_backups self owners p op k v :
  (length owners <= rf)%nat ->
  within (StorageSteps.replicate_to_backups self owners p op k v) (replicate_cost rf).
Proof.
  intros Hl. eapply (within_mono R); [|apply (within_each_try R)].
  - unfold replicate_cost. apply Nat.mul_le_mono_r. destruct owners; simpl in *; lia.
  - intros b. apply within_replicate_to_backup.
Qed.

Lemma within_store_as_primary self p op k v : up self ->
  within (StorageSteps.store_as_primary self p op k v) (5 + 1 + 1 + replicate_cost rf).
Proof.
  intros Hup. apply (within_then R _ _ _ 5); [apply within_should_process|lia|].
  intros []; [|by apply costs_done]. apply costs_act; [apply _|lia|]. intros _.
  apply (costs_bind R _ _ few _ 1); [by apply costs_me|lia|]. intros me Hme.
  eapply (within_mono R); [|apply within_replicate_to_backups; by apply few_owners]. lia.
Qed.

Lemma within_forward_put self i p op k v :
  within (StorageSteps.forward_put self i p op k v) (1 + exchange (5 + 1 + 1 + replicate_cost rf)).
Proof.
  apply (within_try R _ _ 1); [apply within_atomic; apply _|lia|]. intros n.
  apply (within_try R _ _ 0); [by apply costs_done|lia|]. intros json.
  apply (within_try R _ _ (exchange (5 + 1 + 1 + replicate_cost rf))); [|lia|intros r; by apply costs_done].
  apply within_post_storage; [lia|]. intros Hup. unfold StorageSteps.handle_forward_put.
  destruct (Storage.key_from_str _); [|by apply costs_done].
  destruct (Storage.from_json _); [|by apply costs_done].
  eapply (within_then R); [by apply within_store_as_primary|lia|]. intros r. by apply costs_done.
Qed.

Lemma within_put_with_op self k v op : up self ->
  within (StorageSteps.put_with_op self k v op) (put_cost rf - 1).
Proof.
  intros Hup. unfold put_cost.
  apply (within_then R _ _ _ 5); [apply within_should_process|lia|]. intros []; [|by apply costs_done].
  apply (costs_bind R _ _ few _ 1); [by apply costs_me|lia|]. intros me Hme. cbv zeta.
  pose proof (few_owners me (get_partition (Storage.partitioner me) (Storage.key_to_string k)) Hme) as Hl.
  destruct (get_owners _ _) as [|primary rest].
  - apply costs_act; [apply _|lia|]. intros _. by apply costs_done.
  - case_decide.
    + eapply (within_try R); [apply within_forward_put|lia|]. intros []. by apply costs_done.
    + apply costs_act; [apply _|lia|]. intros _. case_bool_decide; [|by apply costs_done].
      eapply (within_mono R); [|by apply within_replicate_to_backups]. unfold exchange. lia.
Qed.

Lemma within_put self k v : up self -> within (StorageSteps.put self k v) (put_cost rf).
Proof.
  intros Hup. apply costs_act; [apply _|unfold put_cost; lia|]. intros op. by apply within_put_with_op.
Qed.

Lemma within_put_local self k v : up self -> within (StorageSteps.put_local self k v) (put_cost rf).
Proof.
  intros Hup. unfold put_cost.
  apply (costs_bind R _ _ few _ 1); [by apply costs_me|lia|]. intros me Hme. cbv zeta.
  pose proof (few_owners me (get_partition (Storage.partitioner me) (Storage.key_to_string k)) Hme) as Hl.
  apply costs_act; [apply _|lia|]. intros _. case_bool_decide; [|by apply costs_done].
  apply costs_act; [apply _|lia|]. intros op.
  eapply (within_mono R); [|by apply within_replicate_to_backups]. unfold exchange. lia.
Qed.

Lemma within_fetch_remote self i k :
  within (StorageSteps.fetch_remote path_segment self i k) (1 + exchange 1).
Proof.
  apply (within_try R _ _ 1); [apply within_atomic; apply _|lia|]. intros n.
  apply (within_try R _ _ (exchange 1)); [|lia|intros r; by apply costs_done].
  apply (within_post_storage (http_addr n)); [lia|]. intros _. apply within_atomic; apply _.
Qed.

Lemma within_fetch_first self owners k :
  within (StorageSteps.fetch_first path_segment self owners k) (length owners * (1 + exchange 1)).
Proof.
  induction owners as [|i owners IH]; cbn [StorageSteps.fetch_first length]; [by apply costs_done|].
  eapply (within_then R); [apply within_fetch_remote|lia|].
  intros [[x|]|e]; [by apply costs_done|..]; (eapply (within_mono R); [|exact IH]; lia).
Qed.

Lemma within_get self k : up self -> within (StorageSteps.get path_segment self k) (get_cost rf).
Proof.
  intros Hup. unfold get_cost.
  apply (costs_bind R _ _ few _ 1); [by apply costs_me|lia|]. intros me Hme. cbv zeta.
  destruct (Storage.lookup_in _ k me); [by apply costs_done|].
  pose proof (few_owners me (get_partition (Storage.partitioner me) (Storage.key_to_string k)) Hme) as Hl.
  destruct (get_owners _ _) as [|primary backups]; [by apply costs_done|].
  assert (length backups * (1 + exchange 1) <= (rf - 1) * (1 + exchange 1))%nat as Hb
    by (apply Nat.mul_le_mono_r; simpl in Hl; lia).
  assert ((rf - 1) * (1 + exchange 1) + (1 + exchange 1) <= rf * (1 + exchange 1))%nat as Hrf
    by (simpl in Hl; destruct rf; [lia|]; lia).
  assert (forall n, (rf - 1) * (1 + exchange 1) <= n -> 
    within (StorageSteps.fetch_first path_segment self backups k) n)%nat as Hf.
  { intros n Hn. eapply (within_mono R); [|apply within_fetch_first]. lia. }
  case_decide; [apply Hf; lia|].
  eapply (within_then R); [apply within_fetch_remote|lia|].
  intros [[x|]|e]; [by apply costs_done|apply Hf; lia..].
Qed.
End storage.

(** ** The task queue *)

Definition copy_task_cost (rf : nat) : nat := (rf - 1) * (1 + exchange 1).
Definition submit_cost (rf : nat) : nat := 1 + 1 + 1 + exchange (1 + 1 + 1 + copy_task_cost rf).

Section queue.
Context (path_segment : string -> option string) (still : Prop)
  (src : Queue.TaskId -> Queue.Task Value -> Prop) (rf : nat).
#[local] Abbreviation Queues := (World (Queue.DistributedQueue Value)).
Context (w : Queues).
Hypothesis Hfew : few_copies rf w.

#[local] Abbreviation R := (QueueRaces.advances still src).
#[local] Abbreviation within p n := (within R p n w).
#[local] Abbreviation up a := (is_Some (nodes w !! a)).
#[local] Abbreviation few :=
  (fun me : Queue.DistributedQueue Value => (copies me <= rf)%nat).

Lemma costs_my_queue self : up self -> costs R (atomic (my self)) few 1 w.
Proof.
  intros [q Hq]. apply costs_atomic. intros w' Hr.
  destruct (QueueRaces.advances_lookup _ _ _ _ _ _ Hr Hq) as (q' & Hq' & Had). simpl.
  rewrite (lookup_total_correct _ _ _ Hq'). unfold copies. simpl.
  rewrite (QueueRaces.ad_copies _ _ _ _ Had). by apply (Hfew self).
Qed.

Lemma few_queue_owners (me : Queue.DistributedQueue Value) p : few me ->
  (length (get_owners (Queue.partitioner me) p) <= rf)%nat.
Proof. intros Hm. etrans; [apply owners_length|done]. Qed.

Lemma within_post_task {Resp : Type} dest (serve : proc Queues Resp) c :
  (1 <= c)%nat -> (up dest -> within serve c) ->
  within (NetSteps.post_with_retry dest serve 3) (exchange c).
Proof. apply (within_post R w). intros w' a. apply QueueRaces.advances_up. Qed.

Lemma within_replicate_task self b p i e :
  within (QueueSteps.replicate_task_to_backup self b p i e) (1 + exchange 1).
Proof.
  apply (within_try R _ _ 1); [apply within_atomic; apply _|lia|]. intros n.
  apply (within_try R _ _ (exchange 1)); [|lia|intros r; by apply costs_done].
  apply within_post_task; [lia|]. intros _. apply costs_act; [apply _|lia|]. intros _. by apply costs_done.
Qed.

Lemma within_store_task self p i e : up self ->
  within (QueueSteps.store_as_primary self p i e) (1 + 1 + copy_task_cost rf).
Proof.
  intros Hup. apply costs_act; [apply _|lia|]. intros _.
  apply (costs_bind R _ _ few _ 1); [by apply costs_my_queue|lia|]. intros me Hme.
  pose proof (few_queue_owners me p Hme) as Hl.
  eapply (within_mono R); [|apply (within_each_try R); intros b; apply within_replicate_task].
  assert (length (tail (get_owners (Queue.partitioner me) p)) * (1 + exchange 1) <= copy_task_cost rf)%nat
    by (unfold copy_task_cost; apply Nat.mul_le_mono_r; destruct (get_owners _ _); simpl in *; lia). lia.
Qed.

Lemma within_forward_task self i p t_id t :
  within (QueueSteps.forward_task self i p t_id t) (1 + exchange (1 + 1 + 1 + copy_task_cost rf)).
Proof.
  apply (within_try R _ _ 1); [apply within_atomic; apply _|lia|]. intros n.
  apply (within_try R _ _ (exchange (1 + 1 + 1 + copy_task_cost rf)));
    [|lia|intros r; by apply costs_done].
  apply within_post_task; [lia|]. intros Hup. apply costs_act; [apply _|lia|]. intros now.
  eapply (within_then R); [by apply within_store_task|lia|]. intros r. by apply costs_done.
Qed.

Lemma within_submit_as self t i : up self ->
  within (QueueSteps.submit_as self t i) (submit_cost rf - 1).
Proof.
  intros Hup. unfold submit_cost, exchange.
  apply (costs_bind R _ _ few _ 1); [by apply costs_my_queue|lia|]. intros me Hme. cbv zeta.
  destruct (get_owners _ _) as [|primary rest]; [|case_decide].
  - apply costs_act; [apply _|lia|]. intros now. apply costs_act; [apply _|lia|]. intros _.
    by apply costs_done.
  - apply costs_act; [apply _|lia|]. intros now.
    eapply (within_try R); [by apply within_store_task|lia|]. intros u. by apply costs_done.
  - eapply (within_try R); [apply within_forward_task|unfold exchange; lia|]. intros u. by apply costs_done.
Qed.

Lemma within_submit self t : up self -> within (QueueSteps.submit self t) (submit_cost rf).
Proof.
  intros Hup. apply costs_act; [apply _|unfold submit_cost; lia|]. intros i. by apply within_submit_as.
Qed.

Lemma within_ask_owners self owners i :
  within (QueueSteps.ask_owners path_segment self owners i) (length owners * (1 + exchange 1)).
Proof.
  induction owners as [|o owners IH]; cbn [QueueSteps.ask_owners length]; [by apply costs_done|].
  apply (within_then R _ _ _ (1 + exchange 1)); [|lia|].
  - apply (within_try R _ _ 1); [apply within_atomic; apply _|lia|]. intros n.
    apply (within_try R _ _ (exchange 1)); [|lia|intros r; by apply costs_done].
    apply (within_post_task (http_addr n)); [lia|]. intros _. apply within_atomic; apply _.
  - intros [[x|]|e]; [by apply costs_done|..]; (eapply (within_mono R); [|exact IH]; lia).
Qed.

Lemma within_get_task self i : up self ->
  within (QueueSteps.get_task path_segment self i) (get_cost rf).
Proof.
  intros Hup. unfold get_cost.
  apply (costs_bind R _ _ few _ 1); [by apply costs_my_queue|lia|]. intros me Hme. cbv zeta.
  destruct (Queue.get_task_local i me); [by apply costs_done|].
  pose proof (few_queue_owners me (get_partition (Queue.partitioner me) (Queue.task_id_str i)) Hme) as Hl.
  destruct (get_owners _ _) as [|primary rest]; [by apply costs_done|].
  case_decide; [|by apply costs_done]. eapply (within_mono R); [|apply within_ask_owners].
  assert (length (primary :: rest) * (1 + exchange 1) <= rf * (1 + exchange 1))%nat
    by by apply Nat.mul_le_mono_r. lia.
Qed.
End queue.

(** ** Requests *)

(** All components of all nodes make at most so many copies; [main] says two. *)
Record few_site (rf : nat) (s : Site) : Prop := {
  fw_datalake : few_copies rf (datalake s);
  fw_books : few_copies rf (books s);
  fw_index : few_copies rf (index_map s);
  fw_tasks : few_copies rf (tasks s);
}.

Definition ingest_cost (rf : nat) : nat := get_cost rf + put_cost rf + put_cost rf + submit_cost rf.
Definition create_cost (rf : nat) : nat := 1 + put_cost rf + submit_cost rf.

(** How many actions an activity takes at most; an ingestion also waits for the download, which has
    no time limit.  What a search, a worker or a pass of anti-entropy has
    to do depends on what it finds; these end ([requests_end]), but there is no such bound. *)
Definition storage_actions {V : Type} (rf : nat) (a : StorageSteps.Activity (K := string) (V := V))
    : option nat :=
  match a with
  | StorageSteps.APut _ _ _ _ | StorageSteps.APutFresh _ _ _ | StorageSteps.APutLocal _ _ _ =>
      Some (put_cost rf)
  | StorageSteps.AGet _ _ => Some (get_cost rf)
  | StorageSteps.ASync _ _ => None
  end.

Definition task_actions (rf : nat) (a : QueueSteps.Activity (P := Value)) : option nat :=
  match a with
  | QueueSteps.ASubmit _ _ | QueueSteps.ASubmitAs _ _ _ => Some (submit_cost rf)
  | QueueSteps.AClaim _ _ _ | QueueSteps.ARenew _ _ _ | QueueSteps.AComplete _ _ _ => Some 1%nat
  | QueueSteps.AGetTask _ _ => Some (get_cost rf)
  | QueueSteps.ASync _ _ => None
  end.

Definition actions (download_polls : text -> nat) (rf : nat) (a : Activity) : option nat :=
  match a with
  | AIngest _ b => Some (ingest_cost rf + download_polls (source_url b))%nat
  | AStatus _ _ => Some (get_cost rf)
  | ACreate _ _ => Some (create_cost rf)
  | AView _ _ => Some 1%nat
  | ADatalake a => storage_actions rf a
  | ABooks a => storage_actions rf a
  | AIndex a => storage_actions rf a
  | ATasks a => task_actions rf a
  | ASearch _ _ | AWork _ _ => None
  end.

Section site.
Context `{Unicode, Regexes}.
Context `{!Storage.Serde (list text), !Storage.SerdeLaws (list text),
          !Storage.Serde RawDocument, !Storage.SerdeLaws RawDocument,
          !Storage.Serde BookMetadata, !Storage.SerdeLaws BookMetadata}.
Context (path_segment : string -> option string) (reqwest_get : text -> result (Z * result text)).
Context (download_polls : text -> nat).
Context (hash_order : gmap text nat -> list (text * nat)) (set_order : gset text -> list text).

#[local] Abbreviation perform := (perform path_segment reqwest_get download_polls hash_order set_order).
#[local] Abbreviation start := (start path_segment reqwest_get download_polls hash_order set_order).

Section costs.
Context (acts : list Activity) (s : Site) (rf : nat).
Hypothesis Hfew : few_site rf s.

#[local] Abbreviation posts := (listed path_segment reqwest_get acts s False).
#[local] Abbreviation R := (later path_segment reqwest_get acts s False).
#[local] Abbreviation within p n := (within R p n s).

Lemma within_on_datalake {A} (p : proc _ A) n :
  WaitFree.within (StorageRaces.anything False (documented reqwest_get acts s)) p n (datalake s) ->
  within (on_datalake p) n.
Proof.
  apply (@costs_lift _ _ _ datalake_part datalake_laws R (StorageRaces.anything False (documented reqwest_get acts s))).
  intros u u'. apply la_datalake.
Qed.
Lemma within_on_books {A} (p : proc _ A) n :
  WaitFree.within (StorageRaces.anything False (registered reqwest_get acts s)) p n (books s) ->
  within (on_books p) n.
Proof.
  apply (@costs_lift _ _ _ books_part books_laws R (StorageRaces.anything False (registered reqwest_get acts s))).
  intros u u'. apply la_books.
Qed.
Lemma within_on_index {A} (p : proc _ A) n :
  WaitFree.within (StorageRaces.anything False posts) p n (index_map s) ->
  within (on_index p) n.
Proof.
  apply (@costs_lift _ _ _ index_part index_laws R (StorageRaces.anything False posts)).
  intros u u'. apply la_index.
Qed.
Lemma within_on_tasks {A} (p : proc _ A) n :
  WaitFree.within (QueueRaces.advances False any_task) p n (tasks s) -> within (on_tasks p) n.
Proof.
  apply (@costs_lift _ _ _ tasks_part tasks_laws R (QueueRaces.advances False any_task)).
  intros u u'. apply la_tasks.
Qed.

Lemma within_submit_task self t : up s self ->
  within (on_tasks (QueueSteps.submit self t)) (submit_cost rf).
Proof. intros Hup. apply within_on_tasks, within_submit; [apply Hfew|apply Hup]. Qed.

Lemma within_put_book self k m : up s self ->
  within (on_books (StorageSteps.put self k m)) (put_cost rf).
Proof. intros Hup. apply within_on_books, within_put; [apply Hfew|apply Hup]. Qed.

Lemma within_get_document self k : up s self ->
  within (on_datalake (StorageSteps.get path_segment self k)) (get_cost rf).
Proof. intros Hup. apply within_on_datalake, within_get; [apply Hfew|apply Hup]. Qed.

Lemma within_download url : within (download reqwest_get download_polls url) (download_polls url).
Proof.
  unfold download. generalize (download_polls url) as polls. intros polls.
  eapply (within_then R _ _ _ polls); [|lia|intros u; by apply costs_done].
  induction polls as [|polls IH]; [by apply costs_done|]. apply costs_act; [apply _|lia|]. intros _.
  rewrite Nat.sub_succ, Nat.sub_0_r. exact IH.
Qed.

Lemma within_ingest self b : up s self ->
  within (handle_ingest_gutenberg path_segment reqwest_get download_polls self b)
    (ingest_cost rf + download_polls (source_url b)).
Proof.
  intros Hup. unfold ingest_cost.
  eapply (within_then R); [by apply within_get_document|lia|]. intros [d|]; [by apply costs_done|].
  eapply (within_then R); [apply within_download|lia|]. intros fetched.
  destruct fetched as [t|e]; [|by apply costs_done].
  destruct (split_gutenberg_text t) as [[[h body]|]|]; [|by apply costs_done..].
  destruct (compute_counts body) as [n u].
  eapply (within_then R); [apply within_on_datalake, within_put; [apply Hfew|apply Hup]|lia|].
  intros [x|e]; [|by apply costs_done].
  eapply (within_then R); [by apply within_put_book|lia|]. intros r.
  eapply (within_then R); [by apply within_submit_task|lia|]. intros r'. by apply costs_done.
Qed.

Lemma within_create_book self req : up s self -> within (handle_create_book self req) (create_cost rf).
Proof.
  intros Hup. unfold create_cost. apply (within_then R _ _ _ 1); [|lia|].
  { apply within_on_books, within_atomic. }
  intros id. cbv zeta. eapply (within_then R); [by apply within_put_book|lia|].
  intros [x|e]; [|by apply costs_done].
  eapply (within_then R); [by apply within_submit_task|lia|]. intros r. by apply costs_done.
Qed.

(** One of the maps. *)
Lemma within_storage_activity {V} `{!Storage.Serde V, !Storage.SerdeLaws V} source w
    (a : StorageSteps.Activity (K := string) (V := V)) n :
  few_copies rf w -> is_Some (nodes w !! StorageRaces.place a) -> storage_actions rf a = Some n ->
  WaitFree.within (StorageRaces.anything False source) (StorageSteps.perform path_segment a) n w.
Proof.
  intros Hw Hup. destruct a; cbn [StorageRaces.place storage_actions StorageSteps.perform] in *; intros [= <-];
    (eapply (within_then (StorageRaces.anything False source)); [| |intros r; by apply costs_done]).
  - by apply within_put_with_op.
  - lia.
  - by apply within_put.
  - done.
  - by apply within_put_local.
  - done.
  - by apply within_get.
  - done.
Qed.

Lemma within_task_activity a n :
  is_Some (nodes (tasks s) !! QueueRaces.place a) -> task_actions rf a = Some n ->
  WaitFree.within (QueueRaces.advances False any_task) (QueueSteps.perform path_segment a) n (tasks s).
Proof.
  pose proof (fw_tasks _ _ Hfew) as Hw.
  intros Hup. destruct a; cbn [QueueRaces.place task_actions QueueSteps.perform] in *; intros [= <-];
    (eapply (within_then (QueueRaces.advances False any_task)); [| |intros r; by apply costs_done]).
  - by apply within_submit.
  - done.
  - by apply within_submit_as.
  - lia.
  - apply within_atomic; apply _.
  - done.
  - apply within_atomic; apply _.
  - done.
  - apply within_atomic; apply _.
  - done.
  - by apply within_get_task.
  - done.
Qed.

Lemma within_activity a n : up s (place a) -> actions download_polls rf a = Some n -> within (perform a) n.
Proof.
  intros Hup. destruct a; cbn [place actions SiteSteps.perform] in *; intros Ha; try (injection Ha as <-); try done;
    (eapply (within_then R); [| |intros r; by apply costs_done]).
  - by apply within_ingest.
  - done.
  - eapply (within_then R); [by apply within_get_document|done|]. intros r. by apply costs_done.
  - done.
  - by apply within_create_book.
  - done.
  - apply within_on_datalake, within_storage_activity; [apply Hfew|apply Hup|exact Ha].
  - done.
  - apply within_on_books, within_storage_activity; [apply Hfew|apply Hup|exact Ha].
  - done.
  - apply within_on_index, within_storage_activity; [apply Hfew|apply Hup|exact Ha].
  - done.
  - apply within_on_tasks, within_task_activity; [apply Hup|exact Ha].
  - done.
Qed.
End costs.

Hypothesis Hset : forall X, set_order X ≡ₚ elements X.
Hypothesis Hhash : forall m, hash_order m ≡ₚ map_to_list m.

(** C27: requests are wait-free.  In runs of any activities of any nodes an ingestion, a status
    request, a new book, a read, a write or a submission comes back after at most so many actions of
    its own: 29 for a status request and 345 for an ingestion when there are two copies of everything,
    beside the polls of its download, for which the code sets no time limit.  That holds whatever the
    scheduler lets the other requests, workers and passes of anti-entropy do in between, however often
    the views of the cluster change under it, and whatever requests and replies are lost: three
    attempts per exchange, of which every one may leave a handler behind. *)
Theorem requests_are_wait_free acts s turns rf i a n :
  placed acts s -> few_site rf s -> acts !! i = Some a -> actions download_polls rf a = Some n ->
  (n <= count_occ Nat.eq_dec turns i)%nat ->
  exists r, ended (schedule turns (start acts s)) i r.
Proof.
  intros Hp Hfew Hi Ha Hn. assert (up s (place a)) as Hup.
  { unfold placed in Hp. rewrite Forall_lookup in Hp. by apply (Hp i). }
  destruct (costs_ends (later path_segment reqwest_get acts s False) (length acts) _
    (aim_beyond path_segment reqwest_get acts s False)
    turns (start acts s) i (client (perform a)) (fun o => exists x, o = Some x) n) as (o & He & r & ->).
  - by apply start_site_wp.
  - simpl. by rewrite list_lookup_fmap, Hi.
  - apply (costs_client _). by apply (within_activity acts s rf Hfew).
  - done.
  - by exists r.
Qed.
End site.

(** ** A network that loses every reply *)
Module Example.
Import Text.Ascii StorageSpec.Example Ingestion.Example SiteRaces.Example.
#[local] Existing Instances Storage.countable_serde Storage.countable_serde_laws.

Definition lossy (ids : list string) : Env := mkEnv (repeat ReplyLost 40) [] ids 0.
Definition site : Site := mkSite
  (empty_world "/datalake" (lossy ["u1"])) (empty_world "/books" (lossy ["u2"]))
  (empty_world "/index" (lossy ["i1"; "i2"; "i3"; "i4"]))
  (mkWorld (example_nodes ["a"; "b"; "c"] jobs) (lossy ["t3"])).

Definition acts : list Activity :=
  [AIngest (on "a") (ascii_text "11"); AStatus (on "c") (ascii_text "11"); AView (on "b") ∅].

Lemma site_placed : placed acts site.
Proof.
  apply Forall_forall. intros a Ha.
  assert (exists x, x ∈ ["a"; "b"; "c"] /\ place a = on x) as (x & Hx & ->).
  { repeat (apply elem_of_cons in Ha as [->|Ha]; [eexists; split; [|reflexivity]; set_solver|]).
    by apply elem_of_nil in Ha. }
  destruct (site_up x Hx). by split.
Qed.

Lemma site_few : few_site 2 site.
Proof. split; intros a s (x & _ & _ & ->)%example_nodes_inv; vm_compute; lia. Qed.

Definition ended_already {A : Type} (i : nat) (c : pool Site A) : bool :=
  match c.1 !! i with Some (Done _) => true | _ => false end.

#[local] Abbreviation plain := (fun s : string => Some s).
#[local] Abbreviation start := (start plain download patience forwards order acts site).

(** A status request at [c], which owns none of the text's copies, while the book is ingested and a
    view changes; alone it needs every one of its turns. *)
Lemma requests_are_wait_free_witness :
  (exists r, ended (schedule (concat (repeat [0; 2; 1]%nat 29)) start) 1 r) /\
  ended_already 1 (schedule (repeat 1%nat 28) start) = false /\
  ended_already 1 (schedule (repeat 1%nat 29) start) = true.
Proof.
  split; [|split; vm_compute; reflexivity].
  apply (requests_are_wait_free plain download patience forwards order
    (fun X => Permutation_refl _) (fun m => Permutation_refl _) acts site _ 2 1 _ 29
    site_placed site_few eq_refl).
  - vm_compute. reflexivity.
  - apply (bool_decide_unpack _). vm_compute. exact I.
Defined.
End Example.
