(* ===== verification/Node.v ===== *)
(** * Node: the start of src/main.rs and the handlers it registers

    Command line and environment, the wrappers that bind the generic handlers of
    storage/handlers.rs to the three maps, and the requests that the table of Routes.v leads to
    them; the statistics endpoint.  The text form of socket addresses belongs to the standard
    library's parser and is a parameter. *)

From S2P Require Import Prelude Membership Partitioner Net Topology Process.
From S2P Require Import Storage StorageNet StorageSpec Text Documents Routes.
From S2P Require Ingestion Queue Cluster Bootstrap QueueRaces SiteSteps SiteRaces.
From Stdlib Require Import Ascii.

#[local] Open Scope Z_scope.
#[local] Open Scope string_scope.
#[local] Strategy 1000 [get_partition get_owners].
#[local] Existing Instance Queue.DistributedQueue_hosted.

(** ** The command line *)

(** How [main] goes on: it exits, returns an error, panics, or starts the node. *)
Inductive Startup :=
  | Exits (code : Z)
  | Fails (e : string)
  | Panics (e : string)
  | Starts (bind_addr : SocketAddr) (seed_nodes : list SocketAddr).

Section command_line.
Context (parse_addr : string -> result SocketAddr).

(** The loop over the arguments, with what it has read so far. *)
Fixpoint parse_loop (args : list string) (bind_addr : option SocketAddr)
    (seed_nodes : list SocketAddr) : Startup :=
  match args with
  | [] =>
      match bind_addr with
      | Some a => Starts a seed_nodes
      | None => Panics "--bind is required"
      end
  | arg :: rest =>
      if String.eqb arg "--bind" then
        match rest with
        | [] => Panics "index out of bounds"
        | value :: rest' =>
            match parse_addr value with
            | Ok a => parse_loop rest' (Some a) seed_nodes
            | Err e => Fails e
            end
        end
      else if String.eqb arg "--seed" then
        match rest with
        | [] => Panics "index out of bounds"
        | value :: rest' =>
            match parse_addr value with
            | Ok a => parse_loop rest' bind_addr (seed_nodes ++ [a])%list
            | Err e => Fails e
            end
        end
      else parse_loop rest bind_addr seed_nodes
  end.

(** [args[0]] is the name of the program. *)
Definition parse_args (args : list string) : Startup :=
  if bool_decide (length args < 3)%nat then Exits 1 else parse_loop (tail args) None [].

(** What a command line says: options in any order, and words that are ignored. *)
Inductive Opt := Bind (a : SocketAddr) | Seed (a : SocketAddr) | Word (s : string).

Definition render (show_addr : SocketAddr -> string) (o : Opt) : list string :=
  match o with
  | Bind a => ["--bind"; show_addr a]
  | Seed a => ["--seed"; show_addr a]
  | Word s => [s]
  end.
Definition plain (o : Opt) : Prop :=
  match o with Word s => s <> "--bind" /\ s <> "--seed" | _ => True end.
Definition binds (o : Opt) : option SocketAddr := match o with Bind a => Some a | _ => None end.
Definition seeds (o : Opt) : option SocketAddr := match o with Seed a => Some a | _ => None end.

(** An option without its value. *)
Definition dangling (s : string) : Prop := s = "--bind" \/ s = "--seed".

Lemma parse_loop_render show_addr l rest b ss :
  (forall a, parse_addr (show_addr a) = Ok a) -> Forall plain l ->
  parse_loop (concat (render show_addr <$> l) ++ rest) b ss =
  parse_loop rest (match last (omap binds l) with Some a => Some a | None => b end)
    (ss ++ omap seeds l).
Proof.
  intros Hrt Hl. revert b ss. induction Hl as [|o l Ho Hl IH]; intros b ss.
  { simpl. by rewrite app_nil_r. }
  destruct o as [a|a|s]; simpl.
  - rewrite Hrt, IH, last_cons. change (list_omap Opt SocketAddr binds l) with (omap binds l). by destruct (last (omap binds l)).
  - rewrite Hrt, IH. by rewrite <- app_assoc.
  - destruct Ho as [H1 H2]. apply String.eqb_neq in H1, H2. rewrite H1, H2. apply IH.
Qed.

(** The command line.  Options that are printed are read back, in whatever order and with
    whatever other words among them: the node binds to the last address given with [--bind], has the
    seeds in their order, and panics without a [--bind]; an option at the end without its value
    panics as well, and a value that is no address is an error. *)
Theorem command_line_roundtrip show_addr prog l :
  (forall a, parse_addr (show_addr a) = Ok a) -> Forall plain l ->
  (2 <= length (concat (render show_addr <$> l)))%nat ->
  let args := prog :: concat (render show_addr <$> l) in
  parse_args args = match last (omap binds l) with
                    | Some a => Starts a (omap seeds l)
                    | None => Panics "--bind is required"
                    end /\
  (forall opt, dangling opt -> parse_args (args ++ [opt])%list = Panics "index out of bounds") /\
  (forall opt value e rest, dangling opt -> parse_addr value = Err e ->
    parse_args (args ++ opt :: value :: rest)%list = Fails e).
Proof.
  intros Hrt Hl Hlen args.
  assert (forall rest, parse_args (args ++ rest)%list = parse_loop rest (last (omap binds l)) (omap seeds l))
    as Hargs.
  { intros rest. unfold parse_args, args. rewrite bool_decide_eq_false_2.
    - simpl. rewrite (parse_loop_render show_addr l rest None [] Hrt Hl). by destruct (last _).
    - simpl. rewrite length_app. lia. }
  split_and!.
  - rewrite <- (app_nil_r args), Hargs. simpl. by destruct (last _).
  - intros opt [->| ->]; by rewrite Hargs.
  - intros opt value e rest [->| ->] He; rewrite Hargs; simpl; by rewrite He.
Qed.
End command_line.

(** The example that [main] prints when arguments are missing, [-- bind 127.0.0.1:5000], does not
    start a node. *)
Lemma printed_example_panics parse_addr prog value :
  value <> "--bind" -> value <> "--seed" ->
  parse_args parse_addr [prog; "--"; "bind"; value] = Panics "--bind is required".
Proof.
  intros H1%String.eqb_neq H2%String.eqb_neq.
  transitivity (parse_loop parse_addr [value] None []); [reflexivity|].
  cbn [parse_loop]. by rewrite H1, H2.
Qed.

(** ** The environment *)

(** [str::parse] for an unsigned type of [w] bits: an optional plus sign, then decimal digits. *)
Fixpoint parse_digits (w acc : Z) (s : string) : option Z :=
  match s with
  | EmptyString => Some acc
  | String c s' =>
      let d := Z.of_N (N_of_ascii c) - 48 in
      let acc := acc * 10 + d in
      if bool_decide (0 <= d < 10) && bool_decide (acc < 2 ^ w) then parse_digits w acc s' else None
  end.
Definition parse_unsigned (w : Z) (s : string) : option Z :=
  let digits := match s with
                | String c s' => if Ascii.eqb c "+" then s' else s
                | EmptyString => EmptyString
                end in
  match digits with EmptyString => None | _ => parse_digits w 0 digits end.

(** The values of [REPLICATION_FACTOR] and [MAX_BODY_BYTES], if they are set. *)
Definition env_replication_factor (var : option string) : nat :=
  Z.to_nat (default 2 (value ← var; parse_unsigned 64 value)).
Definition env_max_body_bytes (var : option string) : Z :=
  default (20 * 1024 * 1024) (value ← var; parse_unsigned 64 value).

(** ** The three maps *)

(** What a map holds. *)
Definition Stored (m : Store) : Type :=
  match m with Books => BookMetadata | Datalake => RawDocument | Index => list text end.

Definition shards (m : Store) (s : Site) : World (DistributedMap string (Stored m)) :=
  match m with Books => books s | Datalake => datalake s | Index => index_map s end.
Definition set_shards (m : Store) : World (DistributedMap string (Stored m)) -> Site -> Site :=
  match m with Books => set_books | Datalake => set_datalake | Index => set_index end.
Definition in_store (m : Store) {A} (f : ST (World (DistributedMap string (Stored m))) A) : ST Site A :=
  fun s => let '(a, w) := f (shards m s) in (a, set_shards m w s).

Section wrappers.
Context `{!Serde BookMetadata, !Serde RawDocument, !Serde (list text)}.
#[local] Existing Instance string_key.
(** What the HTTP stack makes of a path segment. *)
Context (path_segment : string -> option string) (self : SocketAddr).

Definition handle_get_internal_book (key : string) : ST Site (Response GetResponse) :=
  in_books (StorageNet.handle_get_internal self key).
Definition handle_get_book (key : string) : ST Site (Response GetResponse) :=
  in_books (StorageNet.handle_get path_segment self key).
Definition handle_forward_put_book (json : ForwardPutRequest) : ST Site (Response PutResponse) :=
  in_books (StorageNet.handle_forward_put self json).
Definition handle_put_book (json : PutRequest) : ST Site (Response PutResponse) :=
  in_books (StorageNet.handle_put self json).
Definition handle_replicate_book (json : ReplicateRequest) : ST Site (Response PutResponse) :=
  in_books (StorageNet.handle_replicate self json).
Definition handle_partition_dump_book (partition : Z) : ST Site (Response PartitionDumpResponse) :=
  in_books (StorageNet.handle_partition_dump self partition).

Definition handle_get_internal_datalake (key : string) : ST Site (Response GetResponse) :=
  in_datalake (StorageNet.handle_get_internal self key).
Definition handle_get_datalake (key : string) : ST Site (Response GetResponse) :=
  in_datalake (StorageNet.handle_get path_segment self key).
Definition handle_forward_put_datalake (json : ForwardPutRequest) : ST Site (Response PutResponse) :=
  in_datalake (StorageNet.handle_forward_put self json).
Definition handle_put_datalake (json : PutRequest) : ST Site (Response PutResponse) :=
  in_datalake (StorageNet.handle_put self json).
Definition handle_replicate_datalake (json : ReplicateRequest) : ST Site (Response PutResponse) :=
  in_datalake (StorageNet.handle_replicate self json).
Definition handle_partition_dump_datalake (partition : Z) : ST Site (Response PartitionDumpResponse) :=
  in_datalake (StorageNet.handle_partition_dump self partition).

Definition handle_get_internal_index (key : string) : ST Site (Response GetResponse) :=
  in_index (StorageNet.handle_get_internal self key).
Definition handle_get_index (key : string) : ST Site (Response GetResponse) :=
  in_index (StorageNet.handle_get path_segment self key).
Definition handle_forward_put_index (json : ForwardPutRequest) : ST Site (Response PutResponse) :=
  in_index (StorageNet.handle_forward_put self json).
Definition handle_put_index (json : PutRequest) : ST Site (Response PutResponse) :=
  in_index (StorageNet.handle_put self json).
Definition handle_replicate_index (json : ReplicateRequest) : ST Site (Response PutResponse) :=
  in_index (StorageNet.handle_replicate self json).
Definition handle_partition_dump_index (partition : Z) : ST Site (Response PartitionDumpResponse) :=
  in_index (StorageNet.handle_partition_dump self partition).

(** ** Requests to the maps *)

(** A decoded JSON body, and what comes back. *)
Inductive Body :=
  | NoBody | PutBody (b : PutRequest) | ForwardBody (b : ForwardPutRequest)
  | ReplicateBody (b : ReplicateRequest).
Inductive Answer :=
  | Put_ (r : Response PutResponse) | Get_ (r : Response GetResponse)
  | Dump_ (r : Response PartitionDumpResponse).

Definition answer {A} (wrap : A -> Answer) (m : ST Site A) : ST Site Answer :=
  r <- m ;; st_ret (wrap r).

(** The wrapper behind a route of a map; [None] where the extractors have nothing to give it (the
    HTTP stack answers by itself) and for the other handlers. *)
Definition serve (h : Routes.Handler) (captured : list string) (b : Body) : option (ST Site Answer) :=
  let key := match captured with [seg] => path_segment seg | _ => None end in
  let partition := seg ← key; parse_unsigned 32 seg in
  match h, b with
  | Routes.handle_put m, PutBody req => Some (answer Put_ (match m with
      | Books => handle_put_book req | Datalake => handle_put_datalake req
      | Index => handle_put_index req end))
  | Routes.handle_forward_put m, ForwardBody req => Some (answer Put_ (match m with
      | Books => handle_forward_put_book req | Datalake => handle_forward_put_datalake req
      | Index => handle_forward_put_index req end))
  | Routes.handle_replicate m, ReplicateBody req => Some (answer Put_ (match m with
      | Books => handle_replicate_book req | Datalake => handle_replicate_datalake req
      | Index => handle_replicate_index req end))
  | Routes.handle_get m, NoBody => key ← key; Some (answer Get_ (match m with
      | Books => handle_get_book key | Datalake => handle_get_datalake key
      | Index => handle_get_index key end))
  | Routes.handle_get_internal m, NoBody => key ← key; Some (answer Get_ (match m with
      | Books => handle_get_internal_book key | Datalake => handle_get_internal_datalake key
      | Index => handle_get_internal_index key end))
  | Routes.handle_partition_dump m, NoBody => partition ← partition; Some (answer Dump_ (match m with
      | Books => handle_partition_dump_book partition
      | Datalake => handle_partition_dump_datalake partition
      | Index => handle_partition_dump_index partition end))
  | _, _ => None
  end.

(** A request to the node [self]. *)
Definition http (m : Method) (path : string) (b : Body) : option (ST Site Answer) :=
  match candidates app m path with
  | [(h, captured)] => serve h captured b
  | _ => None
  end.
End wrappers.

(** ** Properties of the requests *)

Lemma set_shards_eq m w s : shards m (set_shards m w s) = w.
Proof. by destruct m. Qed.
Lemma set_shards_ne m m' w s : m' <> m -> shards m' (set_shards m w s) = shards m' s.
Proof. by destruct m, m'. Qed.
Lemma set_shards_tasks m w s : tasks (set_shards m w s) = tasks s.
Proof. by destruct m. Qed.

Section handlers.
Context {K V : Type} `{Countable K, !RustKey K, !RustKeyLaws K, !Serde V, !SerdeLaws V}.

Lemma handle_put_ok self (k : K) (v : V) json op w w' :
  from_json json = Ok v -> put_with_op self k v op w = (Ok tt, w') ->
  StorageNet.handle_put self (mkPut op (key_to_string k) json) w = (mkResponse OK (mkPutResponse true), w').
Proof.
  intros Hj Hrun. unfold StorageNet.handle_put. simpl. rewrite key_roundtrip, Hj.
  by rewrite (st_bind_eq _ _ _ _ _ Hrun).
Qed.

Lemma handle_get_ok path_segment self (k : K) (v : V) json w :
  to_json v = Ok json -> get path_segment self k w = (Some v, w) ->
  StorageNet.handle_get path_segment self (key_to_string k) w = (mkResponse OK (mkGetResponse (Some json)), w).
Proof.
  intros Hj Hrun. unfold StorageNet.handle_get. rewrite key_roundtrip, (st_bind_eq _ _ _ _ _ Hrun).
  by rewrite Hj.
Qed.
End handlers.

Lemma set_shards_id m s : set_shards m (shards m s) s = s.
Proof. by destruct m, s. Qed.

Lemma answer_eq {A} m (wrap : A -> Answer) f s r w :
  f (shards m s) = (r, w) -> answer wrap (in_store m f) s = (wrap r, set_shards m w s).
Proof. intros Hf. unfold answer, st_bind, in_store. by rewrite Hf. Qed.

Section requests.
Context `{!Serde BookMetadata, !SerdeLaws BookMetadata, !Serde RawDocument, !SerdeLaws RawDocument,
          !Serde (list text), !SerdeLaws (list text)}.
#[local] Existing Instances string_key string_key_laws.
#[local] Instance Stored_serde m : Serde (Stored m) := match m with
  | Books => _ | Datalake => _ | Index => _ end.
#[local] Instance Stored_serde_laws m : SerdeLaws (Stored m).
Proof. destruct m; simpl; apply _. Qed.
Context (path_segment : string -> option string) (addr_of : NodeId -> SocketAddr).

(** A PUT reaches the handler of its map, whatever the map. *)
Lemma http_put m self req :
  http path_segment self POST (base_of m ++ ENDPOINT_PUT) (PutBody req) =
    Some (answer Put_ (in_store m (StorageNet.handle_put self req))).
Proof. by destruct m. Qed.

Lemma http_get m self key :
  one_segment key ->
  http path_segment self GET (base_of m ++ ENDPOINT_GET ++ "/" ++ key) NoBody =
    (k ← path_segment key; Some (answer Get_ (in_store m (StorageNet.handle_get path_segment self k)))).
Proof.
  intros [Hne Hs]. unfold http.
  assert (candidates app GET (base_of m ++ ENDPOINT_GET ++ "/" ++ key) = [(Routes.handle_get m, [key])])
    as ->; [|by destruct m].
  assert (base_of m ++ ENDPOINT_GET ++ "/" ++ key = (base_of m ++ ENDPOINT_GET) ++ "/" ++ key) as ->
    by (by destruct m).
  unfold candidates. rewrite split_slash_app, Hs. destruct key as [|a key]; [done|].
  destruct m; vm_compute; reflexivity.
Qed.

(** C24: PUT and GET over HTTP.  For each of the three maps, without faults: a PUT of a value to
    [/<map>/put] at any node that may write is answered 200, and a GET of [/<map>/get/<key>] at any
    node is then answered 200 with JSON that reads back as the value, provided that the key is one
    path segment; the shards represent the map with the entry added, and the other maps and the
    task queue are as they were. *)
Theorem store_roundtrip m d s self reader ma mb key v json op :
  one_segment key -> path_segment key = Some key ->
  represents addr_of d (shards m s) -> fresh_op op (shards m s) ->
  nodes (shards m s) !! self = Some ma -> may_write ma key ->
  nodes (shards m s) !! reader = Some mb -> from_json json = Ok v ->
  exists put s' get json',
    http path_segment self POST (base_of m ++ ENDPOINT_PUT) (PutBody (mkPut op key json)) = Some put /\
    put s = (Put_ (mkResponse OK (mkPutResponse true)), s') /\
    http path_segment reader GET (base_of m ++ ENDPOINT_GET ++ "/" ++ key) NoBody = Some get /\
    get s' = (Get_ (mkResponse OK (mkGetResponse (Some json'))), s') /\ from_json json' = Ok v /\
    represents addr_of (<[key := v]> d) (shards m s') /\
    (forall m', m' <> m -> shards m' s' = shards m' s) /\ tasks s' = tasks s.
Proof.
  intros Hone Hseg Hrep Hf Hma Hmay Hmb Hj.
  destruct (put_represents addr_of d (shards m s) self ma key v op Hrep Hf Hma Hmay)
    as (w' & Hrun & _ & Hrep').
  pose proof (put_with_op_framed self key v op (shards m s) ma _ Hma eq_refl) as Hfr.
  rewrite Hrun in Hfr. destruct (pointwise_lookup _ _ _ _ _ Hfr Hmb) as (mb' & Hmb' & _).
  pose proof (get_represents path_segment addr_of _ w' reader mb' key Hseg Hrep' Hmb') as Hget.
  rewrite lookup_insert_eq in Hget. destruct (serde_roundtrip v) as (json' & Hto & Hfrom).
  eexists _, (set_shards m w' s), _, json'. split; [apply http_put|]. split; [|split].
  - apply answer_eq. exact (handle_put_ok self key v json op (shards m s) w' Hj Hrun).
  - rewrite http_get, Hseg by done. reflexivity.
  - split; [|split_and!; [done|by rewrite set_shards_eq|intros; by apply set_shards_ne|apply set_shards_tasks]].
    rewrite <- (set_shards_id m (set_shards m w' s)) at 2. apply answer_eq. rewrite set_shards_eq.
    exact (handle_get_ok path_segment reader key v json' w' Hto Hget).
Qed.
End requests.

(** ** Statistics *)

Record NodeInfo := mkInfo { ni_node_id : string; ni_gossip_addr : string; ni_http_addr : string }.

Record NodeStatsResponse (Cpu : Type) := mkStats {
  ns_node_id : string; ns_gossip_addr : string; ns_http_addr : string;
  ns_alive_nodes : nat; ns_nodes : list NodeInfo;
  ns_books_partitions : nat; ns_books_entries : nat;
  ns_datalake_partitions : nat; ns_datalake_entries : nat;
  ns_index_partitions : nat; ns_index_entries : nat;
  ns_queue_partitions : nat; ns_queue_tasks : nat;
  ns_queue_pending : nat; ns_queue_running : nat; ns_queue_completed : nat; ns_queue_failed : nat;
  ns_cpu_usage : Cpu; ns_mem_used_mb : Z; ns_mem_total_mb : Z;
}.
Arguments mkStats {_}. Arguments ns_node_id {_}. Arguments ns_nodes {_}. Arguments ns_alive_nodes {_}.
Arguments ns_queue_tasks {_}. Arguments ns_queue_pending {_}. Arguments ns_queue_running {_}.
Arguments ns_queue_completed {_}. Arguments ns_queue_failed {_}.
Arguments ns_mem_used_mb {_}. Arguments ns_mem_total_mb {_}.

Section stats.
(** The text form of an address, and what the sysinfo crate measures: processor usage, and used and
    total memory in bytes. *)
Context {Cpu : Type} (show_addr : SocketAddr -> string).
Context (cpu_usage : Cpu) (used_memory total_memory : Z).

Definition info_of (n : Node) : NodeInfo :=
  mkInfo (id_str (id n)) (show_addr (gossip_addr n)) (show_addr (http_addr n)).

(** [handle_stats]; [membership] is the service of the node at [self] when the handler looks up the
    living members.  Each later look at the shards of the node is another call, and what the other
    requests do between two of them is not held up: the [k]-th look finds the site as it is in
    [moments k]. *)
Definition handle_stats (membership : MembershipService) (self : SocketAddr) (moments : nat -> Site)
    : NodeStatsResponse Cpu :=
  let nodes_ := info_of <$> get_alive_members membership in
  let books k := nodes (books (moments k)) !!! self in
  let datalake k := nodes (datalake (moments k)) !!! self in
  let index_map k := nodes (index_map (moments k)) !!! self in
  let queue k := nodes (tasks (moments k)) !!! self in
  let '(pending, running, completed, failed) := Queue.local_task_status_counts (queue 0%nat) in
  let node := info_of (local_node membership) in
  mkStats (ni_node_id node) (ni_gossip_addr node) (ni_http_addr node)
    (length nodes_) nodes_
    (local_partition_count (books 1%nat)) (local_entry_count (books 2%nat))
    (local_partition_count (datalake 3%nat)) (local_entry_count (datalake 4%nat))
    (local_partition_count (index_map 5%nat)) (local_entry_count (index_map 6%nat))
    (Queue.local_partition_count (queue 7%nat)) (Queue.local_task_count (queue 8%nat))
    pending running completed failed
    cpu_usage (used_memory / (1024 * 1024)) (total_memory / (1024 * 1024)).

(** A node that is listed is one of the cluster, under its real addresses. *)
Lemma listed_real xs a membership n :
  let c := Cluster.execute xs Cluster.empty_cluster in
  Forall Bootstrap.bound_concretely xs ->
  Cluster.services c !! a = Some membership -> n ∈ get_alive_members membership ->
  exists t, Cluster.services c !! id n = Some t /\ info_of n = info_of (local_node t) /\
            members membership !! id n = Some n.
Proof.
  intros c Hxs Ha Hn. destruct (Cluster.ok_services c (Cluster.reachable_ok xs) a membership Ha) as [Hok _].
  pose proof (Bootstrap.loc_services c a membership (Bootstrap.reachable_located xs Hxs) Ha) as Hr.
  assert (members membership !! id n = Some n) as Hin.
  { apply list_elem_of_filter in Hn as [_ Hn]. unfold all_members in Hn.
    apply list_elem_of_fmap in Hn as ([i m] & -> & Hm%elem_of_map_to_list). simpl.
    by rewrite (wf_key _ (Cluster.ok_wf _ Hok) _ _ Hm). }
  destruct (Hr (id n) n Hin) as (l & Hl & Hg & Hh). unfold Bootstrap.local_of in Hl.
  destruct (Cluster.services c !! id n) as [t|] eqn:Ht; [|done]. injection Hl as <-.
  destruct (Cluster.ok_services c (Cluster.reachable_ok xs) _ t Ht) as [_ Hit].
  exists t. split_and!; [done| |done]. unfold info_of. by rewrite Hit, Hg, Hh.
Qed.

(** A node lists itself. *)
Lemma lists_itself xs a membership :
  let c := Cluster.execute xs Cluster.empty_cluster in
  Forall Bootstrap.bound_concretely xs -> Cluster.services c !! a = Some membership ->
  info_of (local_node membership) ∈ (info_of <$> get_alive_members membership).
Proof.
  intros c Hxs Ha. destruct (Cluster.ok_services c (Cluster.reachable_ok xs) a membership Ha) as [Hok Hid].
  destruct (Cluster.ok_self _ Hok) as (n & Hn & Hal). assert (n ∈ get_alive_members membership) as Hm.
  { apply list_elem_of_filter. split; [done|]. apply list_elem_of_fmap.
    exists (id (local_node membership), n). by rewrite elem_of_map_to_list. }
  apply list_elem_of_fmap. exists n. split; [|done].
  destruct (listed_real xs a membership n Hxs Ha Hm) as (t & Ht & -> & _). f_equal.
  rewrite (wf_key _ (Cluster.ok_wf _ Hok) _ _ Hn), Hid in Ht. fold c in Ht. congruence.
Qed.

(** The table of a node at two moments of a run. *)
Lemma table_count_grows (w w' : World (Queue.DistributedQueue Value)) src self :
  QueueRaces.advances False src w w' ->
  (Queue.local_task_count (nodes w !!! self) <= Queue.local_task_count (nodes w' !!! self))%nat.
Proof.
  intros Hr. destruct (nodes w !! self) as [q|] eqn:Hq.
  - destruct (QueueRaces.advances_lookup False src w w' self q Hr Hq) as (q' & Hq' & Had).
    rewrite (lookup_total_correct _ _ _ Hq), (lookup_total_correct _ _ _ Hq').
    apply Queue.task_count_grows. intros p i [e He].
    destruct (QueueRaces.ad_grows _ _ _ _ Had) as [_ Hg]. destruct (Hg p i e He) as (e' & He' & _).
    by exists e'.
  - rewrite (lookup_total_alt (nodes w)), Hq. apply Nat.le_0_l.
Qed.

Lemma counts_read membership self (moments : nat -> Site) :
  let r := handle_stats membership self moments in
  let table k := nodes (tasks (moments k)) !!! self in
  (ns_queue_pending r + ns_queue_running r + ns_queue_completed r + ns_queue_failed r)%nat =
    Queue.local_task_count (table 0%nat) /\
  ns_queue_tasks r = Queue.local_task_count (table 8%nat).
Proof.
  intros r table. pose proof (Queue.status_counts_total (table 0%nat)) as Htot. revert Htot.
  unfold r, table, handle_stats. by destruct (Queue.local_task_status_counts _) as [[[? ?] ?] ?].
Qed.

Section running.
Context `{Unicode, Regexes}.
Context `{!Serde (list text), !SerdeLaws (list text), !Serde RawDocument, !SerdeLaws RawDocument,
          !Serde BookMetadata, !SerdeLaws BookMetadata}.
Context (path_segment : string -> option string) (reqwest_get : text -> result (Z * result text)).
Context (download_polls : text -> nat).
Context (hash_order : gmap text nat -> list (text * nat)) (set_order : gset text -> list text).
Hypothesis Hset : forall X, set_order X ≡ₚ elements X.
Hypothesis Hhash : forall m, hash_order m ≡ₚ map_to_list m.

(** C39: the statistics are true.  In every execution of the cluster whose nodes are bound to
    addresses of their own, a node lists itself, every node it lists is one of the cluster, once,
    under the addresses that node really has, and the number of nodes is that of the list.  The
    counts of tasks are taken while any activities run on the site, one action of theirs after the
    other between any two looks of the handler: the tasks pending, running, completed and failed are
    together those of the table when the handler counts them, and [queue_tasks] those of the table
    when it is asked for the total; the total is never smaller, and larger by the tasks that came in
    between. *)
Theorem stats_are_true xs a membership self acts s (moments : nat -> pool Site SiteSteps.Outcome) :
  let c := Cluster.execute xs Cluster.empty_cluster in
  let r := handle_stats membership self (fun k => (moments k).2) in
  let table k := nodes (tasks (moments k).2) !!! self in
  Forall Bootstrap.bound_concretely xs -> Cluster.services c !! a = Some membership ->
  SiteRaces.placed acts s ->
  rtc pool_step (SiteSteps.start path_segment reqwest_get download_polls hash_order set_order acts s)
    (moments 0%nat) ->
  (forall k, rtc pool_step (moments k) (moments (S k))) ->
  info_of (local_node membership) ∈ ns_nodes r /\
  (forall x, x ∈ ns_nodes r -> exists i t, Cluster.services c !! i = Some t /\ x = info_of (local_node t)) /\
  NoDup (ns_nodes r) /\ ns_alive_nodes r = length (ns_nodes r) /\
  let counted := (ns_queue_pending r + ns_queue_running r + ns_queue_completed r + ns_queue_failed r)%nat in
  counted = Queue.local_task_count (table 0%nat) /\
  ns_queue_tasks r = Queue.local_task_count (table 8%nat) /\
  (counted <= ns_queue_tasks r)%nat.
Proof.
  intros c r table Hxs Ha Hup Hstart Hrun.
  destruct (Cluster.ok_services c (Cluster.reachable_ok xs) a membership Ha) as [Hok Hid].
  assert (ns_nodes r = info_of <$> get_alive_members membership) as Hnodes.
  { unfold r, handle_stats. by destruct (Queue.local_task_status_counts _) as [[[? ?] ?] ?]. }
  rewrite Hnodes. split; [by apply (lists_itself xs a)|]. split; [|split; [|split]].
  - intros x (n & -> & Hn)%list_elem_of_fmap.
    destruct (listed_real xs a membership n Hxs Ha Hn) as (t & Ht & E & _). eauto.
  - apply (NoDup_fmap_1 ni_node_id). rewrite <- list_fmap_compose.
    change (ni_node_id ∘ info_of) with (id_str ∘ id). rewrite list_fmap_compose.
    apply NoDup_fmap_2; [by intros [?] [?] [= ->]|]. by apply NoDup_ids_alive, Cluster.ok_wf.
  - unfold r, handle_stats. destruct (Queue.local_task_status_counts _) as [[[? ?] ?] ?]. simpl.
    by rewrite length_fmap.
  - assert (rtc pool_step (moments 0%nat) (moments 8%nat)) as H08
      by (do 8 (etrans; [apply Hrun|]); reflexivity).
    pose proof (SiteRaces.moments_later path_segment reqwest_get download_polls hash_order set_order
      Hset Hhash acts s _ _ Hup Hstart H08) as [_ _ _ Ht].
    pose proof (table_count_grows _ _ _ self Ht) as Hle.
    change (Queue.local_task_count (table 0%nat) <= Queue.local_task_count (table 8%nat))%nat in Hle.
    destruct (counts_read membership self (fun k => (moments k).2)) as [Hc0 Hc8].
    fold r in Hc0, Hc8. cbv zeta. rewrite Hc0, Hc8. by split_and!.
Qed.
End running.
End stats.

(** ** Witnesses *)

Module Example.
#[local] Existing Instances string_key string_key_laws countable_serde countable_serde_laws.
Import Text.Ascii StorageNet.Example StorageSpec.Example.

(** An invented text form of addresses. *)
Definition show_addr (a : SocketAddr) : string := String "@" (bits (encode a)).
Definition parse_addr (s : string) : result SocketAddr :=
  match s with
  | String "@" s' => ok_or (decode (unbits s')) "invalid socket address syntax"
  | _ => Err "invalid socket address syntax"
  end.
Lemma parse_show a : parse_addr (show_addr a) = Ok a.
Proof. simpl. by rewrite unbits_bits, decode_encode. Qed.

Definition here : SocketAddr := mkAddr "10.0.0.1" 5000.
Definition there : SocketAddr := mkAddr "10.0.0.2" 5001.
Definition options : list Opt := [Seed there; Word "-v"; Bind here].

Lemma command_line_roundtrip_witness :
  parse_args parse_addr ["node"; "--seed"; show_addr there; "-v"; "--bind"; show_addr here] =
    Starts here [there] /\
  parse_args parse_addr ["node"; "--seed"; show_addr there; "-v"; "--bind"; show_addr here; "--seed"] =
    Panics "index out of bounds" /\
  parse_args parse_addr ["node"; "--seed"; show_addr there; "-v"; "--bind"; show_addr here; "--bind"; ""] =
    Fails "invalid socket address syntax".
Proof.
  destruct (command_line_roundtrip parse_addr show_addr "node" options parse_show) as (H1 & H2 & H3).
  - by repeat apply Forall_cons_2.
  - simpl. lia.
  - split_and!; [exact H1|exact (H2 "--seed" (or_intror eq_refl))|].
    exact (H3 "--bind" "" _ [] (or_introl eq_refl) eq_refl).
Defined.

Definition env_of (u : string) : Env := mkEnv [] [] [u] 0.
Definition site : Site := mkSite
  (empty_world "/datalake" calm) (empty_world "/books" calm) (empty_world "/index" calm)
  (mkWorld ∅ calm).

Lemma store_roundtrip_witness :
  exists put s' get json json' plain,
    http plain (on "a") POST "/index/put" (PutBody (mkPut "op" "whale" json)) = Some put /\
    put site = (Put_ (mkResponse OK (mkPutResponse true)), s') /\
    http plain (on "c") GET "/index/get/whale" NoBody = Some get /\
    get s' = (Get_ (mkResponse OK (mkGetResponse (Some json'))), s') /\
    from_json json' = Ok [ascii_text "11"].
Proof.
  destruct (serde_roundtrip [ascii_text "11"]) as (json & _ & Hj).
  pose proof (store_roundtrip (fun s => Some s) example_addr Index ∅ site (on "a") (on "c")
    (empty_shard "/index" "a") (empty_shard "/index" "c") "whale" [ascii_text "11"] json "op") as Hrt.
  assert (one_segment "whale") as Hone by (split; [discriminate|reflexivity]).
  specialize (Hrt Hone eq_refl (empty_represents "/index" calm eq_refl) (empty_fresh _ _ _)
    (empty_at "/index" "a" _ in_a) (empty_may_write _ _ _) (empty_at "/index" "c" _ in_c) Hj).
  destruct Hrt as (put & s' & get & json' & H1 & H2 & H3 & H4 & H5 & _).
  exists put, s', get, json, json', (fun s => Some s). split_and!; assumption.
Defined.

(** The site of SiteRaces.v around the moment at which an ingestion submits its task. *)
Definition moments (k : nat) : pool Site SiteSteps.Outcome :=
  schedule (take (44 + k) SiteRaces.Example.turns) (SiteSteps.start (fun s => Some s)
    Ingestion.Example.download SiteRaces.Example.patience SiteRaces.Example.forwards
    SiteRaces.Example.order SiteRaces.Example.acts SiteRaces.Example.site).

Lemma moments_go_on k : rtc pool_step (moments k) (moments (S k)).
Proof.
  unfold moments. rewrite Nat.add_succ_r.
  rewrite <- (take_drop (44 + k) (take (S (44 + k)) _)), take_take, Nat.min_l by lia.
  unfold schedule at 2. rewrite foldl_app. apply schedule_steps.
Qed.

(** The primary [b] holds the task already; its backup [c] is given it between the counts and the
    total. *)
Lemma stats_are_true_witness :
  exists membership, Cluster.services (Cluster.execute Bootstrap.Example.meeting Cluster.empty_cluster)
      !! mkId "b" = Some membership /\
    let stats x := handle_stats show_addr tt 3000000 8000000 membership (on x) (fun k => (moments k).2) in
    (ns_queue_pending (stats "b"), ns_queue_tasks (stats "b")) = (1, 1)%nat /\
    (ns_queue_pending (stats "c"), ns_queue_tasks (stats "c")) = (0, 1)%nat /\
    forall x, info_of show_addr (local_node membership) ∈ ns_nodes (stats x).
Proof.
  destruct (Cluster.services (Cluster.execute Bootstrap.Example.meeting Cluster.empty_cluster) !! mkId "b")
    as [membership|] eqn:E; [|discriminate E].
  exists membership. split; [done|]. split; [vm_compute; reflexivity|]. split; [vm_compute; reflexivity|].
  intros x. apply (stats_are_true show_addr tt 3000000 8000000 (fun s => Some s)
    Ingestion.Example.download SiteRaces.Example.patience SiteRaces.Example.forwards
    SiteRaces.Example.order (fun X => Permutation_refl _) (fun m => Permutation_refl _)
    Bootstrap.Example.meeting (mkId "b") membership (on x) SiteRaces.Example.acts SiteRaces.Example.site
    moments Bootstrap.Example.meeting_concrete E SiteRaces.Example.acts_up (schedule_steps _ _)
    moments_go_on).
Defined.
End Example.
