(* ===== verification/Ui.v ===== *)
(** * Ui: the dashboard server, src/ui/src/main.rs

    A proxy with a page: it chooses an upstream node, forwards four kinds of requests and wraps the
    answers.  The HTTP client, the percent encoding of the urlencoding crate and JSON values are
    parameters, and what the HTTP stack makes of a URL is that of Routes.v; the embedded page and the start of the server are left out. *)

From S2P Require Import Prelude Text Routes.
From stdpp Require Import pretty.

#[local] Open Scope Z_scope.

(** ** State and parameters *)

Record AppState := mkState { node_url : text }.

Record IngestParams := mkIngestParams { ingest_id : text; ingest_node : option text }.
Record SearchParams := mkSearchParams {
  search_q : text; search_limit : option nat; search_node : option text }.
Record NodeParams := mkNodeParams { stats_node : option text }.
Record ProxyResponse (Json : Type) := mkProxy { proxy_status : Z; proxy_body : Json }.
Arguments mkProxy {_}. Arguments proxy_status {_}. Arguments proxy_body {_}.

(** [trim_end_matches('/')]. *)
Definition trim_end_slashes (t : text) : text :=
  reverse (drop_while (fun c => bool_decide (c = 47)) (reverse t)).

Definition http_scheme : text := Eval vm_compute in ascii_text "http://".
Definition https_scheme : text := Eval vm_compute in ascii_text "https://".
Definition starts_with (p t : text) : bool := bool_decide (is_Some (Text.strip_prefix p t)).

(** The state that [main] makes of the variable [NODE_URL]. *)
Definition initial_state (node_url_var : option text) : AppState :=
  mkState (trim_end_slashes (default (ascii_text "http://localhost") node_url_var)).

Definition resolve_node_url (state : AppState) (override_url : option text) : text :=
  let candidate := default (node_url state) override_url in
  let trimmed := trim candidate in
  match trimmed with
  | [] => node_url state
  | _ =>
      let normalized := if starts_with http_scheme trimmed || starts_with https_scheme trimmed
                        then trimmed else http_scheme ++ trimmed in
      trim_end_slashes normalized
  end.

(** ** The proxy *)

Section proxy.
Context {Json : Type} (invalid_json : Json) (urlencode : text -> text).
(** The answer to a request, its body if it is JSON, or the reason why there is none. *)
Context (send : Method -> text -> result (Z * option Json)).

(** A proxied response, or the status and message of an error. *)
Definition Reply : Type := ProxyResponse Json + Z * string.

(** What all four handlers do with the answer. *)
Definition forward (m : Method) (url : text) : Reply :=
  match send m url with
  | Ok (status, body) => inl (mkProxy status (default invalid_json body))
  | Err e => inr (502, e)
  end.

Definition ingest_path (id : text) : text := ascii_text "/ingest/" ++ id.
Definition status_path (id : text) : text := ascii_text "/ingest/status/" ++ id.
Definition search_query (q : text) (limit : nat) : text :=
  ascii_text "?q=" ++ urlencode q ++ ascii_text "&limit=" ++ ascii_text (pretty (N.of_nat limit)).

Definition api_ingest (state : AppState) (params : IngestParams) : Reply :=
  forward POST (resolve_node_url state (ingest_node params) ++ ingest_path (ingest_id params)).
Definition api_search (state : AppState) (params : SearchParams) : Reply :=
  let limit := default 5%nat (search_limit params) in
  forward GET (resolve_node_url state (search_node params) ++ ascii_text "/search" ++
               search_query (search_q params) limit).
Definition api_status (state : AppState) (params : IngestParams) : Reply :=
  forward GET (resolve_node_url state (ingest_node params) ++ status_path (ingest_id params)).
Definition api_stats (state : AppState) (params : NodeParams) : Reply :=
  forward GET (resolve_node_url state (stats_node params) ++ ascii_text "/health/stats").
End proxy.

(** ** The upstream address *)

(** A candidate in two parts. *)
Definition scheme_of (u : text) : text := if starts_with https_scheme u then https_scheme else http_scheme.
Definition host_of (u : text) : text :=
  match Text.strip_prefix http_scheme u with
  | Some host => host
  | None => match Text.strip_prefix https_scheme u with Some host => host | None => u end
  end.
Definition some_host (u : text) : Prop := Exists (fun c => c <> 47) (host_of u).

Lemma drop_while_app f a b :
  Exists (fun c => f c = false) a -> drop_while f (a ++ b) = drop_while f a ++ b.
Proof.
  induction a as [|c a IH]; simpl; [by intros ?%Exists_nil|]. intros Ha.
  destruct (f c) eqn:E; [|done]. apply IH. by apply Exists_cons in Ha as [?|?]; [congruence|].
Qed.

Lemma trim_end_app a b :
  Exists (fun c => c <> 47) b -> trim_end_slashes (a ++ b) = a ++ trim_end_slashes b.
Proof.
  intros Hb. unfold trim_end_slashes. rewrite reverse_app, drop_while_app.
  - by rewrite reverse_app, reverse_involutive.
  - apply Exists_exists in Hb as (c & Hc & Hne). apply Exists_exists. exists c.
    split; [by apply elem_of_reverse|by apply bool_decide_eq_false_2].
Qed.

Lemma trim_end_spec b :
  Exists (fun c => c <> 47) b -> exists host c, trim_end_slashes b = host ++ [c] /\ c <> 47.
Proof.
  intros Hb. unfold trim_end_slashes. destruct (drop_while _ (reverse b)) as [|c r] eqn:E.
  - exfalso. pose proof (drop_while_suffix (fun c => bool_decide (c = 47)) (reverse b)) as (d & Hd & Hall).
    rewrite E, app_nil_r in Hd. rewrite <- Hd in Hall. rewrite Forall_forall in Hall.
    apply Exists_exists in Hb as (c & Hc & Hne). apply Hne.
    apply (bool_decide_eq_true_1 _), Hall. by apply elem_of_reverse.
  - apply drop_while_head in E. apply bool_decide_eq_false_1 in E. exists (reverse r), c.
    by rewrite reverse_cons.
Qed.

Lemma trim_end_last host c : c <> 47 -> trim_end_slashes (host ++ [c]) = host ++ [c].
Proof.
  intros Hc. unfold trim_end_slashes. rewrite reverse_snoc. simpl.
  rewrite bool_decide_eq_false_2 by done. by rewrite reverse_cons, reverse_involutive.
Qed.

Lemma starts_with_eq p u : starts_with p u = match Text.strip_prefix p u with Some _ => true | None => false end.
Proof. unfold starts_with. destruct (Text.strip_prefix p u); [by apply bool_decide_eq_true_2|done]. Qed.

Lemma schemes_apart u host : u = http_scheme ++ host -> Text.strip_prefix https_scheme u = None.
Proof. by intros ->. Qed.

(** A candidate that names a host. *)
Lemma resolve_eq state override :
  let u := trim (default (node_url state) override) in
  some_host u -> resolve_node_url state override = scheme_of u ++ trim_end_slashes (host_of u).
Proof.
  intros u Hh. unfold resolve_node_url. fold u. destruct u as [|c u'] eqn:Eu.
  { unfold some_host in Hh. simpl in Hh. by apply Exists_nil in Hh. }
  rewrite <- Eu in *. unfold some_host, host_of, scheme_of in *. rewrite !starts_with_eq.
  destruct (Text.strip_prefix http_scheme u) as [h|] eqn:E1.
  - apply strip_prefix_Some in E1. rewrite (schemes_apart u h E1). simpl. rewrite E1. by apply trim_end_app.
  - destruct (Text.strip_prefix https_scheme u) as [h|] eqn:E2; simpl.
    + apply strip_prefix_Some in E2. rewrite E2. by apply trim_end_app.
    + exact (trim_end_app http_scheme u Hh).
Qed.

Lemma trim_end_Forall (P : Z -> Prop) b : Forall P b -> Forall P (trim_end_slashes b).
Proof.
  intros Hb. unfold trim_end_slashes. apply Forall_reverse.
  destruct (drop_while_suffix (fun c => bool_decide (c = 47)) (reverse b)) as (d & Hd & _).
  apply Forall_reverse in Hb. rewrite Hd in Hb. by apply Forall_app in Hb as [_ ?].
Qed.

Lemma host_of_Forall (P : Z -> Prop) u : Forall P u -> Forall P (host_of u).
Proof.
  intros Hu. unfold host_of. destruct (Text.strip_prefix http_scheme u) as [h|] eqn:E1.
  - apply strip_prefix_Some in E1. rewrite E1 in Hu. by apply Forall_app in Hu as [_ ?].
  - destruct (Text.strip_prefix https_scheme u) as [h|] eqn:E2; [|done].
    apply strip_prefix_Some in E2. rewrite E2 in Hu. by apply Forall_app in Hu as [_ ?].
Qed.

(** A resolved address that is resolved again. *)
Lemma resolve_again state scheme host c :
  scheme = http_scheme \/ scheme = https_scheme -> c <> 47 ->
  Forall (fun c => is_whitespace c = false) (host ++ [c]) ->
  resolve_node_url state (Some (scheme ++ host ++ [c])) = scheme ++ host ++ [c].
Proof.
  intros Hs Hc Hws. set (r := scheme ++ host ++ [c]).
  assert (trim r = r) as Ht.
  { apply trim_matches_id. apply Forall_app. split; [|done].
    destruct Hs as [-> | ->]; repeat apply Forall_cons_2; try reflexivity; apply Forall_nil_2. }
  assert (host_of r = host ++ [c] /\ scheme_of r = scheme) as [Hh Hsch].
  { unfold host_of, scheme_of. rewrite starts_with_eq. subst r. destruct Hs as [-> | ->].
    - by rewrite strip_prefix_app.
    - rewrite strip_prefix_app. done. }
  pose proof (resolve_eq state (Some r)) as Hr. cbv zeta in Hr.
  change (default (node_url state) (Some r)) with r in Hr.
  rewrite Ht in Hr. rewrite Hr.
  - by rewrite Hh, Hsch, trim_end_last.
  - unfold some_host. rewrite Hh. apply Exists_app. right. by apply Exists_cons_hd.
Qed.

(** The upstream address.  A blank candidate falls back to the configured address as it is.
    One that names a host becomes its scheme, [http] if it has none, followed by the host without
    trailing slashes: with a path appended, exactly one slash separates them.  A candidate without
    spaces in it is then in its final form: resolving the result again, on any server, changes
    nothing. *)
Theorem resolve_node_url_spec state override :
  let u := trim (default (node_url state) override) in
  (u = [] -> resolve_node_url state override = node_url state) /\
  (some_host u ->
     exists scheme host c, resolve_node_url state override = scheme ++ host ++ [c] /\
       (scheme = http_scheme \/ scheme = https_scheme) /\ c <> 47 /\
       (Forall (fun c => is_whitespace c = false) u -> forall state',
          resolve_node_url state' (Some (resolve_node_url state override)) =
            resolve_node_url state override)).
Proof.
  intros u. split; [intros Hu; unfold resolve_node_url; fold u; by rewrite Hu|].
  intros Hh. pose proof (resolve_eq state override Hh) as Hr. fold u in Hr.
  destruct (trim_end_spec (host_of u) Hh) as (host & c & Hhost & Hc). rewrite Hhost in Hr.
  exists (scheme_of u), host, c. split; [done|].
  assert (scheme_of u = http_scheme \/ scheme_of u = https_scheme) as Hs.
  { unfold scheme_of. case_match; eauto. }
  split_and!; [done|done|]. intros Hws state'. rewrite Hr. apply resolve_again; [done|done|].
  rewrite <- Hhost. by apply trim_end_Forall, host_of_Forall.
Qed.

(** ** The forwarded requests *)

Lemma utf8_app a b : utf8 (a ++ b) = (utf8 a +:+ utf8 b)%string.
Proof.
  induction a as [|c a IH]; [done|].
  change (utf8 ((c :: a) ++ b)) with (String.append (encode_char c) (utf8 (a ++ b))).
  change (utf8 (c :: a)) with (String.append (encode_char c) (utf8 a)). by rewrite IH, string_app_assoc.
Qed.

Lemma utf8_ingest_path id : utf8 (ingest_path id) = ("/ingest" +:+ "/" +:+ utf8 id)%string.
Proof. unfold ingest_path. by rewrite utf8_app. Qed.
Lemma utf8_status_path id : utf8 (status_path id) = ("/ingest/status" +:+ "/" +:+ utf8 id)%string.
Proof. unfold status_path. by rewrite utf8_app. Qed.

Lemma ingest_route id :
  one_segment (utf8 id) ->
  candidates Routes.app POST (utf8 (ingest_path id)) = [(handle_ingest_gutenberg, [utf8 id])] /\
  candidates Routes.app GET (utf8 (status_path id)) = [(handle_ingest_status, [utf8 id])].
Proof.
  intros [Hne Hs]. rewrite utf8_ingest_path, utf8_status_path. unfold candidates.
  rewrite !split_slash_app, Hs. destruct (utf8 id) as [|a s]; [done|]. split; vm_compute; reflexivity.
Qed.

Section received.
Context `{HttpStackLaws}.

Lemma ingest_received id :
  plain_segment (utf8 id) = true ->
  received Routes.app POST (utf8 (ingest_path id)) = [(handle_ingest_gutenberg, Some [utf8 id])] /\
  received Routes.app GET (utf8 (status_path id)) = [(handle_ingest_status, Some [utf8 id])].
Proof.
  intros Hid. destruct (ingest_route id (plain_no_slash _ Hid)) as [Hi Hs].
  assert (Forall (fun x => plain_segment x = true) [utf8 id]) as Hargs by (by apply Forall_singleton).
  split; apply received_plain; try done.
  - rewrite utf8_ingest_path, plain_path_app, (plain_segment_path _ Hid). reflexivity.
  - rewrite utf8_status_path, plain_path_app, (plain_segment_path _ Hid). reflexivity.
Qed.

(** The dashboard's requests.  Each of the four kinds is sent to the chosen node under a path
    that fits exactly one route of that node's table, the handler that is meant, which receives the
    book id as it was entered if this consists of unreserved characters and is no dot segment; the
    status and the body of the answer are passed on unchanged, a body that is no JSON is replaced,
    and a node that cannot be reached becomes 502. *)
Theorem ui_requests_reach {Json} (invalid_json : Json) urlencode send state node id q limit :
  plain_segment (utf8 id) = true ->
  let base := resolve_node_url state node in
  let forwarded m path query := forward invalid_json send m (base ++ path ++ query) in
  (exists path, api_ingest invalid_json send state (mkIngestParams id node) = forwarded POST path [] /\
     received Routes.app POST (utf8 path) = [(handle_ingest_gutenberg, Some [utf8 id])]) /\
  (exists path, api_status invalid_json send state (mkIngestParams id node) = forwarded GET path [] /\
     received Routes.app GET (utf8 path) = [(handle_ingest_status, Some [utf8 id])]) /\
  (exists path query,
     api_search invalid_json urlencode send state (mkSearchParams q limit node) = forwarded GET path (63 :: query) /\
     forall q', received Routes.app GET (utf8 path +:+ "?" +:+ q')%string = [(handle_search, Some [])]) /\
  (exists path, api_stats invalid_json send state (mkNodeParams node) = forwarded GET path [] /\
     received Routes.app GET (utf8 path) = [(handle_stats, Some [])]) /\
  forall m path query, forwarded m path query =
    match send m (base ++ path ++ query) with
    | Ok (status, Some body) => inl (mkProxy status body)
    | Ok (status, None) => inl (mkProxy status invalid_json)
    | Err e => inr (502, e)
    end.
Proof.
  intros Hid base forwarded. destruct (ingest_received id Hid) as [Hi Hs]. split_and!.
  - exists (ingest_path id). unfold forwarded. by rewrite app_nil_r.
  - exists (status_path id). unfold forwarded. by rewrite app_nil_r.
  - exists (ascii_text "/search"), (tail (search_query urlencode q (default 5%nat limit))).
    split; [done|]. intros q'. unfold received. rewrite query_cut.
    apply (received_plain GET "/search"%string handle_search []);
      [reflexivity|vm_compute; reflexivity|apply Forall_nil_2].
  - exists (ascii_text "/health/stats"). unfold forwarded. rewrite app_nil_r. split; [done|].
    apply (received_plain GET "/health/stats"%string handle_stats []);
      [reflexivity|vm_compute; reflexivity|apply Forall_nil_2].
  - intros m path query. unfold forwarded, forward. destruct (send _ _) as [[st [b|]]|e]; done.
Qed.
End received.

(** ** Witnesses *)

Module Example.
#[local] Existing Instances Routes.Example.cutting Routes.Example.cutting_laws.
Definition state : AppState := initial_state None.

Lemma resolve_node_url_spec_witness :
  let typed := ascii_text "  node1:6000/// " in
  resolve_node_url state (Some typed) = ascii_text "http://node1:6000" /\
  forall state', resolve_node_url state' (Some (resolve_node_url state (Some typed))) =
    resolve_node_url state (Some typed).
Proof.
  intros typed. split; [vm_compute; reflexivity|].
  destruct (resolve_node_url_spec state (Some typed)) as [_ Hspec].
  destruct Hspec as (scheme & host & c & _ & _ & _ & Hidem).
  - apply (bool_decide_unpack _). vm_compute. exact I.
  - apply Hidem. apply (bool_decide_unpack _). vm_compute. exact I.
Defined.

Lemma ui_requests_reach_witness :
  exists path, api_ingest tt (fun _ _ => Err "unreachable") state (mkIngestParams (ascii_text "11") None) =
      inr (502, "unreachable"%string) /\
    received Routes.app POST (utf8 path) = [(handle_ingest_gutenberg, Some ["11"%string])].
Proof.
  destruct (ui_requests_reach tt (fun t => t) (fun _ _ => Err "unreachable"%string) state None
    (ascii_text "11") [] None eq_refl) as ((path & Hrun & Hroute) & _).
  exists path. split; [exact Hrun|exact Hroute].
Defined.

(** A blank override gives the configured address, which nobody gave a protocol. *)
Lemma blank_override :
  resolve_node_url (initial_state (Some (ascii_text "nginx"))) (Some (ascii_text " ")) = ascii_text "nginx" /\
  resolve_node_url (initial_state (Some (ascii_text "nginx"))) None = ascii_text "http://nginx".
Proof. split; vm_compute; reflexivity. Qed.
End Example.
