(* ===== verification/Tests.v ===== *)
(** * The unit tests of the repository

    The tests of src/membership, src/storage, src/executor and src/search as far as they are about
    code that is modelled, on the definitions of this library: each is a [Definition] under its own
    name that computes whether its assertions hold.  The index that a test simulates by a local map
    is the [gmap] of Indexing.v.  Tests of the serialisation of messages, of the uniqueness of random
    ids and of network-dependent operations have no counterpart here. *)

From S2P Require Import Prelude Membership Partitioner Net Topology Storage Text Documents Search Indexing.
From S2P Require Queue Executor.
From stdpp Require Import pretty.

#[local] Open Scope Z_scope.

Import Text.Ascii.
#[local] Existing Instances string_key string_key_laws countable_serde countable_serde_laws.

(** ["127.0.0.1:port".parse().unwrap()], and [MembershipService::new] at some instant. *)
Definition bind (p : Z) : SocketAddr := mkAddr "127.0.0.1" p.
Definition service (name : string) (p : Z) : MembershipService := (new (bind p) [] (mkId name) 7).1.
Definition manager : PartitionManager := partitioner_new (service "n" 0).

(** All assertions of a test. *)
Definition asserts (l : list bool) : bool := forallb (fun b => b) l.
Notation "'assert' P" := (bool_decide P) (at level 10, P at next level, only parsing).

(** ** src/membership/tests.rs and src/membership/service.rs *)

Module MembershipTests.
Definition test_membership_creation : bool :=
  let s := service "n" 0 in
  let alive := get_alive_members s in
  asserts [assert (size (members s) = 1%nat); assert (length alive = 1%nat);
           assert (state <$> head alive = Some Alive)].

Definition test_membership_service_creation : bool :=
  let s := service "n" 0 in
  let alive := get_alive_members s in
  asserts [assert (size (members s) = 1%nat); assert (length alive = 1%nat);
           assert (id <$> head alive = Some (id (local_node s)));
           assert (state <$> head alive = Some Alive)].

Definition test_membership_get_member : bool :=
  let s := service "n" 0 in
  asserts [assert (id <$> get_member s (id (local_node s)) = Some (id (local_node s)));
           assert (get_member s (mkId "non-existent") = None)].

Definition test_membership_http_addr_calculation : bool :=
  let s := service "n" 5000 in
  asserts [assert (port (gossip_addr (local_node s)) = 5000);
           assert (port (http_addr (local_node s)) = 6000)].

Definition test_multiple_services_different_ports : bool :=
  let s1 := service "n" 0 in let s2 := service "m" 0 in
  asserts [assert (id (local_node s1) <> id (local_node s2));
           assert (size (members s1) = 1%nat); assert (size (members s2) = 1%nat)].

Definition test_node_id_hash : bool :=
  let set : gset NodeId := {[ mkId "node-1" ]} ∪ {[ mkId "node-1" ]} ∪ {[ mkId "node-2" ]} in
  assert (size set = 2%nat).

Definition test_node_state_equality : bool :=
  asserts [assert (Alive <> Suspect); assert (Alive <> Dead); assert (Suspect <> Dead)].

(** The receiver of a node does not get [last_seen], which is not serialised. *)
Definition test_node_serialization : bool :=
  let node := mkNode (mkId "test-node") (mkAddr "192.168.1.1" 5000) (mkAddr "192.168.1.1" 6000)
                Alive 42 (Some 7) in
  let restored := wire_node node in
  asserts [assert (id restored = id node); assert (gossip_addr restored = gossip_addr node);
           assert (http_addr restored = http_addr node); assert (state restored = state node);
           assert (incarnation restored = incarnation node); assert (last_seen restored = None)].

Lemma membership_tests_pass :
  asserts [test_membership_creation; test_membership_service_creation; test_membership_get_member;
           test_membership_http_addr_calculation; test_multiple_services_different_ports;
           test_node_id_hash; test_node_state_equality; test_node_serialization] = true.
Proof. vm_compute. reflexivity. Qed.
End MembershipTests.

(** ** src/storage/tests.rs and src/storage/partitioner.rs *)

Module StorageTests.
Definition test_partition_deterministic : bool :=
  let p1 := get_partition manager "book_100" in
  let p2 := get_partition manager "book_100" in
  asserts [assert (p1 = p2); assert (p1 < 256)].

Definition test_partition_is_deterministic : bool :=
  let p1 := get_partition manager "book_100" in
  let p2 := get_partition manager "book_100" in
  assert (p1 = p2).

(** The keys of the loops. *)
Definition keys (prefix : string) (n : nat) : list string :=
  (fun i : nat => String.append prefix (pretty i)) <$> seq 0 n.

Definition test_partition_is_within_range (count : nat) : bool :=
  forallb (fun key => assert (get_partition manager key < num_partitions manager))
    (keys "test_key_" count).

(** More than [least] partitions are used by [count] books. *)
Definition test_partition_distribution (count least : nat) : bool :=
  let used : gset Z := list_to_set (get_partition manager <$> keys "book_" count) in
  assert (least < size used)%nat.

Definition test_get_owners_returns_primary_and_backup : bool :=
  assert (length (get_owners manager 0) = 1%nat).

Definition test_my_primary_partitions : bool :=
  assert (Z.of_nat (length (my_primary_partitions manager)) = num_partitions manager).

Definition TestBook : Type := (string * string * string).
Definition book_map : DistributedMap string TestBook := map_new manager.

Definition test_distributed_map_store_and_get_local : bool :=
  let book := ("book-001", "Rust Programming", "Steve")%string in
  let partition := get_partition manager "book-001" in
  let map := store_local partition "book-001"%string book book_map in
  assert (get_local "book-001"%string map = Some book).

Definition test_distributed_map_get_nonexistent_key : bool :=
  assert (get_local "nonexistent"%string book_map = None).

Definition test_distributed_map_overwrite_value : bool :=
  let book1 := ("book-001", "Original Title", "Author 1")%string in
  let book2 := ("book-001", "Updated Title", "Author 2")%string in
  let partition := get_partition manager "book-001" in
  let map := store_local partition "book-001"%string book1 book_map in
  let map := store_local partition "book-001"%string book2 map in
  assert (get_local "book-001"%string map = Some book2).

Definition test_distributed_map_multiple_keys (count : nat) : bool :=
  let book key : TestBook := (key, String.append "Title " key, String.append "Author " key) in
  let map := foldl (fun map key => store_local (get_partition manager key) key (book key) map)
               book_map (keys "book-" count) in
  forallb (fun key => assert (get_local key map = Some (book key))) (keys "book-" count).

Definition test_distributed_map_with_vec_value : bool :=
  let book_ids := ["book-001"; "book-002"; "book-003"]%string in
  let map : DistributedMap string (list string) :=
    store_local (get_partition manager "rust") "rust"%string book_ids (map_new manager) in
  assert (get_local "rust"%string map = Some book_ids).

Definition test_distributed_map_append_to_vec : bool :=
  let partition := get_partition manager "programming" in
  let push id (map : DistributedMap string (list string)) :=
    let books := default [] (get_local "programming"%string map) in
    store_local partition "programming"%string (books ++ [id]) map in
  let map := store_local partition "programming"%string [] (map_new manager) in
  let map := push "book-002"%string (push "book-001"%string map) in
  assert (get_local "programming"%string map = Some ["book-001"; "book-002"]%string).

(** The loops over 1000 and 10000 keys in part; [get_partition_range] is about all keys. *)
Lemma storage_tests_pass :
  asserts [test_partition_deterministic; test_partition_is_deterministic;
           test_partition_is_within_range 300; test_partition_distribution 300 100;
           test_get_owners_returns_primary_and_backup; test_my_primary_partitions;
           test_distributed_map_store_and_get_local; test_distributed_map_get_nonexistent_key;
           test_distributed_map_overwrite_value; test_distributed_map_multiple_keys 100;
           test_distributed_map_with_vec_value; test_distributed_map_append_to_vec] = true.
Proof. vm_compute. reflexivity. Qed.
End StorageTests.

(** ** src/search/tests.rs *)

Module SearchTests.
Definition has (tokens : gset text) (word : string) : bool := assert (ascii_text word ∈ tokens).
Definition queries (tokens : list text) (word : string) : bool := assert (ascii_text word ∈ tokens).

Definition test_tokenize_text_basic : bool :=
  let tokens := tokenize_text (ascii_text "Hello World") in
  asserts [has tokens "hello"; has tokens "world"].

Definition test_tokenize_text_lowercase : bool :=
  let tokens := tokenize_text (ascii_text "RUST Programming LANGUAGE") in
  asserts [has tokens "rust"; has tokens "programming"; has tokens "language";
           negb (has tokens "RUST"); negb (has tokens "Programming")].

Definition test_tokenize_text_filters_short_words : bool :=
  let tokens := tokenize_text (ascii_text "I am a Rust programmer") in
  asserts [has tokens "rust"; has tokens "programmer";
           negb (has tokens "i"); negb (has tokens "am"); negb (has tokens "a")].

Definition test_tokenize_text_unique_tokens : bool :=
  let tokens := tokenize_text (ascii_text "rust rust rust programming rust") in
  assert (length (filter (fun t => t = ascii_text "rust") (elements tokens)) = 1%nat).

Definition test_tokenize_text_removes_punctuation : bool :=
  let tokens := tokenize_text (ascii_text "Hello, World! How are you?") in
  asserts [has tokens "hello"; has tokens "world"; has tokens "how"; has tokens "are";
           has tokens "you"; negb (has tokens "hello,"); negb (has tokens "world!")].

Definition test_tokenize_text_empty_string : bool := assert (tokenize_text (ascii_text "") = ∅).

Definition test_tokenize_text_only_short_words : bool :=
  assert (tokenize_text (ascii_text "I am a be to") = ∅).

Definition test_tokenize_text_numbers_ignored : bool :=
  let tokens := tokenize_text (ascii_text "Rust 2024 Programming 123") in
  asserts [has tokens "rust"; has tokens "programming"; negb (has tokens "2024");
           negb (has tokens "123")].

Definition test_tokenize_query_basic : bool :=
  let tokens := tokenize_query (ascii_text "rust programming") in
  asserts [assert (length tokens = 2%nat); queries tokens "rust"; queries tokens "programming"].

Definition test_tokenize_query_preserves_order : bool :=
  assert (tokenize_query (ascii_text "first second third") =
          ascii_text <$> ["first"; "second"; "third"]%string).

Definition test_tokenize_query_filters_short : bool :=
  let tokens := tokenize_query (ascii_text "a is the rust") in
  asserts [queries tokens "rust"; queries tokens "the"; negb (queries tokens "a");
           negb (queries tokens "is")].

Definition test_tokenize_query_trims_punctuation : bool :=
  let tokens := tokenize_query (ascii_text "hello, world!") in
  asserts [queries tokens "hello"; queries tokens "world"].

Definition test_tokenize_query_empty : bool := assert (tokenize_query (ascii_text "") = []).

Definition test_tokenize_query_allows_duplicates : bool :=
  assert (length (tokenize_query (ascii_text "rust rust rust")) = 3%nat).

(** JSON there and back. *)
Definition restored {V : Type} `{Serde V} (v : V) : result V :=
  match to_json v with Ok json => from_json json | Err e => Err e end.

Definition test_book_metadata_serialization : bool :=
  let book := mkBook (ascii_text "book-123") (ascii_text "The Rust Programming Language")
    (ascii_text "Steve Klabnik") (ascii_text "en") (Some 2019) 1500 85 in
  match restored book with
  | Ok b => asserts [assert (bm_book_id b = bm_book_id book); assert (bm_title b = bm_title book);
              assert (bm_author b = bm_author book); assert (bm_year b = Some 2019);
              assert (bm_word_count b = 1500%nat)]
  | Err _ => false
  end.

Definition test_book_metadata_optional_year : bool :=
  let book := mkBook (ascii_text "ancient-book") (ascii_text "Unknown Manuscript")
    (ascii_text "Anonymous") (ascii_text "la") None 0 0 in
  match restored book with Ok b => assert (bm_year b = None) | Err _ => false end.

(** The scoring loop that a test repeats, over the index it builds, with [bump] of the engine. *)
Definition scores (index : gmap string (list text)) (tokens : list text) : gmap text nat :=
  foldl (fun book_scores token => foldl Search.bump book_scores (default [] (index !! utf8 token)))
    ∅ tokens.

Definition test_scoring_logic_count_matching_tokens : bool :=
  let query_tokens := tokenize_query (ascii_text "rust programming language") in
  let b1 := ascii_text "book-1" in let b2 := ascii_text "book-2" in
  let index : gmap string (list text) :=
    list_to_map [("rust", [b1; b2]); ("programming", [b1]); ("language", [b1])]%string in
  let book_scores := scores index query_tokens in
  asserts [assert (book_scores !! b1 = Some 3%nat); assert (book_scores !! b2 = Some 1%nat)].

Definition test_scoring_no_matches : bool :=
  let query_tokens := tokenize_query (ascii_text "xyz abc") in
  let index : gmap string (list text) := list_to_map [("rust"%string, [ascii_text "book-1"])] in
  assert (scores index query_tokens = ∅).

Definition test_tokenize_text_special_characters : bool :=
  let tokens := tokenize_text (ascii_text "C++ is not C# but Rust is great!") in
  asserts [has tokens "not"; has tokens "but"; has tokens "rust"; has tokens "great";
           negb (has tokens "c++"); negb (has tokens "c#")].

Lemma search_tests_pass :
  asserts [test_tokenize_text_basic; test_tokenize_text_lowercase;
           test_tokenize_text_filters_short_words; test_tokenize_text_unique_tokens;
           test_tokenize_text_removes_punctuation; test_tokenize_text_empty_string;
           test_tokenize_text_only_short_words; test_tokenize_text_numbers_ignored;
           test_tokenize_query_basic; test_tokenize_query_preserves_order;
           test_tokenize_query_filters_short; test_tokenize_query_trims_punctuation;
           test_tokenize_query_empty; test_tokenize_query_allows_duplicates;
           test_book_metadata_serialization; test_book_metadata_optional_year;
           test_scoring_logic_count_matching_tokens; test_scoring_no_matches;
           test_tokenize_text_special_characters] = true.
Proof. vm_compute. reflexivity. Qed.
End SearchTests.

(** ** src/executor/tests.rs *)

Module ExecutorTests.
Import Queue Executor.

(** A payload, and the outside that handlers change. *)
Abbreviation Registry := (TaskHandlerRegistry (P := string * string) (W := gmap string (list text))).
Definition is_err (r : result unit) (e : string) : bool := assert (r = Err e).

Definition test_registry_register_and_execute : bool :=
  let registry := register "test_handler" (fun _ => fun calls : nat => (Ok tt, S calls))
                    (registry_new (P := unit)) in
  let '(result, call_count) := execute registry (Execute "test_handler" tt) 0%nat in
  asserts [has_handler "test_handler" registry; assert (handler_count registry = 1%nat);
           is_ok result; assert (call_count = 1%nat)].

Definition test_registry_unknown_handler_returns_error : bool :=
  let '(result, _) := execute (registry_new (P := unit) (W := unit))
                        (Execute "non_existent_handler" tt) tt in
  is_err result "Unknown task handler: non_existent_handler".

Definition test_registry_handler_can_fail : bool :=
  let registry := register "failing_handler" (fun _ => st_ret (Err "Intentional error"))
                    (registry_new (P := unit) (W := unit)) in
  is_err (execute registry (Execute "failing_handler" tt) tt).1 "Intentional error".

Definition test_registry_handler_receives_payload : bool :=
  let registry := register "payload_handler"
    (fun task => match task with
                 | Execute _ payload => fun _ : option (string * string) => (Ok tt, Some payload)
                 end) registry_new in
  let '(_, received) := execute registry (Execute "payload_handler" ("123", "Test Book")%string) None in
  assert (received = Some ("123", "Test Book")%string).

Definition test_task_status_equality : bool :=
  asserts [assert (Pending <> Running); assert (Failed "test" = Failed "test");
           assert (Failed "test" <> Failed "other")].

(** The tests index into a map of their own, with [add_token] of Indexing.v for its entries. *)
Definition index_book (book_id title : string) (index : gmap string (list text))
    : gmap string (list text) :=
  add_document (ascii_text book_id) (elements (tokenize_text (ascii_text title))) index.
Definition lists (index : gmap string (list text)) (token book_id : string) : bool :=
  assert (ascii_text book_id ∈ default [] (index !! token)).

Definition test_index_book_handler_logic : bool :=
  let map := index_book "book-001" "The Rust Programming Language" ∅ in
  asserts [lists map "rust" "book-001"; lists map "programming" "book-001";
           assert (is_Some (map !! "language"%string))].

Definition test_multiple_books_same_token : bool :=
  let map := foldl (fun map b => index_book b.1 b.2 map) ∅
    [("book-001", "Rust Programming"); ("book-002", "Programming with Golang");
     ("book-003", "Python Programming")]%string in
  asserts [assert (length <$> map !! "programming"%string = Some 3%nat);
           lists map "programming" "book-001"; lists map "programming" "book-002";
           lists map "programming" "book-003";
           assert (length <$> map !! "rust"%string = Some 1%nat);
           assert (length <$> map !! "golang"%string = Some 1%nat)].

Definition test_full_indexing_flow_with_registry : bool :=
  let registry : Registry := register "index_book"
    (fun task => match task with
                 | Execute _ (book_id, title) => fun map => (Ok tt, index_book book_id title map)
                 end) registry_new in
  let '(result, map) := execute registry
    (Execute "index_book" ("test-book-123", "Advanced Rust Patterns")%string) ∅ in
  asserts [is_ok result; assert (is_Some (map !! "advanced"%string));
           assert (is_Some (map !! "rust"%string)); assert (is_Some (map !! "patterns"%string));
           lists map "rust" "test-book-123"].

Lemma executor_tests_pass :
  asserts [test_registry_register_and_execute; test_registry_unknown_handler_returns_error;
           test_registry_handler_can_fail; test_registry_handler_receives_payload;
           test_task_status_equality; test_index_book_handler_logic;
           test_multiple_books_same_token; test_full_indexing_flow_with_registry] = true.
Proof. vm_compute. reflexivity. Qed.
End ExecutorTests.
